(* ===== verification/_CoqProject ===== *)
-Q . S2P
Prelude.v
GoBase.v
Base64.v
Utf8.v
Json.v
JsonLit.v
GoTime.v
Codec.v
Hash.v
Storage.v
Logic.v
Scan.v
Cells.v
MemoryKV.v
MemoryBlob.v
Sequential.v
Testing.v
KeyRange.v
Slate.v
SlateProps.v
ExactReader.v
S3.v
S3Props.v
Engine.v
CasData.v
Cas.v
CasLogic.v
CasSeq.v
CasList.v
CasProps.v
QueueData.v
Queue.v
QueueLogic.v
QueueSafe.v
QueueSeq.v
QueueProps.v
TreeData.v
TreeIds.v
Tree.v
TreeLogic.v
TreeSafe.v
TreeGC.v
TreeSeq.v
TreeProps.v
LruData.v
Lru.v
LruLogic.v
LruSafe.v
LruVictims.v
LruSeq.v
LruProps.v
History.v
CasHistory.v
LruHistory.v
QueueHistory.v
TreeHistory.v
Coexist.v
Production.v
SharedHistory.v
Demos.v
