(* ===== verification/Prelude.v ===== *)
(** * s3collections: a verification development

    The repository is a Go library of transactional collections over object
    storage. Package [storage] defines a key/value interface with serializable
    transactions ([KV]), a blob interface ([BlobStore]) and their engines; four
    packages keep their data in them: [cas] (records with revisions and
    tombstones), [queue] (jobs with leases), [lru] (metadata with eviction) and
    [tree] (a content-addressed tree with refs, leases and a garbage
    collector). Collections never talk to each other: they meet in the storage
    they share, and everything hard about them is what happens between two of
    their storage operations.

    ** How programs are modelled

    A collection operation is a [prog] (Storage.v), a free monad whose
    constructors are the operations of the interfaces and what else the code
    asks of the world: the context, the clock, random bytes. A transaction
    callback is a [tx], and the Go variables it assigns to are threaded through
    it explicitly ([fn]), because they survive an error and a retry. The same
    [prog] is read in three ways:
    - [run] executes it alone on an engine (a type with instances of [KV] and
      [BlobStore]); witnesses evaluate it by [vm_compute];
    - [step] (Logic.v) gives the steps the storage contract allows: an access
      may fail, a failure is never disguised as [ErrNotFound] and changes
      nothing, a callback may run on a stale snapshot if its transaction does
      not commit; [pool_steps] interleaves any number of programs at the
      granularity of storage accesses, and [runs_in] one program with anything
      that keeps an invariant;
    - [safe] is a predicate transformer for the second reading, with a bind
      rule, a rule for the retry loop, and soundness theorems for [runs_in],
      [pool_steps] and [run]. It carries the history of the program's accesses,
      so that a postcondition can say which access was the operation.
    Concurrency is therefore modelled at the level of storage accesses; the
    mutexes of the in-memory engine make each access one step.

    ** Files

    Shared: Prelude (strings, order, lists, counters, automation), GoBase
    (errors, results, 64-bit integers, time), Base64, Utf8, Json, JsonLit,
    GoTime, Codec (encoding/base64, unicode/utf8, encoding/json and RFC 3339
    times as the records use them; [GoJSON] is the codec interface with its
    round-trip law), Hash (SHA-256, MD5, FNV-1a, executable).

    Package storage (src/storage): Storage (storage.go: data, interfaces as
    type classes, effects, and the contracts [KVContract], [BlobContract]),
    Logic (reasoning), Scan (memory.go scanEntries), Cells (key spaces of JSON
    records, the interface the collections share), MemoryKV and MemoryBlob
    (memory.go, instances of the contracts), Sequential and Testing (exact runs
    on the in-memory engine), KeyRange, Slate, SlateProps (slatedb.go and
    slatedb_stub.go), ExactReader, S3, S3Props (s3.go), Engine (storage.go).

    Each collection has a data file (records, JSON, options, keys), a file with
    its operations under their Go names, a Logic file (its key space, how its
    records may change, what single transactions do), further files for whole
    operations under interference and alone, and a Props file:
    cas/cas.go is CasData, Cas, CasLogic, CasSeq, CasList, CasProps;
    queue/queue.go is QueueData, Queue, QueueLogic, QueueSafe, QueueSeq,
    QueueProps; tree/tree.go is TreeData, TreeIds, Tree, TreeLogic, TreeSafe,
    TreeGC, TreeSeq, TreeProps; lru/lru.go is LruData, Lru, LruLogic, LruSafe,
    LruVictims, LruSeq, LruProps. An operation with a transaction has its
    callback as a definition of its own ([create_fn] for the closure in
    [Create]).

    Coexist puts collections on one engine: [Collection] is what a component
    promises to its neighbours (an invariant and changes confined to its own
    prefixes), with an instance for each of the four. Production composes it
    with the engine of a deployment, SlateDB for metadata and S3 for bodies.
    History says what a history of concurrent calls is and when it is explained
    by a run of an abstract system; CasHistory, QueueHistory, TreeHistory and
    LruHistory do it for the collections, and SharedHistory for all collections
    of an engine at once ([Linearizable] is what each of them contributes).
    Demos has the programs of src/examples.

    ** What the theorems show

    - Storage: scans are exact, ordered and can be paged; the buffered
      transaction of MemoryKV is an atomic one; sizes are enforced by
      [readExactSize] and the streaming [exactSizeReader]; the range scan of
      the SlateDB adapter is the scan of MemoryKV, and the adapter meets the
      contract over any lawful database; S3 uploads are exact over any lawful
      client; an engine is closed once.
    - For each collection, that interleaved clients keep its records
      well-formed and change them only along its state machine
      ([*_clients_safe]), and that an operation takes effect in one access, or
      not at all: cas and lru against an executable specification ([spec]),
      the queue's claims, renewals and completions against the job state
      machine, the tree's refs and leases against versions and fencing tokens.
    - Whole histories: any number of callers of a collection, listings,
      maintenance, garbage collection and eviction included, interleaved with
      anything elsewhere on the engine, are linearizable once they have
      returned ([*_histories_linearizable]): one sequence of abstract actions is
      a run, keeps the order of what the callers saw, and has each call act
      between its invocation and its return exactly as it answered. A call may
      act more than once where the code does: a completion marks and removes, a
      garbage collection, an eviction and an unfenced sweep remove one by one.
      Collections on one engine are linearizable together
      ([engine_histories_linearizable]).
    - Collections whose prefixes are not comparable share an engine without
      seeing each other ([collections_coexist]); stores and queues of distinct
      names, caches below ["lru/"] and the one tree an engine can hold are such
      a layout ([layout_apart]).
    - The same clients on SlateDB and S3, over any lawful database and client,
      keep every collection well-formed ([collections_in_production]); the blob
      contract is weak enough for S3, where a key and the key without its
      leading slash are one object.
    - Alone on the in-memory engine, every branch of an operation returns what
      its specification says ([cas_refines_spec], [lru_operations_refine_spec],
      [claim_finds_work], [blob_round_trip], [collect_is_exact]).
    - What the collections are for: no lost update and exact listing (cas);
      exclusive leases, first-in-first-out claims and no lost job (queue); the
      least recently used entries go first, exactly as many as needed, and an
      entry used meanwhile is spared (lru); content addresses, fencing and a
      collector that removes exactly what is unreachable (tree).
    - Deviations between code and documentation are theorems too, in the last
      section of the Props files.

    ** Bounds and fuel

    Integers are [Z] with their wrap-around written out ([u64], [i64]);
    revisions, versions and tokens are proved to identify values only up to
    their overflow. A retry loop is 16 attempts long, as in the code. The
    recursion of [Tree.PlanGC] follows node IDs in storage and has fuel; more
    fuel than the store has entries is proved to be enough. JSON parsing and
    printing have fuel that is proved to be enough by their round trips.

    ** Not modelled

    The SlateDB library and the AWS SDK: the type classes [SlateDB] and
    [S3Client] are what the code calls of them, and [SlateDBLaws] and
    [S3ClientLaws] the behaviour that the theorems about the adapters assume,
    with a map as an instance of each. Modification times, the text of error
    messages beyond the format strings, and memory aliasing of byte slices
    (every engine copies them) are left out. An evictor with several workers is
    several [evict_worker]s side by side; goroutines are loops over what their
    tickers report. The tests, unit and integration, are not modelled. *)

From Stdlib Require Export ZArith NArith Lia.
From stdpp Require Export base gmap strings list sorting.

(** ** Automation *)

(** The lemmas that close the routine goals of the development: string
    prefixes, round trips of the codecs, order facts. *)
Create HintDb s3db.

Ltac invc H := inversion H; subst; clear H.

(** Split every [if]/[match] of the goal, remembering the equations, and
    discharge the branches that contradict the context. *)
Ltac split_cases :=
  repeat (case_match; simplify_eq/=; try done).

(** ** Byte strings

    A Go [string] and a Go [[]byte] are both modelled as [string], the type of
    byte strings. *)

Declare Scope go_scope.
Delimit Scope go_scope with go.

(** [strings.HasPrefix] *)
Fixpoint has_prefix (p s : string) : bool :=
  match p, s with
  | EmptyString, _ => true
  | String a p', String b s' => bool_decide (a = b) && has_prefix p' s'
  | String _ _, EmptyString => false
  end.

(** [strings.HasSuffix(s, "/")] *)
Fixpoint ends_in_slash (s : string) : bool :=
  match s with
  | EmptyString => false
  | String a EmptyString => Ascii.eqb a (Ascii.ascii_of_nat 47)
  | String _ s' => ends_in_slash s'
  end.

(** [strings.TrimPrefix(s, "/")] *)
Definition trim_slash (s : string) : string :=
  match s with
  | String a s' => if Ascii.eqb a (Ascii.ascii_of_nat 47) then s' else s
  | EmptyString => EmptyString
  end.

(** [s[n:]] for [n <= len(s)] *)
Fixpoint str_drop (n : nat) (s : string) : string :=
  match n, s with
  | O, _ => s
  | S n', String _ s' => str_drop n' s'
  | S _, EmptyString => EmptyString
  end.

(** [s[:n]] for [n <= len(s)] *)
Fixpoint str_take (n : nat) (s : string) : string :=
  match n, s with
  | O, _ => EmptyString
  | S n', String a s' => String a (str_take n' s')
  | S _, EmptyString => EmptyString
  end.

(** Go's [<] on strings: byte-lexicographic. *)
Definition str_lt (a b : string) : Prop := String.ltb a b = true.

#[export] Instance str_lt_dec : RelDecision str_lt.
Proof. intros a b. unfold str_lt. apply _. Defined.

#[local] Arguments String.append !s1 s2 / : simpl nomatch.

Lemma str_app_nil_r (s : string) : s +:+ EmptyString = s.
Proof. induction s; simpl; congruence. Qed.

Lemma str_app_assoc (a b c : string) : a +:+ (b +:+ c) = (a +:+ b) +:+ c.
Proof. induction a; simpl; congruence. Qed.

Lemma str_length_app (a b : string) :
  String.length (a +:+ b) = String.length a + String.length b.
Proof. induction a; simpl; congruence. Qed.

Lemma has_prefix_spec (p s : string) :
  has_prefix p s = true <-> exists r, s = p +:+ r.
Proof.
  revert s. induction p as [|a p IH]; intros s; simpl.
  - split; eauto.
  - destruct s as [|b s]; [split; [done|intros [r ?]; done]|].
    rewrite andb_true_iff, bool_decide_eq_true, IH. split.
    + intros [-> [r ->]]. by exists r.
    + intros [r Hr]. simplify_eq. eauto.
Qed.

Lemma has_prefix_app (p r : string) : has_prefix p (p +:+ r) = true.
Proof. apply has_prefix_spec. eauto. Qed.

Lemma str_drop_app (p r : string) : str_drop (String.length p) (p +:+ r) = r.
Proof. induction p; simpl; auto. Qed.

Lemma str_app_inj_l (p a b : string) : p +:+ a = p +:+ b -> a = b.
Proof. induction p; simpl; intros; simplify_eq; auto. Qed.

(** Two prefixes of the same string are comparable. *)
Lemma str_app_split (a b c d : string) :
  a +:+ b = c +:+ d ->
  (exists r, c = a +:+ r) \/ (exists r, a = c +:+ r).
Proof.
  revert c. induction a as [|x a IH]; intros c; simpl; [eauto|].
  destruct c as [|y c]; simpl; [eauto|].
  intros ?; simplify_eq.
  match goal with H : _ = _ |- _ => destruct (IH _ H) as [[r ->]|[r ->]] end; eauto.
Qed.

#[export] Hint Resolve has_prefix_app : s3db.
(** Rewriting database of the same facts. *)
Create Rewrite HintDb s3rw.
#[export] Hint Rewrite str_drop_app has_prefix_app str_app_nil_r : s3rw.

(** *** The order *)

Lemma str_compare_refl (a : string) : String.compare a a = Eq.
Proof.
  destruct (String.compare a a) eqn:E; [done| |];
    pose proof (String.compare_antisym a a) as H; rewrite E in H; done.
Qed.

Lemma str_lt_le (a b : string) : str_lt a b <-> String.le a b /\ a <> b.
Proof.
  unfold str_lt, String.le, String.ltb, String.leb. split.
  - destruct (String.compare a b) eqn:E; intros; try done. split; [done|].
    intros ->. by rewrite str_compare_refl in E.
  - intros [H Hne]. destruct (String.compare a b) eqn:E; try done.
    by apply String.compare_eq_iff in E.
Qed.

#[export] Instance str_lt_irrefl : Irreflexive str_lt.
Proof. intros a H. apply str_lt_le in H. tauto. Qed.

#[export] Instance str_lt_trans : Transitive str_lt.
Proof.
  intros a b c [H1 N1]%str_lt_le [H2 N2]%str_lt_le. apply str_lt_le. split.
  - by trans b.
  - intros ->. by apply N2, (anti_symm String.le).
Qed.

Lemma str_lt_total (a b : string) : str_lt a b \/ a = b \/ str_lt b a.
Proof.
  destruct (decide (a = b)) as [->|Hne]; [auto|].
  destruct (total String.le a b); [left|right; right]; apply str_lt_le; auto.
Qed.

Lemma str_not_lt (a b : string) : ~ str_lt a b <-> String.le b a.
Proof.
  split.
  - intros H. destruct (str_lt_total a b) as [?|[->|[? _]%str_lt_le]]; done.
  - intros H [H1 H2]%str_lt_le. by apply H2, (anti_symm String.le).
Qed.

Lemma str_le_lt_eq (a b : string) : String.le a b <-> str_lt a b \/ a = b.
Proof.
  rewrite str_lt_le. destruct (decide (a = b)) as [->|]; [|tauto].
  split; [auto|]. intros _. reflexivity.
Qed.

Lemma str_empty_lt (a : string) : a <> EmptyString -> str_lt EmptyString a.
Proof. destruct a; done. Qed.

(** ** Lists *)

(** A strictly sorted list is determined by its elements. *)
Lemma strict_sorted_ext (R : relation string) `{!Transitive R, !Irreflexive R} l1 l2 :
  StronglySorted R l1 -> StronglySorted R l2 ->
  (forall x, x ∈ l1 <-> x ∈ l2) -> l1 = l2.
Proof.
  revert l2. induction l1 as [|a l1 IH]; intros l2 H1 H2 He.
  { destruct l2 as [|b l2]; [done|].
    assert (b ∈ ([] : list string)) as ?%not_elem_of_nil by (apply He; left). done. }
  destruct l2 as [|b l2].
  { assert (a ∈ ([] : list string)) as ?%not_elem_of_nil by (apply He; left). done. }
  apply StronglySorted_cons in H1 as [F1 S1].
  apply StronglySorted_cons in H2 as [F2 S2].
  rewrite Forall_forall in F1, F2.
  assert (Irr : forall x, ~ R x x) by (intros x; apply irreflexivity, _).
  assert (a = b) as ->.
  { assert (a ∈ b :: l2) as Ha by (apply He; left).
    assert (b ∈ a :: l1) as Hb by (apply He; left).
    apply elem_of_cons in Ha as [?|Ha]; [done|].
    apply elem_of_cons in Hb as [?|Hb]; [done|].
    destruct (Irr a). trans b; auto. }
  f_equal. apply IH; [done..|]. intros x. specialize (He x).
  rewrite !elem_of_cons in He.
  split; intros Hx; (destruct (decide (x = b)) as [->|]; [|tauto]);
    exfalso; eapply Irr; eauto.
Qed.

Lemma StronglySorted_filter {A} (R : relation A) (P : A -> Prop) `{HP : !forall x, Decision (P x)} l :
  StronglySorted R l -> StronglySorted R (filter P l).
Proof.
  induction 1 as [|a l Hs IH F]; [constructor|].
  rewrite filter_cons. case_decide; [|done].
  constructor; [done|]. rewrite Forall_forall in *. intros x Hx.
  apply list_elem_of_filter in Hx. naive_solver.
Qed.

Lemma StronglySorted_take {A} (R : relation A) n l :
  StronglySorted R l -> StronglySorted R (take n l).
Proof.
  intros H. rewrite <- (take_drop n l) in H. by apply StronglySorted_app_1_l in H.
Qed.

Lemma StronglySorted_snoc {A} (R : relation A) l x :
  StronglySorted R l -> Forall (fun y => R y x) l -> StronglySorted R (l ++ [x]).
Proof.
  intros H F. apply StronglySorted_app_2; [|done|repeat constructor].
  rewrite Forall_forall in F. set_solver.
Qed.

Lemma StronglySorted_reverse {A} (R : relation A) l :
  StronglySorted R l -> StronglySorted (flip R) (reverse l).
Proof.
  induction 1 as [|a l Hs IH F]; [constructor|].
  rewrite reverse_cons. apply StronglySorted_snoc; [done|].
  rewrite Forall_forall in *. intros y Hy. apply F. by rewrite elem_of_reverse in Hy.
Qed.

(** ** Counters

    A value guarded by a counter that grows with every change of it: equal
    counts are equal values. *)
Lemma counter_identifies {S A} (step : relation S) (inv : S -> Prop) (count : S -> Z) (val : S -> A) a b :
  (forall x y, inv x -> step x y -> inv y /\ (val y = val x /\ count y = count x \/ (count x < count y)%Z)) ->
  inv a -> rtc step a b ->
  (count a <= count b)%Z /\ (count b = count a -> val b = val a).
Proof.
  intros Hstep Ha Hr. induction Hr as [a|a c b H1 _ IH]; [done|].
  destruct (Hstep a c Ha H1) as [Hc Hd]. destruct (IH Hc) as [Hle Heq].
  destruct Hd as [[E1 E2]|Hlt]; [rewrite E2, E1 in *; done|]. split; [lia|]. intros E. lia.
Qed.
