(* ===== verification/GoBase.v ===== *)
(** * Go base types

    What the rest of the development uses of the Go language: [error] values
    and [errors.Is], results, machine integers with their wrap-around,
    [time.Time] and [time.Duration], and the byte view of strings. *)
From Stdlib Require Import Ascii.
From S2P Require Import Prelude.

(** ** Errors

    A package-level [errors.New] variable is a [Sentinel], named by its
    message: the messages of the sentinels of the program are pairwise
    different. An [errors.New] evaluated in place is [Plain]; [fmt.Errorf]
    with a [%w] verb is [Wrap], keeping the format string; [errors.Join] is
    [Join]. *)
Inductive error : Type :=
| Sentinel (msg : string)
| Plain (msg : string)
| Wrap (fmt : string) (e : error)
| Join (e1 e2 : error).

#[export] Instance error_eq_dec : EqDecision error.
Proof. solve_decision. Defined.

(** [errors.Is(err, target)] for a sentinel target *)
Fixpoint errors_is (e target : error) : bool :=
  bool_decide (e = target) ||
  match e with
  | Wrap _ e' => errors_is e' target
  | Join e1 e2 => errors_is e1 target || errors_is e2 target
  | _ => false
  end.

Lemma errors_is_refl e : errors_is e e = true.
Proof. destruct e; simpl; by rewrite bool_decide_true. Qed.

(** The two ways a [context.Context] ends, and the error [ctx.Err()] reports. *)
Inductive ctx_cause := Canceled | DeadlineExceeded.
Definition ctx_error (c : ctx_cause) : error :=
  match c with
  | Canceled => Sentinel "context canceled"
  | DeadlineExceeded => Sentinel "context deadline exceeded"
  end.

(** ** Results *)

Inductive result (A : Type) : Type :=
| Ok (a : A)
| Err (e : error).
Arguments Ok {A} a.
Arguments Err {A} e.

#[export] Instance result_ret : MRet result := @Ok.
#[export] Instance result_bind : MBind result :=
  fun A B f r => match r with Ok a => f a | Err e => Err e end.

Definition is_ok {A} (r : result A) : bool :=
  match r with Ok _ => true | Err _ => false end.

(** ** Machine integers *)

(** the value of an [uint64] expression *)
Definition u64 (z : Z) : Z := z `mod` 2 ^ 64.
(** the value of an [int64] (or, on the supported platforms, [int])
    expression *)
Definition i64 (z : Z) : Z := (z + 2 ^ 63) `mod` 2 ^ 64 - 2 ^ 63.

Definition in_u64 (z : Z) : Prop := (0 <= z < 2 ^ 64)%Z.
Definition in_i64 (z : Z) : Prop := (- 2 ^ 63 <= z < 2 ^ 63)%Z.

Lemma u64_id z : in_u64 z -> u64 z = z.
Proof. unfold in_u64, u64. intros. by apply Z.mod_small. Qed.

Lemma i64_id z : in_i64 z -> i64 z = z.
Proof. unfold in_i64, i64. intros. rewrite Z.mod_small; lia. Qed.

Lemma u64_range z : in_u64 (u64 z).
Proof. unfold in_u64, u64. apply Z.mod_pos_bound. lia. Qed.

Lemma i64_range z : in_i64 (i64 z).
Proof.
  unfold in_i64, i64. pose proof (Z.mod_pos_bound (z + 2 ^ 63) (2 ^ 64)). lia.
Qed.

(** The successor of an [uint64] counter differs from it. *)
Lemma u64_succ_neq z : in_u64 z -> u64 (z + 1) <> z.
Proof.
  unfold in_u64, u64. intros H E.
  destruct (decide (z = 2 ^ 64 - 1)%Z) as [->|Hne]; [done|].
  rewrite Z.mod_small in E; lia.
Qed.

#[export] Hint Resolve u64_range i64_range : s3db.

(** ** Time

    A [time.Time] in UTC is its distance in nanoseconds from the zero
    [Time], January 1 of year 1; a [time.Duration] is a number of
    nanoseconds. *)
Definition time : Set := Z.
Definition duration : Set := Z.

Definition zero_time : time := 0%Z.
Definition IsZero (t : time) : bool := (t =? 0)%Z.
Definition Before (a b : time) : bool := (a <? b)%Z.
Definition After (a b : time) : bool := (b <? a)%Z.
Definition Add (t : time) (d : duration) : time := (t + d)%Z.

Definition second : duration := 1000000000%Z.
Definition minute : duration := (60 * second)%Z.
(** January 1, 1970 *)
Definition unix_epoch : time := (62135596800 * second)%Z.

(** [t.UnixNano()]: computed in [int64] arithmetic *)
Definition UnixNano (t : time) : Z := i64 (t - unix_epoch).
(** [time.Unix(0, n).UTC()] *)
Definition Unix0 (n : Z) : time := (unix_epoch + n)%Z.

Lemma UnixNano_Unix0 n : in_i64 n -> UnixNano (Unix0 n) = n.
Proof.
  intros H. unfold UnixNano, Unix0.
  replace (unix_epoch + n - unix_epoch)%Z with n by lia. by apply i64_id.
Qed.

(** ** Bytes *)

Definition codes (s : string) : list N := N_of_ascii <$> String.list_ascii_of_string s.
Definition of_codes (l : list N) : string := String.string_of_list_ascii (ascii_of_N <$> l).

Definition byte (n : N) : Prop := (n < 256)%N.

Lemma codes_bytes s : Forall byte (codes s).
Proof.
  unfold codes. apply Forall_fmap, Forall_true. intros a. apply N_ascii_bounded.
Qed.

Lemma of_codes_codes s : of_codes (codes s) = s.
Proof.
  unfold of_codes, codes. induction s as [|a s IH]; simpl; [done|].
  rewrite ascii_N_embedding. f_equal. apply IH.
Qed.

Lemma codes_of_codes l : Forall byte l -> codes (of_codes l) = l.
Proof.
  unfold of_codes, codes. induction 1 as [|n l Hn _ IH]; simpl; [done|].
  rewrite N_ascii_embedding by done. f_equal. apply IH.
Qed.

Lemma codes_inj s t : codes s = codes t -> s = t.
Proof. intros H. by rewrite <- (of_codes_codes s), H, of_codes_codes. Qed.

Lemma of_codes_app l1 l2 : of_codes (l1 ++ l2) = of_codes l1 +:+ of_codes l2.
Proof.
  unfold of_codes. induction l1 as [|n l1 IH]; [done|].
  simpl. change (String ?a ?x +:+ ?y) with (String a (x +:+ y)). f_equal. apply IH.
Qed.

Lemma codes_app s t : codes (s +:+ t) = codes s ++ codes t.
Proof.
  unfold codes. induction s as [|a s IH]; [done|].
  change (String a s +:+ t) with (String a (s +:+ t)). simpl. f_equal. apply IH.
Qed.

Lemma length_codes s : length (codes s) = String.length s.
Proof. unfold codes. induction s as [|a s IH]; simpl; [done|]. f_equal. apply IH. Qed.

#[export] Hint Resolve codes_bytes : s3db.
#[export] Hint Rewrite of_codes_codes codes_app of_codes_app : s3rw.
