(* ===== verification/Base64.v ===== *)
(** * encoding/base64

    The two encodings the program uses: [RawURLEncoding], with which every
    collection turns an arbitrary name into a storage-safe key segment
    (cas/cas.go [encodeKey], queue/queue.go [metaKey]), and [StdEncoding],
    with which encoding/json writes a [[]byte]. *)
From S2P Require Import Prelude GoBase.
Local Open Scope N_scope.

(** An encoding: the last two characters of its alphabet, and whether it
    pads with [=]. *)
Record encoding := Encoding { c62 : N; c63 : N; padded : bool }.

Definition RawURLEncoding : encoding := Encoding 45 95 false. (* - _ *)
Definition StdEncoding : encoding := Encoding 43 47 true.     (* + / *)

Definition pad_char : N := 61.

Definition enc_char (e : encoding) (v : N) : N :=
  if v <? 26 then 65 + v
  else if v <? 52 then 97 + (v - 26)
  else if v <? 62 then 48 + (v - 52)
  else if v =? 62 then c62 e else c63 e.

Definition dec_char (e : encoding) (c : N) : option N :=
  if (65 <=? c) && (c <=? 90) then Some (c - 65)
  else if (97 <=? c) && (c <=? 122) then Some (c - 97 + 26)
  else if (48 <=? c) && (c <=? 57) then Some (c - 48 + 52)
  else if c =? c62 e then Some 62
  else if c =? c63 e then Some 63
  else None.

#[global] Arguments dec_char : simpl never.
#[global] Arguments enc_char : simpl never.

Definition pad (e : encoding) (n : nat) : list N :=
  if padded e then replicate n pad_char else [].

Fixpoint encode_codes (e : encoding) (l : list N) : list N :=
  match l with
  | a :: b :: c :: r =>
      enc_char e (a / 4) :: enc_char e (a mod 4 * 16 + b / 16)
      :: enc_char e (b mod 16 * 4 + c / 64) :: enc_char e (c mod 64)
      :: encode_codes e r
  | [a; b] =>
      [enc_char e (a / 4); enc_char e (a mod 4 * 16 + b / 16); enc_char e (b mod 16 * 4)]
      ++ pad e 1
  | [a] => [enc_char e (a / 4); enc_char e (a mod 4 * 16)] ++ pad e 2
  | [] => []
  end.

Definition byte1 (v1 v2 : N) : N := v1 * 4 + v2 / 16.
Definition byte2 (v2 v3 : N) : N := v2 mod 16 * 16 + v3 / 4.
Definition byte3 (v3 v4 : N) : N := v3 mod 4 * 64 + v4.

(** The decoder is not strict: the unused low bits of a last group are
    ignored. *)
Fixpoint decode_codes (e : encoding) (l : list N) : option (list N) :=
  match l with
  | [] => Some []
  | a :: b :: c :: d :: r =>
      v1 ← dec_char e a; v2 ← dec_char e b;
      match dec_char e c, dec_char e d with
      | Some v3, Some v4 =>
          rest ← decode_codes e r;
          Some (byte1 v1 v2 :: byte2 v2 v3 :: byte3 v3 v4 :: rest)
      | Some v3, None =>
          if padded e && (d =? pad_char) && bool_decide (r = [])
          then Some [byte1 v1 v2; byte2 v2 v3] else None
      | None, _ =>
          if padded e && (c =? pad_char) && (d =? pad_char) && bool_decide (r = [])
          then Some [byte1 v1 v2] else None
      end
  | [a; b; c] =>
      if padded e then None else
      v1 ← dec_char e a; v2 ← dec_char e b; v3 ← dec_char e c;
      Some [byte1 v1 v2; byte2 v2 v3]
  | [a; b] =>
      if padded e then None else
      v1 ← dec_char e a; v2 ← dec_char e b; Some [byte1 v1 v2]
  | [_] => None
  end.

(** Carriage returns and line feeds are skipped by the decoder. *)
Definition not_newline (c : N) : Prop := c <> 10 /\ c <> 13.

(** [enc.EncodeToString] and [enc.DecodeString] *)
Definition EncodeToString (e : encoding) (s : string) : string :=
  of_codes (encode_codes e (codes s)).
Definition DecodeString (e : encoding) (s : string) : option string :=
  of_codes <$> decode_codes e (filter not_newline (codes s)).

(** ** Round trip *)

Definition std_alphabet (e : encoding) : Prop :=
  (c62 e = 45 /\ c63 e = 95) \/ (c62 e = 43 /\ c63 e = 47).

Lemma raw_url_alphabet : std_alphabet RawURLEncoding.
Proof. by left. Qed.
Lemma std_std_alphabet : std_alphabet StdEncoding.
Proof. by right. Qed.
#[export] Hint Resolve raw_url_alphabet std_std_alphabet : s3db.

(** Split on the comparisons of the goal. *)
Ltac n_cases := repeat match goal with
  | |- context [?a <? ?b] => destruct (N.ltb_spec a b); cbn [andb orb]
  | |- context [?a <=? ?b] => destruct (N.leb_spec a b); cbn [andb orb]
  | |- context [?a =? ?b] => destruct (N.eqb_spec a b); cbn [andb orb]
  end; try lia; try done.

(** [lia] with the defining equations of division and remainder *)
Ltac divlia := zify; Z.to_euclidean_division_equations; lia.

(** Induction by groups of three. *)
Lemma list_ind3 (P : list N -> Prop) :
  P [] -> (forall a, P [a]) -> (forall a b, P [a; b]) ->
  (forall a b c r, P r -> P (a :: b :: c :: r)) -> forall l, P l.
Proof.
  intros H0 H1 H2 H3. fix IH 1. intros [|a [|b [|c r]]]; [done..|]. apply H3, IH.
Qed.

Section roundtrip.
Context (e : encoding) (He : std_alphabet e).

Lemma dec_enc_char v : v < 64 -> dec_char e (enc_char e v) = Some v.
Proof.
  intros Hv. unfold enc_char, dec_char.
  destruct He as [[-> ->]|[-> ->]];
    (destruct (N.ltb_spec v 26); [|destruct (N.ltb_spec v 52);
      [|destruct (N.ltb_spec v 62); [|destruct (N.eqb_spec v 62)]]]);
    n_cases; f_equal; lia.
Qed.

Lemma enc_char_range v : v < 64 -> 43 <= enc_char e v < 123 /\ enc_char e v <> 92.
Proof.
  intros Hv. unfold enc_char. destruct He as [[-> ->]|[-> ->]]; n_cases.
Qed.

Lemma dec_pad : dec_char e pad_char = None.
Proof. unfold dec_char. by destruct He as [[-> ->]|[-> ->]]. Qed.

Lemma decode_encode_codes l :
  Forall byte l -> decode_codes e (encode_codes e l) = Some l.
Proof.
  induction l as [|a|a b|a b c r IH] using list_ind3; intros Hl; [done|..];
    rewrite ?Forall_cons in Hl; unfold byte in Hl; destruct_and?.
  - simpl encode_codes. unfold pad. destruct (padded e) eqn:Hp; simpl;
      rewrite !dec_enc_char by (divlia); simpl.
    + rewrite ?Hp, dec_pad. simpl. unfold byte1. repeat f_equal.
      divlia.
    + rewrite ?Hp. unfold byte1. repeat f_equal.
      divlia.
  - simpl encode_codes. unfold pad. destruct (padded e) eqn:Hp; simpl;
      rewrite !dec_enc_char by (divlia); simpl.
    + rewrite ?Hp, dec_pad. simpl. unfold byte1, byte2. repeat f_equal;
      divlia.
    + rewrite ?Hp. unfold byte1, byte2. repeat f_equal;
      divlia.
  - simpl. rewrite !dec_enc_char by (divlia).
    simpl. rewrite IH by done. simpl. unfold byte1, byte2, byte3.
    repeat f_equal; divlia.
Qed.
End roundtrip.

(** The encoded text is plain ASCII: no line breaks, quotes or backslashes. *)
Definition plain_char (c : N) : Prop := 43 <= c < 123 /\ c <> 92.

Lemma encode_codes_chars e l :
  std_alphabet e -> Forall byte l -> Forall plain_char (encode_codes e l).
Proof.
  intros He. unfold byte.
  induction l as [|a|a b|a b c r IH] using list_ind3; intros Hl; [constructor|..];
    rewrite ?Forall_cons in Hl; destruct_and?; simpl; unfold pad, pad_char;
    try (destruct (padded e)); simpl;
    repeat (apply Forall_cons_2;
      [first [apply enc_char_range; [done|divlia] | unfold plain_char; lia]|]);
    first [constructor | auto].
Qed.

Lemma filter_no_newline l :
  Forall plain_char l -> filter not_newline l = l.
Proof.
  unfold not_newline, plain_char. induction 1 as [|c l Hc Hl IH]; [done|].
  rewrite filter_cons_True by lia. by rewrite IH.
Qed.

Lemma DecodeString_EncodeToString e s :
  std_alphabet e -> DecodeString e (EncodeToString e s) = Some s.
Proof.
  intros He. unfold DecodeString, EncodeToString.
  pose proof (encode_codes_chars e (codes s) He (codes_bytes s)) as Hc.
  rewrite codes_of_codes by (eapply Forall_impl; [exact Hc|]; unfold byte, plain_char; simpl; lia).
  rewrite filter_no_newline, decode_encode_codes by eauto with s3db.
  simpl. by rewrite of_codes_codes.
Qed.

Lemma EncodeToString_inj e s t :
  std_alphabet e -> EncodeToString e s = EncodeToString e t -> s = t.
Proof.
  intros He H. apply (f_equal (DecodeString e)) in H.
  rewrite !DecodeString_EncodeToString in H by done. by simplify_eq.
Qed.

(** The URL-safe alphabet: no character of an encoded name is a slash. *)
Lemma raw_url_no_slash l :
  Forall byte l -> 47 ∉ encode_codes RawURLEncoding l.
Proof.
  intros Hl Hin.
  assert (forall v, v < 64 -> enc_char RawURLEncoding v <> 47) as Hne.
  { intros v Hv. unfold enc_char. simpl. n_cases. }
  revert Hin. unfold byte in Hl.
  induction l as [|a|a b|a b c r IH] using list_ind3;
    rewrite ?Forall_cons in Hl; destruct_and?; simpl;
    rewrite ?elem_of_cons, ?elem_of_nil; intros Hin;
    repeat match goal with
    | H : _ \/ _ |- _ => destruct H
    | H : 47 = enc_char _ ?v |- _ => symmetry in H; apply Hne in H; [done|divlia]
    end; try done; by apply IH.
Qed.

Example base64_raw_url : EncodeToString RawURLEncoding "a?>" = "YT8-"%stdpp.
Proof. vm_compute. reflexivity. Qed.
Example base64_std : EncodeToString StdEncoding "hell" = "aGVsbA=="%stdpp.
Proof. vm_compute. reflexivity. Qed.
Example base64_bad : DecodeString RawURLEncoding "a" = None.
Proof. vm_compute. reflexivity. Qed.

(** ** Key spaces

    The collections build their keys from segments: a base64 name, a slash
    and a rest. The name can be read back. *)
Lemma cut_at_slash (l1 l2 r1 r2 : list N) :
  47 ∉ l1 -> 47 ∉ l2 -> l1 ++ 47 :: r1 = l2 ++ 47 :: r2 -> l1 = l2 /\ r1 = r2.
Proof.
  revert l2. induction l1 as [|a l1 IH]; intros [|b l2]; simpl; rewrite ?not_elem_of_cons;
    intros H1 H2 E; simplify_eq; [done|naive_solver..|].
  destruct H1, H2. edestruct (IH l2) as [-> ->]; done.
Qed.

Lemma segment_inj (a b x y : string) :
  EncodeToString RawURLEncoding a +:+ "/" +:+ x = EncodeToString RawURLEncoding b +:+ "/" +:+ y ->
  a = b /\ x = y.
Proof.
  intros E. apply (f_equal codes) in E. rewrite !codes_app in E.
  assert (Hs : forall n : string, 47 ∉ codes (EncodeToString RawURLEncoding n)).
  { intros n. unfold EncodeToString. rewrite codes_of_codes; [apply raw_url_no_slash, codes_bytes|].
    eapply Forall_impl; [apply encode_codes_chars; [apply raw_url_alphabet|apply codes_bytes]|].
    unfold plain_char, byte. simpl. intros c Hc. lia. }
  apply cut_at_slash in E as [E1 E2]; [|apply Hs..].
  apply codes_inj in E1, E2. split; [|done].
  eapply EncodeToString_inj; [apply raw_url_alphabet|exact E1].
Qed.
