(* ===== verification/Utf8.v ===== *)
(** * unicode/utf8

    Decoding and encoding of runes as Go's standard library does it, and the
    effect on a string of the passage through encoding/json: every byte that
    is not part of a valid encoding becomes U+FFFD. Strings are lists of byte
    codes here. *)
From S2P Require Import Prelude GoBase Base64.
Local Open Scope N_scope.

Definition rune_error : N := 65533. (* U+FFFD *)

Definition in_range (lo hi c : N) : bool := (lo <=? c) && (c <=? hi).
Definition cont (c : N) : bool := in_range 128 191 c.

(** [utf8.DecodeRune]: the rune and its width. An invalid encoding yields
    [(RuneError, 1)]. *)
Definition decode_rune (l : list N) : N * nat :=
  match l with
  | [] => (rune_error, 0%nat)
  | b0 :: r =>
      if b0 <? 128 then (b0, 1%nat)
      else if in_range 194 223 b0 then
        match r with
        | b1 :: _ =>
            if cont b1 then ((b0 - 192) * 64 + (b1 - 128), 2%nat)
            else (rune_error, 1%nat)
        | _ => (rune_error, 1%nat)
        end
      else if in_range 224 239 b0 then
        let lo := if b0 =? 224 then 160 else 128 in
        let hi := if b0 =? 237 then 159 else 191 in
        match r with
        | b1 :: b2 :: _ =>
            if in_range lo hi b1 && cont b2
            then ((b0 - 224) * 4096 + (b1 - 128) * 64 + (b2 - 128), 3%nat)
            else (rune_error, 1%nat)
        | _ => (rune_error, 1%nat)
        end
      else if in_range 240 244 b0 then
        let lo := if b0 =? 240 then 144 else 128 in
        let hi := if b0 =? 244 then 143 else 191 in
        match r with
        | b1 :: b2 :: b3 :: _ =>
            if in_range lo hi b1 && cont b2 && cont b3
            then ((b0 - 240) * 262144 + (b1 - 128) * 4096 + (b2 - 128) * 64 + (b3 - 128), 4%nat)
            else (rune_error, 1%nat)
        | _ => (rune_error, 1%nat)
        end
      else (rune_error, 1%nat)
  end.

(** Unicode scalar values: neither surrogates nor beyond U+10FFFF *)
Definition is_scalar (r : N) : bool :=
  (r <? 55296) || in_range 57344 1114111 r.

(** [utf8.AppendRune]; what is not a scalar value is written as U+FFFD *)
Definition encode_rune (r : N) : list N :=
  if r <? 128 then [r]
  else if r <? 2048 then [192 + r / 64; 128 + r mod 64]
  else if negb (is_scalar r) then [239; 191; 189]
  else if r <? 65536 then [224 + r / 4096; 128 + r / 64 mod 64; 128 + r mod 64]
  else [240 + r / 262144; 128 + r / 4096 mod 64; 128 + r / 64 mod 64; 128 + r mod 64].

(** A string as the sequence of its runes with the bytes each was read from:
    what [for i, r := range s] visits. [n] bounds the number of runes; the
    length of the string is enough. *)
Fixpoint runes_n (n : nat) (l : list N) : list (N * list N) :=
  match n, l with
  | S n', _ :: _ =>
      let '(r, w) := decode_rune l in
      (r, take w l) :: runes_n n' (drop w l)
  | _, _ => []
  end.
Definition runes (l : list N) : list (N * list N) := runes_n (length l) l.

(** [strings.ToValidUTF8] rune by rune: the string a JSON round trip leaves *)
Definition sanitize_codes (l : list N) : list N :=
  concat ((fun t => encode_rune (fst t)) <$> runes l).
Definition sanitize (s : string) : string := of_codes (sanitize_codes (codes s)).

(** [utf8.ValidString] *)
Definition valid_utf8 (s : string) : bool := bool_decide (sanitize s = s).

(** ** Facts *)

(** What the decoder produces: a scalar value read from its own encoding, or
    a replacement for one byte outside ASCII. *)
Definition token_ok (t : N * list N) : Prop :=
  (is_scalar (fst t) = true /\ snd t = encode_rune (fst t))
  \/ (fst t = rune_error /\ exists b, snd t = [b] /\ 128 <= b < 256).

Ltac range_cases := unfold is_scalar, in_range, cont in *; n_cases.

Ltac bool_hyps := repeat match goal with
  | H : (_ && _)%bool = true |- _ => apply andb_true_iff in H as [? ?]
  | H : (_ && _)%bool = false |- _ => apply andb_false_iff in H
  | H : (_ || _)%bool = true |- _ => apply orb_true_iff in H
  | H : (_ || _)%bool = false |- _ => apply orb_false_iff in H as [? ?]
  | H : (_ <? _) = true |- _ => apply N.ltb_lt in H
  | H : (_ <? _) = false |- _ => apply N.ltb_ge in H
  | H : (_ <=? _) = true |- _ => apply N.leb_le in H
  | H : (_ <=? _) = false |- _ => apply N.leb_gt in H
  | H : (_ =? _) = true |- _ => apply N.eqb_eq in H
  | H : (_ =? _) = false |- _ => apply N.eqb_neq in H
  end.

Lemma encode_rune_2 r :
  128 <= r < 2048 -> encode_rune r = [192 + r / 64; 128 + r mod 64].
Proof. intros. unfold encode_rune. n_cases. Qed.

Lemma encode_rune_3 r :
  2048 <= r < 65536 -> is_scalar r = true ->
  encode_rune r = [224 + r / 4096; 128 + r / 64 mod 64; 128 + r mod 64].
Proof. intros ? Hs. unfold encode_rune. rewrite Hs. simpl negb. n_cases. Qed.

Lemma encode_rune_4 r :
  65536 <= r < 1114112 ->
  encode_rune r =
    [240 + r / 262144; 128 + r / 4096 mod 64; 128 + r / 64 mod 64; 128 + r mod 64].
Proof.
  intros. unfold encode_rune.
  replace (is_scalar r) with true by (symmetry; range_cases). simpl negb. n_cases.
Qed.

Lemma decode_rune_ok l :
  l <> [] -> Forall byte l ->
  let '(r, w) := decode_rune l in token_ok (r, take w l) /\ (0 < w <= length l)%nat.
Proof.
  destruct l as [|b0 l]; [done|]. intros _ [Hb0 Hl]%Forall_cons.
  unfold byte in Hb0. unfold decode_rune.
  assert (Hbad : b0 <? 128 = false ->
    token_ok (rune_error, take 1 (b0 :: l)) /\ (0 < 1 <= length (b0 :: l))%nat).
  { intros Hb. bool_hyps. split; [|simpl; lia]. right. simpl. split; [done|].
    exists b0. split; [done|lia]. }
  destruct (b0 <? 128) eqn:H1.
  { bool_hyps. split; [|simpl; lia]. left. simpl. split; [range_cases|].
    unfold encode_rune. n_cases. }
  specialize (Hbad eq_refl).
  destruct (in_range 194 223 b0) eqn:H2.
  { destruct l as [|b1 l]; [done|]. destruct (cont b1) eqn:C1; [|done].
    unfold in_range, cont, in_range in *. bool_hyps.
    split; [|simpl; lia]. left. cbn [fst snd take]. split; [range_cases|].
    rewrite encode_rune_2 by lia. repeat f_equal; divlia. }
  destruct (in_range 224 239 b0) eqn:H3.
  { destruct l as [|b1 [|b2 l]]; [done..|].
    destruct (in_range _ _ b1 && cont b2) eqn:C; [|done].
    unfold in_range, cont, in_range in *. bool_hyps.
    split; [|simpl; lia]. left. cbn [fst snd take].
    assert (2048 <= (b0 - 224) * 4096 + (b1 - 128) * 64 + (b2 - 128) < 65536).
    { destruct (N.eqb_spec b0 224), (N.eqb_spec b0 237); lia. }
    assert (is_scalar ((b0 - 224) * 4096 + (b1 - 128) * 64 + (b2 - 128)) = true).
    { destruct (N.eqb_spec b0 224), (N.eqb_spec b0 237); range_cases. }
    split; [done|]. rewrite encode_rune_3 by done.
    destruct (b0 =? 224), (b0 =? 237); repeat f_equal; divlia. }
  destruct (in_range 240 244 b0) eqn:H4; [|done].
  destruct l as [|b1 [|b2 [|b3 l]]]; [done..|].
  destruct (in_range _ _ b1 && cont b2 && cont b3) eqn:C; [|done].
  unfold in_range, cont, in_range in *. bool_hyps.
  split; [|simpl; lia]. left. cbn [fst snd take].
  assert (65536 <= (b0 - 240) * 262144 + (b1 - 128) * 4096 + (b2 - 128) * 64 + (b3 - 128)
          < 1114112).
  { destruct (N.eqb_spec b0 240), (N.eqb_spec b0 244); lia. }
  split; [range_cases|]. rewrite encode_rune_4 by done.
  destruct (b0 =? 240), (b0 =? 244); repeat f_equal; divlia.
Qed.

Lemma is_scalar_bound r :
  is_scalar r = true -> r < 1114112 /\ (r < 55296 \/ 57344 <= r).
Proof.
  unfold is_scalar, in_range. intros H. bool_hyps. destruct H; bool_hyps; lia.
Qed.

Lemma encode_rune_bytes r : Forall byte (encode_rune r).
Proof.
  unfold encode_rune, byte. destruct (r <? 128) eqn:H1; bool_hyps; [repeat constructor; lia|].
  destruct (r <? 2048) eqn:H2; bool_hyps; [repeat constructor; divlia|].
  destruct (is_scalar r) eqn:H3; simpl; [|repeat constructor; lia].
  pose proof (is_scalar_bound r H3).
  destruct (r <? 65536) eqn:H4; bool_hyps; repeat constructor; divlia.
Qed.

(** The decoder reads back what the encoder wrote, whatever follows. *)
Lemma decode_encode_rune r rest :
  is_scalar r = true ->
  decode_rune (encode_rune r ++ rest) = (r, length (encode_rune r)).
Proof.
  intros Hs. destruct (decide (r < 128)) as [H1|H1].
  { unfold encode_rune. destruct (N.ltb_spec r 128); [|lia]. simpl.
    destruct (N.ltb_spec r 128); [done|lia]. }
  destruct (decide (r < 2048)) as [H2|H2].
  { rewrite encode_rune_2 by lia. cbn [decode_rune app length].
    replace (192 + r / 64 <? 128) with false by (symmetry; apply N.ltb_ge; divlia).
    replace (in_range 194 223 (192 + r / 64)) with true
      by (symmetry; unfold in_range; rewrite andb_true_iff, !N.leb_le; divlia).
    replace (cont (128 + r mod 64)) with true
      by (symmetry; unfold cont, in_range; rewrite andb_true_iff, !N.leb_le; divlia).
    f_equal. divlia. }
  destruct (is_scalar_bound r Hs) as [Hr Hsur].
  destruct (decide (r < 65536)) as [H3|H3].
  - rewrite encode_rune_3 by (done || lia). cbn [decode_rune app length].
    replace (224 + r / 4096 <? 128) with false by (symmetry; apply N.ltb_ge; divlia).
    replace (in_range 194 223 (224 + r / 4096)) with false
      by (symmetry; unfold in_range; rewrite andb_false_iff, !N.leb_gt; divlia).
    replace (in_range 224 239 (224 + r / 4096)) with true
      by (symmetry; unfold in_range; rewrite andb_true_iff, !N.leb_le; divlia).
    replace (cont (128 + r mod 64)) with true
      by (symmetry; unfold cont, in_range; rewrite andb_true_iff, !N.leb_le; divlia).
    rewrite andb_true_r.
    match goal with |- context [in_range ?lo ?hi ?c] =>
      replace (in_range lo hi c) with true end.
    + f_equal. divlia.
    + symmetry. unfold in_range. rewrite andb_true_iff, !N.leb_le.
      destruct (N.eqb_spec (224 + r / 4096) 224), (N.eqb_spec (224 + r / 4096) 237); divlia.
  - rewrite encode_rune_4 by lia. cbn [decode_rune app length].
    replace (240 + r / 262144 <? 128) with false by (symmetry; apply N.ltb_ge; divlia).
    replace (in_range 194 223 (240 + r / 262144)) with false
      by (symmetry; unfold in_range; rewrite andb_false_iff, !N.leb_gt; divlia).
    replace (in_range 224 239 (240 + r / 262144)) with false
      by (symmetry; unfold in_range; rewrite andb_false_iff, !N.leb_gt; divlia).
    replace (in_range 240 244 (240 + r / 262144)) with true
      by (symmetry; unfold in_range; rewrite andb_true_iff, !N.leb_le; divlia).
    replace (cont (128 + r mod 64)) with true
      by (symmetry; unfold cont, in_range; rewrite andb_true_iff, !N.leb_le; divlia).
    replace (cont (128 + r / 64 mod 64)) with true
      by (symmetry; unfold cont, in_range; rewrite andb_true_iff, !N.leb_le; divlia).
    rewrite !andb_true_r.
    match goal with |- context [in_range ?lo ?hi ?c] =>
      replace (in_range lo hi c) with true end.
    + f_equal. divlia.
    + symmetry. unfold in_range. rewrite andb_true_iff, !N.leb_le.
      destruct (N.eqb_spec (240 + r / 262144) 240), (N.eqb_spec (240 + r / 262144) 244); divlia.
Qed.

(** *** Iterating over the runes *)

Lemma runes_n_enough n m l :
  Forall byte l -> (length l <= n)%nat -> (length l <= m)%nat -> runes_n n l = runes_n m l.
Proof.
  revert m l. induction n as [|n IH]; intros m l Hb Hn Hm.
  { destruct l; [by destruct m|simpl in Hn; lia]. }
  destruct m as [|m]; [destruct l; [done|simpl in Hm; lia]|].
  destruct l as [|b l]; [done|].
  pose proof (decode_rune_ok (b :: l) ltac:(done) Hb) as Hd.
  cbn [runes_n]. destruct (decode_rune (b :: l)) as [r w]. destruct Hd as [_ Hw].
  f_equal. apply IH; [by apply Forall_drop|rewrite length_drop; lia..].
Qed.

Lemma runes_step l :
  l <> [] -> Forall byte l ->
  runes l = (fst (decode_rune l), take (snd (decode_rune l)) l)
            :: runes (drop (snd (decode_rune l)) l).
Proof.
  intros Hl Hb. pose proof (decode_rune_ok l Hl Hb) as Hd.
  unfold runes at 1. destruct l as [|b l]; [done|]. cbn [runes_n length].
  destruct (decode_rune (b :: l)) as [r w]. destruct Hd as [_ Hw]. cbn [fst snd].
  f_equal. simpl in Hw.
  apply runes_n_enough; [by apply Forall_drop|rewrite length_drop; simpl; lia..].
Qed.

(** Induction along the runes of a string. *)
Lemma runes_ind (P : list N -> Prop) :
  P [] ->
  (forall t l, token_ok t -> Forall byte (snd t) -> Forall byte l ->
     runes (snd t ++ l) = t :: runes l -> P l -> P (snd t ++ l)) ->
  forall l, Forall byte l -> P l.
Proof.
  intros H0 Hstep.
  assert (forall n l, (length l <= n)%nat -> Forall byte l -> P l) as H; [|eauto].
  induction n as [|n IH]; intros l Hn Hb.
  { destruct l; [done|simpl in Hn; lia]. }
  destruct (decide (l = [])) as [->|Hl]; [done|].
  pose proof (decode_rune_ok l Hl Hb) as Hd. pose proof (runes_step l Hl Hb) as Hr.
  destruct (decode_rune l) as [r w]. destruct Hd as [Ht Hw]. cbn [fst snd] in Hr.
  rewrite <- (take_drop w l) at 1.
  apply (Hstep (r, take w l)); cbn [snd].
  - done.
  - by apply Forall_take.
  - by apply Forall_drop.
  - by rewrite take_drop.
  - apply IH; [rewrite length_drop; lia|by apply Forall_drop].
Qed.

Lemma runes_encode r l :
  is_scalar r = true -> Forall byte l ->
  runes (encode_rune r ++ l) = (r, encode_rune r) :: runes l.
Proof.
  intros Hs Hl. rewrite runes_step.
  - rewrite decode_encode_rune by done. cbn [fst snd].
    by rewrite take_app_length, drop_app_length.
  - unfold encode_rune. repeat case_match; done.
  - apply Forall_app_2; [apply encode_rune_bytes|done].
Qed.

Lemma sanitize_bytes l : Forall byte (sanitize_codes l).
Proof.
  unfold sanitize_codes. induction (runes l) as [|t ts IH]; simpl; [constructor|].
  apply Forall_app_2; [apply encode_rune_bytes|done].
Qed.

Lemma token_scalar t : token_ok t -> is_scalar (fst t) = true.
Proof. intros [[? _]|[-> _]]; done. Qed.

Lemma sanitize_step t l :
  runes (snd t ++ l) = t :: runes l ->
  sanitize_codes (snd t ++ l) = encode_rune (fst t) ++ sanitize_codes l.
Proof. intros H. unfold sanitize_codes. by rewrite H. Qed.

Lemma sanitize_codes_idemp l :
  Forall byte l -> sanitize_codes (sanitize_codes l) = sanitize_codes l.
Proof.
  revert l. apply runes_ind; [done|]. intros t l Ht _ _ Hr IH.
  rewrite !sanitize_step by done.
  pose proof (runes_encode (fst t) (sanitize_codes l) (token_scalar t Ht) (sanitize_bytes l)) as Hr'.
  rewrite (sanitize_step (fst t, encode_rune (fst t))) by done. by rewrite IH.
Qed.

Lemma sanitize_idemp s : sanitize (sanitize s) = sanitize s.
Proof.
  unfold sanitize. rewrite codes_of_codes by apply sanitize_bytes.
  by rewrite sanitize_codes_idemp by apply codes_bytes.
Qed.

(** ASCII text is untouched. *)
Lemma sanitize_ascii_codes l : Forall (fun c => c < 128) l -> sanitize_codes l = l.
Proof.
  induction 1 as [|c l Hc Hl IH]; [done|].
  assert (Hb : Forall byte (c :: l)).
  { constructor; [unfold byte; lia|]. eapply Forall_impl; [exact Hl|]. unfold byte. simpl. lia. }
  assert (He : encode_rune c = [c]) by (unfold encode_rune; n_cases).
  assert (Hr : runes ([c] ++ l) = (c, [c]) :: runes l).
  { rewrite <- He. apply runes_encode; [unfold is_scalar, in_range; n_cases|by apply Forall_cons in Hb as []]. }
  change (c :: l) with (snd (c, [c]) ++ l). rewrite sanitize_step by done.
  cbn [fst]. by rewrite He, IH.
Qed.

Lemma sanitize_ascii s : Forall (fun c => c < 128) (codes s) -> sanitize s = s.
Proof. intros H. unfold sanitize. by rewrite sanitize_ascii_codes, of_codes_codes. Qed.

Lemma valid_utf8_spec s : valid_utf8 s = true <-> sanitize s = s.
Proof. apply bool_decide_eq_true. Qed.

(** Two different strings that a JSON round trip identifies. *)
Example sanitize_collision :
  sanitize (of_codes [255]) = sanitize (of_codes [254]) /\ of_codes [255] <> of_codes [254].
Proof. split; [vm_compute; reflexivity|done]. Qed.
