(* ===== verification/Json.v ===== *)
(** * encoding/json

    The JSON text the program stores: a value tree, the compact printer of
    [json.Marshal], the parser of [json.Unmarshal], and the quoting of
    strings. Texts are lists of byte codes. String literals and numbers keep
    their source text in the tree ([JStr] holds what stands between the
    quotes), because the decoders of the different Go types read that text in
    different ways. *)
From S2P Require Import Prelude GoBase Base64 Utf8.
Local Open Scope N_scope.

Inductive json : Type :=
| JNull
| JBool (b : bool)
| JNum (lit : list N)
| JStr (raw : list N)
| JArr (l : list json)
| JObj (l : list (list N * json)).

(** ** Printing *)

Definition c_quote : N := 34.
Definition c_comma : N := 44.
Definition c_colon : N := 58.
Definition c_lbrack : N := 91.
Definition c_backslash : N := 92.
Definition c_rbrack : N := 93.
Definition c_lbrace : N := 123.
Definition c_rbrace : N := 125.
Definition t_null : list N := [110; 117; 108; 108].
Definition t_true : list N := [116; 114; 117; 101].
Definition t_false : list N := [102; 97; 108; 115; 101].

(** The text of the elements up to and including the closing character. *)
Fixpoint print (j : json) : list N :=
  match j with
  | JNull => t_null
  | JBool true => t_true
  | JBool false => t_false
  | JNum lit => lit
  | JStr raw => c_quote :: raw ++ [c_quote]
  | JArr l =>
      c_lbrack ::
      (fix elems l := match l with
       | [] => [c_rbrack]
       | [v] => print v ++ [c_rbrack]
       | v :: l' => print v ++ c_comma :: elems l'
       end) l
  | JObj l =>
      c_lbrace ::
      (fix members l := match l with
       | [] => [c_rbrace]
       | [(k, v)] => c_quote :: k ++ c_quote :: c_colon :: print v ++ [c_rbrace]
       | (k, v) :: l' =>
           c_quote :: k ++ c_quote :: c_colon :: print v ++ c_comma :: members l'
       end) l
  end.

Fixpoint print_elems (l : list json) : list N :=
  match l with
  | [] => [c_rbrack]
  | [v] => print v ++ [c_rbrack]
  | v :: l' => print v ++ c_comma :: print_elems l'
  end.
Fixpoint print_members (l : list (list N * json)) : list N :=
  match l with
  | [] => [c_rbrace]
  | [(k, v)] => c_quote :: k ++ c_quote :: c_colon :: print v ++ [c_rbrace]
  | (k, v) :: l' => c_quote :: k ++ c_quote :: c_colon :: print v ++ c_comma :: print_members l'
  end.

Lemma print_arr l : print (JArr l) = c_lbrack :: print_elems l.
Proof. reflexivity. Qed.
Lemma print_obj l : print (JObj l) = c_lbrace :: print_members l.
Proof. reflexivity. Qed.

(** ** Parsing *)

Definition is_ws (c : N) : bool := (c =? 32) || (c =? 9) || (c =? 13) || (c =? 10).
Fixpoint skip_ws (l : list N) : list N :=
  match l with
  | c :: r => if is_ws c then skip_ws r else l
  | [] => []
  end.

Definition is_digit (c : N) : bool := in_range 48 57 c.
Definition hex_val (c : N) : option N :=
  if is_digit c then Some (c - 48)
  else if in_range 97 102 c then Some (c - 97 + 10)
  else if in_range 65 70 c then Some (c - 65 + 10)
  else None.
Definition is_hex (c : N) : bool := bool_decide (is_Some (hex_val c)).

(** the characters that may follow a backslash, [u] apart *)
Definition simple_escape (c : N) : bool :=
  (c =? 34) || (c =? 92) || (c =? 47) || (c =? 98) || (c =? 102)
  || (c =? 110) || (c =? 114) || (c =? 116).

(** From just after an opening quote: the text up to the closing quote and
    what follows it. *)
Fixpoint scan_str (l : list N) : option (list N * list N) :=
  match l with
  | [] => None
  | c :: r =>
      if c =? c_quote then Some ([], r)
      else if c =? c_backslash then
        match r with
        | e :: r1 =>
            if simple_escape e then
              '(raw, rest) ← scan_str r1; Some (c :: e :: raw, rest)
            else if e =? 117 then
              match r1 with
              | h1 :: h2 :: h3 :: h4 :: r2 =>
                  if is_hex h1 && is_hex h2 && is_hex h3 && is_hex h4 then
                    '(raw, rest) ← scan_str r2;
                    Some (c :: e :: h1 :: h2 :: h3 :: h4 :: raw, rest)
                  else None
              | _ => None
              end
            else None
        | [] => None
        end
      else if c <? 32 then None
      else '(raw, rest) ← scan_str r; Some (c :: raw, rest)
  end.

Fixpoint span_digits (l : list N) : list N * list N :=
  match l with
  | c :: r =>
      if is_digit c then let '(d, rest) := span_digits r in (c :: d, rest) else ([], l)
  | [] => ([], [])
  end.

Definition scan_frac (l : list N) : option (list N * list N) :=
  match l with
  | c :: r =>
      if c =? 46 then
        match span_digits r with
        | ([], _) => None
        | (d, rest) => Some (c :: d, rest)
        end
      else Some ([], l)
  | [] => Some ([], [])
  end.

Definition scan_exp (l : list N) : option (list N * list N) :=
  match l with
  | c :: r =>
      if (c =? 101) || (c =? 69) then
        let '(sgn, r1) := match r with
          | s :: r1 => if (s =? 43) || (s =? 45) then ([s], r1) else ([], r)
          | [] => ([], r)
          end in
        match span_digits r1 with
        | ([], _) => None
        | (d, rest) => Some (c :: sgn ++ d, rest)
        end
      else Some ([], l)
  | [] => Some ([], [])
  end.

Definition scan_num (l : list N) : option (list N * list N) :=
  let '(sgn, l1) := match l with
    | c :: r => if c =? 45 then ([c], r) else ([], l)
    | [] => ([], l)
    end in
  match span_digits l1 with
  | ([], _) => None
  | (d0 :: ds, l2) =>
      if (d0 =? 48) && negb (bool_decide (ds = [])) then None else
      '(fr, l3) ← scan_frac l2;
      '(ex, l4) ← scan_exp l3;
      Some (sgn ++ d0 :: ds ++ fr ++ ex, l4)
  end.

Definition strip (p l : list N) : option (list N) :=
  if bool_decide (take (length p) l = p) then Some (drop (length p) l) else None.

Fixpoint parse_value (n : nat) (l : list N) : option (json * list N) :=
  match n, skip_ws l with
  | S n', c :: r =>
      if c =? c_lbrace then
        match skip_ws r with
        | e :: r' =>
            if e =? c_rbrace then Some (JObj [], r')
            else '(ms, rest) ← parse_members n' r; Some (JObj ms, rest)
        | [] => None
        end
      else if c =? c_lbrack then
        match skip_ws r with
        | e :: r' =>
            if e =? c_rbrack then Some (JArr [], r')
            else '(es, rest) ← parse_elems n' r; Some (JArr es, rest)
        | [] => None
        end
      else if c =? c_quote then
        '(raw, rest) ← scan_str r; Some (JStr raw, rest)
      else if (c =? 45) || is_digit c then
        '(lit, rest) ← scan_num (c :: r); Some (JNum lit, rest)
      else
        match strip t_null (c :: r), strip t_true (c :: r), strip t_false (c :: r) with
        | Some rest, _, _ => Some (JNull, rest)
        | _, Some rest, _ => Some (JBool true, rest)
        | _, _, Some rest => Some (JBool false, rest)
        | _, _, _ => None
        end
  | _, _ => None
  end
with parse_elems (n : nat) (l : list N) : option (list json * list N) :=
  match n with
  | S n' =>
      '(v, l1) ← parse_value n' l;
      match skip_ws l1 with
      | c :: r =>
          if c =? c_rbrack then Some ([v], r)
          else if c =? c_comma then '(es, rest) ← parse_elems n' r; Some (v :: es, rest)
          else None
      | [] => None
      end
  | O => None
  end
with parse_members (n : nat) (l : list N) : option (list (list N * json) * list N) :=
  match n, skip_ws l with
  | S n', q :: r0 =>
      if q =? c_quote then
        '(k, l1) ← scan_str r0;
        match skip_ws l1 with
        | c :: r1 =>
            if c =? c_colon then
              '(v, l2) ← parse_value n' r1;
              match skip_ws l2 with
              | c' :: r =>
                  if c' =? c_rbrace then Some ([(k, v)], r)
                  else if c' =? c_comma then
                    '(ms, rest) ← parse_members n' r; Some ((k, v) :: ms, rest)
                  else None
              | [] => None
              end
            else None
        | [] => None
        end
      else None
  | _, _ => None
  end.

(** A complete text: one value and nothing but white space after it. *)
Definition parse (l : list N) : option json :=
  '(j, rest) ← parse_value (S (length l)) l;
  match skip_ws rest with [] => Some j | _ => None end.

(** ** Round trip of the tree *)

Definition raw_ok (raw : list N) : Prop :=
  forall rest, scan_str (raw ++ c_quote :: rest) = Some (raw, rest).

(** What may follow a number: not a character that would extend it. *)
Definition delim (rest : list N) : Prop :=
  match rest with
  | [] => True
  | c :: _ => is_digit c = false /\ c <> 46 /\ c <> 101 /\ c <> 69
  end.
Definition num_ok (lit : list N) : Prop :=
  (match lit with c :: _ => c = 45 \/ is_digit c = true | [] => False end) /\
  forall rest, delim rest -> scan_num (lit ++ rest) = Some (lit, rest).

(** Trees the encoder builds: their literals are well-formed byte strings. *)
Inductive json_ok : json -> Prop :=
| ok_null : json_ok JNull
| ok_bool b : json_ok (JBool b)
| ok_num lit : Forall byte lit -> num_ok lit -> json_ok (JNum lit)
| ok_str raw : Forall byte raw -> raw_ok raw -> json_ok (JStr raw)
| ok_arr l : Forall json_ok l -> json_ok (JArr l)
| ok_obj l :
    Forall (fun kv => (Forall byte (fst kv) /\ raw_ok (fst kv)) /\ json_ok (snd kv)) l ->
    json_ok (JObj l).

Definition first_ok (c : N) : Prop := is_ws c = false /\ c <> c_rbrack /\ c <> c_rbrace.

Lemma digit_first c : is_digit c = true -> first_ok c.
Proof.
  unfold is_digit, in_range, first_ok, is_ws, c_rbrack, c_rbrace. intros H. bool_hyps.
  split_and!; n_cases.
Qed.

(** The first character of a printed value decides its kind. *)
Lemma print_first j : json_ok j -> exists c r, print j = c :: r /\ first_ok c.
Proof.
  destruct 1 as [|[]|lit _ [Hl _]| | |].
  all: try by (eexists _, _; split; [reflexivity|split_and!; done]).
  destruct lit as [|c lit]; [done|]. eexists _, _. split; [reflexivity|].
  destruct Hl as [->|Hd]; [split_and!; done|by apply digit_first].
Qed.

Lemma skip_ws_first c r : first_ok c -> skip_ws (c :: r) = c :: r.
Proof. intros [H _]. simpl. by rewrite H. Qed.

Lemma length_print_pos j : json_ok j -> (1 <= length (print j))%nat.
Proof. intros H. destruct (print_first j H) as (c & r & -> & _). simpl. lia. Qed.

Lemma strip_app p l : strip p (p ++ l) = Some l.
Proof. unfold strip. by rewrite take_app_length, bool_decide_true, drop_app_length. Qed.

Lemma delim_sep c rest : c = c_comma \/ c = c_rbrack \/ c = c_rbrace -> delim (c :: rest).
Proof. intros [->|[->| ->]]; done. Qed.

(** The three parsers read back what was printed, given fuel at least the
    length of the text. *)
Definition reads_value (n : nat) : Prop := forall j rest,
  json_ok j -> delim rest -> (length (print j) <= n)%nat ->
  parse_value n (print j ++ rest) = Some (j, rest).
Definition reads_elems (n : nat) : Prop := forall l rest,
  Forall json_ok l -> l <> [] -> (length (print_elems l) <= n)%nat ->
  parse_elems n (print_elems l ++ rest) = Some (l, rest).
Definition reads_members (n : nat) : Prop := forall l rest,
  Forall (fun kv => (Forall byte (fst kv) /\ raw_ok (fst kv)) /\ json_ok (snd kv)) l -> l <> [] ->
  (length (print_members l) <= n)%nat ->
  parse_members n (print_members l ++ rest) = Some (l, rest).

Lemma print_elems_first l :
  Forall json_ok l -> l <> [] -> exists c r, print_elems l = c :: r /\ first_ok c.
Proof.
  destruct l as [|v l]; [done|]. intros [Hv _]%Forall_cons _.
  destruct (print_first v Hv) as (c & r & Hp & Hc).
  destruct l; cbn [print_elems]; rewrite Hp; eauto.
Qed.

Lemma print_members_first l :
  l <> [] -> exists r, print_members l = c_quote :: r.
Proof. destruct l as [|[k v] [|]]; [done|simpl; eauto..]. Qed.

Lemma reads_value_step n :
  reads_elems n -> reads_members n -> reads_value (S n).
Proof.
  intros He Hm j rest Hj Hrest Hn.
  destruct Hj as [|b|lit _ [Hfst Hlit]|raw _ Hraw|l Hl|l Hl].
  - done.
  - by destruct b.
  - destruct lit as [|c lit]; [done|].
    assert (Hc : is_ws c = false /\ c <> c_lbrace /\ c <> c_lbrack /\ c <> c_quote).
    { destruct Hfst as [->|Hd]; [done|]. revert Hd.
      unfold is_digit, in_range, is_ws, c_lbrace, c_lbrack, c_quote.
      intros. bool_hyps. split_and!; n_cases. }
    destruct Hc as (Hws & H1 & H2 & H3). specialize (Hlit rest Hrest).
    cbn [parse_value print app skip_ws] in *. rewrite Hws.
    apply N.eqb_neq in H1, H2, H3. rewrite H1, H2, H3.
    replace ((c =? 45) || is_digit c) with true.
    + by rewrite Hlit.
    + destruct Hfst as [->| ->]; [done|]. by rewrite orb_true_r.
  - cbn [print app]. rewrite <- app_assoc. cbn [app].
    change (parse_value (S n) ?x) with ('(raw, rest) ← scan_str (raw ++ c_quote :: rest); Some (JStr raw, rest)).
    by rewrite Hraw.
  - rewrite print_arr in *. destruct (decide (l = [])) as [->|Hne]; [done|].
    destruct (print_elems_first l Hl Hne) as (c & r & Hp & Hc).
    specialize (He l rest Hl Hne ltac:(simpl in Hn; lia)).
    destruct Hc as (Hws & Hb & _). apply N.eqb_neq in Hb.
    rewrite Hp in *. cbn -[parse_elems] in *. rewrite Hws, Hb. by rewrite He.
  - rewrite print_obj in *. destruct (decide (l = [])) as [->|Hne]; [done|].
    destruct (print_members_first l Hne) as [r Hp].
    specialize (Hm l rest Hl Hne ltac:(simpl in Hn; lia)).
    rewrite Hp in *. cbn -[parse_members] in *. by rewrite Hm.
Qed.

Lemma print_elems_cons v l :
  l <> [] -> print_elems (v :: l) = print v ++ c_comma :: print_elems l.
Proof. by destruct l. Qed.
Lemma print_members_cons k v l :
  l <> [] -> print_members ((k, v) :: l) =
    c_quote :: k ++ c_quote :: c_colon :: print v ++ c_comma :: print_members l.
Proof. by destruct l. Qed.

(** One separator of the printed text, read back. *)
Ltac read_sep c :=
  change (skip_ws (c :: ?x)) with (c :: x); change (c =? c) with true;
  change (c_comma =? c_rbrack) with false; change (c_comma =? c_rbrace) with false;
  cbv iota.

Lemma reads_elems_step n : reads_value n -> reads_elems n -> reads_elems (S n).
Proof.
  intros Hv He [|v l] rest Hl Hne Hn; [done|]. apply Forall_cons in Hl as [Hvok Hl].
  destruct (decide (l = [])) as [->|Hl0].
  - cbn [print_elems] in *. rewrite length_app in Hn.
    rewrite <- app_assoc. cbn [parse_elems app].
    by rewrite Hv by (first [done | apply delim_sep; auto | simpl in Hn; lia]).
  - rewrite print_elems_cons in * by done. rewrite length_app in Hn. cbn [length] in Hn.
    rewrite <- app_assoc. cbn [parse_elems app].
    rewrite Hv by (first [done | apply delim_sep; auto | lia]).
    cbn [mbind option_bind]. read_sep c_comma. by rewrite He by (done || lia).
Qed.

Lemma reads_members_step n : reads_value n -> reads_members n -> reads_members (S n).
Proof.
  intros Hv Hm [|[k v] l] rest Hl Hne Hn; [done|]. apply Forall_cons in Hl as [[[_ Hk] Hvok] Hl].
  cbn [fst snd] in *.
  destruct (decide (l = [])) as [->|Hl0].
  - cbn [print_members] in *. repeat (rewrite ?length_app in Hn; cbn [length] in Hn).
    cbn [app]. rewrite <- app_assoc. cbn [app parse_members]. read_sep c_quote.
    rewrite Hk. cbn [mbind option_bind]. read_sep c_colon. rewrite <- app_assoc.
    by rewrite Hv by (first [done | apply delim_sep; auto | lia]).
  - rewrite print_members_cons in * by done.
    repeat (rewrite ?length_app in Hn; cbn [length] in Hn).
    cbn [app]. rewrite <- app_assoc. cbn [app parse_members]. read_sep c_quote.
    rewrite Hk. cbn [mbind option_bind]. read_sep c_colon. rewrite <- app_assoc.
    rewrite Hv by (first [done | apply delim_sep; auto | lia]).
    cbn [mbind option_bind app]. read_sep c_comma. by rewrite Hm by (done || lia).
Qed.

Lemma parse_print_n n : reads_value n /\ reads_elems n /\ reads_members n.
Proof.
  induction n as [|n (IHv & IHe & IHm)].
  - split_and!.
    + intros j rest Hj _ Hn. pose proof (length_print_pos j Hj). lia.
    + intros [|v [|w l]] rest Hl ? Hn; [done|..]; simpl in Hn;
        rewrite length_app in Hn; simpl in Hn; lia.
    + intros [|[k v] [|w l]] rest Hl ? Hn; simpl in Hn; [done|lia..].
  - auto using reads_value_step, reads_elems_step, reads_members_step.
Qed.

(** A well-formed tree survives printing and parsing. *)
Lemma parse_print j : json_ok j -> parse (print j) = Some j.
Proof.
  intros Hj. unfold parse.
  destruct (parse_print_n (S (length (print j)))) as [Hv _].
  specialize (Hv j [] Hj I ltac:(lia)). rewrite app_nil_r in Hv. by rewrite Hv.
Qed.

(** The printed text is a byte string. *)
Lemma print_bytes : forall j, json_ok j -> Forall byte (print j).
Proof.
  fix IH 2. intros j [|b|lit Hb _|raw Hb _|l Hl|l Hl].
  - repeat constructor.
  - destruct b; repeat constructor.
  - done.
  - simpl. constructor; [done|]. apply Forall_app_2; [done|repeat constructor].
  - rewrite print_arr. constructor; [done|].
    induction Hl as [|v l Hv Hl IHl]; [repeat constructor|].
    destruct l as [|w l].
    + apply Forall_app_2; [by apply IH|repeat constructor].
    + rewrite print_elems_cons by done. apply Forall_app_2; [by apply IH|by constructor].
  - rewrite print_obj. constructor; [done|].
    induction Hl as [|[k v] l [[Hk _] Hv] Hl IHl]; [repeat constructor|].
    cbn [fst snd] in *. destruct l as [|w l].
    + cbn [print_members]. constructor; [done|]. apply Forall_app_2; [done|].
      repeat (constructor; [done|]). apply Forall_app_2; [by apply IH|repeat constructor].
    + rewrite print_members_cons by done. constructor; [done|]. apply Forall_app_2; [done|].
      repeat (constructor; [done|]). apply Forall_app_2; [by apply IH|by constructor].
Qed.
