(* ===== verification/JsonLit.v ===== *)
(** * The literals of encoding/json: strings and integers

    [quote] is the encoder's [appendString] with HTML escaping (the default of
    [json.Marshal]); [unquote] is the decoder's [unquoteBytes]. Their
    composition is [sanitize]: what a Go string looks like after it has been
    stored as JSON. *)
From S2P Require Import Prelude GoBase Base64 Utf8 Json.
Local Open Scope N_scope.

Definition hex_digit (v : N) : N := if v <? 10 then 48 + v else 97 + (v - 10).

(** the characters written as they are: printable ASCII other than the
    quote, the backslash and the HTML characters *)
Definition html_safe (c : N) : bool :=
  (32 <=? c) && (c <? 128)
  && negb (c =? 34) && negb (c =? 92) && negb (c =? 60) && negb (c =? 62) && negb (c =? 38).

Definition escape_ascii (c : N) : list N :=
  if (c =? 34) || (c =? 92) then [92; c]
  else if c =? 8 then [92; 98]
  else if c =? 12 then [92; 102]
  else if c =? 10 then [92; 110]
  else if c =? 13 then [92; 114]
  else if c =? 9 then [92; 116]
  else [92; 117; 48; 48; hex_digit (c / 16); hex_digit (c mod 16)].

Definition quote_rune (t : N * list N) : list N :=
  let '(c, bs) := t in
  if c <? 128 then (if html_safe c then [c] else escape_ascii c)
  else if (c =? rune_error) && bool_decide (length bs = 1%nat)
  then [92; 117; 102; 102; 102; 100]
  else if (c =? 8232) || (c =? 8233) then [92; 117; 50; 48; 50; hex_digit (c mod 16)]
  else bs.

Definition quote (l : list N) : list N := concat (quote_rune <$> runes l).

Definition simple_unescape (c : N) : option N :=
  if (c =? 34) || (c =? 92) || (c =? 47) || (c =? 39) then Some c
  else if c =? 98 then Some 8
  else if c =? 102 then Some 12
  else if c =? 110 then Some 10
  else if c =? 114 then Some 13
  else if c =? 116 then Some 9
  else None.

(** four hexadecimal digits *)
Definition getu4 (l : list N) : option (N * list N) :=
  match l with
  | h1 :: h2 :: h3 :: h4 :: r =>
      v1 ← hex_val h1; v2 ← hex_val h2; v3 ← hex_val h3; v4 ← hex_val h4;
      Some (v1 * 4096 + v2 * 256 + v3 * 16 + v4, r)
  | _ => None
  end.

Definition is_surrogate (r : N) : bool := in_range 55296 57343 r.
(** [utf16.DecodeRune] on a surrogate pair *)
Definition utf16_decode (r1 r2 : N) : option N :=
  if in_range 55296 56319 r1 && in_range 56320 57343 r2
  then Some ((r1 - 55296) * 1024 + (r2 - 56320) + 65536) else None.

(** the [\uXXXX] form of a low surrogate that may follow *)
Definition low_surrogate (r1 : N) (l : list N) : option (N * list N) :=
  match l with
  | b :: u :: l' =>
      if (b =? 92) && (u =? 117) then
        '(r2, rest) ← getu4 l'; r ← utf16_decode r1 r2; Some (r, rest)
      else None
  | _ => None
  end.

Fixpoint unquote_n (n : nat) (l : list N) : option (list N) :=
  match n, l with
  | _, [] => Some []
  | O, _ => None
  | S n', c :: r =>
      if c =? 92 then
        match r with
        | [] => None
        | e :: r1 =>
            match simple_unescape e with
            | Some b => cons b <$> unquote_n n' r1
            | None =>
                if e =? 117 then
                  '(rr, r2) ← getu4 r1;
                  if is_surrogate rr then
                    match low_surrogate rr r2 with
                    | Some (dec, r3) => app (encode_rune dec) <$> unquote_n n' r3
                    | None => app (encode_rune rune_error) <$> unquote_n n' r2
                    end
                  else app (encode_rune rr) <$> unquote_n n' r2
                else None
            end
        end
      else if (c =? 34) || (c <? 32) then None
      else if c <? 128 then cons c <$> unquote_n n' r
      else let '(rr, w) := decode_rune l in
           app (encode_rune rr) <$> unquote_n n' (drop w l)
  end.
Definition unquote (l : list N) : option (list N) := unquote_n (length l) l.

(** ** Round trip of strings *)

Lemma hex_val_digit v : v < 16 -> hex_val (hex_digit v) = Some v.
Proof.
  intros. unfold hex_val, hex_digit, is_digit, in_range.
  destruct (N.ltb_spec v 10); n_cases; f_equal; lia.
Qed.

Lemma is_hex_digit v : v < 16 -> is_hex (hex_digit v) = true.
Proof. intros. unfold is_hex. rewrite hex_val_digit by done. by apply bool_decide_true. Qed.

(** Quoted text is free of bare quotes. *)
Lemma raw_ok_nil : raw_ok [].
Proof. done. Qed.

Lemma raw_ok_plain c raw : 32 <= c -> c <> 34 -> c <> 92 -> raw_ok raw -> raw_ok (c :: raw).
Proof.
  intros Hc H1 H2 Hr rest. cbn [app scan_str].
  specialize (Hr rest). unfold c_quote, c_backslash in *.
  apply N.eqb_neq in H1, H2. rewrite H1, H2. destruct (N.ltb_spec c 32); [lia|].
  by rewrite Hr.
Qed.

Lemma raw_ok_plains l raw :
  Forall (fun c => 128 <= c) l -> raw_ok raw -> raw_ok (l ++ raw).
Proof. induction 1; intros; [done|]. apply raw_ok_plain; auto; lia. Qed.

Lemma raw_ok_escape e raw : simple_escape e = true -> raw_ok raw -> raw_ok (92 :: e :: raw).
Proof.
  intros He Hr rest. cbn [app scan_str]. change (92 =? c_quote) with false. change (92 =? c_backslash) with true. cbv iota. rewrite He.
  by rewrite Hr.
Qed.

Lemma raw_ok_u h1 h2 h3 h4 raw :
  is_hex h1 = true -> is_hex h2 = true -> is_hex h3 = true -> is_hex h4 = true ->
  raw_ok raw -> raw_ok (92 :: 117 :: h1 :: h2 :: h3 :: h4 :: raw).
Proof.
  intros H1 H2 H3 H4 Hr rest. cbn [app scan_str]. change (92 =? c_quote) with false. change (92 =? c_backslash) with true. cbv iota.
  change (simple_escape 117) with false. change (117 =? 117) with true. cbv iota.
  rewrite H1, H2, H3, H4. cbn [andb]. by rewrite Hr.
Qed.

Lemma encode_rune_high r : 128 <= r -> Forall (fun c => 128 <= c) (encode_rune r).
Proof.
  intros. unfold encode_rune. destruct (N.ltb_spec r 128); [lia|].
  repeat case_match; repeat (apply Forall_cons_2; [divlia|]); apply Forall_nil_2.
Qed.

Lemma raw_ok_escape_ascii c raw : c < 128 -> html_safe c = false ->
  raw_ok raw -> raw_ok (escape_ascii c ++ raw).
Proof.
  intros Hc Hs Hr. unfold escape_ascii.
  repeat match goal with
  | |- context [if ?b then _ else _] => destruct b eqn:?; cbn [app]
  end; try (apply raw_ok_escape; [|done]; done).
  - apply raw_ok_escape; [|done]. bool_hyps. destruct Heqb; bool_hyps; by subst.
  - apply raw_ok_u; try done; apply is_hex_digit; divlia.
Qed.

Lemma raw_ok_quote_rune t raw : token_ok t -> raw_ok raw -> raw_ok (quote_rune t ++ raw).
Proof.
  intros Ht Hr. destruct t as [c bs]. unfold quote_rune.
  destruct (N.ltb_spec c 128) as [Hc|Hc].
  { destruct (html_safe c) eqn:Hs; [|by apply raw_ok_escape_ascii].
    unfold html_safe in Hs. bool_hyps. rewrite !negb_true_iff, !N.eqb_neq in *.
    by apply raw_ok_plain. }
  destruct Ht as [[Hsc Hbs]|[Hre (b & Hbs & Hb)]]; cbn [fst snd] in *; subst.
  - destruct (_ && _); [by apply raw_ok_u|].
    destruct ((c =? 8232) || (c =? 8233)); [apply raw_ok_u; try done; apply is_hex_digit; divlia|].
    apply raw_ok_plains; [by apply encode_rune_high|done].
  - rewrite N.eqb_refl. simpl. by apply raw_ok_u.
Qed.

Lemma raw_ok_quote l : Forall byte l -> raw_ok (quote l).
Proof.
  unfold quote. revert l. apply runes_ind; [apply raw_ok_nil|].
  intros t l Ht _ _ Hr IH. rewrite Hr. by apply raw_ok_quote_rune.
Qed.

(** [unquote] of [l] yields [out], with any sufficient fuel. *)
Definition unquotes (l out : list N) : Prop :=
  forall n, (length l <= n)%nat -> unquote_n n l = Some out.

Lemma unquotes_nil : unquotes [] [].
Proof. by intros [|n]. Qed.

Lemma unquotes_plain c l out :
  32 <= c < 128 -> c <> 34 -> c <> 92 -> unquotes l out -> unquotes (c :: l) (c :: out).
Proof.
  intros Hc H1 H2 Hl [|n] Hn; [simpl in Hn; lia|]. cbn [unquote_n].
  apply N.eqb_neq in H1, H2. rewrite H1, H2. cbn [orb].
  destruct (N.ltb_spec c 32); [lia|]. destruct (N.ltb_spec c 128); [|lia].
  by rewrite Hl by (simpl in Hn; lia).
Qed.

Lemma unquotes_escape e b l out :
  simple_unescape e = Some b -> unquotes l out -> unquotes (92 :: e :: l) (b :: out).
Proof.
  intros He Hl [|n] Hn; [simpl in Hn; lia|]. cbn [unquote_n].
  change (92 =? 92) with true. cbv iota. rewrite He.
  by rewrite Hl by (simpl in Hn; lia).
Qed.

Lemma unquotes_u h1 h2 h3 h4 v1 v2 v3 v4 l out :
  hex_val h1 = Some v1 -> hex_val h2 = Some v2 -> hex_val h3 = Some v3 -> hex_val h4 = Some v4 ->
  is_surrogate (v1 * 4096 + v2 * 256 + v3 * 16 + v4) = false ->
  unquotes l out ->
  unquotes (92 :: 117 :: h1 :: h2 :: h3 :: h4 :: l)
    (encode_rune (v1 * 4096 + v2 * 256 + v3 * 16 + v4) ++ out).
Proof.
  intros H1 H2 H3 H4 Hs Hl [|n] Hn; [simpl in Hn; lia|]. cbn [unquote_n].
  change (92 =? 92) with true. change (simple_unescape 117) with (@None N).
  change (117 =? 117) with true. cbv iota. cbn [getu4].
  rewrite H1, H2, H3, H4. cbn [mbind option_bind]. rewrite Hs.
  by rewrite Hl by (simpl in Hn; lia).
Qed.

Lemma unquotes_rune c l out :
  128 <= c -> is_scalar c = true -> unquotes l out ->
  unquotes (encode_rune c ++ l) (encode_rune c ++ out).
Proof.
  intros Hc Hs Hl n Hn. pose proof (decode_encode_rune c l Hs) as Hd.
  pose proof (encode_rune_high c Hc) as Hh.
  assert (Hd' : drop (length (encode_rune c)) (encode_rune c ++ l) = l)
    by apply drop_app_length.
  destruct (encode_rune c) as [|b bs] eqn:Eb.
  { exfalso. revert Eb. unfold encode_rune. repeat case_match; done. }
  destruct n as [|n]; [simpl in Hn; lia|]. apply Forall_cons in Hh as [Hb _].
  cbn [app unquote_n] in *.
  destruct (N.eqb_spec b 92); [lia|]. destruct (N.eqb_spec b 34); [lia|].
  destruct (N.ltb_spec b 32); [lia|]. destruct (N.ltb_spec b 128); [lia|]. cbn [orb].
  rewrite Hd, Hd'. rewrite Hl; [by rewrite Eb|].
  simpl in Hn. rewrite length_app in Hn. lia.
Qed.

Lemma unquotes_escape_ascii c l out :
  c < 128 -> html_safe c = false -> unquotes l out ->
  unquotes (escape_ascii c ++ l) (c :: out).
Proof.
  intros Hc Hs Hl. unfold escape_ascii.
  repeat match goal with
  | |- context [if ?b =? ?k then _ else _] => destruct (N.eqb_spec b k) as [->|]; cbn [app]
  | |- context [if ?b then _ else _] => destruct b eqn:?; cbn [app]
  end; try (by apply unquotes_escape).
  - apply unquotes_escape; [|done]. unfold simple_unescape. by rewrite Heqb.
  - assert (Hu := unquotes_u 48 48 _ _ 0 0 (c / 16) (c mod 16) l out eq_refl eq_refl
      (hex_val_digit (c / 16) ltac:(divlia)) (hex_val_digit (c mod 16) ltac:(divlia))).
    replace (0 * 4096 + 0 * 256 + c / 16 * 16 + c mod 16) with c in Hu by divlia.
    assert (Hec : encode_rune c = [c]) by (unfold encode_rune; n_cases).
    rewrite Hec in Hu. apply Hu; [|done].
    unfold is_surrogate, in_range. n_cases.
Qed.

Lemma unquotes_quote_rune t l out :
  token_ok t -> unquotes l out -> unquotes (quote_rune t ++ l) (encode_rune (fst t) ++ out).
Proof.
  intros Ht Hl. destruct t as [c bs]. unfold quote_rune. cbn [fst].
  destruct (N.ltb_spec c 128) as [Hc|Hc].
  { replace (encode_rune c) with [c] by (unfold encode_rune; n_cases).
    destruct (html_safe c) eqn:Hs; [|by apply unquotes_escape_ascii].
    unfold html_safe in Hs. bool_hyps. rewrite !negb_true_iff, !N.eqb_neq in *.
    by apply unquotes_plain. }
  destruct (_ && _) eqn:He.
  { bool_hyps. subst c.
    by apply (unquotes_u 102 102 102 100 15 15 15 13). }
  destruct ((c =? 8232) || (c =? 8233)) eqn:Hp.
  { assert (Hv : 2 * 4096 + 0 * 256 + 2 * 16 + c mod 16 = c).
    { bool_hyps. destruct Hp; bool_hyps; by subst. }
    rewrite <- Hv at 2.
    apply (unquotes_u 50 48 50 _ 2 0 2 (c mod 16)); try done.
    - apply hex_val_digit. divlia.
    - bool_hyps. destruct Hp; bool_hyps; by subst. }
  destruct Ht as [[Hsc Hbs]|[Hre (b & Hbs & Hb)]]; cbn [fst snd] in *; subst.
  - by apply unquotes_rune.
  - done.
Qed.

(** Storing a string as JSON and loading it back sanitizes it. *)
Lemma unquote_quote l : Forall byte l -> unquote (quote l) = Some (sanitize_codes l).
Proof.
  intros Hl. enough (unquotes (quote l) (sanitize_codes l)) as H by (by apply H).
  revert l Hl. apply runes_ind; [apply unquotes_nil|].
  intros t l Ht _ _ Hr IH. unfold quote. rewrite Hr, sanitize_step by done.
  by apply unquotes_quote_rune.
Qed.

(** ** Integers *)

Fixpoint digits_n (n : nat) (v : N) (acc : list N) : list N :=
  match n with
  | O => acc
  | S n' =>
      let acc' := (48 + v mod 10) :: acc in
      if v <? 10 then acc' else digits_n n' (v / 10) acc'
  end.
(** the decimal digits of [v]; the bit length bounds their number *)
Definition digits (v : N) : list N := digits_n (S (N.to_nat (N.size v))) v [].

(** [strconv.AppendInt] *)
Definition print_int (z : Z) : list N :=
  if (z <? 0)%Z then 45 :: digits (Z.to_N (- z)) else digits (Z.to_N z).

Definition digits_val (l : list N) : N := fold_left (fun a d => 10 * a + (d - 48)) l 0.

(** [strconv.ParseInt] and [strconv.ParseUint] on a JSON number *)
Definition parse_int (lit : list N) : option Z :=
  match lit with
  | c :: r =>
      if c =? 45 then
        if forallb is_digit r && negb (bool_decide (r = []))
        then Some (- Z.of_N (digits_val r))%Z else None
      else if forallb is_digit lit then Some (Z.of_N (digits_val lit)) else None
  | [] => None
  end.

Definition int_digits (v : N) (d : list N) : Prop :=
  d <> [] /\ forallb is_digit d = true /\ digits_val d = v /\
  (v <> 0 -> forall r, d <> 48 :: r) /\ (v = 0 -> d = [48]).

Lemma digit_code v : v < 10 -> is_digit (48 + v) = true.
Proof. intros. unfold is_digit, in_range. rewrite andb_true_iff, !N.leb_le. lia. Qed.

Lemma digits_val_snoc d c : digits_val (d ++ [c]) = 10 * digits_val d + (c - 48).
Proof. unfold digits_val. by rewrite fold_left_app. Qed.

Lemma digits_n_spec n v acc :
  v < 2 ^ N.of_nat n -> (0 < n)%nat ->
  exists d, digits_n n v acc = d ++ acc /\ int_digits v d.
Proof.
  unfold int_digits. revert v acc. induction n as [|n IH]; intros v acc Hn H0; [lia|].
  cbn [digits_n]. destruct (N.ltb_spec v 10) as [Hv|Hv].
  { exists [48 + v mod 10]. rewrite N.mod_small by done. split_and!; [done..| | | |].
    - cbn [forallb]. by rewrite digit_code.
    - unfold digits_val. cbn [fold_left]. lia.
    - intros Hz r [=]. lia.
    - by intros ->. }
  rewrite Nat2N.inj_succ, N.pow_succ_r' in Hn.
  destruct (IH (v / 10) ((48 + v mod 10) :: acc)) as (d & Hd & Hne & Hdig & Hval & Hz & _).
  { divlia. }
  { destruct n; [simpl in Hn; lia|lia]. }
  exists (d ++ [48 + v mod 10]). split_and!.
  - rewrite Hd. by rewrite <- app_assoc.
  - by destruct d.
  - rewrite forallb_app, Hdig. cbn [forallb]. rewrite digit_code by divlia. done.
  - rewrite digits_val_snoc, Hval. divlia.
  - intros _ r. destruct d as [|c d]; [done|]. intros [= -> _].
    eapply Hz; [divlia|done].
  - lia.
Qed.

Lemma digits_spec v : int_digits v (digits v).
Proof.
  unfold digits. destruct (digits_n_spec (S (N.to_nat (N.size v))) v []) as (d & Hd & Hi).
  - rewrite Nat2N.inj_succ, N2Nat.id, N.pow_succ_r'. pose proof (N.size_gt v). lia.
  - lia.
  - by rewrite Hd, app_nil_r.
Qed.

Lemma parse_print_int z : parse_int (print_int z) = Some z.
Proof.
  unfold print_int. destruct (Z.ltb_spec z 0) as [Hz|Hz].
  - destruct (digits_spec (Z.to_N (- z))) as (Hne & Hd & Hv & _).
    cbn [parse_int]. change (45 =? 45) with true. cbv iota.
    rewrite Hd, Hv, bool_decide_false by done. cbn [andb negb]. f_equal. lia.
  - destruct (digits_spec (Z.to_N z)) as (Hne & Hd & Hv & _).
    destruct (digits (Z.to_N z)) as [|c r] eqn:E; [done|].
    cbn [parse_int]. assert (c =? 45 = false) as ->.
    { apply N.eqb_neq. intros ->. done. }
    rewrite Hd, Hv. f_equal. lia.
Qed.

Lemma span_digits_app d rest :
  forallb is_digit d = true -> delim rest -> span_digits (d ++ rest) = (d, rest).
Proof.
  intros Hd Hr. induction d as [|c d IH]; cbn [app span_digits].
  - destruct rest as [|c r]; [done|]. cbn [span_digits]. destruct Hr as [-> _]. done.
  - cbn [forallb] in Hd. bool_hyps. rewrite H. by rewrite IH.
Qed.

Lemma scan_tail rest : delim rest -> scan_frac rest = Some ([], rest) /\ scan_exp rest = Some ([], rest).
Proof.
  destruct rest as [|c r]; [done|]. intros (_ & H1 & H2 & H3).
  apply N.eqb_neq in H1, H2, H3. cbn [scan_frac scan_exp]. by rewrite H1, H2, H3.
Qed.

Lemma scan_digits v rest d :
  int_digits v d -> delim rest ->
  match span_digits (d ++ rest) with
  | ([], _) => None
  | (d0 :: ds, l2) =>
      if (d0 =? 48) && negb (bool_decide (ds = [])) then None else
      '(fr, l3) ← scan_frac l2; '(ex, l4) ← scan_exp l3; Some (d0 :: ds ++ fr ++ ex, l4)
  end = Some (d, rest).
Proof.
  intros (Hne & Hd & _ & Hz & H0) Hr. rewrite span_digits_app by done.
  destruct d as [|c d]; [done|].
  assert ((c =? 48) && negb (bool_decide (d = [])) = false) as ->.
  { apply andb_false_iff. destruct (decide (v = 0)) as [E|E].
    - specialize (H0 E). simplify_eq. by right.
    - left. apply N.eqb_neq. intros ->. by eapply Hz. }
  destruct (scan_tail rest Hr) as [Hf He]. rewrite Hf. cbn [mbind option_bind].
  rewrite He. cbn [mbind option_bind app]. by rewrite app_nil_r.
Qed.

Lemma num_ok_print_int z : num_ok (print_int z).
Proof.
  unfold print_int. destruct (Z.ltb_spec z 0) as [Hz|Hz].
  - pose proof (digits_spec (Z.to_N (- z))) as Hd.
    split; [by left|]. intros rest Hr. pose proof (scan_digits _ rest _ Hd Hr) as Hs.
    unfold scan_num. cbn [app]. change (45 =? 45) with true. cbv iota.
    destruct (span_digits _) as [[|d0 ds] l2]; [done|]. destruct (_ && _); [done|].
    destruct (scan_frac l2) as [[fr l3]|]; [|done]. cbn [mbind option_bind] in *.
    destruct (scan_exp l3) as [[ex l4]|]; [|done]. cbn [mbind option_bind] in *.
    injection Hs as H1 H2. cbn [app]. by rewrite H1, H2.
  - pose proof (digits_spec (Z.to_N z)) as Hd.
    destruct (digits (Z.to_N z)) as [|c r] eqn:E; [by destruct Hd|].
    assert (Hc : is_digit c = true).
    { destruct Hd as (_ & Hd & _). cbn [forallb] in Hd. by bool_hyps. }
    split; [by right|]. intros rest Hr. pose proof (scan_digits _ rest _ Hd Hr) as Hs.
    unfold scan_num. cbn [app] in *. assert (c =? 45 = false) as ->.
    { apply N.eqb_neq. intros ->. done. }
    destruct (span_digits _) as [[|d0 ds] l2]; [done|]. destruct (_ && _); [done|].
    destruct (scan_frac l2) as [[fr l3]|]; [|done]. cbn [mbind option_bind] in *.
    destruct (scan_exp l3) as [[ex l4]|]; [|done]. cbn [mbind option_bind] in *.
    cbn [app]. by simplify_eq.
Qed.
