(* ===== verification/GoTime.v ===== *)
(** * time.Time as JSON

    [Time.MarshalJSON] writes RFC 3339 with up to nine fractional digits and
    refuses years outside 0..9999; [Time.UnmarshalJSON] reads it back. The
    calendar is the proleptic Gregorian one of package time. The parser is
    the one for RFC 3339 proper ([parseRFC3339]); the lenient layouts that
    package time also tries after it fails are not modelled and count as
    errors. *)
From S2P Require Import Prelude GoBase Base64 Utf8 Json JsonLit.
Local Open Scope Z_scope.

(** ** The calendar *)

Definition is_leap (y : Z) : bool :=
  (y mod 4 =? 0) && (negb (y mod 100 =? 0) || (y mod 400 =? 0)).

(** days from 0001-01-01 to January 1 of year [y] *)
Definition days_before_year (y : Z) : Z :=
  let p := y - 1 in 365 * p + p / 4 - p / 100 + p / 400.

(** the year of a day and the day in that year, both from 0001-01-01 *)
Definition year_of_day (d : Z) : Z * Z :=
  let n400 := d / 146097 in
  let d := d mod 146097 in
  let n100 := Z.min 3 (d / 36524) in
  let d := d - 36524 * n100 in
  let n4 := d / 1461 in
  let d := d mod 1461 in
  let n1 := Z.min 3 (d / 365) in
  (400 * n400 + 100 * n100 + 4 * n4 + n1 + 1, d - 365 * n1).

Definition month_lens (leap : bool) : list Z :=
  [31; if leap then 29 else 28; 31; 30; 31; 30; 31; 31; 30; 31; 30; 31].

Definition sum_Z (l : list Z) : Z := foldr Z.add 0 l.

(** the month (from 0) and the day in it (from 0) of a day of the year *)
Fixpoint split_month (lens : list Z) (d : Z) : nat * Z :=
  match lens with
  | [] => (0%nat, d)
  | n :: r => if d <? n then (0%nat, d) else let '(m, d') := split_month r (d - n) in (S m, d')
  end.

Definition days_in (m : nat) (y : Z) : Z := nth (m - 1) (month_lens (is_leap y)) 0.

(** [time.Date] at midnight, in days *)
Definition days_of_date (y : Z) (m : nat) (d : Z) : Z :=
  days_before_year y + sum_Z (take (m - 1) (month_lens (is_leap y))) + (d - 1).

(** [Time.Date] *)
Definition date_of_days (days : Z) : Z * nat * Z :=
  let '(y, yd) := year_of_day days in
  let '(m, d) := split_month (month_lens (is_leap y)) yd in
  (y, S m, d + 1).

Ltac zdiv := Z.to_euclidean_division_equations; lia.

Lemma year_of_day_spec d :
  let '(y, yd) := year_of_day d in
  days_before_year y + yd = d /\ 0 <= yd < 365 + (if is_leap y then 1 else 0).
Proof.
  unfold year_of_day, days_before_year.
  set (n400 := d / 146097). set (d1 := d mod 146097).
  assert (H0 : d = 146097 * n400 + d1 /\ 0 <= d1 < 146097) by (unfold n400, d1; zdiv).
  clearbody n400 d1. destruct H0 as [-> H1].
  set (n100 := Z.min 3 (d1 / 36524)).
  assert (H2 : 0 <= n100 <= 3 /\ 36524 * n100 <= d1 /\ (n100 < 3 -> d1 < 36524 * n100 + 36524))
    by (unfold n100; zdiv).
  clearbody n100. destruct H2 as (H2 & H3 & H4).
  set (d2 := d1 - 36524 * n100).
  assert (H5 : d1 = d2 + 36524 * n100 /\ 0 <= d2 < 36525 /\ (n100 < 3 -> d2 < 36524))
    by (unfold d2; lia).
  clearbody d2. destruct H5 as (-> & H5 & H6).
  set (n4 := d2 / 1461). set (d3 := d2 mod 1461).
  assert (H7 : d2 = 1461 * n4 + d3 /\ 0 <= d3 < 1461 /\ 0 <= n4 <= 24) by (unfold n4, d3; zdiv).
  clearbody n4 d3. destruct H7 as (-> & H7 & H8).
  set (n1 := Z.min 3 (d3 / 365)).
  assert (H9 : 0 <= n1 <= 3 /\ 365 * n1 <= d3 /\ (n1 < 3 -> d3 < 365 * n1 + 365))
    by (unfold n1; zdiv).
  clearbody n1. destruct H9 as (H9 & H10 & H11).
  set (y := 400 * n400 + 100 * n100 + 4 * n4 + n1 + 1).
  assert (E4 : (y - 1) / 4 = 100 * n400 + 25 * n100 + n4) by (unfold y; zdiv).
  assert (E100 : (y - 1) / 100 = 4 * n400 + n100) by (unfold y; zdiv).
  assert (E400 : (y - 1) / 400 = n400) by (unfold y; zdiv).
  rewrite E4, E100, E400. split; [unfold y; lia|]. split; [lia|].
  destruct (is_leap y) eqn:L; [lia|].
  unfold is_leap in L.
  destruct (decide (d3 - 365 * n1 < 365)) as [|Hlast]; [lia|exfalso].
  assert (n1 = 3) as -> by lia. assert (d3 = 1460) as -> by lia.
  assert (y mod 4 = 0) as M4 by (unfold y; zdiv). rewrite M4 in L. cbn in L.
  apply orb_false_iff in L as [L1 L2]. apply negb_false_iff, Z.eqb_eq in L1.
  apply Z.eqb_neq in L2. unfold y in *. zdiv.
Qed.

Lemma split_month_spec lens d :
  0 <= d < sum_Z lens ->
  let '(m, r) := split_month lens d in
  (m < length lens)%nat /\ sum_Z (take m lens) + r = d /\ 0 <= r < nth m lens 0.
Proof.
  unfold sum_Z. revert d. induction lens as [|n lens IH]; intros d Hd; simpl in *; [lia|].
  destruct (Z.ltb_spec d n) as [Hn|Hn]; simpl; [lia|].
  specialize (IH (d - n) ltac:(lia)).
  destruct (split_month lens (d - n)) as [m r]. simpl. lia.
Qed.

Lemma date_of_days_spec days :
  let '(y, m, d) := date_of_days days in
  days_of_date y m d = days /\ (1 <= m <= 12)%nat /\ 1 <= d <= days_in m y.
Proof.
  unfold date_of_days. pose proof (year_of_day_spec days) as Hy.
  destruct (year_of_day days) as [y yd]. destruct Hy as [Hy Hr].
  pose proof (split_month_spec (month_lens (is_leap y)) yd) as Hm.
  destruct (split_month _ yd) as [m d]. unfold days_of_date, days_in.
  replace (S m - 1)%nat with m by lia.
  assert (Hs : sum_Z (month_lens (is_leap y)) = 365 + (if is_leap y then 1 else 0))
    by (by destruct (is_leap y)).
  rewrite Hs in Hm. specialize (Hm Hr). destruct Hm as (Hm1 & Hm2 & Hm3).
  split_and!; [lia|lia| |lia|lia].
  assert (length (month_lens (is_leap y)) = 12%nat) by done. lia.
Qed.

(** ** Text *)

(** [n] in exactly [w] decimal digits *)
Fixpoint fixed (w : nat) (n : N) : list N :=
  match w with
  | O => []
  | S w' => fixed w' (n / 10) ++ [48 + n mod 10]%N
  end.

(** [strings.TrimRight(s, "0")] *)
Fixpoint trim_zeros (l : list N) : list N :=
  match l with
  | [] => []
  | c :: r =>
      match trim_zeros r with
      | [] => if (c =? 48)%N then [] else [c]
      | r' => c :: r'
      end
  end.

Definition nanos_per_day : Z := 86400 * second.

(** the text of [Time.MarshalJSON], without its quotes; it fails when the
    year needs other than four digits *)
Definition format_time (t : time) : option (list N) :=
  let days := t / nanos_per_day in
  let nanos := t mod nanos_per_day in
  let secs := nanos / second in
  let nsec := Z.to_N (nanos mod second) in
  let '(y, m, d) := date_of_days days in
  if (0 <=? y) && (y <=? 9999) then
    let frac := trim_zeros (fixed 9 nsec) in
    Some (fixed 4 (Z.to_N y) ++ 45%N :: fixed 2 (N.of_nat m) ++ 45%N :: fixed 2 (Z.to_N d)
          ++ 84%N :: fixed 2 (Z.to_N (secs / 3600)) ++ 58%N :: fixed 2 (Z.to_N (secs / 60 mod 60))
          ++ 58%N :: fixed 2 (Z.to_N (secs mod 60))
          ++ (match frac with [] => [] | _ => 46%N :: frac end) ++ [90%N])
  else None.

(** an unsigned decimal field with its bounds *)
Definition parse_field (l : list N) (lo hi : Z) : option Z :=
  if forallb is_digit l then
    let v := Z.of_N (digits_val l) in
    if (lo <=? v) && (v <=? hi) then Some v else None
  else None.

(** an optional fraction of a second: nanoseconds and what follows; digits
    beyond the ninth are dropped *)
Definition parse_frac (l : list N) : Z * list N :=
  match l with
  | c :: r =>
      if (c =? 46)%N then
        match span_digits r with
        | ([], _) => (0, l)
        | (ds, rest) =>
            let ds := take 9 ds in
            (Z.of_N (digits_val ds) * 10 ^ (9 - Z.of_nat (length ds)), rest)
        end
      else (0, l)
  | [] => (0, l)
  end.

(** the zone: [Z] or an offset, in seconds east of UTC *)
Definition parse_zone (l : list N) : option Z :=
  match l with
  | [c] => if (c =? 90)%N then Some 0 else None
  | [s; h1; h2; c; m1; m2] =>
      h ← parse_field [h1; h2] 0 23; m ← parse_field [m1; m2] 0 59;
      if ((s =? 45) || (s =? 43))%N && (c =? 58)%N
      then Some ((if (s =? 45)%N then -1 else 1) * ((h * 60 + m) * 60)) else None
  | _ => None
  end.

(** [parseRFC3339] *)
Definition parse_time (l : list N) : option time :=
  match l with
  | y1 :: y2 :: y3 :: y4 :: c1 :: o1 :: o2 :: c2 :: d1 :: d2 :: c3
    :: h1 :: h2 :: c4 :: i1 :: i2 :: c5 :: s1 :: s2 :: rest =>
      y ← parse_field [y1; y2; y3; y4] 0 9999;
      m ← parse_field [o1; o2] 1 12;
      d ← parse_field [d1; d2] 1 (days_in (Z.to_nat m) y);
      h ← parse_field [h1; h2] 0 23;
      mi ← parse_field [i1; i2] 0 59;
      s ← parse_field [s1; s2] 0 59;
      if ((c1 =? 45) && (c2 =? 45) && (c3 =? 84) && (c4 =? 58) && (c5 =? 58))%N then
        let '(nsec, zone) := parse_frac rest in
        off ← parse_zone zone;
        Some (days_of_date y (Z.to_nat m) d * nanos_per_day
              + (h * 3600 + mi * 60 + s - off) * second + nsec)
      else None
  | _ => None
  end.

(** ** Round trip *)

Lemma length_fixed w n : length (fixed w n) = w.
Proof. revert n. induction w as [|w IH]; intros n; simpl; [done|]. rewrite length_app, IH. simpl. lia. Qed.

Lemma fixed_digits w n : forallb is_digit (fixed w n) = true.
Proof.
  revert n. induction w as [|w IH]; intros n; [done|]. cbn [fixed].
  rewrite forallb_app, IH. cbn [forallb]. by rewrite digit_code by divlia.
Qed.

Lemma fixed_val w n : (n < 10 ^ N.of_nat w)%N -> digits_val (fixed w n) = n.
Proof.
  revert n. induction w as [|w IH]; intros n Hn; [simpl in *; unfold digits_val; simpl; lia|].
  cbn [fixed]. rewrite Nat2N.inj_succ, N.pow_succ_r' in Hn.
  rewrite digits_val_snoc, IH by divlia. divlia.
Qed.

Lemma parse_field_fixed w n lo hi :
  0 <= n -> (Z.to_N n < 10 ^ N.of_nat w)%N -> lo <= n <= hi ->
  parse_field (fixed w (Z.to_N n)) lo hi = Some n.
Proof.
  intros H0 Hn Hr. unfold parse_field. rewrite fixed_digits, fixed_val by done.
  rewrite Z2N.id by done. destruct (Z.leb_spec lo n); [|lia]. by destruct (Z.leb_spec n hi); [|lia].
Qed.

Lemma trim_zeros_spec l :
  exists k, l = trim_zeros l ++ replicate k 48%N.
Proof.
  induction l as [|c l [k IH]]; [by exists 0%nat|]. simpl.
  destruct (trim_zeros l) as [|c' r'] eqn:E.
  - destruct (N.eqb_spec c 48) as [->|].
    + exists (S k). simpl. f_equal. exact IH.
    + exists k. simpl. f_equal. exact IH.
  - exists k. simpl. f_equal. exact IH.
Qed.

Lemma digits_val_zeros d k :
  digits_val (d ++ replicate k 48%N) = (digits_val d * 10 ^ N.of_nat k)%N.
Proof.
  induction k as [|k IH].
  - simpl. rewrite app_nil_r. lia.
  - rewrite replicate_S_end, app_assoc, digits_val_snoc, IH, Nat2N.inj_succ, N.pow_succ_r'. lia.
Qed.

Lemma parse_frac_fixed nsec :
  0 <= nsec < second ->
  let frac := trim_zeros (fixed 9 (Z.to_N nsec)) in
  parse_frac ((match frac with [] => [] | _ => 46%N :: frac end) ++ [90%N]) = (nsec, [90%N]).
Proof.
  intros Hn. destruct (trim_zeros_spec (fixed 9 (Z.to_N nsec))) as [k Hk].
  cbv zeta. assert (Hl := length_fixed 9 (Z.to_N nsec)).
  assert (Hd := fixed_digits 9 (Z.to_N nsec)).
  assert (Hv : digits_val (fixed 9 (Z.to_N nsec)) = Z.to_N nsec)
    by (apply fixed_val; unfold second in Hn; lia).
  set (f := fixed 9 (Z.to_N nsec)) in *. clearbody f.
  set (g := trim_zeros f) in *. clearbody g. subst f.
  rewrite length_app, length_replicate in Hl. rewrite forallb_app in Hd.
  apply andb_true_iff in Hd as [Hd _]. rewrite digits_val_zeros in Hv.
  destruct g as [|c g].
  - unfold digits_val in Hv. simpl in Hv. cbn. f_equal. lia.
  - unfold parse_frac. cbn [app]. change (46 =? 46)%N with true. cbv iota.
    change (c :: g ++ [90%N]) with ((c :: g) ++ [90%N]).
    rewrite (span_digits_app (c :: g) [90%N]) by done.
    rewrite take_ge by lia. f_equal.
    replace (9 - Z.of_nat (length (c :: g))) with (Z.of_nat k) by lia.
    rewrite <- (Z2N.id nsec), <- Hv by lia.
    rewrite N2Z.inj_mul, N2Z.inj_pow. by rewrite nat_N_Z.
Qed.

(** Any two-digit field is two characters that read back. *)
Lemma fixed2 n :
  0 <= n < 100 ->
  exists a b, fixed 2 (Z.to_N n) = [a; b] /\
    forall lo hi, lo <= n <= hi -> parse_field [a; b] lo hi = Some n.
Proof.
  intros Hn. eexists _, _. split; [reflexivity|]. intros lo hi Hr.
  apply (parse_field_fixed 2 n lo hi); lia.
Qed.

Lemma fixed4 n :
  0 <= n < 10000 ->
  exists a b c d, fixed 4 (Z.to_N n) = [a; b; c; d] /\
    forall lo hi, lo <= n <= hi -> parse_field [a; b; c; d] lo hi = Some n.
Proof.
  intros Hn. eexists _, _, _, _. split; [reflexivity|]. intros lo hi Hr.
  apply (parse_field_fixed 4 n lo hi); lia.
Qed.

Lemma days_in_range y m : 0 <= days_in m y <= 31.
Proof.
  unfold days_in.
  destruct (List.nth_in_or_default (m - 1) (month_lens (is_leap y)) 0) as [Hin| ->]; [|lia].
  revert Hin. unfold month_lens. destruct (is_leap y); simpl; lia.
Qed.

(** A time that can be written is read back unchanged. *)
Lemma parse_format_time t l : format_time t = Some l -> parse_time l = Some t.
Proof.
  unfold format_time.
  set (days := t / nanos_per_day). set (nanos := t mod nanos_per_day).
  assert (Ht : t = days * nanos_per_day + nanos /\ 0 <= nanos < nanos_per_day)
    by (unfold days, nanos, nanos_per_day, second; zdiv).
  clearbody days nanos. destruct Ht as [-> Hn].
  set (secs := nanos / second). set (nsec := nanos mod second).
  assert (Hs : nanos = secs * second + nsec /\ 0 <= nsec < second /\ 0 <= secs < 86400)
    by (unfold secs, nsec, nanos_per_day, second in *; zdiv).
  clearbody secs nsec. destruct Hs as (-> & Hns & Hs).
  pose proof (date_of_days_spec days) as Hd.
  destruct (date_of_days days) as [[y m] d]. destruct Hd as (Hd & Hm & Hdm).
  pose proof (days_in_range y m) as Hdi.
  destruct ((0 <=? y) && (y <=? 9999)) eqn:Hy; [|done].
  apply andb_true_iff in Hy as [Hy1%Z.leb_le Hy2%Z.leb_le].
  intros E. apply (inj Some) in E as <-.
  destruct (fixed4 y ltac:(lia)) as (y1 & y2 & y3 & y4 & -> & Py).
  replace (N.of_nat m) with (Z.to_N (Z.of_nat m)) by lia.
  destruct (fixed2 (Z.of_nat m) ltac:(lia)) as (o1 & o2 & -> & Po).
  destruct (fixed2 d ltac:(lia)) as (d1 & d2 & -> & Pd).
  destruct (fixed2 (secs / 3600) ltac:(zdiv)) as (h1 & h2 & -> & Ph).
  destruct (fixed2 (secs / 60 mod 60) ltac:(zdiv)) as (i1 & i2 & -> & Pi).
  destruct (fixed2 (secs mod 60) ltac:(zdiv)) as (s1 & s2 & -> & Ps).
  pose proof (parse_frac_fixed nsec Hns) as Hf. cbv zeta in Hf.
  cbn [app]. cbn [parse_time].
  rewrite Py, Po by lia. cbn [mbind option_bind]. rewrite Nat2Z.id.
  rewrite Pd by lia. cbn [mbind option_bind].
  rewrite Ph, Pi, Ps by zdiv. cbn [mbind option_bind].
  simpl ((_ && _ && _ && _ && _)%bool). cbv iota.
  rewrite Hf. cbn [parse_zone]. change (90 =? 90)%N with true. cbn [mbind option_bind].
  f_equal. rewrite Hd.
  assert (secs / 3600 * 3600 + secs / 60 mod 60 * 60 + secs mod 60 = secs) as Hsecs by zdiv.
  lia.
Qed.

Example format_zero_time : of_codes <$> format_time zero_time = Some "0001-01-01T00:00:00Z"%stdpp.
Proof. vm_compute. reflexivity. Qed.
Example format_frac :
  of_codes <$> format_time (unix_epoch + 951782400 * second + 120000000) =
    Some "2000-02-29T00:00:00.12Z"%stdpp.
Proof. vm_compute. reflexivity. Qed.
