(* ===== verification/Codec.v ===== *)
(** * The codec interface: json.Marshal and json.Unmarshal of a Go type

    [GoJSON A] is what a record type promises to the code that stores it:
    an encoder, a decoder into the zero value, and the law that what was
    stored is read back as [stored a]. Strings make [stored] differ from the
    identity: encoding/json replaces invalid UTF-8 (see [Utf8.sanitize]).
    The rest of the file holds the field codecs from which the instances of
    the collections are assembled. *)
From S2P Require Import Prelude GoBase Base64 Utf8 Json JsonLit GoTime.
Local Open Scope Z_scope.

Class GoJSON (A : Type) := {
  encode : A -> option json;
  decode : json -> option A;
  (** the values of the Go type: integers within their width *)
  in_width : A -> Prop;
  stored : A -> A;
  encode_ok a j : encode a = Some j -> json_ok j;
  decode_encode a j : in_width a -> encode a = Some j -> decode j = Some (stored a);
  decode_in_width j a : decode j = Some a -> in_width a;
}.

(** [json.Marshal(a)]; [None] is a non-nil error *)
Definition Marshal `{GoJSON A} (a : A) : option string := of_codes ∘ print <$> encode a.
(** [json.Unmarshal(raw, &a)] for a zero [a]; [None] is a non-nil error *)
Definition Unmarshal `{GoJSON A} (raw : string) : option A := parse (codes raw) ≫= decode.

Section laws.
Context `{GoJSON A}.

Lemma Unmarshal_Marshal a raw :
  in_width a -> Marshal a = Some raw -> Unmarshal raw = Some (stored a).
Proof.
  unfold Marshal, Unmarshal. intros Ha Hm.
  apply fmap_Some in Hm as (j & Hj & ->). pose proof (encode_ok a j Hj) as Hok.
  cbv [compose]. rewrite codes_of_codes by by apply print_bytes.
  rewrite parse_print by done. simpl. by apply decode_encode.
Qed.

Lemma Unmarshal_in_width raw a : Unmarshal raw = Some a -> in_width a.
Proof.
  unfold Unmarshal. intros H0. apply bind_Some in H0 as (j & _ & Hj).
  by eapply decode_in_width.
Qed.

Lemma Marshal_is_Some a : is_Some (Marshal a) <-> is_Some (encode a).
Proof. unfold Marshal. by rewrite fmap_is_Some. Qed.
End laws.

#[global] Opaque Marshal Unmarshal.

(** ** Field codecs *)

Definition enc_string (s : string) : json := JStr (quote (codes s)).
Definition dec_string (j : json) : option string :=
  match j with JStr raw => of_codes <$> unquote raw | _ => None end.

Definition enc_int (z : Z) : json := JNum (print_int z).
Definition dec_num (lo hi : Z) (j : json) : option Z :=
  match j with
  | JNum lit => v ← parse_int lit; if (lo <=? v) && (v <? hi) then Some v else None
  | _ => None
  end.
Definition dec_u64 : json -> option Z := dec_num 0 (2 ^ 64).
Definition dec_i64 : json -> option Z := dec_num (- 2 ^ 63) (2 ^ 63).

Definition enc_time (t : time) : option json := JStr <$> format_time t.
Definition dec_time (j : json) : option time :=
  match j with JStr raw => parse_time raw | _ => None end.

(** the times that have a JSON form: years 0 to 9999 *)
Definition time_ok (t : time) : Prop := is_Some (enc_time t).

Definition enc_bool (b : bool) : json := JBool b.
Definition dec_bool (j : json) : option bool :=
  match j with JBool b => Some b | _ => None end.

(** a [[]byte] as base64 *)
Definition enc_bytes (s : string) : json := JStr (encode_codes StdEncoding (codes s)).
(** a JSON string in base64, or an array of small integers *)
Definition dec_bytes (j : json) : option string :=
  match j with
  | JStr raw => s ← unquote raw; DecodeString StdEncoding (of_codes s)
  | JArr l =>
      of_codes <$> mapM (fun e => match e with
        | JNull => Some 0%N | _ => Z.to_N <$> dec_num 0 256 e end) l
  | _ => None
  end.

Definition enc_strings (l : list string) : json := JArr (enc_string <$> l).
Definition dec_elem (e : json) : option string :=
  match e with JNull => Some EmptyString | _ => dec_string e end.
Definition dec_strings (j : json) : option (list string) :=
  match j with JArr l => mapM dec_elem l | _ => None end.

(** *** Round trips of the fields *)

Lemma quote_bytes l : Forall byte l -> Forall byte (quote l).
Proof.
  assert (Hh : forall v, (v < 16)%N -> byte (hex_digit v)).
  { intros v Hv. unfold hex_digit, byte. destruct (N.ltb_spec v 10); lia. }
  unfold quote. revert l. apply runes_ind; [constructor|].
  intros [c bs] l Ht Hbs _ Hr IH. rewrite Hr. cbn [fmap list_fmap concat].
  apply Forall_app_2; [|done]. unfold quote_rune. cbn [snd] in Hbs.
  destruct (N.ltb_spec c 128).
  - destruct (html_safe c); [repeat constructor; unfold byte; lia|].
    unfold escape_ascii. repeat case_match;
      repeat (apply Forall_cons_2; [first [apply Hh; divlia|unfold byte; lia]|]); constructor.
  - destruct (_ && _); [repeat constructor|].
    destruct (_ || _); [|done].
    repeat (apply Forall_cons_2; [first [apply Hh; divlia|done]|]); constructor.
Qed.

Lemma enc_string_ok s : json_ok (enc_string s).
Proof. constructor; [apply quote_bytes|apply raw_ok_quote]; apply codes_bytes. Qed.

Lemma dec_enc_string s : dec_string (enc_string s) = Some (sanitize s).
Proof. simpl. by rewrite unquote_quote by apply codes_bytes. Qed.

Lemma enc_int_ok z : json_ok (enc_int z).
Proof.
  constructor; [|apply num_ok_print_int].
  assert (forall d, forallb is_digit d = true -> Forall byte d) as Hd.
  { intros d. rewrite List.forallb_forall, Forall_forall. intros Hd x Hx%list_elem_of_In.
    specialize (Hd x Hx). unfold is_digit, in_range in Hd. bool_hyps. unfold byte. lia. }
  unfold print_int. destruct (z <? 0); [constructor; [done|]|];
    apply Hd; eapply digits_spec.
Qed.

Lemma dec_enc_num lo hi z : lo <= z < hi -> dec_num lo hi (enc_int z) = Some z.
Proof.
  intros Hz. unfold dec_num, enc_int. rewrite parse_print_int. simpl.
  destruct (Z.leb_spec lo z); [|lia]. by destruct (Z.ltb_spec z hi); [|lia].
Qed.

Lemma dec_num_range lo hi j z : dec_num lo hi j = Some z -> lo <= z < hi.
Proof.
  destruct j; try done. simpl. destruct (parse_int lit) as [v|]; [|done]. simpl.
  destruct (Z.leb_spec lo v), (Z.ltb_spec v hi); try done. by intros [= ->].
Qed.

Lemma enc_bool_ok b : json_ok (enc_bool b).
Proof. constructor. Qed.

(** *** Literals written without escapes: times and base64 *)

Lemma plain_raw_ok l : Forall plain_char l -> raw_ok l.
Proof.
  unfold plain_char.
  induction 1 as [|c l Hc Hl IH]; [done|]. apply raw_ok_plain; [lia..|done].
Qed.

Lemma plain_bytes l : Forall plain_char l -> Forall byte l.
Proof. intros H. eapply Forall_impl; [exact H|]. unfold plain_char, byte. simpl. lia. Qed.

Lemma plain_unquote l : Forall plain_char l -> unquote l = Some l.
Proof.
  intros Hl. enough (unquotes l l) as H by (by apply H).
  unfold plain_char in Hl. induction Hl as [|c l Hc Hl IH]; [apply unquotes_nil|].
  apply unquotes_plain; [lia..|done].
Qed.

Lemma digits_plain d : forallb is_digit d = true -> Forall plain_char d.
Proof.
  rewrite List.forallb_forall, Forall_forall. intros Hd x Hx%list_elem_of_In.
  specialize (Hd x Hx). unfold is_digit, in_range in Hd. bool_hyps. unfold plain_char. lia.
Qed.

Lemma fixed_plain w n : Forall plain_char (fixed w n).
Proof. apply digits_plain, fixed_digits. Qed.

Lemma format_time_plain t l : format_time t = Some l -> Forall plain_char l.
Proof.
  unfold format_time. destruct (date_of_days _) as [[y m] d]. destruct (_ && _); [|done].
  intros E. apply (inj Some) in E as <-.
  repeat (apply Forall_app_2; [apply fixed_plain|]; apply Forall_cons_2; [done|]).
  apply Forall_app_2; [apply fixed_plain|]. apply Forall_app_2; [|repeat constructor; done].
  set (f := fixed 9 _). assert (Forall plain_char f) as Hf by apply fixed_plain. clearbody f.
  destruct (trim_zeros_spec f) as [k Hk]. rewrite Hk in Hf. apply Forall_app in Hf as [Hf _].
  destruct (trim_zeros f); [constructor|]. by constructor.
Qed.

Lemma enc_time_ok t j : enc_time t = Some j -> json_ok j.
Proof.
  unfold enc_time. intros (l & Hl & ->)%fmap_Some. apply format_time_plain in Hl.
  constructor; [by apply plain_bytes|by apply plain_raw_ok].
Qed.

Lemma dec_enc_time t j : enc_time t = Some j -> dec_time j = Some t.
Proof. unfold enc_time. intros (l & Hl & ->)%fmap_Some. by apply parse_format_time. Qed.

Lemma base64_plain s : Forall plain_char (encode_codes StdEncoding (codes s)).
Proof. apply encode_codes_chars; [apply std_std_alphabet|apply codes_bytes]. Qed.

Lemma enc_bytes_ok s : json_ok (enc_bytes s).
Proof. constructor; [apply plain_bytes|apply plain_raw_ok]; apply base64_plain. Qed.

Lemma dec_enc_bytes s : dec_bytes (enc_bytes s) = Some s.
Proof.
  simpl. rewrite plain_unquote by apply base64_plain. simpl.
  change (of_codes (encode_codes StdEncoding (codes s))) with (EncodeToString StdEncoding s).
  apply DecodeString_EncodeToString, std_std_alphabet.
Qed.

Lemma enc_strings_ok l : json_ok (enc_strings l).
Proof. constructor. apply Forall_fmap, Forall_true. intros s. apply enc_string_ok. Qed.

Lemma dec_enc_strings l : dec_strings (enc_strings l) = Some (sanitize <$> l).
Proof.
  unfold enc_strings, dec_strings.
  induction l as [|s l IH]; [done|]. cbn [fmap list_fmap mapM].
  change (dec_elem (enc_string s)) with (dec_string (enc_string s)).
  rewrite dec_enc_string. cbn [mbind option_bind]. rewrite IH. done.
Qed.

(** ** Objects

    A struct is decoded member by member, in the order of the text, into its
    zero value. The name of a member selects the field whose name equals it
    up to case folding (field names are ASCII and pairwise different under
    folding); a member without a field is ignored; [null] leaves a field
    alone. *)

Definition fold_code (c : N) : N :=
  if in_range 97 122 c then (c - 32)%N
  else if (c =? 383)%N then 83%N        (* long s *)
  else if (c =? 8490)%N then 75%N       (* Kelvin sign *)
  else c.
Definition fold_key (k : list N) : list N := fold_code ∘ fst <$> runes k.

Definition setter (R : Type) : Type := json -> R -> option R.

(** A field whose zero value is kept on [null]. *)
Definition field {R X} (dec : json -> option X) (set : X -> R -> R) : setter R :=
  fun j r => match j with JNull => Some r | _ => (fun x => set x r) <$> dec j end.
(** A slice field: [null] makes it nil. *)
Definition slice_field {R X} (nil : X) (dec : json -> option X) (set : X -> R -> R) : setter R :=
  fun j r => match j with JNull => Some (set nil r) | _ => (fun x => set x r) <$> dec j end.

Fixpoint find_name (names : list string) (k : list N) : option nat :=
  match names with
  | [] => None
  | name :: ns =>
      if bool_decide (fold_key (codes name) = fold_key k) then Some 0%nat else S <$> find_name ns k
  end.
Definition find_field {R} (fields : list (string * setter R)) (k : list N) : option (setter R) :=
  i ← find_name (fst <$> fields) k; snd <$> fields !! i.

Fixpoint dec_members {R} (fields : list (string * setter R)) (ms : list (list N * json)) (r : R) :
    option R :=
  match ms with
  | [] => Some r
  | (k, v) :: ms' =>
      name ← unquote k;
      r' ← match find_field fields name with Some f => f v r | None => Some r end;
      dec_members fields ms' r'
  end.

Definition dec_struct {R} (fields : list (string * setter R)) (zero : R) (j : json) : option R :=
  match j with
  | JNull => Some zero
  | JObj ms => dec_members fields ms zero
  | _ => None
  end.

Definition member (name : string) (v : json) : list N * json := (codes name, v).

(** A name that needs no escaping. *)
Definition plain_name (name : string) : bool := forallb (fun c => in_range 43 122 c && negb (c =? 92)%N) (codes name).

Lemma plain_name_spec name : plain_name name = true -> Forall plain_char (codes name).
Proof.
  unfold plain_name. rewrite List.forallb_forall, Forall_forall.
  intros Hd x Hx%list_elem_of_In. specialize (Hd x Hx). bool_hyps.
  unfold in_range in *. rewrite negb_true_iff in *. bool_hyps. unfold plain_char. lia.
Qed.

Lemma member_ok name v :
  plain_name name = true -> json_ok v ->
  (Forall byte (fst (member name v)) /\ raw_ok (fst (member name v))) /\ json_ok (snd (member name v)).
Proof.
  intros Hn%plain_name_spec Hv. split; [|done].
  split; [by apply plain_bytes|by apply plain_raw_ok].
Qed.

(** One step of decoding: the member goes to the field found for its name. *)
Lemma dec_members_step {R} (fields : list (string * setter R)) name f v ms r :
  plain_name name = true -> find_field fields (codes name) = Some f ->
  dec_members fields (member name v :: ms) r = f v r ≫= dec_members fields ms.
Proof.
  intros Hn%plain_name_spec Hf. simpl. rewrite plain_unquote by done. simpl. by rewrite Hf.
Qed.

(** Every field of an object decodes into its width: an invariant of the
    fields is an invariant of the record. *)
Lemma dec_struct_inv {R} (P : R -> Prop) (fields : list (string * setter R)) zero j r :
  P zero -> Forall (fun nf => forall v a b, P a -> snd nf v a = Some b -> P b) fields ->
  dec_struct fields zero j = Some r -> P r.
Proof.
  intros Hz Hf. destruct j as [| | | | |ms]; try done; simpl; [by intros [= <-]|].
  revert zero Hz. induction ms as [|[k v] ms IH]; intros z Hz; simpl; [by intros [= <-]|].
  intros H. apply bind_Some in H as (name & _ & H). apply bind_Some in H as (r' & Hr & H).
  eapply IH; [|exact H].
  assert (Hff : forall f, find_field fields name = Some f -> forall v a b, P a -> f v a = Some b -> P b).
  { intros f Hff. unfold find_field in Hff. apply bind_Some in Hff as (i & _ & Hi).
    apply fmap_Some in Hi as (nf & Hi & ->). rewrite Forall_lookup in Hf. by apply (Hf i). }
  destruct (find_field fields name) as [f|] eqn:E; [by eapply Hff|by simplify_eq].
Qed.

Lemma field_inv {R X} (P : R -> Prop) (dec : json -> option X) (set : X -> R -> R) :
  (forall v x r, P r -> dec v = Some x -> P (set x r)) ->
  forall v a b, P a -> field dec set v a = Some b -> P b.
Proof.
  intros H v a b Ha. unfold field.
  destruct v; [by intros [= <-]|..]; intros (x & Hx & ->)%fmap_Some; eauto.
Qed.

(** Where [Unmarshal] fails the code wraps the error it returned. *)
Definition json_error : error := Plain "json".

(** Setting a field from its encoding. *)
Lemma field_enc {R X} (dec : json -> option X) (set : X -> R -> R) v x r :
  v <> JNull -> dec v = Some x -> field dec set v r = Some (set x r).
Proof. intros Hv Hd. unfold field. destruct v; try done; by rewrite Hd. Qed.
Lemma slice_field_enc {R X} nil (dec : json -> option X) (set : X -> R -> R) v x r :
  v <> JNull -> dec v = Some x -> slice_field nil dec set v r = Some (set x r).
Proof. intros Hv Hd. unfold slice_field. destruct v; try done; by rewrite Hd. Qed.

Lemma slice_field_inv {R X} (P : R -> Prop) nil (dec : json -> option X) (set : X -> R -> R) :
  (forall r, P r -> P (set nil r)) ->
  (forall v x r, P r -> dec v = Some x -> P (set x r)) ->
  forall v a b, P a -> slice_field nil dec set v a = Some b -> P b.
Proof.
  intros Hn H v a b Ha. unfold slice_field.
  destruct v; [by intros [= <-]; auto|..]; intros (x & Hx & ->)%fmap_Some; eauto.
Qed.

Lemma enc_time_not_null t j : enc_time t = Some j -> j <> JNull.
Proof. unfold enc_time. by intros (l & _ & ->)%fmap_Some. Qed.

#[export] Hint Resolve enc_string_ok enc_int_ok enc_bool_ok enc_bytes_ok enc_strings_ok enc_time_ok
  : s3db.
#[export] Hint Resolve dec_enc_string dec_enc_num dec_enc_bytes dec_enc_strings dec_enc_time
  enc_time_not_null : s3db.

(** Discharge [json_ok] of an object built from [member]s. *)
Ltac solve_json_ok :=
  constructor;
  repeat first
    [ apply Forall_app_2
    | apply Forall_cons_2; [apply member_ok; [vm_compute; reflexivity|eauto with s3db]|]
    | apply Forall_nil_2 ].

(** Select the field of a member by its name. *)
Ltac select_field :=
  match goal with |- find_field ?l ?k = _ =>
    let i := eval vm_compute in (find_name (fst <$> l) k) in
    unfold find_field;
    replace (find_name (fst <$> l) k) with i by (vm_compute; reflexivity);
    reflexivity
  end.

(** Decode the members of an object one after the other. *)
Ltac dec_step :=
  erewrite dec_members_step; [|vm_compute; reflexivity|select_field]; cbn [snd];
  first [ erewrite field_enc by first [discriminate|eauto with s3db]
        | erewrite slice_field_enc by first [discriminate|eauto with s3db] ];
  cbn [mbind option_bind].
