(* ===== verification/Hash.v ===== *)
(** * The hash functions of the standard library the program uses

    SHA-256 (content addresses, payload digests and idempotency keys), MD5
    (the ETag of the in-memory blob store) and 32-bit FNV-1a (the shard of an
    LRU key), executable on byte strings. Nothing is assumed of them beyond
    their being functions with output in lower-case hexadecimal: a theorem
    that needs two contents to be told apart exhibits the collision
    otherwise. *)
From S2P Require Import Prelude GoBase Base64 Utf8 Json JsonLit.
Local Open Scope N_scope.

(** ** 32-bit words *)

Definition w32 (x : N) : N := x mod 4294967296.
Definition add32 (x y : N) : N := w32 (x + y).
Definition not32 (x : N) : N := N.lxor x 4294967295.
Definition shr (x n : N) : N := N.shiftr x n.
Definition rotr (x n : N) : N := N.lor (N.shiftr x n) (w32 (N.shiftl x (32 - n))).
Definition rotl (x n : N) : N := rotr x (32 - n).

Definition be_word (l : list N) : N := fold_left (fun a b => a * 256 + b) l 0.
Definition be_bytes (w : N) : list N :=
  [w / 16777216 mod 256; w / 65536 mod 256; w / 256 mod 256; w mod 256].
Definition le_bytes (w : N) : list N := reverse (be_bytes w).

(** groups of [n] elements *)
Fixpoint chunks_n {A} (fuel n : nat) (l : list A) : list (list A) :=
  match fuel, l with
  | S f, _ :: _ => take n l :: chunks_n f n (drop n l)
  | _, _ => []
  end.
Definition chunks {A} (n : nat) (l : list A) : list (list A) := chunks_n (length l) n l.

Definition zeros (n : N) : list N := replicate (N.to_nat n) 0.
(** the padding up to the 8-byte length field *)
Definition md_pad (l : list N) : list N :=
  let n := N.of_nat (length l) in 128 :: zeros ((119 - n mod 64) mod 64).

(** lower-case hexadecimal, two characters a byte ([hex.EncodeToString]) *)
Definition hex_codes (l : list N) : list N :=
  concat ((fun b => [hex_digit (b / 16); hex_digit (b mod 16)]) <$> l).
Definition hex_encode (s : string) : string := of_codes (hex_codes (codes s)).

(** ** SHA-256 *)

Definition sha_k : list N := [
   1116352408; 1899447441; 3049323471; 3921009573; 961987163; 1508970993;
   2453635748; 2870763221; 3624381080; 310598401; 607225278; 1426881987;
   1925078388; 2162078206; 2614888103; 3248222580; 3835390401; 4022224774;
   264347078; 604807628; 770255983; 1249150122; 1555081692; 1996064986;
   2554220882; 2821834349; 2952996808; 3210313671; 3336571891; 3584528711;
   113926993; 338241895; 666307205; 773529912; 1294757372; 1396182291;
   1695183700; 1986661051; 2177026350; 2456956037; 2730485921; 2820302411;
   3259730800; 3345764771; 3516065817; 3600352804; 4094571909; 275423344;
   430227734; 506948616; 659060556; 883997877; 958139571; 1322822218;
   1537002063; 1747873779; 1955562222; 2024104815; 2227730452; 2361852424;
   2428436474; 2756734187; 3204031479; 3329325298].
Definition sha_h0 : list N := [
   1779033703; 3144134277; 1013904242; 2773480762; 1359893119; 2600822924;
   528734635; 1541459225].

Definition s0 (x : N) : N := N.lxor (N.lxor (rotr x 7) (rotr x 18)) (shr x 3).
Definition s1 (x : N) : N := N.lxor (N.lxor (rotr x 17) (rotr x 19)) (shr x 10).
Definition S0 (x : N) : N := N.lxor (N.lxor (rotr x 2) (rotr x 13)) (rotr x 22).
Definition S1 (x : N) : N := N.lxor (N.lxor (rotr x 6) (rotr x 11)) (rotr x 25).
Definition ch (x y z : N) : N := N.lxor (N.land x y) (N.land (not32 x) z).
Definition maj (x y z : N) : N := N.lxor (N.lxor (N.land x y) (N.land x z)) (N.land y z).

(** the message schedule, most recent word first *)
Fixpoint schedule (n : nat) (w : list N) : list N :=
  match n with
  | O => w
  | S n' =>
      let g i := nth i w 0 in
      schedule n' (add32 (add32 (s1 (g 1%nat)) (g 6%nat)) (add32 (s0 (g 14%nat)) (g 15%nat)) :: w)
  end.

Definition sha_round (st : list N) (kw : N * N) : list N :=
  match st with
  | [a; b; c; d; e; f; g; h] =>
      let t1 := add32 (add32 h (S1 e)) (add32 (ch e f g) (add32 (fst kw) (snd kw))) in
      let t2 := add32 (S0 a) (maj a b c) in
      [add32 t1 t2; a; b; c; add32 d t1; e; f; g]
  | _ => st
  end.

Definition sha_block (h : list N) (block : list N) : list N :=
  let w := reverse (schedule 48 (reverse (be_word <$> chunks 4 block))) in
  zip_with add32 h (fold_left sha_round (zip sha_k w) h).

Definition sha256_codes (l : list N) : list N :=
  let bits := N.of_nat (length l) * 8 in
  let msg := l ++ md_pad l ++ be_bytes (bits / 4294967296) ++ be_bytes (w32 bits) in
  concat (be_bytes <$> fold_left sha_block (chunks 64 msg) sha_h0).

(** [hex.EncodeToString(sha256.Sum256(data))] *)
Definition sha256_hex (data : string) : string := of_codes (hex_codes (sha256_codes (codes data))).

(** ** MD5 *)

Definition md5_t : list N := [
   3614090360; 3905402710; 606105819; 3250441966; 4118548399; 1200080426;
   2821735955; 4249261313; 1770035416; 2336552879; 4294925233; 2304563134;
   1804603682; 4254626195; 2792965006; 1236535329; 4129170786; 3225465664;
   643717713; 3921069994; 3593408605; 38016083; 3634488961; 3889429448;
   568446438; 3275163606; 4107603335; 1163531501; 2850285829; 4243563512;
   1735328473; 2368359562; 4294588738; 2272392833; 1839030562; 4259657740;
   2763975236; 1272893353; 4139469664; 3200236656; 681279174; 3936430074;
   3572445317; 76029189; 3654602809; 3873151461; 530742520; 3299628645;
   4096336452; 1126891415; 2878612391; 4237533241; 1700485571; 2399980690;
   4293915773; 2240044497; 1873313359; 4264355552; 2734768916; 1309151649;
   4149444226; 3174756917; 718787259; 3951481745].
Definition md5_s : list N := [
   7; 12; 17; 22; 7; 12; 17; 22; 7; 12; 17; 22; 7; 12; 17; 22;
   5; 9; 14; 20; 5; 9; 14; 20; 5; 9; 14; 20; 5; 9; 14; 20;
   4; 11; 16; 23; 4; 11; 16; 23; 4; 11; 16; 23; 4; 11; 16; 23;
   6; 10; 15; 21; 6; 10; 15; 21; 6; 10; 15; 21; 6; 10; 15; 21].
Definition md5_h0 : list N := [1732584193; 4023233417; 2562383102; 271733878].

Definition md5_step (m : list N) (st : list N) (i : nat) : list N :=
  match st with
  | [a; b; c; d] =>
      let '(f, g) :=
        if (i <? 16)%nat then (N.lor (N.land b c) (N.land (not32 b) d), i)
        else if (i <? 32)%nat then (N.lor (N.land d b) (N.land (not32 d) c), (5 * i + 1)%nat)
        else if (i <? 48)%nat then (N.lxor (N.lxor b c) d, (3 * i + 5)%nat)
        else (N.lxor c (N.lor b (not32 d)), (7 * i)%nat) in
      let f := add32 (add32 f a) (add32 (nth i md5_t 0) (nth (g mod 16)%nat m 0)) in
      [d; add32 b (rotl f (nth i md5_s 0)); b; c]
  | _ => st
  end.
Definition md5_block (h : list N) (block : list N) : list N :=
  let m := (fun c => be_word (reverse c)) <$> chunks 4 block in
  zip_with add32 h (fold_left (md5_step m) (seq 0 64) h).
Definition md5_codes (l : list N) : list N :=
  let bits := N.of_nat (length l) * 8 in
  let msg := l ++ md_pad l ++ le_bytes (w32 bits) ++ le_bytes (bits / 4294967296) in
  concat (le_bytes <$> fold_left md5_block (chunks 64 msg) md5_h0).
(** [hex.EncodeToString(md5.Sum(data))] *)
Definition md5_hex (data : string) : string := of_codes (hex_codes (md5_codes (codes data))).

(** ** FNV-1a *)

Definition fnv32a (data : string) : N :=
  fold_left (fun h b => w32 (N.lxor h b * 16777619)) (codes data) 2166136261.

Example sha256_abc :
  sha256_hex "abc" = "ba7816bf8f01cfea414140de5dae2223b00361a396177a9cb410ff61f20015ad"%stdpp.
Proof. vm_compute. reflexivity. Qed.
Example md5_abc : md5_hex "abc" = "900150983cd24fb0d6963f7d28e17f72"%stdpp.
Proof. vm_compute. reflexivity. Qed.
Example fnv32a_a : fnv32a "a" = 3826002220.
Proof. vm_compute. reflexivity. Qed.

(** ** Hexadecimal output *)

Definition is_hex_char (c : N) : Prop := 48 <= c < 58 \/ 97 <= c < 103.

Lemma hex_digit_char v : v < 16 -> is_hex_char (hex_digit v).
Proof. intros. unfold hex_digit, is_hex_char. n_cases. Qed.

Lemma hex_codes_chars l : Forall byte l -> Forall is_hex_char (hex_codes l).
Proof.
  unfold hex_codes, byte. induction 1 as [|b l Hb Hl IH]; simpl; [constructor|].
  repeat (apply Forall_cons_2; [apply hex_digit_char; divlia|]). done.
Qed.

Lemma length_hex_codes l : length (hex_codes l) = (2 * length l)%nat.
Proof.
  induction l as [|b l IH]; [done|]. change (hex_codes (b :: l)) with ([hex_digit (b / 16); hex_digit (b mod 16)] ++ hex_codes l).
  rewrite length_app, IH. simpl. lia.
Qed.

Lemma hex_codes_bytes l : Forall byte l -> Forall byte (hex_codes l).
Proof.
  intros Hl. eapply Forall_impl; [by apply hex_codes_chars|].
  unfold is_hex_char, byte. simpl. lia.
Qed.

Lemma length_hex_encode s : String.length (hex_encode s) = (2 * String.length s)%nat.
Proof.
  unfold hex_encode. rewrite <- length_codes, codes_of_codes by (apply hex_codes_bytes, codes_bytes).
  by rewrite length_hex_codes, length_codes.
Qed.

(** ** ASCII

    What JSON stores unchanged: digests, random identifiers, base64. *)

Definition ascii (s : string) : Prop := Forall (fun c => c < 128) (codes s).

Lemma ascii_app s t : ascii s -> ascii t -> ascii (s +:+ t).
Proof. unfold ascii. rewrite codes_app. apply Forall_app_2. Qed.

Lemma ascii_sanitize s : ascii s -> sanitize s = s.
Proof. apply sanitize_ascii. Qed.

Lemma ascii_valid s : ascii s -> valid_utf8 s = true.
Proof. intros H. by apply valid_utf8_spec, ascii_sanitize. Qed.

Lemma hex_ascii l : Forall byte l -> ascii (of_codes (hex_codes l)).
Proof.
  intros Hl. unfold ascii. rewrite codes_of_codes by by apply hex_codes_bytes.
  eapply Forall_impl; [by apply hex_codes_chars|]. unfold is_hex_char. simpl. lia.
Qed.

Lemma hex_encode_ascii s : ascii (hex_encode s).
Proof. apply hex_ascii, codes_bytes. Qed.

Lemma sha256_codes_bytes l : Forall byte (sha256_codes l).
Proof.
  unfold sha256_codes. generalize (fold_left sha_block (chunks 64 (l ++ md_pad l ++
    be_bytes (N.of_nat (length l) * 8 / 4294967296) ++ be_bytes (w32 (N.of_nat (length l) * 8)))) sha_h0).
  intros ws. induction ws as [|w ws IH]; [constructor|]. cbn [fmap list_fmap concat].
  apply Forall_app_2; [|done]. unfold be_bytes, byte.
  repeat (apply Forall_cons_2; [apply N.mod_lt; lia|]). constructor.
Qed.

Lemma sha256_hex_ascii s : ascii (sha256_hex s).
Proof. apply hex_ascii, sha256_codes_bytes. Qed.

Lemma base64_ascii s : ascii (EncodeToString RawURLEncoding s).
Proof.
  unfold ascii, EncodeToString.
  pose proof (encode_codes_chars RawURLEncoding (codes s) raw_url_alphabet (codes_bytes s)) as Hc.
  rewrite codes_of_codes by (eapply Forall_impl; [exact Hc|]; unfold byte, plain_char; simpl; lia).
  eapply Forall_impl; [exact Hc|]. unfold plain_char. simpl. lia.
Qed.

Lemma ascii_check s : forallb (fun c => c <? 128) (codes s) = true -> ascii s.
Proof.
  unfold ascii. rewrite List.forallb_forall, Forall_forall. intros H c Hc%list_elem_of_In.
  by apply N.ltb_lt, H.
Qed.

#[export] Hint Resolve ascii_app hex_encode_ascii sha256_hex_ascii base64_ascii ascii_sanitize ascii_valid : s3db.
#[export] Hint Extern 1 (ascii _) => (apply ascii_check; reflexivity) : s3db.

#[global] Opaque sha256_hex md5_hex.
