(* ===== verification/Storage.v ===== *)
(** * The storage interfaces (storage/storage.go)

    [Entry], [ScanOptions], the operations of [KV], [Tx] and [BlobStore] as
    the constructors of two free monads, and the contract those operations
    obey. A collection operation is a [prog]; a transaction callback is a
    [tx]. Programs are run by [run] on any engine that implements the classes
    [KV] and [BlobStore], and reasoned about, for every engine that meets the
    contract and under arbitrary interleaving, with [safe]. *)
From Stdlib Require Import Ascii.
From S2P Require Import Prelude GoBase.

(** ** Data *)

(** the sentinels of package storage *)
Definition ErrNotFound : error := Sentinel "storage: not found".
Definition ErrConflict : error := Sentinel "storage: conflict".
Definition ErrClosed : error := Sentinel "storage: closed".
Definition ErrFenced : error := Sentinel "storage: writer fenced".
Definition ErrSlateDBUnavailable : error := Sentinel "storage: slatedb unavailable".
Definition ErrSizeMismatch : error := Sentinel "storage: size mismatch".

Record Entry := MkEntry { en_key : string; en_value : string }.

Record ScanOptions := MkScanOptions {
  so_prefix : string;
  so_start_after : string;
  so_limit : Z;
  so_reverse : bool;
}.
(** [ScanOptions{Prefix: p}] *)
Definition prefix_scan (p : string) : ScanOptions := MkScanOptions p EmptyString 0 false.

Record BlobInfo := MkBlobInfo { bi_key : string; bi_size : Z; bi_etag : string }.

(** A finite [io.Reader]: the results of its successive [Read] calls and how
    it ends, [None] for a clean [io.EOF]. *)
Record reader := MkReader { rd_chunks : list string; rd_err : option error }.
Definition rd_data (r : reader) : string := foldr String.append EmptyString (rd_chunks r).
(** [bytes.NewReader(p)] read in one call *)
Definition bytes_reader (p : string) : reader := MkReader [p] None.

Notation kvmap := (gmap string string).

(** [m.data[key]] as [Get] reports it *)
Definition kv_lookup (m : kvmap) (k : string) : result string :=
  match m !! k with Some v => Ok v | None => Err ErrNotFound end.

(** ** Scanning (memory.go, scanEntries)

    The order in which Go visits a map does not matter: the keys are sorted
    before anything else happens to them. *)

Definition scan_keep (o : ScanOptions) (k : string) : Prop :=
  (so_prefix o <> EmptyString -> has_prefix (so_prefix o) k = true) /\
  (so_start_after o <> EmptyString ->
     if so_reverse o then str_lt k (so_start_after o) else str_lt (so_start_after o) k).

#[export] Instance scan_keep_dec o k : Decision (scan_keep o k).
Proof. unfold scan_keep. destruct (so_reverse o); apply _. Defined.

Definition scan_limit {A} (o : ScanOptions) (l : list A) : list A :=
  if decide (0 < so_limit o /\ so_limit o < Z.of_nat (length l))%Z
  then take (Z.to_nat (so_limit o)) l else l.

Definition scan_keys (m : kvmap) (o : ScanOptions) : list string :=
  let keys := merge_sort String.le (filter (scan_keep o) (fst <$> map_to_list m)) in
  scan_limit o (if so_reverse o then reverse keys else keys).

Definition scanEntries (m : kvmap) (o : ScanOptions) : list Entry :=
  (fun k => MkEntry k (default EmptyString (m !! k))) <$> scan_keys m o.

(** ** Effects *)

(** The operations available inside a transaction callback, with the clock
    and the random source the callbacks read. *)
Inductive tx (A : Type) : Type :=
| TxRet (a : A)
| TxGet (k : string) (c : result string -> tx A)
| TxPut (k v : string) (c : result unit -> tx A)
| TxDelete (k : string) (c : result unit -> tx A)
| TxScan (o : ScanOptions) (c : result (list Entry) -> tx A)
| TxNow (c : time -> tx A)
| TxRand (n : nat) (c : string -> tx A).
Arguments TxRet {A} a.
Arguments TxGet {A} k c.
Arguments TxPut {A} k v c.
Arguments TxDelete {A} k c.
Arguments TxScan {A} o c.
Arguments TxNow {A} c.
Arguments TxRand {A} n c.

Fixpoint tx_bind {A B} (t : tx A) (f : A -> tx B) : tx B :=
  match t with
  | TxRet a => f a
  | TxGet k c => TxGet k (fun r => tx_bind (c r) f)
  | TxPut k v c => TxPut k v (fun r => tx_bind (c r) f)
  | TxDelete k c => TxDelete k (fun r => tx_bind (c r) f)
  | TxScan o c => TxScan o (fun r => tx_bind (c r) f)
  | TxNow c => TxNow (fun t => tx_bind (c t) f)
  | TxRand n c => TxRand n (fun s => tx_bind (c s) f)
  end.

(** A callback [func(tx) error] that assigns to captured variables [V] of the
    enclosing function: the assignments survive an error and a retry. *)
Definition fn (V A : Type) : Type := V -> tx (V * result A).

#[export] Instance fn_ret V : MRet (fn V) := fun A a v => TxRet (v, Ok a).
#[export] Instance fn_bind V : MBind (fn V) := fun A B f m v =>
  tx_bind (m v) (fun '(v', r) =>
    match r with Ok a => f a v' | Err e => TxRet (v', Err e) end).

Section fn_ops.
Context {V : Type}.
(** [return err] *)
Definition raise {A} (e : error) : fn V A := fun v => TxRet (v, Err e).
(** [if err != nil { return err }] *)
Definition try {A} (r : result A) : fn V A := fun v => TxRet (v, r).
Definition assign (v : V) : fn V unit := fun _ => TxRet (v, Ok tt).
Definition captured : fn V V := fun v => TxRet (v, Ok v).
(** the transaction's operations, results and errors as values *)
Definition tGet (k : string) : fn V (result string) :=
  fun v => TxGet k (fun r => TxRet (v, Ok r)).
Definition tPut (k x : string) : fn V unit := fun v => TxPut k x (fun r => TxRet (v, r)).
Definition tDelete (k : string) : fn V unit := fun v => TxDelete k (fun r => TxRet (v, r)).
Definition tScan (o : ScanOptions) : fn V (list Entry) :=
  fun v => TxScan o (fun r => TxRet (v, r)).
Definition tNow : fn V time := fun v => TxNow (fun t => TxRet (v, Ok t)).
Definition tRand (n : nat) : fn V string := fun v => TxRand n (fun s => TxRet (v, Ok s)).
End fn_ops.

(** A collection operation. [BlobPut] hands back the bytes it took from the
    reader, which is what an [io.TeeReader] in front of it has seen.
    [BlobOpenRange k None] is [Open]; the stream it returns may end early. *)
Inductive prog (A : Type) : Type :=
| Ret (a : A)
| KvGet (k : string) (c : result string -> prog A)
| KvPut (k v : string) (c : result unit -> prog A)
| KvDelete (k : string) (c : result unit -> prog A)
| KvScan (o : ScanOptions) (c : result (list Entry) -> prog A)
| KvTransaction (V : Type) (v : V) (f : fn V unit) (c : V -> result unit -> prog A)
| BlobPut (k : string) (r : reader) (size : Z) (c : string -> result unit -> prog A)
| BlobOpenRange (k : string) (range : option (Z * Z)) (c : result reader -> prog A)
| BlobStat (k : string) (c : result BlobInfo -> prog A)
| BlobDelete (k : string) (c : result unit -> prog A)
| CtxErr (c : option error -> prog A)
| Now (c : time -> prog A)
| Rand (n : nat) (c : string -> prog A).
Arguments Ret {A} a.
Arguments KvGet {A} k c.
Arguments KvPut {A} k v c.
Arguments KvDelete {A} k c.
Arguments KvScan {A} o c.
Arguments KvTransaction {A V} v f c.
Arguments BlobPut {A} k r size c.
Arguments BlobOpenRange {A} k range c.
Arguments BlobStat {A} k c.
Arguments BlobDelete {A} k c.
Arguments CtxErr {A} c.
Arguments Now {A} c.
Arguments Rand {A} n c.

Fixpoint prog_bind {A B} (p : prog A) (f : A -> prog B) : prog B :=
  match p with
  | Ret a => f a
  | KvGet k c => KvGet k (fun r => prog_bind (c r) f)
  | KvPut k v c => KvPut k v (fun r => prog_bind (c r) f)
  | KvDelete k c => KvDelete k (fun r => prog_bind (c r) f)
  | KvScan o c => KvScan o (fun r => prog_bind (c r) f)
  | KvTransaction v g c => KvTransaction v g (fun v' r => prog_bind (c v' r) f)
  | BlobPut k rd size c => BlobPut k rd size (fun b r => prog_bind (c b r) f)
  | BlobOpenRange k rg c => BlobOpenRange k rg (fun r => prog_bind (c r) f)
  | BlobStat k c => BlobStat k (fun r => prog_bind (c r) f)
  | BlobDelete k c => BlobDelete k (fun r => prog_bind (c r) f)
  | CtxErr c => CtxErr (fun e => prog_bind (c e) f)
  | Now c => Now (fun t => prog_bind (c t) f)
  | Rand n c => Rand n (fun s => prog_bind (c s) f)
  end.

#[export] Instance prog_ret : MRet prog := @Ret.
#[export] Instance prog_mbind : MBind prog := fun A B f p => prog_bind p f.

(** The retry loop every collection wraps around [KV.Transaction]
    (cas [transact]; lru, queue and tree [transaction]): at most [attempts]
    times, as long as the engine reports a conflict; [exhausted] is what the
    loop returns when every attempt conflicted. *)
Fixpoint retry_loop {V} (attempts : nat) (exhausted : error) (v : V) (f : fn V unit) :
    prog (V * result unit) :=
  match attempts with
  | O => Ret (v, Err exhausted)
  | S n =>
      CtxErr (fun oe => match oe with
        | Some e => Ret (v, Err e)
        | None => KvTransaction v f (fun v' r => match r with
            | Ok _ => Ret (v', Ok tt)
            | Err e => if errors_is e ErrConflict then retry_loop n exhausted v' f
                       else Ret (v', Err e)
            end)
        end)
  end.
Definition maxAttempts : nat := 16.

(** The background goroutine of a collection: [body] at every tick of its
    ticker, until its context is done. The list is what its [select] finds on
    waking up, as far as it has run. *)
Inductive wakeup := Ticked | CtxDone.
Fixpoint ticker_loop {A} (body : prog A) (ws : list wakeup) : prog unit :=
  match ws with
  | [] | CtxDone :: _ => Ret tt
  | Ticked :: ws' => prog_bind body (fun _ => ticker_loop body ws')
  end.

(** ** The environment of a run: clock, random source, cancellation *)

Record env := MkEnv {
  clock : nat -> time;  ticks : nat;
  entropy : nat -> string;  draws : nat;
  ctx_done : nat -> option ctx_cause;  polls : nat;
}.
Definition read_clock (e : env) : time * env :=
  (clock e (ticks e), MkEnv (clock e) (S (ticks e)) (entropy e) (draws e) (ctx_done e) (polls e)).
(** exactly [n] bytes of a random string, zero bytes past its end *)
Fixpoint take_pad (n : nat) (s : string) : string :=
  match n, s with
  | O, _ => EmptyString
  | S n', String a s' => String a (take_pad n' s')
  | S n', EmptyString => String Ascii.zero (take_pad n' EmptyString)
  end.
Definition read_random (n : nat) (e : env) : string * env :=
  (take_pad n (entropy e (draws e)),
   MkEnv (clock e) (ticks e) (entropy e) (S (draws e)) (ctx_done e) (polls e)).
(** [ctx.Err()] *)
Definition poll_ctx (e : env) : option error * env :=
  (ctx_error <$> ctx_done e (polls e), MkEnv (clock e) (ticks e) (entropy e) (draws e) (ctx_done e) (S (polls e))).
(** A context that is never cancelled. *)
Definition ctx_alive (e : env) : Prop := forall n, ctx_done e n = None.

(** ** Implementations *)

(** the [Tx] interface *)
Class Tx (T : Type) := {
  tx_get : T -> string -> result string;
  tx_put : T -> string -> string -> T * result unit;
  tx_delete : T -> string -> T * result unit;
  tx_scan : T -> ScanOptions -> result (list Entry);
}.

(** Running a callback against a transaction. *)
Fixpoint run_tx `{Tx T} {A} (t : tx A) (s : T) (e : env) : A * T * env :=
  match t with
  | TxRet a => (a, s, e)
  | TxGet k c => run_tx (c (tx_get s k)) s e
  | TxPut k v c => let '(s', r) := tx_put s k v in run_tx (c r) s' e
  | TxDelete k c => let '(s', r) := tx_delete s k in run_tx (c r) s' e
  | TxScan o c => run_tx (c (tx_scan s o)) s e
  | TxNow c => let '(t, e') := read_clock e in run_tx (c t) s e'
  | TxRand n c => let '(b, e') := read_random n e in run_tx (c b) s e'
  end.

(** The specification of a transaction: a private map that is read and
    written in place. *)
#[export] Instance map_tx : Tx kvmap := {
  tx_get := kv_lookup;
  tx_put m k v := (<[k := v]> m, Ok tt);
  tx_delete m k := (delete k m, Ok tt);
  tx_scan m o := Ok (scanEntries m o);
}.

(** the [KV] interface *)
Class KV (K : Type) := {
  KV_Get : K -> env -> string -> result string * env;
  KV_Put : K -> env -> string -> string -> result unit * K * env;
  KV_Delete : K -> env -> string -> result unit * K * env;
  KV_Scan : K -> env -> ScanOptions -> result (list Entry) * env;
  KV_Transaction : forall {V}, K -> env -> V -> fn V unit -> V * result unit * K * env;
  KV_Close : K -> K * result unit;
}.

(** the [BlobStore] interface; [Blob_Put] also returns the bytes it read *)
Class BlobStore (B : Type) := {
  Blob_Put : B -> env -> string -> reader -> Z -> string * result unit * B * env;
  Blob_OpenRange : B -> env -> string -> option (Z * Z) -> result reader * env;
  Blob_Stat : B -> env -> string -> result BlobInfo * env;
  Blob_Delete : B -> env -> string -> result unit * B * env;
  Blob_Close : B -> B * result unit;
}.

(** Running a program alone on an engine. *)
Fixpoint run `{KV K, BlobStore B} {A} (p : prog A) (k : K) (b : B) (e : env) : A * K * B * env :=
  match p with
  | Ret a => (a, k, b, e)
  | KvGet key c => let '(r, e) := KV_Get k e key in run (c r) k b e
  | KvPut key v c => let '(r, k, e) := KV_Put k e key v in run (c r) k b e
  | KvDelete key c => let '(r, k, e) := KV_Delete k e key in run (c r) k b e
  | KvScan o c => let '(r, e) := KV_Scan k e o in run (c r) k b e
  | KvTransaction v f c => let '(v', r, k, e) := KV_Transaction k e v f in run (c v' r) k b e
  | BlobPut key rd size c => let '(d, r, b, e) := Blob_Put b e key rd size in run (c d r) k b e
  | BlobOpenRange key rg c => let '(r, e) := Blob_OpenRange b e key rg in run (c r) k b e
  | BlobStat key c => let '(r, e) := Blob_Stat b e key in run (c r) k b e
  | BlobDelete key c => let '(r, b, e) := Blob_Delete b e key in run (c r) k b e
  | CtxErr c => let '(o, e) := poll_ctx e in run (c o) k b e
  | Now c => let '(t, e) := read_clock e in run (c t) k b e
  | Rand n c => let '(s, e) := read_random n e in run (c s) k b e
  end.

(** ** The contract

    What every engine may answer. Operations may fail for reasons of their
    own, but a failure is never disguised as [ErrNotFound] and changes
    nothing; a callback whose transaction does not commit may have run on an
    outdated snapshot. *)

Definition engine_error (e : error) : Prop := errors_is e ErrNotFound = false.

Inductive get_resp (m : kvmap) (k : string) : result string -> Prop :=
| get_resp_ok : get_resp m k (kv_lookup m k)
| get_resp_fail e : engine_error e -> get_resp m k (Err e).

Inductive tx_runs {A} : tx A -> kvmap -> A -> kvmap -> Prop :=
| runs_ret a m : tx_runs (TxRet a) m a m
| runs_get k c m r a m' : get_resp m k r -> tx_runs (c r) m a m' -> tx_runs (TxGet k c) m a m'
| runs_put k v c m a m' : tx_runs (c (Ok tt)) (<[k := v]> m) a m' -> tx_runs (TxPut k v c) m a m'
| runs_put_fail k v c m e a m' : tx_runs (c (Err e)) m a m' -> tx_runs (TxPut k v c) m a m'
| runs_delete k c m a m' : tx_runs (c (Ok tt)) (delete k m) a m' -> tx_runs (TxDelete k c) m a m'
| runs_delete_fail k c m e a m' : tx_runs (c (Err e)) m a m' -> tx_runs (TxDelete k c) m a m'
| runs_scan o c m a m' : tx_runs (c (Ok (scanEntries m o))) m a m' -> tx_runs (TxScan o c) m a m'
| runs_scan_fail o c m e a m' : tx_runs (c (Err e)) m a m' -> tx_runs (TxScan o c) m a m'
| runs_now c m t a m' : tx_runs (c t) m a m' -> tx_runs (TxNow c) m a m'
| runs_rand n c m s a m' :
    String.length s = n -> tx_runs (c s) m a m' -> tx_runs (TxRand n c) m a m'.

Inductive tx_resp {V} (m : kvmap) (v : V) (f : fn V unit) : V -> result unit -> kvmap -> Prop :=
| resp_commit v' m' : tx_runs (f v) m (v', Ok tt) m' -> tx_resp m v f v' (Ok tt) m'
| resp_abort v' e m' : tx_runs (f v) m (v', Err e) m' -> tx_resp m v f v' (Err e) m
| resp_stale m0 v' r e m' : tx_runs (f v) m0 (v', r) m' -> tx_resp m v f v' (Err e) m
| resp_fail e : tx_resp m v f v (Err e) m.

Lemma length_take_pad n s : String.length (take_pad n s) = n.
Proof. revert s. induction n as [|n IH]; intros [|a s]; simpl; auto. Qed.

Class KVContract (K : Type) `{KV K} := {
  contents : K -> kvmap;
  Get_ok k e key : get_resp (contents k) key (fst (KV_Get k e key));
  Put_ok k e key v r k' e' : KV_Put k e key v = (r, k', e') ->
    (r = Ok tt /\ contents k' = <[key := v]> (contents k))
    \/ ((exists er, r = Err er) /\ contents k' = contents k);
  Delete_ok k e key r k' e' : KV_Delete k e key = (r, k', e') ->
    (r = Ok tt /\ contents k' = delete key (contents k))
    \/ ((exists er, r = Err er) /\ contents k' = contents k);
  Scan_ok k e o :
    fst (KV_Scan k e o) = Ok (scanEntries (contents k) o)
    \/ exists er, fst (KV_Scan k e o) = Err er;
  Transaction_ok {V} k e (v : V) f v' r k' e' : KV_Transaction k e v f = (v', r, k', e') ->
    tx_resp (contents k) v f v' r (contents k');
}.

(** The object that a key names. A store may take a key and the same key
    without its leading slash for one object (S3BlobStore does). *)
Definition object_name (key name : string) : Prop := name = key \/ name = trim_slash key.

Lemma object_name_self key : object_name key key.
Proof. by left. Qed.

Lemma object_name_plain key name : trim_slash key = key -> object_name key name -> name = key.
Proof. intros E [->| ->]; [done|exact E]. Qed.

(** A failed [Put] or [Delete] leaves the object of that key in an unknown
    state; a failed or truncated stream says so at its end. *)
Class BlobContract (B : Type) `{BlobStore B} := {
  bodies : B -> kvmap;
  Blob_Put_ok b e key rd size d r b' e' : Blob_Put b e key rd size = (d, r, b', e') ->
    exists name, object_name key name /\
    ((r = Ok tt /\ d = rd_data rd /\ rd_err rd = None
       /\ (0 <= size -> Z.of_nat (String.length d) = size)%Z
       /\ bodies b' = <[name := d]> (bodies b))
     \/ ((exists er, r = Err er) /\ delete name (bodies b') = delete name (bodies b)));
  Blob_OpenRange_ok b e key rg rd e' :
    (forall lo hi, rg = Some (lo, hi) -> in_i64 hi) ->
    Blob_OpenRange b e key rg = (Ok rd, e') -> rd_err rd = None ->
    exists name, object_name key name /\
    match rg with
    | None => bodies b !! name = Some (rd_data rd)
    | Some (lo, hi) =>
        (lo = hi /\ rd_data rd = EmptyString) \/
        exists d, bodies b !! name = Some d /\
          rd_data rd = str_take (Z.to_nat (hi - lo)) (str_drop (Z.to_nat lo) d)
    end;
  Blob_Stat_ok b e key bi e' : Blob_Stat b e key = (Ok bi, e') ->
    exists name d, object_name key name /\
      bodies b !! name = Some d /\ bi_size bi = Z.of_nat (String.length d);
  Blob_Delete_ok b e key r b' e' : Blob_Delete b e key = (r, b', e') ->
    exists name, object_name key name /\
    ((r = Ok tt /\ bodies b' = delete name (bodies b))
     \/ ((exists er, r = Err er) /\ delete name (bodies b') = delete name (bodies b)));
}.
