(* ===== verification/Logic.v ===== *)
(** * Reasoning about programs over the storage contract

    [tx_wp] is the weakest precondition of a transaction callback. [safe I G
    h p Q] says that program [p], whose accesses to the store so far are [h],
    run while others change the store within the invariant [I], only makes
    changes allowed by [G], keeps [I], and ends with a result and a history of
    accesses that satisfy [Q]. The soundness theorems connect it to arbitrary
    interleavings ([runs_in], [pool_steps]) and to [run] on an engine that
    meets the contract. *)
From S2P Require Import Prelude GoBase Storage.

(** ** Transactions *)

Fixpoint tx_wp {A} (t : tx A) (m : kvmap) (Q : A -> kvmap -> Prop) : Prop :=
  match t with
  | TxRet a => Q a m
  | TxGet k c =>
      tx_wp (c (kv_lookup m k)) m Q /\ (forall e, engine_error e -> tx_wp (c (Err e)) m Q)
  | TxPut k v c =>
      tx_wp (c (Ok tt)) (<[k := v]> m) Q /\ (forall e, tx_wp (c (Err e)) m Q)
  | TxDelete k c =>
      tx_wp (c (Ok tt)) (delete k m) Q /\ (forall e, tx_wp (c (Err e)) m Q)
  | TxScan o c =>
      tx_wp (c (Ok (scanEntries m o))) m Q /\ (forall e, tx_wp (c (Err e)) m Q)
  | TxNow c => forall t, tx_wp (c t) m Q
  | TxRand n c => forall s, String.length s = n -> tx_wp (c s) m Q
  end.

Lemma tx_wp_sound {A} (t : tx A) m Q a m' : tx_wp t m Q -> tx_runs t m a m' -> Q a m'.
Proof.
  intros Hwp Hr. revert Hwp. induction Hr; simpl; intros Hwp; auto.
  - match goal with H : get_resp _ _ _ |- _ => destruct H end; naive_solver.
  - naive_solver.
  - naive_solver.
  - naive_solver.
  - naive_solver.
  - naive_solver.
  - naive_solver.
Qed.

Lemma tx_wp_mono {A} (t : tx A) m (Q Q' : A -> kvmap -> Prop) :
  tx_wp t m Q -> (forall a m', Q a m' -> Q' a m') -> tx_wp t m Q'.
Proof. intros H HQ. revert m H. induction t; simpl; intros m Hwp; naive_solver. Qed.

Lemma tx_wp_bind {A B} (t : tx A) (f : A -> tx B) m Q :
  tx_wp t m (fun a m' => tx_wp (f a) m' Q) -> tx_wp (tx_bind t f) m Q.
Proof. revert m. induction t; simpl; intros m Hwp; naive_solver. Qed.

(** ** Stores and steps *)

Record store := MkStore { st_kv : kvmap; st_blobs : kvmap }.

Inductive step {A} : prog A -> store -> prog A -> store -> Prop :=
| step_get k c s r : get_resp (st_kv s) k r -> step (KvGet k c) s (c r) s
| step_put k v c m b :
    step (KvPut k v c) (MkStore m b) (c (Ok tt)) (MkStore (<[k := v]> m) b)
| step_put_fail k v c s e : step (KvPut k v c) s (c (Err e)) s
| step_delete k c m b :
    step (KvDelete k c) (MkStore m b) (c (Ok tt)) (MkStore (delete k m) b)
| step_delete_fail k c s e : step (KvDelete k c) s (c (Err e)) s
| step_scan o c s : step (KvScan o c) s (c (Ok (scanEntries (st_kv s) o))) s
| step_scan_fail o c s e : step (KvScan o c) s (c (Err e)) s
| step_tx V (v : V) f c m b v' r m' :
    tx_resp m v f v' r m' -> step (KvTransaction v f c) (MkStore m b) (c v' r) (MkStore m' b)
| step_blob_put k name rd size c m b :
    object_name k name -> rd_err rd = None -> (0 <= size -> Z.of_nat (String.length (rd_data rd)) = size)%Z ->
    step (BlobPut k rd size c) (MkStore m b) (c (rd_data rd) (Ok tt))
      (MkStore m (<[name := rd_data rd]> b))
| step_blob_put_fail k name rd size c m b d e b' :
    object_name k name -> delete name b' = delete name b ->
    step (BlobPut k rd size c) (MkStore m b) (c d (Err e)) (MkStore m b')
| step_blob_open k rg c s r : step (BlobOpenRange k rg c) s (c r) s
| step_blob_stat k name c s r :
    object_name k name ->
    (forall bi, r = Ok bi ->
       exists d, st_blobs s !! name = Some d /\ bi_size bi = Z.of_nat (String.length d)) ->
    step (BlobStat k c) s (c r) s
| step_blob_delete k name c m b :
    object_name k name ->
    step (BlobDelete k c) (MkStore m b) (c (Ok tt)) (MkStore m (delete name b))
| step_blob_delete_fail k name c m b e b' :
    object_name k name -> delete name b' = delete name b ->
    step (BlobDelete k c) (MkStore m b) (c (Err e)) (MkStore m b')
| step_ctx c s o : step (CtxErr c) s (c o) s
| step_now c s t : step (Now c) s (c t) s
| step_rand n c s x : String.length x = n -> step (Rand n c) s (c x) s.

Inductive steps {A} : prog A -> store -> prog A -> store -> Prop :=
| steps_refl p s : steps p s p s
| steps_l p s p' s' p'' s'' : step p s p' s' -> steps p' s' p'' s'' -> steps p s p'' s''.

(** [run] on an engine that meets the contract takes contract steps. *)
Section run_steps.
Context `{KVContract K, BlobContract B}.

Definition view (k : K) (b : B) : store := MkStore (contents k) (bodies b).

Lemma run_steps {A} (p : prog A) k b e a k' b' e' :
  run p k b e = (a, k', b', e') -> steps p (view k b) (Ret a) (view k' b').
Proof.
  revert k b e. induction p; simpl; intros k0 b0 e0 Hrun.
  - simplify_eq. constructor.
  - destruct (KV_Get k0 e0 k) as [r e1] eqn:E. eapply steps_l; [|by eapply H3].
    constructor. pose proof (Get_ok k0 e0 k) as Hg. by rewrite E in Hg.
  - destruct (KV_Put k0 e0 k v) as [[r k1] e1] eqn:E. eapply steps_l; [|by eapply H3].
    unfold view. destruct (Put_ok _ _ _ _ _ _ _ E) as [[-> ->]|[[er ->] ->]]; constructor.
  - destruct (KV_Delete k0 e0 k) as [[r k1] e1] eqn:E. eapply steps_l; [|by eapply H3].
    unfold view. destruct (Delete_ok _ _ _ _ _ _ E) as [[-> ->]|[[er ->] ->]]; constructor.
  - destruct (KV_Scan k0 e0 o) as [r e1] eqn:E. eapply steps_l; [|by eapply H3].
    pose proof (Scan_ok k0 e0 o) as Hs. rewrite E in Hs. simpl in Hs.
    destruct Hs as [->|[er ->]]; constructor.
  - destruct (KV_Transaction k0 e0 v f) as [[[v' r] k1] e1] eqn:E.
    eapply steps_l; [|by eapply H3]. constructor. by eapply Transaction_ok.
  - destruct (Blob_Put b0 e0 k r size) as [[[d r'] b1] e1] eqn:E.
    eapply steps_l; [|by eapply H3]. unfold view.
    destruct (Blob_Put_ok _ _ _ _ _ _ _ _ _ E) as (name & Hn & [(-> & -> & Hr & Hsz & ->)|[[er ->] Hd]]).
    + by constructor.
    + by apply (step_blob_put_fail _ name).
  - destruct (Blob_OpenRange b0 e0 k range) as [r e1] eqn:E.
    eapply steps_l; [|by eapply H3]. constructor.
  - destruct (Blob_Stat b0 e0 k) as [r e1] eqn:E.
    eapply steps_l; [|by eapply H3]. destruct r as [bi|er].
    + destruct (Blob_Stat_ok _ _ _ _ _ E) as (name & d & Hn & Hd). apply (step_blob_stat _ name); [done|].
      intros bi' [= ->]. eauto.
    + by apply (step_blob_stat _ k); [apply object_name_self|].
  - destruct (Blob_Delete b0 e0 k) as [[r b1] e1] eqn:E.
    eapply steps_l; [|by eapply H3]. unfold view.
    destruct (Blob_Delete_ok _ _ _ _ _ _ E) as (name & Hn & [[-> ->]|[[er ->] Hd]]).
    + by constructor.
    + by apply (step_blob_delete_fail _ name).
  - eapply steps_l; [constructor|by eapply H3].
  - eapply steps_l; [constructor|by eapply H3].
  - eapply steps_l; [constructor; apply length_take_pad|by eapply H3].
Qed.
End run_steps.

(** ** Safety under interference *)

(** One access to the store: the store before and after it. *)
Definition access : Type := store * store.
Definition noop (a : access) : Prop := fst a = snd a.

Section safe.
Context (I : store -> Prop) (G : store -> store -> Prop).

Definition allowed (s s' : store) : Prop := I s' /\ (s' = s \/ G s s').

Fixpoint safe {A} (h : list access) (p : prog A) (Q : A -> list access -> Prop) : Prop :=
  let to s s' p := allowed s s' /\ safe (h ++ [(s, s')]) p Q in
  match p with
  | Ret a => Q a h
  | KvGet k c => forall s r, I s -> get_resp (st_kv s) k r -> safe (h ++ [(s, s)]) (c r) Q
  | KvPut k v c => forall m b, let s := MkStore m b in I s ->
      to s (MkStore (<[k := v]> m) b) (c (Ok tt)) /\
      forall e, safe (h ++ [(s, s)]) (c (Err e)) Q
  | KvDelete k c => forall m b, let s := MkStore m b in I s ->
      to s (MkStore (delete k m) b) (c (Ok tt)) /\
      forall e, safe (h ++ [(s, s)]) (c (Err e)) Q
  | KvScan o c => forall s, I s ->
      safe (h ++ [(s, s)]) (c (Ok (scanEntries (st_kv s) o))) Q /\
      forall e, safe (h ++ [(s, s)]) (c (Err e)) Q
  | @KvTransaction _ V v f c => forall m b, let s := MkStore m b in I s ->
      tx_wp (f v) m (fun '(v', r) m' =>
        match r with
        | Ok _ => to s (MkStore m' b) (c v' (Ok tt))
        | Err e => safe (h ++ [(s, s)]) (c v' (Err e)) Q
        end) /\
      (forall m0, tx_wp (f v) m0 (fun '(v', _) _ =>
        forall e, safe (h ++ [(s, s)]) (c v' (Err e)) Q)) /\
      (forall e, safe (h ++ [(s, s)]) (c v (Err e)) Q)
  | BlobPut k rd size c => forall name m b, object_name k name -> let s := MkStore m b in I s ->
      (rd_err rd = None -> (0 <= size -> Z.of_nat (String.length (rd_data rd)) = size)%Z ->
         to s (MkStore m (<[name := rd_data rd]> b)) (c (rd_data rd) (Ok tt))) /\
      (forall d e b', delete name b' = delete name b -> to s (MkStore m b') (c d (Err e)))
  | BlobOpenRange k rg c => forall s r, I s -> safe (h ++ [(s, s)]) (c r) Q
  | BlobStat k c => forall name s r, object_name k name -> I s ->
      (forall bi, r = Ok bi ->
         exists d, st_blobs s !! name = Some d /\ bi_size bi = Z.of_nat (String.length d)) ->
      safe (h ++ [(s, s)]) (c r) Q
  | BlobDelete k c => forall name m b, object_name k name -> let s := MkStore m b in I s ->
      to s (MkStore m (delete name b)) (c (Ok tt)) /\
      (forall e b', delete name b' = delete name b -> to s (MkStore m b') (c (Err e)))
  | CtxErr c => forall s o, I s -> safe (h ++ [(s, s)]) (c o) Q
  | Now c => forall s t, I s -> safe (h ++ [(s, s)]) (c t) Q
  | Rand n c => forall s x, I s -> String.length x = n -> safe (h ++ [(s, s)]) (c x) Q
  end.
End safe.

(** Transport: a program keeps its promises when the invariant gets stronger,
    provided its own changes still are allowed, when the history before it is
    another one, and when less is asked of its end. [R] relates the two
    histories. *)
Section transport.
Context (I I' : store -> Prop) (G G' : store -> store -> Prop).
Context (R : list access -> list access -> Prop).
Context (Hinv : forall s, I' s -> I s).
Context (Hall : forall s s', I' s -> allowed I G s s' -> allowed I' G' s s').
Context (Hsnoc : forall h h' s s', I s -> allowed I G s s' -> R h h' -> R (h ++ [(s, s')]) (h' ++ [(s, s')])).

Lemma safe_transport {A} h h' (p : prog A) (Q Q' : A -> list access -> Prop) :
  (forall a h h', R h h' -> Q a h -> Q' a h') ->
  R h h' -> safe I G h p Q -> safe I' G' h' p Q'.
Proof.
  intros HQ. assert (Hstay : forall s, I s -> allowed I G s s) by (intros s Hs; split; auto).
  revert h h'. induction p; cbn [safe]; intros h h' Hh Hp; [by eauto|..];
    try (by intros; edestruct Hp as [[? ?] ?]; [eauto|]; split_and!; eauto 8);
    try (by intros; edestruct Hp as [? ?]; [eauto|]; split_and!; eauto 8);
    try (by intros; eauto 8).
  - intros m b Hm. destruct (Hp m b (Hinv _ Hm)) as (Hc & Hs & Hf). split_and!; [| |intros e; eapply H; eauto 8].
    + eapply tx_wp_mono; [exact Hc|].
      intros [v' [?|e]] m'; simpl; [intros [? ?]; split; [auto|]|intros ?]; eapply H; eauto 8.
    + intros m0. eapply tx_wp_mono; [by apply Hs|]. intros [v' r] m' Hq e. eapply H; eauto 8.
  - intros name m b Hn Hm. destruct (Hp name m b Hn (Hinv _ Hm)) as [Hs Hf]. split.
    + intros H1 H2. destruct (Hs H1 H2). eauto 8.
    + intros d e b' Hd. destruct (Hf d e b' Hd). eauto 8.
  - intros name m b Hn Hm. destruct (Hp name m b Hn (Hinv _ Hm)) as [[Ha Hs] Hf]. split_and!; eauto 8.
    intros e b' Hd. destruct (Hf e b' Hd). eauto 8.
Qed.
End transport.

(** Consequence. *)
Lemma safe_mono {A} I G h (p : prog A) (Q Q' : A -> list access -> Prop) :
  safe I G h p Q -> (forall a h', Q a h' -> Q' a h') -> safe I G h p Q'.
Proof. intros Hp HQ. apply (safe_transport I I G G eq) with (h := h) (Q := Q); naive_solver. Qed.

(** A stronger invariant. *)
Lemma safe_frame {A} (I I' : store -> Prop) (G G' : store -> store -> Prop) h (p : prog A) Q :
  (forall s, I' s -> I s) -> (forall s s', I' s -> allowed I G s s' -> allowed I' G' s s') ->
  safe I G h p Q -> safe I' G' h p Q.
Proof. intros H1 H2 Hp. apply (safe_transport I I' G G' eq) with (h := h) (Q := Q); naive_solver. Qed.

(** Every access of a history is one that is allowed. *)
Lemma safe_recorded {A} I G h (p : prog A) Q :
  Forall (fun a => I (fst a) /\ allowed I G (fst a) (snd a)) h -> safe I G h p Q ->
  safe I G h p (fun a h' => Q a h' /\ Forall (fun a => I (fst a) /\ allowed I G (fst a) (snd a)) h').
Proof.
  intros Hh Hp. apply (safe_transport I I G G
    (fun h h' => h' = h /\ Forall (fun a => I (fst a) /\ allowed I G (fst a) (snd a)) h)) with (h := h) (Q := Q); try done.
  - intros h1 h2 s s' Hs Ha [-> H1]. split; [done|]. apply Forall_app_2; [done|]. by apply Forall_singleton.
  - by intros a h1 h2 [-> H1] HQ.
Qed.

(** A program that starts later behaves alike. *)
Lemma safe_later {A} I G h0 h h2 (p : prog A) (Q : A -> list access -> Prop) :
  h2 = h0 ++ h -> safe I G h p Q ->
  safe I G h2 p (fun a h' => exists h1, h' = h0 ++ h1 /\ Q a h1).
Proof.
  apply (safe_transport I I G G (fun h h2 => h2 = h0 ++ h)); [done|done| |by eauto].
  intros h' h'' s s' _ _ ->. symmetry. apply app_assoc.
Qed.

Lemma safe_bind {A B} I G h (p : prog A) (f : A -> prog B) Q :
  safe I G h p (fun a h' => safe I G h' (f a) Q) -> safe I G h (p ≫= f) Q.
Proof.
  unfold mbind, prog_mbind. revert h. induction p; cbn [safe prog_bind]; intros h Hp; [by auto|..];
    try (by intros; edestruct Hp as [[? ?] ?]; [eassumption|]; split_and!; eauto);
    try (by intros; edestruct Hp as [? ?]; [eassumption|]; split_and!; eauto);
    try (by intros; eauto).
  - intros m b Hm. destruct (Hp m b Hm) as (Hc & Hs & Hf). split_and!; [| |intros e; apply H, Hf].
    + eapply tx_wp_mono; [exact Hc|]. intros [v' [?|e]] m'; simpl; [intros [? ?]; split; [done|]|]; by apply H.
    + intros m0. eapply tx_wp_mono; [by apply Hs|]. intros [v' r] m' Hq e. apply H, Hq.
  - intros name m b Hn Hm. destruct (Hp name m b Hn Hm) as [Hs Hf]. split.
    + intros H1 H2. destruct (Hs H1 H2). eauto.
    + intros d e b' Hd. destruct (Hf d e b' Hd). eauto.
  - intros name m b Hn Hm. destruct (Hp name m b Hn Hm) as [[Ha Hs] Hf]. split_and!; eauto.
    intros e b' Hd. destruct (Hf e b' Hd). eauto.
Qed.

(** Two programs in sequence, when the first one's history does not matter. *)
Lemma safe_seq {A B} I G h (p : prog A) (f : A -> prog B) Q Q' :
  safe I G [] p Q -> (forall a, safe I G [] (f a) Q') ->
  safe I G h (p ≫= f) (fun _ _ => True).
Proof.
  intros Hp Hf. apply safe_bind.
  eapply safe_mono; [eapply (safe_later _ _ h []); [by rewrite app_nil_r|done]|]. intros a h' _.
  eapply safe_mono; [eapply (safe_later _ _ h' []); [by rewrite app_nil_r|done]|]. done.
Qed.

Lemma safe_ticker {A} I G h (body : prog A) ws Q :
  safe I G [] body Q -> safe I G h (ticker_loop body ws) (fun _ _ => True).
Proof.
  intros Hb. revert h. induction ws as [|[|] ws IH]; intros h; cbn [ticker_loop]; [done| |done].
  apply (safe_bind I G h body (fun _ => ticker_loop body ws)).
  eapply safe_mono; [eapply (safe_later _ _ h []); [by rewrite app_nil_r|exact Hb]|]. intros a h' _. apply IH.
Qed.

(** The accesses of [h'] beyond [h] left the store as it was. *)
Definition quiet (h : list access) : Prop := Forall noop h.
Lemma quiet_snoc h s : quiet h -> quiet (h ++ [(s, s)]).
Proof. intros. apply Forall_app_2; [done|]. by repeat constructor. Qed.
Lemma quiet_nil : quiet [].
Proof. constructor. Qed.
#[export] Hint Resolve quiet_snoc quiet_nil : s3db.

(** What a single attempt of a transaction does: the callback runs on [m],
    and [P] holds of the captured variables at its end. *)
Definition attempt {V A} (f : fn V A) (v : V) (m : kvmap) (Q : V -> result A -> kvmap -> Prop) : Prop :=
  tx_wp (f v) m (fun '(v', r) m' => Q v' r m').

Section attempt_rules.
Context {V : Type}.

Lemma attempt_mono {A} (f : fn V A) v m (Q Q' : V -> result A -> kvmap -> Prop) :
  attempt f v m Q -> (forall v' r m', Q v' r m' -> Q' v' r m') -> attempt f v m Q'.
Proof. intros H HQ. eapply tx_wp_mono; [exact H|]. intros [v' r] m'. apply HQ. Qed.

Lemma attempt_bind {A B} (f : fn V A) (g : A -> fn V B) v m Q :
  attempt f v m (fun v' r m' =>
    match r with Ok a => attempt (g a) v' m' Q | Err e => Q v' (Err e) m' end) ->
  attempt (f ≫= g) v m Q.
Proof.
  intros H. unfold attempt, mbind, fn_bind. apply tx_wp_bind.
  eapply tx_wp_mono; [exact H|]. intros [v' [a|e]] m'; simpl; auto.
Qed.

Lemma attempt_true {A} (f : fn V A) v m (Q : V -> result A -> kvmap -> Prop) :
  (forall v' r m', Q v' r m') -> attempt f v m Q.
Proof.
  intros HQ. unfold attempt. generalize (f v). intros t. revert m.
  induction t as [[v' r]| | | | | |]; simpl; intros m; auto.
Qed.

Lemma attempt_and {A} (f : fn V A) v m (Q1 Q2 : V -> result A -> kvmap -> Prop) :
  attempt f v m Q1 -> attempt f v m Q2 -> attempt f v m (fun v' r m' => Q1 v' r m' /\ Q2 v' r m').
Proof.
  unfold attempt. generalize (f v). intros t. revert m.
  induction t as [[v' r]| | | | | |]; simpl; intros m; naive_solver.
Qed.

Lemma attempt_tGet k (v : V) m (Q : V -> result (result string) -> kvmap -> Prop) :
  Q v (Ok (kv_lookup m k)) m -> (forall e, engine_error e -> Q v (Ok (Err e)) m) ->
  attempt (tGet k) v m Q.
Proof. unfold attempt. simpl. auto. Qed.

Lemma attempt_tPut k x (v : V) m (Q : V -> result unit -> kvmap -> Prop) :
  Q v (Ok tt) (<[k := x]> m) -> (forall e, Q v (Err e) m) -> attempt (tPut k x) v m Q.
Proof. unfold attempt. simpl. auto. Qed.

Lemma attempt_tDelete k (v : V) m (Q : V -> result unit -> kvmap -> Prop) :
  Q v (Ok tt) (delete k m) -> (forall e, Q v (Err e) m) -> attempt (tDelete k) v m Q.
Proof. unfold attempt. simpl. auto. Qed.

Lemma attempt_tScan o (v : V) m (Q : V -> result (list Entry) -> kvmap -> Prop) :
  Q v (Ok (scanEntries m o)) m -> (forall e, Q v (Err e) m) -> attempt (tScan o) v m Q.
Proof. unfold attempt. simpl. auto. Qed.

Lemma attempt_tNow (v : V) m (Q : V -> result time -> kvmap -> Prop) :
  (forall t, Q v (Ok t) m) -> attempt tNow v m Q.
Proof. unfold attempt. simpl. auto. Qed.

Lemma attempt_tRand n (v : V) m (Q : V -> result string -> kvmap -> Prop) :
  (forall s, String.length s = n -> Q v (Ok s) m) -> attempt (tRand n) v m Q.
Proof. unfold attempt. simpl. auto. Qed.
End attempt_rules.

(** The retry loop: it suffices to look at one attempt. [P] is what the
    captured variables satisfy at the start of every attempt; the accesses
    before the committed one leave the store as it was. *)
Lemma safe_retry {V} I G n exh h0 (v : V) (f : fn V unit) (P : V -> Prop)
    (Q : V * result unit -> list access -> Prop) :
  P v ->
  (forall v m b, P v -> I (MkStore m b) ->
     attempt f v m (fun v' r m' => P v' /\
       match r with
       | Ok _ => allowed I G (MkStore m b) (MkStore m' b) /\
           forall h, quiet h -> Q (v', Ok tt) (h0 ++ h ++ [(MkStore m b, MkStore m' b)])
       | Err _ => True
       end)) ->
  (forall v m, P v -> attempt f v m (fun v' _ _ => P v')) ->
  (forall v e h, P v -> quiet h -> Q (v, Err e) (h0 ++ h)) ->
  safe I G h0 (retry_loop n exh v f) Q.
Proof.
  intros Hv Hok Hstale Herr.
  cut (forall h, quiet h -> safe I G (h0 ++ h) (retry_loop n exh v f) Q).
  { intros H. specialize (H [] quiet_nil). by rewrite app_nil_r in H. }
  revert v Hv. induction n as [|n IH]; intros v Hv h Hh; simpl; [by auto|].
  intros s0 o _. rewrite <- app_assoc. apply (quiet_snoc _ s0) in Hh.
  generalize dependent (h ++ [(s0, s0)]). clear h. intros h Hh.
  destruct o as [e|]; [by apply Herr|].
  assert (Hnext : forall v' e h, quiet h -> P v' -> safe I G (h0 ++ h)
    (if errors_is e ErrConflict then retry_loop n exh v' f else Ret (v', Err e)) Q).
  { intros v' e h' Hh' Hv'. destruct (errors_is e ErrConflict); [by apply IH|]. simpl. by apply Herr. }
  simpl. intros m b Hm. rewrite <- !app_assoc. split_and!.
  - eapply tx_wp_mono; [by apply Hok|].
    intros [v' [?|e]] m' [HP Hr]; simpl; [|by apply Hnext; auto with s3db].
    destruct Hr as [Ha HQ]. split; [done|]. rewrite <- app_assoc. by apply HQ.
  - intros m0. eapply tx_wp_mono; [by apply Hstale|]. intros [v' r] m' HP e.
    apply Hnext; auto with s3db.
  - intros e. apply Hnext; auto with s3db.
Qed.

(** ** Soundness *)

Section soundness.
Context (I : store -> Prop) (G : store -> store -> Prop).

Lemma safe_step {A} h (p p' : prog A) s s' Q :
  I s -> safe I G h p Q -> step p s p' s' ->
  allowed I G s s' /\ safe I G (h ++ [(s, s')]) p' Q.
Proof.
  assert (Hrefl : forall s, I s -> allowed I G s s) by (intros; split; auto).
  intros Hi Hp Hs. destruct Hs; cbn [safe] in Hp;
    try (by edestruct Hp as [? ?]; [eassumption|]; split; eauto);
    try (by split; eauto);
    try (by edestruct Hp as [[? ?] ?]; [eassumption|]; split; eauto);
    try (destruct s; edestruct Hp as [[? ?] ?]; [eassumption|]; split; by eauto).
  - (* a transaction *)
    destruct (Hp m b Hi) as (Hc & Hst & Hf).
    match goal with H : tx_resp _ _ _ _ _ _ |- _ => destruct H as [v1 m1 Hr|v1 e m1 Hr|m0 v1 r e m1 Hr|e] end.
    + exact (tx_wp_sound _ _ _ _ _ Hc Hr).
    + split; [auto|]. exact (tx_wp_sound _ _ _ _ _ Hc Hr).
    + split; [auto|]. pose proof (tx_wp_sound _ _ _ _ _ (Hst m0) Hr) as Hq. simpl in Hq. auto.
    + auto.
  - destruct (Hp name m b H Hi) as [Hq _]. auto.
  - destruct (Hp name m b H Hi) as [_ Hq]. auto.
  - destruct (Hp name m b H Hi) as [Hq _]. auto.
  - destruct (Hp name m b H Hi) as [_ Hq]. auto.
Qed.

(** [trace s s']: the store went from [s] to [s'] by allowed changes. *)
Definition trace : relation store := rtc (fun s s' => G s s' /\ I s').

Lemma allowed_trace s s' s'' : allowed I G s s' -> trace s' s'' -> trace s s''.
Proof. intros [Hi [->|Hg]] Ht; [done|]. eapply rtc_l; [|done]. by split. Qed.

(** [p], with [h] behind it, runs to [p'] while others move the store around
    within [I] in between its accesses. *)
Inductive runs_in {A} : list access -> prog A -> store -> list access -> prog A -> store -> Prop :=
| in_refl h p s : runs_in h p s h p s
| in_own h p s p' s' h'' p'' s'' :
    step p s p' s' -> runs_in (h ++ [(s, s')]) p' s' h'' p'' s'' -> runs_in h p s h'' p'' s''
| in_others h p s s' h'' p'' s'' :
    I s' -> runs_in h p s' h'' p'' s'' -> runs_in h p s h'' p'' s''.

Lemma safe_runs_in {A} h (p p' : prog A) s s' h' Q :
  I s -> safe I G h p Q -> runs_in h p s h' p' s' ->
  I s' /\ safe I G h' p' Q.
Proof.
  intros Hi Hp Hr. induction Hr as [h p s|h p s p' s' h'' p'' s'' H1 Hr IH|h p s s' h'' p'' s'' Hi' Hr IH].
  - done.
  - destruct (safe_step _ _ _ _ _ _ Hi Hp H1) as [[? ?] ?]. auto.
  - auto.
Qed.

(** the result of a program, under interference *)
Lemma safe_result {A} (p : prog A) s s' a h (Q : A -> list access -> Prop) :
  safe I G [] p Q -> I s -> runs_in [] p s h (Ret a) s' -> Q a h.
Proof. intros Hp Hi Hr. by destruct (safe_runs_in _ _ _ _ _ _ _ Hi Hp Hr). Qed.

Lemma safe_steps {A} h (p p' : prog A) s s' Q :
  I s -> safe I G h p Q -> steps p s p' s' ->
  I s' /\ trace s s' /\ exists h', safe I G h' p' Q.
Proof.
  intros Hi Hp Hs. revert h Hp. induction Hs as [p s|p s p' s' p'' s'' H1 Hs IH]; intros h Hp.
  - split_and!; [done|apply rtc_refl|eauto].
  - destruct (safe_step _ _ _ _ _ _ Hi Hp H1) as (Ha & Hp').
    destruct (IH (proj1 Ha) _ Hp') as (Hi'' & Ht & Hp''). split_and!; [done| |done].
    by eapply allowed_trace.
Qed.

(** One program, alone, on an engine that meets the contract. *)
Lemma safe_run `{KVContract K, BlobContract B} {A} (p : prog A) Q k b e a k' b' e' :
  safe I G [] p Q -> I (view k b) -> run p k b e = (a, k', b', e') ->
  (exists h, Q a h) /\ I (view k' b') /\ trace (view k b) (view k' b').
Proof.
  intros Hp Hi Hrun. apply run_steps in Hrun.
  destruct (safe_steps _ _ _ _ _ _ Hi Hp Hrun) as (? & ? & ?). auto.
Qed.

(** Several programs interleaved at the granularity of storage operations;
    new ones may start at any time. *)
Inductive pool_step : list (prog unit) -> store -> list (prog unit) -> store -> Prop :=
| pool_step_intro ps i p p' s s' :
    ps !! i = Some p -> step p s p' s' -> pool_step ps s (<[i := p']> ps) s'
| pool_spawn ps p s : safe I G [] p (fun _ _ => True) -> pool_step ps s (ps ++ [p]) s.

Inductive pool_steps : list (prog unit) -> store -> list (prog unit) -> store -> Prop :=
| pool_refl ps s : pool_steps ps s ps s
| pool_l ps s ps' s' ps'' s'' :
    pool_step ps s ps' s' -> pool_steps ps' s' ps'' s'' -> pool_steps ps s ps'' s''.

Lemma safe_pool ps s ps' s' :
  I s -> Forall (fun p => exists h, safe I G h p (fun _ _ => True)) ps -> pool_steps ps s ps' s' ->
  I s' /\ trace s s'.
Proof.
  intros Hi Hps Hs. induction Hs as [ps s|ps s ps' s' ps'' s'' H1 Hs IH].
  { split; [done|apply rtc_refl]. }
  destruct H1 as [ps i p p' s s' Hp Hst|ps p s Hp].
  - rewrite Forall_lookup in Hps. destruct (Hps i p Hp) as [h Hpi].
    destruct (safe_step _ _ _ _ _ _ Hi Hpi Hst) as (Ha & Hp').
    destruct IH as [IHi IHt]; [apply Ha| |].
    { apply Forall_insert; [by apply Forall_lookup|eauto]. }
    split; [done|]. by eapply allowed_trace.
  - apply IH; [done|]. apply Forall_app_2; [done|]. repeat constructor. eauto.
Qed.
End soundness.

(** A client: a program whose result is discarded. *)
Definition client {A} (p : prog A) : prog unit := p ≫= fun _ => Ret tt.

Lemma safe_client {A} I G (p : prog A) Q :
  safe I G [] p Q -> safe I G [] (client p) (fun _ _ => True).
Proof. intros H. apply safe_bind. eapply safe_mono; [exact H|]. done. Qed.

(** A program alone is a program whose interference does nothing. *)
Lemma steps_runs_in {A} I h (p p' : prog A) s s' :
  steps p s p' s' -> exists h', runs_in I h p s h' p' s'.
Proof.
  intros Hs. revert h. induction Hs as [p s|p s p' s' p'' s'' H1 _ IH]; intros h.
  - exists h. constructor.
  - destruct (IH (h ++ [(s, s')])) as [h' Hh]. exists h'. by eapply in_own.
Qed.

(** accesses that left the key/value store as it was *)
Definition kv_quiet (h : list access) : Prop := Forall (fun a => st_kv (fst a) = st_kv (snd a)) h.

Lemma quiet_kv_quiet h : quiet h -> kv_quiet h.
Proof. intros H. eapply Forall_impl; [exact H|]. intros [s s'] E. unfold noop in E. simpl in *. by subst. Qed.
Lemma kv_quiet_app h1 h2 : kv_quiet h1 -> kv_quiet h2 -> kv_quiet (h1 ++ h2).
Proof. apply Forall_app_2. Qed.
Lemma kv_quiet_one s s' : st_kv s = st_kv s' -> kv_quiet [(s, s')].
Proof. intros H. by apply Forall_singleton. Qed.
#[export] Hint Resolve quiet_kv_quiet kv_quiet_app kv_quiet_one : s3db.
