(* ===== verification/Scan.v ===== *)
(** * Range scans (storage/memory.go scanEntries)

    What a scan returns: exactly the matching entries, in strictly ascending
    (or descending) key order, cut at the limit. Every engine's [Scan] is held
    to this by the contract of [Storage]. *)
From S2P Require Import Prelude GoBase Storage.

Definition scan_order (o : ScanOptions) : relation string :=
  if so_reverse o then flip str_lt else str_lt.

#[export] Instance scan_order_trans o : Transitive (scan_order o).
Proof. unfold scan_order. destruct (so_reverse o); apply _. Qed.
#[export] Instance scan_order_irrefl o : Irreflexive (scan_order o).
Proof. unfold scan_order. destruct (so_reverse o); apply _. Qed.

(** The keys before the limit is applied. *)
Definition unlimited (o : ScanOptions) : ScanOptions :=
  MkScanOptions (so_prefix o) (so_start_after o) 0 (so_reverse o).

Lemma scan_keys_limit m o : scan_keys m o = scan_limit o (scan_keys m (unlimited o)).
Proof. reflexivity. Qed.

Lemma sorted_strict (l : list string) :
  StronglySorted String.le l -> NoDup l -> StronglySorted str_lt l.
Proof.
  induction 1 as [|a l Hs IH Hf]; intros Hn; [constructor|].
  apply NoDup_cons in Hn as [Ha Hn]. constructor; [by apply IH|].
  rewrite Forall_forall in *. intros x Hx. apply str_lt_le. split; [by apply Hf|]. by intros ->.
Qed.

Lemma scan_keys_unlimited_sorted m o : StronglySorted (scan_order o) (scan_keys m (unlimited o)).
Proof.
  unfold scan_keys, scan_order, scan_limit. cbn [unlimited so_limit so_reverse].
  rewrite decide_False by lia.
  set (l := merge_sort _ _).
  assert (StronglySorted str_lt l) as Hs.
  { apply sorted_strict; [apply StronglySorted_merge_sort; apply _|].
    unfold l. rewrite merge_sort_Permutation.
    apply NoDup_filter, NoDup_fst_map_to_list. }
  destruct (so_reverse o); [|done]. by apply StronglySorted_reverse.
Qed.

Lemma scan_keys_unlimited_elem m o k :
  k ∈ scan_keys m (unlimited o) <-> is_Some (m !! k) /\ scan_keep o k.
Proof.
  unfold scan_keys, scan_limit. cbn [unlimited so_limit so_reverse].
  rewrite decide_False by lia.
  assert (forall l : list string, k ∈ (if so_reverse o then reverse l else l) <-> k ∈ l) as ->.
  { intros l. destruct (so_reverse o); [apply elem_of_reverse|done]. }
  rewrite merge_sort_Permutation, list_elem_of_filter, list_elem_of_fmap.
  split.
  - intros [Hk ([k' v] & -> & Hv)]. apply elem_of_map_to_list in Hv. simpl in *. eauto.
  - intros [[v Hv] Hk]. split; [done|]. exists (k, v). split; [done|]. by apply elem_of_map_to_list.
Qed.

Lemma scan_limit_prefix {A} o (l : list A) : exists r, l = scan_limit o l ++ r.
Proof.
  unfold scan_limit. case_decide; [|exists []; by rewrite app_nil_r].
  eexists. symmetry. apply take_drop.
Qed.

Lemma scan_keys_sorted m o : StronglySorted (scan_order o) (scan_keys m o).
Proof.
  rewrite scan_keys_limit. pose proof (scan_keys_unlimited_sorted m o) as Hs.
  destruct (scan_limit_prefix o (scan_keys m (unlimited o))) as [r Hr].
  rewrite Hr in Hs. by apply StronglySorted_app_1_l in Hs.
Qed.

Lemma scan_keys_elem_1 m o k : k ∈ scan_keys m o -> is_Some (m !! k) /\ scan_keep o k.
Proof.
  rewrite scan_keys_limit. intros Hk. apply scan_keys_unlimited_elem.
  destruct (scan_limit_prefix o (scan_keys m (unlimited o))) as [r ->]. set_solver.
Qed.

Lemma scanEntries_keys m o : en_key <$> scanEntries m o = scan_keys m o.
Proof.
  unfold scanEntries. rewrite <- list_fmap_compose. unfold compose. simpl. apply list_fmap_id.
Qed.

Lemma scanEntries_elem_1 m o e :
  e ∈ scanEntries m o -> m !! en_key e = Some (en_value e) /\ scan_keep o (en_key e).
Proof.
  unfold scanEntries. intros (k & -> & Hk)%list_elem_of_fmap. simpl.
  apply scan_keys_elem_1 in Hk as [[v Hv] Hk]. by rewrite Hv.
Qed.

(** The entries under a prefix. *)
Lemma scan_keep_prefix p k : scan_keep (prefix_scan p) k <-> has_prefix p k = true.
Proof.
  unfold scan_keep. simpl. split.
  - intros [H _]. destruct (decide (p = EmptyString)) as [->|]; auto.
  - intros H. split; [done|]. by intros [].
Qed.

Lemma prefix_scan_elem m p e :
  e ∈ scanEntries m (prefix_scan p) <->
  m !! en_key e = Some (en_value e) /\ has_prefix p (en_key e) = true.
Proof.
  split.
  - intros [? Hk]%scanEntries_elem_1. by apply scan_keep_prefix in Hk.
  - intros [Hm Hp]. unfold scanEntries. apply list_elem_of_fmap. exists (en_key e).
    rewrite Hm. split; [by destruct e|].
    change (prefix_scan p) with (unlimited (prefix_scan p)).
    apply scan_keys_unlimited_elem. split; [eauto|]. by apply scan_keep_prefix.
Qed.

Lemma scanEntries_NoDup m o : NoDup (en_key <$> scanEntries m o).
Proof.
  rewrite scanEntries_keys. pose proof (scan_keys_sorted m o) as Hs.
  induction Hs as [|k l Hs IH Hf]; constructor; [|done].
  intros Hk. rewrite Forall_forall in Hf. eapply irreflexivity; [apply scan_order_irrefl|by apply Hf].
Qed.

(** C35: A scan returns only stored entries that match the options, in strictly
    monotone key order; a scan without a limit returns all of them, and a
    limited one returns the first entries of the unlimited one. *)
Theorem scanEntries_correct (m : kvmap) (o : ScanOptions) :
  StronglySorted (scan_order o) (en_key <$> scanEntries m o) /\
  (forall e, e ∈ scanEntries m o -> m !! en_key e = Some (en_value e) /\ scan_keep o (en_key e)) /\
  (forall e, e ∈ scanEntries m (unlimited o) <->
     m !! en_key e = Some (en_value e) /\ scan_keep o (en_key e)) /\
  ((so_limit o <= 0)%Z -> scanEntries m o = scanEntries m (unlimited o)) /\
  ((0 < so_limit o)%Z ->
     scanEntries m o = take (Z.to_nat (so_limit o)) (scanEntries m (unlimited o))).
Proof.
  split_and!.
  - rewrite scanEntries_keys. apply scan_keys_sorted.
  - apply scanEntries_elem_1.
  - intros e. split; [intros He; apply scanEntries_elem_1 in He; exact He|]. intros [Hm Hk].
    unfold scanEntries. apply list_elem_of_fmap. exists (en_key e). rewrite Hm.
    split; [by destruct e|]. apply scan_keys_unlimited_elem. eauto.
  - intros Hl. unfold scanEntries. rewrite (scan_keys_limit m o). unfold scan_limit.
    by rewrite decide_False by lia.
  - intros Hl. unfold scanEntries. rewrite (scan_keys_limit m o). unfold scan_limit.
    case_decide; [by rewrite fmap_take|]. rewrite take_ge; [done|]. rewrite length_fmap. lia.
Qed.

(** ** Paging *)

(** [o] resumed after key [k] *)
Definition resume (o : ScanOptions) (k : string) : ScanOptions :=
  MkScanOptions (so_prefix o) k (so_limit o) (so_reverse o).

Lemma scan_keep_resume o k x :
  k <> EmptyString -> scan_keep o k ->
  scan_keep (resume o k) x <-> scan_keep o x /\ scan_order o k x.
Proof.
  unfold scan_keep, resume, scan_order. simpl. intros Hk [_ Hs].
  destruct (so_reverse o); simpl; split; intros H; destruct_and?; split_and!; auto;
    intros Hne; specialize (Hs Hne); [trans k; auto|trans k; auto].
Qed.

(** C36: Paging through a scan with [StartAfter] set to the last key seen loses
    nothing and repeats nothing, in both directions: the unlimited scan is the
    page followed by the scan resumed after the page's last key. *)
Theorem scan_paging_complete (m : kvmap) (o : ScanOptions) (page : list string) (last : string) :
  scan_keys m o = page ++ [last] -> last <> EmptyString ->
  scan_keys m (unlimited o) = (page ++ [last]) ++ scan_keys m (unlimited (resume o last)).
Proof.
  intros Hp Hl.
  pose proof (scan_keys_unlimited_sorted m o) as Hs.
  destruct (scan_limit_prefix o (scan_keys m (unlimited o))) as [r Hr].
  rewrite <- scan_keys_limit, Hp in Hr. rewrite Hr. f_equal.
  assert (Hlast : scan_keep o last) by (apply (scan_keys_elem_1 m); rewrite Hp; set_solver).
  rewrite Hr in Hs.
  apply (strict_sorted_ext (scan_order o)).
  - by apply StronglySorted_app_1_r in Hs.
  - apply (scan_keys_unlimited_sorted m (resume o last)).
  - intros x. rewrite scan_keys_unlimited_elem, scan_keep_resume by done.
    rewrite (assoc (∧)), <- scan_keys_unlimited_elem, Hr, !elem_of_app, list_elem_of_singleton.
    split.
    + intros Hx. split; [auto|]. eapply (StronglySorted_app_1_elem_of _ _ _ _ _ Hs); set_solver.
    + intros [[[Hx| ->]|Hx] Ho]; [|by apply irreflexivity in Ho; [|apply _]|done].
      exfalso. apply StronglySorted_app_1_l in Hs.
      assert (scan_order o x last) as Ho'
        by (eapply (StronglySorted_app_1_elem_of _ _ _ _ _ Hs); set_solver).
      eapply irreflexivity; [apply (scan_order_irrefl o)|]. by trans last.
Qed.

Lemma scan_paging_complete_witness :
  let m : kvmap := <["a" := "1"]> (<["c" := "3"]> (<["b" := "2"]> ∅)) in
  let o := MkScanOptions "" "" 2 false in
  scan_keys m o = ["a"] ++ ["b"] /\
  scan_keys m (unlimited o) = (["a"] ++ ["b"]) ++ scan_keys m (unlimited (resume o "b")).
Proof.
  cbv zeta. split; [vm_compute; reflexivity|].
  apply (scan_paging_complete (<["a" := "1"]> (<["c" := "3"]> (<["b" := "2"]> ∅)))
    (MkScanOptions "" "" 2 false) ["a"] "b"); [vm_compute; reflexivity|done].
Defined.
