(* ===== verification/Cells.v ===== *)
(** * Key spaces of JSON records

    Every collection keeps records of one type under keys built from an
    identifier: the records of a cas store, the jobs of a queue, the refs of a
    tree. [KeySpace] is what such a collection says about its keys and
    records; in return it gets the map from identifiers to records ([cell]),
    the invariant that every entry of the key space is a well-formed record
    under its own key ([well]), the effect of writes ([sets]), and the rules
    for reading a record inside a transaction. *)
From S2P Require Import Prelude GoBase Codec Storage Logic Scan.

Class KeySpace (S A : Type) `{GoJSON A} := {
  ks_prefix : S -> string;
  ks_key : S -> string -> string;
  (** the record [a], as it is read back, may be stored for [id] *)
  ks_wf : S -> string -> A -> Prop;
  ks_key_prefix s id : has_prefix (ks_prefix s) (ks_key s id) = true;
  ks_key_inj s a b : ks_key s a = ks_key s b -> a = b;
}.

Section cells.
Context {S A : Type} {HJ : GoJSON A} {HK : @KeySpace S A HJ}.

Definition cell (s : S) (m : kvmap) (id : string) : option A := m !! ks_key s id ≫= Unmarshal.

Definition well (s : S) (m : kvmap) : Prop :=
  forall k raw, m !! k = Some raw -> has_prefix (ks_prefix s) k = true ->
    exists id a, k = ks_key s id /\ Marshal a = Some raw /\ in_width a /\ ks_wf s id (stored a).

(** [m'] is [m] with the cell of [id] set to [c] *)
Definition sets (s : S) (id : string) (c : option A) (m m' : kvmap) : Prop :=
  well s m' /\ cell s m' id = c /\
  (forall id', id' <> id -> cell s m' id' = cell s m id') /\
  (forall k, has_prefix (ks_prefix s) k = false -> m' !! k = m !! k).

Lemma well_empty s : well s ∅.
Proof. intros k raw Hk. by rewrite lookup_empty in Hk. Qed.

(** an entry of the key space *)
Lemma well_entry s m id raw :
  well s m -> m !! ks_key s id = Some raw ->
  exists a, Marshal a = Some raw /\ in_width a /\ ks_wf s id (stored a) /\
    Unmarshal raw = Some (stored a) /\ cell s m id = Some (stored a).
Proof.
  intros Hw Hl. destruct (Hw _ _ Hl (ks_key_prefix s id)) as (id' & a & Hk & Hm & Ha & Hwf).
  apply ks_key_inj in Hk as <-. pose proof (Unmarshal_Marshal a raw Ha Hm) as Hu.
  exists a. unfold cell. rewrite Hl. by split_and!.
Qed.

Lemma cell_wf s m id a : well s m -> cell s m id = Some a -> ks_wf s id a.
Proof.
  intros Hw Hc. unfold cell in Hc. apply bind_Some in Hc as (raw & Hl & Hu).
  destruct (well_entry _ _ _ _ Hw Hl) as (a' & _ & _ & Hwf & Hu' & _). by simplify_eq.
Qed.

Lemma cell_none s m id : well s m -> cell s m id = None -> m !! ks_key s id = None.
Proof.
  intros Hw Hc. destruct (m !! ks_key s id) as [raw|] eqn:E; [|done].
  destruct (well_entry _ _ _ _ Hw E) as (a' & _ & _ & _ & _ & Hc'). congruence.
Qed.

Lemma sets_insert s m id a raw :
  well s m -> Marshal a = Some raw -> in_width a -> ks_wf s id (stored a) ->
  sets s id (Some (stored a)) m (<[ks_key s id := raw]> m).
Proof.
  intros Hw Hm Ha Hwf. split_and!.
  - intros k raw' Hl Hp. destruct (decide (k = ks_key s id)) as [->|Hne].
    + rewrite lookup_insert_eq in Hl. simplify_eq. eauto 10.
    + rewrite lookup_insert_ne in Hl by done. by apply Hw.
  - unfold cell. rewrite lookup_insert_eq. simpl. by apply Unmarshal_Marshal.
  - intros id' Hne. unfold cell. rewrite lookup_insert_ne; [done|]. by intros ?%ks_key_inj.
  - intros k Hp. rewrite lookup_insert_ne; [done|]. intros <-. by rewrite ks_key_prefix in Hp.
Qed.

Lemma sets_delete s m id : well s m -> sets s id None m (delete (ks_key s id) m).
Proof.
  intros Hw. split_and!.
  - intros k raw Hl Hp. apply lookup_delete_Some in Hl as [_ Hl]. by apply Hw.
  - unfold cell. by rewrite lookup_delete_eq.
  - intros id' Hne. unfold cell. rewrite lookup_delete_ne; [done|]. by intros ?%ks_key_inj.
  - intros k Hp. rewrite lookup_delete_ne; [done|]. intros <-. by rewrite ks_key_prefix in Hp.
Qed.

(** A key space that another's writes do not touch. *)
Lemma well_frame s m m' :
  (forall k, has_prefix (ks_prefix s) k = true -> m' !! k = m !! k) -> well s m ->
  well s m' /\ forall id, cell s m' id = cell s m id.
Proof.
  intros Hs Hw. split.
  - intros k raw Hl Hp. rewrite Hs in Hl by done. by apply Hw.
  - intros id. unfold cell. by rewrite Hs by apply ks_key_prefix.
Qed.

(** ** Inside a transaction *)

(** reading the record of [id] *)
Lemma attempt_get {V} s id (v : V) m (Q : V -> result (result string) -> kvmap -> Prop) :
  well s m ->
  (cell s m id = None -> Q v (Ok (Err ErrNotFound)) m) ->
  (forall raw a, cell s m id = Some a -> ks_wf s id a -> Unmarshal raw = Some a -> Q v (Ok (Ok raw)) m) ->
  (forall e, engine_error e -> Q v (Ok (Err e)) m) ->
  attempt (tGet (ks_key s id)) v m Q.
Proof.
  intros Hw Hnone Hsome He. apply attempt_tGet; [|done]. unfold kv_lookup.
  destruct (m !! ks_key s id) as [raw|] eqn:E.
  - destruct (well_entry _ _ _ _ Hw E) as (a & _ & _ & Hwf & Hu & Hc). by eapply Hsome.
  - apply Hnone. unfold cell. by rewrite E.
Qed.

(** writing and deleting it *)
Lemma attempt_put {V} s id a raw (v : V) m (Q : V -> result unit -> kvmap -> Prop) :
  well s m -> Marshal a = Some raw -> in_width a -> ks_wf s id (stored a) ->
  (forall e, Q v (Err e) m) ->
  (forall m', sets s id (Some (stored a)) m m' -> Q v (Ok tt) m') ->
  attempt (tPut (ks_key s id) raw) v m Q.
Proof. intros Hw Hm Ha Hwf He Hq. apply attempt_tPut; [|done]. apply Hq. by apply sets_insert. Qed.

Lemma attempt_del {V} s id (v : V) m (Q : V -> result unit -> kvmap -> Prop) :
  well s m -> (forall e, Q v (Err e) m) ->
  (forall m', sets s id None m m' -> Q v (Ok tt) m') ->
  attempt (tDelete (ks_key s id)) v m Q.
Proof. intros Hw He Hq. apply attempt_tDelete; [|done]. apply Hq. by apply sets_delete. Qed.

(** ** Scans of the key space *)

Definition entries (s : S) (m : kvmap) : list Entry := scanEntries m (prefix_scan (ks_prefix s)).

Lemma entry_cell s m e :
  well s m -> e ∈ entries s m ->
  exists id a, en_key e = ks_key s id /\ Unmarshal (en_value e) = Some a /\
    cell s m id = Some a /\ ks_wf s id a.
Proof.
  intros Hw [Hm Hp]%prefix_scan_elem.
  destruct (Hw _ _ Hm Hp) as (id & a & Hk & _ & _ & _). rewrite Hk in Hm.
  destruct (well_entry _ _ _ _ Hw Hm) as (a' & _ & _ & Hwf & Hu & Hc). eauto 10.
Qed.

Lemma cell_entry s m id a :
  cell s m id = Some a ->
  exists e, e ∈ entries s m /\ en_key e = ks_key s id /\ Unmarshal (en_value e) = Some a.
Proof.
  unfold cell. intros (raw & Hm & Hu)%bind_Some. exists (MkEntry (ks_key s id) raw).
  split_and!; [|done..]. apply prefix_scan_elem. split; [done|]. apply ks_key_prefix.
Qed.

Lemma entries_NoDup s m : NoDup (en_key <$> entries s m).
Proof. apply scanEntries_NoDup. Qed.
End cells.
