(* ===== verification/MemoryKV.v ===== *)
(** * storage.MemoryKV (storage/memory.go)

    The in-memory key/value store: its operations, its buffered transaction,
    and the proof that both meet the contract of [Storage]. *)
From S2P Require Import Prelude GoBase Storage.

Record MemoryKV := MkMemoryKV { data : kvmap; closed : bool }.

(** [NewMemoryKV] *)
Definition NewMemoryKV : MemoryKV := MkMemoryKV ∅ false.

(** [checkLocked]: a cancelled context comes before a closed store *)
Definition checkLocked (m_closed : bool) (e : env) : option error * env :=
  let '(o, e') := poll_ctx e in
  match o with
  | Some er => (Some er, e')
  | None => (if m_closed then Some ErrClosed else None, e')
  end.

(** ** memoryTx

    Writes are buffered in [pending], where [None] marks a deletion. *)
Record memoryTx := MkMemoryTx { snap : kvmap; pending : gmap string (option string) }.

Definition memoryTx_Get (t : memoryTx) (key : string) : result string :=
  match pending t !! key with
  | Some None => Err ErrNotFound
  | Some (Some v) => Ok v
  | None => kv_lookup (snap t) key
  end.
Definition memoryTx_Put (t : memoryTx) (key value : string) : memoryTx * result unit :=
  (MkMemoryTx (snap t) (<[key := Some value]> (pending t)), Ok tt).
Definition memoryTx_Delete (t : memoryTx) (key : string) : memoryTx * result unit :=
  (MkMemoryTx (snap t) (<[key := None]> (pending t)), Ok tt).

(** Applying the pending writes to a map, in any order: the loop at the end
    of [Transaction] and the one that builds the view of [Scan]. *)
Definition apply_write (k : string) (v : option string) (m : kvmap) : kvmap :=
  match v with None => delete k m | Some x => <[k := x]> m end.
Definition apply_pending (pend : gmap string (option string)) (m : kvmap) : kvmap :=
  map_fold apply_write m pend.

Definition memoryTx_Scan (t : memoryTx) (o : ScanOptions) : result (list Entry) :=
  Ok (scanEntries (apply_pending (pending t) (snap t)) o).

#[export] Instance memory_tx : Tx memoryTx := {
  tx_get := memoryTx_Get;
  tx_put := memoryTx_Put;
  tx_delete := memoryTx_Delete;
  tx_scan := memoryTx_Scan;
}.

(** ** Operations *)

Definition Get (m : MemoryKV) (e : env) (key : string) : result string * env :=
  let '(o, e) := checkLocked (closed m) e in
  match o with
  | Some er => (Err er, e)
  | None => (kv_lookup (data m) key, e)
  end.

Definition Put (m : MemoryKV) (e : env) (key value : string) : result unit * MemoryKV * env :=
  let '(o, e) := checkLocked (closed m) e in
  match o with
  | Some er => (Err er, m, e)
  | None => (Ok tt, MkMemoryKV (<[key := value]> (data m)) (closed m), e)
  end.

Definition Delete (m : MemoryKV) (e : env) (key : string) : result unit * MemoryKV * env :=
  let '(o, e) := checkLocked (closed m) e in
  match o with
  | Some er => (Err er, m, e)
  | None => (Ok tt, MkMemoryKV (delete key (data m)) (closed m), e)
  end.

Definition Scan (m : MemoryKV) (e : env) (o : ScanOptions) : result (list Entry) * env :=
  let '(oe, e) := checkLocked (closed m) e in
  match oe with
  | Some er => (Err er, e)
  | None => (Ok (scanEntries (data m) o), e)
  end.

Definition Transaction {V} (m : MemoryKV) (e : env) (v : V) (f : fn V unit) :
    V * result unit * MemoryKV * env :=
  let '(o, e) := checkLocked (closed m) e in
  match o with
  | Some er => (v, Err er, m, e)
  | None =>
      let '((v', r), t, e) := run_tx (f v) (MkMemoryTx (data m) ∅) e in
      match r with
      | Err er => (v', Err er, m, e)
      | Ok _ => (v', Ok tt, MkMemoryKV (apply_pending (pending t) (data m)) (closed m), e)
      end
  end.

Definition Close (m : MemoryKV) : MemoryKV * result unit :=
  if closed m then (m, Err ErrClosed) else (MkMemoryKV (data m) true, Ok tt).

#[export] Instance memory_kv : KV MemoryKV := {
  KV_Get := Get; KV_Put := Put; KV_Delete := Delete; KV_Scan := Scan;
  KV_Transaction := @Transaction; KV_Close := Close;
}.

(** ** Correctness *)

(** The errors of [checkLocked] are never mistaken for a missing key. *)
Lemma checkLocked_engine c e er e' : checkLocked c e = (Some er, e') -> engine_error er.
Proof.
  unfold checkLocked, poll_ctx, engine_error.
  destruct (ctx_done e (polls e)) as [[]|]; simpl; intros; simplify_eq; [done..|].
  destruct c; by simplify_eq.
Qed.


Lemma apply_pending_lookup pend m k :
  apply_pending pend m !! k = match pend !! k with Some v => v | None => m !! k end.
Proof.
  unfold apply_pending. revert k.
  apply (map_fold_weak_ind (fun r p => forall k,
    r !! k = match p !! k with Some v => v | None => m !! k end)).
  - intros k. by rewrite lookup_empty.
  - intros i x p r Hp IH k. destruct (decide (i = k)) as [->|Hne].
    + rewrite lookup_insert_eq. destruct x; simpl; [by rewrite lookup_insert_eq|by rewrite lookup_delete_eq].
    + rewrite lookup_insert_ne by done.
      destruct x; simpl; [rewrite lookup_insert_ne by done|rewrite lookup_delete_ne by done]; apply IH.
Qed.

(** The map a buffered transaction stands for. *)
Definition overlay (t : memoryTx) : kvmap := apply_pending (pending t) (snap t).

Lemma overlay_start m : overlay (MkMemoryTx m ∅) = m.
Proof. apply map_eq. intros k. unfold overlay. rewrite apply_pending_lookup. cbn [pending snap].
  by rewrite lookup_empty.
Qed.

Lemma overlay_get t k : memoryTx_Get t k = kv_lookup (overlay t) k.
Proof.
  unfold memoryTx_Get, kv_lookup, overlay. rewrite apply_pending_lookup.
  by destruct (pending t !! k) as [[v|]|].
Qed.

Lemma overlay_put t k v : overlay (fst (memoryTx_Put t k v)) = <[k := v]> (overlay t).
Proof.
  apply map_eq. intros i. unfold overlay. simpl. rewrite apply_pending_lookup.
  destruct (decide (k = i)) as [->|Hne]; [by rewrite !lookup_insert_eq|].
  rewrite !lookup_insert_ne by done. by rewrite apply_pending_lookup.
Qed.

Lemma overlay_delete t k : overlay (fst (memoryTx_Delete t k)) = delete k (overlay t).
Proof.
  apply map_eq. intros i. unfold overlay. simpl. rewrite apply_pending_lookup.
  destruct (decide (k = i)) as [->|Hne]; [by rewrite lookup_insert_eq, lookup_delete_eq|].
  rewrite lookup_insert_ne, lookup_delete_ne by done. by rewrite apply_pending_lookup.
Qed.

(** A callback cannot tell the buffered transaction from the map it stands
    for, and leaves corresponding states behind. *)
Lemma run_memory_tx {A} (p : tx A) t e :
  let '(a, t', e') := run_tx p t e in
  run_tx p (overlay t) e = (a, overlay t', e') /\ snap t' = snap t.
Proof.
  revert t e. induction p; intros tr e0; simpl.
  - done.
  - rewrite overlay_get. apply H.
  - specialize (H (Ok ()) (fst (memoryTx_Put tr k v)) e0). rewrite overlay_put in H. exact H.
  - specialize (H (Ok ()) (fst (memoryTx_Delete tr k)) e0). rewrite overlay_delete in H. exact H.
  - apply H.
  - apply H.
  - apply H.
Qed.

(** Running on the specification map is one of the behaviours the contract
    allows. *)
Lemma run_map_runs {A} (p : tx A) (m : kvmap) e a m' e' :
  run_tx p m e = (a, m', e') -> tx_runs p m a m'.
Proof.
  revert m e. induction p; intros m0 e0; simpl; intros Hr.
  - simplify_eq. constructor.
  - eapply runs_get; [constructor|by eapply H].
  - eapply runs_put, H. exact Hr.
  - eapply runs_delete, H. exact Hr.
  - eapply runs_scan, H. exact Hr.
  - eapply runs_now, H. exact Hr.
  - eapply runs_rand; [apply length_take_pad|by eapply H].
Qed.

(** The specification of [Transaction]: the callback runs on the current
    contents; its map becomes the contents when it returns nil, and is
    dropped otherwise. *)
Definition Transaction_spec {V} (m : MemoryKV) (e : env) (v : V) (f : fn V unit) :
    V * result unit * MemoryKV * env :=
  let '(o, e) := checkLocked (closed m) e in
  match o with
  | Some er => (v, Err er, m, e)
  | None =>
      let '((v', r), m', e) := run_tx (f v) (data m) e in
      match r with
      | Err er => (v', Err er, m, e)
      | Ok _ => (v', Ok tt, MkMemoryKV m' (closed m), e)
      end
  end.

Lemma Transaction_eq {V} (m : MemoryKV) (e : env) (v : V) (f : fn V unit) :
  Transaction m e v f = Transaction_spec m e v f.
Proof.
  unfold Transaction, Transaction_spec.
  destruct (checkLocked (closed m) e) as [[er|] e1]; [done|].
  pose proof (run_memory_tx (f v) (MkMemoryTx (data m) ∅) e1) as Hs.
  destruct (run_tx (f v) (MkMemoryTx (data m) ∅) e1) as [[[v' r] t] e2].
  rewrite overlay_start in Hs. destruct Hs as [-> Hsnap]. simpl in Hsnap.
  destruct r; [|done]. unfold overlay. by rewrite Hsnap.
Qed.

#[export] Program Instance memory_kv_contract : KVContract MemoryKV := { contents := data }.
Next Obligation.
  intros m e key. simpl. unfold Get. destruct (checkLocked (closed m) e) as [[er|] e1] eqn:E.
  - simpl. constructor. by eapply checkLocked_engine.
  - constructor.
Qed.
Next Obligation.
  intros m e key v r m' e'. simpl. unfold Put.
  destruct (checkLocked (closed m) e) as [[er|] e1]; intros; simplify_eq; [right|left]; eauto.
Qed.
Next Obligation.
  intros m e key r m' e'. simpl. unfold Delete.
  destruct (checkLocked (closed m) e) as [[er|] e1]; intros; simplify_eq; [right|left]; eauto.
Qed.
Next Obligation.
  intros m e o. simpl. unfold Scan.
  destruct (checkLocked (closed m) e) as [[er|] e1]; [right|left]; simpl; eauto.
Qed.
Next Obligation.
  intros V m e v f v' r m' e'. simpl. rewrite Transaction_eq. unfold Transaction_spec.
  destruct (checkLocked (closed m) e) as [[er|] e1]; intros Hr.
  - simplify_eq. constructor.
  - destruct (run_tx (f v) (data m) e1) as [[[v1 r1] m1] e2] eqn:E.
    apply run_map_runs in E. destruct r1 as [[]|er]; simplify_eq; by econstructor.
Qed.

(** C16: The buffered transaction implements an atomic one. [Transaction] runs
    its callback against a snapshot and a buffer of pending writes; the
    result, the captured variables and the new contents are those of running
    the callback directly on the contents, which are restored when it returns
    an error: it reads its own writes, its scans see them in order, and either
    all of them or none are kept. *)
Theorem Transaction_refines {V} (m : MemoryKV) (e : env) (v : V) (f : fn V unit) :
  Transaction m e v f = Transaction_spec m e v f.
Proof. apply Transaction_eq. Qed.

(** ** Closing *)

(** With a live context, a closed store answers every call, and a second
    [Close], with [ErrClosed] and never changes again; a transaction does not
    even start its callback. *)
Theorem closed_store_is_frozen (m : MemoryKV) (e : env) :
  closed m = true -> ctx_alive e ->
  (forall k, fst (Get m e k) = Err ErrClosed) /\
  (forall k v, fst (Put m e k v) = (Err ErrClosed, m)) /\
  (forall k, fst (Delete m e k) = (Err ErrClosed, m)) /\
  (forall o, fst (Scan m e o) = Err ErrClosed) /\
  (forall V (v : V) f, fst (Transaction m e v f) = (v, Err ErrClosed, m)) /\
  Close m = (m, Err ErrClosed).
Proof.
  intros Hc Ha. unfold Get, Put, Delete, Scan, Transaction, Close, checkLocked, poll_ctx.
  rewrite Ha, Hc. by split_and!.
Qed.

Lemma closed_store_is_frozen_witness :
  let m := fst (Close NewMemoryKV) in
  let e := MkEnv (fun _ => 0%Z) 0 (fun _ => EmptyString) 0 (fun _ => None) 0 in
  closed m = true /\ fst (Put m e "k" "v") = (Err ErrClosed, m).
Proof.
  cbv zeta. split; [reflexivity|].
  apply (closed_store_is_frozen (fst (Close NewMemoryKV))
    (MkEnv (fun _ => 0%Z) 0 (fun _ => EmptyString) 0 (fun _ => None) 0)); done.
Defined.
