(* ===== verification/MemoryBlob.v ===== *)
(** * storage.MemoryBlobStore (storage/memory.go)

    The in-memory blob store and the bounded copy [readExactSize] behind its
    [Put]. The chunks of a [reader] are the results of its [Read] calls; the
    copy polls the context before each of them. *)
From S2P Require Import Prelude GoBase Hash Storage MemoryKV.

Record memoryBlob := MkMemoryBlob { mb_data : string; mb_etag : string }.
Record MemoryBlobStore := MkMemoryBlobStore { blobs : gmap string memoryBlob; bs_closed : bool }.

(** [NewMemoryBlobStore] *)
Definition NewMemoryBlobStore : MemoryBlobStore := MkMemoryBlobStore ∅ false.

Definition newMemoryBlob (d : string) : memoryBlob := MkMemoryBlob d (md5_hex d).

(** [io.Copy(&buf, io.LimitReader(&contextReader{ctx, r}, limit))]: the bytes
    copied and the error, [None] at the end of the stream or of the limit. *)
Fixpoint copy_limited (cs : list string) (tail : option error) (limit : nat) (acc : string) (e : env) :
    string * option error * env :=
  match limit with
  | O => (acc, None, e)
  | _ =>
      let '(o, e) := poll_ctx e in
      match o with
      | Some er => (acc, Some er, e)
      | None =>
          match cs with
          | [] => (acc, tail, e)
          | c :: cs' =>
              let c' := str_take limit c in
              copy_limited cs' tail (limit - String.length c') (acc +:+ c') e
          end
      end
  end.

(** the bytes taken from the reader, and the object or the error *)
Definition readExactSize (e : env) (r : reader) (size : Z) : string * result string * env :=
  if (size <? 0)%Z then (EmptyString, Err ErrSizeMismatch, e) else
  let '(buf, oe, e) := copy_limited (rd_chunks r) (rd_err r) (Z.to_nat (size + 1)) EmptyString e in
  match oe with
  | Some er => (buf, Err er, e)
  | None =>
      if (Z.of_nat (String.length buf) =? size)%Z then (buf, Ok buf, e)
      else (buf, Err ErrSizeMismatch, e)
  end.

Definition Put (m : MemoryBlobStore) (e : env) (key : string) (r : reader) (size : Z) :
    string * result unit * MemoryBlobStore * env :=
  let '(read, res, e) :=
    if (0 <=? size)%Z then readExactSize e r size
    else (rd_data r, match rd_err r with Some er => Err er | None => Ok (rd_data r) end, e) in
  match res with
  | Err er => (read, Err er, m, e)
  | Ok d =>
      let '(o, e) := checkLocked (bs_closed m) e in
      match o with
      | Some er => (read, Err er, m, e)
      | None => (read, Ok tt, MkMemoryBlobStore (<[key := newMemoryBlob d]> (blobs m)) (bs_closed m), e)
      end
  end.

Definition with_blob {A} (m : MemoryBlobStore) (e : env) (key : string)
    (f : memoryBlob -> result A) : result A * env :=
  let '(o, e) := checkLocked (bs_closed m) e in
  match o with
  | Some er => (Err er, e)
  | None => (match blobs m !! key with None => Err ErrNotFound | Some b => f b end, e)
  end.

Definition Open (m : MemoryBlobStore) (e : env) (key : string) : result reader * env :=
  with_blob m e key (fun b => Ok (bytes_reader (mb_data b))).

Definition OpenRange (m : MemoryBlobStore) (e : env) (key : string) (lo hi : Z) : result reader * env :=
  with_blob m e key (fun b =>
    let size := Z.of_nat (String.length (mb_data b)) in
    if ((lo <? 0) || (hi <? lo) || (size <? hi))%Z then Err ErrSizeMismatch
    else Ok (bytes_reader (str_take (Z.to_nat (hi - lo)) (str_drop (Z.to_nat lo) (mb_data b))))).

Definition Stat (m : MemoryBlobStore) (e : env) (key : string) : result BlobInfo * env :=
  with_blob m e key (fun b =>
    Ok (MkBlobInfo key (Z.of_nat (String.length (mb_data b))) (mb_etag b))).

Definition Delete (m : MemoryBlobStore) (e : env) (key : string) : result unit * MemoryBlobStore * env :=
  let '(o, e) := checkLocked (bs_closed m) e in
  match o with
  | Some er => (Err er, m, e)
  | None => (Ok tt, MkMemoryBlobStore (delete key (blobs m)) (bs_closed m), e)
  end.

Definition Close (m : MemoryBlobStore) : MemoryBlobStore * result unit :=
  if bs_closed m then (m, Err ErrClosed) else (MkMemoryBlobStore (blobs m) true, Ok tt).

#[export] Instance memory_blobs : BlobStore MemoryBlobStore := {
  Blob_Put := Put;
  Blob_OpenRange m e key rg :=
    match rg with None => Open m e key | Some (lo, hi) => OpenRange m e key lo hi end;
  Blob_Stat := Stat;
  Blob_Delete := Delete;
  Blob_Close := Close;
}.

(** ** The bounded copy *)

Lemma str_take_all n s : (String.length s <= n)%nat -> str_take n s = s.
Proof.
  revert n. induction s as [|a s IH]; intros [|n] Hn; simpl in *; [done..|lia|].
  by rewrite IH by lia.
Qed.

Lemma length_str_take n s : String.length (str_take n s) = Nat.min n (String.length s).
Proof. revert s. induction n as [|n IH]; intros [|a s]; simpl; [done..|]. by rewrite IH. Qed.

Lemma str_take_app n s t :
  str_take n (s +:+ t) = str_take n s +:+ str_take (n - String.length s) t.
Proof.
  revert n. induction s as [|a s IH]; intros n.
  { simpl String.length. rewrite Nat.sub_0_r. by destruct n. }
  change (String a s +:+ t) with (String a (s +:+ t)).
  destruct n as [|n]; [done|]. simpl. by rewrite IH.
Qed.

(** With a live context the copy is the first [limit] bytes of the stream;
    the stream's error shows exactly when it ends before the limit. *)
Lemma copy_limited_spec cs tail limit acc e :
  ctx_alive e ->
  let s := foldr String.append EmptyString cs in
  let '(buf, oe, e') := copy_limited cs tail limit acc e in
  buf = acc +:+ str_take limit s /\
  oe = (if (limit <=? String.length s)%nat then None else tail) /\ ctx_alive e'.
Proof.
  intros Ha. revert limit acc e Ha. induction cs as [|c cs IH]; intros limit acc e Ha.
  - destruct limit as [|n]; simpl; [by rewrite str_app_nil_r|].
    rewrite Ha. simpl. by rewrite str_app_nil_r.
  - destruct limit as [|n]; [simpl; by rewrite str_app_nil_r|].
    cbn [copy_limited]. unfold poll_ctx. rewrite Ha. cbn [fmap option_fmap option_map].
    set (e1 := MkEnv _ _ _ _ _ _). assert (Ha1 : ctx_alive e1) by (intros k; apply Ha).
    specialize (IH (S n - String.length (str_take (S n) c)) (acc +:+ str_take (S n) c) e1 Ha1).
    cbv zeta in *. destruct (copy_limited cs tail _ _ e1) as [[buf oe] e'].
    destruct IH as (-> & -> & Ha'). rewrite length_str_take.
    cbn [foldr]. rewrite str_length_app. split_and!; [| |done].
    + rewrite str_take_app, <- str_app_assoc. f_equal. f_equal. f_equal. lia.
    + destruct (Nat.leb_spec (S n - Nat.min (S n) (String.length c))
        (String.length (foldr String.append EmptyString cs))),
        (Nat.leb_spec (S n) (String.length c + String.length (foldr String.append EmptyString cs)));
        first [done|lia].
Qed.

(** A copy that ends without error, whatever the context does. *)
Lemma copy_limited_ok cs tail limit acc e buf e' :
  copy_limited cs tail limit acc e = (buf, None, e') ->
  let s := foldr String.append EmptyString cs in
  buf = acc +:+ str_take limit s /\ (tail = None \/ (limit <= String.length s)%nat).
Proof.
  revert limit acc e. induction cs as [|c cs IH]; intros limit acc e;
    (destruct limit as [|n]; [simpl; intros; simplify_eq; rewrite str_app_nil_r; split; [done|right; lia]|]);
    cbn [copy_limited]; destruct (poll_ctx e) as [[er|] e1]; try done.
  - intros; simplify_eq. simpl. rewrite str_app_nil_r. auto.
  - intros (-> & Ht)%IH. cbn [foldr]. rewrite length_str_take in *. rewrite str_length_app. split.
    + rewrite str_take_app, <- str_app_assoc. f_equal. f_equal. f_equal. lia.
    + destruct Ht as [?|Ht]; [by left|right; lia].
Qed.

Lemma readExactSize_ok e r size read d e' :
  readExactSize e r size = (read, Ok d, e') ->
  d = rd_data r /\ read = rd_data r /\ rd_err r = None /\ Z.of_nat (String.length d) = size.
Proof.
  unfold readExactSize. destruct (Z.ltb_spec size 0); [done|].
  destruct (copy_limited _ _ _ _ e) as [[buf [er|]] e1] eqn:E; [done|].
  apply copy_limited_ok in E as [Hb Ht]. fold (rd_data r) in *.
  change (EmptyString +:+ ?x) with x in Hb.
  destruct (Z.eqb_spec (Z.of_nat (String.length buf)) size) as [Hs|]; [|done].
  intros; simplify_eq.
  assert (String.length (rd_data r) < Z.to_nat (size + 1))%nat as Hl.
  { rewrite length_str_take in Hs. lia. }
  rewrite str_take_all in * by lia. split_and!; [done..| |done].
  destruct Ht; [done|lia].
Qed.



(** ** The contract *)

#[export] Program Instance memory_blob_contract : BlobContract MemoryBlobStore :=
  { bodies m := mb_data <$> blobs m }.
Next Obligation.
  intros m e key rd size d r m' e'. simpl. unfold Put. exists key. split; [apply object_name_self|].
  destruct (Z.leb_spec 0 size) as [Hs|Hs].
  - destruct (readExactSize e rd size) as [[read [d'|er]] e1] eqn:E.
    + apply readExactSize_ok in E as (-> & -> & Hr & Hl).
      destruct (checkLocked (bs_closed m) e1) as [[er|] e2]; intros; simplify_eq; [right; eauto|left].
      split_and!; [done..|]. simpl. by rewrite fmap_insert.
    + intros; simplify_eq. right. eauto.
  - destruct (rd_err rd) eqn:Hr; simpl; [intros; simplify_eq; right; eauto|].
    destruct (checkLocked (bs_closed m) e) as [[er|] e2]; intros; simplify_eq; [right; eauto|left].
    split_and!; [done..|lia|]. simpl. by rewrite fmap_insert.
Qed.
Next Obligation.
  intros m e key rg rd e'. simpl. unfold Open, OpenRange, with_blob. intros _ Ho Hr. exists key. split; [apply object_name_self|]. revert Ho Hr. destruct rg as [[lo hi]|].
  - destruct (checkLocked (bs_closed m) e) as [[er|] e1]; [done|].
    rewrite lookup_fmap. destruct (blobs m !! key) as [b|]; [|done].
    destruct (_ || _ || _); [done|]. intros; simplify_eq. right.
    exists (mb_data b). split; [done|]. unfold rd_data. simpl. by rewrite str_app_nil_r.
  - destruct (checkLocked (bs_closed m) e) as [[er|] e1]; [done|].
    rewrite lookup_fmap. destruct (blobs m !! key) as [b|]; [|done].
    intros; simplify_eq. unfold rd_data. simpl. by rewrite str_app_nil_r.
Qed.
Next Obligation.
  intros m e key bi e'. simpl. unfold Stat, with_blob. intros Hs. exists key. revert Hs.
  destruct (checkLocked (bs_closed m) e) as [[er|] e1]; [done|].
  rewrite lookup_fmap. destruct (blobs m !! key) as [b|]; [|done]. intros; simplify_eq.
  eexists. split; [apply object_name_self|by split].
Qed.
Next Obligation.
  intros m e key r m' e'. simpl. unfold Delete. exists key. split; [apply object_name_self|].
  destruct (checkLocked (bs_closed m) e) as [[er|] e1]; intros; simplify_eq; [right; eauto|left].
  split; [done|]. simpl. by rewrite fmap_delete.
Qed.
