(* ===== verification/Sequential.v ===== *)
(** * Running alone on the in-memory engine

    With an open store and a context that is never cancelled, an operation
    that runs alone is a function of the contents of the store: every access
    answers from them, no transaction conflicts, and only the callback's own
    error ends a retry loop. [yields] is the exact counterpart of
    [Logic.attempt]: the callback runs on a map and produces one outcome. *)
From S2P Require Import Prelude GoBase Codec Storage Logic MemoryKV MemoryBlob.

(** the outcome of a callback on the map [m] *)
Definition yields {V A} (f : fn V A) (v : V) (m : kvmap) (e : env)
    (Q : V -> result A -> kvmap -> env -> Prop) : Prop :=
  let '((v', r), m', e') := run_tx (f v) m e in Q v' r m' e'.

Lemma run_tx_bind `{Tx T} {A B} (t : tx A) (f : A -> tx B) (s : T) e :
  run_tx (tx_bind t f) s e = let '(a, s', e') := run_tx t s e in run_tx (f a) s' e'.
Proof.
  revert s e. induction t; simpl; intros s0 e0; auto.
  - by destruct (tx_put s0 k v).
  - by destruct (tx_delete s0 k).
Qed.

Section yields_rules.
Context {V : Type}.

Lemma yields_mono {A} (f : fn V A) v m e (Q Q' : V -> result A -> kvmap -> env -> Prop) :
  yields f v m e Q -> (forall v' r m' e', Q v' r m' e' -> Q' v' r m' e') -> yields f v m e Q'.
Proof. unfold yields. destruct (run_tx (f v) m e) as [[[v' r] m'] e']. auto. Qed.

Lemma yields_bind {A B} (f : fn V A) (g : A -> fn V B) v m e Q :
  yields f v m e (fun v' r m' e' =>
    match r with Ok a => yields (g a) v' m' e' Q | Err er => Q v' (Err er) m' e' end) ->
  yields (f ≫= g) v m e Q.
Proof.
  unfold yields, mbind, fn_bind. rewrite run_tx_bind.
  destruct (run_tx (f v) m e) as [[[v' [a|er]] m'] e']; simpl; auto.
Qed.
End yields_rules.

(** the time read and the environment after it *)
Definition tick (e : env) : env := snd (read_clock e).
Lemma tick_alive e : ctx_alive e -> ctx_alive (tick e).
Proof. done. Qed.
Definition polled (e : env) : env := snd (poll_ctx e).
Lemma polled_alive e : ctx_alive e -> ctx_alive (polled e).
Proof. done. Qed.
#[export] Hint Resolve tick_alive polled_alive : s3db.

(** an open in-memory store with contents [m] *)
Definition open_kv (m : kvmap) : MemoryKV := MkMemoryKV m false.

(** a program runs its parts one after the other, on any engine *)
Lemma run_bind `{KV K, BlobStore B} {A C} (p : prog A) (f : A -> prog C) (k : K) (b : B) e :
  run (p ≫= f) k b e = let '(a, k', b', e') := run p k b e in run (f a) k' b' e'.
Proof.
  unfold mbind, prog_mbind. revert k b e.
  induction p; cbn [run prog_bind]; intros k0 b0 e0; [done|..].
  all: repeat match goal with |- context [let '(_, _) := ?x in _] =>
    lazymatch x with run _ _ _ _ => fail | _ => destruct x end end.
  all: auto.
Qed.

Section run_alone.
Context `{BlobStore B}.

Lemma run_get {A} key (c : result string -> prog A) m (b : B) e :
  ctx_alive e -> run (KvGet key c) (open_kv m) b e = run (c (kv_lookup m key)) (open_kv m) b (polled e).
Proof.
  intros Ha. simpl. unfold Get, checkLocked. unfold polled.
  destruct (poll_ctx e) as [o e1] eqn:E. unfold poll_ctx in E. rewrite Ha in E. by simplify_eq.
Qed.

Lemma run_delete {A} key (c : result unit -> prog A) m (b : B) e :
  ctx_alive e -> run (KvDelete key c) (open_kv m) b e = run (c (Ok tt)) (open_kv (delete key m)) b (polled e).
Proof.
  intros Ha. cbn [run KV_Delete memory_kv]. unfold MemoryKV.Delete, checkLocked, polled.
  destruct (poll_ctx e) as [o e1] eqn:E. unfold poll_ctx in E. rewrite Ha in E. by simplify_eq.
Qed.

Lemma run_put {A} key v (c : result unit -> prog A) m (b : B) e :
  ctx_alive e -> run (KvPut key v c) (open_kv m) b e = run (c (Ok tt)) (open_kv (<[key := v]> m)) b (polled e).
Proof.
  intros Ha. cbn [run KV_Put memory_kv]. unfold MemoryKV.Put, checkLocked, polled.
  destruct (poll_ctx e) as [o e1] eqn:E. unfold poll_ctx in E. rewrite Ha in E. by simplify_eq.
Qed.

Lemma run_scan {A} o (c : result (list Entry) -> prog A) m (b : B) e :
  ctx_alive e ->
  run (KvScan o c) (open_kv m) b e = run (c (Ok (scanEntries m o))) (open_kv m) b (polled e).
Proof.
  intros Ha. simpl. unfold Scan, checkLocked. unfold polled.
  destruct (poll_ctx e) as [o' e1] eqn:E. unfold poll_ctx in E. rewrite Ha in E. by simplify_eq.
Qed.

Lemma run_rand {A} n (c : string -> prog A) (k : MemoryKV) (b : B) e :
  run (Rand n c) k b e = run (c (fst (read_random n e))) k b (snd (read_random n e)).
Proof. reflexivity. Qed.

Lemma run_now {A} (c : time -> prog A) (k : MemoryKV) (b : B) e :
  run (Now c) k b e = run (c (clock e (ticks e))) k b (tick e).
Proof. reflexivity. Qed.

(** a retry loop whose callback does not end in a conflict *)
Lemma run_retry {V} n exh (v : V) (f : fn V unit) m (b : B) e
    (Q : V * result unit -> MemoryKV -> B -> env -> Prop) :
  ctx_alive e ->
  yields f v m (polled (polled e)) (fun v' r m' e' =>
    match r with
    | Ok _ => Q (v', Ok tt) (open_kv m') b e'
    | Err er => errors_is er ErrConflict = false /\ Q (v', Err er) (open_kv m) b e'
    end) ->
  let '(a, k', b', e') := run (retry_loop (S n) exh v f) (open_kv m) b e in Q a k' b' e'.
Proof.
  intros Ha. cbn [retry_loop run].
  unfold yields, polled. destruct (poll_ctx e) as [o e1] eqn:E.
  assert (Ha1 : ctx_alive e1) by (unfold poll_ctx in E; simplify_eq; exact Ha).
  unfold poll_ctx in E. rewrite Ha in E. simplify_eq/=. rewrite Transaction_eq.
  unfold Transaction_spec, checkLocked, poll_ctx. cbn [closed open_kv data ctx_done polls].
  rewrite Ha. simpl.
  destruct (run_tx (f v) m _) as [[[v' [[]|er]] m'] e']; [done|].
  intros [Hc Hq]. simpl. rewrite Hc. simpl. exact Hq.
Qed.
End run_alone.

(** ** Facts shared by the collections *)

(** what a proof of [attempt] says of a callback that runs alone *)
Lemma yields_attempt {V A} (f : fn V A) v m e Q :
  attempt f v m Q -> yields f v m e (fun v' r m' _ => Q v' r m').
Proof.
  intros H. unfold yields. destruct (run_tx (f v) m e) as [[[v' r] m'] e'] eqn:E.
  apply run_map_runs in E. exact (tx_wp_sound _ _ _ _ _ H E).
Qed.

Lemma yields_and {V A} (f : fn V A) v m e Q1 Q2 :
  yields f v m e Q1 -> yields f v m e Q2 ->
  yields f v m e (fun v' r m' e' => Q1 v' r m' e' /\ Q2 v' r m' e').
Proof. unfold yields. destruct (run_tx (f v) m e) as [[[v' r] m'] e']. auto. Qed.

(** a clock that JSON can represent *)
Definition clock_ok (e : env) : Prop := forall n, time_ok (clock e n).

Lemma zero_time_ok : time_ok zero_time.
Proof. by vm_compute; eexists. Qed.

(** ** Blob accesses alone *)

Definition open_blobs (bm : gmap string memoryBlob) : MemoryBlobStore := MkMemoryBlobStore bm false.

Lemma copy_limited_clock cs tail limit acc e buf oe e' :
  copy_limited cs tail limit acc e = (buf, oe, e') -> clock e' = clock e.
Proof.
  revert limit acc e. induction cs as [|c cs IH]; intros [|n] acc e; cbn [copy_limited];
    try (by intros; simplify_eq); unfold poll_ctx;
    (destruct (ctx_error <$> ctx_done e (polls e)) as [er|]; [by intros; simplify_eq|]).
  - by intros; simplify_eq.
  - intros H. by rewrite (IH _ _ _ H).
Qed.

Lemma readExactSize_bytes e d :
  ctx_alive e -> exists e', ctx_alive e' /\ clock e' = clock e /\
    readExactSize e (bytes_reader d) (Z.of_nat (String.length d)) = (d, Ok d, e').
Proof.
  intros Ha. unfold readExactSize. destruct (Z.ltb_spec (Z.of_nat (String.length d)) 0); [lia|].
  cbn [rd_chunks rd_err bytes_reader].
  pose proof (copy_limited_spec [d] None (Z.to_nat (Z.of_nat (String.length d) + 1)) EmptyString e Ha) as Hs.
  destruct (copy_limited [d] None _ _ e) as [[buf oe] e1] eqn:E. apply copy_limited_clock in E.
  destruct Hs as (-> & -> & Ha1). cbn [foldr]. rewrite str_app_nil_r.
  destruct (Nat.leb_spec (Z.to_nat (Z.of_nat (String.length d) + 1)) (String.length d)); [lia|].
  rewrite str_take_all by lia. change (EmptyString +:+ d) with d. rewrite Z.eqb_refl.
  by exists e1.
Qed.

Lemma run_blob_put {A} key d (c : string -> result unit -> prog A) (k : MemoryKV) bm e :
  ctx_alive e -> exists e', ctx_alive e' /\ clock e' = clock e /\
    run (BlobPut key (bytes_reader d) (Z.of_nat (String.length d)) c) k (open_blobs bm) e
      = run (c d (Ok tt)) k (open_blobs (<[key := newMemoryBlob d]> bm)) e'.
Proof.
  intros He. destruct (readExactSize_bytes e d He) as (e1 & He1 & Hc1 & E).
  exists (polled e1). split; [done|]. split; [done|]. cbn [run Blob_Put memory_blobs]. unfold MemoryBlob.Put.
  destruct (Z.leb_spec 0 (Z.of_nat (String.length d))); [|lia]. rewrite E.
  unfold checkLocked, poll_ctx, polled. by rewrite He1.
Qed.

Lemma run_blob_delete {A} key (c : result unit -> prog A) (k : MemoryKV) bm e :
  ctx_alive e -> run (BlobDelete key c) k (open_blobs bm) e
    = run (c (Ok tt)) k (open_blobs (delete key bm)) (polled e).
Proof.
  intros He. cbn [run Blob_Delete memory_blobs]. unfold MemoryBlob.Delete.
  unfold checkLocked, poll_ctx, polled. by rewrite He.
Qed.

Lemma run_blob_open {A} key rg (c : result reader -> prog A) (k : MemoryKV) bm e :
  ctx_alive e -> run (BlobOpenRange key rg c) k (open_blobs bm) e
    = run (c (match bm !! key with
              | None => Err ErrNotFound
              | Some b =>
                  match rg with
                  | None => Ok (bytes_reader (mb_data b))
                  | Some (lo, hi) =>
                      if ((lo <? 0) || (hi <? lo) || (Z.of_nat (String.length (mb_data b)) <? hi))%Z
                      then Err ErrSizeMismatch
                      else Ok (bytes_reader (str_take (Z.to_nat (hi - lo)) (str_drop (Z.to_nat lo) (mb_data b))))
                  end
              end))
        k (open_blobs bm) (polled e).
Proof.
  intros He. cbn [run Blob_OpenRange memory_blobs]. unfold MemoryBlob.Open, MemoryBlob.OpenRange, with_blob.
  destruct rg as [[lo hi]|]; unfold checkLocked, poll_ctx, polled; by rewrite He.
Qed.

(** ** Programs that only read

    On an open store they are functions of its contents. *)

Definition sees {A} (m : kvmap) (p : prog A) (a : A) : Prop :=
  forall bm e, ctx_alive e -> exists e', ctx_alive e' /\
    run p (open_kv m) (open_blobs bm) e = (a, open_kv m, open_blobs bm, e').

Lemma sees_ret {A} m (a : A) : sees m (Ret a) a.
Proof. intros bm e He. by exists e. Qed.
Lemma sees_bind {A C} m (p : prog A) (f : A -> prog C) a c : sees m p a -> sees m (f a) c -> sees m (p ≫= f) c.
Proof.
  intros Hp Hf bm e He. destruct (Hp bm e He) as (e1 & He1 & Hr). destruct (Hf bm e1 He1) as (e2 & He2 & Hr2).
  exists e2. split; [done|]. by rewrite run_bind, Hr.
Qed.
Lemma sees_get {A} m key (c : result string -> prog A) a : sees m (c (kv_lookup m key)) a -> sees m (KvGet key c) a.
Proof. intros Hc bm e He. rewrite run_get by done. by apply Hc. Qed.
Lemma sees_scan {A} m o (c : result (list Entry) -> prog A) a :
  sees m (c (Ok (scanEntries m o))) a -> sees m (KvScan o c) a.
Proof. intros Hc bm e He. rewrite run_scan by done. by apply Hc. Qed.
#[export] Hint Resolve sees_ret : s3db.
