(* ===== verification/Testing.v ===== *)
(** * Concrete runs

    A fixed environment and an empty in-memory engine, on which the witnesses
    of the theorems evaluate the operations. *)
From S2P Require Import Prelude GoBase Codec Storage Logic MemoryKV MemoryBlob.
From S2P Require Import Sequential.

(** a clock standing at the Unix epoch *)
Definition test_env : env :=
  MkEnv (fun _ => unix_epoch) 0 (fun n => String (Ascii.ascii_of_nat n) EmptyString) 0 (fun _ => None) 0.

(** the same, [d] later, with other random bytes *)
Definition later (d : duration) : env :=
  MkEnv (fun _ => Add unix_epoch d) 0
    (fun n => String (Ascii.ascii_of_nat (100 + n)) EmptyString) 0 (fun _ => None) 0.

Lemma test_clock_ok : clock_ok test_env.
Proof. intros n. by vm_compute; eexists. Qed.

Lemma test_alive : ctx_alive test_env.
Proof. done. Qed.

(** the result of a program on a store *)
Definition answer {A} (p : prog A) (m : kvmap) (e : env) : A :=
  fst (fst (fst (run p (open_kv m) NewMemoryBlobStore e))).

(** the contents after running [p] on an empty engine *)
Definition after {A} (p : prog A) : kvmap :=
  let '(_, k, _, _) := run p NewMemoryKV NewMemoryBlobStore test_env in data k.

Definition empty_store : store := MkStore ∅ ∅.

Lemma run_runs_in {A} I (p : prog A) (k : MemoryKV) (b : MemoryBlobStore) e :
  exists h k' b', runs_in I [] p (view k b) h (Ret (fst (fst (fst (run p k b e))))) (view k' b').
Proof.
  destruct (run p k b e) as [[[a k'] b'] e'] eqn:E. apply run_steps in E.
  destruct (steps_runs_in I [] _ _ _ _ E) as [h Hh]. simpl. by exists h, k', b'.
Qed.

Lemma view_open m : view (open_kv m) NewMemoryBlobStore = MkStore m ∅.
Proof. unfold view. cbn. by rewrite fmap_empty. Qed.

(** every program has an execution without interference *)
Lemma answer_runs_in {A} I (p : prog A) m e :
  exists h st', runs_in I [] p (MkStore m ∅) h (Ret (answer p m e)) st'.
Proof.
  destruct (run_runs_in I p (open_kv m) NewMemoryBlobStore e) as (h & k' & b' & Hr).
  rewrite view_open in Hr. eauto.
Qed.

(** what a program that is safe leaves behind satisfies the invariant *)
Lemma safe_after {A} I G (p : prog A) Q :
  safe I G [] p Q -> I empty_store -> exists b, I (MkStore (after p) b).
Proof.
  intros Hp Hi. unfold after.
  destruct (run p NewMemoryKV NewMemoryBlobStore test_env) as [[[a k'] b'] e'] eqn:E.
  assert (Hv : I (view NewMemoryKV NewMemoryBlobStore)) by (change NewMemoryKV with (open_kv ∅); by rewrite view_open).
  destruct (safe_run _ _ p _ NewMemoryKV NewMemoryBlobStore _ _ _ _ _ Hp Hv E) as (_ & Hok & _).
  by exists (bodies b').
Qed.

(** one attempt of a transaction, as [run] computes it on a map *)
Lemma tx_runs_on {V} (f : fn V unit) v m v' r m' :
  fst (fst (run_tx (f v) m test_env)) = (v', r) ->
  bool_decide (snd (fst (run_tx (f v) m test_env)) = m') = true -> tx_runs (f v) m (v', r) m'.
Proof.
  destruct (run_tx (f v) m test_env) as [[a m1] e'] eqn:E. cbn [fst snd].
  intros -> ->%bool_decide_eq_true. exact (run_map_runs _ _ _ _ _ _ E).
Qed.
