(* ===== verification/KeyRange.v ===== *)
(** * Key ranges (storage/slatedb.go keyRange, prefixSuccessor, scanWith)

    How a scan is turned into a range of keys for an ordered database and the
    range's entries are filtered again, and that this is the scan of
    storage/memory.go. *)
From Stdlib Require Import Ascii.
From S2P Require Import Prelude GoBase Storage Scan.

(** ** The byte order *)

Lemma str_lt_cons a x b y :
  str_lt (String a x) (String b y) <-> (N_of_ascii a < N_of_ascii b)%N \/ a = b /\ str_lt x y.
Proof.
  unfold str_lt, String.ltb. cbn [String.compare]. unfold Ascii.compare.
  destruct (N.compare_spec (N_of_ascii a) (N_of_ascii b)) as [E|E|E].
  - assert (a = b) as <- by (rewrite <- (ascii_N_embedding a), E; apply ascii_N_embedding).
    split; [by right|intros [?|[_ ?]]; [lia|done]].
  - split; [by left|done].
  - split; [done|]. intros [?|[-> _]]; lia.
Qed.

Lemma str_lt_empty x : ~ str_lt x EmptyString.
Proof. by destruct x. Qed.

Lemma str_le_app (p r : string) : String.le p (p +:+ r).
Proof.
  apply str_not_lt. induction p as [|a p IH]; [apply str_lt_empty|].
  change (String a p +:+ r) with (String a (p +:+ r)). rewrite str_lt_cons. intros [?|[_ ?]]; [lia|done].
Qed.

(** ** prefixSuccessor *)

(** the loop of [prefixSuccessor] at index [i - 1] of [b] *)
Fixpoint successor_below (b : list N) (i : nat) : option (list N) :=
  match i with
  | O => None
  | S j => let c := default 255%N (b !! j) in
      if (c =? 255)%N then successor_below b j else Some (take j b ++ [(c + 1)%N])
  end.
Definition prefixSuccessor (prefix : string) : option string :=
  of_codes <$> successor_below (codes prefix) (length (codes prefix)).

(** the same by recursion on the string *)
Fixpoint successor (p : string) : option string :=
  match p with
  | EmptyString => None
  | String a p' =>
      match successor p' with
      | Some u => Some (String a u)
      | None => if (N_of_ascii a =? 255)%N then None else Some (String (ascii_of_N (N_of_ascii a + 1)) EmptyString)
      end
  end.

Lemma successor_below_cons c b i :
  successor_below (c :: b) (S i) =
    match successor_below b i with
    | Some u => Some (c :: u)
    | None => if (c =? 255)%N then None else Some [(c + 1)%N]
    end.
Proof.
  induction i as [|i IH].
  { cbn. by destruct (c =? 255)%N. }
  cbn [successor_below]. cbn [lookup list_lookup] in *.
  destruct (default 255%N (b !! i) =? 255)%N; [exact IH|done].
Qed.

Lemma prefixSuccessor_eq p : prefixSuccessor p = successor p.
Proof.
  unfold prefixSuccessor. induction p as [|a p IH]; [done|].
  change (codes (String a p)) with (N_of_ascii a :: codes p). cbn [length].
  rewrite successor_below_cons. cbn [successor]. rewrite <- IH.
  destruct (successor_below (codes p) (length (codes p))) as [u|]; cbn [fmap option_fmap option_map].
  - unfold of_codes. cbn. by rewrite ascii_N_embedding.
  - by destruct (_ =? 255)%N.
Qed.

Lemma byte_succ a : N_of_ascii a <> 255%N -> N_of_ascii (ascii_of_N (N_of_ascii a + 1)) = (N_of_ascii a + 1)%N.
Proof. intros Hne. apply N_ascii_embedding. pose proof (N_ascii_bounded a). lia. Qed.

Lemma successor_above p k u : has_prefix p k = true -> successor p = Some u -> str_lt k u.
Proof.
  revert k u. induction p as [|a p IH]; intros k u Hp Hs; [done|].
  destruct k as [|b k]; [done|]. cbn in Hp. apply andb_true_iff in Hp as [->%bool_decide_eq_true Hp].
  cbn [successor] in Hs. destruct (successor p) as [u'|].
  - injection Hs as <-. apply str_lt_cons. right. split; [done|]. by apply IH.
  - destruct (N.eqb_spec (N_of_ascii b) 255) as [|Hne]; [done|]. injection Hs as <-.
    apply str_lt_cons. left. rewrite byte_succ by done. lia.
Qed.

Lemma successor_least p x :
  (forall k, has_prefix p k = true -> str_lt k x) ->
  exists u, successor p = Some u /\ String.le u x.
Proof.
  revert x. induction p as [|a p IH]; intros x Hx.
  { exfalso. eapply irreflexivity; [apply str_lt_irrefl|]. by apply (Hx x). }
  destruct x as [|b x].
  { exfalso. eapply str_lt_empty, Hx. apply has_prefix_spec. exists EmptyString. symmetry. apply str_app_nil_r. }
  assert (Ha : forall k, has_prefix p k = true -> str_lt (String a k) (String b x)).
  { intros k Hk. apply Hx. cbn. by rewrite bool_decide_true. }
  assert (Hp : has_prefix p p = true) by (apply has_prefix_spec; exists EmptyString; symmetry; apply str_app_nil_r).
  pose proof (N_ascii_bounded b) as Hb. cbn [successor].
  pose proof (Ha p Hp) as [Hlt|[<- _]]%str_lt_cons.
  - destruct (successor p) as [u|].
    + exists (String a u). split; [done|]. apply str_le_lt_eq. left. apply str_lt_cons. by left.
    + destruct (N.eqb_spec (N_of_ascii a) 255) as [|Hne]; [lia|]. eexists. split; [done|].
      apply str_not_lt. rewrite str_lt_cons, byte_succ by done. intros [?|[_ ?]]; [lia|by eapply str_lt_empty].
  - destruct (IH x) as (u & -> & Hu).
    { intros k Hk. apply Ha in Hk. apply str_lt_cons in Hk as [?|[_ ?]]; [lia|done]. }
    exists (String a u). split; [done|]. apply str_not_lt. rewrite str_lt_cons. apply str_not_lt in Hu.
    intros [?|[_ ?]]; [lia|done].
Qed.

(** [prefixSuccessor] is the least upper bound it claims to be: every key
    with the prefix lies below it and every string above all keys with the
    prefix is at least it; it returns nil exactly when no string is above all
    of them, which is when the prefix is empty or all 0xFF. *)
Theorem prefixSuccessor_least (p : string) :
  match prefixSuccessor p with
  | Some u => (forall k, has_prefix p k = true -> str_lt k u) /\
              (forall x, (forall k, has_prefix p k = true -> str_lt k x) -> String.le u x)
  | None => (forall x, ~ forall k, has_prefix p k = true -> str_lt k x) /\ Forall (fun c => c = 255%N) (codes p)
  end.
Proof.
  rewrite prefixSuccessor_eq. destruct (successor p) as [u|] eqn:E.
  - split; [intros k Hk; by eapply successor_above|]. intros x Hx.
    destruct (successor_least p x Hx) as (u' & E' & Hu). by simplify_eq.
  - split.
    + intros x Hx. destruct (successor_least p x Hx) as (u' & E' & _). by simplify_eq.
    + induction p as [|a p IH]; [constructor|]. cbn [successor] in E.
      destruct (successor p); [done|]. destruct (N.eqb_spec (N_of_ascii a) 255); [|done].
      change (codes (String a p)) with (N_of_ascii a :: codes p). constructor; auto.
Qed.

(** ** keyRange *)

Record KeyRange := MkKeyRange {
  kr_Start : option string;
  kr_StartInclusive : bool;
  kr_End : option string;
  kr_EndInclusive : bool;
}.

Definition keyRange (prefix startAfter : string) (reverse : bool) : KeyRange :=
  let kr :=
    if bool_decide (prefix = EmptyString) then MkKeyRange None false None false
    else match prefixSuccessor prefix with
         | Some upper => MkKeyRange (Some prefix) true (Some upper) false
         | None => MkKeyRange (Some prefix) true None false
         end in
  if bool_decide (startAfter = EmptyString) then kr
  else if reverse then MkKeyRange (kr_Start kr) (kr_StartInclusive kr) (Some startAfter) false
  else MkKeyRange (Some startAfter) false (kr_End kr) (kr_EndInclusive kr).

(** the keys a range stands for *)
Definition in_range (kr : KeyRange) (k : string) : Prop :=
  match kr_Start kr with
  | None => True
  | Some s => if kr_StartInclusive kr then String.le s k else str_lt s k
  end /\
  match kr_End kr with
  | None => True
  | Some e => if kr_EndInclusive kr then String.le k e else str_lt k e
  end.
#[export] Instance in_range_dec kr k : Decision (in_range kr k).
Proof.
  unfold in_range. destruct (kr_Start kr), (kr_End kr), (kr_StartInclusive kr), (kr_EndInclusive kr); apply _.
Defined.

(** every key a scan keeps is in its range *)
Lemma keyRange_complete o k :
  scan_keep o k -> in_range (keyRange (so_prefix o) (so_start_after o) (so_reverse o)) k.
Proof.
  intros [Hp Hs]. unfold keyRange. set (kr := if bool_decide (so_prefix o = _) then _ else _).
  assert (Hkr : in_range kr k).
  { unfold kr, in_range. case_bool_decide as He; [done|]. specialize (Hp He).
    rewrite prefixSuccessor_eq. apply has_prefix_spec in Hp as Hk. destruct Hk as [r ->].
    destruct (successor (so_prefix o)) as [u|] eqn:Eu; cbn; split; try done; try apply str_le_app.
    by eapply successor_above. }
  case_bool_decide as He; [done|]. specialize (Hs He). destruct Hkr as [H1 H2].
  destruct (so_reverse o); by split.
Qed.

(** ** scanWith *)

(** the entries of [m] in a range, in the order of iteration *)
Definition range_entries (m : kvmap) (kr : KeyRange) (rv : bool) : list Entry :=
  let keys := merge_sort String.le (filter (in_range kr) (fst <$> map_to_list m)) in
  (fun k => MkEntry k (default EmptyString (m !! k))) <$> (if rv then reverse keys else keys).

(** the two [continue]s of the loop *)
Definition skipped (o : ScanOptions) (key : string) : bool :=
  negb (bool_decide (so_prefix o = EmptyString)) && negb (has_prefix (so_prefix o) key) ||
  negb (bool_decide (so_start_after o = EmptyString)) &&
    (negb (so_reverse o) && bool_decide (String.le key (so_start_after o)) ||
     so_reverse o && bool_decide (String.le (so_start_after o) key)).

(** the loop of [scanWith] with [n] entries in [out], over what the iterator
    yields and the error it ends with, if any *)
Fixpoint scan_loop (o : ScanOptions) (n : Z) (items : list Entry) (stop : option error) : result (list Entry) :=
  match items with
  | [] => match stop with None => Ok [] | Some e => Err e end
  | kv :: items' =>
      if skipped o (en_key kv) then scan_loop o n items' stop
      else if (0 <? so_limit o)%Z && (so_limit o <=? n + 1)%Z then Ok [kv]
      else rest ← scan_loop o (n + 1) items' stop; Ok (kv :: rest)
  end.

Lemma str_le_b a b : bool_decide (String.le a b) = negb (bool_decide (str_lt b a)).
Proof.
  rewrite <- bool_decide_not. apply bool_decide_ext. by rewrite str_not_lt.
Qed.

Lemma skipped_spec o k : skipped o k = false <-> scan_keep o k.
Proof.
  unfold skipped, scan_keep. rewrite !str_le_b. destruct (has_prefix (so_prefix o) k), (so_reverse o);
    repeat case_bool_decide; cbn; naive_solver.
Qed.

(** the loop returns the entries it does not skip, up to the limit *)
Lemma scan_loop_all o n items :
  (0 <= n)%Z -> (so_limit o <= 0 \/ n < so_limit o)%Z ->
  scan_loop o n items None =
    Ok (let l := filter (fun e => scan_keep o (en_key e)) items in
        if decide (0 < so_limit o)%Z then take (Z.to_nat (so_limit o - n)) l else l).
Proof.
  revert n. induction items as [|kv items IH]; intros n Hn Hl; cbn [scan_loop].
  { cbn. by destruct (decide _); rewrite ?take_nil. }
  rewrite filter_cons. destruct (skipped o (en_key kv)) eqn:Hs.
  - assert (Hk : ~ scan_keep o (en_key kv)) by (rewrite <- skipped_spec; congruence).
    rewrite (decide_False (P := scan_keep o (en_key kv))) by exact Hk. by apply IH.
  - apply skipped_spec in Hs. rewrite (decide_True (P := scan_keep o (en_key kv))) by exact Hs. cbv zeta.
    destruct (decide (0 < so_limit o)%Z) as [Hpos|Hpos].
    + replace (Z.to_nat (so_limit o - n)) with (S (Z.to_nat (so_limit o - (n + 1)))) by lia.
      destruct (Z.ltb_spec 0 (so_limit o)); [|lia]. destruct (Z.leb_spec (so_limit o) (n + 1)); cbn [andb].
      * replace (Z.to_nat (so_limit o - (n + 1))) with O by lia. reflexivity.
      * by rewrite IH by lia.
    + destruct (Z.ltb_spec 0 (so_limit o)); [lia|]. cbn [andb]. by rewrite IH by lia.
Qed.

(** an iterator that fails may still have yielded enough *)
Lemma scan_loop_cut o n items rest e out :
  scan_loop o n items (Some e) = Ok out -> scan_loop o n (items ++ rest) None = Ok out.
Proof.
  revert n out. induction items as [|kv items IH]; intros n out; cbn [scan_loop app]; [done|].
  destruct (skipped o (en_key kv)); [apply IH|]. destruct (_ && _); [done|]. intros H.
  destruct (scan_loop o (n + 1) items (Some e)) as [l|] eqn:E; [|done]. by rewrite (IH _ _ E).
Qed.

Lemma range_keys m kr rv k :
  k ∈ en_key <$> range_entries m kr rv <-> is_Some (m !! k) /\ in_range kr k.
Proof.
  unfold range_entries. rewrite <- list_fmap_compose. unfold compose. cbn [en_key]. rewrite list_fmap_id.
  assert (H : forall l : list string, k ∈ (if rv then reverse l else l) <-> k ∈ l).
  { intros l. destruct rv; [apply elem_of_reverse|done]. }
  rewrite H, merge_sort_Permutation, list_elem_of_filter, list_elem_of_fmap. split.
  - intros (Hk & [k' v] & -> & Hv%elem_of_map_to_list). eauto.
  - intros ([v Hv] & Hk). split; [done|]. exists (k, v). split; [done|]. by apply elem_of_map_to_list.
Qed.

Lemma range_sorted m kr (rv : bool) :
  StronglySorted (if rv then flip str_lt else str_lt) (en_key <$> range_entries m kr rv).
Proof.
  unfold range_entries. rewrite <- list_fmap_compose. unfold compose. cbn [en_key]. rewrite list_fmap_id.
  set (l := merge_sort _ _).
  assert (StronglySorted str_lt l) as Hs.
  { apply sorted_strict; [apply StronglySorted_merge_sort; apply _|].
    unfold l. rewrite merge_sort_Permutation. apply NoDup_filter, NoDup_fst_map_to_list. }
  destruct rv; [|done]. by apply StronglySorted_reverse.
Qed.

Lemma fmap_filter_keys (P : string -> Prop) `{!forall k, Decision (P k)} (es : list Entry) :
  en_key <$> filter (fun e => P (en_key e)) es = filter P (en_key <$> es).
Proof.
  induction es as [|e es IH]; [done|]. rewrite fmap_cons, !filter_cons. case_decide; [rewrite fmap_cons; by f_equal|done].
Qed.

(** entries of [m] are determined by their keys *)
Lemma entries_ext (m : kvmap) (l1 l2 : list Entry) :
  (forall e, e ∈ l1 -> en_value e = default EmptyString (m !! en_key e)) ->
  (forall e, e ∈ l2 -> en_value e = default EmptyString (m !! en_key e)) ->
  en_key <$> l1 = en_key <$> l2 -> l1 = l2.
Proof.
  revert l2. induction l1 as [|[k v] l1 IH]; intros [|[k' v'] l2] H1 H2 E; try done.
  cbn in E. injection E as -> E. f_equal.
  - f_equal. pose proof (H1 (MkEntry k' v) ltac:(by left)) as E1. pose proof (H2 (MkEntry k' v') ltac:(by left)) as E2.
    cbn in E1, E2. congruence.
  - apply IH; [intros; apply H1; by right|intros; apply H2; by right|done].
Qed.

Lemma range_values m kr rv e :
  e ∈ range_entries m kr rv -> en_value e = default EmptyString (m !! en_key e).
Proof. unfold range_entries. by intros (k & -> & _)%list_elem_of_fmap. Qed.

Lemma kept_entries m o :
  filter (fun e => scan_keep o (en_key e))
    (range_entries m (keyRange (so_prefix o) (so_start_after o) (so_reverse o)) (so_reverse o))
  = scanEntries m (unlimited o).
Proof.
  apply (entries_ext m).
  - intros e [_ He]%list_elem_of_filter. by eapply range_values.
  - unfold scanEntries. by intros e (k & -> & _)%list_elem_of_fmap.
  - rewrite (fmap_filter_keys (scan_keep o)), scanEntries_keys. apply (strict_sorted_ext (scan_order o)).
    + apply StronglySorted_filter, range_sorted.
    + apply scan_keys_unlimited_sorted.
    + intros k. rewrite list_elem_of_filter, range_keys, scan_keys_unlimited_elem.
      split; [tauto|]. intros [Hm Hk]. split; [done|]. split; [done|]. by apply keyRange_complete.
Qed.

Lemma scan_range (m : kvmap) (o : ScanOptions) :
  scan_loop o 0 (range_entries m (keyRange (so_prefix o) (so_start_after o) (so_reverse o)) (so_reverse o)) None
  = Ok (scanEntries m o).
Proof.
  rewrite scan_loop_all by lia. rewrite kept_entries. cbv zeta. f_equal.
  unfold scanEntries. rewrite (scan_keys_limit m o). unfold scan_limit. rewrite Z.sub_0_r.
  set (l := scan_keys m (unlimited o)). repeat case_decide; try lia.
  - by rewrite fmap_take.
  - rewrite take_ge; [done|]. rewrite length_fmap. lia.
  - done.
Qed.

(** C17: The range scan is the scan of the in-memory engine. Whatever the prefix,
    the continuation key, the limit and the direction, the entries of the
    range [keyRange] builds, in the order of the iteration, filtered and cut
    by [scanWith], are [scanEntries]. *)
Theorem scanWith_is_scanEntries (m : kvmap) (o : ScanOptions) :
  scan_loop o 0 (range_entries m (keyRange (so_prefix o) (so_start_after o) (so_reverse o)) (so_reverse o)) None
  = Ok (scanEntries m o).
Proof. apply scan_range. Qed.
