(* ===== verification/Slate.v ===== *)
(** * The SlateDB engine (storage/slatedb.go, storage/slatedb_stub.go)

    [slateDBKV] adapts a SlateDB database to the [KV] interface. The binding
    to the database is not part of the repository: [SlateDB] is what the
    adapter calls of it, and [SlateDBLaws] the documented behaviour of an
    ordered key/value store with transactions. The adapter meets the contract
    of [Storage] whatever the database, so that every theorem about the
    collections holds on it. *)
From S2P Require Import Prelude GoBase Storage Logic Scan KeyRange.

(** what an iterator yields, and the error it ends with *)
Record iterator (E : Type) := MkIterator { it_items : list Entry; it_error : option E }.
Arguments MkIterator {E} it_items it_error.
Arguments it_items {E} _.
Arguments it_error {E} _.

Inductive CloseReason := CloseReasonClean | CloseReasonFenced | CloseReasonOther.

#[export] Instance close_reason_eq_dec : EqDecision CloseReason.
Proof. solve_decision. Defined.

(** the native binding: databases [D], transactions [T], errors [E] *)
Class SlateDB (D T E : Type) := {
  db_Get : D -> string -> option string + E;
  db_Put : D -> string -> string -> D * option E;
  db_Delete : D -> string -> D * option E;
  db_Scan : D -> KeyRange -> bool -> iterator E + E;
  db_Begin : D -> T + E;
  db_Shutdown : D -> D * option E;
  txn_Get : T -> string -> option string + E;
  txn_Put : T -> string -> string -> T * option E;
  txn_Delete : T -> string -> T * option E;
  txn_Scan : T -> KeyRange -> bool -> iterator E + E;
  txn_Commit : D -> T -> D * option E;
  txn_Rollback : D -> T -> D;
  (** [errors.As] to [ErrorClosed] and [ErrorTransaction], and the error as
      an [error] *)
  as_ErrorClosed : E -> option CloseReason;
  as_ErrorTransaction : E -> bool;
  native_error : E -> error;
}.

Section adapter.
Context {D T E : Type} `{DB : SlateDB D T E}.

Record slateDBKV := MkSlate { db : D; closed : bool }.

Definition mapErr (err : E) : error :=
  match as_ErrorClosed err with
  | Some CloseReasonFenced => Join ErrFenced (native_error err)
  | Some _ => Join ErrClosed (native_error err)
  | None => if as_ErrorTransaction err then Join ErrConflict (native_error err) else native_error err
  end.

Definition beginOperation (s : slateDBKV) (e : env) : option error * env :=
  let '(o, e) := poll_ctx e in
  (match o with
   | Some er => Some er
   | None => if closed s then Some ErrClosed else None
   end, e).

(** a value as [Get] returns it *)
Definition got (r : option string + E) : result string :=
  match r with
  | inr err => Err (mapErr err)
  | inl None => Err ErrNotFound
  | inl (Some v) => Ok v
  end.
(** [mapErr] of a possible error *)
Definition mapped (o : option E) : result unit :=
  match o with Some err => Err (mapErr err) | None => Ok tt end.

Definition Get (s : slateDBKV) (e : env) (key : string) : result string * env :=
  let '(o, e) := beginOperation s e in
  (match o with Some er => Err er | None => got (db_Get (db s) key) end, e).

Definition Put (s : slateDBKV) (e : env) (key value : string) : result unit * slateDBKV * env :=
  let '(o, e) := beginOperation s e in
  match o with
  | Some er => (Err er, s, e)
  | None => let '(d, err) := db_Put (db s) key value in (mapped err, MkSlate d (closed s), e)
  end.

Definition Delete (s : slateDBKV) (e : env) (key : string) : result unit * slateDBKV * env :=
  let '(o, e) := beginOperation s e in
  match o with
  | Some er => (Err er, s, e)
  | None => let '(d, err) := db_Delete (db s) key in (mapped err, MkSlate d (closed s), e)
  end.

Definition scanWith (open : KeyRange -> iterator E + E) (opts : ScanOptions) : result (list Entry) :=
  match open (keyRange (so_prefix opts) (so_start_after opts) (so_reverse opts)) with
  | inr err => Err (mapErr err)
  | inl it => scan_loop opts 0 (it_items it) (mapErr <$> it_error it)
  end.

Definition Scan (s : slateDBKV) (e : env) (opts : ScanOptions) : result (list Entry) * env :=
  let '(o, e) := beginOperation s e in
  (match o with Some er => Err er | None => scanWith (fun kr => db_Scan (db s) kr (so_reverse opts)) opts end, e).

(** [slateDBTx]: the transaction behind the [Tx] interface *)
Definition slateDBTx_Get (t : T) (key : string) : result string := got (txn_Get t key).
Definition slateDBTx_Put (t : T) (key value : string) : T * result unit :=
  let '(t', err) := txn_Put t key value in (t', mapped err).
Definition slateDBTx_Delete (t : T) (key : string) : T * result unit :=
  let '(t', err) := txn_Delete t key in (t', mapped err).
Definition slateDBTx_Scan (t : T) (opts : ScanOptions) : result (list Entry) :=
  scanWith (fun kr => txn_Scan t kr (so_reverse opts)) opts.

#[export] Instance slateDBTx : Tx T := {
  tx_get := slateDBTx_Get; tx_put := slateDBTx_Put; tx_delete := slateDBTx_Delete; tx_scan := slateDBTx_Scan;
}.

Definition Transaction {V} (s : slateDBKV) (e : env) (v : V) (f : fn V unit) :
    V * result unit * slateDBKV * env :=
  let '(o, e) := beginOperation s e in
  match o with
  | Some er => (v, Err er, s, e)
  | None =>
      match db_Begin (db s) with
      | inr err => (v, Err (mapErr err), s, e)
      | inl txn =>
          let '((v', r), txn, e) := run_tx (f v) txn e in
          match r with
          | Err er => (v', Err er, MkSlate (txn_Rollback (db s) txn) (closed s), e)
          | Ok _ => let '(d, err) := txn_Commit (db s) txn in (v', mapped err, MkSlate d (closed s), e)
          end
      end
  end.

Definition Close (s : slateDBKV) : slateDBKV * result unit :=
  if closed s then (s, Err ErrClosed)
  else let '(d, err) := db_Shutdown (db s) in (MkSlate d true, mapped err).

#[export] Instance slate_kv : KV slateDBKV := {
  KV_Get := Get; KV_Put := Put; KV_Delete := Delete; KV_Scan := Scan;
  KV_Transaction := @Transaction; KV_Close := Close;
}.
End adapter.
Arguments slateDBKV D : clear implicits.

(** ** Opening a database *)

Record SlateDBConfig := MkSlateDBConfig { cf_Path : string; cf_ObjectStoreURL : string; cf_EnvFile : string }.

Section open.
Context {D O E : Type} (native : E -> error).
Context (ObjectStoreResolve : string -> O + E) (ObjectStoreFromEnv : option string -> O + E).
Context (Build : string -> O -> D + E).

(** [NewSlateDBKV] and the object stores it destroyed *)
Definition NewSlateDBKV (cfg : SlateDBConfig) : result (slateDBKV D) * list O :=
  let store :=
    if negb (bool_decide (cf_ObjectStoreURL cfg = EmptyString)) then ObjectStoreResolve (cf_ObjectStoreURL cfg)
    else ObjectStoreFromEnv (if bool_decide (cf_EnvFile cfg = EmptyString) then None else Some (cf_EnvFile cfg)) in
  match store with
  | inr err => (Err (native err), [])
  | inl store =>
      match Build (cf_Path cfg) store with
      | inr err => (Err (native err), [store])
      | inl d => (Ok (MkSlate d false), [])
      end
  end.
End open.

(** slatedb_stub.go: the constructor of a binary built without SlateDB *)
Definition OpenSlateDB_stub {K} (cfg : SlateDBConfig) : result K := Err ErrSlateDBUnavailable.

(** ** The contract *)

(** [it] yields [all], or fails somewhere on the way *)
Definition yields_all {E} (r : iterator E + E) (all : list Entry) : Prop :=
  match r with
  | inr _ => True
  | inl it => match it_error it with
              | None => it_items it = all
              | Some _ => exists rest, all = it_items it ++ rest
              end
  end.

Class SlateDBLaws (D T E : Type) `{SlateDB D T E} := {
  db_contents : D -> kvmap;
  txn_view : T -> kvmap;
  native_engine e : engine_error (native_error e);
  db_Get_ok d k v : db_Get d k = inl v -> v = db_contents d !! k;
  db_Put_ok d k v d' o : db_Put d k v = (d', o) ->
    db_contents d' = match o with None => <[k := v]> (db_contents d) | Some _ => db_contents d end;
  db_Delete_ok d k d' o : db_Delete d k = (d', o) ->
    db_contents d' = match o with None => delete k (db_contents d) | Some _ => db_contents d end;
  db_Scan_ok d kr rv : yields_all (db_Scan d kr rv) (range_entries (db_contents d) kr rv);
  db_Begin_ok d t : db_Begin d = inl t -> txn_view t = db_contents d;
  txn_Get_ok t k v : txn_Get t k = inl v -> v = txn_view t !! k;
  txn_Put_ok t k v t' o : txn_Put t k v = (t', o) ->
    txn_view t' = match o with None => <[k := v]> (txn_view t) | Some _ => txn_view t end;
  txn_Delete_ok t k t' o : txn_Delete t k = (t', o) ->
    txn_view t' = match o with None => delete k (txn_view t) | Some _ => txn_view t end;
  txn_Scan_ok t kr rv : yields_all (txn_Scan t kr rv) (range_entries (txn_view t) kr rv);
  txn_Commit_ok d t d' o : txn_Commit d t = (d', o) ->
    db_contents d' = match o with None => txn_view t | Some _ => db_contents d end;
  txn_Rollback_ok d t : db_contents (txn_Rollback d t) = db_contents d;
}.

Section contract.
Context {D T E : Type} `{DB : SlateDB D T E, !SlateDBLaws D T E}.

Lemma mapErr_engine err : engine_error (mapErr err).
Proof.
  pose proof (native_engine err) as Hn. unfold engine_error in *. unfold mapErr.
  destruct (as_ErrorClosed err) as [[]|]; [| | |destruct (as_ErrorTransaction err)]; cbn; rewrite ?Hn; try done.
  all: by rewrite ?orb_false_r, ?bool_decide_false by done.
Qed.

Lemma beginOperation_engine (s : slateDBKV D) e er e' : beginOperation s e = (Some er, e') -> engine_error er.
Proof.
  unfold beginOperation, poll_ctx, engine_error.
  destruct (ctx_done e (polls e)) as [[]|]; simpl; intros; simplify_eq; [done..|].
  destruct (closed s); by simplify_eq.
Qed.

Lemma got_resp (r : option string + E) m k : (forall v, r = inl v -> v = m !! k) -> get_resp m k (got r).
Proof.
  destruct r as [v|err]; intros Hr; cbn.
  - rewrite (Hr v eq_refl). pose proof (get_resp_ok m k) as Hg. unfold kv_lookup in Hg. by destruct (m !! k).
  - constructor. apply mapErr_engine.
Qed.

Lemma scanWith_resp (open : KeyRange -> iterator E + E) opts m :
  (forall kr, yields_all (open kr) (range_entries m kr (so_reverse opts))) ->
  scanWith open opts = Ok (scanEntries m opts) \/ exists er, scanWith open opts = Err er.
Proof.
  intros Ho. unfold scanWith. specialize (Ho (keyRange (so_prefix opts) (so_start_after opts) (so_reverse opts))).
  destruct (open _) as [[items stop]|err]; [|eauto]. unfold yields_all in Ho. cbn [it_items it_error] in *.
  destruct stop as [err|]; cbn [fmap option_fmap option_map].
  - destruct (scan_loop opts 0 items (Some (mapErr err))) as [out|er] eqn:El; [|eauto]. left.
    destruct Ho as [rest Ho]. apply (scan_loop_cut _ _ _ rest) in El. rewrite <- Ho, scan_range in El. by simplify_eq.
  - left. rewrite Ho. apply scan_range.
Qed.

(** a callback on a native transaction is one of the callbacks the contract
    allows on its view *)
Lemma run_slate_tx {A} (p : tx A) t e a t' e' :
  run_tx p t e = (a, t', e') -> tx_runs p (txn_view t) a (txn_view t').
Proof.
  revert t e. induction p; intros tr e0; cbn [run_tx].
  - intros; simplify_eq. constructor.
  - intros Hr. eapply runs_get; [|by eapply H]. apply got_resp. intros v. apply txn_Get_ok.
  - cbn. unfold slateDBTx_Put. destruct (txn_Put tr k v) as [t1 o] eqn:E1. pose proof (txn_Put_ok _ _ _ _ _ E1) as Hv.
    intros Hr. apply H in Hr. rewrite Hv in Hr. destruct o as [err|]; [by eapply runs_put_fail|by apply runs_put].
  - cbn. unfold slateDBTx_Delete. destruct (txn_Delete tr k) as [t1 o] eqn:E1. pose proof (txn_Delete_ok _ _ _ _ E1) as Hv.
    intros Hr. apply H in Hr. rewrite Hv in Hr. destruct o as [err|]; [by eapply runs_delete_fail|by apply runs_delete].
  - intros Hr. apply H in Hr. cbn [tx_scan slateDBTx] in Hr. unfold slateDBTx_Scan in Hr.
    destruct (scanWith_resp (fun kr => txn_Scan tr kr (so_reverse o)) o (txn_view tr) (fun kr => txn_Scan_ok tr kr _))
      as [Eq|[er Eq]]; rewrite Eq in Hr; [apply runs_scan; exact Hr|eapply runs_scan_fail; exact Hr].
  - unfold read_clock. intros Hr. eapply runs_now. by eapply H.
  - unfold read_random. intros Hr. eapply runs_rand; [apply length_take_pad|by eapply H].
Qed.

#[export] Program Instance slate_contract : KVContract (slateDBKV D) := { contents s := db_contents (db s) }.
Next Obligation.
  intros s e key. cbn [KV_Get slate_kv]. unfold Get. destruct (beginOperation s e) as [[er|] e1] eqn:E1; cbn [fst].
  - constructor. by eapply beginOperation_engine.
  - apply got_resp. intros v. apply db_Get_ok.
Qed.
Next Obligation.
  intros s e key v r s' e'. cbn [KV_Put slate_kv]. unfold Put. destruct (beginOperation s e) as [[er|] e1]; [intros; simplify_eq; right; eauto|].
  destruct (db_Put (db s) key v) as [d o] eqn:Ep. intros; simplify_eq. cbn. rewrite (db_Put_ok _ _ _ _ _ Ep).
  destruct o; [right|left]; cbn; eauto.
Qed.
Next Obligation.
  intros s e key r s' e'. cbn [KV_Delete slate_kv]. unfold Delete. destruct (beginOperation s e) as [[er|] e1]; [intros; simplify_eq; right; eauto|].
  destruct (db_Delete (db s) key) as [d o] eqn:Ep. intros; simplify_eq. cbn. rewrite (db_Delete_ok _ _ _ _ Ep).
  destruct o; [right|left]; cbn; eauto.
Qed.
Next Obligation.
  intros s e o. cbn [KV_Scan slate_kv]. unfold Scan. destruct (beginOperation s e) as [[er|] e1]; cbn [fst]; [right; eauto|].
  apply scanWith_resp. intros kr. apply db_Scan_ok.
Qed.
Next Obligation.
  intros V s e v f v' r s' e'. cbn [KV_Transaction slate_kv]. unfold Transaction. destruct (beginOperation s e) as [[er|] e1]; [intros; simplify_eq; constructor|].
  destruct (db_Begin (db s)) as [txn|err] eqn:Eb; [|intros; simplify_eq; constructor].
  apply db_Begin_ok in Eb. destruct (run_tx (f v) txn e1) as [[[v1 r1] t1] e2] eqn:Er.
  apply run_slate_tx in Er. rewrite Eb in Er. destruct r1 as [[]|er].
  - destruct (txn_Commit (db s) t1) as [d o] eqn:Ec. intros; simplify_eq. cbn. rewrite (txn_Commit_ok _ _ _ _ Ec).
    destruct o as [err|]; cbn; [by eapply resp_stale|by eapply resp_commit].
  - intros; simplify_eq. cbn. rewrite txn_Rollback_ok. by eapply resp_abort.
Qed.
End contract.
