(* ===== verification/SlateProps.v ===== *)
(** * The SlateDB engine: properties

    The contract on every database, how native errors are reported, and the
    life of a connection; with a database that is a map as an example. *)
From S2P Require Import Prelude GoBase Storage Logic Scan MemoryKV MemoryBlob.
From S2P Require Import Sequential Testing.
From S2P Require Import KeyRange Slate.

(** ** A database that is a map

    It reports that a key cannot be written when the value is longer than
    400 bytes. *)
#[export] Instance map_db : SlateDB kvmap kvmap string := {
  db_Get m k := inl (m !! k);
  db_Put m k v := if (String.length v <=? 400)%nat then (<[k := v]> m, None) else (m, Some "too long"%stdpp);
  db_Delete m k := (delete k m, None);
  db_Scan m kr rv := inl (MkIterator (range_entries m kr rv) None);
  db_Begin m := inl m;
  db_Shutdown m := (m, None);
  txn_Get t k := inl (t !! k);
  txn_Put t k v := if (String.length v <=? 400)%nat then (<[k := v]> t, None) else (t, Some "too long"%stdpp);
  txn_Delete t k := (delete k t, None);
  txn_Scan t kr rv := inl (MkIterator (range_entries t kr rv) None);
  txn_Commit m t := (t, None);
  txn_Rollback m t := m;
  as_ErrorClosed e := if bool_decide (e = "fenced"%stdpp) then Some CloseReasonFenced else None;
  as_ErrorTransaction e := bool_decide (e = "conflict"%stdpp);
  native_error e := Plain e;
}.

#[export, program] Instance map_db_laws : SlateDBLaws kvmap kvmap string := {
  db_contents m := m; txn_view t := t;
}.
Solve Obligations with
  (cbn; intros; try done; try (case_match; by simplify_eq); by simplify_eq).

(** C18: Every program of the collections, run on the SlateDB adapter over any
    database and transactions that keep their documented laws, only takes
    steps of the storage contract: what is proved of the collections for every
    engine holds on SlateDB. *)
Theorem slate_implements_contract {D T E} `{DB : SlateDB D T E} (L : SlateDBLaws D T E) `{BlobContract B} {A}
    (p : prog A) (s : slateDBKV D) (b : B) (e : env) (a : A) (s' : slateDBKV D) (b' : B) (e' : env) :
  run p s b e = (a, s', b', e') -> steps p (view s b) (Ret a) (view s' b').
Proof. apply run_steps. Qed.

(** reading a key back in the transaction that wrote it *)
Definition read_back : prog (string * result unit) :=
  KvTransaction EmptyString (tPut "k" "v";; r ← tGet "k"; match r with Ok x => assign x | Err e => raise e end)
    (fun v r => Ret (v, r)).

Lemma slate_implements_contract_witness :
  let s := MkSlate (∅ : kvmap) false in
  exists s', run read_back s NewMemoryBlobStore test_env = (("v"%stdpp, Ok tt), s', NewMemoryBlobStore, polled test_env) /\
    steps read_back (view s NewMemoryBlobStore) (Ret ("v"%stdpp, Ok tt)) (view s' NewMemoryBlobStore).
Proof.
  cbv zeta. exists (MkSlate (<["k" := "v"]> ∅) false).
  assert (Hr : run read_back (MkSlate (∅ : kvmap) false) NewMemoryBlobStore test_env
    = (("v"%stdpp, Ok tt), MkSlate (<["k" := "v"]> ∅) false, NewMemoryBlobStore, polled test_env)) by reflexivity.
  split; [exact Hr|]. exact (slate_implements_contract map_db_laws _ _ _ _ _ _ _ _ Hr).
Defined.

(** ** Errors *)

(** How native errors are reported. A closed database is [ErrFenced] when
    the writer was fenced and [ErrClosed] otherwise, a failed transaction is
    [ErrConflict] (and nothing else is, so that the collections retry exactly
    those), and the native error stays recognisable. *)
Theorem slate_errors_classified {D T E} `{DB : SlateDB D T E} (err : E) :
  (forall s, s ∈ [ErrFenced; ErrClosed; ErrConflict] -> errors_is (native_error err) s = false) ->
  errors_is (mapErr err) ErrFenced = bool_decide (as_ErrorClosed err = Some CloseReasonFenced) /\
  errors_is (mapErr err) ErrClosed =
    bool_decide (is_Some (as_ErrorClosed err)) && negb (bool_decide (as_ErrorClosed err = Some CloseReasonFenced)) /\
  errors_is (mapErr err) ErrConflict = negb (bool_decide (is_Some (as_ErrorClosed err))) && as_ErrorTransaction err /\
  forall target, errors_is (native_error err) target = true -> errors_is (mapErr err) target = true.
Proof.
  intros Hn. pose proof (Hn ErrFenced ltac:(set_solver)) as H1. pose proof (Hn ErrClosed ltac:(set_solver)) as H2.
  pose proof (Hn ErrConflict ltac:(set_solver)) as H3. unfold mapErr.
  destruct (as_ErrorClosed err) as [[]|]; [| | |destruct (as_ErrorTransaction err)]; cbn [errors_is];
    rewrite ?H1, ?H2, ?H3; (split; [by vm_compute|]); (split; [by vm_compute|]); (split; [by vm_compute|]);
    intros target Ht; rewrite ?Ht, ?orb_true_r; done.
Qed.

Lemma slate_errors_classified_witness :
  (forall s, s ∈ [ErrFenced; ErrClosed; ErrConflict] -> errors_is (native_error "conflict"%stdpp) s = false) /\
  errors_is (mapErr "conflict"%stdpp) ErrConflict = true.
Proof.
  assert (H : forall s, s ∈ [ErrFenced; ErrClosed; ErrConflict] -> errors_is (native_error "conflict"%stdpp) s = false).
  { intros s Hs. repeat (apply elem_of_cons in Hs as [->|Hs]; [reflexivity|]). by apply not_elem_of_nil in Hs. }
  split; [exact H|].
  exact (proj1 (proj2 (proj2 (slate_errors_classified "conflict"%stdpp H)))).
Defined.

(** ** Opening *)

(** Opening a database that does not exist resolves its object store exactly
    once and destroys it again when the database cannot be built; the stub of
    a binary without SlateDB always refuses. *)
Lemma open_releases {D O E} (native : E -> error) resolve (from_env : option string -> O + E) (build : string -> O -> D + E) cfg :
  let '(r, destroyed) := NewSlateDBKV native resolve from_env build cfg in
  (is_ok r = true -> destroyed = []) /\
  (forall o, destroyed = [o] -> is_ok r = false /\
     (cf_ObjectStoreURL cfg <> EmptyString -> resolve (cf_ObjectStoreURL cfg) = inl o) /\
     exists err, build (cf_Path cfg) o = inr err /\ r = Err (native err)).
Proof.
  unfold NewSlateDBKV. set (store := if negb _ then _ else _).
  destruct store as [o|err] eqn:Es; [|by split].
  destruct (build (cf_Path cfg) o) as [d|err] eqn:Eb; [by split|]. split; [done|].
  intros o' [= ->]. split; [done|]. split; [|eauto]. intros Hu. unfold store in Es.
  by rewrite bool_decide_false in Es by done.
Qed.
