(* ===== verification/ExactReader.v ===== *)
(** * exactSizeReader (storage/s3.go)

    The reader that validates a declared length while the body streams
    through it, over an arbitrary underlying [io.Reader]. *)
From S2P Require Import Prelude GoBase Storage MemoryBlob.
Local Open Scope Z_scope.

(** how a [Read] call may end *)
Inductive read_end := EOF | Fails (e : error).

Section exact.
(** the underlying reader: [read u n] is [Read] with a buffer of [n] bytes *)
Context {R : Type} (read : R -> Z -> string * option read_end * R).

Record exactSizeReader := MkExact { under : R; remaining : Z; validated : bool }.

Definition len (s : string) : Z := Z.of_nat (String.length s).

(** [Read] when [r.ctx.Err()] is [ctx] *)
Definition Read (ctx : option error) (r : exactSizeReader) (n : Z) : string * option read_end * exactSizeReader :=
  match ctx with
  | Some e => (EmptyString, Some (Fails e), r)
  | None =>
      if validated r then (EmptyString, Some EOF, r)
      else if 0 <? remaining r then
        let n := if remaining r <? n then remaining r else n in
        let '(p, err, u) := read (under r) n in
        let r := MkExact u (remaining r - len p) (validated r) in
        match err with
        | Some EOF =>
            if 0 <? remaining r then (p, Some (Fails ErrSizeMismatch), r)
            else if len p =? 0 then (EmptyString, Some (Fails ErrSizeMismatch), r)
            else (p, None, r)
        | Some (Fails e) => (p, Some (Fails e), r)
        | None => (p, None, r)
        end
      else
        let '(p, err, u) := read (under r) 1 in
        let r := MkExact u (remaining r) (validated r) in
        if negb (len p =? 0) then (EmptyString, Some (Fails ErrSizeMismatch), r)
        else match err with
             | None => (EmptyString, None, r)
             | Some (Fails e) => (EmptyString, Some (Fails e), r)
             | Some EOF => (EmptyString, Some EOF, MkExact u (remaining r) true)
             end
  end.

(** a consumer: [Read] calls with these contexts and buffer sizes, up to the
    first that ends *)
Fixpoint drain (r : exactSizeReader) (calls : list (option error * Z)) : string * option read_end * exactSizeReader :=
  match calls with
  | [] => (EmptyString, None, r)
  | (ctx, n) :: calls =>
      let '(p, err, r) := Read ctx r n in
      match err with
      | Some _ => (p, err, r)
      | None => let '(q, err, r) := drain r calls in (p +:+ q, err, r)
      end
  end.

(** the underlying reader gave [d] on the way from [u] to [u'] *)
Inductive gave : R -> string -> R -> Prop :=
| gave_nil u : gave u EmptyString u
| gave_read u n p err u' q u'' : read u n = (p, err, u') -> gave u' q u'' -> gave u (p +:+ q) u''.

Lemma gave_one u n p err u' : read u n = (p, err, u') -> gave u p u'.
Proof. intros H. rewrite <- (str_app_nil_r p). eapply gave_read; [exact H|constructor]. Qed.

(** the contract of [io.Reader] *)
Context (Hlen : forall u n p err u', 0 <= n -> read u n = (p, err, u') -> len p <= n).

Lemma len_app a b : len (a +:+ b) = len a + len b.
Proof. unfold len. rewrite str_length_app. lia. Qed.
Lemma len_pos a : 0 <= len a.
Proof. unfold len. lia. Qed.
Lemma len_zero a : len a = 0 -> a = EmptyString.
Proof. destruct a; [done|]. unfold len. cbn. lia. Qed.

(** one call on a reader that has not been validated *)
Lemma Read_step ctx r n p err r' :
  validated r = false -> 0 <= remaining r -> 0 <= n -> Read ctx r n = (p, err, r') ->
  exists u1, gave (under r) p u1 /\ len p <= remaining r /\
    match err with
    | None => under r' = u1 /\ validated r' = false /\ remaining r' = remaining r - len p
    | Some EOF => p = EmptyString /\ remaining r = 0 /\ exists u2, read u1 1 = (EmptyString, Some EOF, u2)
    | Some (Fails _) => True
    end.
Proof.
  intros Hv Hr Hn. unfold Read. destruct ctx as [e|].
  { intros; simplify_eq. exists (under r'). split; [constructor|done]. }
  rewrite Hv. destruct (Z.ltb_spec 0 (remaining r)) as [Hpos|Hz].
  - set (n' := if remaining r <? n then remaining r else n).
    assert (Hn' : 0 <= n' <= remaining r) by (unfold n'; destruct (Z.ltb_spec (remaining r) n); lia).
    destruct (read (under r) n') as [[q er] u] eqn:Eq. pose proof (Hlen _ _ _ _ _ (proj1 Hn') Eq) as Hq.
    pose proof (gave_one _ _ _ _ _ Eq) as Hg. cbn [remaining validated].
    destruct er as [[|e]|]; [|intros; simplify_eq; exists u; split_and!; [done|lia|done]|intros; simplify_eq; exists u; split_and!; [done|lia|done..]].
    destruct (Z.ltb_spec 0 (remaining r - len q)); [intros; simplify_eq; exists u; split_and!; [done|lia|done]|].
    destruct (Z.eqb_spec (len q) 0) as [E0|]; intros; simplify_eq; exists u.
    + apply len_zero in E0 as ->. split_and!; [done|done|done].
    + split_and!; [done|lia|done..].
  - assert (remaining r = 0) as E0 by lia.
    destruct (read (under r) 1) as [[q er] u] eqn:Eq. cbn [remaining].
    destruct (Z.eqb_spec (len q) 0) as [Eq0|]; cbn [negb];
      [|intros; simplify_eq; exists (under r); split; [constructor|done]].
    apply len_zero in Eq0 as ->. pose proof (gave_one _ _ _ _ _ Eq) as Hg.
    destruct er as [[|e]|]; intros; simplify_eq.
    + exists (under r). split; [constructor|]. split; [done|]. split_and!; [done..|eauto].
    + exists u. split_and!; [done|unfold len; cbn; lia|done].
    + exists u. split_and!; [done|unfold len; cbn; lia|done|done|unfold len; cbn; lia].
Qed.

Lemma drain_spec r calls d err r' :
  validated r = false -> 0 <= remaining r -> Forall (fun c => 0 <= snd c) calls ->
  drain r calls = (d, err, r') ->
  exists u1, gave (under r) d u1 /\ len d <= remaining r /\
    (err = Some EOF -> len d = remaining r /\ exists u2, read u1 1 = (EmptyString, Some EOF, u2)).
Proof.
  intros Hv Hr Hc. revert r d Hv Hr. induction Hc as [|[ctx n] calls Hn Hc IH]; intros r d Hv Hr; cbn [drain].
  { intros; simplify_eq. exists (under r'). split; [constructor|]. by split. }
  destruct (Read ctx r n) as [[p e1] r1] eqn:E1. destruct (Read_step _ _ _ _ _ _ Hv Hr Hn E1) as (u1 & Hg & Hl & He).
  destruct e1 as [e1|].
  - intros; simplify_eq. exists u1. split; [done|]. split; [done|]. intros [= ->].
    destruct He as (-> & -> & Hu). by split.
  - destruct He as (<- & Hv1 & Hr1). destruct (drain r1 calls) as [[q e2] r2] eqn:E2.
    intros; simplify_eq. pose proof (len_pos p). destruct (IH r1 q Hv1 ltac:(lia) E2) as (u2 & Hg2 & Hl2 & He2).
    exists u2. rewrite len_app. split; [|split; [lia|]].
    + clear -Hg Hg2. induction Hg as [u|u n p err u' q' u'' H1 _ IH]; [exact Hg2|].
      rewrite <- str_app_assoc. eapply gave_read; [exact H1|by apply IH].
    + intros Ee. destruct (He2 Ee) as [Hlen2 Hu2]. split; [lia|done].
Qed.

(** C38: The reader never lets more bytes through than declared, lets through
    only what the underlying reader gave, and reports a clean end only if that
    was exactly the declared number of bytes and the underlying reader then
    ended cleanly; whatever the consumer's buffers, cancellations, short or
    empty reads. *)
Theorem exact_reader_validates (u : R) (size : Z) (calls : list (option error * Z)) (d : string) (err : option read_end)
    (r' : exactSizeReader) :
  0 <= size -> Forall (fun c => 0 <= snd c) calls -> drain (MkExact u size false) calls = (d, err, r') ->
  exists u1, gave u d u1 /\ len d <= size /\
    (err = Some EOF -> len d = size /\ exists u2, read u1 1 = (EmptyString, Some EOF, u2)).
Proof. intros Hs Hc Hd. by apply (drain_spec (MkExact u size false) calls d err r'). Qed.
End exact.

(** ** Byte readers *)

(** [bytes.Reader] *)
Definition bytes_read (s : string) (n : Z) : string * option read_end * string :=
  match s with
  | EmptyString => (EmptyString, Some EOF, EmptyString)
  | _ => (str_take (Z.to_nat n) s, None, str_drop (Z.to_nat n) s)
  end.

Lemma length_str_drop_le n s : String.length (str_drop n s) = (String.length s - n)%nat.
Proof. revert s. induction n as [|n IH]; intros [|a s]; cbn; [done..|apply IH]. Qed.
Lemma str_take_drop n s : str_take n s +:+ str_drop n s = s.
Proof. revert s. induction n as [|n IH]; intros [|a s]; cbn; [done..|]. change (String a (str_take n s +:+ str_drop n s) = String a s). by rewrite IH. Qed.

(** what the validation of [d] against a declared [size] amounts to *)
Definition exact_result (d : string) (size : Z) : string * option read_end :=
  if len d =? size then (d, Some EOF)
  else if len d <? size then (d, Some (Fails ErrSizeMismatch))
  else (str_take (Z.to_nat size) d, Some (Fails ErrSizeMismatch)).

(** Reading a body of bytes through the validation terminates and decides
    its length: within one call more than there are bytes, a consumer that
    offers buffers of at least one byte has either the whole body and a clean
    end, if the body has the declared size, or [ErrSizeMismatch], after at most
    the declared number of bytes. *)
Theorem exact_reader_decides (d : string) (size : Z) (calls : list Z) :
  0 <= size -> Forall (fun n => 1 <= n) calls -> (String.length d < length calls)%nat ->
  exists r', drain bytes_read (MkExact d size false) ((fun n => (None, n)) <$> calls)
    = (fst (exact_result d size), snd (exact_result d size), r').
Proof.
  intros Hs Hc. revert d size Hs. induction Hc as [|n calls Hn Hc IH]; intros d size Hs Hl; cbn [length] in Hl; [lia|].
  rewrite fmap_cons. cbn [drain]. unfold Read at 1. cbn [validated remaining under].
  destruct (Z.ltb_spec 0 size) as [Hpos|Hz].
  - set (n' := if size <? n then size else n).
    assert (Hn' : 1 <= n' <= size) by (unfold n'; destruct (Z.ltb_spec size n); lia).
    destruct d as [|a d]; cbn [bytes_read].
    { cbn [remaining]. change (len "") with 0. rewrite Z.sub_0_r. destruct (Z.ltb_spec 0 size); [|lia].
      eexists. unfold exact_result. change (len "") with 0. destruct (Z.eqb_spec 0 size); [lia|].
      destruct (Z.ltb_spec 0 size); [|lia]. reflexivity. }
    set (s := String a d) in *. assert (Hlt : len (str_take (Z.to_nat n') s) = Z.min n' (len s)).
    { unfold len. rewrite length_str_take. lia. }
    destruct (IH (str_drop (Z.to_nat n') s) (size - len (str_take (Z.to_nat n') s))) as [r' ->].
    { lia. }
    { rewrite length_str_drop_le. unfold s in *. cbn [String.length] in *. lia. }
    exists r'. f_equal. rewrite Hlt. assert (Hld : len (str_drop (Z.to_nat n') s) = len s - Z.min n' (len s)).
    { unfold len. rewrite length_str_drop_le. lia. }
    unfold exact_result. rewrite Hld.
    destruct (Z.eqb_spec (len s - Z.min n' (len s)) (size - Z.min n' (len s))), (Z.eqb_spec (len s) size); try lia;
      [cbn; by rewrite str_take_drop|].
    destruct (Z.ltb_spec (len s - Z.min n' (len s)) (size - Z.min n' (len s))), (Z.ltb_spec (len s) size); try lia;
      [cbn; by rewrite str_take_drop|].
    cbn [fst snd]. f_equal. replace (Z.min n' (len s)) with n' by lia.
    replace (Z.to_nat size) with (Z.to_nat n' + Z.to_nat (size - n'))%nat by lia.
    clear. generalize (Z.to_nat (size - n')). generalize (Z.to_nat n'). intros k j. generalize s. clear. intros s.
    revert s. induction k as [|k IH]; intros [|a s]; cbn; [done|done|by destruct j|].
    change (String a (str_take k s +:+ str_take j (str_drop k s)) = String a (str_take (k + j) s)). by rewrite IH.
  - assert (size = 0) as -> by lia. unfold exact_result. destruct d as [|a d]; cbn [bytes_read].
    { eexists. reflexivity. }
    change (Z.to_nat 1) with 1%nat. cbn [str_take]. unfold len. cbn [String.length negb Z.of_nat].
    eexists. reflexivity.
Qed.
