(* ===== verification/S3.v ===== *)
(** * The S3 blob store (storage/s3.go)

    [S3BlobStore] on an S3 client. The AWS SDK is not part of the repository:
    [S3Client] is what the store calls of it, [S3ClientLaws] the documented
    behaviour of an object store. *)
From S2P Require Import Prelude GoBase JsonLit Storage ExactReader.
Local Open Scope Z_scope.

(** a finite [io.Reader] read with a buffer of [n] bytes *)
Definition reader_read (r : reader) (n : Z) : string * option read_end * reader :=
  match rd_chunks r with
  | [] => (EmptyString, Some (match rd_err r with None => EOF | Some e => Fails e end), r)
  | c :: cs =>
      if len c <=? n then (c, None, MkReader cs (rd_err r))
      else (str_take (Z.to_nat n) c, None, MkReader (str_drop (Z.to_nat n) c :: cs) (rd_err r))
  end.

(** the [Body] of an upload *)
Inductive body :=
| RawBody (r : reader)
| ExactBody (x : @exactSizeReader reader).

(** a client [C] with errors [E] *)
Class S3Client (C E : Type) := {
  (** [uploader.Upload]: also the bytes of the caller's reader it consumed *)
  s3_Upload : C -> env -> string -> string -> body -> string * option E * C * env;
  (** [client.GetObject] with an optional [Range] *)
  s3_GetObject : C -> env -> string -> string -> option string -> (reader + E) * env;
  (** [client.HeadObject]: [ContentLength] and [ETag] *)
  s3_HeadObject : C -> env -> string -> string -> (option Z * option string + E) * env;
  s3_DeleteObject : C -> env -> string -> string -> option E * C * env;
  (** [errors.As] to an API error with a code and to [NoSuchKey] *)
  ErrorCode : E -> option string;
  as_NoSuchKey : E -> bool;
  s3_error : E -> error;
}.

Section store.
Context {C E : Type} `{CL : S3Client C E}.

Record S3BlobStore := MkS3 { client : C; bucket : string; prefix : string }.

Definition mapS3Err (err : E) : error :=
  match ErrorCode err with
  | Some code =>
      if bool_decide (code ∈ ["NoSuchKey"; "NotFound"; "NoSuchBucket"]%stdpp) || as_NoSuchKey err
      then Join ErrNotFound (s3_error err) else s3_error err
  | None => if as_NoSuchKey err then Join ErrNotFound (s3_error err) else s3_error err
  end.

Definition mapped_err (o : option E) : result unit :=
  match o with Some err => Err (mapS3Err err) | None => Ok tt end.

Definition fullKey (s : S3BlobStore) (key : string) : string := prefix s +:+ trim_slash key.

(** [fmt.Sprintf("bytes=%d-%d", lo, hi)] *)
Definition byte_range (lo hi : Z) : string :=
  "bytes=" +:+ of_codes (print_int lo) +:+ "-" +:+ of_codes (print_int hi).

(** [Put] with a reader that is not nil *)
Definition Put (s : S3BlobStore) (e : env) (key : string) (r : reader) (size : Z) :
    string * result unit * S3BlobStore * env :=
  let b := if 0 <=? size then ExactBody (MkExact r size false) else RawBody r in
  let '(d, err, c, e) := s3_Upload (client s) e (bucket s) (fullKey s key) b in
  (d, mapped_err err, MkS3 c (bucket s) (prefix s), e).

Definition got_body (o : reader + E) : result reader :=
  match o with inr err => Err (mapS3Err err) | inl out => Ok out end.

Definition Open (s : S3BlobStore) (e : env) (key : string) : result reader * env :=
  let '(out, e) := s3_GetObject (client s) e (bucket s) (fullKey s key) None in (got_body out, e).

Definition OpenRange (s : S3BlobStore) (e : env) (key : string) (lo hi : Z) : result reader * env :=
  if (lo <? 0) || (hi <? lo) then (Err (Plain "storage: invalid range [%d, %d)"), e)
  else if lo =? hi then (Ok (bytes_reader EmptyString), e)
  else let '(out, e) := s3_GetObject (client s) e (bucket s) (fullKey s key) (Some (byte_range lo (i64 (hi - 1)))) in
       (got_body out, e).

Definition Stat (s : S3BlobStore) (e : env) (key : string) : result BlobInfo * env :=
  let '(out, e) := s3_HeadObject (client s) e (bucket s) (fullKey s key) in
  (match out with
   | inr err => Err (mapS3Err err)
   | inl (size, etag) => Ok (MkBlobInfo key (default 0 size) (default EmptyString etag))
   end, e).

Definition Delete (s : S3BlobStore) (e : env) (key : string) : result unit * S3BlobStore * env :=
  let '(err, c, e) := s3_DeleteObject (client s) e (bucket s) (fullKey s key) in
  (mapped_err err, MkS3 c (bucket s) (prefix s), e).

(** [Close] is a no-op *)
Definition Close (s : S3BlobStore) : S3BlobStore * result unit := (s, Ok tt).

#[export] Instance s3_blobs : BlobStore S3BlobStore := {
  Blob_Put := Put;
  Blob_OpenRange s e key rg :=
    match rg with None => Open s e key | Some (lo, hi) => OpenRange s e key lo hi end;
  Blob_Stat := Stat;
  Blob_Delete := Delete;
  Blob_Close := Close;
}.
End store.
Arguments S3BlobStore C : clear implicits.

(** ** The constructor *)

Record S3Config (C : Type) := MkS3Config {
  s3c_Bucket : string; s3c_Prefix : string; s3c_Region : string; s3c_Endpoint : string;
  s3c_AccessKeyID : string; s3c_SecretAccessKey : string; s3c_ForcePathStyle : bool;
  s3c_PartSize : Z; s3c_Concurrency : Z;
  s3c_Client : option C;
}.
Arguments s3c_Bucket {C} _.
Arguments s3c_Prefix {C} _.
Arguments s3c_Region {C} _.
Arguments s3c_Endpoint {C} _.
Arguments s3c_AccessKeyID {C} _.
Arguments s3c_SecretAccessKey {C} _.
Arguments s3c_ForcePathStyle {C} _.
Arguments s3c_PartSize {C} _.
Arguments s3c_Concurrency {C} _.
Arguments s3c_Client {C} _.

(** the options passed to the SDK *)
Inductive load_option := WithRegion (r : string) | WithStaticCredentials (id secret : string).
Inductive client_option := BaseEndpoint (url : string) | UsePathStyle.
Inductive uploader_option := PartSize (n : Z) | Concurrency (n : Z).

Definition s3ClientOptions {C} (cfg : S3Config C) : list client_option :=
  (if bool_decide (s3c_Endpoint cfg = EmptyString) then [] else [BaseEndpoint (s3c_Endpoint cfg)]) ++
  (if s3c_ForcePathStyle cfg then [UsePathStyle] else []).

Definition loadOptions {C} (cfg : S3Config C) : list load_option :=
  (if bool_decide (s3c_Region cfg = EmptyString) then [] else [WithRegion (s3c_Region cfg)]) ++
  (if bool_decide (s3c_AccessKeyID cfg = EmptyString) then []
   else [WithStaticCredentials (s3c_AccessKeyID cfg) (s3c_SecretAccessKey cfg)]).

Definition uploaderOptions {C} (cfg : S3Config C) : list uploader_option :=
  (if 0 <? s3c_PartSize cfg then [PartSize (s3c_PartSize cfg)] else []) ++
  (if 0 <? s3c_Concurrency cfg then [Concurrency (s3c_Concurrency cfg)] else []).

(** [strings.TrimPrefix] and the closing slash *)
Definition normalPrefix (p : string) : string :=
  let p := trim_slash p in
  if negb (bool_decide (p = EmptyString)) && negb (ends_in_slash p) then p +:+ "/" else p.

(** [NewS3BlobStore]; [LoadDefaultConfig], [NewFromConfig] and [NewUploader],
    a client with the options of its uploader set, are the SDK's *)
Definition NewS3BlobStore {C A} (LoadDefaultConfig : list load_option -> result A)
    (NewFromConfig : A -> list client_option -> C) (NewUploader : C -> list uploader_option -> C) (cfg : S3Config C) : result (S3BlobStore C) :=
  if bool_decide (s3c_Bucket cfg = EmptyString) then Err (Plain "storage: s3 bucket is required") else
  c ← match s3c_Client cfg with
      | Some c => Ok c
      | None =>
          match LoadDefaultConfig (loadOptions cfg) with
          | Err e => Err (Wrap "storage: load aws config: %w" e)
          | Ok a => Ok (NewFromConfig a (s3ClientOptions cfg))
          end
      end;
  Ok (MkS3 (NewUploader c (uploaderOptions cfg)) (s3c_Bucket cfg) (normalPrefix (s3c_Prefix cfg))).

(** ** The laws of an object store *)

(** what an upload that succeeded has read from its body *)
Definition uploaded (b : body) (d : string) : Prop :=
  match b with
  | RawBody r => rd_err r = None /\ d = rd_data r
  | ExactBody x => exists calls x', Forall (fun c => 0 <= snd c) calls /\
      drain reader_read x calls = (d, Some EOF, x')
  end.

Class S3ClientLaws (C E : Type) `{S3Client C E} := {
  objects : C -> string -> kvmap;
  s3_error_engine err : engine_error (s3_error err);
  s3_Upload_ok c e bk key b d o c' e' : s3_Upload c e bk key b = (d, o, c', e') ->
    match o with
    | None => uploaded b d /\ objects c' bk = <[key := d]> (objects c bk)
    | Some _ => delete key (objects c' bk) = delete key (objects c bk)
    end;
  (** without a [Range], the whole object; with one, the bytes of the range
      that exist *)
  s3_GetObject_ok c e bk key out e' : s3_GetObject c e bk key None = (inl out, e') ->
    rd_err out = None -> objects c bk !! key = Some (rd_data out);
  s3_GetRange_ok c e bk key lo hi out e' : 0 <= lo <= hi ->
    s3_GetObject c e bk key (Some (byte_range lo hi)) = (inl out, e') -> rd_err out = None ->
    exists d, objects c bk !! key = Some d /\ rd_data out = str_take (Z.to_nat (hi + 1 - lo)) (str_drop (Z.to_nat lo) d);
  s3_HeadObject_ok c e bk key size etag e' : s3_HeadObject c e bk key = (inl (size, etag), e') ->
    exists d, objects c bk !! key = Some d /\ size = Some (len d);
  s3_DeleteObject_ok c e bk key o c' e' : s3_DeleteObject c e bk key = (o, c', e') ->
    match o with
    | None => objects c' bk = delete key (objects c bk)
    | Some _ => delete key (objects c' bk) = delete key (objects c bk)
    end;
}.

(** ** Finite readers *)

Lemma reader_read_len r n p err r' : 0 <= n -> reader_read r n = (p, err, r') -> len p <= n.
Proof.
  intros Hn. unfold reader_read. destruct (rd_chunks r) as [|c cs]; [intros; simplify_eq; unfold len; cbn; lia|].
  destruct (Z.leb_spec (len c) n); intros; simplify_eq; [done|]. unfold len in *. rewrite MemoryBlob.length_str_take. lia.
Qed.

Lemma reader_read_data r n p err r' : reader_read r n = (p, err, r') ->
  rd_data r = p +:+ rd_data r' /\ rd_err r' = rd_err r.
Proof.
  unfold reader_read, rd_data. destruct (rd_chunks r) as [|c cs] eqn:E; [intros; simplify_eq; by rewrite E|].
  destruct (len c <=? n); intros; simplify_eq; cbn [rd_chunks rd_err foldr]; split; try done.
  by rewrite str_app_assoc, str_take_drop.
Qed.

Lemma reader_read_end r n r' : reader_read r n = (EmptyString, Some EOF, r') -> rd_data r = EmptyString /\ rd_err r = None.
Proof.
  unfold reader_read, rd_data. destruct (rd_chunks r) as [|c cs]; [destruct (rd_err r); by intros|].
  destruct (len c <=? n); intros; simplify_eq.
Qed.

Lemma gave_data r d r' : gave reader_read r d r' -> rd_data r = d +:+ rd_data r' /\ rd_err r' = rd_err r.
Proof.
  induction 1 as [r|r n p err r' q r'' H1 _ [E1 E2]]; [done|]. destruct (reader_read_data _ _ _ _ _ H1) as [F1 F2].
  rewrite <- str_app_assoc, <- E1. split; [exact F1|congruence].
Qed.

(** a validated upload of a finite reader *)
Lemma uploaded_exact r size d : 0 <= size -> uploaded (ExactBody (MkExact r size false)) d ->
  d = rd_data r /\ rd_err r = None /\ len d = size.
Proof.
  intros Hs (calls & x' & Hc & Hd).
  destruct (drain_spec reader_read reader_read_len (MkExact r size false) calls d _ x' eq_refl Hs Hc Hd)
    as (r1 & Hg & _ & He). destruct (He eq_refl) as (Hl & u2 & Hr). cbn [under remaining] in *.
  apply gave_data in Hg as [E1 E2]. apply reader_read_end in Hr as [F1 F2].
  rewrite F1, str_app_nil_r in E1. split_and!; congruence.
Qed.

(** ** The operations over a lawful client *)

Section operations.
Context {C E : Type} `{CL : S3Client C E} {L : S3ClientLaws C E}.
Implicit Types (s : S3BlobStore C) (e : env).

(** the objects of the bucket *)
Definition stored_objects s : kvmap := objects (client s) (bucket s).

Lemma Put_spec s e key r size d res s' e' :
  Put s e key r size = (d, res, s', e') ->
  bucket s' = bucket s /\ prefix s' = prefix s /\
  match res with
  | Ok _ => d = rd_data r /\ rd_err r = None /\ (0 <= size -> Z.of_nat (String.length d) = size) /\
      stored_objects s' = <[fullKey s key := d]> (stored_objects s)
  | Err _ => delete (fullKey s key) (stored_objects s') = delete (fullKey s key) (stored_objects s)
  end.
Proof.
  unfold Put. set (b := if 0 <=? size then _ else _).
  destruct (s3_Upload (client s) e (bucket s) (fullKey s key) b) as [[[d1 o] c'] e1] eqn:Eu.
  pose proof (s3_Upload_ok _ _ _ _ _ _ _ _ _ Eu) as Hu. intros; simplify_eq. cbn [bucket prefix client].
  unfold stored_objects. cbn [bucket client].
  split; [done|]. split; [done|]. destruct o as [err|]; cbn [mapped_err]; [done|]. destruct Hu as [Hu Hobj].
  unfold b in Hu. destruct (Z.leb_spec 0 size) as [Hs|Hs].
  - apply uploaded_exact in Hu as (-> & -> & Hl); [|done]. by split_and!.
  - destruct Hu as [Hr ->]. split_and!; [done|done|lia|done].
Qed.

Lemma Open_spec s e key out e' :
  Open s e key = (Ok out, e') -> rd_err out = None -> stored_objects s !! fullKey s key = Some (rd_data out).
Proof.
  unfold Open. destruct (s3_GetObject _ _ _ _ _) as [[o|err] e1] eqn:Eg; cbn; intros; simplify_eq.
  by eapply s3_GetObject_ok.
Qed.

Lemma OpenRange_spec s e key lo hi : in_i64 hi ->
  if (lo <? 0) || (hi <? lo) then OpenRange s e key lo hi = (Err (Plain "storage: invalid range [%d, %d)"), e)
  else forall out e', OpenRange s e key lo hi = (Ok out, e') -> rd_err out = None ->
    (lo = hi /\ rd_data out = EmptyString) \/
    exists d, stored_objects s !! fullKey s key = Some d /\
      rd_data out = str_take (Z.to_nat (hi - lo)) (str_drop (Z.to_nat lo) d).
Proof.
  intros Hhi. unfold OpenRange. destruct (Z.ltb_spec lo 0), (Z.ltb_spec hi lo); cbn [orb]; try done.
  intros out e'. destruct (Z.eqb_spec lo hi) as [->|Hne]; [intros; simplify_eq; by left|].
  rewrite i64_id by (unfold in_i64 in *; lia).
  destruct (s3_GetObject _ _ _ _ _) as [[o|err] e1] eqn:Eg; cbn; intros; simplify_eq.
  right. apply s3_GetRange_ok in Eg; [|lia|done]. destruct Eg as (d & Hd & ->). exists d. split; [done|].
  do 2 f_equal. lia.
Qed.

Lemma Stat_spec s e key bi e' :
  Stat s e key = (Ok bi, e') ->
  bi_key bi = key /\ exists d, stored_objects s !! fullKey s key = Some d /\ bi_size bi = Z.of_nat (String.length d).
Proof.
  unfold Stat. destruct (s3_HeadObject _ _ _ _) as [[[size etag]|err] e1] eqn:Eh; cbn; intros; simplify_eq.
  split; [done|]. apply s3_HeadObject_ok in Eh as (d & Hd & ->). by exists d.
Qed.

Lemma Delete_spec s e key r s' e' :
  Delete s e key = (r, s', e') ->
  bucket s' = bucket s /\ prefix s' = prefix s /\
  match r with
  | Ok _ => stored_objects s' = delete (fullKey s key) (stored_objects s)
  | Err _ => delete (fullKey s key) (stored_objects s') = delete (fullKey s key) (stored_objects s)
  end.
Proof.
  unfold Delete. destruct (s3_DeleteObject _ _ _ _) as [[o c'] e1] eqn:Ed.
  apply s3_DeleteObject_ok in Ed. intros; simplify_eq. split; [done|]. split; [done|]. by destruct o.
Qed.

(** ** The contract

    The bodies of a store are the objects below its prefix. *)

(** what [m] has under [p], without that prefix *)
Definition below (p : string) (m : kvmap) : kvmap :=
  set_to_map (fun k => (str_drop (String.length p) k, default EmptyString (m !! k)))
    (filter (fun k => has_prefix p k = true) (dom m)).

Lemma lookup_below p m n : below p m !! n = m !! (p +:+ n).
Proof.
  apply option_eq. intros v. unfold below. rewrite lookup_set_to_map.
  - split.
    + intros (k & [[r ->]%has_prefix_spec Hk]%elem_of_filter & Ek). rewrite str_drop_app in Ek. simplify_eq.
      apply elem_of_dom in Hk as [x Hx]. by rewrite Hx.
    + intros Hv. exists (p +:+ n). rewrite str_drop_app, Hv. split; [|done].
      apply elem_of_filter. split; [apply has_prefix_app|]. apply elem_of_dom. eauto.
  - intros k k' [[r ->]%has_prefix_spec _]%elem_of_filter [[r' ->]%has_prefix_spec _]%elem_of_filter Ek.
    cbn in Ek. rewrite !str_drop_app in Ek. by rewrite Ek.
Qed.

Lemma below_insert p n d m : below p (<[p +:+ n := d]> m) = <[n := d]> (below p m).
Proof.
  apply map_eq. intros k. rewrite lookup_below. destruct (decide (k = n)) as [->|Hne].
  - by rewrite !lookup_insert_eq.
  - rewrite !lookup_insert_ne, lookup_below; [done| |]; [done|]. by intros ?%str_app_inj_l.
Qed.

Lemma below_delete p n m : below p (delete (p +:+ n) m) = delete n (below p m).
Proof.
  apply map_eq. intros k. rewrite lookup_below. destruct (decide (k = n)) as [->|Hne].
  - by rewrite !lookup_delete_eq.
  - rewrite !lookup_delete_ne, lookup_below; [done| |]; [done|]. by intros ?%str_app_inj_l.
Qed.

Lemma object_name_trim key : object_name key (trim_slash key).
Proof. by right. Qed.

#[export] Program Instance s3_contract : BlobContract (S3BlobStore C) := {
  bodies s := below (prefix s) (stored_objects s)
}.
Next Obligation.
  intros s e key rd size d r s' e' (Hb & Hp & Hr)%Put_spec. exists (trim_slash key).
  split; [apply object_name_trim|]. unfold fullKey in Hr. rewrite Hp, <- !below_delete.
  destruct r as [[]|er]; [left|right].
  - destruct Hr as (-> & ? & ? & ->). by rewrite below_insert.
  - rewrite Hr. eauto.
Qed.
Next Obligation.
  intros s e key rg rd e' Hrg Ho Hrd. exists (trim_slash key). split; [apply object_name_trim|].
  destruct rg as [[lo hi]|]; cbn in Ho; setoid_rewrite lookup_below; [|by eapply Open_spec].
  pose proof (OpenRange_spec s e key lo hi (Hrg _ _ eq_refl)) as Hs.
  destruct ((lo <? 0) || (hi <? lo)); [congruence|by eapply Hs].
Qed.
Next Obligation.
  intros s e key bi e' (_ & d & Hd & Hs)%Stat_spec. exists (trim_slash key), d.
  split; [apply object_name_trim|]. by rewrite lookup_below.
Qed.
Next Obligation.
  intros s e key r s' e' (Hb & Hp & Hr)%Delete_spec. exists (trim_slash key).
  split; [apply object_name_trim|]. unfold fullKey in Hr. rewrite Hp, <- !below_delete.
  destruct r as [[]|er]; [left|right]; rewrite Hr; eauto.
Qed.
End operations.
