(* ===== verification/S3Props.v ===== *)
(** * The S3 blob store: properties

    The declared size is enforced while the body streams, and what a store
    over a lawful client writes and reads; with an object store that is a map
    as an example. *)
From S2P Require Import Prelude GoBase Storage MemoryBlob Testing ExactReader S3.
Local Open Scope Z_scope.

(** ** An object store that is a map

    It serves no ranges and reads uploads a byte at a time. *)
Definition map_upload (c : gmap string kvmap) (e : env) (bk key : string) (b : body) :
    string * option string * gmap string kvmap * env :=
  let put d := <[bk := <[key := d]> (default ∅ (c !! bk))]> c in
  match b with
  | RawBody r => match rd_err r with None => (rd_data r, None, put (rd_data r), e) | Some _ => (rd_data r, Some "read"%stdpp, c, e) end
  | ExactBody x =>
      let n := (length (rd_chunks (under x)) + String.length (rd_data (under x)) + 2)%nat in
      let '(d, err, _) := drain reader_read x (replicate n (None, 1)) in
      match err with Some EOF => (d, None, put d, e) | _ => (d, Some "read"%stdpp, c, e) end
  end.

#[export] Instance map_client : S3Client (gmap string kvmap) string := {
  s3_Upload := map_upload;
  s3_GetObject c e bk key rg :=
    (match rg, default ∅ (c !! bk) !! key with
     | Some _, _ => inr "InvalidRange"%stdpp
     | None, None => inr "NoSuchKey"%stdpp
     | None, Some d => inl (bytes_reader d)
     end, e);
  s3_HeadObject c e bk key :=
    (match default ∅ (c !! bk) !! key with
     | None => inr "NotFound"%stdpp
     | Some d => inl (Some (len d), None)
     end, e);
  s3_DeleteObject c e bk key := (None, <[bk := delete key (default ∅ (c !! bk))]> c, e);
  ErrorCode e := Some e;
  as_NoSuchKey e := bool_decide (e = "NoSuchKey"%stdpp);
  s3_error e := Plain e;
}.

#[export] Program Instance map_client_laws : S3ClientLaws (gmap string kvmap) string := {
  objects c bk := default ∅ (c !! bk);
}.
Next Obligation. done. Qed.
Next Obligation.
  cbn. unfold map_upload. intros c e bk key [r|x] d o c' e'.
  - destruct (rd_err r) eqn:Er; intros; simplify_eq; [done|]. by rewrite lookup_insert_eq.
  - destruct (drain _ _ _) as [[d1 [[|er]|]] x'] eqn:Ed; intros; simplify_eq; [|done..].
    rewrite lookup_insert_eq. split; [|done]. do 2 eexists. split; [|exact Ed]. by apply Forall_replicate.
Qed.
Next Obligation.
  cbn. intros c e bk key out e'. destruct (default ∅ (c !! bk) !! key) as [d|]; intros; simplify_eq.
  cbn. by rewrite str_app_nil_r.
Qed.
Next Obligation. done. Qed.
Next Obligation.
  cbn. intros c e bk key size etag e'. destruct (default ∅ (c !! bk) !! key) as [d|]; intros; simplify_eq. eauto.
Qed.
Next Obligation. cbn. intros; simplify_eq. by rewrite lookup_insert_eq. Qed.

(** ** Streams *)

Lemma exact_reader_validates_witness :
  drain bytes_read (MkExact "abc" 3 false) [(None, 2); (None, 2); (None, 2)] = ("abc"%stdpp, Some EOF, MkExact "" 0 true) /\
  exists u1, gave bytes_read "abc" "abc" u1.
Proof.
  assert (Hr : drain bytes_read (MkExact "abc" 3 false) [(None, 2); (None, 2); (None, 2)]
    = ("abc"%stdpp, Some EOF, MkExact "" 0 true)) by reflexivity.
  split; [exact Hr|].
  assert (Hlen : forall u n p err u', 0 <= n -> bytes_read u n = (p, err, u') -> len p <= n).
  { intros [|a u] n p err u' Hn; cbn [bytes_read]; intros; simplify_eq; [unfold len; cbn; lia|].
    unfold len. rewrite length_str_take. lia. }
  destruct (exact_reader_validates bytes_read Hlen "abc" 3 [(None, 2); (None, 2); (None, 2)] _ _ _
    ltac:(lia) ltac:(by repeat constructor) Hr) as (u1 & Hg & _). by exists u1.
Defined.

Lemma exact_reader_decides_witness :
  exists r', drain bytes_read (MkExact "abcd" 3 false) ((fun n => (None, n)) <$> [2; 2; 2; 2; 2])
    = ("abc"%stdpp, Some (Fails ErrSizeMismatch), r').
Proof.
  exact (exact_reader_decides "abcd" 3 [2; 2; 2; 2; 2] ltac:(lia) ltac:(repeat constructor; lia) ltac:(cbn; lia)).
Defined.

(** ** Writing *)

(** C39: [Put] over a lawful client. When it succeeds, the object of the key is
    what the reader yielded to its clean end, of the declared size if one was
    declared, and no other object has changed; when it fails, only the object
    of the key may have changed. *)
Theorem s3_put_is_exact {C E} `{CL : S3Client C E} (L : S3ClientLaws C E) (s : S3BlobStore C) (e : env)
    (key : string) (r : reader) (size : Z) (d : string) (res : result unit) (s' : S3BlobStore C) (e' : env) :
  Put s e key r size = (d, res, s', e') ->
  bucket s' = bucket s /\ prefix s' = prefix s /\
  match res with
  | Ok _ => d = rd_data r /\ rd_err r = None /\ (0 <= size -> Z.of_nat (String.length d) = size) /\
      objects (client s') (bucket s) = <[fullKey s key := d]> (objects (client s) (bucket s))
  | Err _ => delete (fullKey s key) (objects (client s') (bucket s)) = delete (fullKey s key) (objects (client s) (bucket s))
  end.
Proof.
  intros (Hb & Hp & Hr)%Put_spec. unfold stored_objects in Hr. by rewrite Hb in Hr.
Qed.

Lemma s3_put_is_exact_witness :
  let s := MkS3 (∅ : gmap string kvmap) "b" "p/" in
  exists s', Put s test_env "k" (MkReader ["a"; "bc"]%stdpp None) 3 = ("abc"%stdpp, Ok tt, s', test_env) /\
    objects (client s') "b" = <["p/k" := "abc"]> ∅.
Proof.
  cbv zeta. eexists.
  assert (Hp : Put (MkS3 (∅ : gmap string kvmap) "b" "p/") test_env "k" (MkReader ["a"; "bc"]%stdpp None) 3
    = ("abc"%stdpp, Ok tt, MkS3 (<["b" := <["p/k" := "abc"]> ∅]> ∅) "b" "p/", test_env)) by reflexivity.
  split; [exact Hp|].
  exact (proj2 (proj2 (proj2 (proj2 (proj2 (s3_put_is_exact map_client_laws _ _ _ _ _ _ _ _ _ Hp)))))).
Defined.

(** ** Reading *)

(** Reads over a lawful client. A range that is negative or reversed is
    refused before anything is requested; the half-open range is requested as
    the closed one HTTP uses; and a stream that ends cleanly is the object, or
    its requested part. [Stat] reports the size of the object under the
    caller's key. *)
Theorem s3_reads_objects {C E} `{CL : S3Client C E} (L : S3ClientLaws C E) (s : S3BlobStore C) (e : env) (key : string) :
  (forall out e', Open s e key = (Ok out, e') -> rd_err out = None ->
     objects (client s) (bucket s) !! fullKey s key = Some (rd_data out)) /\
  (forall lo hi, in_i64 hi ->
     if (lo <? 0) || (hi <? lo) then OpenRange s e key lo hi = (Err (Plain "storage: invalid range [%d, %d)"), e)
     else forall out e', OpenRange s e key lo hi = (Ok out, e') -> rd_err out = None ->
       (lo = hi /\ rd_data out = EmptyString) \/
       exists d, objects (client s) (bucket s) !! fullKey s key = Some d /\
         rd_data out = str_take (Z.to_nat (hi - lo)) (str_drop (Z.to_nat lo) d)) /\
  (forall bi e', Stat s e key = (Ok bi, e') -> bi_key bi = key /\
     exists d, objects (client s) (bucket s) !! fullKey s key = Some d /\ bi_size bi = Z.of_nat (String.length d)).
Proof.
  split_and!; [exact (Open_spec s e key)|exact (OpenRange_spec s e key)|exact (Stat_spec s e key)].
Qed.

(** ** Deviations from the in-memory store *)

(** A leading slash of a key is dropped: the in-memory store has two objects
    where S3 has one. *)
Theorem s3_aliases_slash_keys {C} (s : S3BlobStore C) (key : string) (bm : gmap string memoryBlob) (d1 d2 : string) :
  has_prefix "/" key = false ->
  fullKey s ("/" +:+ key) = fullKey s key /\
  (<[key := newMemoryBlob d1]> (<["/" +:+ key := newMemoryBlob d2]> bm)) !! ("/" +:+ key) = Some (newMemoryBlob d2).
Proof.
  intros Hk. split.
  - unfold fullKey. f_equal. destruct key as [|a key]; [done|]. cbn in Hk |- *. unfold trim_slash.
    destruct (Ascii.eqb_spec a (Ascii.ascii_of_nat 47)) as [->|]; [|done]. by rewrite bool_decide_true in Hk.
  - rewrite lookup_insert_ne; [by rewrite lookup_insert_eq|]. intros E. apply (f_equal String.length) in E.
    rewrite str_length_app in E. cbn in E. lia.
Qed.

(** An empty range of an object that does not exist: S3 answers with an empty
    stream, the in-memory store with [ErrNotFound]. *)
Theorem empty_range_of_missing {C E} `{CL : S3Client C E} (s : S3BlobStore C) (m : MemoryBlobStore) (e : env)
    (key : string) (n : Z) :
  0 <= n -> bs_closed m = false -> ctx_alive e -> blobs m !! key = None ->
  fst (OpenRange s e key n n) = Ok (bytes_reader EmptyString) /\
  fst (MemoryBlob.OpenRange m e key n n) = Err ErrNotFound.
Proof.
  intros Hn Hc He Hm. split.
  - unfold OpenRange. destruct (Z.ltb_spec n 0), (Z.ltb_spec n n); try lia. cbn [orb]. by rewrite Z.eqb_refl.
  - unfold MemoryBlob.OpenRange, MemoryBlob.with_blob, MemoryKV.checkLocked, poll_ctx. rewrite He, Hc. cbn. by rewrite Hm.
Qed.
