(* ===== verification/Engine.v ===== *)
(** * storage.Engine (storage/storage.go)

    A metadata store and a blob store, closed together and once. *)
From S2P Require Import Prelude GoBase Storage Logic MemoryKV MemoryBlob.

(** [errors.Join] of two possible errors; one alone is wrapped *)
Definition errors_join (a b : option error) : option error :=
  match a, b with
  | None, None => None
  | Some e, None | None, Some e => Some (Wrap "%w" e)
  | Some e1, Some e2 => Some (Join e1 e2)
  end.

Section engine.
Context {K B : Type} `{KV K, BlobStore B}.

(** [closed_once] is the state of [closeOnce] *)
Record Engine := MkEngine { Metadata : option K; Blobs : option B; closed_once : bool; closeErr : option error }.

(** [NewEngine]; [None] is a nil interface *)
Definition NewEngine (kv : option K) (blobs : option B) : result Engine :=
  match kv with
  | None => Err (Plain "storage: nil KV")
  | Some _ => match blobs with
              | None => Err (Plain "storage: nil BlobStore")
              | Some _ => Ok (MkEngine kv blobs false None)
              end
  end.

(** closing one of the stores, if there is one *)
Definition close_with {S} (close : S -> S * result unit) (s : option S) : option S * option error :=
  match s with
  | None => (None, None)
  | Some s => let '(s', r) := close s in (Some s', match r with Ok _ => None | Err e => Some e end)
  end.
Definition unless_closed (o : option error) : option error :=
  match o with Some e => if errors_is e ErrClosed then None else Some e | None => None end.

Definition Close (e : option Engine) : option Engine * option error :=
  match e with
  | None => (None, None)
  | Some e =>
      if closed_once e then (Some e, closeErr e)
      else
        let '(kv, kvErr) := close_with KV_Close (Metadata e) in
        let '(blobs, blobErr) := close_with Blob_Close (Blobs e) in
        let err := errors_join (unless_closed kvErr) (unless_closed blobErr) in
        (Some (MkEngine kv blobs true err), err)
  end.

End engine.
Arguments Engine K B : clear implicits.

(** C40: [Close] closes both stores, whatever the first one answers, and only
    once: a second call closes nothing and repeats the first answer. The
    answer is an error exactly when one of the two failed other than by being
    closed already, and every such failure can be recognised in it. *)
Theorem engine_closes_once {K B} `{KV K, BlobStore B} (k : K) (b : B) :
  exists eng, NewEngine (Some k) (Some b) = Ok eng /\
  let '(e1, r1) := Close (Some eng) in
  let k' := KV_Close k in let b' := Blob_Close b in
  (exists eng1, e1 = Some eng1 /\ Metadata eng1 = Some (fst k') /\ Blobs eng1 = Some (fst b')) /\
  Close e1 = (e1, r1) /\
  let failure (r : result unit) := exists x, r = Err x /\ errors_is x ErrClosed = false in
  (is_Some r1 <-> failure (snd k') \/ failure (snd b')) /\
  (forall x target, snd k' = Err x \/ snd b' = Err x -> errors_is x ErrClosed = false -> errors_is x target = true ->
     exists y, r1 = Some y /\ errors_is y target = true).
Proof.
  exists (MkEngine (Some k) (Some b) false None). split; [done|]. unfold Close. cbn [closed_once Metadata Blobs close_with].
  destruct (KV_Close k) as [k' [[]|e1]], (Blob_Close b) as [b' [[]|e2]]; cbn [fst snd close_with unless_closed];
    try destruct (errors_is e1 ErrClosed) eqn:H1; try destruct (errors_is e2 ErrClosed) eqn:H2; cbn;
    (split; [eauto|]); (split; [done|]).
  all: split; [split; [intros [x Hx]; naive_solver|intros [(x & ? & ?)|(x & ? & ?)]; simplify_eq; eauto; congruence]|].
  all: intros x target [Hx|Hx] Hc Ht; simplify_eq; try congruence; eexists; (split; [done|]); cbn; rewrite Ht; by rewrite ?orb_true_r.
Qed.
