(* ===== verification/CasData.v ===== *)
(** * cas: records and configuration (cas/cas.go)

    The record type with its JSON form, the store configuration, and the
    mapping of user keys to storage keys. *)
From S2P Require Import Prelude GoBase Base64 Utf8 Json JsonLit GoTime.
From S2P Require Import Codec Storage.
Local Open Scope Z_scope.

Definition StateLive : string := "live".
Definition StateTombstone : string := "tombstone".

Definition ErrNotFound : error := Sentinel "cas: not found".
Definition ErrExists : error := Sentinel "cas: already exists".
Definition ErrDeleted : error := Sentinel "cas: record is deleted".
Definition ErrRevisionMismatch : error := Sentinel "cas: revision mismatch".
Definition ErrConflict : error := ErrRevisionMismatch.
Definition ErrValueTooLarge : error := Sentinel "cas: value too large".
Definition ErrEmptyKey : error := Sentinel "cas: empty key".

(** A nil and an empty [Value] are identified: JSON omits both. *)
Record Record := MkRecord {
  Key : string;
  Value : string;
  Revision : Z;
  State : string;
  CreatedAt : time;
  UpdatedAt : time;
  DeletedAt : time;
}.
Definition zero_record : Record :=
  MkRecord EmptyString EmptyString 0 EmptyString zero_time zero_time zero_time.

#[export] Instance record_eq_dec : EqDecision Record.
Proof. unfold EqDecision. intros. unfold Decision. repeat decide equality. Defined.

Definition set_Key x r := MkRecord x (Value r) (Revision r) (State r) (CreatedAt r) (UpdatedAt r) (DeletedAt r).
Definition set_Value x r := MkRecord (Key r) x (Revision r) (State r) (CreatedAt r) (UpdatedAt r) (DeletedAt r).
Definition set_Revision x r := MkRecord (Key r) (Value r) x (State r) (CreatedAt r) (UpdatedAt r) (DeletedAt r).
Definition set_State x r := MkRecord (Key r) (Value r) (Revision r) x (CreatedAt r) (UpdatedAt r) (DeletedAt r).
Definition set_CreatedAt x r := MkRecord (Key r) (Value r) (Revision r) (State r) x (UpdatedAt r) (DeletedAt r).
Definition set_UpdatedAt x r := MkRecord (Key r) (Value r) (Revision r) (State r) (CreatedAt r) x (DeletedAt r).
Definition set_DeletedAt x r := MkRecord (Key r) (Value r) (Revision r) (State r) (CreatedAt r) (UpdatedAt r) x.

(** ** JSON *)

Definition encode_record (r : Record) : option json :=
  c ← enc_time (CreatedAt r); u ← enc_time (UpdatedAt r); d ← enc_time (DeletedAt r);
  Some (JObj (
    [member "key" (enc_string (Key r))]
    ++ (if decide (Value r = EmptyString) then [] else [member "value" (enc_bytes (Value r))])
    ++ [member "revision" (enc_int (Revision r)); member "state" (enc_string (State r));
        member "created_at" c; member "updated_at" u; member "deleted_at" d])).

Definition record_fields : list (string * setter Record) :=
  [("key"%stdpp, field dec_string set_Key);
   ("value"%stdpp, slice_field EmptyString dec_bytes set_Value);
   ("revision"%stdpp, field dec_u64 set_Revision);
   ("state"%stdpp, field dec_string set_State);
   ("created_at"%stdpp, field dec_time set_CreatedAt);
   ("updated_at"%stdpp, field dec_time set_UpdatedAt);
   ("deleted_at"%stdpp, field dec_time set_DeletedAt)].

(** A record after a JSON round trip. *)
Definition stored_record (r : Record) : Record :=
  set_Key (sanitize (Key r)) (set_State (sanitize (State r)) r).

#[export, program] Instance record_json : GoJSON Record := {
  encode := encode_record;
  decode := dec_struct record_fields zero_record;
  in_width r := in_u64 (Revision r);
  stored := stored_record;
}.
Next Obligation.
  intros r j. unfold encode_record. intros H.
  apply bind_Some in H as (c & Hc & H). apply bind_Some in H as (u & Hu & H).
  apply bind_Some in H as (d & Hd & H). apply (inj Some) in H as <-.
  case_decide; solve_json_ok.
Qed.
Next Obligation.
  intros r j Hw. unfold encode_record. intros H.
  apply bind_Some in H as (c & Hc & H). apply bind_Some in H as (u & Hu & H).
  apply bind_Some in H as (d & Hd & H). apply (inj Some) in H as <-.
  unfold dec_struct. destruct r as [k v rev st ca ua da]. cbn [Key Value Revision State CreatedAt UpdatedAt DeletedAt] in *.
  case_decide; cbn [app]; repeat dec_step; [by subst|done].
Qed.
Next Obligation.
  intros j r. apply dec_struct_inv; [by vm_compute|].
  unfold record_fields. repeat apply Forall_cons_2; try apply Forall_nil_2; cbn [snd];
    first [apply field_inv | apply slice_field_inv; [done|]]; try done.
  intros v x r' _ Hx. by apply dec_num_range in Hx.
Qed.

Lemma record_round_trip (r : Record) raw :
  in_u64 (Revision r) -> Marshal r = Some raw -> Unmarshal raw = Some (stored_record r).
Proof. exact (Unmarshal_Marshal r raw). Qed.

Lemma record_width raw (r : Record) : Unmarshal raw = Some r -> in_u64 (Revision r).
Proof. exact (Unmarshal_in_width raw r). Qed.

Lemma record_encodable (r : Record) :
  is_Some (Marshal r) <-> time_ok (CreatedAt r) /\ time_ok (UpdatedAt r) /\ time_ok (DeletedAt r).
Proof.
  rewrite Marshal_is_Some. cbn [encode record_json]. unfold encode_record, time_ok. split.
  - intros [j H]. apply bind_Some in H as (c & Hc & H). apply bind_Some in H as (u & Hu & H).
    apply bind_Some in H as (d & Hd & H). eauto.
  - intros ([c Hc] & [u Hu] & [d Hd]). rewrite Hc, Hu, Hd. simpl. eauto.
Qed.

(** ** Configuration *)

Record Store := MkStore {
  prefix : string;
  maxValueBytes : Z;
  retention : duration;
  allowResurrection : bool;
}.

Definition Option : Type := Store -> Store.
Definition WithMaxValueBytes (n : Z) : Option :=
  fun s => MkStore (prefix s) n (retention s) (allowResurrection s).
Definition WithTombstoneRetention (d : duration) : Option :=
  fun s => MkStore (prefix s) (maxValueBytes s) d (allowResurrection s).
Definition WithAllowResurrection (allow : bool) : Option :=
  fun s => MkStore (prefix s) (maxValueBytes s) (retention s) allow.

Definition New (pfx : string) (opts : list Option) : Store :=
  fold_left (fun s o => o s) opts (MkStore pfx (Z.shiftl 512 10) 0 false).

(** ** Keys *)

Definition storagePrefix (s : Store) : string :=
  "cas/" +:+ EncodeToString RawURLEncoding (prefix s) +:+ "/".
Definition encodeKey (s : Store) (key : string) : string :=
  storagePrefix s +:+ EncodeToString RawURLEncoding key.
Definition decodeKey (s : Store) (storageKey : string) : option string :=
  DecodeString RawURLEncoding (str_drop (String.length (storagePrefix s)) storageKey).

Lemma decodeKey_encodeKey s key : decodeKey s (encodeKey s key) = Some key.
Proof.
  unfold decodeKey, encodeKey. rewrite str_drop_app.
  apply DecodeString_EncodeToString, raw_url_alphabet.
Qed.

Lemma encodeKey_inj s k1 k2 : encodeKey s k1 = encodeKey s k2 -> k1 = k2.
Proof.
  intros H. apply (f_equal (decodeKey s)) in H. rewrite !decodeKey_encodeKey in H. by simplify_eq.
Qed.

Lemma encodeKey_prefix s key : has_prefix (storagePrefix s) (encodeKey s key) = true.
Proof. apply has_prefix_app. Qed.

(** ** Values *)

Definition checkValue (s : Store) (value : string) : result unit :=
  if ((0 <? maxValueBytes s) && (maxValueBytes s <? Z.of_nat (String.length value)))
  then Err (Wrap "%w: %d > %d" ErrValueTooLarge) else Ok tt.

(** the loop of [equal]: same length, same bytes *)
Fixpoint equal (a b : string) : bool :=
  match a, b with
  | EmptyString, EmptyString => true
  | String x a', String y b' => bool_decide (x = y) && equal a' b'
  | _, _ => false
  end.

Lemma equal_spec a b : equal a b = true <-> a = b.
Proof.
  revert b. induction a as [|x a IH]; intros [|y b]; simpl; try done.
  rewrite andb_true_iff, bool_decide_eq_true, IH. split; [by intros [-> ->]|by intros [= -> ->]].
Qed.
