(* ===== verification/Cas.v ===== *)
(** * cas: the operations of the store (cas/cas.go)

    Every mutating operation is a callback run by [transact], the retry loop
    around [KV.Transaction]; the captured variable of the callback is the
    record [out] that the operation returns. *)
From S2P Require Import Prelude GoBase Base64 Utf8 Codec Storage CasData.
Local Open Scope Z_scope.

Definition decode_failed : error := Wrap "cas: decode record: %w" json_error.

Section callbacks.
Context {V : Type}.

Definition getRecord (storageKey : string) : fn V (Record * bool) :=
  r ← tGet storageKey;
  match r with
  | Err e => if errors_is e Storage.ErrNotFound then mret (zero_record, false) else raise e
  | Ok raw =>
      match Unmarshal raw with
      | Some rec => mret (rec, true)
      | None => raise decode_failed
      end
  end.

Definition putRecord (storageKey : string) (rec : Record) : fn V unit :=
  match Marshal rec with
  | Some raw => tPut storageKey raw
  | None => raise (Wrap "cas: encode record: %w" json_error)
  end.
End callbacks.

Definition transact {V} (v : V) (f : fn V unit) : prog (V * result unit) :=
  retry_loop maxAttempts ErrConflict v f.

(** [err := transact(...); if err != nil { return Record{}, err }; return out] *)
Definition finish (p : prog (Record * result unit)) : prog (result Record) :=
  '(out, r) ← p;
  mret (match r with Ok _ => Ok out | Err e => Err e end).

(** ** Create *)

Definition create_fn (s : Store) (key value : string) : fn Record unit :=
  let skey := encodeKey s key in
  '(rec, found) ← getRecord skey;
  now ← tNow;
  (if (found : bool) then
     if decide (State rec = StateLive) then raise ErrExists
     else if negb (allowResurrection s) then raise ErrDeleted
     else assign (MkRecord key value (u64 (Revision rec + 1)) StateLive (CreatedAt rec) now zero_time)
   else assign (MkRecord key value 1 StateLive now now zero_time));;
  out ← captured;
  putRecord skey out.

Definition Create (s : Store) (key value : string) : prog (result Record) :=
  if decide (key = EmptyString) then mret (Err ErrEmptyKey) else
  match checkValue s value with
  | Err e => mret (Err e)
  | Ok _ => finish (transact zero_record (create_fn s key value))
  end.

(** ** Get *)

Definition get (s : Store) (key : string) (withValue : bool) : prog (result Record) :=
  if decide (key = EmptyString) then mret (Err ErrEmptyKey) else
  KvGet (encodeKey s key) (fun r => mret (
    match r with
    | Err e => if errors_is e Storage.ErrNotFound then Err ErrNotFound else Err e
    | Ok raw =>
        match Unmarshal raw with
        | None => Err decode_failed
        | Some rec =>
            if decide (State rec = StateTombstone /\ withValue = true) then Err ErrNotFound
            else Ok (if withValue then rec else set_Value EmptyString rec)
        end
    end)).
Definition Get (s : Store) (key : string) : prog (result Record) := get s key true.
Definition GetMeta (s : Store) (key : string) : prog (result Record) := get s key false.

(** ** CompareAndSwap and Update *)

(** the tail both share: a new value for the record that was read, or no
    write at all when the value is the same *)
Definition swap_fn (skey : string) (rec : Record) (value : string) : fn Record unit :=
  if equal (Value rec) value then assign rec
  else
    now ← tNow;
    assign (set_UpdatedAt now (set_Revision (u64 (Revision rec + 1)) (set_Value value rec)));;
    out ← captured;
    putRecord skey out.

Definition live (found : bool) (rec : Record) : bool :=
  found && negb (bool_decide (State rec = StateTombstone)).

Definition cas_fn (s : Store) (key : string) (expect : Z) (value : string) : fn Record unit :=
  let skey := encodeKey s key in
  '(rec, found) ← getRecord skey;
  if negb (live found rec) then raise ErrNotFound
  else if negb (Revision rec =? expect) then raise ErrRevisionMismatch
  else swap_fn skey rec value.

Definition CompareAndSwap (s : Store) (key : string) (expect : Z) (value : string) :
    prog (result Record) :=
  if decide (key = EmptyString) then mret (Err ErrEmptyKey) else
  match checkValue s value with
  | Err e => mret (Err e)
  | Ok _ => finish (transact zero_record (cas_fn s key expect value))
  end.

Definition update_fn (s : Store) (key : string) (f : Record -> result string) : fn Record unit :=
  let skey := encodeKey s key in
  '(rec, found) ← getRecord skey;
  if negb (live found rec) then raise ErrNotFound
  else
    newValue ← try (f rec);
    try (checkValue s newValue);;
    swap_fn skey rec newValue.

(** [f] is [None] for a nil function; it may run once per attempt. *)
Definition Update (s : Store) (key : string) (f : option (Record -> result string)) :
    prog (result Record) :=
  if decide (key = EmptyString) then mret (Err ErrEmptyKey) else
  match f with
  | None => mret (Err (Plain "cas: nil update function"))
  | Some f => finish (transact zero_record (update_fn s key f))
  end.

(** ** Delete *)

Definition delete_fn (s : Store) (key : string) (expect : Z) : fn Record unit :=
  let skey := encodeKey s key in
  '(rec, found) ← getRecord skey;
  if negb (live found rec) then raise ErrNotFound
  else if negb (expect =? 0) && negb (Revision rec =? expect) then raise ErrRevisionMismatch
  else
    now ← tNow;
    assign (MkRecord (Key rec) EmptyString (u64 (Revision rec + 1)) StateTombstone
              (CreatedAt rec) now now);;
    out ← captured;
    putRecord skey out.

Definition Delete (s : Store) (key : string) (expect : Z) : prog (result Record) :=
  if decide (key = EmptyString) then mret (Err ErrEmptyKey) else
  finish (transact zero_record (delete_fn s key expect)).

(** ** List *)

Record ListOptions := MkListOptions {
  lo_prefix : string;
  lo_start_after : string;
  lo_limit : Z;
  lo_tombstones : bool;
}.
Record Page := MkPage { Records : list Record; NextStartAfter : string }.

Definition hasPrefix (s p : string) : bool := has_prefix p s.

(** the body of the loop over the scanned entries, one entry *)
Definition list_entry (s : Store) (opts : ListOptions) (e : Entry) : result (option Record) :=
  match decodeKey s (en_key e) with
  | None => Err (Wrap "cas: decode key: %w" (Plain "base64"))
  | Some userKey =>
      if negb (bool_decide (lo_prefix opts = EmptyString)) && negb (hasPrefix userKey (lo_prefix opts))
      then Ok None
      else if negb (bool_decide (lo_start_after opts = EmptyString))
              && String.leb userKey (lo_start_after opts)
      then Ok None
      else
        match Unmarshal (en_value e) with
        | None => Err decode_failed
        | Some record =>
            if bool_decide (State record = StateTombstone) && negb (lo_tombstones opts)
            then Ok None else Ok (Some record)
        end
  end.

Fixpoint list_records (s : Store) (opts : ListOptions) (es : list Entry) : result (list Record) :=
  match es with
  | [] => Ok []
  | e :: es' =>
      r ← list_entry s opts e;
      rs ← list_records s opts es';
      Ok (match r with Some rec => rec :: rs | None => rs end)
  end.

(** [sort.Slice(records, by Key)]; records with equal keys, whose order
    [sort.Slice] leaves open, keep their scan order *)
Definition key_le (a b : Record) : Prop := String.le (Key a) (Key b).
#[export] Instance key_le_dec : RelDecision key_le.
Proof. intros a b. unfold key_le. apply _. Defined.

Definition lastKey (recs : list Record) : string :=
  match last recs with Some r => Key r | None => EmptyString end.

Definition make_page (opts : ListOptions) (records : list Record) : Page :=
  if decide (0 < lo_limit opts /\ lo_limit opts < Z.of_nat (length records)) then
    let rs := take (Z.to_nat (lo_limit opts)) records in MkPage rs (lastKey rs)
  else MkPage records EmptyString.

Definition List (s : Store) (opts : ListOptions) : prog (result Page) :=
  KvScan (prefix_scan (storagePrefix s)) (fun r => mret (
    es ← r;
    records ← list_records s opts es;
    Ok (make_page opts (merge_sort key_le records)))).

(** ** GC *)

Definition expired (cutoff : time) (rec : Record) : bool :=
  bool_decide (State rec = StateTombstone) && negb (IsZero (DeletedAt rec))
  && Before (DeletedAt rec) cutoff.

Fixpoint gc_candidates (cutoff : time) (es : list Entry) : result (list string) :=
  match es with
  | [] => Ok []
  | e :: es' =>
      match Unmarshal (en_value e) with
      | None => Err decode_failed
      | Some rec =>
          ks ← gc_candidates cutoff es';
          Ok (if expired cutoff rec then en_key e :: ks else ks)
      end
  end.

(** the transaction that removes one tombstone, if it is still one *)
Definition gc_fn (cutoff : time) (skey : string) : fn bool unit :=
  assign false;;
  '(rec, found) ← getRecord skey;
  if negb found then mret tt
  else if negb (expired cutoff rec) then mret tt
  else tDelete skey;; assign true.

Fixpoint gc_loop (cutoff : time) (keys : list string) (removed : Z) : prog (Z * option error) :=
  match keys with
  | [] => mret (removed, None)
  | skey :: keys' =>
      '(didRemove, r) ← transact false (gc_fn cutoff skey);
      match r with
      | Err e => mret (removed, Some e)
      | Ok _ => gc_loop cutoff keys' (if (didRemove : bool) then removed + 1 else removed)
      end
  end.

(** the number of tombstones removed, and the error *)
Definition GC (s : Store) : prog (Z * option error) :=
  if retention s <=? 0 then mret (0, None) else
  KvScan (prefix_scan (storagePrefix s)) (fun r =>
    match r with
    | Err e => mret (0, Some e)
    | Ok es =>
        Now (fun now =>
          let cutoff := Add now (- retention s) in
          match gc_candidates cutoff es with
          | Err e => mret (0, Some e)
          | Ok keys => gc_loop cutoff keys 0
          end)
    end).
