(* ===== verification/CasLogic.v ===== *)
(** * cas: the specification of a key, and the refinement

    [spec] is what a store promises for one key: a function from the cell of
    the key (no record, a live record or a tombstone) and the time to the
    result and the next cell, with no storage, no JSON and no transactions.
    Every operation, interleaved with any others, takes effect in at most one
    access to the store, and that access is a step of [spec]. *)
From S2P Require Import Prelude GoBase Base64 Utf8 Codec Storage Logic.
From S2P Require Import Cells CasData Cas.
Local Open Scope Z_scope.

(** ** The operations on a key, and their specification *)

Inductive op :=
| OpCreate (key value : string)
| OpGet (key : string)
| OpGetMeta (key : string)
| OpCompareAndSwap (key : string) (expect : Z) (value : string)
| OpUpdate (key : string) (f : option (Record -> result string))
| OpDelete (key : string) (expect : Z).

Definition op_key (o : op) : string :=
  match o with
  | OpCreate k _ | OpGet k | OpGetMeta k | OpCompareAndSwap k _ _ | OpUpdate k _ | OpDelete k _ => k
  end.

Definition exec (s : Store) (o : op) : prog (result Record) :=
  match o with
  | OpCreate k v => Create s k v
  | OpGet k => Get s k
  | OpGetMeta k => GetMeta s k
  | OpCompareAndSwap k x v => CompareAndSwap s k x v
  | OpUpdate k f => Update s k f
  | OpDelete k x => Delete s k x
  end.

Definition bump (r : Record) : Z := u64 (Revision r + 1).
Definition is_live (r : Record) : Prop := State r = StateLive.

(** replacing the value of a live record *)
Definition spec_write (now : time) (old : Record) (value : string) : result Record * option Record :=
  if decide (Value old = value) then (Ok old, Some old)
  else let new := set_UpdatedAt now (set_Revision (bump old) (set_Value value old)) in
       (Ok new, Some new).

Definition spec (s : Store) (o : op) (now : time) (cell : option Record) :
    result Record * option Record :=
  if decide (op_key o = EmptyString) then (Err ErrEmptyKey, cell) else
  let with_live (f : Record -> result Record * option Record) :=
    match cell with
    | Some old => if decide (is_live old) then f old else (Err ErrNotFound, cell)
    | None => (Err ErrNotFound, cell)
    end in
  let checked v (f : result Record * option Record) :=
    match checkValue s v with Err e => (Err e, cell) | Ok _ => f end in
  match o with
  | OpCreate k v => checked v
      match cell with
      | None =>
          let new := MkRecord k v 1 StateLive now now zero_time in (Ok new, Some (stored_record new))
      | Some old =>
          if decide (is_live old) then (Err ErrExists, cell)
          else if allowResurrection s then
            let new := MkRecord k v (bump old) StateLive (CreatedAt old) now zero_time in
            (Ok new, Some (stored_record new))
          else (Err ErrDeleted, cell)
      end
  | OpGet k => with_live (fun old => (Ok old, cell))
  | OpGetMeta k =>
      match cell with
      | None => (Err ErrNotFound, cell)
      | Some old => (Ok (set_Value EmptyString old), cell)
      end
  | OpCompareAndSwap k expect v => checked v (with_live (fun old =>
      if decide (Revision old = expect) then spec_write now old v else (Err ErrRevisionMismatch, cell)))
  | OpUpdate k None => (Err (Plain "cas: nil update function"), cell)
  | OpUpdate k (Some f) => with_live (fun old =>
      match f old with
      | Err e => (Err e, cell)
      | Ok v => checked v (spec_write now old v)
      end)
  | OpDelete k expect => with_live (fun old =>
      if decide (expect = 0 \/ Revision old = expect) then
        let new := MkRecord (Key old) EmptyString (bump old) StateTombstone (CreatedAt old) now now in
        (Ok new, Some new)
      else (Err ErrRevisionMismatch, cell))
  end.

(** ** The representation of cells in the key/value store *)

(** A record stored for [key], which is not empty. A tombstone keeps no
    value. *)
Definition wf (key : string) (r : Record) : Prop :=
  key <> EmptyString /\ Key r = sanitize key /\ in_u64 (Revision r) /\
  (State r = StateLive /\ DeletedAt r = zero_time \/
   State r = StateTombstone /\ Value r = EmptyString).

#[export, program] Instance cas_space : KeySpace Store Record := {
  ks_prefix := storagePrefix;
  ks_key := encodeKey;
  ks_wf _ := wf;
}.
Next Obligation. exact encodeKey_prefix. Qed.
Next Obligation. exact encodeKey_inj. Qed.

(** the cell of a key *)
Definition find (s : Store) (m : kvmap) (key : string) : option Record := cell s m key.

(** Every entry in the key space of the store is a record in JSON. *)
Definition kv_ok (s : Store) (m : kvmap) : Prop := well s m.

Definition store_ok (s : Store) (st : store) : Prop := kv_ok s (st_kv st).

(** ** How a store may evolve *)

(** the changes of one cell *)
Inductive change (s : Store) (key : string) : option Record -> option Record -> Prop :=
| change_create v now :
    change s key None (Some (MkRecord (sanitize key) v 1 StateLive now now zero_time))
| change_resurrect old v now :
    allowResurrection s = true -> State old = StateTombstone ->
    change s key (Some old)
      (Some (MkRecord (sanitize key) v (bump old) StateLive (CreatedAt old) now zero_time))
| change_write old v now :
    State old = StateLive -> Value old <> v ->
    change s key (Some old) (Some (set_UpdatedAt now (set_Revision (bump old) (set_Value v old))))
| change_delete old now :
    State old = StateLive ->
    change s key (Some old)
      (Some (MkRecord (Key old) EmptyString (bump old) StateTombstone (CreatedAt old) now now))
| change_collect old cutoff :
    0 < retention s -> expired cutoff old = true -> change s key (Some old) None.

(** One commit changes one cell and nothing outside the key space. *)
Definition evolves (s : Store) (m m' : kvmap) : Prop :=
  (forall k, has_prefix (storagePrefix s) k = false -> m' !! k = m !! k) /\
  exists key, change s key (find s m key) (find s m' key) /\
    forall key', key' <> key -> find s m' key' = find s m key'.

(** no cell but that of [key] changes *)
Definition only (s : Store) (key : string) (m m' : kvmap) : Prop :=
  forall key', key' <> key -> find s m' key' = find s m key'.

Lemma only_refl s key m : only s key m m.
Proof. done. Qed.
#[export] Hint Resolve only_refl : s3db.

Definition guar (s : Store) (st st' : store) : Prop :=
  st_blobs st' = st_blobs st /\ evolves s (st_kv st) (st_kv st').

(** ** Lemmas on the representation *)

Lemma live_not_tombstone : StateTombstone <> StateLive.
Proof. done. Qed.

Lemma find_lookup (s : Store) (m : kvmap) key raw :
  m !! encodeKey s key = Some raw -> find s m key = Unmarshal raw.
Proof. intros E. unfold find, cell. cbn [ks_key cas_space]. by rewrite E. Qed.

Lemma find_absent (s : Store) (m : kvmap) key : m !! encodeKey s key = None -> find s m key = None.
Proof. intros E. unfold find, cell. cbn [ks_key cas_space]. by rewrite E. Qed.

Lemma find_wf (s : Store) m key r : kv_ok s m -> find s m key = Some r -> wf key r.
Proof. exact (cell_wf s m key r). Qed.

Lemma wf_stored key r : wf key r -> stored_record r = r.
Proof.
  intros (_ & Hk & _ & Hs). unfold stored_record, set_Key, set_State. destruct r; simpl in *.
  rewrite Hk, sanitize_idemp. by destruct Hs as [[-> _]|[-> _]].
Qed.

Lemma wf_live key r : wf key r -> bool_decide (State r = StateTombstone) = negb (bool_decide (is_live r)).
Proof.
  unfold is_live. intros (_ & _ & _ & [[-> _]|[-> _]]); by vm_compute.
Qed.

(** Setting one cell along its life cycle. *)
Lemma sets_evolves (s : Store) key c m m' :
  sets s key c m m' -> change s key (find s m key) c ->
  kv_ok s m' /\ find s m' key = c /\ evolves s m m' /\ only s key m m'.
Proof.
  intros (Hw & Hc & Ho & Hout) Hch. split_and!; [done..| |done]. split; [exact Hout|].
  exists key. split; [by unfold find in *; rewrite Hc|exact Ho].
Qed.

(** ** The callbacks *)

Lemma attempt_getRecord {V} (s : Store) key (v : V) m (Q : V -> result (Record * bool) -> kvmap -> Prop) :
  kv_ok s m -> (forall e, Q v (Err e) m) ->
  (find s m key = None -> Q v (Ok (zero_record, false)) m) ->
  (forall r, find s m key = Some r -> wf key r -> Q v (Ok (r, true)) m) ->
  attempt (getRecord (encodeKey s key)) v m Q.
Proof.
  intros Hok He Hnone Hsome. apply attempt_bind, (attempt_get (HK := cas_space) s key); [done|exact Hnone| |].
  - intros raw r Hf Hwf Hu. cbv beta iota. rewrite Hu. by apply Hsome.
  - intros e Hne. cbv beta iota. unfold engine_error in Hne. rewrite Hne. apply He.
Qed.

(** A written record is the next cell of its key. *)
Lemma attempt_putRecord {V} (s : Store) key rec (v : V) m (Q : V -> result unit -> kvmap -> Prop) :
  kv_ok s m -> in_u64 (Revision rec) -> wf key (stored_record rec) ->
  change s key (find s m key) (Some (stored_record rec)) ->
  (forall e, Q v (Err e) m) ->
  (forall m', find s m' key = Some (stored_record rec) -> kv_ok s m' -> evolves s m m' ->
     only s key m m' -> Q v (Ok tt) m') ->
  attempt (putRecord (encodeKey s key) rec) v m Q.
Proof.
  intros Hok Hw Hwf Hc He Hq. unfold putRecord.
  destruct (Marshal rec) as [raw|] eqn:E; [|by apply He].
  apply (attempt_put (HK := cas_space) s key rec raw); [done..|]. intros m' Hs.
  by destruct (sets_evolves _ _ _ _ _ Hs Hc) as (? & ? & ? & ?); apply Hq.
Qed.

(** What a committed attempt of [o] has done to the store [m]. *)
Definition committed (s : Store) (o : op) (m : kvmap) (out : Record) (r : result unit) (m' : kvmap) : Prop :=
  match r with
  | Err _ => True
  | Ok _ =>
      (exists now, spec s o now (find s m (op_key o)) = (Ok out, find s m' (op_key o))) /\
      kv_ok s m' /\ (m' = m \/ evolves s m m') /\ only s (op_key o) m m'
  end.

Lemma wf_new key v rev created now :
  key <> EmptyString -> in_u64 rev -> wf key (stored_record (MkRecord key v rev StateLive created now zero_time)).
Proof. intros Hk Hr. split_and!; [done..|]. by left. Qed.

Lemma checked_ok (s : Store) v : checkValue s v = Ok tt \/ exists e, checkValue s v = Err e.
Proof. destruct (checkValue s v) as [[]|]; eauto. Qed.

Lemma live_true found r : live found r = true <-> found = true /\ State r <> StateTombstone.
Proof. unfold live. destruct found; simpl; [|naive_solver]. case_bool_decide; naive_solver. Qed.

(** a live record, seen through [wf] *)
Lemma live_wf key r : wf key r -> live true r = bool_decide (is_live r).
Proof. intros H. unfold live. simpl. rewrite (wf_live key) by done. apply negb_involutive. Qed.

Lemma attempt_create (s : Store) key value v m :
  kv_ok s m -> key <> EmptyString -> checkValue s value = Ok tt ->
  attempt (create_fn s key value) v m (committed s (OpCreate key value) m).
Proof.
  intros Hok Hk Hv. unfold create_fn. apply attempt_bind, attempt_getRecord; [done|done| |].
  - intros Hf. apply attempt_bind, attempt_tNow. intros now. simpl.
    apply attempt_bind. simpl.
    change (attempt (putRecord (encodeKey s key) (MkRecord key value 1 StateLive now now zero_time))
      (MkRecord key value 1 StateLive now now zero_time) m (committed s (OpCreate key value) m)).
    apply attempt_putRecord; [done|done|by apply wf_new| |done|].
    { rewrite Hf. apply (change_create s key value now). }
    intros m' Hf' Hok' He Ho. split_and!; [|done|by right|done].
    exists now. unfold spec. simpl. rewrite decide_False by done. by rewrite Hv, Hf, Hf'.
  - intros old Hf Hwf. apply attempt_bind, attempt_tNow. intros now. simpl.
    apply attempt_bind. destruct (decide (State old = StateLive)) as [|Hnl]; [done|].
    destruct (allowResurrection s) eqn:Ha; [|done].
    change (attempt (putRecord (encodeKey s key)
        (MkRecord key value (bump old) StateLive (CreatedAt old) now zero_time))
      (MkRecord key value (bump old) StateLive (CreatedAt old) now zero_time) m
      (committed s (OpCreate key value) m)).
    apply attempt_putRecord; [done|apply u64_range|apply wf_new, u64_range; done| |done|].
    { rewrite Hf. apply (change_resurrect s key old value now); [done|].
      destruct Hwf as (_ & _ & _ & [[? _]|[? _]]); done. }
    intros m' Hf' Hok' He Ho. split_and!; [|done|by right|done].
    exists now. unfold spec. simpl. rewrite decide_False by done.
    rewrite Hv, Hf, Hf', decide_False by done. by rewrite Ha.
Qed.

Lemma wf_write key r v now :
  wf key r -> is_live r ->
  let new := set_UpdatedAt now (set_Revision (bump r) (set_Value v r)) in
  wf key new /\ stored_record new = new.
Proof.
  intros (Hne & Hk & _ & Hs) Hl. set (new := set_UpdatedAt _ _).
  assert (wf key new) as Hwf.
  { split_and!; [done|done|apply u64_range|]. left. split; [done|].
    destruct Hs as [[_ ?]|[Ht _]]; [done|]. unfold is_live in Hl. by rewrite Hl in Ht. }
  split; [done|]. by apply (wf_stored key).
Qed.

(** the shared tail of [CompareAndSwap] and [Update] *)
Lemma attempt_swap (s : Store) o old value v0 m :
  kv_ok s m -> wf (op_key o) old -> is_live old -> find s m (op_key o) = Some old ->
  (forall now, spec s o now (Some old) = spec_write now old value) ->
  attempt (swap_fn (encodeKey s (op_key o)) old value) v0 m (committed s o m).
Proof.
  intros Hok Hwf Hl Hf Hs. unfold swap_fn. destruct (equal (Value old) value) eqn:E.
  - apply equal_spec in E. simpl. split_and!; [|done|by left|done].
    exists 0. rewrite Hf, Hs. unfold spec_write. by rewrite decide_True.
  - assert (Value old <> value) as Hne by (intros ?%equal_spec; congruence).
    apply attempt_bind, attempt_tNow. intros now.
    destruct (wf_write _ _ value now Hwf Hl) as [Hwf' Hst].
    set (new' := set_UpdatedAt _ _) in *.
    change (attempt (putRecord (encodeKey s (op_key o)) new') new' m (committed s o m)).
    apply attempt_putRecord; [done|apply Hwf'|by rewrite Hst| |done|].
    { rewrite Hf, Hst. by apply change_write. }
    intros m' Hf' Hok' He Ho. split_and!; [|done|by right|done].
    exists now. rewrite Hf, Hf', Hs, Hst. unfold spec_write. by rewrite decide_False.
Qed.

Lemma spec_live_eq (s : Store) o now old :
  op_key o <> EmptyString -> is_live old ->
  spec s o now (Some old) =
    match o with
    | OpCompareAndSwap _ expect v =>
        match checkValue s v with
        | Err e => (Err e, Some old)
        | Ok _ => if decide (Revision old = expect) then spec_write now old v
                  else (Err ErrRevisionMismatch, Some old)
        end
    | OpUpdate _ (Some f) =>
        match f old with
        | Err e => (Err e, Some old)
        | Ok v => match checkValue s v with Err e => (Err e, Some old) | Ok _ => spec_write now old v end
        end
    | _ => spec s o now (Some old)
    end.
Proof.
  intros Hk Hl. destruct o as [| | |k x v|k [f|]|]; try done; unfold spec; simpl in *;
    rewrite decide_False by done; by rewrite decide_True.
Qed.

Lemma attempt_cas (s : Store) key expect value v0 m :
  kv_ok s m -> key <> EmptyString -> checkValue s value = Ok tt ->
  attempt (cas_fn s key expect value) v0 m (committed s (OpCompareAndSwap key expect value) m).
Proof.
  intros Hok Hk Hv. unfold cas_fn. apply attempt_bind, attempt_getRecord; [done|done|done|].
  intros old Hf Hwf. rewrite (live_wf key) by done. case_bool_decide as Hl; simpl; [|done].
  destruct (Z.eqb_spec (Revision old) expect) as [Hr|]; simpl; [|done].
  apply (attempt_swap s (OpCompareAndSwap key expect value)); [done..|].
  intros now. rewrite spec_live_eq by done. by rewrite Hv, decide_True.
Qed.

Lemma attempt_update (s : Store) key f v0 m :
  kv_ok s m -> key <> EmptyString ->
  attempt (update_fn s key f) v0 m (committed s (OpUpdate key (Some f)) m).
Proof.
  intros Hok Hk. unfold update_fn. apply attempt_bind, attempt_getRecord; [done|done|done|].
  intros old Hf Hwf. rewrite (live_wf key) by done. case_bool_decide as Hl; simpl; [|done].
  apply attempt_bind. destruct (f old) as [v|] eqn:Hv; simpl; [|done].
  apply attempt_bind. simpl. destruct (checkValue s v) as [[]|] eqn:Hc; simpl; [|done].
  apply (attempt_swap s (OpUpdate key (Some f))); [done..|].
  intros now. rewrite spec_live_eq by done. by rewrite Hv, Hc.
Qed.

Lemma attempt_delete (s : Store) key expect v0 m :
  kv_ok s m -> key <> EmptyString ->
  attempt (delete_fn s key expect) v0 m (committed s (OpDelete key expect) m).
Proof.
  intros Hok Hk. unfold delete_fn. apply attempt_bind, attempt_getRecord; [done|done|done|].
  intros old Hf Hwf. rewrite (live_wf key) by done. case_bool_decide as Hl; simpl; [|done].
  destruct (negb (expect =? 0) && negb (Revision old =? expect)) eqn:Hx; [done|].
  assert (expect = 0 \/ Revision old = expect) as Hexp.
  { destruct (Z.eqb_spec expect 0), (Z.eqb_spec (Revision old) expect); auto; done. }
  apply attempt_bind, attempt_tNow. intros now. set (new' := MkRecord _ _ _ _ _ _ _).
  change (attempt (putRecord (encodeKey s key) new') new' m (committed s (OpDelete key expect) m)).
  assert (wf key new') as Hwf'.
  { split_and!; [done|apply Hwf|apply u64_range|by right]. }
  pose proof (wf_stored _ _ Hwf') as Hst.
  apply attempt_putRecord; [done|apply Hwf'|by rewrite Hst| |done|].
  { rewrite Hf, Hst. by apply change_delete. }
  intros m' Hf' Hok' He Ho. split_and!; [|done|by right|done].
  exists now. cbn [op_key]. rewrite Hf, Hf', Hst. unfold spec. simpl.
  rewrite decide_False by done. by rewrite !decide_True.
Qed.

(** ** Atomicity *)

(** An operation that succeeds made one access that is a step of [spec], and
    all its other accesses left the store as it was; an operation that fails
    changed nothing. *)
Definition atomic (s : Store) (o : op) (r : result Record) (h : list access) : Prop :=
  match r with
  | Err _ => quiet h
  | Ok rec => exists h0 st st' now,
      h = h0 ++ [(st, st')] /\ quiet h0 /\
      spec s o now (find s (st_kv st) (op_key o)) = (Ok rec, find s (st_kv st') (op_key o)) /\
      only s (op_key o) (st_kv st) (st_kv st')
  end.

Lemma safe_finish (s : Store) (o : op) (f : fn Record unit) :
  (forall v m, kv_ok s m -> attempt f v m (committed s o m)) ->
  safe (store_ok s) (guar s) [] (finish (transact zero_record f)) (atomic s o).
Proof.
  intros Hf. unfold finish. apply safe_bind.
  apply (safe_retry _ _ _ _ _ _ _ (fun _ => True)); [done| | |].
  - intros v m b _ Hok. eapply attempt_mono; [by apply Hf|].
    intros v' [[]|e] m'; [|done]. intros ((now & Hs) & Hok' & He & Ho). split; [done|]. split.
    + split; [done|]. destruct He as [->|He]; [by left|right; by split].
    + intros h' Hh'. simpl. by exists h', (Logic.MkStore m b), (Logic.MkStore m' b), now.
  - intros v m _. by apply attempt_true.
  - intros v e h' _ Hh'. done.
Qed.

Lemma safe_get (s : Store) key b :
  key <> EmptyString ->
  safe (store_ok s) (guar s) [] (get s key b) (atomic s (if b then OpGet key else OpGetMeta key)).
Proof.
  intros Hk. unfold get. rewrite decide_False by done. simpl. intros st r Hok [|e He].
  - unfold kv_lookup. destruct (st_kv st !! encodeKey s key) as [raw|] eqn:E; simpl; [|by repeat constructor].
    assert (Hf : find s (st_kv st) key = Unmarshal raw) by (by apply find_lookup).
    destruct (Unmarshal raw) as [rec|]; [|by repeat constructor].
    assert (Hw := find_wf _ _ _ _ Hok Hf).
    case_decide as Hd; [by repeat constructor|].
    exists [], st, st, 0. split_and!; [done|by repeat constructor| |done]. unfold spec.
    destruct b; simpl; rewrite decide_False by done; rewrite Hf; [|done].
    destruct (proj2 (proj2 (proj2 Hw))) as [[Hl _]|[Hl _]]; [by rewrite decide_True|]. by destruct Hd.
  - unfold engine_error in He. rewrite He. by repeat constructor.
Qed.

Lemma safe_exec (s : Store) (o : op) :
  safe (store_ok s) (guar s) [] (exec s o) (atomic s o).
Proof.
  assert (Herr : forall o e, safe (store_ok s) (guar s) [] (Ret (Err e)) (atomic s o)).
  { intros. by constructor. }
  destruct (decide (op_key o = EmptyString)) as [E|Hk].
  { destruct o; cbn [op_key exec] in *; subst;
      unfold Create, Get, GetMeta, get, CompareAndSwap, Update, Delete;
      rewrite decide_True by done; apply Herr. }
  destruct o as [k v|k|k|k x v|k [f|]|k x]; cbn [op_key exec] in *;
    [unfold Create|apply (safe_get s k true Hk)|apply (safe_get s k false Hk)
    |unfold CompareAndSwap|unfold Update|unfold Update|unfold Delete];
    rewrite decide_False by done.
  - destruct (checkValue s v) as [[]|e] eqn:Hv; [|apply Herr].
    apply safe_finish. intros. by apply attempt_create.
  - destruct (checkValue s v) as [[]|e] eqn:Hv; [|apply Herr].
    apply safe_finish. intros. by apply attempt_cas.
  - apply safe_finish. intros. by apply attempt_update.
  - apply Herr.
  - apply safe_finish. intros. by apply attempt_delete.
Qed.

(** ** Garbage collection *)

Lemma attempt_gc (s : Store) cutoff key v0 m :
  kv_ok s m -> 0 < retention s ->
  attempt (gc_fn cutoff (encodeKey s key)) v0 m (fun v' r m' =>
    match r with
    | Err _ => True
    | Ok _ => kv_ok s m' /\
        (v' = false /\ m' = m \/
         v' = true /\ m' = delete (encodeKey s key) m /\ evolves s m m' /\
           exists old, find s m key = Some old /\ expired cutoff old = true)
    end).
Proof.
  intros Hok Hr. unfold gc_fn. apply attempt_bind. simpl. apply attempt_bind, attempt_getRecord; [done|done| |].
  - intros _. split; [done|by left].
  - intros old Hf Hwf. simpl. destruct (expired cutoff old) eqn:He; cbn [negb]; [|split; [done|by left]].
    apply attempt_bind, attempt_tDelete; [|done].
    destruct (sets_evolves s key None m (delete (encodeKey s key) m)) as (Hok' & _ & He' & _);
      [by apply (sets_delete (HK := cas_space) s)|rewrite Hf; by eapply change_collect|].
    split; [done|]. right. by split_and!; eauto.
Qed.
