(* ===== verification/CasSeq.v ===== *)
(** * cas: the operations alone on the in-memory engine

    Here errors are part of the statement: with an open store, a live context
    and a clock within the range of JSON times, an operation returns exactly
    what [CasLogic.spec] says, on every branch. *)
From S2P Require Import Prelude GoBase Base64 Utf8 Codec Storage Logic.
From S2P Require Import MemoryKV MemoryBlob Sequential Cells.
From S2P Require Import CasData Cas CasLogic.
Local Open Scope Z_scope.

(** ** Errors of the callbacks *)

(** a callback that fails does so as [spec] says *)
Definition fails (s : Store) (o : op) (m : kvmap) (r : result unit) : Prop :=
  match r with
  | Ok _ => True
  | Err er => errors_is er Storage.ErrConflict = false /\
      exists now, spec s o now (find s m (op_key o)) = (Err er, find s m (op_key o))
  end.

Lemma yields_getRecord {V} s key (v : V) m e (Q : V -> result (Record * bool) -> kvmap -> env -> Prop) :
  kv_ok s m ->
  (find s m key = None -> Q v (Ok (zero_record, false)) m e) ->
  (forall r, find s m key = Some r -> wf key r -> time_ok (CreatedAt r) ->
     Q v (Ok (r, true)) m e) ->
  yields (getRecord (encodeKey s key)) v m e Q.
Proof.
  intros Hok Hnone Hsome. apply yields_bind. unfold yields. simpl. unfold kv_lookup.
  destruct (m !! encodeKey s key) as [raw|] eqn:E.
  - destruct (Hok _ _ E (encodeKey_prefix s key)) as (key' & r & Hk & Hr & Hw & Hwf).
    apply encodeKey_inj in Hk as <-. pose proof (record_round_trip r raw Hw Hr) as Hu. rewrite Hu.
    apply Hsome; [by rewrite (find_lookup _ _ _ _ E)|done|].
    by apply mk_is_Some, record_encodable in Hr as [? _].
  - apply Hnone. by apply find_absent.
Qed.

Lemma yields_putRecord {V} s o key rec (v : V) m m0 e :
  time_ok (CreatedAt rec) -> time_ok (UpdatedAt rec) -> time_ok (DeletedAt rec) ->
  yields (putRecord key rec) v m e (fun _ r _ _ => fails s o m0 r).
Proof.
  intros Hc Hu Hd. unfold putRecord.
  destruct (proj2 (record_encodable rec)) as [raw ->]; [done|]. done.
Qed.

Section callbacks.
Context (s : Store) (m : kvmap) (e : env) (Hok : kv_ok s m) (Hclock : clock_ok e).

Lemma fails_at (o : op) er :
  errors_is er Storage.ErrConflict = false ->
  spec s o 0 (find s m (op_key o)) = (Err er, find s m (op_key o)) -> fails s o m (Err er).
Proof. intros ? ?. split; eauto. Qed.

Lemma yields_create key value v0 :
  key <> EmptyString -> checkValue s value = Ok tt ->
  yields (create_fn s key value) v0 m e (fun _ r _ _ => fails s (OpCreate key value) m r).
Proof.
  intros Hk Hv. unfold create_fn. apply yields_bind, yields_getRecord; [done| |].
  - intros Hf. apply (yields_putRecord s _ _ (MkRecord key value 1 StateLive _ _ zero_time));
      [apply Hclock..|apply zero_time_ok].
  - intros old Hf Hwf Hc. apply yields_bind. unfold yields at 1. simpl. apply yields_bind.
    destruct (decide (State old = StateLive)) as [Hl|Hl]; simpl.
    + apply fails_at; [done|]. cbn [op_key]. rewrite Hf. unfold spec. simpl.
      by rewrite decide_False, Hv, decide_True by done.
    + destruct (allowResurrection s) eqn:Ha; simpl.
      * apply (yields_putRecord s _ _ (MkRecord key value (bump old) StateLive (CreatedAt old) _ zero_time));
          [done|apply Hclock|apply zero_time_ok].
      * apply fails_at; [done|]. cbn [op_key]. rewrite Hf. unfold spec. simpl.
        rewrite decide_False by done. rewrite Hv, decide_False by done. by rewrite Ha.
Qed.

(** a missing record or a tombstone *)
Lemma spec_not_live o cell :
  op_key o <> EmptyString -> match cell with Some old => ~ is_live old | None => True end ->
  match o with
  | OpCompareAndSwap _ _ v => checkValue s v = Ok tt
  | OpUpdate _ (Some _) | OpDelete _ _ | OpGet _ => True
  | _ => False
  end ->
  spec s o 0 cell = (Err ErrNotFound, cell).
Proof.
  intros Hk Hc Ho. unfold spec. rewrite decide_False by done.
  destruct o as [| | |k x v|k [f|]|]; try done; try rewrite Ho;
    (destruct cell as [old|]; [by rewrite decide_False|done]).
Qed.

Lemma yields_swap o old value v0 :
  time_ok (CreatedAt old) -> DeletedAt old = zero_time ->
  yields (swap_fn (encodeKey s (op_key o)) old value) v0 m e (fun _ r _ _ => fails s o m r).
Proof.
  intros Hc Hd. unfold swap_fn. destruct (equal (Value old) value); [done|].
  apply (yields_putRecord s o _ (set_UpdatedAt _ (set_Revision _ (set_Value value old))));
    [done|apply Hclock|simpl]. rewrite Hd. apply zero_time_ok.
Qed.

Lemma wf_live_DeletedAt key r : wf key r -> is_live r -> DeletedAt r = zero_time.
Proof. intros (_ & _ & _ & [[_ ?]|[Ht _]]) Hl; [done|]. unfold is_live in Hl. by rewrite Hl in Ht. Qed.

Lemma yields_cas key expect value v0 :
  key <> EmptyString -> checkValue s value = Ok tt ->
  yields (cas_fn s key expect value) v0 m e
    (fun _ r _ _ => fails s (OpCompareAndSwap key expect value) m r).
Proof.
  intros Hk Hv. unfold cas_fn. apply yields_bind, yields_getRecord; [done| |].
  - intros Hf. apply fails_at; [done|]. cbn [op_key]. rewrite Hf. by apply spec_not_live.
  - intros old Hf Hwf Hc. rewrite (live_wf key) by done. case_bool_decide as Hl; simpl.
    + destruct (Z.eqb_spec (Revision old) expect) as [Hr|Hr]; simpl.
      * apply (yields_swap (OpCompareAndSwap key expect value)); [done|by eapply wf_live_DeletedAt].
      * apply fails_at; [done|]. cbn [op_key]. rewrite Hf, spec_live_eq by done.
        by rewrite Hv, decide_False.
    + apply fails_at; [done|]. cbn [op_key]. rewrite Hf. by apply spec_not_live.
Qed.

Lemma yields_update key f v0 :
  key <> EmptyString ->
  (forall r er, f r = Err er -> errors_is er Storage.ErrConflict = false) ->
  yields (update_fn s key f) v0 m e (fun _ r _ _ => fails s (OpUpdate key (Some f)) m r).
Proof.
  intros Hk Hfe. unfold update_fn. apply yields_bind, yields_getRecord; [done| |].
  - intros Hf. apply fails_at; [done|]. cbn [op_key]. rewrite Hf. by apply spec_not_live.
  - intros old Hf Hwf Hc. rewrite (live_wf key) by done. case_bool_decide as Hl; simpl.
    + apply yields_bind. unfold yields at 1. simpl. destruct (f old) as [v|er] eqn:Hv.
      * apply yields_bind. unfold yields at 1. simpl.
        destruct (checkValue s v) as [[]|er] eqn:Hcv.
        -- apply (yields_swap (OpUpdate key (Some f))); [done|by eapply wf_live_DeletedAt].
        -- apply fails_at.
           { unfold checkValue in Hcv. case_match; by simplify_eq. }
           cbn [op_key]. rewrite Hf, spec_live_eq by done. by rewrite Hv, Hcv.
      * apply fails_at; [by eapply Hfe|]. cbn [op_key]. rewrite Hf, spec_live_eq by done. by rewrite Hv.
    + apply fails_at; [done|]. cbn [op_key]. rewrite Hf. by apply spec_not_live.
Qed.

Lemma yields_delete key expect v0 :
  key <> EmptyString ->
  yields (delete_fn s key expect) v0 m e (fun _ r _ _ => fails s (OpDelete key expect) m r).
Proof.
  intros Hk. unfold delete_fn. apply yields_bind, yields_getRecord; [done| |].
  - intros Hf. apply fails_at; [done|]. cbn [op_key]. rewrite Hf. by apply spec_not_live.
  - intros old Hf Hwf Hc. rewrite (live_wf key) by done. case_bool_decide as Hl; simpl.
    + destruct (negb (expect =? 0) && negb (Revision old =? expect)) eqn:Hx.
      * apply fails_at; [done|]. cbn [op_key]. rewrite Hf. unfold spec. simpl.
        rewrite decide_False, decide_True by done. rewrite decide_False; [done|].
        intros [->|<-]; [done|]. by rewrite Z.eqb_refl, andb_false_r in Hx.
      * apply (yields_putRecord s _ _ (MkRecord _ EmptyString _ StateTombstone (CreatedAt old) _ _));
          [done|apply Hclock..].
    + apply fails_at; [done|]. cbn [op_key]. rewrite Hf. by apply spec_not_live.
Qed.
End callbacks.

(** ** Whole operations *)

(** the outcome of [o] on contents [m], as [spec] has it *)
Definition outcome (s : Store) (o : op) (m : kvmap) (r : result Record) (m' : kvmap) : Prop :=
  kv_ok s m' /\ (m' = m \/ evolves s m m') /\
  exists now, spec s o now (find s m (op_key o)) = (r, find s m' (op_key o)).

Section alone.
Context `{BlobStore B} (s : Store) (m : kvmap) (b : B) (e : env).
Context (Hok : kv_ok s m) (Hclock : clock_ok e) (Halive : ctx_alive e).

Definition ends {A} (Q : A -> kvmap -> Prop) (p : prog A) : Prop :=
  let '(a, k', b', _) := run p (open_kv m) b e in
  b' = b /\ exists m', k' = open_kv m' /\ Q a m'.

Lemma ends_finish o (f : fn Record unit) :
  (forall v, attempt f v m (committed s o m)) ->
  (forall v e, clock_ok e -> yields f v m e (fun _ r _ _ => fails s o m r)) ->
  ends (outcome s o m) (finish (transact zero_record f)).
Proof.
  intros Hc Hf. unfold ends, finish, transact. rewrite run_bind.
  assert (Hrun := run_retry 15 ErrConflict zero_record f m b e (fun a k' b' _ =>
    b' = b /\ exists m', k' = open_kv m' /\
      outcome s o m (match snd a with Ok _ => Ok (fst a) | Err er => Err er end) m') Halive).
  change (retry_loop maxAttempts) with (@retry_loop Record 16).
  destruct (run (retry_loop 16 ErrConflict zero_record f) (open_kv m) b e) as [[[[v' r] k'] b'] e'].
  apply Hrun. eapply yields_mono.
  { apply yields_and; [apply yields_attempt, Hc|apply Hf]. exact Hclock. }
  intros v1 [[]|er] m1 e1 [H1 H2]; simpl.
  - destruct H1 as ((now & Hs) & Hok1 & Hev & _). split; [done|]. exists m1. split; [done|].
    split_and!; eauto.
  - destruct H2 as [Hne (now & Hs)]. split; [done|]. split; [done|]. exists m. split; [done|].
    split_and!; eauto.
Qed.

Lemma ends_ret o r now :
  spec s o now (find s m (op_key o)) = (r, find s m (op_key o)) ->
  ends (outcome s o m) (mret r).
Proof. intros Hs. split; [done|]. exists m. split; [done|]. split_and!; eauto. Qed.

Lemma ends_get key (w : bool) :
  key <> EmptyString ->
  ends (outcome s (if w then OpGet key else OpGetMeta key) m) (get s key w).
Proof.
  intros Hk. unfold ends, get. rewrite decide_False by done. rewrite run_get by done.
  simpl. split; [done|]. exists m. split; [done|]. split_and!; [done|by left|]. exists 0.
  assert (Hkey : op_key (if w then OpGet key else OpGetMeta key) = key) by (by destruct w).
  rewrite Hkey. unfold kv_lookup.
  destruct (m !! encodeKey s key) as [raw|] eqn:E.
  - destruct (Hok _ _ E (encodeKey_prefix s key)) as (key' & r & Hk' & Hr & Hw & Hwf).
    apply encodeKey_inj in Hk' as <-. pose proof (record_round_trip r raw Hw Hr) as Hu.
    assert (find s m key = Some (stored_record r)) as Hf by (by rewrite (find_lookup _ _ _ _ E)).
    rewrite Hf, Hu. unfold spec. rewrite Hkey, decide_False by done.
    pose proof (wf_live _ _ Hwf) as Hlive.
    destruct w; [|by rewrite decide_False by naive_solver].
    destruct (decide (is_live (stored_record r))) as [Hl|Hl].
    + rewrite decide_False; [done|]. intros [Ht _]. unfold is_live in Hl. by rewrite Ht in Hl.
    + rewrite (bool_decide_false (is_live _)) in Hlive by exact Hl.
      apply bool_decide_eq_true in Hlive. by rewrite decide_True.
  - assert (find s m key = None) as Hf by (by apply find_absent).
    rewrite Hf. unfold spec. rewrite Hkey, decide_False by done. by destruct w.
Qed.
End alone.

(** Every operation alone on the engine. *)
Lemma ends_exec `{BlobStore B} (s : Store) (o : op) m (b : B) e :
  kv_ok s m -> clock_ok e -> ctx_alive e ->
  match o with
  | OpUpdate _ (Some f) => forall r er, f r = Err er -> errors_is er Storage.ErrConflict = false
  | _ => True
  end ->
  ends m b e (outcome s o m) (exec s o).
Proof.
  intros Hok Hclock Ha Hf.
  assert (Hret : forall o r, spec s o 0 (find s m (op_key o)) = (r, find s m (op_key o)) ->
    ends m b e (outcome s o m) (mret r)) by (intros; by eapply ends_ret).
  destruct (decide (op_key o = EmptyString)) as [E|Hk].
  { assert (exec s o = mret (Err ErrEmptyKey)) as ->.
    { destruct o; cbn [op_key exec] in *; subst; reflexivity. }
    apply Hret. unfold spec. by rewrite decide_True. }
  destruct o as [k v|k|k|k x v|k [f|]|k x]; cbn [op_key exec] in *;
    [unfold Create|apply (ends_get s m b e Hok Ha k true Hk)|apply (ends_get s m b e Hok Ha k false Hk)
    |unfold CompareAndSwap|unfold Update|unfold Update|unfold Delete];
    rewrite decide_False by done.
  - destruct (checkValue s v) as [[]|er] eqn:Hv.
    + apply ends_finish; [done..|intros; by apply attempt_create|intros; by apply yields_create].
    + apply Hret. unfold spec. simpl. rewrite decide_False by done. by rewrite Hv.
  - destruct (checkValue s v) as [[]|er] eqn:Hv.
    + apply ends_finish; [done..|intros; by apply attempt_cas|intros; by apply yields_cas].
    + apply Hret. unfold spec. simpl. rewrite decide_False by done. by rewrite Hv.
  - apply ends_finish; [done..|intros; by apply attempt_update|intros; by apply yields_update].
  - apply Hret. unfold spec. simpl. by rewrite decide_False.
  - apply ends_finish; [done..|intros; by apply attempt_delete|intros; by apply yields_delete].
Qed.
