(* ===== verification/CasList.v ===== *)
(** * cas: listing and garbage collection

    [List] answers from one scan; [GC] removes expired tombstones one
    transaction at a time. *)
From S2P Require Import Prelude GoBase Base64 Utf8 Codec Storage Logic.
From S2P Require Import Scan Cells CasData Cas CasLogic.
Local Open Scope Z_scope.

(** ** What a scan of the key space holds *)

(** the record at an entry of the key space *)
Lemma entry_record (s : Store) m e :
  kv_ok s m -> e ∈ scanEntries m (prefix_scan (storagePrefix s)) ->
  exists key r, en_key e = encodeKey s key /\ decodeKey s (en_key e) = Some key /\
    Unmarshal (en_value e) = Some r /\ find s m key = Some r /\ wf key r.
Proof.
  intros Hok He. destruct (entry_cell s m e Hok He) as (key & r & Hk & Hu & Hf & Hwf).
  exists key, r. split_and!; [done| |done..]. rewrite Hk. apply decodeKey_encodeKey.
Qed.

Lemma record_entry (s : Store) m key r :
  find s m key = Some r ->
  exists e, e ∈ scanEntries m (prefix_scan (storagePrefix s)) /\
    en_key e = encodeKey s key /\ Unmarshal (en_value e) = Some r.
Proof. exact (cell_entry s m key r). Qed.

(** ** List *)

(** the records [List] selects *)
Definition selects (opts : ListOptions) (key : string) (r : Record) : Prop :=
  has_prefix (lo_prefix opts) key = true /\
  (lo_start_after opts <> EmptyString -> str_lt (lo_start_after opts) key) /\
  (State r = StateTombstone -> lo_tombstones opts = true).

#[export] Instance selects_dec opts key r : Decision (selects opts key r).
Proof. unfold selects. apply _. Defined.

Definition pick (s : Store) (opts : ListOptions) (e : Entry) : option Record :=
  key ← decodeKey s (en_key e); r ← Unmarshal (en_value e);
  if decide (selects opts key r) then Some r else None.

Lemma list_entry_pick (s : Store) opts m e :
  kv_ok s m -> e ∈ scanEntries m (prefix_scan (storagePrefix s)) ->
  list_entry s opts e = Ok (pick s opts e).
Proof.
  intros Hok He. destruct (entry_record _ _ _ Hok He) as (key & r & _ & Hd & Hu & _ & _).
  unfold list_entry, pick. rewrite Hd, Hu. simpl. unfold hasPrefix.
  destruct (has_prefix (lo_prefix opts) key) eqn:Hp; cycle 1.
  { rewrite decide_False by (unfold selects; by rewrite Hp; intros [? _]).
    case_bool_decide as Hn; [by rewrite Hn in Hp|done]. }
  rewrite andb_false_r.
  case_bool_decide as Hs; simpl.
  - case_bool_decide as Ht; destruct (lo_tombstones opts) eqn:Hl; simpl;
      case_decide as Hsel; unfold selects in Hsel; try done; destruct Hsel as [];
      rewrite ?Hl in *; naive_solver.
  - destruct (String.leb key (lo_start_after opts)) eqn:Hle.
    + rewrite decide_False; [done|]. intros (_ & Hlt & _). specialize (Hlt Hs).
      apply str_not_lt in Hlt; [done|]. by unfold String.le; rewrite Hle.
    + assert (str_lt (lo_start_after opts) key) as Hlt.
      { destruct (str_lt_total (lo_start_after opts) key) as [?|[E|[Hk _]%str_lt_le]]; [done| |].
        - rewrite E in Hle. pose proof (reflexivity (R := String.le) key) as Hr.
          unfold String.le in Hr. by rewrite Hle in Hr.
        - unfold String.le in Hk. by rewrite Hle in Hk. }
      case_bool_decide as Ht; destruct (lo_tombstones opts) eqn:Hl; simpl;
        case_decide as Hsel; unfold selects in Hsel; try done; destruct Hsel as [];
        rewrite ?Hl in *; naive_solver.
Qed.

Lemma list_records_picks (s : Store) opts m es :
  kv_ok s m -> es ⊆ scanEntries m (prefix_scan (storagePrefix s)) ->
  list_records s opts es = Ok (omap (pick s opts) es).
Proof.
  intros Hok. induction es as [|e es IH]; intros Hs; [done|]. simpl.
  rewrite (list_entry_pick _ _ m) by (done || set_solver). simpl.
  rewrite IH by set_solver. simpl. by destruct (pick s opts e).
Qed.

(** the records of the unlimited listing *)
Definition listed (s : Store) (opts : ListOptions) (m : kvmap) : list Record :=
  merge_sort key_le (omap (pick s opts) (scanEntries m (prefix_scan (storagePrefix s)))).

Lemma listed_elem (s : Store) opts m r :
  kv_ok s m ->
  r ∈ listed s opts m <-> exists key, find s m key = Some r /\ selects opts key r.
Proof.
  intros Hok. unfold listed. rewrite merge_sort_Permutation, list_elem_of_omap. split.
  - intros (e & He & Hp). destruct (entry_record _ _ _ Hok He) as (key & r' & _ & Hd & Hu & Hf & _).
    unfold pick in Hp. rewrite Hd, Hu in Hp. simpl in Hp. case_decide; [|done]. simplify_eq. eauto.
  - intros (key & Hf & Hsel). destruct (record_entry _ _ _ _ Hf) as (e & He & Hk & Hu).
    exists e. split; [done|]. unfold pick. rewrite Hk, decodeKey_encodeKey, Hu. simpl.
    by rewrite decide_True.
Qed.

(** Keys that JSON stores unchanged. *)
Definition keys_valid (s : Store) (m : kvmap) : Prop :=
  forall key r, find s m key = Some r -> valid_utf8 key = true.

Lemma find_Key (s : Store) m key r :
  kv_ok s m -> keys_valid s m -> find s m key = Some r -> Key r = key.
Proof.
  intros Hok Hv Hf. destruct (find_wf _ _ _ _ Hok Hf) as (_ & -> & _).
  apply valid_utf8_spec. by eapply Hv.
Qed.

#[export] Instance key_le_trans : Transitive key_le.
Proof. unfold key_le. intros a b c ? ?. by trans (Key b). Qed.
#[export] Instance key_le_total : Total key_le.
Proof. unfold key_le. intros a b. apply (total String.le). Qed.

Lemma pick_key (s : Store) opts m e r :
  kv_ok s m -> keys_valid s m -> e ∈ scanEntries m (prefix_scan (storagePrefix s)) ->
  pick s opts e = Some r -> en_key e = encodeKey s (Key r).
Proof.
  intros Hok Hv He Hp. destruct (entry_record _ _ _ Hok He) as (key & r' & Hk & Hd & Hu & Hf & _).
  unfold pick in Hp. rewrite Hd, Hu in Hp. simpl in Hp. case_decide; [|done]. simplify_eq.
  by rewrite (find_Key s m key r).
Qed.

Lemma picks_NoDup (s : Store) opts m es :
  kv_ok s m -> keys_valid s m -> es ⊆ scanEntries m (prefix_scan (storagePrefix s)) ->
  NoDup (en_key <$> es) -> NoDup (Key <$> omap (pick s opts) es).
Proof.
  intros Hok Hv. induction es as [|e es IH]; intros Hin Hnd; [constructor|].
  simpl in *. apply NoDup_cons in Hnd as [Hne Hnd].
  assert (IHes : NoDup (Key <$> omap (pick s opts) es)) by (apply IH; set_solver).
  destruct (pick s opts e) as [r|] eqn:Hp; [|done]. simpl. constructor; [|done].
  intros (r' & Hk & (e' & He' & Hp')%list_elem_of_omap)%list_elem_of_fmap. apply Hne.
  apply list_elem_of_fmap. exists e'. split; [|done].
  rewrite (pick_key s opts m e r), (pick_key s opts m e' r') by (done || set_solver). congruence.
Qed.

Lemma listed_sorted (s : Store) opts m :
  kv_ok s m -> keys_valid s m -> StronglySorted str_lt (Key <$> listed s opts m).
Proof.
  intros Hok Hv. apply sorted_strict.
  - unfold listed. assert (Hs := StronglySorted_merge_sort key_le
      (omap (pick s opts) (scanEntries m (prefix_scan (storagePrefix s))))).
    induction Hs as [|r l Hs IH Hf]; simpl; constructor; [done|]. by apply Forall_fmap.
  - unfold listed. rewrite merge_sort_Permutation.
    apply (picks_NoDup s opts m); [done..|apply scanEntries_NoDup].
Qed.

(** [List] with no limit, then the page that the limit cuts. *)
Lemma safe_List (s : Store) opts :
  safe (store_ok s) (guar s) [] (List s opts) (fun r h =>
    match r with
    | Ok page => exists st, h = [(st, st)] /\ store_ok s st /\
        page = make_page opts (listed s opts (st_kv st))
    | Err _ => quiet h
    end).
Proof.
  unfold List. simpl. intros st Hok. split; [|intros e; by repeat constructor].
  rewrite (list_records_picks s opts (st_kv st)) by done. simpl. by exists st.
Qed.

(** ** GC *)

#[export] Instance store_eq_dec : EqDecision store.
Proof. solve_decision. Defined.

(** the number of accesses that changed the store *)
Definition writes (h : list access) : nat := length (filter (fun a => fst a <> snd a) h).

Lemma writes_app h1 h2 : writes (h1 ++ h2) = (writes h1 + writes h2)%nat.
Proof. unfold writes. by rewrite filter_app, length_app. Qed.

Lemma writes_quiet h : quiet h -> writes h = 0%nat.
Proof.
  unfold writes. induction 1 as [|[s s'] h Ha _ IH]; [done|]. unfold noop in Ha. simpl in Ha.
  rewrite filter_cons_False; [done|]. simpl. by intros [].
Qed.

(** an access that removes one tombstone expired at [cutoff] *)
Definition collects (s : Store) (cutoff : time) (a : access) : Prop :=
  exists key old, find s (st_kv (fst a)) key = Some old /\ expired cutoff old = true /\
    snd a = Logic.MkStore (delete (encodeKey s key) (st_kv (fst a))) (st_blobs (fst a)).

Lemma collects_writes (s : Store) cutoff a : collects s cutoff a -> fst a <> snd a.
Proof.
  destruct a as [[m b] st']. intros (key & old & Hf & _ & Hs) E. simpl in *. subst.
  injection E as E. rewrite E in Hf. unfold find, cell in Hf.
  cbn [ks_key cas_space] in Hf. by rewrite lookup_delete_eq in Hf.
Qed.

(** what [GC] has done when it has counted [n] removals *)
Definition collected (s : Store) (cutoff : time) (n : Z) (h : list access) : Prop :=
  n = Z.of_nat (writes h) /\ Forall (fun a => noop a \/ collects s cutoff a) h.

Lemma collected_quiet (s : Store) cutoff n h h' :
  collected s cutoff n h -> quiet h' -> collected s cutoff n (h ++ h').
Proof.
  intros [-> Hf] Hq. split; [by rewrite writes_app, (writes_quiet h'), Nat.add_0_r|].
  apply Forall_app_2; [done|]. eapply Forall_impl; [exact Hq|]. auto.
Qed.

Lemma collected_one (s : Store) cutoff n h a :
  collected s cutoff n h -> collects s cutoff a -> collected s cutoff (n + 1) (h ++ [a]).
Proof.
  intros [-> Hf] Ha. pose proof (collects_writes _ _ _ Ha) as Hne. split.
  - rewrite writes_app. unfold writes at 3. rewrite filter_cons_True by done. simpl. lia.
  - apply Forall_app_2; [done|]. apply Forall_singleton. by right.
Qed.

Lemma safe_gc_loop (s : Store) cutoff keys n h :
  0 < retention s -> Forall (fun k => exists key, k = encodeKey s key) keys ->
  collected s cutoff n h ->
  safe (store_ok s) (guar s) h (gc_loop cutoff keys n) (fun '(n', _) h' => collected s cutoff n' h').
Proof.
  intros Hr Hk. revert n h. induction Hk as [|k keys [key ->] Hk IH]; intros n h Hc; cbn [gc_loop]; [done|].
  apply safe_bind. unfold transact. apply (safe_retry _ _ _ _ _ _ _ (fun _ => True)); [done| | |].
  - intros v m b _ Hok. eapply attempt_mono; [by apply attempt_gc|].
    intros v' [[]|e] m'; [|done]. intros (Hok' & Hd). split; [done|].
    destruct Hd as [[-> ->]|(-> & -> & He & old & Hf & Hx)].
    + split; [split; auto|]. intros h' Hh'. apply IH.
      rewrite app_assoc. apply collected_quiet; [by apply collected_quiet|]. by repeat constructor.
    + split; [split; [done|right; by split]|]. intros h' Hh'. apply IH.
      rewrite app_assoc. apply collected_one; [by apply collected_quiet|]. simpl. by exists key, old.
  - intros v m _. by apply attempt_true.
  - intros v e h' _ Hh'. simpl. by apply collected_quiet.
Qed.

Lemma gc_candidates_keys (s : Store) cutoff m es keys :
  kv_ok s m -> es ⊆ scanEntries m (prefix_scan (storagePrefix s)) ->
  gc_candidates cutoff es = Ok keys -> Forall (fun k => exists key, k = encodeKey s key) keys.
Proof.
  intros Hok. revert keys. induction es as [|e es IH]; intros keys Hs Hg; simpl in Hg.
  { simplify_eq. constructor. }
  destruct (Unmarshal (en_value e)) as [r|]; [|done].
  destruct (gc_candidates cutoff es) as [ks|] eqn:E; [|done]. simpl in Hg.
  assert (Forall (fun k => exists key, k = encodeKey s key) ks) by (apply IH; [set_solver|done]).
  destruct (expired cutoff r); simplify_eq; [|done]. constructor; [|done].
  destruct (entry_record s m e Hok) as (key & _ & Hk & _); [set_solver|]. eauto.
Qed.

Lemma safe_GC (s : Store) :
  safe (store_ok s) (guar s) [] (GC s) (fun '(n, _) h =>
    exists now, collected s (Add now (- retention s)) n h).
Proof.
  unfold GC. destruct (Z.leb_spec (retention s) 0) as [Hr|Hr].
  { exists 0. split; [done|constructor]. }
  assert (Hq : forall st cutoff, collected s cutoff 0 [(st, st)]).
  { intros st cutoff. apply (collected_quiet s cutoff 0 [] [(st, st)]); [split; [done|constructor]|by repeat constructor]. }
  simpl. intros st Hok. split; [|intros e; by exists 0].
  intros st' now Hok'.
  assert (Hq2 : collected s (Add now (- retention s)) 0 [(st, st); (st', st')])
    by (apply (collected_quiet _ _ _ [(st, st)] [(st', st')]); [apply Hq|by repeat constructor]).
  destruct (gc_candidates _ _) as [keys|e] eqn:E; [|by exists now].
  eapply safe_mono; [apply safe_gc_loop; [done| |exact Hq2]; by apply (gc_candidates_keys s _ (st_kv st) _ keys Hok) in E|].
  intros [n oe] h'. by exists now.
Qed.
