(* ===== verification/CasProps.v ===== *)
(** * cas: the properties of the store

    The theorems about [Cas], each with a witness at a concrete store. *)
From S2P Require Import Prelude GoBase Base64 Utf8 Codec Storage Logic.
From S2P Require Import Cells Scan MemoryKV MemoryBlob Sequential CasData Cas.
From S2P Require Import CasLogic.
From S2P Require Import CasSeq CasList Testing.
Local Open Scope Z_scope.

(** ** Executions *)

Definition test_store : Store := New "jobs" [WithMaxValueBytes 8; WithTombstoneRetention minute].

Lemma kv_ok_empty (s : Store) : kv_ok s ∅.
Proof. apply (well_empty (HK := cas_space)). Qed.

Lemma store_ok_empty (s : Store) : store_ok s empty_store.
Proof. exact (kv_ok_empty s). Qed.

(** What a sequence of operations leaves behind on an engine that starts
    well-formed is well-formed. *)
Lemma kv_ok_after (s : Store) (p : prog unit) :
  safe (store_ok s) (guar s) [] p (fun _ _ => True) -> kv_ok s (after p).
Proof.
  intros Hp. unfold after.
  destruct (run p NewMemoryKV NewMemoryBlobStore test_env) as [[[a k'] b'] e'] eqn:E.
  assert (Hi : store_ok s (view NewMemoryKV NewMemoryBlobStore)) by exact (kv_ok_empty s).
  destruct (safe_run _ _ p _ NewMemoryKV NewMemoryBlobStore _ _ _ _ _ Hp Hi E) as (_ & Hok & _). exact Hok.
Qed.

(** ** Refinement *)

(** Linearizability. An operation of the store, interleaved with any other
    activity that respects the key space, takes effect in a single access to
    the storage: if it succeeds, its last access is a step of the abstract
    specification of its key that gives the returned record, and nothing it
    did before changed anything; if it fails, it changed nothing at all. *)
Theorem cas_linearizable (s : Store) (o : op) (st st' : store) (r : result Record) (h : list access) :
  store_ok s st -> runs_in (store_ok s) [] (exec s o) st h (Ret r) st' -> atomic s o r h.
Proof.
  exact (safe_result _ _ _ _ _ _ _ _ (safe_exec s o)).
Qed.

Lemma cas_linearizable_witness :
  exists st st' r h,
    store_ok test_store st /\
    runs_in (store_ok test_store) [] (exec test_store (OpCreate "a" "1")) st h (Ret r) st' /\
    is_ok r = true /\ atomic test_store (OpCreate "a" "1") r h.
Proof.
  destruct (run_runs_in (store_ok test_store) (exec test_store (OpCreate "a" "1"))
    NewMemoryKV NewMemoryBlobStore test_env) as (h & k' & b' & Hr).
  change (view NewMemoryKV NewMemoryBlobStore) with empty_store in Hr.
  exists empty_store. do 3 eexists. split; [apply store_ok_empty|]. split; [exact Hr|].
  split; [by vm_compute|].
  exact (cas_linearizable test_store _ _ _ _ _ (store_ok_empty test_store) Hr).
Defined.

(** C14: Functional correctness, errors included. Alone on an open in-memory
    engine, with a live context and a clock that JSON can represent, every
    operation terminates with exactly the result and the next cell that the
    specification gives, leaves every other cell and every other key alone,
    and keeps the store well-formed. *)
Theorem cas_refines_spec (s : Store) (o : op) (m : kvmap) (b : MemoryBlobStore) (e : env) :
  kv_ok s m -> clock_ok e -> ctx_alive e ->
  match o with
  | OpUpdate _ (Some f) => forall r er, f r = Err er -> errors_is er Storage.ErrConflict = false
  | _ => True
  end ->
  exists r m' e', run (exec s o) (open_kv m) b e = (r, open_kv m', b, e') /\
    kv_ok s m' /\ (m' = m \/ evolves s m m') /\
    exists now, spec s o now (find s m (op_key o)) = (r, find s m' (op_key o)).
Proof.
  intros Hok Hc Ha Hf. pose proof (ends_exec s o m b e Hok Hc Ha Hf) as He. unfold ends in He.
  destruct (run (exec s o) (open_kv m) b e) as [[[r k'] b'] e'].
  destruct He as (-> & m' & -> & Hout). by exists r, m', e'.
Qed.

Lemma cas_refines_spec_witness :
  exists r m' e',
    run (exec test_store (OpCreate "a" "123456789")) (open_kv ∅) NewMemoryBlobStore test_env
      = (r, open_kv m', NewMemoryBlobStore, e') /\ is_ok r = false.
Proof.
  destruct (cas_refines_spec test_store (OpCreate "a" "123456789") ∅ NewMemoryBlobStore test_env
    (kv_ok_empty _) test_clock_ok (fun _ => eq_refl) I) as (r & m' & e' & Hr & _ & _ & now & Hs).
  exists r, m', e'. split; [exact Hr|]. apply (f_equal fst) in Hs. cbn [fst] in Hs. by rewrite <- Hs; vm_compute.
Defined.

(** ** Invariants *)

(** A client of the store runs one of its operations. *)
Inductive cas_client (s : Store) : prog unit -> Prop :=
| client_op o : cas_client s (client (exec s o))
| client_list opts : cas_client s (client (List s opts))
| client_gc : cas_client s (client (GC s)).

Lemma cas_client_safe (s : Store) p :
  cas_client s p -> safe (store_ok s) (guar s) [] p (fun _ _ => True).
Proof.
  intros [o|opts|]; eapply safe_client; [apply safe_exec|apply safe_List|apply safe_GC].
Qed.

(** Any number of clients, interleaved at the granularity of storage
    accesses with conflicts, retries, cancelled contexts and engine failures,
    keep the store well-formed: every entry of the key space is a record under
    its own key, live or tombstone. And every change they make changes one
    cell along its life cycle, and nothing outside of the key space. *)
Theorem cas_clients_safe (s : Store) (ps ps' : list (prog unit)) (st st' : store) :
  store_ok s st -> Forall (cas_client s) ps ->
  pool_steps (store_ok s) (guar s) ps st ps' st' ->
  store_ok s st' /\ rtc (fun a b => guar s a b /\ store_ok s b) st st'.
Proof.
  intros Hok Hps Hr. apply (safe_pool _ _ _ _ _ _ Hok) in Hr; [exact Hr|].
  eapply Forall_impl; [exact Hps|]. intros p Hp. exists []. by apply cas_client_safe.
Qed.

Lemma cas_clients_safe_witness :
  let st := Logic.MkStore ∅ ∅ in
  let ps := [client (GC test_store); client (exec test_store (OpCreate "a" "1"))] in
  store_ok test_store st /\ Forall (cas_client test_store) ps /\
  store_ok test_store st /\ rtc (fun a b => guar test_store a b /\ store_ok test_store b) st st.
Proof.
  cbv zeta. set (st := Logic.MkStore ∅ ∅).
  assert (Hok : store_ok test_store st) by apply kv_ok_empty.
  assert (Hps : Forall (cas_client test_store) [client (GC test_store); client (exec test_store (OpCreate "a" "1"))]).
  { apply Forall_cons_2; [exact (client_gc test_store)|]. apply Forall_cons_2; [|apply Forall_nil_2].
    exact (client_op test_store (OpCreate "a" "1")). }
  split; [exact Hok|]. split; [exact Hps|].
  exact (cas_clients_safe test_store _ _ st st Hok Hps (pool_refl _ _ _ _)).
Defined.

(** ** Revisions *)

Lemma change_revision (s : Store) key old c :
  retention s <= 0 -> change s key (Some old) c ->
  exists new, c = Some new /\ Revision new = u64 (Revision old + 1) /\ CreatedAt new = CreatedAt old.
Proof. intros Hr Hc. invc Hc; [eexists; by split_and!..|lia]. Qed.

Lemma evolves_cell (s : Store) m m' key :
  evolves s m m' -> find s m' key = find s m key \/ change s key (find s m key) (find s m' key).
Proof.
  intros [_ (key' & Hc & Ho)]. destruct (decide (key = key')) as [->|Hne]; [by right|].
  left. by apply Ho.
Qed.

Lemma u64_add a b : u64 (u64 a + b) = u64 (a + b).
Proof. unfold u64. by rewrite Zplus_mod_idemp_l. Qed.

(** [j] of [n] changes to a store hit the cell of [key] *)
Lemma revision_counts (s : Store) n st st' key r :
  retention s <= 0 -> nsteps (guar s) n st st' -> find s (st_kv st) key = Some r ->
  in_u64 (Revision r) ->
  exists r' j, (j <= n)%nat /\ find s (st_kv st') key = Some r' /\
    Revision r' = u64 (Revision r + Z.of_nat j) /\ (j = 0%nat -> r' = r).
Proof.
  intros Hr Hn. revert r. induction Hn as [st|n st st1 st' [_ H1] Hn IH]; intros r Hf Hw.
  { exists r, 0%nat. split_and!; [lia|done| |done]. rewrite Z.add_0_r. symmetry. by apply u64_id. }
  destruct (evolves_cell _ _ _ key H1) as [E|Hc].
  - rewrite <- E in Hf. destruct (IH r Hf Hw) as (r' & j & ? & ? & ? & ?).
    exists r', j. split_and!; auto with lia.
  - rewrite Hf in Hc. apply (change_revision _ _ _ _ Hr) in Hc as (new & Hf1 & Hrev & _).
    destruct (IH new Hf1) as (r' & j & Hj & Hf' & Hr' & _); [rewrite Hrev; apply u64_range|].
    exists r', (S j). split_and!; [lia|done| |lia]. rewrite Hr', Hrev, u64_add. f_equal. lia.
Qed.


(** a store with one record *)
Definition sample : kvmap := after (client (Create (New "jobs" []) "a" "1")).


(** ** Listing *)

Definition continue_at (opts : ListOptions) (after : string) : ListOptions :=
  MkListOptions (lo_prefix opts) after (lo_limit opts) (lo_tombstones opts).

Lemma make_page_split opts recs :
  exists rest, recs = Records (make_page opts recs) ++ rest /\
    (NextStartAfter (make_page opts recs) = EmptyString -> Forall (fun r => Key r <> EmptyString) recs -> rest = []) /\
    (NextStartAfter (make_page opts recs) <> EmptyString ->
       exists r, last (Records (make_page opts recs)) = Some r /\ NextStartAfter (make_page opts recs) = Key r).
Proof.
  unfold make_page. case_decide as Hd; simpl.
  - exists (drop (Z.to_nat (lo_limit opts)) recs). split; [by rewrite take_drop|].
    unfold lastKey. destruct (last (take (Z.to_nat (lo_limit opts)) recs)) as [r|] eqn:E.
    + split; [|eauto]. intros Hk Hf. exfalso. rewrite Forall_forall in Hf.
      eapply (Hf r); [|done]. apply last_Some_elem_of in E.
      rewrite <- (take_drop (Z.to_nat (lo_limit opts)) recs). set_solver.
    + split; [|done]. intros _ _. apply last_None in E. apply (f_equal length) in E.
      rewrite length_take in E. simpl in E. lia.
  - exists []. by rewrite app_nil_r.
Qed.


(** three records, listed two at a time *)
Definition three : kvmap :=
  let s := New "jobs" [] in
  after (client (Create s "b" "2" ≫= fun _ => Create s "a" "1" ≫= fun _ => Create s "c" "3")).

Lemma three_ok : kv_ok (New "jobs" []) three.
Proof.
  apply (kv_ok_after (New "jobs" [])). eapply safe_client, safe_seq; [exact (safe_exec _ (OpCreate "b" "2"))|].
  intros _. eapply safe_seq; [exact (safe_exec _ (OpCreate "a" "1"))|].
  intros _. exact (safe_exec _ (OpCreate "c" "3")).
Qed.

(** A store whose entries all have valid keys: decided on the entries. *)
Definition keys_valid_b (s : Store) (m : kvmap) : bool :=
  forallb (fun e => match decodeKey s (en_key e) with Some k => valid_utf8 k | None => true end)
    (scanEntries m (prefix_scan (storagePrefix s))).

Lemma keys_valid_spec (s : Store) m : keys_valid_b s m = true -> keys_valid s m.
Proof.
  unfold keys_valid_b, keys_valid. rewrite List.forallb_forall. intros H key r Hf.
  destruct (record_entry _ _ _ _ Hf) as (e & He & Hk & _).
  apply list_elem_of_In, H in He. by rewrite Hk, decodeKey_encodeKey in He.
Qed.


(** ** Garbage collection *)

(** Garbage collection under interference. The count [GC] returns is the
    number of its accesses that changed the store, even when it stops with an
    error, and each of these accesses removed one record that was, at that
    very moment, a tombstone whose retention had passed. No live record is
    ever removed. *)
Theorem gc_counts_expired_tombstones (s : Store) (st st' : store) (n : Z) (err : option error)
    (h : list access) :
  store_ok s st -> runs_in (store_ok s) [] (GC s) st h (Ret (n, err)) st' ->
  n = Z.of_nat (length (filter (fun a => fst a <> snd a) h)) /\
  exists now, forall a, a ∈ h -> fst a <> snd a ->
    exists key old, find s (st_kv (fst a)) key = Some old /\ State old = StateTombstone /\
      DeletedAt old < now - retention s /\
      st_kv (snd a) = delete (encodeKey s key) (st_kv (fst a)).
Proof.
  intros Hok Hr. destruct (safe_runs_in _ (guar s) _ _ _ _ _ _ _ Hok (safe_GC s) Hr) as [_ Hs].
  destruct Hs as (now & -> & Hf). split; [done|]. exists now. intros a Ha Hne.
  rewrite Forall_forall in Hf. destruct (Hf a Ha) as [|(key & old & Hfnd & Hx & Hs)]; [done|].
  exists key, old. unfold expired in Hx. rewrite !andb_true_iff, bool_decide_eq_true in Hx.
  destruct Hx as [[Ht _] Hb]. unfold Before, Add in Hb. apply Z.ltb_lt in Hb.
  split_and!; [done|done|lia|]. by rewrite Hs.
Qed.

Definition later_env : env :=
  MkEnv (fun _ => Add unix_epoch (2 * minute)) 0 (fun _ => EmptyString) 0 (fun _ => None) 0.

(** a tombstone that a collection two minutes later removes *)
Definition tombstone : kvmap :=
  after (client (Create test_store "a" "1" ≫= fun _ => Delete test_store "a" 0)).

Definition tombstone_store : store := Logic.MkStore tombstone ∅.

Lemma tombstone_ok : store_ok test_store tombstone_store.
Proof.
  unfold store_ok. cbn [st_kv tombstone_store].
  apply (kv_ok_after test_store). eapply safe_client, safe_seq; [exact (safe_exec _ (OpCreate "a" "1"))|].
  intros _. exact (safe_exec _ (OpDelete "a" 0)).
Qed.

Lemma gc_counts_expired_tombstones_witness :
  exists h st', store_ok test_store tombstone_store /\
    runs_in (store_ok test_store) [] (GC test_store) tombstone_store h (Ret (1, None)) st' /\
    length (filter (fun a => fst a <> snd a) h) = 1%nat.
Proof.
  destruct (run_runs_in (store_ok test_store) (GC test_store)
    (open_kv tombstone) NewMemoryBlobStore later_env) as (h & k' & b' & Hr).
  assert (E : fst (fst (fst (run (GC test_store) (open_kv tombstone) NewMemoryBlobStore later_env))) = (1, None))
    by (vm_compute; reflexivity).
  rewrite E in Hr. clear E.
  assert (Hv : view (open_kv tombstone) NewMemoryBlobStore = tombstone_store).
  { unfold view. cbn. by rewrite fmap_empty. }
  rewrite Hv in Hr. do 2 eexists. split; [exact tombstone_ok|]. split; [exact Hr|].
  destruct (gc_counts_expired_tombstones test_store _ _ _ _ _ tombstone_ok Hr) as [Hn _].
  apply Nat2Z.inj. by rewrite <- Hn.
Defined.

(** ** Isolation *)

Lemma storagePrefix_disjoint (s1 s2 : Store) k :
  has_prefix (storagePrefix s1) k = true -> has_prefix (storagePrefix s2) k = true ->
  prefix s1 = prefix s2.
Proof.
  intros [r1 H1]%has_prefix_spec [r2 H2]%has_prefix_spec. rewrite H1 in H2. unfold storagePrefix in H2.
  rewrite <- !str_app_assoc in H2. apply str_app_inj_l in H2. by apply segment_inj in H2 as [? _].
Qed.

(** Isolation. Stores with different prefixes on one engine do not
    interfere: a change made by one leaves every cell of the other as it is
    and keeps the other well-formed. *)
Theorem stores_are_isolated (s1 s2 : Store) (m m' : kvmap) :
  prefix s1 <> prefix s2 -> kv_ok s2 m -> evolves s1 m m' ->
  kv_ok s2 m' /\ forall key, find s2 m' key = find s2 m key.
Proof.
  intros Hp Hok [Hout _]. apply (well_frame (HK := cas_space)); [|done]. intros k Hk. apply Hout.
  destruct (has_prefix (storagePrefix s1) k) eqn:E; [|done].
  destruct Hp. by eapply storagePrefix_disjoint.
Qed.

Definition one_record : Record := MkRecord "a" "1" 1 StateLive unix_epoch unix_epoch zero_time.
Definition one_write (s : Store) : kvmap :=
  <[encodeKey s "a" := default EmptyString (Marshal one_record)]> ∅.

Lemma one_write_evolves (s : Store) : evolves s ∅ (one_write s).
Proof.
  assert (Hm : exists raw, Marshal one_record = Some raw) by (vm_compute; by eexists).
  destruct Hm as [raw Hm].
  assert (Hw : in_width one_record) by (vm_compute; split; [discriminate|reflexivity]).
  assert (Hwf : ks_wf s "a" (stored one_record)) by
    (split; [discriminate|split; [reflexivity|split; [exact Hw|left; split; reflexivity]]]).
  pose proof (sets_insert (HK := cas_space) s ∅ "a" one_record raw (well_empty s) Hm Hw Hwf) as Hs.
  unfold one_write. rewrite Hm. cbn [default from_option].
  apply (sets_evolves s "a" (Some (stored_record one_record))).
  - exact Hs.
  - unfold find, cell. rewrite lookup_empty. exact (change_create s "a" "1" unix_epoch).
Qed.

Lemma stores_are_isolated_witness :
  let s1 := New "jobs" [] in let s2 := New "users" [] in
  prefix s1 <> prefix s2 /\ evolves s1 ∅ (one_write s1) /\ kv_ok s2 (one_write s1).
Proof.
  cbv zeta. split; [done|]. split; [apply one_write_evolves|].
  apply (stores_are_isolated (New "jobs" []) (New "users" []) ∅ (one_write (New "jobs" [])));
    [done|apply kv_ok_empty|apply one_write_evolves].
Defined.

(** ** Keys that are not UTF-8 *)

(** A key that is not valid UTF-8 does not survive the JSON record: it can
    be created and read back, but the listing reports it under another key,
    and that key does not exist. *)
Theorem list_mangles_binary_keys :
  let s := New "jobs" [] in let key := String (Ascii.ascii_of_nat 255) EmptyString in
  let m := after (client (Create s key "1")) in
  let answer {A} (p : prog A) := fst (fst (fst (run p (open_kv m) NewMemoryBlobStore test_env))) in
  is_ok (answer (Get s key)) = true /\
  exists r, answer (List s (MkListOptions "" "" 0 false)) = Ok (MkPage [r] EmptyString) /\
    Key r <> key /\ answer (Get s (Key r)) = Err CasData.ErrNotFound.
Proof.
  cbv zeta. split; [vm_compute; reflexivity|].
  eexists. split; [vm_compute; reflexivity|]. split; [by vm_compute|vm_compute; reflexivity].
Qed.
