(* ===== verification/QueueData.v ===== *)
(** * queue: job records and configuration (queue/queue.go)

    The metadata record of a job with its JSON form, the queue's
    configuration, and the keys under which jobs and payloads are stored. *)
From S2P Require Import Prelude GoBase Base64 Utf8 Json JsonLit GoTime.
From S2P Require Import Codec Hash Storage.
Local Open Scope Z_scope.

Definition statePending : string := "pending".
Definition stateClaimed : string := "claimed".
Definition stateDead : string := "dead".
Definition stateCompleted : string := "completed".

Definition ErrNoJob : error := Sentinel "queue: no job available".
Definition ErrJobNotFound : error := Sentinel "queue: job not found".
Definition ErrNotClaimed : error := Sentinel "queue: job not claimed".
Definition ErrNotDead : error := Sentinel "queue: job is not dead".
Definition ErrPayloadCorrupt : error := Sentinel "queue: corrupt payload".
Definition ErrLeaseExpired : error := Sentinel "queue: lease expired".
Definition ErrClosed : error := Sentinel "queue: closed".
Definition errJobExists : error := Sentinel "queue: job exists".

Record jobMeta := MkJobMeta {
  ID : string;
  State : string;
  PayloadKey : string;
  PayloadSize : Z;
  PayloadSHA256 : string;
  Attempts : Z;
  MaxRetries : Z;
  AvailableAt : time;
  LeaseUntil : time;
  LeaseToken : string;
  CreatedAt : time;
  UpdatedAt : time;
}.
Definition zero_meta : jobMeta :=
  MkJobMeta "" "" "" 0 "" 0 0 zero_time zero_time "" zero_time zero_time.

#[export] Instance jobMeta_eq_dec : EqDecision jobMeta.
Proof. solve_decision. Defined.

Definition set_ID x m := MkJobMeta x (State m) (PayloadKey m) (PayloadSize m) (PayloadSHA256 m) (Attempts m) (MaxRetries m) (AvailableAt m) (LeaseUntil m) (LeaseToken m) (CreatedAt m) (UpdatedAt m).
Definition set_State x m := MkJobMeta (ID m) x (PayloadKey m) (PayloadSize m) (PayloadSHA256 m) (Attempts m) (MaxRetries m) (AvailableAt m) (LeaseUntil m) (LeaseToken m) (CreatedAt m) (UpdatedAt m).
Definition set_PayloadKey x m := MkJobMeta (ID m) (State m) x (PayloadSize m) (PayloadSHA256 m) (Attempts m) (MaxRetries m) (AvailableAt m) (LeaseUntil m) (LeaseToken m) (CreatedAt m) (UpdatedAt m).
Definition set_PayloadSize x m := MkJobMeta (ID m) (State m) (PayloadKey m) x (PayloadSHA256 m) (Attempts m) (MaxRetries m) (AvailableAt m) (LeaseUntil m) (LeaseToken m) (CreatedAt m) (UpdatedAt m).
Definition set_PayloadSHA256 x m := MkJobMeta (ID m) (State m) (PayloadKey m) (PayloadSize m) x (Attempts m) (MaxRetries m) (AvailableAt m) (LeaseUntil m) (LeaseToken m) (CreatedAt m) (UpdatedAt m).
Definition set_Attempts x m := MkJobMeta (ID m) (State m) (PayloadKey m) (PayloadSize m) (PayloadSHA256 m) x (MaxRetries m) (AvailableAt m) (LeaseUntil m) (LeaseToken m) (CreatedAt m) (UpdatedAt m).
Definition set_MaxRetries x m := MkJobMeta (ID m) (State m) (PayloadKey m) (PayloadSize m) (PayloadSHA256 m) (Attempts m) x (AvailableAt m) (LeaseUntil m) (LeaseToken m) (CreatedAt m) (UpdatedAt m).
Definition set_AvailableAt x m := MkJobMeta (ID m) (State m) (PayloadKey m) (PayloadSize m) (PayloadSHA256 m) (Attempts m) (MaxRetries m) x (LeaseUntil m) (LeaseToken m) (CreatedAt m) (UpdatedAt m).
Definition set_LeaseUntil x m := MkJobMeta (ID m) (State m) (PayloadKey m) (PayloadSize m) (PayloadSHA256 m) (Attempts m) (MaxRetries m) (AvailableAt m) x (LeaseToken m) (CreatedAt m) (UpdatedAt m).
Definition set_LeaseToken x m := MkJobMeta (ID m) (State m) (PayloadKey m) (PayloadSize m) (PayloadSHA256 m) (Attempts m) (MaxRetries m) (AvailableAt m) (LeaseUntil m) x (CreatedAt m) (UpdatedAt m).
Definition set_CreatedAt x m := MkJobMeta (ID m) (State m) (PayloadKey m) (PayloadSize m) (PayloadSHA256 m) (Attempts m) (MaxRetries m) (AvailableAt m) (LeaseUntil m) (LeaseToken m) x (UpdatedAt m).
Definition set_UpdatedAt x m := MkJobMeta (ID m) (State m) (PayloadKey m) (PayloadSize m) (PayloadSHA256 m) (Attempts m) (MaxRetries m) (AvailableAt m) (LeaseUntil m) (LeaseToken m) (CreatedAt m) x.

(** ** JSON

    [omitempty] drops an empty [lease_token]; on [lease_until], a struct, it
    has no effect. *)

Definition encode_job (m : jobMeta) : option json :=
  a ← enc_time (AvailableAt m); l ← enc_time (LeaseUntil m);
  c ← enc_time (CreatedAt m); u ← enc_time (UpdatedAt m);
  Some (JObj (
    [member "id" (enc_string (ID m)); member "state" (enc_string (State m));
     member "payload_key" (enc_string (PayloadKey m)); member "payload_size" (enc_int (PayloadSize m));
     member "payload_sha256" (enc_string (PayloadSHA256 m)); member "attempts" (enc_int (Attempts m));
     member "max_retries" (enc_int (MaxRetries m)); member "available_at" a; member "lease_until" l]
    ++ (if decide (LeaseToken m = EmptyString) then [] else [member "lease_token" (enc_string (LeaseToken m))])
    ++ [member "created_at" c; member "updated_at" u])).

Definition job_fields : list (string * setter jobMeta) :=
  [("id"%stdpp, field dec_string set_ID);
   ("state"%stdpp, field dec_string set_State);
   ("payload_key"%stdpp, field dec_string set_PayloadKey);
   ("payload_size"%stdpp, field dec_i64 set_PayloadSize);
   ("payload_sha256"%stdpp, field dec_string set_PayloadSHA256);
   ("attempts"%stdpp, field dec_i64 set_Attempts);
   ("max_retries"%stdpp, field dec_i64 set_MaxRetries);
   ("available_at"%stdpp, field dec_time set_AvailableAt);
   ("lease_until"%stdpp, field dec_time set_LeaseUntil);
   ("lease_token"%stdpp, field dec_string set_LeaseToken);
   ("created_at"%stdpp, field dec_time set_CreatedAt);
   ("updated_at"%stdpp, field dec_time set_UpdatedAt)].

Definition job_width (m : jobMeta) : Prop :=
  in_i64 (PayloadSize m) /\ in_i64 (Attempts m) /\ in_i64 (MaxRetries m).

(** A record after a JSON round trip. *)
Definition stored_job (m : jobMeta) : jobMeta :=
  MkJobMeta (sanitize (ID m)) (sanitize (State m)) (sanitize (PayloadKey m)) (PayloadSize m)
    (sanitize (PayloadSHA256 m)) (Attempts m) (MaxRetries m) (AvailableAt m) (LeaseUntil m)
    (sanitize (LeaseToken m)) (CreatedAt m) (UpdatedAt m).

#[export, program] Instance job_json : GoJSON jobMeta := {
  encode := encode_job;
  decode := dec_struct job_fields zero_meta;
  in_width := job_width;
  stored := stored_job;
}.
Next Obligation.
  intros m j. unfold encode_job. intros H.
  apply bind_Some in H as (a & Ha & H). apply bind_Some in H as (l & Hl & H).
  apply bind_Some in H as (c & Hc & H). apply bind_Some in H as (u & Hu & H).
  apply (inj Some) in H as <-. case_decide; solve_json_ok.
Qed.
Next Obligation.
  intros m j (Hw1 & Hw2 & Hw3). unfold encode_job. intros H.
  apply bind_Some in H as (a & Ha & H). apply bind_Some in H as (l & Hl & H).
  apply bind_Some in H as (c & Hc & H). apply bind_Some in H as (u & Hu & H).
  apply (inj Some) in H as <-. unfold dec_struct. destruct m.
  cbn [ID State PayloadKey PayloadSize PayloadSHA256 Attempts MaxRetries AvailableAt LeaseUntil
    LeaseToken CreatedAt UpdatedAt] in *.
  case_decide; cbn [app]; repeat dec_step; [by subst|done].
Qed.
Next Obligation.
  intros j m. apply dec_struct_inv; [by vm_compute|].
  unfold job_fields, job_width. repeat apply Forall_cons_2; try apply Forall_nil_2; cbn [snd];
    apply field_inv; try done; intros v x r (? & ? & ?) Hx; apply dec_num_range in Hx;
    by split_and!.
Qed.

Lemma job_round_trip (m : jobMeta) raw :
  job_width m -> Marshal m = Some raw -> Unmarshal raw = Some (stored_job m).
Proof. exact (Unmarshal_Marshal m raw). Qed.

Lemma job_encodable (m : jobMeta) :
  is_Some (Marshal m) <->
  time_ok (AvailableAt m) /\ time_ok (LeaseUntil m) /\ time_ok (CreatedAt m) /\ time_ok (UpdatedAt m).
Proof.
  rewrite Marshal_is_Some. cbn [encode job_json]. unfold encode_job, time_ok. split.
  - intros [j H]. apply bind_Some in H as (a & Ha & H). apply bind_Some in H as (l & Hl & H).
    apply bind_Some in H as (c & Hc & H). apply bind_Some in H as (u & Hu & H). eauto 10.
  - intros ([a Ha] & [l Hl] & [c Hc] & [u Hu]). rewrite Ha, Hl, Hc, Hu. simpl. eauto.
Qed.

(** ** Configuration *)

(** [Queue]: the configuration, the [closed] flag, and whether the
    maintenance goroutine has been started ([cancel != nil]). *)
Record Queue := MkQueue {
  name : string;
  lease : duration;
  maxRetries : Z;
  maintEvery : duration;
  closed : bool;
  started : bool;
}.

Definition Option : Type := Queue -> Queue.
Definition WithLeaseDuration (d : duration) : Option :=
  fun q => MkQueue (name q) d (maxRetries q) (maintEvery q) (closed q) (started q).
Definition WithMaxRetries (n : Z) : Option :=
  fun q => MkQueue (name q) (lease q) n (maintEvery q) (closed q) (started q).
Definition WithMaintenanceInterval (d : duration) : Option :=
  fun q => MkQueue (name q) (lease q) (maxRetries q) d (closed q) (started q).

Definition New (nm : string) (opts : list Option) : Queue :=
  let q := fold_left (fun q o => o q) opts (MkQueue nm (30 * second) 3 second false false) in
  if maintEvery q <=? 0 then WithMaintenanceInterval second q else q.

Record EnqueueOptions := MkEnqueueOptions {
  JobID : string;
  IdempotencyKey : string;
  Delay : duration;
  eo_MaxRetries : Z;
}.

(** ** Keys *)

Definition namespace (q : Queue) : string := EncodeToString RawURLEncoding (name q).
Definition qprefix (q : Queue) : string := "queue/" +:+ namespace q +:+ "/job/".
Definition metaKey (q : Queue) (id : string) : string :=
  "queue/" +:+ namespace q +:+ "/job/" +:+ EncodeToString RawURLEncoding id.
Definition payloadKey (q : Queue) (id : string) : string :=
  "queue/" +:+ namespace q +:+ "/payload/" +:+ EncodeToString RawURLEncoding id.

Lemma metaKey_prefix q id : has_prefix (qprefix q) (metaKey q id) = true.
Proof.
  unfold qprefix, metaKey. apply has_prefix_spec. exists (EncodeToString RawURLEncoding id).
  by rewrite <- !str_app_assoc.
Qed.

Lemma metaKey_inj q id1 id2 : metaKey q id1 = metaKey q id2 -> id1 = id2.
Proof.
  unfold metaKey. intros H. do 3 apply str_app_inj_l in H.
  eapply EncodeToString_inj; [apply raw_url_alphabet|exact H].
Qed.
