(* ===== verification/Queue.v ===== *)
(** * queue: the operations (queue/queue.go)

    Jobs are metadata records in the key/value store, changed only inside
    transactions; payloads are blobs. *)
From S2P Require Import Prelude GoBase Base64 Utf8 Codec Hash Storage.
From S2P Require Import QueueData.
Local Open Scope Z_scope.

(** [newID]: 16 random bytes in hex *)
Definition newID (c : string) : string := hex_encode c.

Definition checkOpen (q : Queue) : result unit :=
  if closed q then Err ErrClosed else Ok tt.

Definition transaction {V} (v : V) (f : fn V unit) : prog (V * result unit) :=
  retry_loop maxAttempts Storage.ErrConflict v f.

(** ** Callbacks shared by the operations *)

Section callbacks.
Context {V : Type}.

(** [json.Unmarshal(raw, &m)], with its error returned *)
Definition decodeMeta (raw : string) : fn V jobMeta :=
  match Unmarshal raw with Some m => mret m | None => raise json_error end.

(** [data, err := json.Marshal(m)] and [tx.Put(key, data)] *)
Definition putMeta (key : string) (m : jobMeta) : fn V unit :=
  match Marshal m with Some raw => tPut key raw | None => raise json_error end.

(** [tx.Get(key)] where a missing key is the error [missing] *)
Definition getMeta (key : string) (missing : error) : fn V jobMeta :=
  r ← tGet key;
  match r with
  | Err e => if errors_is e Storage.ErrNotFound then raise missing else raise e
  | Ok raw => decodeMeta raw
  end.
End callbacks.

(** ** Enqueue *)

(** the callback that creates the job, unless it exists *)
Definition enqueue_fn (key data : string) : fn unit unit :=
  r ← tGet key;
  match r with
  | Ok _ => raise errJobExists
  | Err e => if errors_is e Storage.ErrNotFound then tPut key data else raise e
  end.

(** the job ID: the caller's, one derived from the idempotency key, or a
    random one *)
Definition with_id {A} (q : Queue) (opts : EnqueueOptions) (c : string -> prog A) : prog A :=
  if negb (bool_decide (JobID opts = EmptyString)) then c (JobID opts)
  else if negb (bool_decide (IdempotencyKey opts = EmptyString)) then
    c ("idem-" +:+ sha256_hex (name q +:+ String Ascii.zero EmptyString +:+ IdempotencyKey opts))
  else Rand 16 (fun r => c (newID r)).

Definition new_job (q : Queue) (opts : EnqueueOptions) (id pkey d : string) (now : time) : jobMeta :=
  MkJobMeta id statePending pkey (Z.of_nat (String.length d)) (sha256_hex d) 0
    (if eo_MaxRetries opts <=? 0 then maxRetries q else eo_MaxRetries opts)
    (Add now (Delay opts)) zero_time EmptyString now now.

(** the part after the payload has been stored *)
Definition publish (q : Queue) (id pkey : string) (meta : jobMeta) : prog (result (string * bool)) :=
  match Marshal meta with
  | None => mret (Err json_error)
  | Some data =>
      '(_, r) ← transaction tt (enqueue_fn (metaKey q id) data);
      match r with
      | Ok _ => mret (Ok (id, true))
      | Err e => BlobDelete pkey (fun _ =>
          mret (if errors_is e errJobExists then Ok (id, false) else Err e))
      end
  end.

Definition EnqueueReader (q : Queue) (r : reader) (size : Z) (opts : EnqueueOptions) :
    prog (result (string * bool)) :=
  match checkOpen q with
  | Err e => mret (Err e)
  | Ok _ =>
      with_id q opts (fun id =>
        KvGet (metaKey q id) (fun got =>
          match got with
          | Ok _ => mret (Ok (id, false))
          | Err e =>
              if negb (errors_is e Storage.ErrNotFound) then mret (Err e) else
              Rand 16 (fun r16 =>
                let pkey := payloadKey q id +:+ "/" +:+ newID r16 in
                BlobPut pkey r size (fun d put =>
                  match put with
                  | Err e => mret (Err (Wrap "queue: put payload: %w" e))
                  | Ok _ => Now (fun now => publish q id pkey (new_job q opts id pkey d now))
                  end))
          end))
  end.

Definition Enqueue (q : Queue) (payload : string) (opts : EnqueueOptions) :
    prog (result (string * bool)) :=
  EnqueueReader q (bytes_reader payload) (Z.of_nat (String.length payload)) opts.

(** ** Claim *)

(** the pending and available jobs among the entries; entries that do not
    decode are skipped *)
Definition candidate (now : time) (e : Entry) : option jobMeta :=
  m ← Unmarshal (en_value e);
  if bool_decide (State m = statePending) && negb (After (AvailableAt m) now) then Some m else None.
Definition candidates (now : time) (es : list Entry) : list jobMeta := omap (candidate now) es.

(** the order of [sort.Slice]: availability, creation, ID *)
Definition job_less (a b : jobMeta) : bool :=
  if negb (AvailableAt a =? AvailableAt b) then Before (AvailableAt a) (AvailableAt b)
  else if negb (CreatedAt a =? CreatedAt b) then Before (CreatedAt a) (CreatedAt b)
  else String.ltb (ID a) (ID b).

(** [candidates[0]] after sorting: the first one that no other precedes *)
Fixpoint first_job (best : jobMeta) (ms : list jobMeta) : jobMeta :=
  match ms with
  | [] => best
  | m :: ms' => first_job (if job_less m best then m else best) ms'
  end.

Definition claim_job (m : jobMeta) (now : time) (d : duration) (token : string) : jobMeta :=
  MkJobMeta (ID m) stateClaimed (PayloadKey m) (PayloadSize m) (PayloadSHA256 m)
    (i64 (Attempts m + 1)) (MaxRetries m) (AvailableAt m) (Add now d) token (CreatedAt m) now.

Definition claim_fn (q : Queue) (d : duration) : fn (option jobMeta) unit :=
  assign None;;
  now ← tNow;
  entries ← tScan (prefix_scan (qprefix q));
  match candidates now entries with
  | [] => raise ErrNoJob
  | m :: ms =>
      let m := first_job m ms in
      r16 ← tRand 16;
      let m' := claim_job m now d (newID r16) in
      putMeta (metaKey q (ID m')) m';;
      assign (Some m')
  end.

(** [<= 0] selects the default of the queue *)
Definition lease_for (q : Queue) (d : duration) : duration := if d <=? 0 then lease q else d.

(** a [Job] is the record that was claimed *)
Definition Claim (q : Queue) (leaseDuration : duration) : prog (result jobMeta) :=
  match checkOpen q with
  | Err e => mret (Err e)
  | Ok _ =>
      '(claimed, r) ← transaction None (claim_fn q (lease_for q leaseDuration));
      mret (match r, claimed with
            | Ok _, Some m => Ok m
            | Ok _, None => Err (Plain "unreachable")
            | Err e, _ => Err e
            end)
  end.

(** ** Payloads *)

(** [verifyingPayloadReader]: what reading it to the end yields. At a clean
    end of the stream the number of bytes and their hash must match. *)
Definition verify_payload (r : reader) (wantN : Z) (wantSum : string) : reader :=
  MkReader (rd_chunks r)
    (match rd_err r with
     | Some e => Some e
     | None =>
         if negb (i64 (Z.of_nat (String.length (rd_data r))) =? wantN)
            || negb (bool_decide (sha256_hex (rd_data r) = wantSum))
         then Some ErrPayloadCorrupt else None
     end).

Definition OpenPayload (j : jobMeta) : prog (result reader) :=
  BlobOpenRange (PayloadKey j) None (fun r => mret (
    rc ← r; Ok (verify_payload rc (PayloadSize j) (PayloadSHA256 j)))).

(** ** The holder's operations *)

(** the guards of [transition] and of [Complete] *)
Definition holds (m j : jobMeta) : bool :=
  bool_decide (State m = stateClaimed) && negb (bool_decide (LeaseToken m = EmptyString))
  && bool_decide (LeaseToken m = LeaseToken j).

Definition transition {V} (q : Queue) (j : jobMeta) (f : jobMeta -> fn V jobMeta) : fn V unit :=
  now ← tNow;
  m ← getMeta (metaKey q (ID j)) ErrJobNotFound;
  if negb (holds m j) then raise ErrNotClaimed
  else if negb (After (LeaseUntil m) now) then raise ErrLeaseExpired
  else
    m ← f m;
    let m := set_UpdatedAt now m in
    putMeta (metaKey q (ID m)) m.

(** [Renew]; the error, and the job with its new lease *)
Definition renew_fn (d : duration) (m : jobMeta) : fn time jobMeta :=
  now ← tNow;
  assign (Add now d);;
  mret (set_LeaseUntil (Add now d) m).
Definition Renew (q : Queue) (j : jobMeta) (d : duration) : prog (result unit * jobMeta) :=
  '(newLease, r) ← transaction zero_time (transition q j (renew_fn (lease_for q d)));
  mret (match r with Ok _ => (Ok tt, set_LeaseUntil newLease j) | Err e => (Err e, j) end).

Definition release (state : string) (m : jobMeta) : jobMeta :=
  set_LeaseToken EmptyString (set_LeaseUntil zero_time (set_State state m)).

(** [Retry]; whether the job is dead, and the error *)
Definition retry_fn (delay : duration) (m : jobMeta) : fn bool jobMeta :=
  now ← tNow;
  assign false;;
  if MaxRetries m <=? Attempts m then
    assign true;;
    mret (release stateDead m)
  else mret (set_AvailableAt (Add now delay) (release statePending m)).
Definition Retry (q : Queue) (j : jobMeta) (delay : duration) : prog (bool * result unit) :=
  transaction false (transition q j (retry_fn delay)).

Definition Dead (q : Queue) (j : jobMeta) : prog (result unit) :=
  '(_, r) ← transaction tt (transition q j (fun m => mret (release stateDead m)));
  mret r.

(** the two transactions of [Complete]; a missing record counts as done *)
Definition complete_fn (q : Queue) (j : jobMeta) : fn unit unit :=
  now ← tNow;
  r ← tGet (metaKey q (ID j));
  match r with
  | Err e => if errors_is e Storage.ErrNotFound then mret tt else raise e
  | Ok raw =>
      m ← decodeMeta raw;
      if bool_decide (State m = stateCompleted) && bool_decide (LeaseToken m = LeaseToken j) then mret tt
      else if negb (holds m j) then raise ErrNotClaimed
      else if negb (After (LeaseUntil m) now) then raise ErrLeaseExpired
      else
        let m := set_UpdatedAt now (set_LeaseUntil zero_time (set_State stateCompleted m)) in
        putMeta (metaKey q (ID m)) m
  end.
Definition cleanup_fn (q : Queue) (j : jobMeta) : fn unit unit :=
  r ← tGet (metaKey q (ID j));
  match r with
  | Err e => if errors_is e Storage.ErrNotFound then mret tt else raise e
  | Ok raw =>
      m ← decodeMeta raw;
      if negb (bool_decide (State m = stateCompleted)) || negb (bool_decide (LeaseToken m = LeaseToken j))
      then raise ErrNotClaimed
      else tDelete (metaKey q (ID m))
  end.

Definition Complete (q : Queue) (j : jobMeta) : prog (result unit) :=
  '(_, r) ← transaction tt (complete_fn q j);
  match r with
  | Err e => mret (Err e)
  | Ok _ =>
      BlobDelete (PayloadKey j) (fun r =>
        match r with
        | Err e => mret (Err e)
        | Ok _ =>
            '(_, r) ← transaction tt (cleanup_fn q j);
            mret r
        end)
  end.

(** ** Dead letters *)

Definition dead_id (e : Entry) : option string :=
  m ← Unmarshal (en_value e);
  if bool_decide (State m = stateDead) then Some (ID m) else None.

Definition ListDead (q : Queue) : prog (result (list string)) :=
  match checkOpen q with
  | Err e => mret (Err e)
  | Ok _ => KvScan (prefix_scan (qprefix q)) (fun r => mret (
      es ← r; Ok (merge_sort String.le (omap dead_id es))))
  end.

Definition requeue_fn (q : Queue) (id : string) (now : time) : fn unit unit :=
  m ← getMeta (metaKey q id) ErrJobNotFound;
  if negb (bool_decide (State m = stateDead)) then raise ErrNotDead
  else putMeta (metaKey q id)
    (set_UpdatedAt now (set_LeaseUntil zero_time (set_AvailableAt now (set_Attempts 0 (set_State statePending m))))).

Definition RequeueDead (q : Queue) (id : string) : prog (result unit) :=
  match checkOpen q with
  | Err e => mret (Err e)
  | Ok _ => Now (fun now =>
      '(_, r) ← transaction tt (requeue_fn q id now);
      mret r)
  end.

(** ** Maintenance *)

(** a claimed job whose lease has passed *)
Definition lapsed (now : time) (m : jobMeta) : bool :=
  bool_decide (State m = stateClaimed) && negb (IsZero (LeaseUntil m)) && negb (After (LeaseUntil m) now).
Definition reap_job (now : time) (m : jobMeta) : jobMeta :=
  set_UpdatedAt now (set_LeaseToken EmptyString (set_LeaseUntil zero_time (
    if MaxRetries m <=? Attempts m then set_State stateDead m
    else set_AvailableAt now (set_State statePending m)))).

(** the loop over the scanned entries; the captured variable is the list of
    completed jobs *)
Fixpoint reap_entries (q : Queue) (now : time) (es : list Entry) : fn (list jobMeta) unit :=
  match es with
  | [] => mret tt
  | e :: es' =>
      match Unmarshal (en_value e) with
      | None => reap_entries q now es'
      | Some m =>
          if bool_decide (State m = stateCompleted) then
            cs ← captured; assign (cs ++ [m]);; reap_entries q now es'
          else if negb (lapsed now m) then reap_entries q now es'
          else putMeta (metaKey q (ID m)) (reap_job now m);; reap_entries q now es'
      end
  end.
Definition reap_fn (q : Queue) : fn (list jobMeta) unit :=
  assign [];;
  now ← tNow;
  entries ← tScan (prefix_scan (qprefix q));
  reap_entries q now entries.

Definition sweep_fn (q : Queue) (m : jobMeta) : fn unit unit :=
  r ← tGet (metaKey q (ID m));
  raw ← try r;
  current ← decodeMeta raw;
  if negb (bool_decide (State current = stateCompleted))
     || negb (bool_decide (LeaseToken current = LeaseToken m))
  then mret tt else tDelete (metaKey q (ID m)).

Fixpoint sweep (q : Queue) (ms : list jobMeta) : prog unit :=
  match ms with
  | [] => mret tt
  | m :: ms' =>
      BlobDelete (PayloadKey m) (fun r =>
        match r with
        | Err _ => sweep q ms'
        | Ok _ => transaction tt (sweep_fn q m) ≫= fun _ => sweep q ms'
        end)
  end.

Definition reapExpired (q : Queue) : prog (result unit) :=
  '(completed, r) ← transaction [] (reap_fn q);
  match r with
  | Err e => mret (Err e)
  | Ok _ => sweep q completed;; mret (Ok tt)
  end.

(** the maintenance goroutine *)
Definition maintenance (q : Queue) (ws : list wakeup) : prog unit := ticker_loop (reapExpired q) ws.

(** [StartMaintenance]: the new state, and whether a goroutine was started *)
Definition StartMaintenance (q : Queue) : Queue * bool :=
  if closed q then (q, false)
  else if started q then (q, false)
  else (MkQueue (name q) (lease q) (maxRetries q) (maintEvery q) (closed q) true, true).

(** [Close]: the new state, the error, and whether a goroutine was cancelled
    and waited for *)
Definition Close (q : Queue) : Queue * result unit * bool :=
  if closed q then (q, Err ErrClosed, false)
  else (MkQueue (name q) (lease q) (maxRetries q) (maintEvery q) true (started q), Ok tt, started q).
