(* ===== verification/QueueLogic.v ===== *)
(** * queue: the life cycle of a job

    The invariant of the job records, the state machine of a job as an
    inductive relation whose labels say which operation moved it, and what
    each transaction callback of [Queue] does to the records. *)
From S2P Require Import Prelude GoBase Base64 Utf8 Codec Hash Storage.
From S2P Require Import Logic.
From S2P Require Import Scan Cells QueueData Queue.
Local Open Scope Z_scope.

(** ** The invariant *)

(** a job is delivered at most this many times before it is dead *)
Definition bound (j : jobMeta) : Z := Z.max 1 (MaxRetries j).

Definition idle (j : jobMeta) : Prop := LeaseToken j = EmptyString /\ LeaseUntil j = zero_time.
Definition tried (j : jobMeta) : Prop := 1 <= Attempts j <= bound j.

Definition state_ok (j : jobMeta) : Prop :=
  State j = statePending /\ idle j /\ (Attempts j = 0 \/ 0 < Attempts j < MaxRetries j)
  \/ State j = stateClaimed /\ LeaseToken j <> EmptyString /\ tried j
  \/ State j = stateDead /\ idle j /\ tried j
  \/ State j = stateCompleted /\ LeaseToken j <> EmptyString /\ LeaseUntil j = zero_time /\ tried j.

(** The record of job [id]: its strings survive JSON, and its payload lies
    under the payload key of [id]. *)
Definition wf (q : Queue) (id : string) (j : jobMeta) : Prop :=
  valid_utf8 id = true /\ ID j = id /\ stored_job j = j /\ job_width j /\
  (exists r, PayloadKey j = payloadKey q id +:+ "/" +:+ r) /\ state_ok j.

#[export, program] Instance job_space : KeySpace Queue jobMeta := {
  ks_prefix := qprefix;
  ks_key := metaKey;
  ks_wf := wf;
}.
Next Obligation. exact metaKey_prefix. Qed.
Next Obligation. exact metaKey_inj. Qed.

Definition job (q : Queue) (m : kvmap) (id : string) : option jobMeta := cell q m id.
Definition jobs_ok (q : Queue) (m : kvmap) : Prop := well q m.

(** ** The state machine *)

(** the holder of token [tok] at time [now] *)
Definition held (tok : string) (now : time) (j : jobMeta) : Prop :=
  State j = stateClaimed /\ LeaseToken j = tok /\ tok <> EmptyString /\ now < LeaseUntil j.

(** available to be claimed at [now] *)
Definition ready (now : time) (j : jobMeta) : Prop := State j = statePending /\ AvailableAt j <= now.

Inductive label :=
| LEnqueue
| LClaim (now : time) (tok : string)
| LRenew (tok : string) (now : time)
| LRelease (tok : string) (now : time)
| LComplete (tok : string) (now : time)
| LCleanup (tok : string)
| LReap (now : time)
| LRequeue.

Inductive moves : label -> option jobMeta -> option jobMeta -> Prop :=
| move_enqueue j :
    State j = statePending -> Attempts j = 0 -> moves LEnqueue None (Some j)
| move_claim now d tok j :
    ready now j -> moves (LClaim now tok) (Some j) (Some (claim_job j now d tok))
| move_renew tok now u j :
    held tok now j ->
    moves (LRenew tok now) (Some j) (Some (set_UpdatedAt now (set_LeaseUntil u j)))
| move_retry tok now a j :
    held tok now j -> Attempts j < MaxRetries j ->
    moves (LRelease tok now) (Some j)
      (Some (set_UpdatedAt now (set_AvailableAt a (release statePending j))))
| move_dead tok now j :
    held tok now j ->
    moves (LRelease tok now) (Some j) (Some (set_UpdatedAt now (release stateDead j)))
| move_complete tok now j :
    held tok now j ->
    moves (LComplete tok now) (Some j)
      (Some (set_UpdatedAt now (set_LeaseUntil zero_time (set_State stateCompleted j))))
| move_cleanup tok j :
    State j = stateCompleted -> LeaseToken j = tok -> moves (LCleanup tok) (Some j) None
| move_reap now j :
    lapsed now j = true -> moves (LReap now) (Some j) (Some (reap_job now j))
| move_requeue now j :
    State j = stateDead ->
    moves LRequeue (Some j) (Some (set_UpdatedAt now (set_LeaseUntil zero_time
      (set_AvailableAt now (set_Attempts 0 (set_State statePending j)))))).

(** the other jobs are as they were *)
Definition alone (q : Queue) (id : string) (m m' : kvmap) : Prop :=
  forall id', id' <> id -> job q m' id' = job q m id'.

(** one job takes the step [l] *)
Definition turns (q : Queue) (id : string) (l : label) (m m' : kvmap) : Prop :=
  moves l (job q m id) (job q m' id) /\ alone q id m m'.

(** A commit moves some jobs, and touches nothing outside the records. *)
Definition evolves (q : Queue) (m m' : kvmap) : Prop :=
  (forall k, has_prefix (qprefix q) k = false -> m' !! k = m !! k) /\
  forall id, job q m' id = job q m id \/ exists l, moves l (job q m id) (job q m' id).

(** The blobs of the queue. *)
Definition payloads (q : Queue) : string := "queue/" +:+ namespace q +:+ "/payload/".

Definition store_ok (q : Queue) (st : store) : Prop := jobs_ok q (st_kv st).
Definition guar (q : Queue) (st st' : store) : Prop :=
  evolves q (st_kv st) (st_kv st') /\
  forall k, has_prefix (payloads q) k = false -> st_blobs st' !! k = st_blobs st !! k.

(** ** Preservation *)

Lemma evolves_refl q m : evolves q m m.
Proof. split; auto. Qed.

Lemma sets_moves (q : Queue) id c m m' l :
  sets q id c m m' -> moves l (job q m id) c ->
  jobs_ok q m' /\ job q m' id = c /\ evolves q m m' /\ turns q id l m m'.
Proof.
  intros (Hw & Hc & Ho & Hout) Hl. split_and!; [done..| |].
  - split; [exact Hout|].
    intros id'. unfold job in *. destruct (decide (id' = id)) as [->|Hne]; [rewrite Hc; eauto|].
    left. by apply Ho.
  - split; [|exact Ho]. by replace (job q m' id) with c.
Qed.

(** the state of a well-formed job determines the rest of [state_ok] *)
Lemma wf_state q id j : wf q id j -> state_ok j.
Proof. intros H. apply H. Qed.

Ltac bad_state :=
  match goal with
  | H : State ?j = ?a, H' : State ?j = ?b |- _ => rewrite H in H'; discriminate H'
  end.

Lemma wf_pending q id j : wf q id j -> State j = statePending ->
  idle j /\ (Attempts j = 0 \/ 0 < Attempts j < MaxRetries j).
Proof. intros Hw Hs. destruct (wf_state _ _ _ Hw) as [?|[?|[?|?]]]; destruct_and?; try done; bad_state. Qed.

Lemma wf_claimed q id j : wf q id j -> State j = stateClaimed -> LeaseToken j <> EmptyString /\ tried j.
Proof. intros Hw Hs. destruct (wf_state _ _ _ Hw) as [?|[?|[?|?]]]; destruct_and?; try done; bad_state. Qed.

Lemma wf_dead q id j : wf q id j -> State j = stateDead -> idle j /\ tried j.
Proof. intros Hw Hs. destruct (wf_state _ _ _ Hw) as [?|[?|[?|?]]]; destruct_and?; try done; bad_state. Qed.

(** Writing the next record of a job that is well-formed keeps all but the
    state. *)
Definition same_job (j j' : jobMeta) : Prop :=
  ID j' = ID j /\ PayloadKey j' = PayloadKey j /\ PayloadSize j' = PayloadSize j /\
  PayloadSHA256 j' = PayloadSHA256 j /\ MaxRetries j' = MaxRetries j /\ CreatedAt j' = CreatedAt j.

Lemma wf_next q id j j' :
  wf q id j -> same_job j j' -> in_i64 (Attempts j') ->
  ascii (State j') -> (LeaseToken j' = LeaseToken j \/ ascii (LeaseToken j')) -> state_ok j' ->
  wf q id j'.
Proof.
  intros (Hv & Hid & Hst & (Hw1 & Hw2 & Hw3) & Hpk & _) (E1 & E2 & E3 & E4 & E5 & E6) Ha Has Hat Hok.
  split_and!; [done|congruence| | |by rewrite E2|done].
  - destruct j, j'. unfold stored_job in *. simpl in *. subst.
    injection Hst as ? ? ? ? ?. repeat f_equal; auto with s3db.
    destruct Hat as [->|?]; auto with s3db.
  - unfold job_width. rewrite E3, E5. done.
Qed.

Lemma tried_range q id j : wf q id j -> tried j -> in_i64 (Attempts j) /\ 0 < Attempts j.
Proof.
  intros (_ & _ & _ & (_ & _ & Hm) & _) [H1 H2]. unfold bound, in_i64 in *. lia.
Qed.

Ltac same_job := unfold same_job; split_and!; reflexivity.

Lemma wf_claim q id j now d tok :
  wf q id j -> ready now j -> tok <> EmptyString -> ascii tok -> wf q id (claim_job j now d tok).
Proof.
  intros Hw [Hs _] Hne Ht. destruct (wf_pending _ _ _ Hw Hs) as [_ Ha].
  pose proof (proj2 (proj2 (proj1 (proj2 (proj2 (proj2 Hw)))))) as Hm. unfold in_i64 in Hm.
  assert (Hr : i64 (Attempts j + 1) = Attempts j + 1) by (apply i64_id; unfold in_i64; lia).
  apply (wf_next q id j); [done|same_job|apply i64_range|simpl; auto with s3db|by right|].
  right. left. simpl. split_and!; [done|done|]. unfold tried, bound. simpl. rewrite Hr. lia.
Qed.

Lemma wf_renew q id j now u tok :
  wf q id j -> held tok now j -> wf q id (set_UpdatedAt now (set_LeaseUntil u j)).
Proof.
  intros Hw (Hs & Ht & Hne & _). destruct (wf_claimed _ _ _ Hw Hs) as [_ Ha].
  apply (wf_next q id j); [done|same_job|exact (proj1 (tried_range q id j Hw Ha))| |by left|].
  - simpl. rewrite Hs. auto with s3db.
  - right. left. simpl. split_and!; [done|congruence|done].
Qed.

Lemma wf_retry q id j now a tok :
  wf q id j -> held tok now j -> Attempts j < MaxRetries j ->
  wf q id (set_UpdatedAt now (set_AvailableAt a (release statePending j))).
Proof.
  intros Hw (Hs & _) Hlt. destruct (wf_claimed _ _ _ Hw Hs) as [_ Ha].
  destruct (tried_range _ _ _ Hw Ha) as [? ?].
  apply (wf_next q id j); [done|same_job|done|simpl; auto with s3db|right; simpl; auto with s3db|].
  left. simpl. split; [done|split; [done|right; simpl; lia]].
Qed.

Lemma wf_dead_next q id j now :
  wf q id j -> State j = stateClaimed -> wf q id (set_UpdatedAt now (release stateDead j)).
Proof.
  intros Hw Hs. destruct (wf_claimed _ _ _ Hw Hs) as [_ Ha].
  destruct (tried_range _ _ _ Hw Ha) as [? ?].
  apply (wf_next q id j); [done|same_job|done|simpl; auto with s3db|right; simpl; auto with s3db|].
  right. right. left. simpl. split; [done|split; [done|exact Ha]].
Qed.

Lemma wf_complete q id j now tok :
  wf q id j -> held tok now j ->
  wf q id (set_UpdatedAt now (set_LeaseUntil zero_time (set_State stateCompleted j))).
Proof.
  intros Hw (Hs & Ht & Hne & _). destruct (wf_claimed _ _ _ Hw Hs) as [_ Ha].
  destruct (tried_range _ _ _ Hw Ha) as [? ?].
  apply (wf_next q id j); [done|same_job|done|simpl; auto with s3db|by left|].
  right. right. right. simpl. split_and!; [done|congruence|done|done].
Qed.

Lemma lapsed_claimed now j : lapsed now j = true -> State j = stateClaimed /\ LeaseUntil j <= now.
Proof.
  unfold lapsed, After. rewrite !andb_true_iff, bool_decide_eq_true.
  intros [[Hs _] Hl]. split; [done|]. destruct (Z.ltb_spec now (LeaseUntil j)); [done|lia].
Qed.

Lemma wf_reap q id j now : wf q id j -> lapsed now j = true -> wf q id (reap_job now j).
Proof.
  intros Hw [Hs _]%lapsed_claimed. destruct (wf_claimed _ _ _ Hw Hs) as [_ Ha].
  destruct (tried_range _ _ _ Hw Ha) as [? ?]. unfold reap_job.
  destruct (Z.leb_spec (MaxRetries j) (Attempts j));
    (apply (wf_next q id j); [done|same_job|done|simpl; auto with s3db|right; simpl; auto with s3db|]).
  - right. right. left. simpl. split; [done|split; [done|exact Ha]].
  - left. simpl. split; [done|split; [done|right; simpl; lia]].
Qed.

Lemma wf_requeue q id j now :
  wf q id j -> State j = stateDead ->
  wf q id (set_UpdatedAt now (set_LeaseUntil zero_time (set_AvailableAt now (set_Attempts 0 (set_State statePending j))))).
Proof.
  intros Hw Hs. destruct (wf_dead _ _ _ Hw Hs) as [[Ht _] _].
  apply (wf_next q id j); [done|same_job|done|simpl; auto with s3db|by left|].
  left. simpl. split; [done|split; [done|by left]].
Qed.

Lemma wf_enqueue q opts id d now r16 :
  valid_utf8 id = true -> in_i64 (Z.of_nat (String.length d)) ->
  in_i64 (maxRetries q) -> in_i64 (eo_MaxRetries opts) ->
  wf q id (new_job q opts id (payloadKey q id +:+ "/" +:+ newID r16) d now).
Proof.
  intros Hv Hd Hq Ho. apply valid_utf8_spec in Hv as Hs.
  assert (Hpk : ascii (payloadKey q id +:+ "/" +:+ newID r16)).
  { unfold payloadKey, namespace, newID. auto 10 with s3db. }
  split_and!; [done|done| | |by exists (newID r16)|].
  - unfold stored_job, new_job. simpl. f_equal; auto with s3db.
  - split_and!; [done|done|]. simpl. by destruct (eo_MaxRetries opts <=? 0).
  - left. simpl. split; [done|split; [done|by left]].
Qed.

(** ** The order of claims *)

Definition job_lt (a b : jobMeta) : Prop :=
  AvailableAt a < AvailableAt b \/
  AvailableAt a = AvailableAt b /\
    (CreatedAt a < CreatedAt b \/ CreatedAt a = CreatedAt b /\ str_lt (ID a) (ID b)).

Lemma job_less_spec a b : job_less a b = true <-> job_lt a b.
Proof.
  unfold job_less, job_lt, Before, str_lt.
  destruct (Z.eqb_spec (AvailableAt a) (AvailableAt b)); simpl; [|rewrite Z.ltb_lt; lia].
  destruct (Z.eqb_spec (CreatedAt a) (CreatedAt b)); simpl; [|rewrite Z.ltb_lt; lia].
  split; [auto|]. intros [?|[_ [?|[_ ?]]]]; [lia|lia|done].
Qed.

#[export] Instance job_lt_trans : Transitive job_lt.
Proof.
  unfold job_lt. intros a b c H1 H2.
  destruct H1 as [?|[? [?|[? H1]]]], H2 as [?|[? [?|[? H2]]]]; try lia.
  right. split; [lia|]. right. split; [lia|]. by trans (ID b).
Qed.
#[export] Instance job_lt_irrefl : Irreflexive job_lt.
Proof.
  intros a [?|[_ [?|[_ H]]]]; [lia|lia|]. by eapply irreflexivity in H; [|apply str_lt_irrefl].
Qed.

Lemma first_job_elem best ms : first_job best ms ∈ best :: ms.
Proof.
  revert best. induction ms as [|m ms IH]; intros best; simpl; [set_solver|].
  specialize (IH (if job_less m best then m else best)). destruct (job_less m best); set_solver.
Qed.

Lemma job_lt_negtrans a b c : ~ job_lt b a -> ~ job_lt a c -> ~ job_lt b c.
Proof.
  unfold job_lt. intros H1 H2 H3. destruct (str_lt_total (ID a) (ID b)) as [?|[E|?]].
  - destruct (Z.lt_trichotomy (AvailableAt a) (AvailableAt b)) as [?|[?|?]],
      (Z.lt_trichotomy (CreatedAt a) (CreatedAt b)) as [?|[?|?]];
      destruct H3 as [?|[? [?|[? ?]]]]; try lia; apply H2;
      try (left; lia); right; (split; [lia|]); try (left; lia); right; (split; [lia|]).
    by trans (ID b).
  - rewrite E in *. destruct H3 as [?|[? [?|[? ?]]]].
    + lia.
    + lia.
    + destruct (Z.lt_trichotomy (AvailableAt a) (AvailableAt b)) as [?|[?|?]]; [lia| |lia].
      destruct (Z.lt_trichotomy (CreatedAt a) (CreatedAt b)) as [?|[?|?]]; [lia| |lia].
      apply H2. right. split; [lia|]. right. split; [lia|done].
  - destruct (Z.lt_trichotomy (AvailableAt a) (AvailableAt b)) as [?|[?|?]]; [|
      destruct (Z.lt_trichotomy (CreatedAt a) (CreatedAt b)) as [?|[?|?]];
        [|apply H1; right; split; [lia|right; split; [lia|done]]|apply H1; right; split; [lia|left; lia]]
      |apply H1; left; lia].
    + apply H2. left. destruct H3 as [?|[? _]]; lia.
    + apply H2. destruct H3 as [?|[? [?|[? _]]]]; [left; lia|right; split; [lia|left; lia]..].
Qed.

Lemma first_job_least best ms x : x ∈ best :: ms -> ~ job_lt x (first_job best ms).
Proof.
  revert best x. induction ms as [|m ms IH]; intros best x; simpl.
  - intros ->%list_elem_of_singleton. apply irreflexivity, _.
  - destruct (job_less m best) eqn:E.
    + apply job_less_spec in E. intros [->|[->|Hx]%elem_of_cons]%elem_of_cons.
      * intros Hlt. apply (IH m m); [set_solver|]. by trans best.
      * apply IH. set_solver.
      * apply IH. set_solver.
    + intros [->|[->|Hx]%elem_of_cons]%elem_of_cons; [apply IH; set_solver| |apply IH; set_solver].
      apply (job_lt_negtrans best); [by rewrite <- job_less_spec, E|]. apply IH. set_solver.
Qed.

(** ** The callbacks *)

Lemma attempt_getMeta {V} q id missing (v : V) m (Q : V -> result jobMeta -> kvmap -> Prop) :
  jobs_ok q m -> (forall e, Q v (Err e) m) ->
  (forall j, job q m id = Some j -> wf q id j -> Q v (Ok j) m) ->
  attempt (getMeta (metaKey q id) missing) v m Q.
Proof.
  intros Hok He Hs. apply attempt_bind, (attempt_get (HK := job_space) q id); [done|by intros; apply He| |].
  - intros raw j Hj Hwf Hu. cbv beta iota. unfold decodeMeta. rewrite Hu. by apply Hs.
  - intros e _. cbv beta iota. destruct (errors_is e Storage.ErrNotFound); apply He.
Qed.

Lemma attempt_putMeta {V} q id j (v : V) m (Q : V -> result unit -> kvmap -> Prop) :
  jobs_ok q m -> wf q id j -> (forall e, Q v (Err e) m) ->
  (forall m', sets q id (Some j) m m' -> Q v (Ok tt) m') ->
  attempt (putMeta (metaKey q id) j) v m Q.
Proof.
  intros Hok Hwf He Hq. unfold putMeta. destruct (Marshal j) as [raw|] eqn:E; [|by apply He].
  assert (Hst : stored_job j = j) by apply Hwf.
  apply (attempt_put (HK := job_space) q id j raw); [done|done|apply Hwf| |done|].
  - cbn [stored job_json]. by rewrite Hst.
  - intros m' Hs. cbn [stored job_json] in Hs. rewrite Hst in Hs. by apply Hq.
Qed.

(** what a committed transaction has done to the records *)
Definition commits {V} (q : Queue) (m : kvmap) (P : V -> kvmap -> Prop) (v' : V) (r : result unit)
    (m' : kvmap) : Prop :=
  match r with
  | Err _ => True
  | Ok _ => jobs_ok q m' /\ evolves q m m' /\ P v' m'
  end.

(** the step of one job from [old] to [new] *)
Definition steps_to (q : Queue) (id : string) (old new : jobMeta) (m m' : kvmap) : Prop :=
  job q m id = Some old /\ job q m' id = Some new /\ alone q id m m'.

(** what a holder's callback may do with the record it was given: the step
    [L] of the holder *)
Definition lawful {V} (q : Queue) (j : jobMeta) (L : string -> time -> label) (f : jobMeta -> fn V jobMeta)
    (P : time -> jobMeta -> V -> jobMeta -> Prop) : Prop :=
  forall now old v m, wf q (ID j) old -> held (LeaseToken j) now old ->
    attempt (f old) v m (fun v' r m' => m' = m /\
      match r with
      | Err _ => True
      | Ok new => let new := set_UpdatedAt now new in
          P now old v' new /\ wf q (ID j) new /\ moves (L (LeaseToken j) now) (Some old) (Some new)
      end).

Lemma holds_held m j now :
  holds m j = true -> After (LeaseUntil m) now = true -> held (LeaseToken j) now m.
Proof.
  unfold holds, After, held. rewrite !andb_true_iff, negb_true_iff, !bool_decide_eq_true, bool_decide_eq_false, Z.ltb_lt.
  intros [[? ?] ?] ?. split_and!; congruence.
Qed.

Lemma attempt_transition {V} q j L (f : jobMeta -> fn V jobMeta) P v m :
  jobs_ok q m -> lawful q j L f P ->
  attempt (transition q j f) v m (commits q m (fun v' m' =>
    exists now old new, held (LeaseToken j) now old /\ P now old v' new /\
      moves (L (LeaseToken j) now) (Some old) (Some new) /\ steps_to q (ID j) old new m m')).
Proof.
  intros Hok Hf. unfold transition. apply attempt_bind, attempt_tNow. intros now.
  apply attempt_bind, attempt_getMeta; [done|done|]. intros old Hj Hwf. cbv beta iota.
  destruct (holds old j) eqn:Hh; cbn [negb]; [|done].
  destruct (After (LeaseUntil old) now) eqn:Ha; cbn [negb]; [|done].
  pose proof (holds_held _ _ _ Hh Ha) as Hheld.
  apply attempt_bind. eapply attempt_mono; [by apply Hf|].
  intros v' [new|e] m' [-> Hnew]; [|done]. cbv zeta in Hnew. destruct Hnew as (HP & Hwf' & Hl).
  set (new' := set_UpdatedAt now new) in *.
  assert (Hid : ID new' = ID j) by apply Hwf'. rewrite Hid.
  apply attempt_putMeta; [done|done|done|]. intros m1 Hs.
  destruct (sets_moves _ _ _ _ _ _ Hs ltac:(by rewrite Hj)) as (Hok' & Hj' & Hev & [_ Ho]).
  split_and!; [done|done|]. exists now, old, new'. by split_and!.
Qed.

Lemma lawful_renew q j d :
  lawful q j LRenew (renew_fn d) (fun now old v' new =>
    new = set_UpdatedAt now (set_LeaseUntil v' old)).
Proof.
  intros now old v m Hwf Hh. unfold renew_fn. apply attempt_bind, attempt_tNow. intros t.
  split; [done|]. cbv zeta. split_and!; [done|by eapply wf_renew|by apply move_renew].
Qed.

Lemma lawful_retry q j delay :
  lawful q j LRelease (retry_fn delay) (fun now old dead new =>
    dead = (MaxRetries old <=? Attempts old) /\
    State new = (if dead then stateDead else statePending)).
Proof.
  intros now old v m Hwf Hh. unfold retry_fn. apply attempt_bind, attempt_tNow. intros t.
  apply attempt_bind. destruct (Z.leb_spec (MaxRetries old) (Attempts old)) as [Hle|Hlt].
  - split; [done|]. cbv zeta. split_and!; [done|done|by apply wf_dead_next; [|apply Hh]|by apply move_dead].
  - split; [done|]. cbv zeta. split_and!; [done|done|by eapply wf_retry|by apply move_retry].
Qed.

Lemma lawful_dead q j :
  lawful q j LRelease (fun m => mret (M := fn unit) (release stateDead m)) (fun now old _ new => State new = stateDead).
Proof.
  intros now old v m Hwf Hh. split; [done|]. cbv zeta.
  split_and!; [done|by apply wf_dead_next; [|apply Hh]|by apply move_dead].
Qed.

(** reading the record of a job that may be missing *)
Lemma attempt_read {V A} q id (absent : fn V A) (present : jobMeta -> fn V A) (v : V) m
    (Q : V -> result A -> kvmap -> Prop) :
  jobs_ok q m -> (forall e, Q v (Err e) m) ->
  (job q m id = None -> attempt absent v m Q) ->
  (forall j, job q m id = Some j -> wf q id j -> attempt (present j) v m Q) ->
  attempt (r ← tGet (metaKey q id);
    match r with
    | Err e => if errors_is e Storage.ErrNotFound then absent else raise e
    | Ok raw => j ← decodeMeta raw; present j
    end) v m Q.
Proof.
  intros Hok He Hn Hs. apply attempt_bind, (attempt_get (HK := job_space) q id); [done|exact Hn| |].
  - intros raw j Hj Hwf Hu. cbv beta iota. apply attempt_bind. unfold decodeMeta. rewrite Hu.
    apply Hs; done.
  - intros e Hne. cbv beta iota. unfold engine_error in Hne. rewrite Hne. apply He.
Qed.

(** the two commits of [Complete]: the first marks the job, or finds that it
    is done already; after the second one it is gone *)
Definition marks (q : Queue) (j : jobMeta) (m m' : kvmap) : Prop :=
  match job q m (ID j) with
  | None => m' = m
  | Some old =>
      State old = stateCompleted /\ LeaseToken old = LeaseToken j /\ m' = m \/
      exists now new, held (LeaseToken j) now old /\ State new = stateCompleted /\
        moves (LComplete (LeaseToken j) now) (Some old) (Some new) /\ steps_to q (ID j) old new m m'
  end.
Definition cleans (q : Queue) (j : jobMeta) (m m' : kvmap) : Prop :=
  job q m' (ID j) = None /\ (m' = m \/ turns q (ID j) (LCleanup (LeaseToken j)) m m').

Lemma attempt_complete q j v m :
  jobs_ok q m -> attempt (complete_fn q j) v m (commits q m (fun _ m' => marks q j m m')).
Proof.
  intros Hok. unfold complete_fn. apply attempt_bind, attempt_tNow. intros now.
  apply attempt_read; [done|done| |].
  - intros Hj. split_and!; [done|apply evolves_refl|]. unfold marks. by rewrite Hj.
  - intros old Hj Hwf.
    destruct (bool_decide (State old = stateCompleted) && bool_decide (LeaseToken old = LeaseToken j)) eqn:Hc.
    { apply andb_true_iff in Hc as [Hs%bool_decide_eq_true Ht%bool_decide_eq_true].
      split_and!; [done|apply evolves_refl|]. unfold marks. rewrite Hj. by left. }
    destruct (holds old j) eqn:Hh; cbn [negb]; [|done].
    destruct (After (LeaseUntil old) now) eqn:Ha; cbn [negb]; [|done].
    pose proof (holds_held _ _ _ Hh Ha) as Hheld. cbv zeta.
    set (new := set_UpdatedAt now _).
    assert (Hwf' : wf q (ID j) new) by by eapply wf_complete.
    assert (Hid : ID new = ID j) by apply Hwf'. rewrite Hid.
    apply attempt_putMeta; [done|done|done|]. intros m1 Hs.
    assert (Hl : moves (LComplete (LeaseToken j) now) (Some old) (Some new)) by by apply move_complete.
    destruct (sets_moves _ _ _ _ _ _ Hs ltac:(by rewrite Hj)) as (Hok' & Hj' & Hev & [_ Ho]).
    split_and!; [done|done|]. unfold marks. rewrite Hj. right. exists now, new. by split_and!.
Qed.

Lemma attempt_cleanup q j v m :
  jobs_ok q m ->
  attempt (cleanup_fn q j) v m (commits q m (fun _ m' => cleans q j m m')).
Proof.
  intros Hok. unfold cleanup_fn. apply attempt_read; [done|done| |].
  - intros Hj. split_and!; [done|apply evolves_refl|]. split; [done|by left].
  - intros old Hj Hwf. case_bool_decide as Hs; simpl; [|done]. case_bool_decide as Ht; simpl; [|done].
    assert (Hid : ID old = ID j) by apply Hwf. rewrite Hid.
    apply (attempt_del (HK := job_space) q (ID j)); [done|done|]. intros m1 Hset.
    destruct (sets_moves _ _ _ _ _ (LCleanup (LeaseToken j)) Hset) as (Hok' & Hj' & Hev & Ht').
    { rewrite Hj. by apply move_cleanup. }
    split_and!; [done|done|]. split; [done|by right].
Qed.

(** the sweep removes a completed job, or finds that there is nothing to do *)
Definition sweeps_one (q : Queue) (j : jobMeta) (m m' : kvmap) : Prop :=
  m' = m \/ turns q (ID j) (LCleanup (LeaseToken j)) m m'.

Lemma attempt_sweep q j v m :
  jobs_ok q m -> attempt (sweep_fn q j) v m (commits q m (fun _ m' => sweeps_one q j m m')).
Proof.
  intros Hok. unfold sweep_fn. apply attempt_bind, (attempt_get (HK := job_space) q (ID j)); [done|done| |done].
  intros raw old Hj Hwf Hu. cbv beta iota. apply attempt_bind. unfold try, attempt. simpl.
  change (attempt (current ← decodeMeta raw;
    if negb (bool_decide (State current = stateCompleted)) || negb (bool_decide (LeaseToken current = LeaseToken j))
    then mret tt else tDelete (metaKey q (ID j))) v m (commits q m (fun _ m' => sweeps_one q j m m'))).
  apply attempt_bind. unfold decodeMeta. rewrite Hu. cbv beta.
  change (attempt (if negb (bool_decide (State old = stateCompleted)) || negb (bool_decide (LeaseToken old = LeaseToken j))
    then mret tt else tDelete (metaKey q (ID j))) v m (commits q m (fun _ m' => sweeps_one q j m m'))).
  case_bool_decide as Hs; simpl; [|by split_and!; [|apply evolves_refl|left]].
  case_bool_decide as Ht; simpl; [|by split_and!; [|apply evolves_refl|left]].
  apply (attempt_del (HK := job_space) q (ID j)); [done|done|]. intros m1 Hset.
  destruct (sets_moves _ _ _ _ _ (LCleanup (LeaseToken j)) Hset) as (Hok' & Hj' & Hev & Ht').
  { unfold job. rewrite Hj. by apply move_cleanup. }
  split_and!; [done|done|]. by right.
Qed.

Lemma attempt_requeue q id now v m :
  jobs_ok q m ->
  attempt (requeue_fn q id now) v m (commits q m (fun _ m' =>
    exists old new, State old = stateDead /\ State new = statePending /\ Attempts new = 0 /\
      AvailableAt new = now /\ moves LRequeue (Some old) (Some new) /\ steps_to q id old new m m')).
Proof.
  intros Hok. unfold requeue_fn. apply attempt_bind, attempt_getMeta; [done|done|].
  intros old Hj Hwf. cbv beta iota. case_bool_decide as Hs; cbn [negb]; [|done].
  apply attempt_putMeta; [done|by apply wf_requeue|done|]. intros m1 Hset.
  set (new := set_UpdatedAt _ _) in *.
  assert (Hl : moves LRequeue (Some old) (Some new)) by by apply move_requeue.
  destruct (sets_moves _ _ _ _ _ _ Hset ltac:(by rewrite Hj)) as (Hok' & Hj' & Hev & [_ Ho]).
  split_and!; [done|done|]. exists old, new. by split_and!.
Qed.


Lemma attempt_enqueue q id new data v m :
  jobs_ok q m -> wf q id new -> Marshal new = Some data -> State new = statePending -> Attempts new = 0 ->
  attempt (enqueue_fn (metaKey q id) data) v m (commits q m (fun _ m' =>
    job q m id = None /\ job q m' id = Some new /\ turns q id LEnqueue m m')).
Proof.
  intros Hok Hwf Hm Hp Ha. unfold enqueue_fn.
  apply attempt_bind, (attempt_get (HK := job_space) q id); [done| | |].
  - intros Hj. cbv beta iota. assert (Hst : stored_job new = new) by apply Hwf.
    apply (attempt_put (HK := job_space) q id new data); [done|done|apply Hwf| |done|].
    + cbn [stored job_json]. by rewrite Hst.
    + intros m1 Hset. cbn [stored job_json] in Hset. rewrite Hst in Hset.
      destruct (sets_moves _ _ _ _ _ LEnqueue Hset) as (Hok' & Hj' & Hev & Ht); [|by split_and!].
      unfold job. rewrite Hj. by apply move_enqueue.
  - done.
  - intros e Hne. cbv beta iota. unfold engine_error in Hne. by rewrite Hne.
Qed.

(** *** Claim *)

Lemma candidates_elem q now m j :
  jobs_ok q m ->
  j ∈ candidates now (entries q m) <-> exists id, job q m id = Some j /\ ready now j.
Proof.
  intros Hok. unfold candidates, candidate, ready. rewrite list_elem_of_omap. split.
  - intros (e & He & Hc). destruct (entry_cell _ _ _ Hok He) as (id & j' & _ & Hu & Hj & _).
    rewrite Hu in Hc. simpl in Hc. unfold After in Hc. case_bool_decide as Hs; [|done]. simpl in Hc.
    destruct (Z.ltb_spec now (AvailableAt j')); [done|]. simplify_eq/=. by exists id.
  - intros (id & Hj & Hs & Ha). destruct (cell_entry _ _ _ _ Hj) as (e & He & _ & Hu).
    exists e. split; [done|]. rewrite Hu. simpl. rewrite bool_decide_true by done. unfold After.
    destruct (Z.ltb_spec now (AvailableAt j)); [lia|done].
Qed.

(** the job a claim takes is the first of all that are ready *)
Definition first_ready (q : Queue) (m : kvmap) (now : time) (j : jobMeta) : Prop :=
  ready now j /\ forall id j', job q m id = Some j' -> ready now j' -> ~ job_lt j' j.

Lemma first_job_ready q now m j js :
  jobs_ok q m -> candidates now (entries q m) = j :: js ->
  let f := first_job j js in job q m (ID f) = Some f /\ wf q (ID f) f /\ first_ready q m now f.
Proof.
  intros Hok Hc f. assert (Hf : f ∈ candidates now (entries q m)) by (rewrite Hc; apply first_job_elem).
  apply candidates_elem in Hf as (id & Hj & Hr); [|done].
  pose proof (cell_wf _ _ _ _ Hok Hj) as Hwf. assert (Hid : ID f = id) by apply Hwf.
  rewrite Hid. split_and!; [done|done|]. split; [done|]. intros id' j' Hj' Hr'.
  apply first_job_least. rewrite <- Hc. apply candidates_elem; eauto.
Qed.

Lemma newID_token r16 : String.length r16 = 16%nat ->
  newID r16 <> EmptyString /\ ascii (newID r16) /\ String.length (newID r16) = 32%nat.
Proof.
  intros Hl. unfold newID. pose proof (length_hex_encode r16) as Hh. rewrite Hl in Hh.
  split_and!; [by intros E; rewrite E in Hh|auto with s3db|done].
Qed.

Definition claimed_by (q : Queue) (d : duration) (m : kvmap) (claimed : option jobMeta) (m' : kvmap) : Prop :=
  exists now old tok, first_ready q m now old /\ String.length tok = 32%nat /\
    claimed = Some (claim_job old now d tok) /\ wf q (ID old) (claim_job old now d tok) /\
    steps_to q (ID old) old (claim_job old now d tok) m m'.

Lemma attempt_claim q d v m :
  jobs_ok q m -> attempt (claim_fn q d) v m (commits q m (claimed_by q d m)).
Proof.
  intros Hok. unfold claim_fn. apply attempt_bind. apply attempt_bind, attempt_tNow. intros now.
  apply attempt_bind, attempt_tScan; [|done].
  change (scanEntries m (prefix_scan (qprefix q))) with (entries (HK := job_space) q m).
  destruct (candidates now (entries q m)) as [|j js] eqn:Hc; [done|].
  destruct (first_job_ready _ _ _ _ _ Hok Hc) as (Hj & Hwf & Hr). cbv zeta in *.
  set (old := first_job j js) in *.
  apply attempt_bind, attempt_tRand. intros r16 Hl. cbv beta iota.
  destruct (newID_token _ Hl) as (Hne & Hasc & Hlen).
  apply attempt_bind. cbn [ID claim_job].
  assert (Hwf' : wf q (ID old) (claim_job old now d (newID r16))) by (apply wf_claim; [|apply Hr|..]; done).
  apply attempt_putMeta; [done|done|done|]. intros m1 Hset.
  destruct (sets_moves _ _ _ _ _ (LClaim now (newID r16)) Hset) as (Hok' & Hj' & Hev & [_ Ho]).
  { rewrite Hj. apply move_claim, Hr. }
  split_and!; [done|done|]. exists now, old, (newID r16). by split_and!.
Qed.

(** *** Maintenance *)

Definition reaped (now : time) (j : jobMeta) : jobMeta :=
  if lapsed now j then reap_job now j else j.

(** the state of the records when the entries [es] have been visited: their
    jobs are reaped, the others as they were *)
Definition visited (q : Queue) (now : time) (m0 mc m' : kvmap) (ks : list string) : Prop :=
  jobs_ok q m' /\ (forall k, has_prefix (qprefix q) k = false -> m' !! k = mc !! k) /\
  forall id, job q m' id =
    if decide (metaKey q id ∈ ks) then reaped now <$> job q m0 id else job q mc id.

Definition all_completed (q : Queue) (m0 : kvmap) (cs : list jobMeta) : Prop :=
  Forall (fun c => exists id, job q m0 id = Some c /\ State c = stateCompleted) cs.

Lemma visited_skip q now m0 mc m' id j ks :
  job q m0 id = Some j -> job q mc id = Some j -> lapsed now j = false ->
  visited q now m0 mc m' ks -> visited q now m0 mc m' (metaKey q id :: ks).
Proof.
  intros Hj Hjc Hl (Hok & Hout & Hv). split_and!; [done|done|]. intros id'. rewrite Hv.
  destruct (decide (id' = id)) as [->|Hne].
  - rewrite (decide_True (P := _ ∈ _ :: _)) by set_solver. case_decide; [done|].
    rewrite Hj, Hjc. simpl. unfold reaped. by rewrite Hl.
  - assert (metaKey q id' <> metaKey q id) by (intros ?%metaKey_inj; done).
    case_decide; [rewrite decide_True by set_solver|rewrite decide_False by set_solver]; done.
Qed.

Lemma not_lapsed_completed now j : State j = stateCompleted -> lapsed now j = false.
Proof. intros Hs. unfold lapsed. by rewrite Hs. Qed.

Lemma attempt_reap_entries q now m0 es cs mc :
  jobs_ok q m0 -> jobs_ok q mc -> es ⊆ entries q m0 -> NoDup (en_key <$> es) ->
  (forall id, metaKey q id ∈ (en_key <$> es) -> job q mc id = job q m0 id) ->
  all_completed q m0 cs ->
  attempt (reap_entries q now es) cs mc (fun cs' r m' =>
    match r with
    | Err _ => True
    | Ok _ => visited q now m0 mc m' (en_key <$> es) /\ all_completed q m0 cs'
    end).
Proof.
  intros Hok0. revert cs mc. induction es as [|e es IH]; intros cs mc Hok Hin Hnd Hsame Hcs.
  { split; [|done]. split_and!; [done|done|]. intros id. by rewrite decide_False by set_solver. }
  cbn [reap_entries fmap list_fmap] in *. apply NoDup_cons in Hnd as [Hne Hnd].
  destruct (entry_cell q m0 e Hok0) as (id & j & Hk & Hu & Hj & Hwf); [set_solver|].
  change (ks_key q id) with (metaKey q id) in Hk.
  rewrite Hu, Hk in *. assert (Hid : ID j = id) by apply Hwf.
  assert (Hjc : job q mc id = Some j) by (rewrite Hsame by set_solver; exact Hj).
  assert (Hskip : lapsed now j = false -> forall cs, all_completed q m0 cs ->
    attempt (reap_entries q now es) cs mc (fun cs' r m' =>
      match r with
      | Err _ => True
      | Ok _ => visited q now m0 mc m' (metaKey q id :: (en_key <$> es)) /\ all_completed q m0 cs'
      end)).
  { intros Hl cs' Hcs'. eapply attempt_mono; [apply (IH cs' mc); [done|set_solver|done| |done]|].
    - intros id' Hid'. apply Hsame. set_solver.
    - intros v' [[]|er] m' Hv; [|done]. split; [|by apply Hv]. by apply (visited_skip _ _ _ _ _ _ j); [..|apply Hv]. }
  case_bool_decide as Hs.
  - apply (Hskip (not_lapsed_completed now j Hs) (cs ++ [j])).
    apply Forall_app_2; [done|]. apply Forall_singleton. eauto.
  - destruct (lapsed now j) eqn:Hl; cbn [negb]; [|by apply Hskip].
    apply attempt_bind. rewrite Hid. apply attempt_putMeta; [done|by apply wf_reap|done|].
    intros m1 (Hok1 & Hj1 & Ho1 & Hout1).
    assert (Hk2 : forall id', metaKey q id' ∈ (en_key <$> es) -> id' <> id).
    { intros id' Hid' ->. by apply Hne. }
    eapply attempt_mono; [apply (IH cs m1); [done|set_solver|done| |done]|].
    + intros id' Hid'. unfold job. rewrite Ho1 by auto. apply Hsame. set_solver.
    + intros v' [[]|er] m' Hv; [|done]. destruct Hv as [(Hok' & Hout' & Hv) Hcs']. split; [|done].
      split_and!; [done|intros k Hp; by rewrite Hout', Hout1|]. intros id'. rewrite Hv.
      destruct (decide (id' = id)) as [->|Hne'].
      * rewrite (decide_True (P := _ ∈ _ :: _)) by set_solver. rewrite decide_False by done.
        unfold job in *. rewrite Hj1, Hj. simpl. unfold reaped. by rewrite Hl.
      * assert (metaKey q id' <> metaKey q id) by (intros ?%metaKey_inj; done).
        unfold job. rewrite Ho1 by done.
        case_decide; [rewrite decide_True by set_solver|rewrite decide_False by set_solver]; done.
Qed.

(** what the transaction of [reapExpired] does: every lapsed job is reaped *)
Definition reaps (q : Queue) (m : kvmap) (cs : list jobMeta) (m' : kvmap) : Prop :=
  all_completed q m cs /\ exists now, forall id, job q m' id = reaped now <$> job q m id.

Lemma reaped_moves q now m m' :
  (forall k, has_prefix (qprefix q) k = false -> m' !! k = m !! k) ->
  (forall id, job q m' id = reaped now <$> job q m id) -> evolves q m m'.
Proof.
  intros Hout Hj. split; [done|]. intros id. rewrite Hj.
  destruct (job q m id) as [j|]; [|by left]. simpl. unfold reaped.
  destruct (lapsed now j) eqn:Hl; [|by left]. right. exists (LReap now). by apply move_reap.
Qed.

Lemma attempt_reap q v m :
  jobs_ok q m -> attempt (reap_fn q) v m (commits q m (reaps q m)).
Proof.
  intros Hok. unfold reap_fn. apply attempt_bind. apply attempt_bind, attempt_tNow. intros now.
  apply attempt_bind, attempt_tScan; [|done]. cbv beta iota.
  change (scanEntries m (prefix_scan (qprefix q))) with (entries (HK := job_space) q m).
  eapply attempt_mono; [apply (attempt_reap_entries q now m); [done|done|done|apply entries_NoDup|done|constructor]|].
  intros cs [[]|er] m' Hv; [|done]. destruct Hv as [(Hok' & Hout & Hv) Hcs].
  assert (Hj : forall id, job q m' id = reaped now <$> job q m id).
  { intros id. rewrite Hv. case_decide as Hd; [done|].
    destruct (job q m id) as [j|] eqn:E; [|done]. destruct Hd.
    destruct (cell_entry _ _ _ _ E) as (e & He & Hk & _). apply list_elem_of_fmap. by exists e. }
  split_and!; [done|by eapply reaped_moves|]. split; [done|]. by exists now.
Qed.
