(* ===== verification/QueueSafe.v ===== *)
(** * queue: whole operations under interference

    Each operation of [Queue] keeps the invariant, moves jobs only along the
    state machine, and returns a result that describes one of its accesses to
    the store. *)
From S2P Require Import Prelude GoBase Base64 Utf8 Codec Hash Storage.
From S2P Require Import Logic.
From S2P Require Import Scan Cells QueueData Queue QueueLogic.
Local Open Scope Z_scope.

(** a key below [payloads] *)
Definition payload_of (q : Queue) (k : string) : Prop := has_prefix (payloads q) k = true.

Lemma payloadKey_payload q id r : payload_of q (payloadKey q id +:+ r).
Proof.
  unfold payload_of, payloads, payloadKey. apply has_prefix_spec.
  exists (EncodeToString RawURLEncoding id +:+ r). by rewrite <- !str_app_assoc.
Qed.

Lemma wf_payload q id j : wf q id j -> payload_of q (PayloadKey j).
Proof. intros (_ & _ & _ & _ & [r ->] & _). apply payloadKey_payload. Qed.

(** a claimed job as [Claim] returns it *)
Definition handle (q : Queue) (j : jobMeta) : Prop := payload_of q (PayloadKey j).

(** a payload's key is its object *)
Lemma payload_object q k name : payload_of q k -> object_name k name -> name = k.
Proof. intros [r ->]%has_prefix_spec. by apply object_name_plain. Qed.

(** changing one payload is allowed *)
Lemma allowed_blob q m b k name b' :
  jobs_ok q m -> payload_of q k -> object_name k name -> delete name b' = delete name b ->
  allowed (store_ok q) (guar q) (MkStore m b) (MkStore m b').
Proof.
  intros Hok Hk ->%(payload_object q) Hd; [|done]. split; [done|]. right. split; [apply evolves_refl|]. cbn [st_blobs]. intros k' Hk'.
  assert (k <> k') by (intros E; rewrite E in Hk; unfold payload_of in Hk; by rewrite Hk in Hk').
  rewrite <- (lookup_delete_ne b' k k'), Hd by done. by rewrite lookup_delete_ne.
Qed.

Lemma safe_transaction {V} q h0 (v : V) f (P : kvmap -> V -> kvmap -> Prop) Q :
  (forall v m, jobs_ok q m -> attempt f v m (commits q m (P m))) ->
  (forall v' m m' b h, quiet h -> jobs_ok q m -> P m v' m' ->
     Q (v', Ok tt) (h0 ++ h ++ [(MkStore m b, MkStore m' b)])) ->
  (forall v e h, quiet h -> Q (v, Err e) (h0 ++ h)) ->
  safe (store_ok q) (guar q) h0 (transaction v f) Q.
Proof.
  intros Hf Hok Herr. apply (safe_retry _ _ _ _ _ _ _ (fun _ => True)); [done| | |].
  - intros v0 m b _ Hm. eapply attempt_mono; [by apply Hf|].
    intros v' [[]|e] m'; [|done]. intros (Hok' & Hev & HP). split; [done|]. split.
    + split; [done|]. right. by split.
    + intros h Hh. by apply Hok.
  - intros v0 m _. by apply attempt_true.
  - intros v0 e h _ Hh. by apply Herr.
Qed.

(** ** The holder's operations *)

(** [r] is the result of a commit by the holder of [j]'s lease: its last
    access is the step [L] of that job *)
Definition acted (q : Queue) (j : jobMeta) (L : string -> time -> label) (P : time -> jobMeta -> jobMeta -> Prop)
    (r : result unit) (h : list access) : Prop :=
  match r with
  | Err _ => quiet h
  | Ok _ => exists h0 st st' now old new, h = h0 ++ [(st, st')] /\ quiet h0 /\
      held (LeaseToken j) now old /\ moves (L (LeaseToken j) now) (Some old) (Some new) /\
      steps_to q (ID j) old new (st_kv st) (st_kv st') /\ P now old new
  end.

Lemma safe_transition {V} q j L (v : V) f P :
  lawful q j L f P ->
  safe (store_ok q) (guar q) [] (transaction v (transition q j f)) (fun vr h =>
    acted q j L (fun now old new => P now old (fst vr) new) (snd vr) h).
Proof.
  intros Hf. apply (safe_transaction q [] v _ (fun m v' m' =>
    exists now old new, held (LeaseToken j) now old /\ P now old v' new /\
      moves (L (LeaseToken j) now) (Some old) (Some new) /\ steps_to q (ID j) old new m m')).
  - intros v0 m Hm. by apply attempt_transition.
  - intros v' m m' b h Hh Hm (now & old & new & Hheld & HP & Hl & Hst).
    exists h, (MkStore m b), (MkStore m' b), now, old, new. by split_and!.
  - intros v' e h Hh. exact Hh.
Qed.

Lemma acted_mono q j L (P P' : time -> jobMeta -> jobMeta -> Prop) r h :
  (forall now old new, P now old new -> P' now old new) -> acted q j L P r h -> acted q j L P' r h.
Proof.
  intros HP. destruct r; [|done]. intros (h0 & st & st' & now & old & new & ? & ? & ? & ? & ? & ?).
  exists h0, st, st', now, old, new. split_and!; auto.
Qed.

Lemma safe_Renew q j d :
  safe (store_ok q) (guar q) [] (Renew q j d) (fun rj h =>
    acted q j LRenew (fun now old new => exists u, new = set_UpdatedAt now (set_LeaseUntil u old) /\
      snd rj = set_LeaseUntil u j) (fst rj) h).
Proof.
  unfold Renew. apply safe_bind. eapply safe_mono; [apply safe_transition, lawful_renew|].
  intros [u [[]|e]] h; [|done]. apply (acted_mono q j _ _ _ (Ok tt) h). intros now old new ->. by exists u.
Qed.

Lemma safe_Retry q j delay :
  safe (store_ok q) (guar q) [] (Retry q j delay) (fun dr h =>
    acted q j LRelease (fun _ old new => fst dr = (MaxRetries old <=? Attempts old) /\
      State new = (if fst dr then stateDead else statePending)) (snd dr) h).
Proof. exact (safe_transition q j LRelease false (retry_fn delay) _ (lawful_retry q j delay)). Qed.

Lemma safe_Dead q j :
  safe (store_ok q) (guar q) [] (Dead q j) (fun r h =>
    acted q j LRelease (fun _ _ new => State new = stateDead) r h).
Proof.
  unfold Dead. apply safe_bind. eapply safe_mono; [apply safe_transition, lawful_dead|].
  by intros [u r] h.
Qed.

(** a run of [Complete] marks the job, deletes the payload and removes the
    job; one that fails may have stopped after the first *)
Definition completes (q : Queue) (j : jobMeta) (r : result unit) (h : list access) : Prop :=
  match r with
  | Err _ => quiet h \/ exists h1 st st' h2,
      h = h1 ++ [(st, st')] ++ h2 /\ quiet h1 /\ kv_quiet h2 /\ marks q j (st_kv st) (st_kv st')
  | Ok _ => exists h1 st1 st1' h2 st2 st2',
      h = h1 ++ [(st1, st1')] ++ h2 ++ [(st2, st2')] /\ quiet h1 /\ kv_quiet h2 /\
      marks q j (st_kv st1) (st_kv st1') /\ cleans q j (st_kv st2) (st_kv st2')
  end.

Lemma safe_Complete q j :
  handle q j -> safe (store_ok q) (guar q) [] (Complete q j) (completes q j).
Proof.
  intros Hh. unfold Complete. apply safe_bind.
  apply (safe_transaction q [] tt _ (fun m _ m' => marks q j m m')); [intros; by apply attempt_complete| |by left].
  intros _ m m' b h1 Hq Hm Hmark. cbv beta iota. rewrite app_nil_l. cbn [safe].
  intros name m2 b2 Hn Hm2. set (s2 := MkStore m2 b2).
  assert (Hfail : forall e h2, kv_quiet h2 ->
    completes q j (Err e) ((h1 ++ [(MkStore m b, MkStore m' b)]) ++ h2)).
  { intros e h2 Hh2. right. exists h1, (MkStore m b), (MkStore m' b), h2. by rewrite <- app_assoc. }
  split.
  - split; [by eapply allowed_blob; [..|by rewrite delete_delete_eq]|].
    assert (Hb : kv_quiet [(s2, MkStore m2 (delete name b2))]) by by apply kv_quiet_one.
    apply safe_bind. apply (safe_transaction q _ tt _ (fun m _ m' => cleans q j m m'));
      [intros; by apply attempt_cleanup| |].
    + intros _ m3 m3' b3 h3 Hq3 Hm3 Hgone. cbn [safe mret prog_ret].
      exists h1, (MkStore m b), (MkStore m' b), ([(s2, MkStore m2 (delete name b2))] ++ h3),
        (MkStore m3 b3), (MkStore m3' b3).
      split_and!; [by rewrite <- !app_assoc|done| |done|done].
      apply kv_quiet_app; [done|auto with s3db].
    + intros _ e h3 Hq3. cbn [safe mret prog_ret]. rewrite <- app_assoc. apply Hfail.
      apply kv_quiet_app; [done|auto with s3db].
  - intros e b' Hd. split; [by eapply allowed_blob|]. apply Hfail. by apply kv_quiet_one.
Qed.

(** ** Claim, dead letters *)

Definition claims (q : Queue) (d : duration) (r : result jobMeta) (h : list access) : Prop :=
  match r with
  | Err _ => quiet h
  | Ok j => exists h0 st st', h = h0 ++ [(st, st')] /\ quiet h0 /\
      claimed_by q (lease_for q d) (st_kv st) (Some j) (st_kv st')
  end.

Lemma safe_Claim q d : safe (store_ok q) (guar q) [] (Claim q d) (claims q d).
Proof.
  unfold Claim. destruct (checkOpen q) as [[]|e]; [|by constructor]. apply safe_bind.
  apply (safe_transaction q [] None _ (fun m v' m' => claimed_by q (lease_for q d) m v' m'));
    [intros; by apply attempt_claim| |done].
  intros c m m' b h Hh Hm Hc. assert (Hc' := Hc). destruct Hc' as (now & old & tok & _ & _ & -> & _).
  exists h, (MkStore m b), (MkStore m' b). by split_and!.
Qed.

Definition requeues (q : Queue) (id : string) (r : result unit) (h : list access) : Prop :=
  match r with
  | Err _ => quiet h
  | Ok _ => exists h0 st st' old new, h = h0 ++ [(st, st')] /\ quiet h0 /\
      moves LRequeue (Some old) (Some new) /\ steps_to q id old new (st_kv st) (st_kv st') /\
      State old = stateDead /\ State new = statePending /\ Attempts new = 0
  end.

Lemma safe_RequeueDead q id : safe (store_ok q) (guar q) [] (RequeueDead q id) (requeues q id).
Proof.
  unfold RequeueDead. destruct (checkOpen q) as [[]|e]; [|by constructor].
  cbn [safe]. intros s0 now _. apply safe_bind.
  apply (safe_transaction q [(s0, s0)] tt _ (fun m _ m' =>
    exists old new, State old = stateDead /\ State new = statePending /\ Attempts new = 0 /\
      AvailableAt new = now /\ moves LRequeue (Some old) (Some new) /\ steps_to q id old new m m')).
  - intros. by apply attempt_requeue.
  - intros _ m m' b h Hh Hm (old & new & Hd & Hp & Ha & _ & Hl & Hs).
    exists ([(s0, s0)] ++ h), (MkStore m b), (MkStore m' b), old, new.
    split; [by rewrite app_assoc|]. split; [by apply Forall_app_2; [by apply Forall_singleton|]|].
    by split_and!.
  - intros _ e h Hh. by apply Forall_app_2; [by apply Forall_singleton|].
Qed.

Lemma dead_ids_elem q m id :
  jobs_ok q m ->
  id ∈ omap dead_id (entries q m) <-> exists j, job q m id = Some j /\ State j = stateDead.
Proof.
  intros Hok. rewrite list_elem_of_omap. unfold dead_id. split.
  - intros (e & He & Hc). destruct (entry_cell _ _ _ Hok He) as (id' & j & _ & Hu & Hj & Hwf).
    rewrite Hu in Hc. simpl in Hc. case_bool_decide as Hs; [|done]. simplify_eq.
    assert (ID j = id') as -> by apply Hwf. by exists j.
  - intros (j & Hj & Hs). destruct (cell_entry _ _ _ _ Hj) as (e & He & _ & Hu).
    exists e. split; [done|]. rewrite Hu. simpl. rewrite bool_decide_true by done.
    f_equal. by apply (cell_wf _ _ _ _ Hok Hj).
Qed.

Lemma dead_ids_NoDup q m es :
  jobs_ok q m -> es ⊆ entries q m -> NoDup (en_key <$> es) -> NoDup (omap dead_id es).
Proof.
  intros Hok. induction es as [|e es IH]; intros Hin Hnd; [constructor|].
  simpl in *. apply NoDup_cons in Hnd as [Hne Hnd].
  assert (IHes : NoDup (omap dead_id es)) by (apply IH; set_solver).
  destruct (dead_id e) as [id|] eqn:E; [|done]. constructor; [|done].
  intros (e' & He' & E')%list_elem_of_omap. apply Hne. apply list_elem_of_fmap. exists e'.
  split; [|done].
  assert (Hkey : forall e, e ∈ entries q m -> dead_id e = Some id -> en_key e = metaKey q id).
  { intros e1 He1 Hd. destruct (entry_cell _ _ _ Hok He1) as (id' & j & Hk & Hu & Hj & Hwf).
    unfold dead_id in Hd. rewrite Hu in Hd. simpl in Hd. case_bool_decide; [|done]. simplify_eq.
    rewrite Hk. assert (ID j = id') as -> by apply Hwf. done. }
  rewrite (Hkey e), (Hkey e') by (done || set_solver). done.
Qed.

Definition lists_dead (q : Queue) (r : result (list string)) (h : list access) : Prop :=
  match r with
  | Err _ => quiet h
  | Ok ids => exists st, h = [(st, st)] /\ StronglySorted str_lt ids /\
      forall id, id ∈ ids <-> exists j, job q (st_kv st) id = Some j /\ State j = stateDead
  end.

Lemma safe_ListDead q : safe (store_ok q) (guar q) [] (ListDead q) (lists_dead q).
Proof.
  unfold ListDead. destruct (checkOpen q) as [[]|e]; [|by constructor].
  cbn [safe]. intros st Hok. split; [|intros e; by repeat constructor].
  change (scanEntries (st_kv st) (prefix_scan (qprefix q))) with (entries (HK := job_space) q (st_kv st)).
  exists st. split; [done|]. split.
  - apply sorted_strict; [apply StronglySorted_merge_sort; apply _|].
    rewrite merge_sort_Permutation. by apply (dead_ids_NoDup q (st_kv st)); [|..|apply entries_NoDup].
  - intros id. rewrite merge_sort_Permutation. by apply dead_ids_elem.
Qed.

(** ** Maintenance *)

(** what a sweep of the completed jobs [ms] did, one job after the other *)
Inductive sweeps (q : Queue) : list jobMeta -> list access -> Prop :=
| sweeps_nil : sweeps q [] []
| sweeps_skip j ms h h' : kv_quiet h -> sweeps q ms h' -> sweeps q (j :: ms) (h ++ h')
| sweeps_clean j ms h st st' h' :
    kv_quiet h -> turns q (ID j) (LCleanup (LeaseToken j)) (st_kv st) (st_kv st') ->
    sweeps q ms h' -> sweeps q (j :: ms) ((h ++ [(st, st')]) ++ h').

Lemma safe_sweep q ms h :
  Forall (fun m => payload_of q (PayloadKey m)) ms ->
  safe (store_ok q) (guar q) h (sweep q ms) (fun _ h' => exists h1, h' = h ++ h1 /\ sweeps q ms h1).
Proof.
  intros Hms. revert h. induction Hms as [|j ms Hp _ IH]; intros h; cbn [sweep].
  { exists []. split; [by rewrite app_nil_r|constructor]. }
  cbn [safe]. intros name m b Hn Hok.
  assert (Hnext : forall h1, (forall h2, sweeps q ms h2 -> sweeps q (j :: ms) (h1 ++ h2)) ->
    safe (store_ok q) (guar q) (h ++ h1) (sweep q ms) (fun _ h' => exists h1, h' = h ++ h1 /\ sweeps q (j :: ms) h1)).
  { intros h1 Hh1. eapply safe_mono; [apply IH|]. intros _ h' (h2 & -> & H2).
    exists (h1 ++ h2). split; [by rewrite app_assoc|by apply Hh1]. }
  assert (Hb : forall b', kv_quiet [(MkStore m b, MkStore m b')]) by (intros b'; by apply kv_quiet_one).
  split.
  - split; [by eapply allowed_blob; [..|by rewrite delete_delete_eq]|].
    apply safe_bind. apply (safe_transaction q _ tt _ (fun m _ m' => sweeps_one q j m m')); [intros; by apply attempt_sweep| |].
    + intros v' m1 m1' b1 h1 Hq1 _ Hone. rewrite <- app_assoc. apply Hnext. rewrite app_assoc. intros h2 H2.
      assert (Hk : kv_quiet ([(MkStore m b, MkStore m (delete name b))] ++ h1)) by (apply kv_quiet_app; auto with s3db).
      destruct Hone as [->|Ht]; [|by apply sweeps_clean].
      apply sweeps_skip; [|done]. apply kv_quiet_app; [done|by apply kv_quiet_one].
    + intros v' e h1 Hq1. rewrite <- app_assoc. apply Hnext. intros h2 H2.
      apply sweeps_skip; [|done]. apply kv_quiet_app; auto with s3db.
  - intros e b' Hd. split; [by eapply allowed_blob|]. apply Hnext. intros h2 H2. by apply sweeps_skip.
Qed.

(** [reapExpired] returned nil: in one commit it reaped every lapsed job, and
    after that it swept the jobs that were completed then *)
Definition reaps_all (q : Queue) (r : result unit) (h : list access) : Prop :=
  match r with
  | Err _ => quiet h
  | Ok _ => exists h1 st st' h2 now cs, h = h1 ++ [(st, st')] ++ h2 /\ quiet h1 /\
      (forall id, job q (st_kv st') id = reaped now <$> job q (st_kv st) id) /\
      all_completed q (st_kv st) cs /\ sweeps q cs h2
  end.

Lemma safe_reapExpired q : safe (store_ok q) (guar q) [] (reapExpired q) (reaps_all q).
Proof.
  unfold reapExpired. apply safe_bind.
  apply (safe_transaction q [] [] _ (fun m cs m' => reaps q m cs m')); [intros; by apply attempt_reap| |done].
  intros cs m m' b h Hh Hm [Hcs [now Hr]]. cbv beta iota. apply safe_bind.
  eapply safe_mono; [apply safe_sweep|].
  - eapply Forall_impl; [exact Hcs|]. intros c (id & Hc & _).
    by eapply wf_payload, (cell_wf _ _ _ _ Hm).
  - intros _ h' (h2 & -> & Hsw). exists h, (MkStore m b), (MkStore m' b), h2, now, cs.
    split_and!; [by rewrite app_nil_l, <- app_assoc|done|exact Hr|done|done].
Qed.

(** ** Enqueue *)

(** the IDs [with_id] may choose *)
Definition id_for (q : Queue) (opts : EnqueueOptions) (id : string) : Prop :=
  if decide (JobID opts <> EmptyString) then id = JobID opts
  else if decide (IdempotencyKey opts <> EmptyString) then
    id = "idem-" +:+ sha256_hex (name q +:+ String Ascii.zero EmptyString +:+ IdempotencyKey opts)
  else exists r16, String.length r16 = 16%nat /\ id = newID r16.

Lemma id_for_valid q opts id :
  valid_utf8 (JobID opts) = true -> id_for q opts id -> valid_utf8 id = true.
Proof.
  unfold id_for. intros Hv. repeat case_decide; [by intros ->|intros ->; auto with s3db|].
  intros (r16 & _ & ->). unfold newID. auto with s3db.
Qed.

Lemma safe_with_id {A} q opts (c : string -> prog A) h Q :
  kv_quiet h ->
  (forall id h, kv_quiet h -> id_for q opts id -> safe (store_ok q) (guar q) h (c id) Q) ->
  safe (store_ok q) (guar q) h (with_id q opts c) Q.
Proof.
  intros Hh Hc. unfold with_id, id_for in *.
  case_bool_decide as Hj; cbn [negb]; [|apply Hc; [done|by rewrite decide_True]].
  case_bool_decide as Hi; cbn [negb].
  - cbn [safe]. intros s r16 _ Hl. apply Hc; [by auto with s3db|].
    rewrite !decide_False by (intros Hn; by apply Hn). eauto.
  - apply Hc; [done|]. rewrite decide_False by (intros Hn; by apply Hn). by rewrite decide_True.
Qed.

(** a job was created from what was read from [r], or the job existed *)
Definition enqueues (q : Queue) (opts : EnqueueOptions) (rd : reader) (size : Z)
    (r : result (string * bool)) (h : list access) : Prop :=
  match r with
  | Ok (id, true) => id_for q opts id /\ exists h0 st st' pkey now,
      h = h0 ++ [(st, st')] /\ kv_quiet h0 /\ rd_err rd = None /\
      (0 <= size -> Z.of_nat (String.length (rd_data rd)) = size) /\
      job q (st_kv st) id = None /\
      job q (st_kv st') id = Some (new_job q opts id pkey (rd_data rd) now) /\
      turns q id LEnqueue (st_kv st) (st_kv st')
  | Ok (id, false) => id_for q opts id /\ kv_quiet h
  | Err _ => kv_quiet h
  end.

(** the configuration and the arguments are values of their Go types, and a
    job ID given by the caller is valid UTF-8 *)
Definition enqueue_args (q : Queue) (opts : EnqueueOptions) (rd : reader) : Prop :=
  valid_utf8 (JobID opts) = true /\ in_i64 (maxRetries q) /\ in_i64 (eo_MaxRetries opts) /\
  in_i64 (Z.of_nat (String.length (rd_data rd))).

Lemma safe_publish q opts rd size id r16 now h :
  enqueue_args q opts rd -> kv_quiet h -> id_for q opts id ->
  rd_err rd = None -> (0 <= size -> Z.of_nat (String.length (rd_data rd)) = size) ->
  let pkey := payloadKey q id +:+ "/" +:+ newID r16 in
  safe (store_ok q) (guar q) h (publish q id pkey (new_job q opts id pkey (rd_data rd) now))
    (enqueues q opts rd size).
Proof.
  intros (Hv & Hq & Ho & Hd) Hh Hid Hrd Hsize pkey. unfold publish.
  set (new := new_job q opts id pkey (rd_data rd) now).
  assert (Hwf : wf q id new) by (apply wf_enqueue; [by eapply id_for_valid|done..]).
  destruct (Marshal new) as [data|] eqn:Hm; [|done]. apply safe_bind.
  apply (safe_transaction q h tt _ (fun m _ m' => job q m id = None /\ job q m' id = Some new /\ turns q id LEnqueue m m')).
  - intros. by apply attempt_enqueue.
  - intros _ m m' b h1 Hh1 Hok (Hn & Hs & Ht). cbn [safe]. split; [done|].
    exists (h ++ h1), (MkStore m b), (MkStore m' b), pkey, now.
    split_and!; [by rewrite app_assoc|by auto with s3db|done..].
  - intros _ e h1 Hh1. cbn [safe]. intros name m b Hn Hok.
    assert (Hfin : forall b', enqueues q opts rd size (if errors_is e errJobExists then Ok (id, false) else Err e)
      ((h ++ h1) ++ [(MkStore m b, MkStore m b')])).
    { intros b'. assert (kv_quiet ((h ++ h1) ++ [(MkStore m b, MkStore m b')])) by auto with s3db.
      by destruct (errors_is e errJobExists). }
    assert (Hp : payload_of q pkey) by apply payloadKey_payload.
    split; [split; [by eapply allowed_blob; [..|by rewrite delete_delete_eq]|apply Hfin]|].
    intros e' b' Hd'. split; [by eapply allowed_blob|apply Hfin].
Qed.

Lemma safe_EnqueueReader q rd size opts :
  enqueue_args q opts rd ->
  safe (store_ok q) (guar q) [] (EnqueueReader q rd size opts) (enqueues q opts rd size).
Proof.
  intros Hargs. unfold EnqueueReader. destruct (checkOpen q) as [[]|e]; [|by constructor].
  apply safe_with_id; [by constructor|]. intros id h Hh Hid. cbn [safe]. intros s0 r Hok _.
  assert (Hh1 : kv_quiet (h ++ [(s0, s0)])) by auto with s3db.
  destruct r as [raw|e]; [done|]. destruct (errors_is e Storage.ErrNotFound); cbn [negb]; [|done].
  cbn [safe]. intros s1 r16 _ Hl. intros name m b Hn Hm. split.
  - intros Hrd Hsize. split.
    { eapply allowed_blob; [done|apply payloadKey_payload|exact Hn|by rewrite delete_insert_eq]. }
    intros s2 now _. apply safe_publish; [done| |done..]. auto with s3db.
  - intros d e' b' Hd. split; [eapply allowed_blob; [done|apply payloadKey_payload|exact Hn|done]|].
    change (kv_quiet (((h ++ [(s0, s0)]) ++ [(s1, s1)]) ++ [(MkStore m b, MkStore m b')])). auto 6 with s3db.
Qed.
