(* ===== verification/QueueSeq.v ===== *)
(** * queue: producers and workers alone on the in-memory engine

    Where the engine is open, the context is live and the clock can be
    represented in JSON, enqueueing and claiming succeed: the exact outcome of
    [Enqueue], [Claim] and [OpenPayload]. *)
From S2P Require Import Prelude GoBase Base64 Utf8 Codec Hash Storage.
From S2P Require Import Logic.
From S2P Require Import Scan Cells MemoryKV MemoryBlob Sequential.
From S2P Require Import QueueData Queue QueueLogic QueueSafe.
Local Open Scope Z_scope.

(** an environment that serves: the context is live, and the clock can be
    represented in JSON, also [dl] later *)
Definition fine (dl : duration) (e : env) : Prop :=
  ctx_alive e /\ clock_ok e /\ forall n, time_ok (Add (clock e n) dl).

Lemma fine_polled dl e : fine dl e -> fine dl (polled e).
Proof. done. Qed.
#[export] Hint Resolve fine_polled : s3db.

Lemma fine_after dl e e' : fine dl e -> ctx_alive e' -> clock e' = clock e -> fine dl e'.
Proof. intros (_ & Hc & Hd) Ha E. split; [done|]. unfold clock_ok. by rewrite E. Qed.

(** ** Enqueue *)

(** what enqueueing the payload [d] leaves behind *)
Definition enqueued (q : Queue) (opts : EnqueueOptions) (d : string) (m : kvmap)
    (bm : gmap string memoryBlob) (id : string) (created : bool) (m' : kvmap)
    (bm' : gmap string memoryBlob) : Prop :=
  id_for q opts id /\
  if created then
    job q m id = None /\ exists r16 now,
      let pkey := payloadKey q id +:+ "/" +:+ newID r16 in
      sets q id (Some (new_job q opts id pkey d now)) m m' /\
      bm' = <[pkey := newMemoryBlob d]> bm
  else is_Some (job q m id) /\ m' = m /\ bm' = bm.

Lemma new_job_encodable q opts id pkey d e n :
  fine (Delay opts) e -> is_Some (Marshal (new_job q opts id pkey d (clock e n))).
Proof.
  intros (_ & Hc & Hd). apply job_encodable. cbn [new_job AvailableAt LeaseUntil CreatedAt UpdatedAt].
  split_and!; [apply Hd|apply zero_time_ok|apply Hc..].
Qed.

Lemma run_publish q opts id pkey d now m bm dl e (He : fine dl e) :
  jobs_ok q m -> wf q id (new_job q opts id pkey d now) ->
  is_Some (Marshal (new_job q opts id pkey d now)) -> job q m id = None ->
  exists m' e', run (publish q id pkey (new_job q opts id pkey d now)) (open_kv m) (open_blobs bm) e
      = (Ok (id, true), open_kv m', open_blobs bm, e') /\
    sets q id (Some (new_job q opts id pkey d now)) m m'.
Proof.
  intros Hok Hwf [data Hm] Hn. unfold publish. rewrite Hm. unfold transaction. rewrite run_bind.
  set (new := new_job q opts id pkey d now) in *.
  assert (Hst : stored_job new = new) by apply Hwf.
  assert (Hset : sets q id (Some new) m (<[metaKey q id := data]> m)).
  { pose proof (sets_insert (HK := job_space) q m id new data Hok Hm) as Hs. cbn [stored job_json] in Hs.
    rewrite Hst in Hs. apply Hs; [apply Hwf|exact Hwf]. }
  assert (Hrun := run_retry 15 Storage.ErrConflict tt (enqueue_fn (metaKey q id) data) m (open_blobs bm) e
    (fun a k' b' e' => a = (tt, Ok tt) /\ k' = open_kv (<[metaKey q id := data]> m) /\ b' = open_blobs bm)
    (proj1 He)).
  change (retry_loop maxAttempts) with (@retry_loop unit 16).
  destruct (run (retry_loop 16 _ tt _) (open_kv m) (open_blobs bm) e) as [[[a k'] b'] e'].
  destruct Hrun as (-> & -> & ->).
  - apply (cell_none (HK := job_space)) in Hn; [|done]. change (ks_key q id) with (metaKey q id) in Hn.
    unfold enqueue_fn. apply yields_bind. unfold yields, tGet. cbn [run_tx tx_get map_tx].
    unfold kv_lookup. by rewrite Hn.
  - exists (<[metaKey q id := data]> m), e'. split; [done|exact Hset].
Qed.

Lemma run_with_id {A} `{BlobStore B} q opts (c : string -> prog A) (k : MemoryKV) (b : B) dl e :
  fine dl e -> exists id e', fine dl e' /\ id_for q opts id /\
    run (with_id q opts c) k b e = run (c id) k b e'.
Proof.
  intros He. unfold with_id, id_for.
  case_bool_decide as Hj; cbn [negb]; [|exists (JobID opts), e; by rewrite decide_True].
  case_bool_decide as Hi; cbn [negb].
  - cbn [run]. unfold read_random. do 2 eexists. split; [|split; [|reflexivity]]; [exact He|].
    rewrite !decide_False by (intros Hn; by apply Hn). eexists. split; [apply length_take_pad|done].
  - do 2 eexists. split; [exact He|]. split; [|reflexivity].
    rewrite decide_False by (intros Hn; by apply Hn). by rewrite decide_True.
Qed.

Lemma run_Enqueue q opts d m bm e :
  closed q = false -> jobs_ok q m -> enqueue_args q opts (bytes_reader d) -> fine (Delay opts) e ->
  exists id created m' bm' e',
    run (Enqueue q d opts) (open_kv m) (open_blobs bm) e
      = (Ok (id, created), open_kv m', open_blobs bm', e') /\
    enqueued q opts d m bm id created m' bm'.
Proof.
  intros Hq Hok (Hv & Hmq & Hmo & Hd) He. unfold Enqueue, EnqueueReader, checkOpen. rewrite Hq.
  match goal with |- context [with_id q opts ?c] =>
    destruct (run_with_id q opts c (open_kv m) (open_blobs bm) _ e He) as (id & e1 & He1 & Hid & ->) end.
  rewrite run_get by apply He1. destruct (job q m id) as [j|] eqn:Hj.
  - assert (Hl : exists raw, kv_lookup m (metaKey q id) = Ok raw).
    { unfold job, cell in Hj. cbn [ks_key job_space] in Hj. apply bind_Some in Hj as (raw & Hl & _).
      exists raw. unfold kv_lookup. by rewrite Hl. }
    destruct Hl as [raw ->]. exists id, false, m, bm, (polled e1). split; [done|]. split; [done|].
    rewrite Hj. eauto.
  - assert (Hl : kv_lookup m (metaKey q id) = Err Storage.ErrNotFound).
    { apply (cell_none (HK := job_space)) in Hj; [|done]. change (ks_key q id) with (metaKey q id) in Hj.
      unfold kv_lookup. by rewrite Hj. }
    rewrite Hl. change (errors_is Storage.ErrNotFound Storage.ErrNotFound) with true. cbn [negb].
    rewrite run_rand. set (e2 := snd (read_random 16 (polled e1))).
    assert (He2 : fine (Delay opts) e2) by exact He1.
    set (r16 := fst (read_random 16 (polled e1))). cbv zeta.
    set (pkey := payloadKey q id +:+ "/" +:+ newID r16).
    match goal with |- context [BlobPut pkey _ _ ?c] =>
      destruct (run_blob_put pkey d c (open_kv m) bm e2 (proj1 He2)) as (e3 & Ha3 & Hc3 & ->) end.
    pose proof (fine_after _ _ _ He2 Ha3 Hc3) as He3.
    rewrite run_now. set (now := clock e3 (ticks e3)).
    assert (He4 : fine (Delay opts) (tick e3)) by exact He3.
    destruct (run_publish q opts id pkey d now m (<[pkey := newMemoryBlob d]> bm) _ (tick e3) He4 Hok)
      as (m' & e5 & Hrun & Hset).
    { apply wf_enqueue; [by eapply id_for_valid|..|done|done]. cbn in Hd. by rewrite str_app_nil_r in Hd. }
    { by apply (new_job_encodable _ _ _ _ _ e3). }
    { exact Hj. }
    rewrite Hrun. exists id, true, m', (<[pkey := newMemoryBlob d]> bm), e5. split; [done|]. split; [done|].
    split; [done|]. by exists r16, now.
Qed.

(** ** Claim *)

Lemma job_times q m id j :
  jobs_ok q m -> job q m id = Some j -> time_ok (AvailableAt j) /\ time_ok (CreatedAt j).
Proof.
  intros Hok Hj. unfold job, cell in Hj. apply bind_Some in Hj as (raw & Hl & Hu).
  destruct (well_entry q m id raw Hok Hl) as (a & Hm & _ & _ & Hu' & _).
  rewrite Hu' in Hu. injection Hu as <-.
  apply mk_is_Some, job_encodable in Hm as (? & _ & ? & _). done.
Qed.

Lemma yields_claim q d m e v0 :
  jobs_ok q m -> fine d e -> exists now,
  yields (claim_fn q d) v0 m e (fun c r m' e' =>
    match candidates now (entries q m) with
    | [] => r = Err ErrNoJob
    | j :: js => exists tok, c = Some (claim_job (first_job j js) now d tok) /\ r = Ok tt
    end).
Proof.
  intros Hok (Ha & Hc & Hd). exists (clock e (ticks e)). set (now := clock e (ticks e)).
  unfold claim_fn. apply yields_bind. unfold yields at 1, assign. cbn [run_tx].
  apply yields_bind. unfold yields at 1, tNow. cbn [run_tx read_clock]. fold now.
  apply yields_bind. unfold yields at 1, tScan. cbn [run_tx tx_scan map_tx].
  change (scanEntries m (prefix_scan (qprefix q))) with (entries (HK := job_space) q m).
  destruct (candidates now (entries q m)) as [|j js] eqn:Ec; [done|].
  destruct (first_job_ready _ _ _ _ _ Hok Ec) as (Hj & _ & _). cbv zeta in *.
  set (old := first_job j js) in *.
  apply yields_bind. unfold yields at 1, tRand. cbn [run_tx].
  destruct (read_random 16 _) as [r16 e2]. apply yields_bind. unfold putMeta.
  destruct (proj2 (job_encodable (claim_job old now d (newID r16)))) as [raw ->].
  { destruct (job_times _ _ _ _ Hok Hj). cbn [claim_job AvailableAt LeaseUntil CreatedAt UpdatedAt].
    split_and!; [done|apply Hd|done|apply Hc]. }
  unfold yields, tPut. cbn [run_tx tx_put map_tx]. by eexists.
Qed.

(** A claim alone succeeds exactly when some job is ready, and takes the first
    one. *)
Lemma run_Claim q d m bm e :
  closed q = false -> jobs_ok q m -> fine (lease_for q d) e ->
  exists now r m' e', run (Claim q d) (open_kv m) (open_blobs bm) e = (r, open_kv m', open_blobs bm, e') /\
    match r with
    | Err er => er = ErrNoJob /\ m' = m /\ forall id j, job q m id = Some j -> ~ ready now j
    | Ok j => exists old tok, first_ready q m now old /\ j = claim_job old now (lease_for q d) tok /\
        steps_to q (ID j) old j m m'
    end.
Proof.
  intros Hq Hok He. unfold Claim, checkOpen, transaction. rewrite Hq. rewrite run_bind.
  destruct (yields_claim q (lease_for q d) m (polled (polled e)) None Hok He) as [now Hy].
  pose proof (yields_and _ _ _ _ _ _ (yields_attempt _ _ _ (polled (polled e)) _ (attempt_claim q (lease_for q d) None m Hok)) Hy) as Hb.
  assert (Hrun := run_retry 15 Storage.ErrConflict None (claim_fn q (lease_for q d)) m (open_blobs bm) e
    (fun a k' b' e' => b' = open_blobs bm /\ exists m', k' = open_kv m' /\
      match snd a with
      | Err er => er = ErrNoJob /\ m' = m /\ candidates now (entries q m) = []
      | Ok _ => claimed_by q (lease_for q d) m (fst a) m' /\
          match candidates now (entries q m) with
          | [] => False
          | j :: js => exists tok, fst a = Some (claim_job (first_job j js) now (lease_for q d) tok)
          end
      end) (proj1 He)).
  change (retry_loop maxAttempts) with (@retry_loop (option jobMeta) 16).
  destruct (run (retry_loop 16 _ None _) (open_kv m) (open_blobs bm) e) as [[[[c r] k'] b'] e'].
  exists now. destruct Hrun as (-> & m' & -> & Hr); cbn [fst snd] in *.
  - eapply yields_mono; [exact Hb|]. intros c1 [[]|er] m1 e1 [H1 H2].
    + split; [done|]. exists m1. split; [done|]. cbn [fst snd]. destruct H1 as (_ & _ & Hcl).
      split; [exact Hcl|]. destruct (candidates now (entries q m)); [done|].
      destruct H2 as (tok & -> & _). by exists tok.
    + destruct (candidates now (entries q m)) eqn:Ec; [|by destruct H2 as (? & _ & ?)].
      injection H2 as ->. split; [done|]. split; [done|]. exists m. by split_and!.
  - destruct r as [u|er].
    + destruct Hr as [(now' & old & tok & Hf & _ & -> & _ & Hs) Hc]. destruct u.
      do 3 eexists. split; [reflexivity|]. exists old, tok.
      destruct (candidates now (entries q m)) as [|j js]; [done|]. destruct Hc as [tok' Hc].
      assert (now' = now) as -> by (apply (f_equal (fmap UpdatedAt)) in Hc; by injection Hc).
      by split_and!.
    + destruct Hr as (-> & -> & Hc). do 3 eexists. split; [reflexivity|]. split; [done|]. split; [done|].
      intros id j Hj Hrd.
      assert (Hin : j ∈ candidates now (entries q m)) by (apply candidates_elem; eauto).
      rewrite Hc in Hin. by apply not_elem_of_nil in Hin.
Qed.
