(* ===== verification/QueueProps.v ===== *)
(** * queue: the properties of the queue

    The theorems about [Queue], with witnesses on concrete runs. *)
From S2P Require Import Prelude GoBase Base64 Utf8 Codec Hash Storage.
From S2P Require Import Logic.
From S2P Require Import Scan Cells MemoryKV MemoryBlob Sequential Testing.
From S2P Require Import QueueData Queue QueueLogic QueueSafe QueueSeq.
Local Open Scope Z_scope.

Definition test_queue : Queue := New "q" [].
Definition test_opts (id : string) : EnqueueOptions := MkEnqueueOptions id "" 0 0.

Lemma jobs_ok_empty q : jobs_ok q ∅.
Proof. apply (well_empty (HK := job_space)). Qed.

Lemma queue_store_empty q : store_ok q empty_store.
Proof. exact (jobs_ok_empty q). Qed.

(** ** All clients *)

(** A client of the queue: a producer, a worker that got [j] from [Claim], an
    operator, or the maintenance goroutine. *)
Inductive queue_client (q : Queue) : prog unit -> Prop :=
| qc_enqueue r size opts : enqueue_args q opts r -> queue_client q (client (EnqueueReader q r size opts))
| qc_claim d : queue_client q (client (Claim q d))
| qc_renew j d : queue_client q (client (Renew q j d))
| qc_retry j d : queue_client q (client (Retry q j d))
| qc_dead j : queue_client q (client (Dead q j))
| qc_complete j : handle q j -> queue_client q (client (Complete q j))
| qc_list : queue_client q (client (ListDead q))
| qc_requeue id : queue_client q (client (RequeueDead q id))
| qc_maintenance ws : queue_client q (client (maintenance q ws)).

Lemma queue_client_safe q p :
  queue_client q p -> safe (store_ok q) (guar q) [] p (fun _ _ => True).
Proof.
  intros [r size opts Ha|d|j d|j d|j|j Hh| |id|ws]; eapply safe_client;
    [by apply safe_EnqueueReader|apply safe_Claim|apply safe_Renew|apply safe_Retry|apply safe_Dead
    |by apply safe_Complete|apply safe_ListDead|apply safe_RequeueDead|exact (safe_ticker _ _ [] _ ws _ (safe_reapExpired q))].
Qed.

(** C4: Any number of producers, workers, operators and maintenance loops,
    interleaved at the granularity of storage accesses with conflicts,
    retries and failures, keep every job record well-formed (under the key of
    its own ID, in one of the four states with the lease fields that state
    calls for, tried no more often than its bound) and move every job only
    along the job state machine. *)
Theorem queue_clients_safe (q : Queue) (ps ps' : list (prog unit)) (st st' : store) :
  store_ok q st -> Forall (queue_client q) ps ->
  pool_steps (store_ok q) (guar q) ps st ps' st' ->
  store_ok q st' /\ rtc (fun a b => guar q a b /\ store_ok q b) st st'.
Proof.
  intros Hok Hps Hr. apply (safe_pool _ _ _ _ _ _ Hok) in Hr; [exact Hr|].
  eapply Forall_impl; [exact Hps|]. intros p Hp. exists []. by apply queue_client_safe.
Qed.

Lemma test_args payload id : valid_utf8 id = true ->
  (String.length payload < 100)%nat -> enqueue_args test_queue (test_opts id) (bytes_reader payload).
Proof.
  intros Hv Hl. unfold enqueue_args. split; [done|]. split; [done|]. split; [done|].
  cbn. rewrite str_app_nil_r. unfold in_i64. lia.
Qed.

Lemma queue_clients_safe_witness :
  let ps := [client (Claim test_queue 0);
             client (EnqueueReader test_queue (bytes_reader "x") 1 (test_opts "a"))] in
  exists st', Forall (queue_client test_queue) ps /\
    pool_steps (store_ok test_queue) (guar test_queue) ps empty_store
      [Ret tt; client (EnqueueReader test_queue (bytes_reader "x") 1 (test_opts "a"))] st' /\
    store_ok test_queue st'.
Proof.
  cbv zeta. set (p2 := client (EnqueueReader _ _ _ _)).
  assert (Hps : Forall (queue_client test_queue) [client (Claim test_queue 0); p2]).
  { apply Forall_cons_2; [exact (qc_claim test_queue 0)|]. apply Forall_cons_2; [|apply Forall_nil_2].
    apply (qc_enqueue test_queue). by apply test_args; [|cbn; lia]. }
  exists empty_store. split; [exact Hps|].
  assert (Hrun : pool_steps (store_ok test_queue) (guar test_queue) [client (Claim test_queue 0); p2] empty_store
    [Ret tt; p2] empty_store).
  { (* the context of the worker is cancelled before its transaction starts *)
    eapply pool_l; [|apply pool_refl].
    apply (pool_step_intro _ _ [client (Claim test_queue 0); p2] 0 (client (Claim test_queue 0)) (Ret tt));
      [reflexivity|].
    refine (step_ctx _ empty_store (Some (ctx_error Canceled))). }
  split; [exact Hrun|].
  exact (proj1 (queue_clients_safe test_queue _ _ _ _ (queue_store_empty _) Hps Hrun)).
Defined.

(** ** Claiming *)

(** C5: Claims are atomic and first-in-first-out. A successful [Claim], under
    any interference, made one commit; at that moment the job was pending and
    available, no other available job preceded it in the order of
    availability, creation and ID, and the commit put it under a fresh
    32-character token, leased until the time of the claim plus the lease
    duration, with one more attempt, and left all other jobs as they were. A
    [Claim] that fails changed nothing. *)
Theorem claim_takes_first_ready (q : Queue) (d : duration) (st st' : store) (r : result jobMeta)
    (h : list access) :
  store_ok q st -> runs_in (store_ok q) [] (Claim q d) st h (Ret r) st' ->
  match r with
  | Err _ => Forall (fun a => fst a = snd a) h
  | Ok j => exists h0 s0 s1 now old,
      h = h0 ++ [(s0, s1)] /\ Forall (fun a => fst a = snd a) h0 /\
      job q (st_kv s0) (ID j) = Some old /\ ready now old /\
      (forall id j', job q (st_kv s0) id = Some j' -> ready now j' -> ~ job_lt j' old) /\
      job q (st_kv s1) (ID j) = Some j /\
      j = claim_job old now (lease_for q d) (LeaseToken j) /\ String.length (LeaseToken j) = 32%nat /\
      (forall id, id <> ID j -> job q (st_kv s1) id = job q (st_kv s0) id)
  end.
Proof.
  intros Hok Hr. pose proof (safe_result _ _ _ _ _ _ _ _ (safe_Claim q d) Hok Hr) as Hc.
  destruct r as [j|e]; [|exact Hc].
  destruct Hc as (h0 & s0 & s1 & -> & Hq & now & old & tok & [Hrd Hf] & Hl & Hj & _ & Hs1 & Hs2 & Ho).
  injection Hj as ->. exists h0, s0, s1, now, old. by split_and!.
Qed.

(** a queue holding one pending job *)
Definition pending_kv : kvmap := after (EnqueueReader test_queue (bytes_reader "x") 1 (test_opts "a")).

Lemma pending_ok : store_ok test_queue (MkStore pending_kv ∅).
Proof.
  destruct (safe_after (store_ok test_queue) (guar test_queue) _ _
    (safe_EnqueueReader test_queue (bytes_reader "x") 1 (test_opts "a")
      (test_args "x" "a" eq_refl ltac:(cbn; lia))) (queue_store_empty _)) as [b Hb].
  exact Hb.
Qed.

Lemma claim_takes_first_ready_witness :
  exists j h st', runs_in (store_ok test_queue) [] (Claim test_queue 0) (MkStore pending_kv ∅) h (Ret (Ok j)) st' /\
    ID j = "a"%stdpp /\ String.length (LeaseToken j) = 32%nat.
Proof.
  destruct (answer_runs_in (store_ok test_queue) (Claim test_queue 0) pending_kv (later second))
    as (h & st' & Hr).
  assert (E : exists j, answer (Claim test_queue 0) pending_kv (later second) = Ok j /\ ID j = "a"%stdpp)
    by (vm_compute; by eexists).
  destruct E as (j & E & Hid). rewrite E in Hr. exists j, h, st'. split; [exact Hr|]. split; [exact Hid|].
  destruct (claim_takes_first_ready test_queue 0 _ _ _ _ pending_ok Hr)
    as (h0 & s0 & s1 & now & old & _ & _ & _ & _ & _ & _ & _ & Hl & _). exact Hl.
Defined.


(** A job is delivered a bounded number of times: a claimed job has been
    claimed at least once and at most [max 1 MaxRetries] times since it was
    enqueued or requeued. *)
Theorem claim_attempts_bounded (q : Queue) (d : duration) (st st' : store) (j : jobMeta)
    (h : list access) :
  store_ok q st -> runs_in (store_ok q) [] (Claim q d) st h (Ret (Ok j)) st' ->
  1 <= Attempts j <= Z.max 1 (MaxRetries j).
Proof.
  intros Hok Hr. pose proof (safe_result _ _ _ _ _ _ _ _ (safe_Claim q d) Hok Hr) as Hc.
  destruct Hc as (h0 & s0 & s1 & Hh & _ & now & old & tok & _ & Hl & Hj & Hwf & _).
  injection Hj as ->. by destruct (wf_claimed _ _ _ Hwf eq_refl).
Qed.

Lemma claim_attempts_bounded_witness :
  exists j h st', runs_in (store_ok test_queue) [] (Claim test_queue 0) (MkStore pending_kv ∅) h (Ret (Ok j)) st' /\
    1 <= Attempts j <= Z.max 1 (MaxRetries j).
Proof.
  destruct (answer_runs_in (store_ok test_queue) (Claim test_queue 0) pending_kv (later second))
    as (h & st' & Hr).
  assert (E : exists j, answer (Claim test_queue 0) pending_kv (later second) = Ok j)
    by (vm_compute; by eexists).
  destruct E as (j & E). rewrite E in Hr. exists j, h, st'. split; [exact Hr|].
  exact (claim_attempts_bounded test_queue 0 _ _ _ _ pending_ok Hr).
Defined.

(** ** Leases *)

(** the moves that the holder of the lease ([tok], [until]) makes, or that
    its expiry allows *)
Definition disturbs (tok : string) (until : time) (l : label) : Prop :=
  match l with
  | LRenew t _ | LRelease t _ | LComplete t _ => t = tok
  | LReap now => until <= now
  | _ => False
  end.


Definition sample_job : jobMeta :=
  MkJobMeta "a" stateClaimed "queue/cQ/payload/YQ/x" 1 "h" 1 3 unix_epoch (Add unix_epoch minute) "t"
    unix_epoch unix_epoch.
Definition sample_kv (j : jobMeta) : kvmap :=
  <[metaKey test_queue (ID j) := default EmptyString (Marshal j)]> ∅.

Lemma sample_kv_job (j : jobMeta) :
  bool_decide ((Marshal j ≫= Unmarshal) = Some j) = true ->
  job test_queue (sample_kv j) (ID j) = Some j.
Proof.
  intros H%bool_decide_eq_true. unfold job, cell, sample_kv. cbn [ks_key job_space].
  rewrite lookup_insert_eq. apply bind_Some in H as (raw & Hm & Hu). by rewrite Hm.
Qed.


(** Only the holder of an unexpired lease can renew, retry or bury a job.
    An operation of a job handle that succeeds made one commit, at which the
    job was claimed under the handle's token and the lease had not expired:
    [Renew] moved the end of the lease only; [Retry] made the job pending
    again, or dead when its retries were used up, and said which; [Dead] made
    it dead. The commit is a step of the state machine, and no other job is
    touched. One that fails changed nothing. *)
Theorem holder_operations_guarded (q : Queue) (j : jobMeta) (d : duration) (st : store) :
  store_ok q st ->
  (forall rj h st', runs_in (store_ok q) [] (Renew q j d) st h (Ret rj) st' ->
     acted q j LRenew (fun now old new => exists u, new = set_UpdatedAt now (set_LeaseUntil u old) /\
       snd rj = set_LeaseUntil u j) (fst rj) h) /\
  (forall dead r h st', runs_in (store_ok q) [] (Retry q j d) st h (Ret (dead, r)) st' ->
     acted q j LRelease (fun _ old new => dead = (MaxRetries old <=? Attempts old) /\
       State new = (if dead : bool then stateDead else statePending)) r h) /\
  (forall r h st', runs_in (store_ok q) [] (Dead q j) st h (Ret r) st' ->
     acted q j LRelease (fun _ _ new => State new = stateDead) r h).
Proof.
  intros Hok. split_and!.
  - intros rj h st' Hr. exact (safe_result _ _ _ _ _ _ _ _ (safe_Renew q j d) Hok Hr).
  - intros dead r h st' Hr. exact (safe_result _ _ _ _ _ _ _ _ (safe_Retry q j d) Hok Hr).
  - intros r h st' Hr. exact (safe_result _ _ _ _ _ _ _ _ (safe_Dead q j) Hok Hr).
Qed.

(** the pending job claimed, and its handle *)
Definition claimed_kv : kvmap :=
  after (EnqueueReader test_queue (bytes_reader "x") 1 (test_opts "a") ≫= fun _ => Claim test_queue 0).
Definition test_handle : jobMeta :=
  match claimed_kv !! metaKey test_queue "a" ≫= Unmarshal with Some j => j | None => zero_meta end.

Lemma claimed_ok : store_ok test_queue (MkStore claimed_kv ∅).
Proof.
  destruct (safe_after (store_ok test_queue) (guar test_queue)
    (EnqueueReader test_queue (bytes_reader "x") 1 (test_opts "a") ≫= fun _ => Claim test_queue 0)
    (fun _ _ => True)) as [b Hb].
  - eapply safe_seq; [exact (safe_EnqueueReader test_queue (bytes_reader "x") 1 (test_opts "a")
      (test_args "x" "a" eq_refl ltac:(cbn; lia)))|]. intros _. exact (safe_Claim test_queue 0).
  - apply queue_store_empty.
  - exact Hb.
Qed.

Lemma holder_operations_guarded_witness :
  exists h st', runs_in (store_ok test_queue) [] (Dead test_queue test_handle) (MkStore claimed_kv ∅) h (Ret (Ok tt)) st' /\
    acted test_queue test_handle LRelease (fun _ _ new => State new = stateDead) (Ok tt) h.
Proof.
  destruct (answer_runs_in (store_ok test_queue) (Dead test_queue test_handle) claimed_kv (later second))
    as (h & st' & Hr).
  assert (E : answer (Dead test_queue test_handle) claimed_kv (later second) = Ok tt) by (vm_compute; reflexivity).
  rewrite E in Hr. exists h, st'. split; [exact Hr|].
  exact (proj2 (proj2 (holder_operations_guarded test_queue test_handle 0 _ claimed_ok)) _ _ _ Hr).
Defined.

(** ** Durability *)

Lemma evolves_job q m m' id :
  evolves q m m' -> job q m' id = job q m id \/ exists l, moves l (job q m id) (job q m' id).
Proof. intros [_ H]. apply H. Qed.

Lemma moves_completed l j j1 :
  moves l (Some j) (Some j1) -> State j1 = stateCompleted -> State j <> stateCompleted ->
  exists tok now, held tok now j.
Proof.
  intros Hm Hc Hne. inversion Hm; subst; simpl in *; try done; eauto.
  by destruct (MaxRetries j <=? Attempts j).
Qed.

Lemma moves_gone l j : moves l (Some j) None -> State j = stateCompleted.
Proof. intros Hm. by inversion Hm; subst. Qed.


Definition sample_done : jobMeta :=
  set_UpdatedAt unix_epoch (set_LeaseUntil zero_time (set_State stateCompleted sample_job)).

Lemma job_empty q id : job q ∅ id = None.
Proof. unfold job, cell. by rewrite lookup_empty. Qed.

Lemma sample_out j k :
  ID j = "a"%stdpp -> has_prefix (qprefix test_queue) k = false -> sample_kv j !! k = None.
Proof.
  intros Hid Hp. unfold sample_kv. rewrite lookup_insert_ne, lookup_empty; [done|].
  intros <-. by rewrite metaKey_prefix in Hp.
Qed.

Lemma sample_other j id : ID j = "a"%stdpp -> id <> "a"%stdpp -> job test_queue (sample_kv j) id = None.
Proof.
  intros Hid Hne. unfold job, cell, sample_kv. cbn [ks_key job_space].
  rewrite lookup_insert_ne, lookup_empty; [done|]. intros E%metaKey_inj. congruence.
Qed.

Lemma sample_at j :
  ID j = "a"%stdpp -> bool_decide ((Marshal j ≫= Unmarshal) = Some j) = true ->
  job test_queue (sample_kv j) "a" = Some j.
Proof. intros <-. apply sample_kv_job. Qed.

Lemma sample_move l :
  moves l (Some sample_job) (Some sample_done) ->
  guar test_queue (MkStore (sample_kv sample_job) ∅) (MkStore (sample_kv sample_done) ∅).
Proof.
  intros Hm. split; [split|done]; cbn [st_kv].
  - intros k Hp. by rewrite !sample_out.
  - intros id. destruct (decide (id = "a"%stdpp)) as [->|Hne]; [|left; by rewrite !sample_other].
    right. exists l. rewrite (sample_at sample_job), (sample_at sample_done) by (vm_compute; reflexivity).
    exact Hm.
Qed.

Lemma sample_gone : guar test_queue (MkStore (sample_kv sample_done) ∅) empty_store.
Proof.
  split; [split|done]; cbn [st_kv empty_store].
  - intros k Hp. by rewrite sample_out.
  - intros id. rewrite job_empty.
    destruct (decide (id = "a"%stdpp)) as [->|Hne]; [|left; by rewrite sample_other].
    right. exists (LCleanup "t"). rewrite (sample_at sample_done) by (vm_compute; reflexivity).
    by apply move_cleanup.
Qed.

Lemma sample_held : held "t" unix_epoch sample_job.
Proof. by vm_compute. Qed.


(** Completion is crash-safe. When [Complete] returns nil, it first made
    a commit, before which it had changed nothing: the job was marked
    completed by the holder of its unexpired lease, or had been already, or
    was gone. Only then was the payload deleted, and in its last commit the
    job record is gone. No other access of it changed a job record. *)
Theorem complete_marks_then_removes (q : Queue) (j : jobMeta) (st st' : store) (h : list access) :
  handle q j -> store_ok q st -> runs_in (store_ok q) [] (Complete q j) st h (Ret (Ok tt)) st' ->
  exists h1 s1 s1' h2 s2 s2',
    h = h1 ++ [(s1, s1')] ++ h2 ++ [(s2, s2')] /\
    Forall (fun a => fst a = snd a) h1 /\
    match job q (st_kv s1) (ID j) with
    | None => st_kv s1' = st_kv s1
    | Some old =>
        State old = stateCompleted /\ LeaseToken old = LeaseToken j /\ st_kv s1' = st_kv s1 \/
        exists now new, held (LeaseToken j) now old /\ State new = stateCompleted /\
          job q (st_kv s1') (ID j) = Some new /\
          forall id, id <> ID j -> job q (st_kv s1') id = job q (st_kv s1) id
    end /\
    Forall (fun a => st_kv (fst a) = st_kv (snd a)) h2 /\
    job q (st_kv s2') (ID j) = None.
Proof.
  intros Hh Hok Hr. destruct (safe_result _ _ _ _ _ _ _ _ (safe_Complete q j Hh) Hok Hr)
    as (h1 & s1 & s1' & h2 & s2 & s2' & -> & Hq1 & Hq2 & Hm & Hg & _).
  exists h1, s1, s1', h2, s2, s2'. split_and!; [done|done| |done|done].
  unfold marks in Hm. destruct (job q (st_kv s1) (ID j)) as [old|]; [|done].
  destruct Hm as [?|(now & new & ? & ? & _ & _ & ? & ?)]; [by left|right]. exists now, new. by split_and!.
Qed.

Lemma complete_marks_then_removes_witness :
  exists h st', handle test_queue test_handle /\
    runs_in (store_ok test_queue) [] (Complete test_queue test_handle) (MkStore claimed_kv ∅) h (Ret (Ok tt)) st' /\
    exists s2' : store, job test_queue (st_kv s2') "a" = None.
Proof.
  assert (Hh : handle test_queue test_handle) by (vm_compute; reflexivity).
  destruct (answer_runs_in (store_ok test_queue) (Complete test_queue test_handle) claimed_kv (later second))
    as (h & st' & Hr).
  assert (E : answer (Complete test_queue test_handle) claimed_kv (later second) = Ok tt) by (vm_compute; reflexivity).
  rewrite E in Hr. exists h, st'. split; [exact Hh|]. split; [exact Hr|].
  destruct (complete_marks_then_removes test_queue test_handle _ _ _ Hh claimed_ok Hr)
    as (h1 & s1 & s1' & h2 & s2 & s2' & _ & _ & _ & _ & Hg).
  exists s2'. replace (ID test_handle) with "a"%stdpp in Hg by (vm_compute; reflexivity). exact Hg.
Defined.

(** ** Enqueueing *)

(** C25: Enqueueing is atomic and idempotent under interference. When it
    reports a new job, its last access created the job, pending and untried,
    where there was none, described by the size and the SHA-256 of exactly the
    bytes of the reader, which ended cleanly and had the declared size;
    nothing before that changed a job record, and no other job is touched. When it reports an existing job,
    or fails, it changed no job record. The ID is the caller's, or derived
    from the idempotency key, or random. *)
Theorem enqueue_is_atomic (q : Queue) (rd : reader) (size : Z) (opts : EnqueueOptions)
    (st st' : store) (r : result (string * bool)) (h : list access) :
  enqueue_args q opts rd -> store_ok q st ->
  runs_in (store_ok q) [] (EnqueueReader q rd size opts) st h (Ret r) st' ->
  match r with
  | Ok (id, true) => id_for q opts id /\ exists h0 s0 s1 pkey now,
      h = h0 ++ [(s0, s1)] /\ Forall (fun a => st_kv (fst a) = st_kv (snd a)) h0 /\
      rd_err rd = None /\ (0 <= size -> Z.of_nat (String.length (rd_data rd)) = size) /\
      job q (st_kv s0) id = None /\
      job q (st_kv s1) id = Some (new_job q opts id pkey (rd_data rd) now) /\
      turns q id LEnqueue (st_kv s0) (st_kv s1)
  | Ok (id, false) => id_for q opts id /\ Forall (fun a => st_kv (fst a) = st_kv (snd a)) h
  | Err _ => Forall (fun a => st_kv (fst a) = st_kv (snd a)) h
  end.
Proof.
  intros Ha Hok Hr. exact (safe_result _ _ _ _ _ _ _ _ (safe_EnqueueReader q rd size opts Ha) Hok Hr).
Qed.

Lemma enqueue_is_atomic_witness :
  exists h st', enqueue_args test_queue (test_opts "a") (bytes_reader "x") /\
    runs_in (store_ok test_queue) [] (EnqueueReader test_queue (bytes_reader "x") 1 (test_opts "a"))
      empty_store h (Ret (Ok ("a"%stdpp, true))) st' /\
    id_for test_queue (test_opts "a") "a".
Proof.
  assert (Ha := test_args "x" "a" eq_refl ltac:(cbn; lia)).
  destruct (answer_runs_in (store_ok test_queue) (EnqueueReader test_queue (bytes_reader "x") 1 (test_opts "a"))
    ∅ test_env) as (h & st' & Hr).
  assert (E : answer (EnqueueReader test_queue (bytes_reader "x") 1 (test_opts "a")) ∅ test_env
    = Ok ("a"%stdpp, true)) by (vm_compute; reflexivity).
  rewrite E in Hr. exists h, st'. split; [exact Ha|]. split; [exact Hr|].
  exact (proj1 (enqueue_is_atomic _ _ _ _ _ _ _ _ Ha (queue_store_empty _) Hr)).
Defined.

Lemma test_fine dl : bool_decide (is_Some (enc_time (Add unix_epoch dl))) = true -> fine dl test_env.
Proof. intros H%bool_decide_eq_true. split; [done|]. split; [apply test_clock_ok|]. intros n. exact H. Qed.

(** Enqueue alone succeeds. On open engines, with a live context and a
    clock that JSON can represent, [Enqueue] returns an ID without error; the
    job was either created, with its payload stored under the key its record
    names and nothing else changed, or it existed and nothing changed at all,
    payloads included. *)
Theorem enqueue_succeeds (q : Queue) (opts : EnqueueOptions) (d : string) (m : kvmap)
    (bm : gmap string memoryBlob) (e : env) :
  closed q = false -> jobs_ok q m -> enqueue_args q opts (bytes_reader d) -> fine (Delay opts) e ->
  exists id created m' bm' e',
    run (Enqueue q d opts) (open_kv m) (open_blobs bm) e
      = (Ok (id, created), open_kv m', open_blobs bm', e') /\
    id_for q opts id /\
    if created : bool then
      job q m id = None /\ exists r16 now,
        let pkey := payloadKey q id +:+ "/" +:+ newID r16 in
        job q m' id = Some (new_job q opts id pkey d now) /\
        (forall id', id' <> id -> job q m' id' = job q m id') /\
        bm' = <[pkey := newMemoryBlob d]> bm
    else is_Some (job q m id) /\ m' = m /\ bm' = bm.
Proof.
  intros Hq Hok Ha He. destruct (run_Enqueue q opts d m bm e Hq Hok Ha He)
    as (id & created & m' & bm' & e' & Hr & Hid & Hc).
  exists id, created, m', bm', e'. split; [exact Hr|]. split; [exact Hid|].
  destruct created; [|exact Hc]. destruct Hc as (Hn & r16 & now & (_ & Hj & Ho & _) & Hb).
  split; [exact Hn|]. exists r16, now. by split_and!.
Qed.

Lemma enqueue_succeeds_witness :
  exists m' bm' e', run (Enqueue test_queue "x" (test_opts "a")) (open_kv pending_kv) (open_blobs ∅) test_env
    = (Ok ("a"%stdpp, false), open_kv m', open_blobs bm', e') /\ m' = pending_kv.
Proof.
  destruct (enqueue_succeeds test_queue (test_opts "a") "x" pending_kv ∅ test_env eq_refl pending_ok
    (test_args "x" "a" eq_refl ltac:(cbn; lia)) (test_fine 0 eq_refl))
    as (id & created & m' & bm' & e' & Hr & _ & Hc).
  assert (E : fst (fst (fst (run (Enqueue test_queue "x" (test_opts "a")) (open_kv pending_kv) (open_blobs ∅) test_env)))
    = Ok ("a"%stdpp, false)) by (vm_compute; reflexivity).
  rewrite Hr in E. cbn [fst] in E. injection E as -> ->. exists m', bm', e'. split; [exact Hr|]. apply Hc.
Defined.



(** ** Payloads *)

Lemma verify_payload_clean r n sum :
  rd_err (verify_payload r n sum) = None <->
  rd_err r = None /\ i64 (Z.of_nat (String.length (rd_data r))) = n /\ sha256_hex (rd_data r) = sum.
Proof.
  unfold verify_payload. cbn [rd_err]. destruct (rd_err r) as [e|]; [split; [done|by intros [? _]]|].
  destruct (Z.eqb_spec (i64 (Z.of_nat (String.length (rd_data r)))) n) as [Hn|Hn]; cbn [negb orb]; [|naive_solver].
  case_bool_decide as Hs; cbn [negb]; naive_solver.
Qed.


(** A payload is delivered intact or reported. Whatever the blob store
    holds under the payload key of a job that was enqueued with payload [d], a
    reader from [OpenPayload] delivers those bytes, and it ends cleanly exactly
    when they have the length and the SHA-256 of [d]; otherwise it ends with
    [ErrPayloadCorrupt]. *)
Theorem payload_is_verified (q : Queue) (opts : EnqueueOptions) (id pkey d : string) (now : time)
    (m : kvmap) (bm : gmap string memoryBlob) (b : memoryBlob) (e : env) :
  in_i64 (Z.of_nat (String.length (mb_data b))) -> fine 0 e -> bm !! pkey = Some b ->
  exists rd, fst (fst (fst (run (OpenPayload (new_job q opts id pkey d now)) (open_kv m) (open_blobs bm) e)))
      = Ok rd /\
    rd_data rd = mb_data b /\
    rd_err rd = if decide (String.length (mb_data b) = String.length d /\ sha256_hex (mb_data b) = sha256_hex d)
                then None else Some ErrPayloadCorrupt.
Proof.
  intros Hb He Hl. unfold OpenPayload. rewrite (run_blob_open _ _ _ _ _ _ (proj1 He)).
  cbn [PayloadKey new_job]. rewrite Hl. cbn. eexists. split; [reflexivity|].
  unfold verify_payload, rd_data. cbn. rewrite str_app_nil_r. split; [done|].
  rewrite i64_id by done.
  destruct (Z.eqb_spec (Z.of_nat (String.length (mb_data b))) (Z.of_nat (String.length d))) as [Hn|Hn]; cbn [negb orb].
  - apply Nat2Z.inj in Hn. case_bool_decide as Hs; cbn [negb]; case_decide; naive_solver.
  - rewrite decide_False; [done|]. intros [E _]. by rewrite E in Hn.
Qed.

Lemma payload_is_verified_witness :
  let bm : gmap string memoryBlob := {["p" := newMemoryBlob "y"]} in
  exists rd, fst (fst (fst (run (OpenPayload (new_job test_queue (test_opts "a") "a" "p" "x" 0))
      (open_kv ∅) (open_blobs bm) test_env))) = Ok rd /\ rd_err rd = Some ErrPayloadCorrupt.
Proof.
  cbv zeta.
  destruct (payload_is_verified test_queue (test_opts "a") "a" "p" "x" 0 ∅ {["p" := newMemoryBlob "y"]}
    (newMemoryBlob "y") test_env ltac:(by vm_compute) (test_fine 0 eq_refl) ltac:(by vm_compute))
    as (rd & Hr & _ & He).
  exists rd. split; [exact Hr|]. rewrite He. vm_compute. reflexivity.
Defined.

(** ** Dead letters and maintenance *)

(** Dead letters. [ListDead] returns, in strictly ascending order, exactly
    the IDs of the jobs that were dead at the moment of its scan. A successful
    [RequeueDead] made one commit, which made a dead job pending again with
    its attempts reset; one that fails changed nothing. *)
Theorem dead_letters (q : Queue) (st : store) :
  store_ok q st ->
  (forall ids h st', runs_in (store_ok q) [] (ListDead q) st h (Ret (Ok ids)) st' ->
     exists s0, h = [(s0, s0)] /\ StronglySorted str_lt ids /\
       forall id, id ∈ ids <-> exists j, job q (st_kv s0) id = Some j /\ State j = stateDead) /\
  (forall id r h st', runs_in (store_ok q) [] (RequeueDead q id) st h (Ret r) st' ->
     match r with
     | Err _ => Forall (fun a => fst a = snd a) h
     | Ok _ => exists h0 s0 s1 old new, h = h0 ++ [(s0, s1)] /\ Forall (fun a => fst a = snd a) h0 /\
         job q (st_kv s0) id = Some old /\ State old = stateDead /\
         job q (st_kv s1) id = Some new /\ State new = statePending /\ Attempts new = 0
     end).
Proof.
  intros Hok. split.
  - intros ids h st' Hr. exact (safe_result _ _ _ _ _ _ _ _ (safe_ListDead q) Hok Hr).
  - intros id r h st' Hr. pose proof (safe_result _ _ _ _ _ _ _ _ (safe_RequeueDead q id) Hok Hr) as Hs.
    destruct r; [|exact Hs].
    destruct Hs as (h0 & s0 & s1 & old & new & -> & Hq & _ & (Ho & Hn & _) & Hd & Hp & Ha).
    exists h0, s0, s1, old, new. by split_and!.
Qed.

Definition dead_job : jobMeta := set_UpdatedAt unix_epoch (release stateDead (set_PayloadKey (payloadKey test_queue "a" +:+ "/x") sample_job)).

Lemma dead_ok : store_ok test_queue (MkStore (sample_kv dead_job) ∅).
Proof.
  assert (Hm : exists raw, Marshal dead_job = Some raw) by (vm_compute; by eexists).
  destruct Hm as [raw Hm]. unfold store_ok, jobs_ok, sample_kv. cbn [st_kv]. rewrite Hm. cbn [default].
  assert (Hst : stored_job dead_job = dead_job) by (vm_compute; reflexivity).
  assert (Hwf : wf test_queue (ID dead_job) dead_job).
  { split; [by vm_compute|]. split; [reflexivity|]. split; [exact Hst|].
    split.
    { unfold job_width, in_i64, dead_job, sample_job.
      cbn [PayloadSize Attempts MaxRetries set_UpdatedAt release set_LeaseToken set_LeaseUntil set_State set_PayloadKey]. lia. }
    split; [exists "x"%stdpp; reflexivity|]. right. right. left. split; [reflexivity|].
    split; [split; reflexivity|]. unfold tried, bound, dead_job, sample_job. cbn. lia. }
  assert (Hs := sets_insert (HK := job_space) test_queue ∅ (ID dead_job) dead_job raw (jobs_ok_empty _) Hm).
  cbn [stored job_json] in Hs. rewrite Hst in Hs. exact (proj1 (Hs (proj1 (proj2 (proj2 (proj2 Hwf)))) Hwf)).
Qed.

Lemma dead_letters_witness :
  exists h st', runs_in (store_ok test_queue) [] (ListDead test_queue) (MkStore (sample_kv dead_job) ∅) h
      (Ret (Ok ["a"%stdpp])) st' /\
    StronglySorted str_lt ["a"%stdpp].
Proof.
  destruct (answer_runs_in (store_ok test_queue) (ListDead test_queue) (sample_kv dead_job) test_env)
    as (h & st' & Hr).
  assert (E : answer (ListDead test_queue) (sample_kv dead_job) test_env = Ok ["a"%stdpp]) by (vm_compute; reflexivity).
  rewrite E in Hr. exists h, st'. split; [exact Hr|].
  destruct (proj1 (dead_letters test_queue _ dead_ok) _ _ _ Hr) as (s0 & _ & Hs & _). exact Hs.
Defined.



(** A job ID that is not valid UTF-8 breaks the exclusive lease: [Claim]
    reads the ID back from JSON mangled, files the claimed record under the
    mangled ID, and leaves the original pending, so that two claims in a row
    both get the job. *)
Theorem binary_job_is_claimed_twice :
  let id := String (Ascii.ascii_of_nat 255) EmptyString in
  let p := EnqueueReader test_queue (bytes_reader "x") 1 (test_opts id) ≫= fun _ =>
    Claim test_queue 0 ≫= fun j1 => Claim test_queue 0 ≫= fun j2 => Ret (j1, j2) in
  exists j1 j2, answer p ∅ test_env = (Ok j1, Ok j2) /\
    PayloadKey j1 = PayloadKey j2 /\ Attempts j1 = 1 /\ Attempts j2 = 1 /\
    LeaseToken j1 <> LeaseToken j2.
Proof.
  cbv zeta. do 2 eexists. split; [vm_compute; reflexivity|].
  split; [reflexivity|]. split; [reflexivity|]. split; [reflexivity|]. by vm_compute.
Qed.
