(* ===== verification/TreeData.v ===== *)
(** * tree: objects and keys (tree/tree.go)

    Manifests, nodes, refs and leases with their JSON forms, and the canonical
    encoding whose SHA-256 is the ID of a node. *)
From S2P Require Import Prelude GoBase Base64 Utf8 Json JsonLit GoTime.
From S2P Require Import Codec Hash Storage.
Local Open Scope Z_scope.

Definition ErrHashMismatch : error := Sentinel "tree: hash mismatch".
Definition ErrRefConflict : error := Sentinel "tree: ref conflict".
Definition ErrFenced : error := Sentinel "tree: fenced".
Definition ErrNotFound : error := Sentinel "tree: not found".

Definition blobPrefix : string := "blobs/".
Definition manifestPrefix : string := "manifest/".
Definition nodePrefix : string := "nodes/".
Definition refPrefix : string := "refs/".
Definition leasePrefix : string := "leases/".

Record Manifest := MkManifest { mf_Key : string; mf_Hash : string; mf_Size : Z; mf_ObjectKey : string }.
Record Node := MkNode { nd_Name : string; nd_Leaf : bool; nd_Blobs : list string; nd_Children : list string }.
Record Ref := MkRef { rf_Name : string; rf_NodeID : string; rf_Version : Z }.
Record Lease := MkLease { ls_Name : string; ls_Token : Z }.

Definition zero_manifest : Manifest := MkManifest "" "" 0 "".
Definition zero_node : Node := MkNode "" false [] [].
Definition zero_ref : Ref := MkRef "" "" 0.
Definition zero_lease : Lease := MkLease "" 0.

#[export] Instance manifest_eq_dec : EqDecision Manifest.
Proof. solve_decision. Defined.
#[export] Instance node_eq_dec : EqDecision Node.
Proof. solve_decision. Defined.
#[export] Instance ref_eq_dec : EqDecision Ref.
Proof. solve_decision. Defined.
#[export] Instance lease_eq_dec : EqDecision Lease.
Proof. solve_decision. Defined.

(** ** JSON *)

Definition encode_manifest (m : Manifest) : option json :=
  Some (JObj [member "key" (enc_string (mf_Key m)); member "hash" (enc_string (mf_Hash m));
    member "size" (enc_int (mf_Size m)); member "object_key" (enc_string (mf_ObjectKey m))]).
Definition manifest_fields : list (string * setter Manifest) :=
  [("key"%stdpp, field dec_string (fun x m => MkManifest x (mf_Hash m) (mf_Size m) (mf_ObjectKey m)));
   ("hash"%stdpp, field dec_string (fun x m => MkManifest (mf_Key m) x (mf_Size m) (mf_ObjectKey m)));
   ("size"%stdpp, field dec_i64 (fun x m => MkManifest (mf_Key m) (mf_Hash m) x (mf_ObjectKey m)));
   ("object_key"%stdpp, field dec_string (fun x m => MkManifest (mf_Key m) (mf_Hash m) (mf_Size m) x))].
Definition stored_manifest (m : Manifest) : Manifest :=
  MkManifest (sanitize (mf_Key m)) (sanitize (mf_Hash m)) (mf_Size m) (sanitize (mf_ObjectKey m)).

#[export, program] Instance manifest_json : GoJSON Manifest := {
  encode := encode_manifest;
  decode := dec_struct manifest_fields zero_manifest;
  in_width m := in_i64 (mf_Size m);
  stored := stored_manifest;
}.
Next Obligation. intros m j [= <-]. solve_json_ok. Qed.
Next Obligation.
  intros m j Hw [= <-]. unfold dec_struct. destruct m. cbn [mf_Key mf_Hash mf_Size mf_ObjectKey] in *.
  repeat dec_step. done.
Qed.
Next Obligation.
  intros j m. apply dec_struct_inv; [by vm_compute|].
  unfold manifest_fields. repeat apply Forall_cons_2; try apply Forall_nil_2; cbn [snd];
    apply field_inv; try done; intros v x r _ Hx; by apply dec_num_range in Hx.
Qed.

(** [omitempty] drops empty slices *)
Definition encode_node (n : Node) : option json :=
  Some (JObj ([member "name" (enc_string (nd_Name n)); member "leaf" (enc_bool (nd_Leaf n))]
    ++ (if decide (nd_Blobs n = []) then [] else [member "blobs" (enc_strings (nd_Blobs n))])
    ++ (if decide (nd_Children n = []) then [] else [member "children" (enc_strings (nd_Children n))]))).
Definition node_fields : list (string * setter Node) :=
  [("name"%stdpp, field dec_string (fun x n => MkNode x (nd_Leaf n) (nd_Blobs n) (nd_Children n)));
   ("leaf"%stdpp, field dec_bool (fun x n => MkNode (nd_Name n) x (nd_Blobs n) (nd_Children n)));
   ("blobs"%stdpp, slice_field [] dec_strings (fun x n => MkNode (nd_Name n) (nd_Leaf n) x (nd_Children n)));
   ("children"%stdpp, slice_field [] dec_strings (fun x n => MkNode (nd_Name n) (nd_Leaf n) (nd_Blobs n) x))].
Definition stored_node (n : Node) : Node :=
  MkNode (sanitize (nd_Name n)) (nd_Leaf n) (sanitize <$> nd_Blobs n) (sanitize <$> nd_Children n).

Lemma dec_enc_bool b : dec_bool (enc_bool b) = Some b.
Proof. reflexivity. Qed.

#[export, program] Instance node_json : GoJSON Node := {
  encode := encode_node;
  decode := dec_struct node_fields zero_node;
  in_width _ := True;
  stored := stored_node;
}.
Next Obligation. intros n j [= <-]. repeat case_decide; solve_json_ok. Qed.
Next Obligation.
  intros n j _ [= <-]. unfold dec_struct. destruct n as [nm lf bs cs].
  cbn [nd_Name nd_Leaf nd_Blobs nd_Children].
  repeat case_decide; cbn [app]; subst; repeat (dec_step || (erewrite field_enc by first [discriminate|apply dec_enc_bool]; cbn [mbind option_bind])); try done.
Qed.
Next Obligation. done. Qed.

Definition encode_ref (r : Ref) : option json :=
  Some (JObj [member "name" (enc_string (rf_Name r)); member "node_id" (enc_string (rf_NodeID r));
    member "version" (enc_int (rf_Version r))]).
Definition ref_fields : list (string * setter Ref) :=
  [("name"%stdpp, field dec_string (fun x r => MkRef x (rf_NodeID r) (rf_Version r)));
   ("node_id"%stdpp, field dec_string (fun x r => MkRef (rf_Name r) x (rf_Version r)));
   ("version"%stdpp, field dec_u64 (fun x r => MkRef (rf_Name r) (rf_NodeID r) x))].
Definition stored_ref (r : Ref) : Ref :=
  MkRef (sanitize (rf_Name r)) (sanitize (rf_NodeID r)) (rf_Version r).

#[export, program] Instance ref_json : GoJSON Ref := {
  encode := encode_ref;
  decode := dec_struct ref_fields zero_ref;
  in_width r := in_u64 (rf_Version r);
  stored := stored_ref;
}.
Next Obligation. intros r j [= <-]. solve_json_ok. Qed.
Next Obligation.
  intros r j Hw [= <-]. unfold dec_struct. destruct r. cbn [rf_Name rf_NodeID rf_Version] in *.
  repeat dec_step. done.
Qed.
Next Obligation.
  intros j r. apply dec_struct_inv; [by vm_compute|].
  unfold ref_fields. repeat apply Forall_cons_2; try apply Forall_nil_2; cbn [snd];
    apply field_inv; try done; intros v x r' _ Hx; by apply dec_num_range in Hx.
Qed.

Definition encode_lease (l : Lease) : option json :=
  Some (JObj [member "name" (enc_string (ls_Name l)); member "token" (enc_int (ls_Token l))]).
Definition lease_fields : list (string * setter Lease) :=
  [("name"%stdpp, field dec_string (fun x l => MkLease x (ls_Token l)));
   ("token"%stdpp, field dec_u64 (fun x l => MkLease (ls_Name l) x))].
Definition stored_lease (l : Lease) : Lease := MkLease (sanitize (ls_Name l)) (ls_Token l).

#[export, program] Instance lease_json : GoJSON Lease := {
  encode := encode_lease;
  decode := dec_struct lease_fields zero_lease;
  in_width l := in_u64 (ls_Token l);
  stored := stored_lease;
}.
Next Obligation. intros l j [= <-]. solve_json_ok. Qed.
Next Obligation.
  intros l j Hw [= <-]. unfold dec_struct. destruct l. cbn [ls_Name ls_Token] in *.
  repeat dec_step. done.
Qed.
Next Obligation.
  intros j l. apply dec_struct_inv; [by vm_compute|].
  unfold lease_fields. repeat apply Forall_cons_2; try apply Forall_nil_2; cbn [snd];
    apply field_inv; try done; intros v x r' _ Hx; by apply dec_num_range in Hx.
Qed.

(** ** Node IDs *)

Definition byte_string (n : nat) : string := String (Ascii.ascii_of_nat n) EmptyString.

(** each string after a tag byte *)
Fixpoint tagged (tag : nat) (l : list string) : string :=
  match l with
  | [] => EmptyString
  | s :: l' => byte_string tag +:+ s +:+ tagged tag l'
  end.

Definition canonical (n : Node) : string :=
  nd_Name n +:+ byte_string 0 +:+ byte_string (if nd_Leaf n then 1 else 0)
  +:+ tagged 2 (merge_sort String.le (nd_Blobs n))
  +:+ tagged 3 (merge_sort String.le (nd_Children n)).

Definition NodeID (n : Node) : string := sha256_hex (canonical n).

(** sorting does not depend on the order of the list *)
Lemma merge_sort_perm (l l' : list string) :
  l ≡ₚ l' -> merge_sort String.le l = merge_sort String.le l'.
Proof.
  intros Hp. apply (StronglySorted_unique String.le).
  - apply StronglySorted_merge_sort; apply _.
  - apply StronglySorted_merge_sort; apply _.
  - by rewrite !merge_sort_Permutation.
Qed.
Lemma merge_sort_idemp (l : list string) :
  merge_sort String.le (merge_sort String.le l) = merge_sort String.le l.
Proof. apply merge_sort_perm, merge_sort_Permutation. Qed.
