(* ===== verification/TreeIds.v ===== *)
(** * tree: node IDs

    The canonical encoding of a node does not depend on the order of its
    blobs and children, and determines the node when its name has no zero
    byte and its IDs have none of the tag bytes (as hexadecimal hashes). *)
From S2P Require Import Prelude GoBase Hash TreeData.

(** ** Encodings with separators *)

(** a list is determined by what follows it when the rest starts with an
    element it cannot contain *)
Lemma span_unique {A} (P : A -> Prop) (l1 l2 r1 r2 : list A) :
  Forall P l1 -> Forall P l2 ->
  (forall x r, r1 = x :: r -> ~ P x) -> (forall x r, r2 = x :: r -> ~ P x) ->
  l1 ++ r1 = l2 ++ r2 -> l1 = l2 /\ r1 = r2.
Proof.
  intros H1. revert l2. induction H1 as [|x l1 Hx H1 IH]; intros [|y l2] H2 Hr1 Hr2 E; cbn in E.
  - done.
  - apply Forall_cons in H2 as [Hy _]. by destruct (Hr1 y (l2 ++ r2) E).
  - by destruct (Hr2 x (l1 ++ r1) (eq_sym E)).
  - apply Forall_cons in H2 as [_ H2]. injection E as -> E. destruct (IH l2 H2 Hr1 Hr2 E) as [-> ->]. done.
Qed.

(** tagged strings, tag first *)
Definition flat (l : list (N * string)) : list N := concat ((fun p => p.1 :: codes p.2) <$> l).

Definition no_tag (c : N) : Prop := (3 < c)%N.
(** a string without tag bytes *)
Definition tagless (s : string) : Prop := Forall no_tag (codes s).

Lemma flat_head l x r : Forall (fun p => p.1 <= 3)%N l -> flat l = x :: r -> ~ no_tag x.
Proof.
  intros H E. destruct H as [|[t s] l Ht _]; [done|]. cbn in E. injection E as <- _.
  unfold no_tag. cbn in Ht. lia.
Qed.

Lemma flat_inj l l' :
  Forall (fun p => p.1 <= 3)%N l -> Forall (fun p => p.1 <= 3)%N l' ->
  Forall (fun p => tagless p.2) l -> Forall (fun p => tagless p.2) l' -> flat l = flat l' -> l = l'.
Proof.
  intros H1. revert l'. induction H1 as [|[t s] l Ht H1 IH]; intros [|[t' s'] l'] H2 H3 H4 E; try done.
  apply Forall_cons in H2 as [_ H2]. apply Forall_cons in H3 as [Hs H3]. apply Forall_cons in H4 as [Hs' H4].
  change (t :: (codes s ++ flat l) = t' :: (codes s' ++ flat l')) in E. injection E as -> E.
  apply (span_unique no_tag) in E as [Es E]; [|done|done| |].
  - apply codes_inj in Es as ->. by rewrite (IH l' H2 H3 H4 E).
  - intros x r. by apply flat_head.
  - intros x r. by apply flat_head.
Qed.

Lemma codes_tagged t l : (t < 256)%nat -> codes (tagged t l) = flat (pair (N.of_nat t) <$> l).
Proof.
  intros Ht. induction l as [|s l IH]; [done|]. cbn [tagged fmap list_fmap]. rewrite !codes_app, IH.
  unfold byte_string. change (codes (String ?a EmptyString)) with [Ascii.N_of_ascii a].
  unfold Ascii.ascii_of_nat. by rewrite Ascii.N_ascii_embedding by lia.
Qed.

(** ** The canonical encoding *)

Definition leaf_code (b : bool) : N := if b then 1%N else 0%N.
(** the tagged IDs of a node, as they are hashed *)
Definition tags (n : Node) : list (N * string) :=
  (pair 2%N <$> merge_sort String.le (nd_Blobs n)) ++ (pair 3%N <$> merge_sort String.le (nd_Children n)).

Lemma codes_canonical n :
  codes (canonical n) = codes (nd_Name n) ++ 0%N :: leaf_code (nd_Leaf n) :: flat (tags n).
Proof.
  unfold canonical. rewrite !codes_app, !codes_tagged by lia. f_equal.
  unfold byte_string. change (codes (String ?a EmptyString)) with [Ascii.N_of_ascii a]. cbn [app].
  unfold tags, flat. rewrite fmap_app, concat_app. by destruct (nd_Leaf n).
Qed.

(** the nodes whose encoding is unambiguous *)
Definition well_formed (n : Node) : Prop :=
  Forall (fun c => c <> 0%N) (codes (nd_Name n)) /\ Forall tagless (nd_Blobs n) /\ Forall tagless (nd_Children n).

(** the same node up to the order of its IDs *)
Definition same_node (n n' : Node) : Prop :=
  nd_Name n = nd_Name n' /\ nd_Leaf n = nd_Leaf n' /\
  nd_Blobs n ≡ₚ nd_Blobs n' /\ nd_Children n ≡ₚ nd_Children n'.

Lemma canonical_same n n' : same_node n n' -> canonical n = canonical n'.
Proof.
  intros (H1 & H2 & H3 & H4). unfold canonical.
  by rewrite H1, H2, (merge_sort_perm _ _ H3), (merge_sort_perm _ _ H4).
Qed.

Lemma tags_ok n : well_formed n -> Forall (fun p => p.1 <= 3)%N (tags n) /\ Forall (fun p => tagless p.2) (tags n).
Proof.
  intros (_ & Hb & Hc). unfold tags. rewrite !Forall_app, !Forall_fmap. split_and!;
    try (apply Forall_true; intros x; cbn; lia).
  - change (Forall tagless (merge_sort String.le (nd_Blobs n))). by rewrite merge_sort_Permutation.
  - change (Forall tagless (merge_sort String.le (nd_Children n))). by rewrite merge_sort_Permutation.
Qed.

Lemma pairs_split (t t' : N) (a b a' b' : list string) : t <> t' ->
  (pair t <$> a) ++ (pair t' <$> b) = (pair t <$> a') ++ (pair t' <$> b') -> a = a' /\ b = b'.
Proof.
  intros Hne E. apply (span_unique (fun p : N * string => p.1 = t)) in E as [E1 E2].
  - split; [by eapply (inj (fmap (pair t)))|by eapply (inj (fmap (pair t')))].
  - apply Forall_fmap, Forall_true. done.
  - apply Forall_fmap, Forall_true. done.
  - intros x r Hx. destruct b; [done|]. injection Hx as <- _. cbn. congruence.
  - intros x r Hx. destruct b'; [done|]. injection Hx as <- _. cbn. congruence.
Qed.

Lemma canonical_inj n n' : well_formed n -> well_formed n' -> canonical n = canonical n' -> same_node n n'.
Proof.
  intros Hn Hn' E%(f_equal codes). rewrite !codes_canonical in E.
  destruct (tags_ok n Hn) as [Ht Hg], (tags_ok n' Hn') as [Ht' Hg'].
  apply (span_unique (fun c => c <> 0%N)) in E as [En E]; [|apply Hn|apply Hn'|by intros x r [= <- _] []|by intros x r [= <- _] []].
  injection E as El Ef. apply flat_inj, pairs_split in Ef as [Eb Ec]; [|done..].
  split_and!.
  - by apply codes_inj.
  - by destruct (nd_Leaf n), (nd_Leaf n').
  - by rewrite <- (merge_sort_Permutation String.le (nd_Blobs n)), Eb, merge_sort_Permutation.
  - by rewrite <- (merge_sort_Permutation String.le (nd_Children n)), Ec, merge_sort_Permutation.
Qed.
