(* ===== verification/Tree.v ===== *)
(** * tree: the operations (tree/tree.go)

    Blobs with manifests, nodes, refs with compare-and-swap, leases with
    fencing tokens, and garbage collection. *)
From S2P Require Import Prelude GoBase Codec Hash Storage TreeData.
Local Open Scope Z_scope.

Definition transaction {V} (v : V) (f : fn V unit) : prog (V * result unit) :=
  retry_loop maxAttempts Storage.ErrConflict v f.

(** [randomHex(16)] of the drawn bytes *)
Definition randomHex (c : string) : string := hex_encode c.

(** what is under [key], with its errors: [missing] for a missing key, [bad]
    around a decoding error *)
Definition decoded `{GoJSON A} (missing : error) (bad : string) (r : result string) : result A :=
  match r with
  | Err e => if errors_is e Storage.ErrNotFound then Err missing else Err e
  | Ok raw => match Unmarshal raw with Some a => Ok a | None => Err (Wrap bad json_error) end
  end.

(** ** Blobs *)

Record PutOptions := MkPutOptions { po_Key : string; po_Size : Z }.

(** the callback that publishes the manifest; the captured variables are [m]
    and [duplicate] *)
Definition publish_fn (hash raw : string) : fn (Manifest * bool) unit :=
  '(m, _) ← captured;
  assign (m, false);;
  r ← tGet (manifestPrefix +:+ hash);
  match r with
  | Ok existing =>
      match Unmarshal existing with
      | None => raise (Wrap "tree: bad existing manifest: %w" json_error)
      | Some prior => assign (prior, true)
      end
  | Err e =>
      if errors_is e Storage.ErrNotFound then tPut (manifestPrefix +:+ hash) raw else raise e
  end.

(** [_ = t.eng.Blobs.Delete(ctx, key)] before returning [r] *)
Definition discard {A} (key : string) (r : A) : prog A := BlobDelete key (fun _ => mret r).

(** the part after the staged body has been stored and checked *)
Definition publish (m : Manifest) : prog (result Manifest) :=
  match Marshal m with
  | None => mret (Err json_error)
  | Some raw =>
      '((m', duplicate), r) ← transaction (m, false) (publish_fn (mf_Hash m) raw);
      match r with
      | Err e => discard (mf_ObjectKey m) (Err (Wrap "tree: publish manifest: %w" e))
      | Ok _ =>
          if duplicate && negb (bool_decide (mf_ObjectKey m' = mf_ObjectKey m))
          then discard (mf_ObjectKey m) (Ok m') else mret (Ok m')
      end
  end.

(** the manifest of a body staged under [key] *)
Definition new_manifest (opts : PutOptions) (hash : string) (size : Z) (key : string) : Manifest :=
  MkManifest (if bool_decide (po_Key opts = EmptyString) then hash else po_Key opts) hash size key.

Definition PutBlob (expectedHash : string) (r : reader) (opts : PutOptions) : prog (result Manifest) :=
  Rand 16 (fun r16 =>
    let stagingKey := blobPrefix +:+ "staging/" +:+ randomHex r16 in
    BlobPut stagingKey r (po_Size opts) (fun d put =>
      match put with
      | Err e => mret (Err (Wrap "tree: put blob: %w" e))
      | Ok _ =>
          let hash := sha256_hex d in
          if negb (bool_decide (expectedHash = EmptyString)) && negb (bool_decide (hash = expectedHash))
          then discard stagingKey (Err ErrHashMismatch)
          else if po_Size opts <? 0 then
            BlobStat stagingKey (fun st =>
              match st with
              | Err e => discard stagingKey (Err (Wrap "tree: stat staged blob: %w" e))
              | Ok info => publish (new_manifest opts hash (i64 (bi_size info)) stagingKey)
              end)
          else publish (new_manifest opts hash (po_Size opts) stagingKey)
      end)).

Definition StatBlob (hash : string) : prog (result Manifest) :=
  KvGet (manifestPrefix +:+ hash) (fun r => mret (decoded ErrNotFound "tree: bad manifest: %w" r)).

(** [verifyReader]: what reading it to the end yields *)
Definition verifyReader (rc : reader) (want : Z) (full : bool) (hash : string) : reader :=
  MkReader (rd_chunks rc)
    (match rd_err rc with
     | Some e => Some e
     | None =>
         if negb (i64 (Z.of_nat (String.length (rd_data rc))) =? want)
         then Some (Plain "tree: short read: got %d, want %d")
         else if full && negb (bool_decide (sha256_hex (rd_data rc) = hash))
         then Some ErrHashMismatch else None
     end).

Definition GetBlob (hash : string) (start end_ : Z) : prog (result reader) :=
  rm ← StatBlob hash;
  match rm with
  | Err e => mret (Err e)
  | Ok m =>
      let end_ := if (end_ <? 0) || (mf_Size m <? end_) then mf_Size m else end_ in
      if (start <? 0) || (end_ <? start) then mret (Err (Plain "tree: invalid range [%d, %d)"))
      else
        let objectKey := if bool_decide (mf_ObjectKey m = EmptyString) then blobPrefix +:+ hash
                         else mf_ObjectKey m in
        BlobOpenRange objectKey (Some (start, end_)) (fun r => mret (
          match r with
          | Err e => Err (Wrap "tree: open blob: %w" e)
          | Ok rc => Ok (verifyReader rc (end_ - start) ((start =? 0) && (end_ =? mf_Size m)) hash)
          end))
  end.

(** ** Nodes *)

(** [sort.Strings] on the two slices, which the caller's node shares *)
Definition sorted_node (n : Node) : Node :=
  MkNode (nd_Name n) (nd_Leaf n) (merge_sort String.le (nd_Blobs n)) (merge_sort String.le (nd_Children n)).

(** [PutNode]: the ID *)
Definition PutNode (n : Node) : prog (result string) :=
  let n := sorted_node n in
  match Marshal n with
  | None => mret (Err json_error)
  | Some raw =>
      if Z.shiftl 1 20 <? Z.of_nat (String.length raw)
      then mret (Err (Plain "tree: node metadata exceeds 1 MiB"))
      else
        let id := NodeID n in
        KvPut (nodePrefix +:+ id) raw (fun r => mret (
          match r with Err e => Err (Wrap "tree: put node: %w" e) | Ok _ => Ok id end))
  end.

Definition GetNode (id : string) : prog (result Node) :=
  KvGet (nodePrefix +:+ id) (fun r => mret (
    n ← decoded ErrNotFound "tree: bad node: %w" r;
    if bool_decide (NodeID n = id) then Ok n
    else Err (Plain "tree: node id mismatch: got %s, want %s"))).

(** ** Refs *)

Definition GetRef (name : string) : prog (result Ref) :=
  KvGet (refPrefix +:+ name) (fun r => mret (decoded ErrNotFound "tree: bad ref: %w" r)).

Section callbacks.
Context {V : Type}.

Definition checkFenceTx (name : string) (token : Z) : fn V unit :=
  r ← tGet (leasePrefix +:+ name);
  lease ← try (decoded ErrFenced "tree: bad lease: %w" r);
  if negb (ls_Token lease =? token) then raise ErrFenced else mret tt.

(** [json.Marshal(a)] and [tx.Put(key, ..)] *)
Definition putJSON `{GoJSON A} (key : string) (a : A) : fn V unit :=
  match Marshal a with Some buf => tPut key buf | None => raise json_error end.
End callbacks.

(** the body shared by [CompareAndSwapRef] and [CompareAndSwapRefFenced] *)
Definition swap_ref (name nodeID : string) (expectVersion : Z) : fn Ref unit :=
  rn ← tGet (nodePrefix +:+ nodeID);
  match rn with
  | Err e => if errors_is e Storage.ErrNotFound then raise ErrNotFound else raise e
  | Ok _ =>
      rr ← tGet (refPrefix +:+ name);
      r ← match rr with
          | Err e => if errors_is e Storage.ErrNotFound then mret (MkRef name EmptyString 0) else raise e
          | Ok raw => match Unmarshal raw with
                      | Some r => mret r
                      | None => raise (Wrap "tree: bad ref: %w" json_error)
                      end
          end;
      if negb (rf_Version r =? expectVersion) then raise ErrRefConflict
      else
        let r := MkRef (rf_Name r) nodeID (u64 (rf_Version r + 1)) in
        putJSON (refPrefix +:+ name) r;;
        assign r
  end.

Definition CompareAndSwapRef (name nodeID : string) (expectVersion : Z) : prog (result Ref) :=
  '(out, r) ← transaction zero_ref (swap_ref name nodeID expectVersion);
  mret (match r with Err e => Err e | Ok _ => Ok out end).

(** returns [out] and the error *)
Definition CompareAndSwapRefFenced (leaseName : string) (token : Z) (name nodeID : string)
    (expectVersion : Z) : prog (Ref * result unit) :=
  transaction zero_ref (checkFenceTx leaseName token;; swap_ref name nodeID expectVersion).

(** the body shared by [DeleteRef] and [DeleteRefFenced] *)
Definition delete_ref (name : string) (expectVersion : Z) : fn unit unit :=
  rr ← tGet (refPrefix +:+ name);
  ref ← try (decoded ErrNotFound "tree: bad ref: %w" rr);
  if negb (rf_Version ref =? expectVersion) then raise ErrRefConflict
  else tDelete (refPrefix +:+ name).

Definition DeleteRef (name : string) (expectVersion : Z) : prog (result unit) :=
  '(_, r) ← transaction tt (delete_ref name expectVersion);
  mret r.

Definition DeleteRefFenced (leaseName : string) (token : Z) (name : string) (expectVersion : Z) :
    prog (result unit) :=
  '(_, r) ← transaction tt (checkFenceTx leaseName token;; delete_ref name expectVersion);
  mret r.

(** ** Leases *)

Definition acquire_fn (name : string) : fn Lease unit :=
  r ← tGet (leasePrefix +:+ name);
  l ← match r with
      | Err e => if errors_is e Storage.ErrNotFound then mret (MkLease name 0) else raise e
      | Ok raw => match Unmarshal raw with
                  | Some l => mret l
                  | None => raise (Wrap "tree: bad lease: %w" json_error)
                  end
      end;
  let l := MkLease (ls_Name l) (u64 (ls_Token l + 1)) in
  putJSON (leasePrefix +:+ name) l;;
  assign l.

Definition AcquireLease (name : string) : prog (result Lease) :=
  '(out, r) ← transaction zero_lease (acquire_fn name);
  mret (match r with Err e => Err e | Ok _ => Ok out end).

Definition CheckFence (name : string) (token : Z) : prog (result unit) :=
  KvGet (leasePrefix +:+ name) (fun r => mret (
    l ← decoded ErrNotFound "tree: bad lease: %w" r;
    if negb (ls_Token l =? token) then Err ErrFenced else Ok tt)).

Definition release_fn (lease : Lease) : fn unit unit :=
  checkFenceTx (ls_Name lease) (ls_Token lease);;
  tDelete (leasePrefix +:+ ls_Name lease).
Definition ReleaseLease (lease : Lease) : prog (result unit) :=
  '(_, r) ← transaction tt (release_fn lease);
  mret r.

(** ** Garbage collection *)

Record GCPlan := MkGCPlan { pl_Nodes : list string; pl_Blobs : list string; pl_ObjectKeys : gmap string string }.

(** the two sets of [PlanGC] *)
Record marks := MkMarks { reachableNodes : gset string; reachableBlobs : gset string }.
Definition mark (id : string) (n : Node) (s : marks) : marks :=
  MkMarks ({[id]} ∪ reachableNodes s) (list_to_set (nd_Blobs n) ∪ reachableBlobs s).

(** [for _, c := range l { if err := f(c); err != nil { return err } }];
    [None] when [f] runs out of fuel *)
Fixpoint each {S} (f : string -> S -> prog (option (S * result unit))) (l : list string) (s : S) :
    prog (option (S * result unit)) :=
  match l with
  | [] => mret (Some (s, Ok tt))
  | c :: l' =>
      r ← f c s;
      match r with
      | Some (s', Ok _) => each f l' s'
      | _ => mret r
      end
  end.

(** the recursive closure [walk], to a depth of [fuel] *)
Fixpoint walk (fuel : nat) (id : string) (s : marks) : prog (option (marks * result unit)) :=
  match fuel with
  | O => mret None
  | S fuel' =>
      if bool_decide (id ∈ reachableNodes s) then mret (Some (s, Ok tt)) else
      r ← GetNode id;
      match r with
      | Err e => mret (Some (s, Err e))
      | Ok n => each (walk fuel') (nd_Children n) (mark id n s)
      end
  end.

(** the loop over the refs *)
Fixpoint walk_refs (fuel : nat) (refs : list Entry) (s : marks) : prog (option (marks * result unit)) :=
  match refs with
  | [] => mret (Some (s, Ok tt))
  | e :: refs' =>
      match Unmarshal (en_value e) with
      | None => mret (Some (s, Err (Wrap "tree: bad ref: %w" json_error)))
      | Some (MkRef _ nodeID _) =>
          if bool_decide (nodeID = EmptyString) then walk_refs fuel refs' s else
          r ← walk fuel nodeID s;
          match r with
          | Some (s', Ok _) => walk_refs fuel refs' s'
          | _ => mret r
          end
      end
  end.

(** the entries below [prefix] whose rest of the key is not in [seen] *)
Definition unmarked (prefix : string) (seen : gset string) (es : list Entry) : list Entry :=
  filter (fun e => str_drop (String.length prefix) (en_key e) ∉ seen) es.
Definition rest (prefix : string) (e : Entry) : string := str_drop (String.length prefix) (en_key e).

(** the body keys of the unreachable manifests *)
Fixpoint object_keys (es : list Entry) (keys : gmap string string) : result (gmap string string) :=
  match es with
  | [] => Ok keys
  | e :: es' =>
      match Unmarshal (en_value e) with
      | None => Err (Wrap "tree: bad manifest: %w" json_error)
      | Some (MkManifest _ _ _ key) =>
          object_keys es' (if bool_decide (key = EmptyString) then keys
                           else <[rest manifestPrefix e := key]> keys)
      end
  end.

(** [None] when [walk] ran out of fuel *)
Definition PlanGC (fuel : nat) : prog (option (result GCPlan)) :=
  KvScan (prefix_scan refPrefix) (fun refs =>
    match refs with
    | Err e => mret (Some (Err e))
    | Ok refs =>
        w ← walk_refs fuel refs (MkMarks ∅ ∅);
        match w with
        | None => mret None
        | Some (_, Err e) => mret (Some (Err e))
        | Some (s, Ok _) =>
            KvScan (prefix_scan nodePrefix) (fun nodes =>
              match nodes with
              | Err e => mret (Some (Err e))
              | Ok nodes =>
                  KvScan (prefix_scan manifestPrefix) (fun manifests => mret (Some (
                    manifests ← manifests;
                    let garbage := unmarked manifestPrefix (reachableBlobs s) manifests in
                    keys ← object_keys garbage ∅;
                    Ok (MkGCPlan
                      (merge_sort String.le (rest nodePrefix <$> unmarked nodePrefix (reachableNodes s) nodes))
                      (merge_sort String.le (rest manifestPrefix <$> garbage)) keys))))
              end)
        end
    end).

Definition bodyObjectKey (hash : string) : prog string :=
  r ← StatBlob hash;
  mret (match r with
        | Ok m => if bool_decide (mf_ObjectKey m = EmptyString) then blobPrefix +:+ hash else mf_ObjectKey m
        | Err _ => blobPrefix +:+ hash
        end).

(** the body key of a planned blob *)
Definition planned_key (plan : GCPlan) (hash : string) : prog string :=
  let k := default EmptyString (pl_ObjectKeys plan !! hash) in
  if bool_decide (k = EmptyString) then bodyObjectKey hash else mret k.

Fixpoint body_keys (plan : GCPlan) (blobs : list string) (keys : gmap string string) :
    prog (gmap string string) :=
  match blobs with
  | [] => mret keys
  | hash :: blobs' => k ← planned_key plan hash; body_keys plan blobs' (<[hash := k]> keys)
  end.

(** [for _, k := range keys { if err := tx.Delete(prefix + k); ... }] *)
Fixpoint delete_all (prefix : string) (keys : list string) : fn unit unit :=
  match keys with
  | [] => mret tt
  | k :: keys' => tDelete (prefix +:+ k);; delete_all prefix keys'
  end.
Definition sweep_fn (leaseName : string) (token : Z) (plan : GCPlan) : fn unit unit :=
  checkFenceTx leaseName token;;
  delete_all nodePrefix (pl_Nodes plan);;
  delete_all manifestPrefix (pl_Blobs plan).

Fixpoint delete_bodies (blobs : list string) (keys : gmap string string) : prog (result unit) :=
  match blobs with
  | [] => mret (Ok tt)
  | hash :: blobs' =>
      BlobDelete (default EmptyString (keys !! hash)) (fun r =>
        match r with
        | Err e => mret (Err (Wrap "tree: sweep blob %s: %w" e))
        | Ok _ => delete_bodies blobs' keys
        end)
  end.

Definition SweepGCFenced (leaseName : string) (token : Z) (plan : GCPlan) : prog (result unit) :=
  keys ← body_keys plan (pl_Blobs plan) ∅;
  '(_, r) ← transaction tt (sweep_fn leaseName token plan);
  match r with
  | Err e => mret (Err e)
  | Ok _ => delete_bodies (pl_Blobs plan) keys
  end.

(** the two loops of [SweepGC] *)
Fixpoint sweep_blobs (plan : GCPlan) (blobs : list string) : prog (result unit) :=
  match blobs with
  | [] => mret (Ok tt)
  | h :: blobs' =>
      objectKey ← planned_key plan h;
      KvDelete (manifestPrefix +:+ h) (fun r =>
        match r with
        | Err e => mret (Err (Wrap "tree: sweep manifest %s: %w" e))
        | Ok _ => BlobDelete objectKey (fun r =>
            match r with
            | Err e => mret (Err (Wrap "tree: sweep blob %s: %w" e))
            | Ok _ => sweep_blobs plan blobs'
            end)
        end)
  end.
Fixpoint sweep_nodes (nodes : list string) (next : prog (result unit)) : prog (result unit) :=
  match nodes with
  | [] => next
  | id :: nodes' => KvDelete (nodePrefix +:+ id) (fun r =>
      match r with
      | Err e => mret (Err (Wrap "tree: sweep node %s: %w" e))
      | Ok _ => sweep_nodes nodes' next
      end)
  end.
Definition SweepGC (plan : GCPlan) : prog (result unit) :=
  sweep_nodes (pl_Nodes plan) (sweep_blobs plan (pl_Blobs plan)).
