(* ===== verification/TreeLogic.v ===== *)
(** * tree: refs, leases, nodes and manifests as key spaces

    The metadata of a tree as four key spaces, the invariant [tree_ok], the
    changes that the operations make to it ([tree_move]), and what each
    transaction callback of [Tree] does. *)
From S2P Require Import Prelude GoBase Utf8 Codec Hash Storage Logic.
From S2P Require Import Scan Cells TreeData Tree.
Local Open Scope Z_scope.

(** ** Key spaces *)

Definition ref_wf (name : string) (r : Ref) : Prop := rf_Name r = sanitize name /\ stored_ref r = r.
Definition lease_wf (name : string) (l : Lease) : Prop := ls_Name l = sanitize name.
(** a node lies under its own address *)
Definition node_wf (id : string) (n : Node) : Prop := NodeID n = id /\ stored_node n = n.
Definition manifest_wf (hash : string) (m : Manifest) : Prop := mf_Hash m = hash /\ stored_manifest m = m.

Lemma key_inj (p a b : string) : p +:+ a = p +:+ b -> a = b.
Proof. apply str_app_inj_l. Qed.

#[export] Instance ref_space : KeySpace unit Ref := {
  ks_prefix _ := refPrefix; ks_key _ := String.append refPrefix; ks_wf _ := ref_wf;
  ks_key_prefix _ := has_prefix_app refPrefix; ks_key_inj _ := key_inj refPrefix;
}.
#[export] Instance lease_space : KeySpace unit Lease := {
  ks_prefix _ := leasePrefix; ks_key _ := String.append leasePrefix; ks_wf _ := lease_wf;
  ks_key_prefix _ := has_prefix_app leasePrefix; ks_key_inj _ := key_inj leasePrefix;
}.
#[export] Instance node_space : KeySpace unit Node := {
  ks_prefix _ := nodePrefix; ks_key _ := String.append nodePrefix; ks_wf _ := node_wf;
  ks_key_prefix _ := has_prefix_app nodePrefix; ks_key_inj _ := key_inj nodePrefix;
}.
#[export] Instance manifest_space : KeySpace unit Manifest := {
  ks_prefix _ := manifestPrefix; ks_key _ := String.append manifestPrefix; ks_wf _ := manifest_wf;
  ks_key_prefix _ := has_prefix_app manifestPrefix; ks_key_inj _ := key_inj manifestPrefix;
}.

Definition ref_at (m : kvmap) (name : string) : option Ref := cell tt m name.
Definition lease_at (m : kvmap) (name : string) : option Lease := cell tt m name.
Definition node_at (m : kvmap) (id : string) : option Node := cell tt m id.
Definition manifest_at (m : kvmap) (hash : string) : option Manifest := cell tt m hash.

(** the version of a ref and the token of a lease, 0 when there is none *)
Definition version (m : kvmap) (name : string) : Z :=
  match ref_at m name with Some r => rf_Version r | None => 0 end.
Definition token (m : kvmap) (name : string) : Z :=
  match lease_at m name with Some l => ls_Token l | None => 0 end.

(** The metadata of a tree is well-formed. *)
Record tree_ok (m : kvmap) : Prop := {
  refs_ok : well (HK := ref_space) tt m;
  leases_ok : well (HK := lease_space) tt m;
  nodes_ok : well (HK := node_space) tt m;
  manifests_ok : well (HK := manifest_space) tt m;
}.

Definition is_ref (k : string) : Prop := has_prefix refPrefix k = true.
Definition is_lease (k : string) : Prop := has_prefix leasePrefix k = true.
Definition is_node (k : string) : Prop := has_prefix nodePrefix k = true.
Definition is_manifest (k : string) : Prop := has_prefix manifestPrefix k = true.

(** outside the keys that start with [p], nothing changes *)
Definition same_but (p : string) (m m' : kvmap) : Prop :=
  forall k, has_prefix p k = false -> m' !! k = m !! k.

(** The four prefixes start with different letters. *)
Definition apart (p q : string) : Prop := forall k, has_prefix q k = true -> has_prefix p k = false.
Lemma apart_dec p q :
  match p, q with String a _, String b _ => Ascii.eqb a b = false | _, _ => False end -> apart p q.
Proof.
  destruct p as [|a p], q as [|b q]; try done. intros H k [s ->]%has_prefix_spec.
  change (String b q +:+ s) with (String b (q +:+ s)). apply Ascii.eqb_neq in H.
  cbn [has_prefix]. by rewrite bool_decide_false.
Qed.

Lemma frame {A} `{GoJSON A} (HK : KeySpace unit A) p m m' :
  apart p (ks_prefix tt) -> same_but p m m' ->
  (well (HK := HK) tt m -> well (HK := HK) tt m') /\
  (forall id, cell (HK := HK) tt m' id = cell (HK := HK) tt m id).
Proof.
  intros Ha Hs. assert (Hk : forall k, has_prefix (ks_prefix tt) k = true -> m' !! k = m !! k) by auto.
  split; [|intros id; unfold cell; by rewrite Hk by apply ks_key_prefix].
  intros Hw. by apply (well_frame tt m m').
Qed.

(** ** Changes of the metadata *)

(** nodes and manifests only disappear *)
Definition swept (m m' : kvmap) : Prop :=
  forall k, m' !! k = m !! k \/ m' !! k = None /\ (is_node k \/ is_manifest k).

Inductive tree_move (m m' : kvmap) : Prop :=
| move_node n : sets (HK := node_space) tt (NodeID n) (Some n) m m' -> tree_move m m'
| move_manifest hash mf :
    manifest_at m hash = None -> sets (HK := manifest_space) tt hash (Some mf) m m' -> tree_move m m'
| move_ref name nodeID :
    is_Some (node_at m nodeID) ->
    sets (HK := ref_space) tt name
      (Some (MkRef (sanitize name) nodeID (u64 (version m name + 1)))) m m' -> tree_move m m'
| move_delete_ref name :
    is_Some (ref_at m name) -> sets (HK := ref_space) tt name None m m' -> tree_move m m'
| move_acquire name :
    sets (HK := lease_space) tt name (Some (MkLease (sanitize name) (u64 (token m name + 1)))) m m' ->
    tree_move m m'
| move_release name :
    is_Some (lease_at m name) -> sets (HK := lease_space) tt name None m m' -> tree_move m m'
| move_sweep : swept m m' -> tree_move m m'.

(** what a commit may do *)
Definition evolves (m m' : kvmap) : Prop := m' = m \/ tree_move m m'.

Section frames.
Context (m m' : kvmap).

Lemma sets_ref_frame name c :
  tree_ok m -> sets (HK := ref_space) tt name c m m' ->
  tree_ok m' /\ (forall l, lease_at m' l = lease_at m l) /\ (forall i, node_at m' i = node_at m i).
Proof.
  intros [? ? ? ?] (Hw & _ & _ & Hs).
  destruct (frame lease_space refPrefix m m' ltac:(by apply apart_dec) Hs) as [? ?].
  destruct (frame node_space refPrefix m m' ltac:(by apply apart_dec) Hs) as [? ?].
  destruct (frame manifest_space refPrefix m m' ltac:(by apply apart_dec) Hs) as [? ?].
  split; [constructor; auto|auto].
Qed.

Lemma sets_lease_frame name c :
  tree_ok m -> sets (HK := lease_space) tt name c m m' ->
  tree_ok m' /\ (forall l, ref_at m' l = ref_at m l) /\ (forall i, node_at m' i = node_at m i).
Proof.
  intros [? ? ? ?] (Hw & _ & _ & Hs).
  destruct (frame ref_space leasePrefix m m' ltac:(by apply apart_dec) Hs) as [? ?].
  destruct (frame node_space leasePrefix m m' ltac:(by apply apart_dec) Hs) as [? ?].
  destruct (frame manifest_space leasePrefix m m' ltac:(by apply apart_dec) Hs) as [? ?].
  split; [constructor; auto|auto].
Qed.

Lemma sets_node_frame id c :
  tree_ok m -> sets (HK := node_space) tt id c m m' ->
  tree_ok m' /\ (forall l, ref_at m' l = ref_at m l) /\ (forall l, lease_at m' l = lease_at m l).
Proof.
  intros [? ? ? ?] (Hw & _ & _ & Hs).
  destruct (frame ref_space nodePrefix m m' ltac:(by apply apart_dec) Hs) as [? ?].
  destruct (frame lease_space nodePrefix m m' ltac:(by apply apart_dec) Hs) as [? ?].
  destruct (frame manifest_space nodePrefix m m' ltac:(by apply apart_dec) Hs) as [? ?].
  split; [constructor; auto|auto].
Qed.

Lemma sets_manifest_frame hash c :
  tree_ok m -> sets (HK := manifest_space) tt hash c m m' ->
  tree_ok m' /\ (forall l, ref_at m' l = ref_at m l) /\ (forall l, lease_at m' l = lease_at m l).
Proof.
  intros [? ? ? ?] (Hw & _ & _ & Hs).
  destruct (frame ref_space manifestPrefix m m' ltac:(by apply apart_dec) Hs) as [? ?].
  destruct (frame lease_space manifestPrefix m m' ltac:(by apply apart_dec) Hs) as [? ?].
  destruct (frame node_space manifestPrefix m m' ltac:(by apply apart_dec) Hs) as [? ?].
  split; [constructor; auto|auto].
Qed.

Lemma swept_keep p : apart nodePrefix p -> apart manifestPrefix p -> swept m m' ->
  forall k, has_prefix p k = true -> m' !! k = m !! k.
Proof.
  intros Hn Hm Hs k Hk. destruct (Hs k) as [?|[_ [H|H]]]; [done| |];
    [pose proof (Hn k Hk) as E|pose proof (Hm k Hk) as E]; unfold is_node, is_manifest in *; congruence.
Qed.

Lemma swept_well {A} `{GoJSON A} (HK : KeySpace unit A) : swept m m' ->
  well (HK := HK) tt m -> well (HK := HK) tt m'.
Proof.
  intros Hs Hw k raw Hl Hp. apply Hw; [|done]. destruct (Hs k) as [<-|[E _]]; congruence.
Qed.

Lemma swept_frame :
  tree_ok m -> swept m m' ->
  tree_ok m' /\ (forall l, ref_at m' l = ref_at m l) /\ (forall l, lease_at m' l = lease_at m l).
Proof.
  intros [? ? ? ?] Hs. split; [constructor; eapply swept_well; eauto|].
  split; intros l; unfold ref_at, lease_at, cell; (erewrite swept_keep; [done|..|apply ks_key_prefix]);
    try apply Hs; by apply apart_dec.
Qed.
End frames.

(** *** Places

    All four key spaces at once: a place holds an item. *)

Inductive place := PRef (name : string) | PLease (name : string) | PNode (id : string) | PManifest (hash : string).
Inductive item := IRef (r : Ref) | ILease (l : Lease) | INode (n : Node) | IManifest (mf : Manifest).
#[export] Instance place_eq_dec : EqDecision place.
Proof. solve_decision. Defined.

Definition content (m : kvmap) (p : place) : option item :=
  match p with
  | PRef name => IRef <$> ref_at m name
  | PLease name => ILease <$> lease_at m name
  | PNode id => INode <$> node_at m id
  | PManifest hash => IManifest <$> manifest_at m hash
  end.

(** the other places are as they were *)
Definition only (p : place) (m m' : kvmap) : Prop := forall p', p' <> p -> content m' p' = content m p'.

Lemma only_place_refl p m : only p m m.
Proof. by intros p'. Qed.

Lemma other_spaces {A} `{GoJSON A} (HK : KeySpace unit A) id c m m' :
  sets (HK := HK) tt id c m m' ->
  (apart (ks_prefix (KeySpace := HK) tt) refPrefix -> forall n, ref_at m' n = ref_at m n) /\
  (apart (ks_prefix (KeySpace := HK) tt) leasePrefix -> forall n, lease_at m' n = lease_at m n) /\
  (apart (ks_prefix (KeySpace := HK) tt) nodePrefix -> forall n, node_at m' n = node_at m n) /\
  (apart (ks_prefix (KeySpace := HK) tt) manifestPrefix -> forall n, manifest_at m' n = manifest_at m n).
Proof.
  intros (_ & _ & _ & Hs). split_and!; intros Ha;
    [apply (frame ref_space _ m m' Ha Hs)|apply (frame lease_space _ m m' Ha Hs)
    |apply (frame node_space _ m m' Ha Hs)|apply (frame manifest_space _ m m' Ha Hs)].
Qed.

Ltac only_space :=
  let Hs := fresh in let Hr := fresh in let Hl := fresh in let Hn := fresh in let Hm := fresh in let p := fresh "p" in
  intros Hs; destruct (other_spaces _ _ _ _ _ Hs) as (Hr & Hl & Hn & Hm); destruct Hs as (_ & _ & Hs & _);
  intros [p|p|p|p] ?; cbn [content];
    solve [rewrite Hr by (by apply apart_dec); done | rewrite Hl by (by apply apart_dec); done
      | rewrite Hn by (by apply apart_dec); done | rewrite Hm by (by apply apart_dec); done
      | f_equal; apply Hs; congruence].

Lemma only_ref name c m m' : sets (HK := ref_space) tt name c m m' -> only (PRef name) m m'.
Proof. only_space. Qed.
Lemma only_lease name c m m' : sets (HK := lease_space) tt name c m m' -> only (PLease name) m m'.
Proof. only_space. Qed.
Lemma only_node id c m m' : sets (HK := node_space) tt id c m m' -> only (PNode id) m m'.
Proof. only_space. Qed.
Lemma only_manifest hash c m m' : sets (HK := manifest_space) tt hash c m m' -> only (PManifest hash) m m'.
Proof. only_space. Qed.
#[export] Hint Resolve only_place_refl only_ref only_lease only_node only_manifest : s3db.

(** the values read back from the store *)
Lemma stored_version m name : in_u64 (version m name).
Proof.
  unfold version. destruct (ref_at m name) as [r|] eqn:E; [|done].
  unfold ref_at, cell in E. apply bind_Some in E as (raw & _ & Hu). exact (Unmarshal_in_width raw r Hu).
Qed.
Lemma stored_token m name : in_u64 (token m name).
Proof.
  unfold token. destruct (lease_at m name) as [l|] eqn:E; [|done].
  unfold lease_at, cell in E. apply bind_Some in E as (raw & _ & Hu). exact (Unmarshal_in_width raw l Hu).
Qed.

Lemma NodeID_ascii n : ascii (NodeID n).
Proof. apply sha256_hex_ascii. Qed.
#[export] Hint Resolve NodeID_ascii : s3db.

(** ** Callbacks *)

(** What a callback does when it commits; one that fails changes nothing. *)
Definition commits {V} (m : kvmap) (P : V -> kvmap -> Prop) (v' : V) (r : result unit) (m' : kvmap) : Prop :=
  match r with
  | Err _ => True
  | Ok _ => tree_ok m' /\ evolves m m' /\ P v' m'
  end.

Section callbacks.
Context {V A : Type} `{GoJSON A} (HK : KeySpace unit A).

(** reading a record that must exist *)
Lemma attempt_decoded {B} missing bad id (k : A -> fn V B) (v : V) m
    (Q : V -> result B -> kvmap -> Prop) :
  well (HK := HK) tt m -> (forall e, Q v (Err e) m) ->
  (forall a, cell (HK := HK) tt m id = Some a -> ks_wf tt id a -> attempt (k a) v m Q) ->
  attempt (r ← tGet (ks_key tt id); a ← try (decoded missing bad r); k a) v m Q.
Proof.
  intros Hw He Hs. apply attempt_bind, (attempt_get (HK := HK) tt id); [done|..].
  - intros _. apply attempt_bind, He.
  - intros raw a Ha Hwf Hu. apply attempt_bind. cbn [decoded]. rewrite Hu. by apply Hs.
  - intros e _. apply attempt_bind. cbn [decoded].
    destruct (errors_is e Storage.ErrNotFound); apply He.
Qed.

(** reading a record that may be missing: [zero] stands for it *)
Lemma attempt_or_new {B} zero bad id (k : A -> fn V B) (v : V) m
    (Q : V -> result B -> kvmap -> Prop) :
  well (HK := HK) tt m -> (forall e, Q v (Err e) m) ->
  (cell (HK := HK) tt m id = None -> attempt (k zero) v m Q) ->
  (forall a, cell (HK := HK) tt m id = Some a -> ks_wf tt id a -> attempt (k a) v m Q) ->
  attempt (r ← tGet (ks_key tt id);
    a ← match r with
        | Err e => if errors_is e Storage.ErrNotFound then mret zero else raise e
        | Ok raw => match Unmarshal raw with Some a => mret a | None => raise (Wrap bad json_error) end
        end;
    k a) v m Q.
Proof.
  intros Hw He Hn Hs. apply attempt_bind, (attempt_get (HK := HK) tt id); [done|..].
  - intros Hc. apply attempt_bind. rewrite errors_is_refl. by apply Hn.
  - intros raw a Ha Hwf Hu. apply attempt_bind. rewrite Hu. by apply Hs.
  - intros e Hne. apply attempt_bind. unfold engine_error in Hne. rewrite Hne. apply He.
Qed.

Lemma attempt_putJSON id (a : A) (v : V) m (Q : V -> result unit -> kvmap -> Prop) :
  well (HK := HK) tt m -> in_width a -> ks_wf tt id (stored a) ->
  (forall e, Q v (Err e) m) ->
  (forall m', sets (HK := HK) tt id (Some (stored a)) m m' -> Q v (Ok tt) m') ->
  attempt (putJSON (ks_key tt id) a) v m Q.
Proof.
  intros Hw Ha Hwf He Hs. unfold putJSON. destruct (Marshal a) as [raw|] eqn:E; [|apply He].
  by apply (attempt_put (HK := HK) tt id a).
Qed.
End callbacks.

(** the fence: it passes exactly when the token is current *)
Lemma attempt_fence {V B} name t (k : unit -> fn V B) (v : V) m (Q : V -> result B -> kvmap -> Prop) :
  tree_ok m -> (forall e, Q v (Err e) m) ->
  (is_Some (lease_at m name) -> token m name = t -> attempt (k tt) v m Q) ->
  attempt (checkFenceTx name t ≫= k) v m Q.
Proof.
  intros [_ Hl _ _] He Hs. apply attempt_bind.
  apply (attempt_decoded lease_space ErrFenced "tree: bad lease: %w" name); [done|done|].
  intros l Hc _. destruct (Z.eqb_spec (ls_Token l) t) as [Et|]; cbn [negb]; [|apply He].
  apply Hs; [by exists l|]. unfold token. change (lease_at m name) with (cell (HK := lease_space) tt m name).
  by rewrite Hc.
Qed.

(** the compare-and-swap of a ref *)
Definition swapped (name nodeID : string) (expect : Z) (m : kvmap) (out : Ref) (m' : kvmap) : Prop :=
  is_Some (node_at m nodeID) /\ version m name = expect /\
  rf_NodeID out = nodeID /\ rf_Version out = u64 (expect + 1) /\
  ref_at m' name = Some (MkRef (sanitize name) nodeID (u64 (expect + 1))) /\ only (PRef name) m m'.

Lemma swap_commit name nodeID m m' :
  tree_ok m -> is_Some (node_at m nodeID) ->
  sets (HK := ref_space) tt name (Some (MkRef (sanitize name) nodeID (u64 (version m name + 1)))) m m' ->
  tree_ok m' /\ evolves m m'.
Proof.
  intros Hok Hn Hs. split; [exact (proj1 (sets_ref_frame m m' name _ Hok Hs))|].
  right. by eapply move_ref.
Qed.

Lemma attempt_swap_ref name nodeID expect v m :
  tree_ok m ->
  attempt (swap_ref name nodeID expect) v m (commits m (swapped name nodeID expect m)).
Proof.
  intros Hok. unfold swap_ref. apply attempt_bind.
  apply (attempt_get (HK := node_space) tt nodeID); [apply Hok|done| |].
  2: { intros e _. cbv beta iota. by destruct (errors_is e Storage.ErrNotFound). }
  intros _ n Hn [Hid _] _. cbv beta iota.
  assert (Hsome : is_Some (node_at m nodeID)) by (by exists n).
  assert (Hasc : sanitize nodeID = nodeID) by (rewrite <- Hid; auto with s3db).
  enough (Hw : forall r, (rf_Name r = name \/ rf_Name r = sanitize name) -> rf_Version r = version m name ->
    attempt (if negb (rf_Version r =? expect) then raise ErrRefConflict
      else let r := MkRef (rf_Name r) nodeID (u64 (rf_Version r + 1)) in
           putJSON (refPrefix +:+ name) r;; assign r) v m (commits m (swapped name nodeID expect m))).
  { apply (attempt_or_new ref_space (MkRef name EmptyString 0) "tree: bad ref: %w" name);
      [apply Hok|done|..].
    - intros Hc. apply Hw; [by left|]. unfold version. change (ref_at m name) with (cell (HK := ref_space) tt m name). by rewrite Hc.
    - intros r Hc [Hnm _]. apply Hw; [by right|]. unfold version. change (ref_at m name) with (cell (HK := ref_space) tt m name). by rewrite Hc. }
  intros r Hnm Hv. destruct (Z.eqb_spec (rf_Version r) expect) as [Hx|]; cbn [negb]; [|done].
  cbv zeta. apply attempt_bind.
  assert (Hst : stored (MkRef (rf_Name r) nodeID (u64 (rf_Version r + 1)))
                = MkRef (sanitize name) nodeID (u64 (version m name + 1))).
  { unfold stored, ref_json, stored_ref. cbn [rf_Name rf_NodeID rf_Version]. rewrite Hasc, Hv. f_equal.
    destruct Hnm as [->| ->]; [done|apply sanitize_idemp]. }
  apply (attempt_putJSON ref_space name); [apply Hok|apply u64_range| |done|].
  - rewrite Hst. split; [done|]. unfold stored_ref. cbn [rf_Name rf_NodeID rf_Version].
    by rewrite Hasc, sanitize_idemp.
  - intros m' Hs. rewrite Hst in Hs. destruct (swap_commit _ _ _ _ Hok Hsome Hs) as [? ?].
    split_and!; [done|done|]. assert (Ho := only_ref _ _ _ _ Hs).
    destruct Hs as (_ & Hc & _). rewrite Hv in Hx. rewrite Hx in Hc.
    split_and!; [done|done|done|cbn; by rewrite Hv, Hx|exact Hc|exact Ho].
Qed.

(** deleting a ref *)
Definition dropped (name : string) (expect : Z) (m m' : kvmap) : Prop :=
  is_Some (ref_at m name) /\ version m name = expect /\ ref_at m' name = None /\ only (PRef name) m m'.

Lemma attempt_delete_ref name expect v m :
  tree_ok m -> attempt (delete_ref name expect) v m (commits m (fun _ => dropped name expect m)).
Proof.
  intros Hok. apply (attempt_decoded ref_space ErrNotFound "tree: bad ref: %w" name); [apply Hok|done|].
  intros r Hc _. change (ref_at m name = Some r) in Hc.
  assert (Hv : version m name = rf_Version r) by (unfold version; by rewrite Hc).
  destruct (Z.eqb_spec (rf_Version r) expect) as [Hx|]; cbn [negb]; [|done].
  apply (attempt_del (HK := ref_space) tt name); [apply Hok|done|]. intros m' Hs.
  assert (Hsome : is_Some (ref_at m name)) by by exists r.
  split_and!; [exact (proj1 (sets_ref_frame m m' name _ Hok Hs))|right; by eapply move_delete_ref|].
  assert (Ho := only_ref _ _ _ _ Hs). destruct Hs as (_ & Hd & _). split_and!; [done|congruence|exact Hd|exact Ho].
Qed.

(** the next token *)
Definition acquired (name : string) (m : kvmap) (out : Lease) (m' : kvmap) : Prop :=
  ls_Token out = u64 (token m name + 1) /\
  lease_at m' name = Some (MkLease (sanitize name) (u64 (token m name + 1))) /\ only (PLease name) m m'.

Lemma attempt_acquire name v m :
  tree_ok m -> attempt (acquire_fn name) v m (commits m (acquired name m)).
Proof.
  intros Hok. unfold acquire_fn.
  enough (Hw : forall l, (ls_Name l = name \/ ls_Name l = sanitize name) -> ls_Token l = token m name ->
    attempt (let l := MkLease (ls_Name l) (u64 (ls_Token l + 1)) in
             putJSON (leasePrefix +:+ name) l;; assign l) v m (commits m (acquired name m))).
  { apply (attempt_or_new lease_space (MkLease name 0) "tree: bad lease: %w" name);
      [apply Hok|done|..].
    - intros Hc. apply Hw; [by left|]. unfold token.
      change (lease_at m name) with (cell (HK := lease_space) tt m name). by rewrite Hc.
    - intros l Hc Hnm. apply Hw; [by right|]. unfold token.
      change (lease_at m name) with (cell (HK := lease_space) tt m name). by rewrite Hc. }
  intros l Hnm Ht. cbv zeta. apply attempt_bind.
  assert (Hst : stored (MkLease (ls_Name l) (u64 (ls_Token l + 1)))
                = MkLease (sanitize name) (u64 (token m name + 1))).
  { unfold stored, lease_json, stored_lease. cbn [ls_Name ls_Token]. rewrite Ht. f_equal.
    destruct Hnm as [->| ->]; [done|apply sanitize_idemp]. }
  apply (attempt_putJSON lease_space name); [apply Hok|apply u64_range| |done|].
  - by rewrite Hst.
  - intros m' Hs. rewrite Hst in Hs.
    split_and!; [exact (proj1 (sets_lease_frame m m' name _ Hok Hs))|right; by eapply move_acquire|].
    assert (Ho := only_lease _ _ _ _ Hs). destruct Hs as (_ & Hc & _). split; [cbn; by rewrite Ht|by split].
Qed.

(** the lease is given back *)
Definition released (lease : Lease) (m m' : kvmap) : Prop :=
  is_Some (lease_at m (ls_Name lease)) /\ token m (ls_Name lease) = ls_Token lease /\
  lease_at m' (ls_Name lease) = None /\ only (PLease (ls_Name lease)) m m'.

Lemma attempt_release lease v m :
  tree_ok m -> attempt (release_fn lease) v m (commits m (fun _ => released lease m)).
Proof.
  intros Hok. apply attempt_fence; [done|done|]. intros Hsome Ht.
  apply (attempt_del (HK := lease_space) tt (ls_Name lease)); [apply Hok|done|]. intros m' Hs.
  assert (Ho := only_lease _ _ _ _ Hs).
  split; [exact (proj1 (sets_lease_frame m m' _ _ Hok Hs))|]. split; [right; by eapply move_release|].
  destruct Hs as (_ & Hd & _). by split_and!.
Qed.

(** ** Manifests *)

(** publishing the manifest [mf]: it is recorded unless there is one *)
Definition published (hash : string) (mf : Manifest) (m : kvmap) (out : Manifest * bool) (m' : kvmap) : Prop :=
  match manifest_at m hash with
  | Some prior => out = (prior, true) /\ m' = m
  | None => snd out = false /\ manifest_at m' hash = Some mf /\ only (PManifest hash) m m'
  end.

Lemma attempt_publish hash a raw v m :
  tree_ok m -> Marshal a = Some raw -> in_width a -> manifest_wf hash (stored a) ->
  attempt (publish_fn hash raw) v m (commits m (published hash (stored a) m)).
Proof.
  intros Hok Hm Hw Hwf. unfold publish_fn. destruct v as [m0 d0].
  apply attempt_bind. unfold attempt at 1, captured. cbn [tx_wp].
  apply attempt_bind. unfold attempt at 1, assign at 1. cbn [tx_wp].
  apply attempt_bind, (attempt_get (HK := manifest_space) tt hash); [apply Hok|..].
  - intros Hc. cbv beta iota. rewrite errors_is_refl. change (manifest_at m hash = None) in Hc.
    apply (attempt_put (HK := manifest_space) tt hash a); [apply Hok|done..|]. intros m' Hs.
    split_and!; [exact (proj1 (sets_manifest_frame m _ hash _ Hok Hs))|right; by eapply move_manifest|].
    unfold published. rewrite Hc. split; [done|]. split; [by destruct Hs as (_ & Hc' & _)|by eapply only_manifest].
  - intros ex b Hc _ Hu. cbv beta iota. rewrite Hu. change (manifest_at m hash = Some b) in Hc.
    split; [done|]. split; [by left|]. unfold published. by rewrite Hc.
  - intros e He. cbv beta iota. unfold engine_error in He. by rewrite He.
Qed.

(** ** Sweeps *)

Lemma swept_refl m : swept m m.
Proof. intros k. by left. Qed.
Lemma swept_trans m1 m2 m3 : swept m1 m2 -> swept m2 m3 -> swept m1 m3.
Proof.
  intros H1 H2 k. destruct (H2 k) as [->|?]; [apply H1|by right].
Qed.
Lemma swept_delete p k m :
  p = nodePrefix \/ p = manifestPrefix -> swept m (delete (p +:+ k) m).
Proof.
  intros Hp k'. destruct (decide (k' = p +:+ k)) as [->|Hne].
  - right. rewrite lookup_delete_eq. split; [done|].
    destruct Hp as [->| ->]; [left|right]; apply has_prefix_app.
  - left. by rewrite lookup_delete_ne.
Qed.

(** [m'] is [m] without the keys [p +:+ k] for [k] in [keys] *)
Definition without (p : string) (keys : list string) (m : kvmap) : kvmap :=
  foldl (fun m k => delete (p +:+ k) m) m keys.

Lemma without_lookup p keys m k :
  without p keys m !! k = if bool_decide (k ∈ (String.append p <$> keys)) then None else m !! k.
Proof.
  unfold without. revert m. induction keys as [|x keys IH]; intros m; cbn [foldl fmap list_fmap]; [by rewrite bool_decide_false by apply not_elem_of_nil|].
  rewrite IH. destruct (decide (k ∈ String.append p <$> keys)) as [Hin|Hin].
  - rewrite !bool_decide_true; [done|by right|done].
  - rewrite (bool_decide_false _ Hin). destruct (decide (k = p +:+ x)) as [->|Hne].
    + by rewrite lookup_delete_eq, bool_decide_true by left.
    + rewrite lookup_delete_ne, bool_decide_false by (done || by rewrite elem_of_cons; intros [?|?]).
      done.
Qed.

Lemma swept_without p keys m :
  p = nodePrefix \/ p = manifestPrefix -> swept m (without p keys m).
Proof.
  intros Hp. unfold without. revert m. induction keys as [|k keys IH]; intros m; cbn [foldl]; [apply swept_refl|].
  eapply swept_trans; [by apply (swept_delete p k)|apply IH].
Qed.

Lemma attempt_delete_all p keys v m :
  attempt (delete_all p keys) v m (fun _ r m' => match r with Ok _ => m' = without p keys m | Err _ => True end).
Proof.
  revert m. induction keys as [|k keys IH]; intros m; cbn [delete_all]; [done|].
  apply attempt_bind, attempt_tDelete; [apply IH|done].
Qed.

Lemma attempt_sweep_fn name t plan v m :
  tree_ok m -> attempt (sweep_fn name t plan) v m (commits m (fun _ m' =>
    is_Some (lease_at m name) /\ token m name = t /\
    m' = without manifestPrefix (pl_Blobs plan) (without nodePrefix (pl_Nodes plan) m))).
Proof.
  intros Hok. apply attempt_fence; [done|done|]. intros Hsome Ht.
  apply attempt_bind. eapply attempt_mono; [apply attempt_delete_all|].
  intros v1 [[]|e] m1 H1; [subst|done].
  eapply attempt_mono; [apply attempt_delete_all|]. intros v2 [[]|e] m2 H2; [subst|done].
  assert (Hs : swept m (without manifestPrefix (pl_Blobs plan) (without nodePrefix (pl_Nodes plan) m))).
  { eapply swept_trans; apply swept_without; auto. }
  split_and!; [exact (proj1 (swept_frame _ _ Hok Hs))|right; by apply move_sweep|done..].
Qed.
