(* ===== verification/TreeSafe.v ===== *)
(** * tree: whole operations under interference

    Each operation of [Tree] keeps the invariant of the metadata, changes it
    only by [tree_move]s, and returns a result that describes one of its
    accesses to the store. *)
From S2P Require Import Prelude GoBase Utf8 Codec Hash Storage Logic.
From S2P Require Import Scan Cells TreeData Tree TreeLogic.
Local Open Scope Z_scope.

Definition store_ok (st : store) : Prop := tree_ok (st_kv st).
Definition guar (st st' : store) : Prop := evolves (st_kv st) (st_kv st').

Lemma allowed_kv st st' : tree_ok (st_kv st') -> evolves (st_kv st) (st_kv st') -> allowed store_ok guar st st'.
Proof. intros ? ?. split; [done|by right]. Qed.
Lemma allowed_body m b b' : tree_ok m -> allowed store_ok guar (MkStore m b) (MkStore m b').
Proof. intros ?. apply allowed_kv; [done|by left]. Qed.
#[export] Hint Resolve allowed_body : s3db.

Lemma safe_tree_transaction {V} h0 (v : V) f (P : kvmap -> V -> kvmap -> Prop) Q :
  (forall v m, tree_ok m -> attempt f v m (commits m (P m))) ->
  (forall v' m m' b h, quiet h -> tree_ok m -> P m v' m' ->
     Q (v', Ok tt) (h0 ++ h ++ [(MkStore m b, MkStore m' b)])) ->
  (forall v e h, quiet h -> Q (v, Err e) (h0 ++ h)) ->
  safe store_ok guar h0 (transaction v f) Q.
Proof.
  intros Hf Hok Herr. apply (safe_retry _ _ _ _ _ _ _ (fun _ => True)); [done| | |].
  - intros v0 m b _ Hm. eapply attempt_mono; [by apply Hf|].
    intros v' [[]|e] m'; [|done]. intros (Hok' & Hev & HP). split; [done|]. split.
    + by apply allowed_kv.
    + intros h Hh. by apply Hok.
  - intros v0 m _. by apply attempt_true.
  - intros v0 e h _ Hh. by apply Herr.
Qed.

(** A result that describes the only commit of the operation, whose errors
    changed nothing. *)
Definition committed {A} (P : kvmap -> A -> kvmap -> Prop) (r : result A) (h : list access) : Prop :=
  match r with
  | Err _ => quiet h
  | Ok a => exists h0 m m' b, h = h0 ++ [(MkStore m b, MkStore m' b)] /\ quiet h0 /\ tree_ok m /\ P m a m'
  end.

Lemma safe_committed {V A} (v : V) f (P : kvmap -> V -> kvmap -> Prop) (k : V * result unit -> prog A)
    (Q : A -> list access -> Prop) :
  (forall v m, tree_ok m -> attempt f v m (commits m (P m))) ->
  (forall v' r h, committed P (_ ← r; Ok v') h -> safe store_ok guar h (k (v', r)) Q) ->
  safe store_ok guar [] (transaction v f ≫= k) Q.
Proof.
  intros Hf HQ. apply safe_bind. apply (safe_tree_transaction [] v f P); [done|..].
  - intros v' m m' b h Hh Hm HP. apply HQ. cbn. exists h, m, m', b. by split_and!.
  - intros v' e h Hh. apply HQ. exact Hh.
Qed.

(** ** Refs and leases *)

Lemma safe_CompareAndSwapRef name nodeID expect :
  safe store_ok guar [] (CompareAndSwapRef name nodeID expect) (committed (swapped name nodeID expect)).
Proof.
  apply (safe_committed _ _ (swapped name nodeID expect)).
  - intros v m. apply attempt_swap_ref.
  - by intros out [[]|e] h.
Qed.

(** the fence passed at the commit *)
Definition fenced (lease : string) (t : Z) {A} (P : kvmap -> A -> kvmap -> Prop) (m : kvmap) (a : A)
    (m' : kvmap) : Prop :=
  is_Some (lease_at m lease) /\ token m lease = t /\ P m a m'.

Lemma attempt_fenced {V} lease t (f : fn V unit) (P : kvmap -> V -> kvmap -> Prop) v m :
  tree_ok m -> attempt f v m (commits m (P m)) ->
  attempt (checkFenceTx lease t;; f) v m (commits m (fenced lease t P m)).
Proof.
  intros Hok Hf. apply attempt_fence; [done|done|]. intros Hl Ht.
  eapply attempt_mono; [exact Hf|]. intros v' [[]|e] m'; [|done]. intros (? & ? & ?). by split_and!.
Qed.

Lemma safe_CompareAndSwapRefFenced lease t name nodeID expect :
  safe store_ok guar [] (CompareAndSwapRefFenced lease t name nodeID expect) (fun ar h =>
    committed (fenced lease t (swapped name nodeID expect)) (r ← snd ar; Ok (fst ar)) h).
Proof.
  apply (safe_tree_transaction [] _ _ (fenced lease t (swapped name nodeID expect))).
  - intros v m Hm. apply attempt_fenced; [done|]. by apply attempt_swap_ref.
  - intros v' m m' b h Hh Hm HP. cbn. exists h, m, m', b. by split_and!.
  - intros v' e h Hh. exact Hh.
Qed.

Lemma safe_DeleteRef name expect :
  safe store_ok guar [] (DeleteRef name expect) (committed (fun m _ => dropped name expect m)).
Proof.
  apply (safe_committed _ _ (fun m _ => dropped name expect m)).
  - intros v m. apply attempt_delete_ref.
  - by intros [] [[]|e] h.
Qed.

Lemma safe_DeleteRefFenced lease t name expect :
  safe store_ok guar [] (DeleteRefFenced lease t name expect)
    (committed (fenced lease t (fun m _ => dropped name expect m))).
Proof.
  apply (safe_committed _ _ (fenced lease t (fun m _ => dropped name expect m))).
  - intros v m Hm. apply (attempt_fenced lease t _ (fun m _ => dropped name expect m)); [done|].
    by apply attempt_delete_ref.
  - by intros [] [[]|e] h.
Qed.

Lemma safe_AcquireLease name : safe store_ok guar [] (AcquireLease name) (committed (acquired name)).
Proof.
  apply (safe_committed _ _ (acquired name)).
  - intros v m. apply attempt_acquire.
  - by intros out [[]|e] h.
Qed.

Lemma safe_ReleaseLease lease :
  safe store_ok guar [] (ReleaseLease lease) (committed (fun m _ => released lease m)).
Proof.
  apply (safe_committed _ _ (fun m _ => released lease m)).
  - intros v m. apply attempt_release.
  - by intros [] [[]|e] h.
Qed.

(** ** Reads *)

(** a program that only reads the metadata, with what it returns *)
Lemma safe_read {A} key (c : result string -> A) :
  safe store_ok guar [] (KvGet key (fun r => mret (c r))) (fun a h => exists s r,
    h = [(s, s)] /\ store_ok s /\ get_resp (st_kv s) key r /\ a = c r).
Proof. intros s r Hs Hr. by exists s, r. Qed.

Definition readonly {A} (p : prog A) : Prop :=
  forall h, quiet h -> safe store_ok guar h p (fun _ h' => quiet h').

Lemma readonly_ret {A} (a : A) : readonly (Ret a).
Proof. by intros h. Qed.
Lemma readonly_bind {A B} (p : prog A) (f : A -> prog B) :
  readonly p -> (forall a, readonly (f a)) -> readonly (p ≫= f).
Proof.
  intros Hp Hf h Hh. apply safe_bind. eapply safe_mono; [by apply Hp|]. intros a h' Hh'. by apply Hf.
Qed.
Lemma readonly_get {A} k (c : result string -> prog A) : (forall r, readonly (c r)) -> readonly (KvGet k c).
Proof. intros Hc h Hh s r _ _. apply Hc. auto with s3db. Qed.
Lemma readonly_scan {A} o (c : result (list Entry) -> prog A) : (forall r, readonly (c r)) -> readonly (KvScan o c).
Proof. intros Hc h Hh s _. split; intros; apply Hc; auto with s3db. Qed.
Lemma readonly_open {A} k rg (c : result reader -> prog A) : (forall r, readonly (c r)) -> readonly (BlobOpenRange k rg c).
Proof. intros Hc h Hh s r _. apply Hc. auto with s3db. Qed.

Create HintDb readonly.
#[export] Hint Resolve readonly_ret readonly_bind readonly_get readonly_scan readonly_open : readonly.

Lemma readonly_StatBlob hash : readonly (StatBlob hash).
Proof. unfold StatBlob. apply readonly_get. intros r. apply readonly_ret. Qed.
Lemma readonly_GetNode id : readonly (GetNode id).
Proof. unfold GetNode. apply readonly_get. intros r. apply readonly_ret. Qed.
Lemma readonly_GetRef name : readonly (GetRef name).
Proof. unfold GetRef. apply readonly_get. intros r. apply readonly_ret. Qed.
Lemma readonly_CheckFence name t : readonly (CheckFence name t).
Proof. unfold CheckFence. apply readonly_get. intros r. apply readonly_ret. Qed.

Lemma readonly_GetBlob hash a b : readonly (GetBlob hash a b).
Proof.
  apply readonly_bind; [apply readonly_StatBlob|]. intros [m|e]; [|apply readonly_ret].
  cbv zeta. generalize (if (b <? 0) || (mf_Size m <? b) then mf_Size m else b). intros e.
  destruct ((a <? 0) || (e <? a)); [apply readonly_ret|]. apply readonly_open. intros r. apply readonly_ret.
Qed.

Lemma readonly_each {S} (f : string -> S -> prog (option (S * result unit))) l s :
  (forall c s, readonly (f c s)) -> readonly (each f l s).
Proof.
  intros Hf. revert s. induction l as [|c l IH]; intros s; cbn [each]; [apply readonly_ret|].
  apply readonly_bind; [apply Hf|]. intros [[s' [[]|e]]|]; auto with readonly; apply readonly_ret.
Qed.

Lemma readonly_walk fuel id s : readonly (walk fuel id s).
Proof.
  revert id s. induction fuel as [|fuel IH]; intros id s; cbn [walk]; [apply readonly_ret|].
  case_bool_decide; [apply readonly_ret|]. apply readonly_bind; [apply readonly_GetNode|].
  intros [n|e]; [|apply readonly_ret]. by apply readonly_each.
Qed.

Lemma readonly_walk_refs fuel refs s : readonly (walk_refs fuel refs s).
Proof.
  revert s. induction refs as [|e refs IH]; intros s; cbn [walk_refs]; [apply readonly_ret|].
  destruct (Unmarshal (en_value e)) as [[? nodeID ?]|]; [|apply readonly_ret].
  case_bool_decide; [apply IH|]. apply readonly_bind; [apply readonly_walk|].
  intros [[s' [[]|er]]|]; [apply IH|apply readonly_ret..].
Qed.

Lemma readonly_PlanGC fuel : readonly (PlanGC fuel).
Proof.
  apply readonly_scan. intros [refs|e]; [|apply readonly_ret].
  apply readonly_bind; [apply readonly_walk_refs|]. intros [[s [[]|e]]|]; [|apply readonly_ret..].
  apply readonly_scan. intros [nodes|e]; [|apply readonly_ret].
  apply readonly_scan. intros r. apply readonly_ret.
Qed.

Lemma readonly_bodyObjectKey hash : readonly (bodyObjectKey hash).
Proof. apply readonly_bind; [apply readonly_StatBlob|]. intros r. apply readonly_ret. Qed.
Lemma readonly_planned_key plan hash : readonly (planned_key plan hash).
Proof. unfold planned_key. cbv zeta. case_bool_decide; [apply readonly_bodyObjectKey|apply readonly_ret]. Qed.
Lemma readonly_body_keys plan blobs keys : readonly (body_keys plan blobs keys).
Proof.
  revert keys. induction blobs as [|h blobs IH]; intros keys; cbn [body_keys]; [apply readonly_ret|].
  apply readonly_bind; [apply readonly_planned_key|]. intros k. apply IH.
Qed.

Lemma readonly_safe {A} (p : prog A) h :
  readonly p -> safe store_ok guar h p (fun _ h' => exists q, h' = h ++ q /\ quiet q).
Proof.
  intros Hp. eapply safe_mono; [eapply (safe_later _ _ h []); [by rewrite app_nil_r|]|].
  - apply Hp. constructor.
  - intros a h' (q & -> & Hq). eauto.
Qed.

(** ** Nodes *)

(** the strings of a node are valid UTF-8 *)
Definition node_valid (n : Node) : Prop := stored_node n = n.

Lemma map_sanitize_sorted l : sanitize <$> l = l -> sanitize <$> merge_sort String.le l = merge_sort String.le l.
Proof.
  intros H. assert (Hf : Forall (fun s => sanitize s = s) l).
  { revert H. induction l as [|x l IH]; intros H; [constructor|].
    cbn in H. injection H as H1 H2. constructor; auto. }
  rewrite <- (merge_sort_Permutation String.le l) in Hf.
  induction Hf as [|x l' Hx _ IH]; [done|]. cbn. f_equal; [done|]. exact IH.
Qed.

Lemma sorted_valid n : node_valid n -> node_valid (sorted_node n).
Proof.
  unfold node_valid. destruct n as [nm lf bs cs]. unfold stored_node, sorted_node.
  cbn [nd_Name nd_Leaf nd_Blobs nd_Children]. intros [= H1 H2 H3].
  by rewrite H1, !map_sanitize_sorted.
Qed.

Lemma safe_PutNode n :
  node_valid n ->
  safe store_ok guar [] (PutNode n) (fun r h =>
    match r with
    | Err _ => quiet h
    | Ok id => id = NodeID n /\ exists m m' b, h = [(MkStore m b, MkStore m' b)] /\
        node_at m' id = Some (sorted_node n) /\ only (PNode id) m m'
    end).
Proof.
  intros Hv%sorted_valid. unfold PutNode. cbv zeta.
  destruct (Marshal (sorted_node n)) as [raw|] eqn:Hm; [|constructor].
  destruct (Z.shiftl 1 20 <? Z.of_nat (String.length raw)); [constructor|].
  assert (Hid : NodeID (sorted_node n) = NodeID n).
  { unfold NodeID, canonical, sorted_node. cbn [nd_Name nd_Leaf nd_Blobs nd_Children].
    by rewrite !merge_sort_idemp. }
  intros m b ? Hok. unfold store_ok in Hok. cbn [st_kv] in Hok. split.
  - assert (Hs : sets (HK := node_space) tt (NodeID (sorted_node n)) (Some (sorted_node n)) m
        (<[nodePrefix +:+ NodeID (sorted_node n) := raw]> m)).
    { pose proof (sets_insert (HK := node_space) tt m (NodeID (sorted_node n)) (sorted_node n) raw) as Hs.
      change (stored (sorted_node n)) with (stored_node (sorted_node n)) in Hs. rewrite Hv in Hs.
      apply Hs; [apply Hok|done|done|done]. }
    split.
    + apply allowed_kv; [exact (proj1 (sets_node_frame _ _ _ _ Hok Hs))|right; by eapply move_node].
    + cbn. split; [exact Hid|]. eexists m, _, b. split; [done|].
      split; [by destruct Hs as (_ & Hc & _)|by eapply only_node].
  - intros e. apply quiet_snoc. constructor.
Qed.

(** ** Blobs *)

(** What [PutBlob] did when the content [d] was staged: the metadata changed
    in one commit at most, which recorded a manifest for the hash of [d]
    unless there was one. *)
Definition put_outcome (expected : string) (opts : PutOptions) (d : string) (r : result Manifest)
    (h : list access) : Prop :=
  match r with
  | Err _ => kv_quiet h
  | Ok mf =>
      (expected = EmptyString \/ expected = sha256_hex d) /\
      exists h0 s s' h1, h = h0 ++ (s, s') :: h1 /\ kv_quiet h0 /\ kv_quiet h1 /\ store_ok s /\
      match manifest_at (st_kv s) (sha256_hex d) with
      | Some prior => mf = prior /\ st_kv s' = st_kv s
      | None => only (PManifest (sha256_hex d)) (st_kv s) (st_kv s') /\
          exists size key, manifest_at (st_kv s') (sha256_hex d)
            = Some (stored (new_manifest opts (sha256_hex d) size key))
      end
  end.

Lemma safe_discard {A} h key (r : A) Q :
  (forall s s', st_kv s = st_kv s' -> Q r (h ++ [(s, s')])) -> safe store_ok guar h (discard key r) Q.
Proof.
  intros HQ m b ? Hok. split; [split; [by apply allowed_body|by apply HQ]|].
  intros e b' _. split; [by apply allowed_body|by apply HQ].
Qed.

Lemma safe_publish_manifest h opts d size key expected :
  in_i64 size -> ascii key -> kv_quiet h -> (expected = EmptyString \/ expected = sha256_hex d) ->
  safe store_ok guar h (publish (new_manifest opts (sha256_hex d) size key)) (put_outcome expected opts d).
Proof.
  intros Hsz Hkey Hh Hx. unfold publish. set (mf := new_manifest _ _ _ _).
  destruct (Marshal mf) as [raw|] eqn:Hm; [|exact Hh].
  assert (Hwf : manifest_wf (mf_Hash mf) (stored mf)).
  { change (stored mf) with (stored_manifest mf). unfold manifest_wf, stored_manifest.
    cbn [mf_Key mf_Hash mf_Size mf_ObjectKey]. rewrite !sanitize_idemp. split; [exact (ascii_sanitize _ (sha256_hex_ascii d))|reflexivity]. }
  apply safe_bind. apply (safe_tree_transaction h _ _ (published (mf_Hash mf) (stored mf))).
  - intros v m Hok. by apply attempt_publish.
  - intros [m' dup] m1 m2 b h1 Hq Hok HP. cbv beta iota. unfold published in HP. cbn [snd] in HP.
    change (mf_Hash mf) with (sha256_hex d) in HP.
    assert (Hout : forall h2, kv_quiet h2 -> put_outcome expected opts d (Ok m')
      (h ++ h1 ++ (MkStore m1 b, MkStore m2 b) :: h2)).
    { intros h2 Hh2. split; [done|]. eexists (h ++ h1), _, _, h2. rewrite <- app_assoc. split; [done|].
      split; [auto with s3db|]. split; [done|]. split; [done|]. cbn [st_kv].
      destruct (manifest_at m1 (sha256_hex d)) as [prior|]; [by destruct HP as [[= ? ?] ->]|].
      destruct HP as (_ & HP & Ho). split; [exact Ho|]. by exists size, key. }
    destruct (dup && negb _).
    + apply safe_discard. intros s s' Hs. rewrite <- !app_assoc. apply Hout. auto with s3db.
    + apply Hout. constructor.
  - intros [m' dup] e h1 Hq. cbv beta iota. apply safe_discard. intros s s' Hs. cbn. auto with s3db.
Qed.

Lemma safe_PutBlob expected r opts :
  in_i64 (po_Size opts) ->
  safe store_ok guar [] (PutBlob expected r opts) (put_outcome expected opts (rd_data r)).
Proof.
  intros Hsz s0 x Hs0 Hx. set (key := blobPrefix +:+ _). cbv zeta.
  assert (Hkey : ascii key) by (unfold key; apply ascii_app; [by apply ascii_check|]; apply ascii_app; [by apply ascii_check|apply hex_encode_ascii]).
  intros name m b ? ? Hok. split.
  - intros _ _. split; [by apply allowed_body|]. cbn [app]. set (h := [_; _]).
    assert (Hh : kv_quiet h) by by repeat constructor.
    destruct (negb (bool_decide (expected = EmptyString)) && negb (bool_decide (sha256_hex (rd_data r) = expected))) eqn:Hc.
    { apply safe_discard. intros s2 s3 Hs. cbn -[h]. auto with s3db. }
    assert (Hexp : expected = EmptyString \/ expected = sha256_hex (rd_data r)).
    { apply andb_false_iff in Hc as [Hc%negb_false_iff%bool_decide_eq_true|Hc%negb_false_iff%bool_decide_eq_true]; auto. }
    destruct (po_Size opts <? 0); [|by apply safe_publish_manifest].
    intros name1 s1 r1 _ Hs1 Hr1. assert (Hh1 : kv_quiet (h ++ [(s1, s1)])) by auto with s3db.
    destruct r1 as [info|e].
    + apply safe_publish_manifest; [apply i64_range|done..].
    + apply safe_discard. intros s2 s3 Hs. cbn -[h]. auto with s3db.
  - intros d e b' _. split; [by apply allowed_body|]. by repeat constructor.
Qed.

(** ** Sweeps *)

(** metadata changes happen only while [t] is the token of [lease] *)
Definition guarded (lease : string) (t : Z) (h : list access) : Prop :=
  Forall (fun a => st_kv (fst a) = st_kv (snd a) \/
    (is_Some (lease_at (st_kv (fst a)) lease) /\ token (st_kv (fst a)) lease = t)) h.

Lemma guarded_kv_quiet lease t h : kv_quiet h -> guarded lease t h.
Proof. intros H. eapply Forall_impl; [exact H|]. auto. Qed.
Lemma guarded_quiet lease t h : quiet h -> guarded lease t h.
Proof. intros H. apply guarded_kv_quiet. by apply quiet_kv_quiet. Qed.
Lemma guarded_app lease t h1 h2 : guarded lease t h1 -> guarded lease t h2 -> guarded lease t (h1 ++ h2).
Proof. apply Forall_app_2. Qed.

Lemma safe_delete_bodies h blobs keys (Q : result unit -> list access -> Prop) :
  (forall r h', kv_quiet h' -> Q r (h ++ h')) -> safe store_ok guar h (delete_bodies blobs keys) Q.
Proof.
  revert h. induction blobs as [|x blobs IH]; intros h HQ; cbn [delete_bodies].
  { specialize (HQ (Ok tt) []). rewrite app_nil_r in HQ. apply HQ. constructor. }
  intros name m b ? ? Hok. split.
  - split; [by apply allowed_body|]. apply IH. intros r h' Hh'. rewrite <- app_assoc. apply HQ.
    auto with s3db.
  - intros e b' _. split; [by apply allowed_body|]. apply HQ. auto with s3db.
Qed.

Definition sweep_done (plan : GCPlan) (m m' : kvmap) : Prop :=
  m' = without manifestPrefix (pl_Blobs plan) (without nodePrefix (pl_Nodes plan) m).

(** the one commit of a fenced sweep, after which only bodies are deleted *)
Definition sweeps_fenced (lease : string) (t : Z) (plan : GCPlan) (r : result unit) (h : list access) : Prop :=
  kv_quiet h /\ r <> Ok tt \/
  exists h0 m m' b h1, h = h0 ++ (MkStore m b, MkStore m' b) :: h1 /\ kv_quiet h0 /\ kv_quiet h1 /\
    is_Some (lease_at m lease) /\ token m lease = t /\ sweep_done plan m m'.

Lemma safe_SweepGCFenced lease t plan :
  safe store_ok guar [] (SweepGCFenced lease t plan) (sweeps_fenced lease t plan).
Proof.
  unfold SweepGCFenced. apply safe_bind. eapply safe_mono; [apply readonly_body_keys; constructor|].
  intros keys h Hh. cbv beta. apply safe_bind.
  apply (safe_tree_transaction h _ _ (fun m (_ : unit) m' => is_Some (lease_at m lease) /\ token m lease = t /\ sweep_done plan m m')).
  - intros v m Hok. by apply attempt_sweep_fn.
  - intros v' m m' b h1 Hq Hok (Hl & Ht & Hd). cbv beta iota.
    apply safe_delete_bodies. intros r h' Hh'. right.
    exists (h ++ h1), m, m', b, h'. split_and!; [by rewrite <- !app_assoc|auto with s3db|done..].
  - intros v e h1 Hq. left. split; [auto with s3db|done].
Qed.

Lemma sweeps_fenced_guarded lease t plan r h : sweeps_fenced lease t plan r h -> guarded lease t h.
Proof.
  intros [[Hq _]|(h0 & m & m' & b & h1 & -> & H0 & H1 & Hl & Ht & _)]; [by apply guarded_kv_quiet|].
  apply guarded_app; [by apply guarded_kv_quiet|]. constructor; [by right|by apply guarded_kv_quiet].
Qed.

(** what an unfenced sweep did: it removed some places, one by one *)
Inductive removes : list place -> list access -> Prop :=
| removes_none h : kv_quiet h -> removes [] h
| removes_one p ps h st st' h' :
    kv_quiet h -> content (st_kv st') p = None -> only p (st_kv st) (st_kv st') -> removes ps h' ->
    removes (p :: ps) (h ++ (st, st') :: h').

(** the places of a plan, in the order in which they are swept *)
Definition plan_places (plan : GCPlan) : list place := (PNode <$> pl_Nodes plan) ++ (PManifest <$> pl_Blobs plan).

(** all of [ps] when it succeeds, and else the first of them *)
Definition sweeps_all (ps : list place) (r : result unit) (h : list access) : Prop :=
  exists qs, removes qs h /\ qs `prefix_of` ps /\ (r = Ok tt -> qs = ps).

Lemma sweeps_all_stop ps r h : kv_quiet h -> (r = Ok tt -> ps = []) -> sweeps_all ps r h.
Proof.
  intros Hh Hr. exists []. split; [by constructor|]. split; [by apply prefix_nil|]. intros E. by rewrite Hr.
Qed.

Lemma sweeps_all_later ps r h h' : kv_quiet h -> sweeps_all ps r h' -> sweeps_all ps r (h ++ h').
Proof.
  intros Hh (qs & Hr & Hp). exists qs. split; [|exact Hp].
  destruct Hr as [h'|p qs h1 st st' h' H1]; [constructor; auto with s3db|].
  rewrite app_assoc. constructor; auto with s3db.
Qed.

Lemma sweeps_all_cons p ps r h st st' h' :
  kv_quiet h -> content (st_kv st') p = None -> only p (st_kv st) (st_kv st') ->
  sweeps_all ps r h' -> sweeps_all (p :: ps) r (h ++ (st, st') :: h').
Proof.
  intros Hh Hc Ho (qs & Hq & Hp & Hr). exists (p :: qs). split; [by constructor|].
  split; [by apply prefix_cons|]. intros E. by rewrite Hr.
Qed.

(** deleting one place; the continuation starts a history of its own *)
Lemma safe_remove {A} (k : string) p h h0 (c : result unit -> prog A) (Q : A -> list access -> Prop) :
  kv_quiet h0 ->
  (exists id, p = PNode id /\ k = nodePrefix +:+ id) \/ (exists id, p = PManifest id /\ k = manifestPrefix +:+ id) ->
  (forall st st', content (st_kv st') p = None -> only p (st_kv st) (st_kv st') ->
     safe store_ok guar ((h ++ h0) ++ [(st, st')]) (c (Ok tt)) Q) ->
  (forall e h1, kv_quiet h1 -> safe store_ok guar (h ++ h1) (c (Err e)) Q) ->
  safe store_ok guar (h ++ h0) (KvDelete k c) Q.
Proof.
  intros Hh0 Hp Hc He m b ? Hok. unfold store_ok in Hok. cbn [st_kv] in Hok. split.
  - assert (Hs : swept m (delete k m)) by (destruct Hp as [(id & -> & ->)|(id & -> & ->)]; apply swept_delete; auto).
    split; [apply allowed_kv; [exact (proj1 (swept_frame _ _ Hok Hs))|right; by apply move_sweep]|].
    destruct Hp as [(id & -> & ->)|(id & -> & ->)].
    + pose proof (sets_delete (HK := node_space) tt m id ltac:(by apply Hok)) as Hd.
      apply Hc; [|by eapply only_node]. destruct Hd as (_ & Hd & _).
      change (node_at (delete (nodePrefix +:+ id) m) id = None) in Hd. cbn [content st_kv snd]. by rewrite Hd.
    + pose proof (sets_delete (HK := manifest_space) tt m id ltac:(by apply Hok)) as Hd.
      apply Hc; [|by eapply only_manifest]. destruct Hd as (_ & Hd & _).
      change (manifest_at (delete (manifestPrefix +:+ id) m) id = None) in Hd. cbn [content st_kv snd]. by rewrite Hd.
  - intros e. rewrite <- app_assoc. apply He. auto with s3db.
Qed.

(** a history that goes on after [h] *)
Definition from (h : list access) {A} (Q : A -> list access -> Prop) (a : A) (h' : list access) : Prop :=
  exists h1, h' = h ++ h1 /\ Q a h1.

Lemma safe_from {A} h h1 (p : prog A) (Q : A -> list access -> Prop) (Q' : A -> list access -> Prop) :
  safe store_ok guar (h ++ h1) p (from (h ++ h1) Q) ->
  (forall a h2, Q a h2 -> Q' a (h1 ++ h2)) -> safe store_ok guar (h ++ h1) p (from h Q').
Proof.
  intros Hp HQ. eapply safe_mono; [exact Hp|]. intros a h' (h2 & -> & Ha). exists (h1 ++ h2).
  split; [by rewrite app_assoc|auto].
Qed.

Lemma safe_sweep_blobs h plan blobs :
  safe store_ok guar h (sweep_blobs plan blobs) (from h (sweeps_all (PManifest <$> blobs))).
Proof.
  revert h. induction blobs as [|x blobs IH]; intros h; cbn [sweep_blobs fmap list_fmap].
  { exists []. rewrite app_nil_r. split; [done|]. by apply sweeps_all_stop; [constructor|]. }
  apply safe_bind. eapply safe_mono; [by apply readonly_safe, readonly_planned_key|].
  intros key h' (h0 & -> & Hq). cbv beta.
  apply (safe_remove _ (PManifest x)); [auto with s3db|right; by exists x| |].
  - intros st st' Hc Ho. cbv beta iota. intros name m b ? Hok.
    assert (Hstop : forall e b', from h (sweeps_all (PManifest x :: (PManifest <$> blobs))) (Err e)
      (((h ++ h0) ++ [(st, st')]) ++ [(MkStore m b, MkStore m b')])).
    { intros e b'. exists (h0 ++ (st, st') :: [(MkStore m b, MkStore m b')]). split; [by rewrite <- !app_assoc|].
      apply sweeps_all_cons; [auto with s3db|done..|]. apply sweeps_all_stop; [by apply kv_quiet_one|done]. }
    split; [|intros e b' _; split; [by apply allowed_body|by apply Hstop]].
    split; [by apply allowed_body|]. rewrite <- !app_assoc. apply safe_from with (Q := sweeps_all (PManifest <$> blobs)); [apply IH|].
    intros r h2 Hr. rewrite <- !app_assoc. cbn [app].
    apply sweeps_all_cons; [auto with s3db|done..|].
    apply (sweeps_all_later _ _ [(MkStore m b, MkStore m (delete name b))]); [by apply kv_quiet_one|exact Hr].
  - intros e h1 Hh1. cbv beta iota. exists h1. split; [done|]. by apply sweeps_all_stop.
Qed.

Lemma safe_SweepGC plan : safe store_ok guar [] (SweepGC plan) (sweeps_all (plan_places plan)).
Proof.
  unfold SweepGC, plan_places.
  enough (Hall : forall ids h, safe store_ok guar h (sweep_nodes ids (sweep_blobs plan (pl_Blobs plan)))
    (from h (sweeps_all ((PNode <$> ids) ++ (PManifest <$> pl_Blobs plan))))).
  { eapply safe_mono; [apply Hall|]. by intros r h' (h1 & -> & H). }
  intros ids. induction ids as [|id ids IH]; intros h; cbn [sweep_nodes fmap list_fmap app]; [apply safe_sweep_blobs|].
  rewrite <- (app_nil_r h) at 1. apply (safe_remove _ (PNode id)); [constructor|left; by exists id| |].
  - intros st st' Hc Ho. cbv beta iota. rewrite <- app_assoc. cbn [app].
    apply safe_from with (Q := sweeps_all ((PNode <$> ids) ++ (PManifest <$> pl_Blobs plan))); [apply IH|].
    intros r h2 Hr. apply (sweeps_all_cons _ _ _ []); [constructor|done..].
  - intros e h1 Hh1. cbv beta iota. exists h1. split; [done|]. by apply sweeps_all_stop.
Qed.
