(* ===== verification/TreeGC.v ===== *)
(** * tree: garbage collection

    Reachability in the graph of nodes, and that the recursive [walk] of
    [PlanGC] marks exactly the reachable nodes and blobs, with the fuel that
    suffices. *)
From S2P Require Import Prelude GoBase Utf8 Codec Hash Storage Logic.
From S2P Require Import Scan Cells MemoryKV MemoryBlob Sequential.
From S2P Require Import TreeData Tree TreeLogic.

(** ** Reachability *)

Definition child (m : kvmap) (a b : string) : Prop :=
  exists n, node_at m a = Some n /\ b ∈ nd_Children n.
(** the targets of the refs *)
Definition root (m : kvmap) (id : string) : Prop :=
  id <> EmptyString /\ exists name r, ref_at m name = Some r /\ rf_NodeID r = id.
Definition reachable (m : kvmap) (id : string) : Prop := exists r, root m r /\ rtc (child m) r id.
(** the blobs of reachable nodes *)
Definition live (m : kvmap) (hash : string) : Prop :=
  exists id n, reachable m id /\ node_at m id = Some n /\ hash ∈ nd_Blobs n.
(** no reachable node is missing *)
Definition closed_graph (m : kvmap) : Prop := forall id, reachable m id -> is_Some (node_at m id).

(** ** The recursive walk *)

(** From the marks [s], a walk that starts at nodes satisfying [from] has come
    to [s']. *)
Definition explores (m : kvmap) (from : string -> Prop) (s s' : marks) : Prop :=
  reachableNodes s ⊆ reachableNodes s' /\
  (forall x, x ∈ reachableNodes s' -> x ∉ reachableNodes s ->
     (exists y, from y /\ rtc (child m) y x) /\
     exists n, node_at m x = Some n /\ forall c, c ∈ nd_Children n -> c ∈ reachableNodes s') /\
  (forall h, h ∈ reachableBlobs s' <-> h ∈ reachableBlobs s \/
     exists x n, x ∈ reachableNodes s' /\ x ∉ reachableNodes s /\ node_at m x = Some n /\ h ∈ nd_Blobs n).

Lemma explores_refl m from s : explores m from s s.
Proof. split; [done|]. split; [done|]. intros h. split; [by left|]. intros [?|(x & n & ? & ? & _)]; done. Qed.

Lemma explores_weaken m (from from' : string -> Prop) s s' :
  (forall y, from y -> from' y) -> explores m from s s' -> explores m from' s s'.
Proof.
  intros Hf (H1 & H2 & H3). split; [done|]. split; [|done]. intros x Hx Hn.
  destruct (H2 x Hx Hn) as [(y & ? & ?) ?]. eauto.
Qed.

Lemma explores_trans m from s1 s2 s3 :
  explores m from s1 s2 -> explores m from s2 s3 -> explores m from s1 s3.
Proof.
  intros (H1 & H2 & H3) (H1' & H2' & H3'). split; [by etrans|]. split.
  - intros x Hx Hn. destruct (decide (x ∈ reachableNodes s2)) as [Hm|Hm]; [|by apply H2'].
    destruct (H2 x Hm Hn) as [? (n & ? & Hc)]. split; [done|]. exists n. split; [done|]. auto.
  - intros h. rewrite H3', H3. split.
    + intros [[?|(x & n & ? & ? & ?)]|(x & n & Hx & Hn & ?)]; [by left|right; exists x, n; auto|].
      right. exists x, n. split; [done|]. split; [|done]. intros Hs. by apply Hn, H1.
    + intros [?|(x & n & Hx & Hn & ?)]; [auto|]. destruct (decide (x ∈ reachableNodes s2)); eauto 10.
Qed.

(** the nodes that are still to be marked *)
Definition remaining (m : kvmap) (s : marks) : nat :=
  size (dom m ∖ set_map (String.append nodePrefix) (reachableNodes s)).

Lemma remaining_mono m from s s' : explores m from s s' -> (remaining m s' <= remaining m s)%nat.
Proof. intros (H1 & _). apply subseteq_size. set_solver. Qed.

Lemma remaining_mark m id n s :
  is_Some (node_at m id) -> id ∉ reachableNodes s -> (remaining m (mark id n s) < remaining m s)%nat.
Proof.
  intros [n' Hn] Hs. apply subset_size. split.
  - cbn [reachableNodes mark]. set_solver.
  - intros Hsub. assert (Hk : nodePrefix +:+ id ∈ dom m).
    { unfold node_at, cell in Hn. apply bind_Some in Hn as (raw & Hl & _). apply elem_of_dom. by exists raw. }
    specialize (Hsub (nodePrefix +:+ id)). apply elem_of_difference in Hsub as [_ Hn'].
    + apply Hn'. apply elem_of_map. exists id. split; [done|]. cbn. set_solver.
    + apply elem_of_difference. split; [done|]. rewrite elem_of_map. intros (x & E & Hx).
      apply str_app_inj_l in E as ->. done.
Qed.

Lemma node_lookup m id : tree_ok m ->
  decoded ErrNotFound "tree: bad node: %w" (kv_lookup m (nodePrefix +:+ id))
  = match node_at m id with Some n => Ok n | None => Err ErrNotFound end.
Proof.
  intros Hok. unfold kv_lookup. destruct (node_at m id) as [n|] eqn:E.
  - unfold node_at, cell in E. apply bind_Some in E as (raw & Hl & Hu).
    change (ks_key tt id) with (nodePrefix +:+ id) in Hl. rewrite Hl. cbn [decoded]. by rewrite Hu.
  - apply (cell_none (HK := node_space)) in E; [|apply Hok].
    change (ks_key tt id) with (nodePrefix +:+ id) in E. by rewrite E.
Qed.

Lemma sees_GetNode m id : tree_ok m ->
  sees m (GetNode id) (match node_at m id with Some n => Ok n | None => Err ErrNotFound end).
Proof.
  intros Hok. apply sees_get. rewrite node_lookup by done. destruct (node_at m id) as [n|] eqn:E; [|apply sees_ret].
  destruct (cell_wf (HK := node_space) tt m id n (nodes_ok m Hok) E) as [Hid _].
  unfold mbind, result_bind. rewrite bool_decide_true by done. apply sees_ret.
Qed.

(** the outcome of a walk from the nodes [l] *)
Definition walked (m : kvmap) (from : string -> Prop) (l : list string) (s s' : marks) (r : result unit) : Prop :=
  match r with
  | Ok _ => explores m from s s' /\ forall c, c ∈ l -> c ∈ reachableNodes s'
  | Err _ => exists y x, from y /\ rtc (child m) y x /\ node_at m x = None
  end.

Lemma walk_each m fuel l s (from : string -> Prop) :
  (forall id s, (remaining m s < fuel)%nat -> exists s' r,
     sees m (walk fuel id s) (Some (s', r)) /\ walked m (eq id) [id] s s' r) ->
  (remaining m s < fuel)%nat -> (forall c, c ∈ l -> from c) ->
  exists s' r, sees m (each (walk fuel) l s) (Some (s', r)) /\ walked m from l s s' r.
Proof.
  intros Hf. revert s. induction l as [|c l IH]; intros s Hs Hl; cbn [each].
  { exists s, (Ok tt). split; [apply sees_ret|]. split; [apply explores_refl|]. by intros ? ?%not_elem_of_nil. }
  assert (Hc : from c) by (apply Hl; by left).
  destruct (Hf c s Hs) as (s1 & [[]|e] & Hw & Hp).
  - destruct Hp as [Hex Hin]. destruct (IH s1) as (s' & r & Hw' & Hp').
    { pose proof (remaining_mono _ _ _ _ Hex). lia. }
    { intros x Hx. apply Hl. by right. }
    exists s', r. split; [by eapply sees_bind|]. destruct r as [[]|e]; [|done].
    destruct Hp' as [Hex' Hin']. assert (Hex1 : explores m from s s1) by (eapply explores_weaken; [|exact Hex]; by intros ? <-).
    split; [by eapply explores_trans|]. intros x [->|Hx]%elem_of_cons; [|auto].
    apply (proj1 Hex'), Hin. by left.
  - exists s1, (Err e). split; [eapply sees_bind; [exact Hw|apply sees_ret]|].
    destruct Hp as (y & x & <- & ? & ?). by exists c, x.
Qed.

Lemma sees_walk m fuel id s :
  tree_ok m -> (remaining m s < fuel)%nat -> exists s' r,
    sees m (walk fuel id s) (Some (s', r)) /\ walked m (eq id) [id] s s' r.
Proof.
  intros Hok. revert id s. induction fuel as [|fuel IH]; intros id s Hs; [lia|]. cbn [walk].
  destruct (decide (id ∈ reachableNodes s)) as [Hin|Hin].
  { exists s, (Ok tt). rewrite bool_decide_true by done. split; [apply sees_ret|]. split; [apply explores_refl|].
    by intros c ->%list_elem_of_singleton. }
  rewrite bool_decide_false by done. pose proof (sees_GetNode m id Hok) as Hg.
  destruct (node_at m id) as [n|] eqn:Hn.
  2: { exists s, (Err ErrNotFound). split; [eapply sees_bind; [exact Hg|apply sees_ret]|]. by exists id, id. }
  pose proof (remaining_mark m id n s ltac:(by exists n) Hin) as Hr.
  destruct (walk_each m fuel (nd_Children n) (mark id n s) (fun c => c ∈ nd_Children n) IH) as (s' & r & Hw & Hp);
    [lia|done|].
  exists s', r. split; [by eapply sees_bind|].
  assert (Hstep : forall c x, c ∈ nd_Children n -> rtc (child m) c x -> rtc (child m) id x)
    by (intros c x Hc Hx; eapply rtc_l; [|exact Hx]; by exists n).
  destruct r as [[]|e]; [|destruct Hp as (y & x & ? & ? & ?); exists id, x; eauto].
  destruct Hp as [(H1 & H2 & H3) Hc]. cbn [reachableNodes reachableBlobs mark] in H1, H2, H3.
  assert (Hid : id ∈ reachableNodes s') by set_solver.
  split; [|by intros c ->%list_elem_of_singleton]. split; [set_solver|]. split.
  - intros x Hx Hxn. destruct (decide (x = id)) as [->|Hne]; [split; [by exists id|by exists n]|].
    destruct (H2 x Hx ltac:(set_solver)) as [(y & ? & ?) ?]. split; [|done]. exists id. eauto.
  - intros h. rewrite H3, elem_of_union, elem_of_list_to_set. split.
    + intros [[?|?]|(x & nx & ? & Hx & ? & ?)]; [right; by exists id, n|by left|].
      right. exists x, nx. split; [done|]. split; [set_solver|done].
    + intros [?|(x & nx & ? & Hx & Hnx & ?)]; [by left; right|].
      destruct (decide (x = id)) as [->|Hne]; [left; left; congruence|].
      right. exists x, nx. split; [done|]. split; [set_solver|done].
Qed.

(** ** The plan *)

(** an entry that holds a ref *)
Definition holds_ref (m : kvmap) (e : Entry) (r : Ref) : Prop :=
  Unmarshal (en_value e) = Some r /\ exists name, ref_at m name = Some r.
Definition target (e : Entry) (id : string) : Prop :=
  id <> EmptyString /\ exists r, Unmarshal (en_value e) = Some r /\ rf_NodeID r = id.

Lemma sees_walk_refs m fuel es s :
  tree_ok m -> (remaining m s < fuel)%nat -> Forall (fun e => exists r, holds_ref m e r) es ->
  exists s' r, sees m (walk_refs fuel es s) (Some (s', r)) /\
    match r with
    | Ok _ => explores m (root m) s s' /\
        forall e id, e ∈ es -> target e id -> id ∈ reachableNodes s'
    | Err _ => ~ closed_graph m
    end.
Proof.
  intros Hok. revert s. induction es as [|e es IH]; intros s Hs Hes; cbn [walk_refs].
  { exists s, (Ok tt). split; [apply sees_ret|]. split; [apply explores_refl|]. by intros e id ?%not_elem_of_nil. }
  apply Forall_cons in Hes as [(r & Hu & name & Hr) Hes]. rewrite Hu. destruct r as [rn rid rv].
  destruct (decide (rid = EmptyString)) as [->|Hne].
  { rewrite bool_decide_true by done. destruct (IH s Hs Hes) as (s' & r & Hw & Hp). exists s', r. split; [done|].
    destruct r as [[]|]; [|done]. destruct Hp as [Hex Hin]. split; [done|].
    intros e' id [->|He]%elem_of_cons; [|by apply Hin]. intros [Hid (r & Hu' & Hn)].
    rewrite Hu in Hu'. injection Hu' as <-. by subst. }
  rewrite bool_decide_false by done.
  assert (Hroot : root m rid) by (split; [done|]; by exists name, (MkRef rn rid rv)).
  destruct (sees_walk m fuel rid s Hok Hs) as (s1 & [[]|er] & Hw & Hp).
  - destruct Hp as [Hex Hin]. destruct (IH s1) as (s' & r & Hw' & Hp'); [|done|].
    { pose proof (remaining_mono _ _ _ _ Hex). lia. }
    exists s', r. split; [by eapply sees_bind|]. destruct r as [[]|]; [|done].
    destruct Hp' as [Hex' Hin']. assert (Hex1 : explores m (root m) s s1)
      by (eapply explores_weaken; [|exact Hex]; by intros ? <-).
    split; [by eapply explores_trans|]. intros e' id [->|He]%elem_of_cons; [|by apply Hin'].
    intros [Hid (r & Hu' & Hn)]. rewrite Hu in Hu'. injection Hu' as <-. cbn in Hn. subst.
    apply (proj1 Hex'), Hin. by left.
  - exists s1, (Err er). split; [eapply sees_bind; [exact Hw|apply sees_ret]|].
    destruct Hp as (y & x & <- & Hyx & Hx). intros Hc. destruct (Hc x) as [n Hn]; [by exists rid|congruence].
Qed.

Lemma ref_entries m : tree_ok m ->
  Forall (fun e => exists r, holds_ref m e r) (scanEntries m (prefix_scan refPrefix)) /\
  forall id, root m id -> exists e, e ∈ scanEntries m (prefix_scan refPrefix) /\ target e id.
Proof.
  intros Hok. split.
  - apply Forall_forall. intros e He.
    destruct (entry_cell (HK := ref_space) tt m e (refs_ok m Hok) He) as (name & r & _ & Hu & Hc & _).
    exists r. split; [done|]. by exists name.
  - intros id (Hne & name & r & Hr & Hn).
    destruct (cell_entry (HK := ref_space) tt m name r Hr) as (e & He & _ & Hu). exists e. split; [exact He|].
    split; [done|]. by exists r.
Qed.

(** the marks after all refs *)
Lemma explores_all m s : tree_ok m ->
  explores m (root m) (MkMarks ∅ ∅) s ->
  (forall id, root m id -> id ∈ reachableNodes s) ->
  closed_graph m /\ (forall id, id ∈ reachableNodes s <-> reachable m id) /\
  (forall h, h ∈ reachableBlobs s <-> live m h).
Proof.
  intros Hok (_ & H2 & H3) Hroots. cbn [reachableNodes reachableBlobs] in *.
  assert (Hin : forall id, id ∈ reachableNodes s <-> reachable m id).
  { intros id. split.
    - intros Hx. destruct (H2 id Hx) as [(y & ? & ?) _]; [set_solver|]. by exists y.
    - intros (r & Hr & Hp). apply Hroots in Hr. induction Hp as [x|x y z (n & Hn & Hc) _ IH]; [done|].
      apply IH. destruct (H2 x Hr) as [_ (n' & Hn' & Hcs)]; [set_solver|]. apply Hcs. congruence. }
  split_and!; [|exact Hin|].
  - intros id Hid%Hin. destruct (H2 id Hid) as [_ (n & Hn & _)]; [set_solver|]. by exists n.
  - intros h. rewrite H3. split.
    + intros [?|(x & n & Hx%Hin & _ & ? & ?)]; [set_solver|]. by exists x, n.
    + intros (x & n & Hx%Hin & ? & ?). right. exists x, n. set_solver.
Qed.

Lemma unmarked_elem p seen m e :
  e ∈ unmarked p seen (scanEntries m (prefix_scan p)) <->
  exists x, en_key e = p +:+ x /\ m !! (p +:+ x) = Some (en_value e) /\ x ∉ seen.
Proof.
  unfold unmarked. rewrite list_elem_of_filter, prefix_scan_elem. split.
  - intros (Hs & Hm & [x Hx]%has_prefix_spec). rewrite Hx in *. rewrite str_drop_app in Hs. eauto.
  - intros (x & Hx & Hm & Hs). rewrite Hx, str_drop_app. split_and!; [done..|]. apply has_prefix_app.
Qed.

Lemma plan_elem p seen m x :
  x ∈ merge_sort String.le (rest p <$> unmarked p seen (scanEntries m (prefix_scan p))) <->
  is_Some (m !! (p +:+ x)) /\ x ∉ seen.
Proof.
  rewrite merge_sort_Permutation, list_elem_of_fmap. split.
  - intros (e & -> & (y & Hk & Hm & Hs)%unmarked_elem). unfold rest. rewrite Hk, str_drop_app. eauto.
  - intros [[v Hv] Hs]. exists (MkEntry (p +:+ x) v). split; [unfold rest; cbn; by rewrite str_drop_app|].
    apply unmarked_elem. by exists x.
Qed.

(** the body key recorded in the manifest of [hash] *)
Definition object_key (m : kvmap) (hash key : string) : Prop :=
  key <> EmptyString /\ exists mf, manifest_at m hash = Some mf /\ mf_ObjectKey mf = key.

Lemma object_keys_spec m es keys :
  tree_ok m -> Forall (fun e => exists h, en_key e = manifestPrefix +:+ h /\ m !! en_key e = Some (en_value e)) es ->
  (forall h k, keys !! h = Some k -> object_key m h k) ->
  exists keys', object_keys es keys = Ok keys' /\
    (forall h k, keys' !! h = Some k -> object_key m h k) /\
    (forall h, is_Some (keys !! h) -> is_Some (keys' !! h)) /\
    (forall e h k, e ∈ es -> en_key e = manifestPrefix +:+ h -> object_key m h k -> is_Some (keys' !! h)).
Proof.
  intros Hok. revert keys. induction es as [|e es IH]; intros keys Hes Hk; cbn [object_keys].
  { exists keys. split_and!; try done. by intros ? ? ? ?%not_elem_of_nil. }
  apply Forall_cons in Hes as [(h & Hh & Hm) Hes].
  assert (Hw : exists mf, Unmarshal (en_value e) = Some mf /\ manifest_at m h = Some mf).
  { rewrite Hh in Hm. destruct (well_entry (HK := manifest_space) tt m h _ (manifests_ok m Hok) Hm)
      as (mf & _ & _ & _ & Hu & Hc). eauto. }
  destruct Hw as ([k1 h1 s1 key] & Hu & Hc). rewrite Hu.
  destruct (IH (if bool_decide (key = EmptyString) then keys else <[rest manifestPrefix e := key]> keys) Hes)
    as (keys' & Hr & H1 & H2 & H3).
  { intros h' k'. case_bool_decide; [apply Hk|]. unfold rest. rewrite Hh, str_drop_app.
    rewrite lookup_insert_Some. intros [[<- <-]|[_ ?]]; [|by apply Hk]. split; [done|]. by eexists. }
  exists keys'. split_and!; [done|done| |].
  - intros h' [v Hv]. apply H2. case_bool_decide; [by exists v|].
    destruct (decide (rest manifestPrefix e = h')) as [->|?]; [rewrite lookup_insert_eq; eauto|].
    rewrite lookup_insert_ne by done. by exists v.
  - intros e' h' k' [->|He]%elem_of_cons Hh' Ho; [|by eapply H3].
    rewrite Hh in Hh'. apply str_app_inj_l in Hh' as <-. apply H2.
    destruct Ho as [Hne (mf & Hmf & Hkey)]. rewrite Hc in Hmf. injection Hmf as <-. cbn in Hkey. subst.
    rewrite bool_decide_false by done. unfold rest. rewrite Hh, str_drop_app, lookup_insert_eq. eauto.
Qed.

(** The plan: exactly the garbage, with the body keys of its manifests. *)
Definition plan_exact (m : kvmap) (plan : GCPlan) : Prop :=
  (forall id, id ∈ pl_Nodes plan <-> is_Some (m !! (nodePrefix +:+ id)) /\ ~ reachable m id) /\
  (forall h, h ∈ pl_Blobs plan <-> is_Some (m !! (manifestPrefix +:+ h)) /\ ~ live m h) /\
  (forall h k, pl_ObjectKeys plan !! h = Some k -> object_key m h k) /\
  (forall h k, h ∈ pl_Blobs plan -> object_key m h k -> pl_ObjectKeys plan !! h = Some k) /\
  StronglySorted String.le (pl_Nodes plan) /\ StronglySorted String.le (pl_Blobs plan).

Lemma sees_PlanGC m fuel :
  tree_ok m -> (size m < fuel)%nat ->
  exists r, sees m (PlanGC fuel) (Some r) /\
    match r with Ok plan => closed_graph m /\ plan_exact m plan | Err _ => ~ closed_graph m end.
Proof.
  intros Hok Hf. destruct (ref_entries m Hok) as [Hes Hroots].
  assert (Hrem : (remaining m (MkMarks ∅ ∅) < fuel)%nat).
  { unfold remaining. cbn. eapply Nat.le_lt_trans; [|exact Hf]. rewrite <- (size_dom (D := gset string)). apply subseteq_size. set_solver. }
  destruct (sees_walk_refs m fuel _ (MkMarks ∅ ∅) Hok Hrem Hes) as (s & r & Hw & Hp).
  destruct r as [[]|er].
  2: { exists (Err er). split; [|exact Hp]. apply sees_scan. eapply sees_bind; [exact Hw|apply sees_ret]. }
  destruct Hp as [Hex Hin]. destruct (explores_all m s Hok Hex) as (Hcl & Hn & Hl).
  { intros id Hid. destruct (Hroots id Hid) as (e & He & Ht). by apply (Hin e). }
  set (garbage := unmarked manifestPrefix (reachableBlobs s) (scanEntries m (prefix_scan manifestPrefix))).
  destruct (object_keys_spec m garbage ∅ Hok) as (keys & Hkeys & H1 & _ & H3).
  { apply Forall_forall. intros e (x & Hk & Hm & _)%unmarked_elem. exists x. by rewrite Hk. }
  { intros h k Hk. by rewrite lookup_empty in Hk. }
  exists (Ok (MkGCPlan
    (merge_sort String.le (rest nodePrefix <$>
       unmarked nodePrefix (reachableNodes s) (scanEntries m (prefix_scan nodePrefix))))
    (merge_sort String.le (rest manifestPrefix <$> garbage)) keys)). split.
  { apply sees_scan. eapply sees_bind; [exact Hw|]. apply sees_scan, sees_scan. unfold mbind at 1, result_bind at 1.
    fold garbage. rewrite Hkeys. apply sees_ret. }
  split; [exact Hcl|]. unfold plan_exact. cbn [pl_Nodes pl_Blobs pl_ObjectKeys]. split_and!.
  - intros id. rewrite plan_elem, Hn. done.
  - intros h. unfold garbage. rewrite plan_elem, Hl. done.
  - exact H1.
  - intros h k Hh Ho. apply plan_elem in Hh as [[v Hv] Hs].
    destruct (H3 (MkEntry (manifestPrefix +:+ h) v) h k) as [k' Hk']; [|done|done|].
    { apply unmarked_elem. by exists h. }
    rewrite Hk'. f_equal. destruct (H1 _ _ Hk') as [_ (mf & ? & ?)], Ho as [_ (mf' & ? & ?)]. congruence.
  - apply StronglySorted_merge_sort; apply _.
  - apply StronglySorted_merge_sort; apply _.
Qed.
