(* ===== verification/TreeSeq.v ===== *)
(** * tree: sweeps and blobs alone on the in-memory engine

    The exact outcome of [SweepGC], [PutBlob] and [GetBlob] where the engine
    is open and the context is live. *)
From S2P Require Import Prelude GoBase Utf8 Codec Hash Storage Logic.
From S2P Require Import Scan Cells MemoryKV MemoryBlob Sequential.
From S2P Require Import TreeData Tree TreeLogic TreeSafe TreeGC.
Local Open Scope Z_scope.

(** where the body of a blob lies *)
Definition body_key (m : kvmap) (hash : string) : string :=
  match manifest_at m hash with
  | Some mf => if bool_decide (mf_ObjectKey mf = EmptyString) then blobPrefix +:+ hash else mf_ObjectKey mf
  | None => blobPrefix +:+ hash
  end.

Lemma sees_StatBlob m hash :
  exists r, sees m (StatBlob hash) r /\
    match manifest_at m hash with Some mf => r = Ok mf | None => exists e, r = Err e end.
Proof.
  eexists. split; [apply sees_get, sees_ret|]. unfold manifest_at, cell, kv_lookup.
  change (ks_key tt hash) with (manifestPrefix +:+ hash).
  destruct (m !! (manifestPrefix +:+ hash)) as [raw|]; cbn [decoded mbind option_bind].
  - destruct (Unmarshal raw); eauto.
  - destruct (errors_is _ _); eauto.
Qed.

Lemma sees_bodyObjectKey m hash : sees m (bodyObjectKey hash) (body_key m hash).
Proof.
  destruct (sees_StatBlob m hash) as (r & Hr & Hm). eapply sees_bind; [exact Hr|]. unfold body_key.
  destruct (manifest_at m hash) as [mf|]; [subst|destruct Hm as [e ->]]; apply sees_ret.
Qed.

(** ** Sweeping *)

Lemma run_sweep_nodes ids next m bm e :
  ctx_alive e -> exists e', ctx_alive e' /\
    run (sweep_nodes ids next) (open_kv m) (open_blobs bm) e
    = run next (open_kv (without nodePrefix ids m)) (open_blobs bm) e'.
Proof.
  revert m e. induction ids as [|id ids IH]; intros m e He; cbn [sweep_nodes]; [by exists e|].
  rewrite run_delete by done. apply IH. exact He.
Qed.

Definition delete_keys (keys : list string) (bm : gmap string memoryBlob) : gmap string memoryBlob :=
  foldl (fun bm k => delete k bm) bm keys.

Lemma delete_keys_lookup keys bm k :
  delete_keys keys bm !! k = if bool_decide (k ∈ keys) then None else bm !! k.
Proof.
  unfold delete_keys. revert bm. induction keys as [|x keys IH]; intros bm; cbn [foldl].
  - by rewrite bool_decide_false by apply not_elem_of_nil.
  - rewrite IH. destruct (decide (k ∈ keys)) as [Hin|Hin].
    + rewrite !bool_decide_true; [done|by right|done].
    + rewrite (bool_decide_false _ Hin). destruct (decide (k = x)) as [->|Hne].
      * by rewrite lookup_delete_eq, bool_decide_true by left.
      * rewrite lookup_delete_ne, bool_decide_false by (done || by rewrite elem_of_cons; intros [?|?]). done.
Qed.

Lemma manifest_without blobs m h :
  manifest_at (without manifestPrefix blobs m) h = if bool_decide (h ∈ blobs) then None else manifest_at m h.
Proof.
  unfold manifest_at, cell. rewrite without_lookup. change (ks_key tt h) with (manifestPrefix +:+ h).
  destruct (decide (h ∈ blobs)) as [Hin|Hin].
  - by rewrite !bool_decide_true by (done || by apply list_elem_of_fmap_2).
  - rewrite !bool_decide_false; [done|done|]. intros (x & E & ?)%list_elem_of_fmap.
    by apply str_app_inj_l in E as ->.
Qed.

(** deleting below another prefix *)
Lemma without_apart p q ids m k : apart p q -> without p ids m !! (q +:+ k) = m !! (q +:+ k).
Proof.
  intros Ha. rewrite without_lookup, bool_decide_false; [done|]. intros (x & E & _)%list_elem_of_fmap.
  pose proof (Ha (q +:+ k) (has_prefix_app q k)) as Hp. by rewrite E, has_prefix_app in Hp.
Qed.

Lemma node_without nodes blobs m id :
  node_at (without manifestPrefix blobs (without nodePrefix nodes m)) id
  = if bool_decide (id ∈ nodes) then None else node_at m id.
Proof.
  unfold node_at, cell. change (ks_key tt id) with (nodePrefix +:+ id).
  rewrite without_apart by by apply apart_dec. rewrite without_lookup.
  destruct (decide (id ∈ nodes)) as [Hin|Hin].
  - by rewrite !bool_decide_true by (done || by apply list_elem_of_fmap_2).
  - rewrite !bool_decide_false; [done|done|]. intros (x & E & ?)%list_elem_of_fmap.
    by apply str_app_inj_l in E as ->.
Qed.

(** the planned key is that of the manifest, also when it has been deleted *)
Lemma sees_planned_key m0 m plan h :
  plan_exact m0 plan -> h ∈ pl_Blobs plan ->
  manifest_at m h = manifest_at m0 h \/ manifest_at m h = None ->
  sees m (planned_key plan h) (body_key m0 h).
Proof.
  intros (_ & _ & H1 & H2 & _) Hh Hm. unfold planned_key. cbv zeta.
  destruct (pl_ObjectKeys plan !! h) as [k|] eqn:E; cbn [default from_option].
  - destruct (H1 _ _ E) as [Hne (mf & Hmf & Hk)]. rewrite bool_decide_false by done.
    unfold body_key. rewrite Hmf. rewrite bool_decide_false by congruence. rewrite Hk. apply sees_ret.
  - replace (body_key m0 h) with (body_key m h); [apply sees_bodyObjectKey|].
    unfold body_key. destruct Hm as [-> | ->]; [done|]. destruct (manifest_at m0 h) as [mf|] eqn:Hmf; [|done].
    case_bool_decide as Hk; [done|]. exfalso.
    assert (Ho : object_key m0 h (mf_ObjectKey mf)) by (split; [done|by exists mf]).
    specialize (H2 h _ Hh Ho). congruence.
Qed.

Lemma run_sweep_blobs m0 plan blobs m bm e :
  plan_exact m0 plan -> (forall h, h ∈ blobs -> h ∈ pl_Blobs plan) ->
  (forall h, manifest_at m h = manifest_at m0 h \/ manifest_at m h = None) -> ctx_alive e ->
  exists e', ctx_alive e' /\
    run (sweep_blobs plan blobs) (open_kv m) (open_blobs bm) e
    = (Ok tt, open_kv (without manifestPrefix blobs m),
       open_blobs (delete_keys (body_key m0 <$> blobs) bm), e').
Proof.
  intros Hp. revert m bm e. induction blobs as [|h blobs IH]; intros m bm e Hb Hm He; cbn [sweep_blobs].
  { by exists e. }
  destruct (sees_planned_key m0 m plan h Hp (Hb h ltac:(by left)) (Hm h) bm e He) as (e1 & He1 & Hr).
  rewrite run_bind, Hr, run_delete, run_blob_delete by done. apply IH; [intros; apply Hb; by right| |exact He1].
  intros h'. pose proof (manifest_without [h] m h') as Hw. cbn [without foldl] in Hw.
  change (without manifestPrefix [h] m) with (delete (manifestPrefix +:+ h) m) in Hw. rewrite Hw.
  case_bool_decide; [by right|apply Hm].
Qed.

(** planning and sweeping without anything in between *)
Definition collect (fuel : nat) : prog (option (result unit)) :=
  p ← PlanGC fuel;
  match p with
  | None => mret None
  | Some (Err e) => mret (Some (Err e))
  | Some (Ok plan) => r ← SweepGC plan; mret (Some r)
  end.

Lemma run_collect fuel m bm e :
  tree_ok m -> closed_graph m -> (size m < fuel)%nat -> ctx_alive e ->
  exists plan e', plan_exact m plan /\ ctx_alive e' /\
    run (collect fuel) (open_kv m) (open_blobs bm) e
    = (Some (Ok tt),
       open_kv (without manifestPrefix (pl_Blobs plan) (without nodePrefix (pl_Nodes plan) m)),
       open_blobs (delete_keys (body_key m <$> pl_Blobs plan) bm), e').
Proof.
  intros Hok Hcl Hf He. destruct (sees_PlanGC m fuel Hok Hf) as ([plan|er] & Hp & Hr); [|done].
  destruct Hr as [_ Hex]. destruct (Hp bm e He) as (e1 & He1 & Hrun).
  destruct (run_sweep_nodes (pl_Nodes plan) (sweep_blobs plan (pl_Blobs plan)) m bm e1 He1) as (e2 & He2 & Hsn).
  destruct (run_sweep_blobs m plan (pl_Blobs plan) (without nodePrefix (pl_Nodes plan) m) bm e2 Hex) as (e3 & He3 & Hsb);
    [done| |done|].
  { intros h. unfold manifest_at, cell. rewrite without_lookup. case_bool_decide; [by right|by left]. }
  exists plan, e3. split; [done|]. split; [done|]. unfold collect. rewrite run_bind, Hrun, run_bind.
  unfold SweepGC. by rewrite Hsn, Hsb.
Qed.

(** ** Blobs *)

(** every manifest describes the body it names *)
Definition bodies_ok (m : kvmap) (bm : gmap string memoryBlob) : Prop :=
  forall h mf, manifest_at m h = Some mf ->
    exists b, bm !! body_key m h = Some b /\ sha256_hex (mb_data b) = h /\
      Z.of_nat (String.length (mb_data b)) = mf_Size mf.

(** the staging key of a body put at [e] *)
Definition staging_key (e : env) : string :=
  blobPrefix +:+ "staging/" +:+ randomHex (fst (read_random 16 e)).

Lemma body_key_some m h mf : manifest_at m h = Some mf ->
  body_key m h = if bool_decide (mf_ObjectKey mf = EmptyString) then blobPrefix +:+ h else mf_ObjectKey mf.
Proof. unfold body_key. by intros ->. Qed.

Lemma manifest_lookup m h mf : manifest_at m h = Some mf ->
  exists raw, m !! (manifestPrefix +:+ h) = Some raw /\ Unmarshal raw = Some mf.
Proof.
  unfold manifest_at, cell. change (ks_key tt h) with (manifestPrefix +:+ h).
  intros (raw & ? & ?)%bind_Some. eauto.
Qed.

Lemma manifest_none m h : tree_ok m -> manifest_at m h = None -> m !! (manifestPrefix +:+ h) = None.
Proof. intros Hok. apply (cell_none (HK := manifest_space) tt m h). apply Hok. Qed.

(** the transaction of [PutBlob] *)
Lemma run_publish_fn m bm e mf raw :
  tree_ok m -> ctx_alive e -> Marshal mf = Some raw ->
  let '(a, k', b', e') := run (transaction (mf, false) (publish_fn (mf_Hash mf) raw)) (open_kv m) (open_blobs bm) e in
  ctx_alive e' /\ b' = open_blobs bm /\
  match manifest_at m (mf_Hash mf) with
  | Some prior => a = ((prior, true), Ok tt) /\ k' = open_kv m
  | None => a = ((mf, false), Ok tt) /\ k' = open_kv (<[manifestPrefix +:+ mf_Hash mf := raw]> m)
  end.
Proof.
  intros Hok He Hm. unfold transaction. change (retry_loop maxAttempts) with (@retry_loop (Manifest * bool) 16).
  refine (run_retry 15 Storage.ErrConflict (mf, false) (publish_fn (mf_Hash mf) raw) m (open_blobs bm) e
    (fun a k' b' e' => ctx_alive e' /\ b' = open_blobs bm /\ _) He _).
  unfold publish_fn. apply yields_bind. unfold yields at 1, captured. cbn [run_tx].
  apply yields_bind. unfold yields at 1, assign at 1. cbn [run_tx].
  apply yields_bind. unfold yields at 1, tGet. cbn [run_tx tx_get map_tx].
  destruct (manifest_at m (mf_Hash mf)) as [prior|] eqn:E.
  - apply manifest_lookup in E as (ex & Hl & Hu). unfold kv_lookup. rewrite Hl, Hu.
    unfold yields, assign. cbn [run_tx]. done.
  - apply manifest_none in E; [|done]. unfold kv_lookup. rewrite E.
    change (errors_is Storage.ErrNotFound Storage.ErrNotFound) with true. cbv iota.
    unfold yields, tPut. cbn [run_tx tx_put map_tx]. done.
Qed.

(** what [PutBlob] of the content [d] leaves behind *)
Definition stored_blob (m : kvmap) (bm : gmap string memoryBlob) (d : string) (opts : PutOptions) (key : string)
    (mf : Manifest) (m' : kvmap) (bm' : gmap string memoryBlob) : Prop :=
  match manifest_at m (sha256_hex d) with
  | Some prior => mf = prior /\ m' = m /\ delete key bm' = delete key bm
  | None => mf = new_manifest opts (sha256_hex d) (Z.of_nat (String.length d)) key /\
      sets (HK := manifest_space) tt (sha256_hex d) (Some (stored mf)) m m' /\
      bm' = <[key := newMemoryBlob d]> bm
  end.

Lemma new_manifest_wf opts d size key : ascii key ->
  manifest_wf (sha256_hex d) (stored (new_manifest opts (sha256_hex d) size key)).
Proof.
  intros Hkey. set (mf := new_manifest _ _ _ _). change (stored mf) with (stored_manifest mf).
  unfold manifest_wf, stored_manifest. cbn [mf_Key mf_Hash mf_Size mf_ObjectKey]. rewrite !sanitize_idemp.
  split; [exact (ascii_sanitize _ (sha256_hex_ascii d))|reflexivity].
Qed.

Lemma staging_ascii e : ascii (staging_key e).
Proof.
  unfold staging_key. apply ascii_app; [by apply ascii_check|].
  apply ascii_app; [by apply ascii_check|apply hex_encode_ascii].
Qed.

Lemma run_PutBlob expected d key m bm e :
  let opts := MkPutOptions key (Z.of_nat (String.length d)) in
  tree_ok m -> ctx_alive e -> in_i64 (Z.of_nat (String.length d)) ->
  exists r m' bm' e', ctx_alive e' /\
    run (PutBlob expected (bytes_reader d) opts) (open_kv m) (open_blobs bm) e
      = (r, open_kv m', open_blobs bm', e') /\
    if decide (expected = EmptyString \/ expected = sha256_hex d)
    then exists mf, r = Ok mf /\ stored_blob m bm d opts (staging_key e) mf m' bm'
    else r = Err ErrHashMismatch /\ m' = m /\ delete (staging_key e) bm' = delete (staging_key e) bm.
Proof.
  intros opts Hok He Hd. unfold PutBlob. rewrite run_rand. set (e1 := snd (read_random 16 e)).
  assert (He1 : ctx_alive e1) by exact He. cbv zeta. fold (staging_key e). cbn [po_Size opts].
  set (st := staging_key e). match goal with |- context [BlobPut st _ _ ?c] =>
    destruct (run_blob_put st d c (open_kv m) bm e1 He1) as (e2 & He2 & _ & ->) end.
  destruct (decide (expected = EmptyString \/ expected = sha256_hex d)) as [Hx|Hx].
  - replace (negb (bool_decide (expected = EmptyString)) && negb (bool_decide (sha256_hex d = expected)))
      with false by (symmetry; destruct Hx as [->|Hx];
        [by rewrite bool_decide_true|rewrite (bool_decide_true (sha256_hex d = expected)) by done; apply andb_false_r]).
    destruct (Z.ltb_spec (Z.of_nat (String.length d)) 0); [lia|].
    set (mf := new_manifest opts (sha256_hex d) (Z.of_nat (String.length d)) st).
    destruct (Marshal mf) as [raw|] eqn:Hm.
    2: { exfalso. destruct (proj2 (Marshal_is_Some mf) ltac:(by eexists)) as [? Hm']. congruence. }
    unfold publish. fold mf. rewrite Hm, run_bind.
    pose proof (run_publish_fn m (<[st := newMemoryBlob d]> bm) e2 mf raw Hok He2 Hm) as Hrun.
    destruct (run (transaction _ _) _ _ e2) as [[[a k'] b'] e3]. destruct Hrun as (He3 & -> & Ha).
    change (mf_Hash mf) with (sha256_hex d) in Ha. unfold stored_blob.
    destruct (manifest_at m (sha256_hex d)) as [prior|] eqn:Hp; destruct Ha as [-> ->]; cbn [andb].
    + destruct (negb (bool_decide (mf_ObjectKey prior = mf_ObjectKey mf))).
      * unfold discard. change (mf_ObjectKey mf) with st. rewrite run_blob_delete by done.
        eexists (Ok prior), m, _, _. split; [|split; [reflexivity|]]; [exact He3|].
        exists prior. split_and!; [done..|]. by rewrite delete_delete_eq, delete_insert_eq.
      * eexists (Ok prior), m, _, _. split; [|split; [reflexivity|]]; [exact He3|].
        exists prior. split_and!; [done..|]. by rewrite delete_insert_eq.
    + eexists (Ok mf), _, _, _. split; [|split; [reflexivity|]]; [exact He3|].
      exists mf. split_and!; [done..| |done].
      apply (sets_insert (HK := manifest_space) tt m (sha256_hex d) mf raw (manifests_ok m Hok) Hm); [exact Hd|].
      apply new_manifest_wf, staging_ascii.
  - rewrite !bool_decide_false by (intros E; apply Hx; auto). cbn [negb andb].
    unfold discard. rewrite run_blob_delete by done. eexists (Err ErrHashMismatch), m, _, _.
    split; [|split; [reflexivity|]]; [exact He2|]. split_and!; [done..|]. by rewrite delete_delete_eq, delete_insert_eq.
Qed.

Lemma length_str_drop n s : String.length (str_drop n s) = (String.length s - n)%nat.
Proof. revert s. induction n as [|n IH]; intros [|a s]; cbn; auto. Qed.

(** the range that [GetBlob] reads *)
Definition clamp (size end_ : Z) : Z := if (end_ <? 0) || (size <? end_) then size else end_.

Lemma manifest_width m h mf : manifest_at m h = Some mf -> in_i64 (mf_Size mf).
Proof. intros (raw & _ & Hu)%manifest_lookup. exact (Unmarshal_in_width raw mf Hu). Qed.

Lemma run_GetBlob m bm h mf lo hi e :
  bodies_ok m bm -> manifest_at m h = Some mf -> ctx_alive e ->
  exists r, fst (fst (fst (run (GetBlob h lo hi) (open_kv m) (open_blobs bm) e))) = r /\
    if (lo <? 0) || (clamp (mf_Size mf) hi <? lo) then r = Err (Plain "tree: invalid range [%d, %d)")
    else exists b rd, bm !! body_key m h = Some b /\ r = Ok rd /\ rd_err rd = None /\
      rd_data rd = str_take (Z.to_nat (clamp (mf_Size mf) hi - lo)) (str_drop (Z.to_nat lo) (mb_data b)).
Proof.
  intros Hb Hm He. eexists. split; [reflexivity|]. unfold GetBlob. rewrite run_bind.
  destruct (sees_StatBlob m h) as (r & Hr & Hmr). rewrite Hm in Hmr. subst r.
  destruct (Hr bm e He) as (e1 & He1 & ->). cbv zeta. fold (clamp (mf_Size mf) hi).
  set (hi' := clamp (mf_Size mf) hi).
  destruct ((lo <? 0) || (hi' <? lo)) eqn:Hrange; [reflexivity|].
  apply orb_false_iff in Hrange as [Hlo%Z.ltb_ge Hhi%Z.ltb_ge].
  destruct (Hb h mf Hm) as (b & Hbk & Hsha & Hsz). rewrite (body_key_some _ _ _ Hm) in Hbk.
  rewrite (body_key_some _ _ _ Hm). rewrite run_blob_open by done. rewrite Hbk.
  assert (Hc : hi' <= mf_Size mf).
  { unfold hi', clamp. destruct ((hi <? 0) || (mf_Size mf <? hi)) eqn:E; [done|].
    by apply orb_false_iff in E as [_ ?%Z.ltb_ge]. }
  destruct (Z.ltb_spec lo 0); [lia|]. destruct (Z.ltb_spec hi' lo); [lia|].
  destruct (Z.ltb_spec (Z.of_nat (String.length (mb_data b))) hi'); [lia|]. cbn [orb run fst].
  set (slice := str_take _ _). eexists b, _. split; [done|]. split; [reflexivity|].
  unfold verifyReader, rd_data. cbn [rd_err rd_chunks bytes_reader foldr].
  rewrite str_app_nil_r. split; [|done].
  assert (Hlen : Z.of_nat (String.length slice) = hi' - lo).
  { unfold slice. rewrite length_str_take, length_str_drop. lia. }
  pose proof (manifest_width _ _ _ Hm) as Hw.
  rewrite i64_id by (rewrite Hlen; unfold in_i64 in *; lia). rewrite Hlen, Z.eqb_refl. cbn [negb].
  destruct (Z.eqb_spec lo 0) as [E0|]; [|done]. destruct (Z.eqb_spec hi' (mf_Size mf)) as [E1|]; [|done]. cbn [andb].
  assert (Hs : slice = mb_data b).
  { unfold slice. rewrite E0. cbn [Z.to_nat str_drop]. apply str_take_all. lia. }
  by rewrite Hs, bool_decide_true.
Qed.

(** the invariant of the bodies, kept when the staging key is not in use *)
Lemma bodies_put m bm d opts key mf m' bm' :
  tree_ok m -> bodies_ok m bm -> ascii key -> key <> EmptyString ->
  (forall h mf, manifest_at m h = Some mf -> body_key m h <> key) ->
  stored_blob m bm d opts key mf m' bm' ->
  bodies_ok m' bm' /\ exists mf', manifest_at m' (sha256_hex d) = Some mf' /\
    (manifest_at m (sha256_hex d) = None -> bm' !! body_key m' (sha256_hex d) = Some (newMemoryBlob d) /\
       mf_Size mf' = Z.of_nat (String.length d)).
Proof.
  intros Hok Hb Hka Hkne Hfree Hst. unfold stored_blob in Hst.
  destruct (manifest_at m (sha256_hex d)) as [prior|] eqn:Hp.
  - destruct Hst as (-> & -> & Hd). split; [|by exists prior]. intros h mf Hmf.
    destruct (Hb h mf Hmf) as (b & Hl & ?). exists b. split; [|done].
    rewrite <- (lookup_delete_ne bm' key) by (intros E; by eapply Hfree).
    rewrite Hd, lookup_delete_ne; [done|]. intros E. by eapply Hfree.
  - destruct Hst as (-> & (_ & Hc & Ho & _) & ->). set (mf := new_manifest _ _ _ _) in *.
    assert (Hbk : body_key m' (sha256_hex d) = key).
    { unfold body_key, manifest_at. rewrite Hc. change (stored mf) with (stored_manifest mf).
      cbn [stored_manifest mf_ObjectKey mf new_manifest]. rewrite (ascii_sanitize key Hka).
      by rewrite bool_decide_false. }
    split.
    + intros h mf1 Hmf1. destruct (decide (h = sha256_hex d)) as [->|Hne].
      * rewrite Hbk, lookup_insert_eq. exists (newMemoryBlob d). split_and!; [done..|].
        unfold manifest_at in Hmf1. rewrite Hc in Hmf1. injection Hmf1 as <-. reflexivity.
      * assert (Hsame : manifest_at m' h = manifest_at m h) by by apply Ho.
        rewrite Hsame in Hmf1. destruct (Hb h mf1 Hmf1) as (b & Hl & ?). exists b. split; [|done].
        unfold body_key. rewrite Hsame. fold (body_key m h). rewrite lookup_insert_ne; [done|].
        intros E. by eapply (Hfree h mf1).
    + exists (stored mf). split; [exact Hc|]. intros _. rewrite Hbk, lookup_insert_eq. done.
Qed.
