(* ===== verification/TreeProps.v ===== *)
(** * tree: the properties of the tree

    The theorems about [Tree], with witnesses on concrete runs. *)
From S2P Require Import Prelude GoBase Utf8 Codec Hash Storage Logic.
From S2P Require Import Scan Cells MemoryKV MemoryBlob Sequential Testing.
From S2P Require Import TreeData TreeIds Tree TreeLogic TreeSafe TreeGC TreeSeq.
Local Open Scope Z_scope.

Lemma tree_ok_empty : tree_ok ∅.
Proof. constructor; apply well_empty. Qed.
Lemma tree_store_empty : store_ok empty_store.
Proof. exact tree_ok_empty. Qed.

(** ** All clients *)

(** A client of the tree: a writer of blobs, nodes and refs, fenced or not, a
    lease holder, a reader, or a garbage collector with any plan. *)
Inductive tree_client : prog unit -> Prop :=
| tc_put_blob x r opts : in_i64 (po_Size opts) -> tree_client (client (PutBlob x r opts))
| tc_get_blob h a b : tree_client (client (GetBlob h a b))
| tc_put_node n : node_valid n -> tree_client (client (PutNode n))
| tc_get_node id : tree_client (client (GetNode id))
| tc_get_ref name : tree_client (client (GetRef name))
| tc_swap name id v : tree_client (client (CompareAndSwapRef name id v))
| tc_swap_fenced l t name id v : tree_client (client (CompareAndSwapRefFenced l t name id v))
| tc_delete name v : tree_client (client (DeleteRef name v))
| tc_delete_fenced l t name v : tree_client (client (DeleteRefFenced l t name v))
| tc_acquire l : tree_client (client (AcquireLease l))
| tc_check l t : tree_client (client (CheckFence l t))
| tc_release l : tree_client (client (ReleaseLease l))
| tc_plan fuel : tree_client (client (PlanGC fuel))
| tc_sweep plan : tree_client (client (SweepGC plan))
| tc_sweep_fenced l t plan : tree_client (client (SweepGCFenced l t plan)).

Lemma readonly_client {A} (p : prog A) : readonly p -> safe store_ok guar [] (client p) (fun _ _ => True).
Proof. intros Hp. eapply safe_client, Hp. constructor. Qed.

Lemma tree_client_safe p : tree_client p -> safe store_ok guar [] p (fun _ _ => True).
Proof.
  intros [x r opts Ho|h a b|n Hn|id|name|name id v|l t name id v|name v|l t name v|l|l t|l|fuel|plan|l t plan];
    try (apply readonly_client; first [apply readonly_GetBlob|apply readonly_GetNode|apply readonly_GetRef
      |apply readonly_CheckFence|apply readonly_PlanGC]); eapply safe_client;
    [by apply safe_PutBlob|by apply safe_PutNode|apply safe_CompareAndSwapRef|apply safe_CompareAndSwapRefFenced
    |apply safe_DeleteRef|apply safe_DeleteRefFenced|apply safe_AcquireLease|apply safe_ReleaseLease
    |apply safe_SweepGC|apply safe_SweepGCFenced].
Qed.

(** Any number of clients of a tree, interleaved at the granularity of
    storage accesses with conflicts, retries and failures, keep the metadata
    well-formed (every node under its own content address, every manifest
    under the hash it records, refs and leases under their names) and change
    it only by the seven moves: a new node, a new manifest, the next version
    of one ref that points to a stored node, the deletion of a ref, the next
    token of one lease, its release, and the removal of nodes and
    manifests. *)
Theorem tree_clients_safe (ps ps' : list (prog unit)) (st st' : store) :
  store_ok st -> Forall tree_client ps -> pool_steps store_ok guar ps st ps' st' ->
  store_ok st' /\ rtc (fun a b => guar a b /\ store_ok b) st st'.
Proof.
  intros Hok Hps Hr. apply (safe_pool _ _ _ _ _ _ Hok) in Hr; [exact Hr|].
  eapply Forall_impl; [exact Hps|]. intros p Hp. exists []. by apply tree_client_safe.
Qed.

Lemma tree_clients_safe_witness :
  let ps := [client (AcquireLease "l"); client (SweepGC (MkGCPlan ["n"] [] ∅))] in
  let ps' := [client (AcquireLease "l"); Ret tt] in
  Forall tree_client ps /\ pool_steps store_ok guar ps empty_store ps' empty_store /\ store_ok empty_store.
Proof.
  cbv zeta. assert (Hps : Forall tree_client [client (AcquireLease "l"); client (SweepGC (MkGCPlan ["n"] [] ∅))]).
  { apply Forall_cons_2; [exact (tc_acquire "l")|].
    apply Forall_cons_2; [exact (tc_sweep (MkGCPlan ["n"] [] ∅))|apply Forall_nil_2]. }
  assert (Hrun : pool_steps store_ok guar [client (AcquireLease "l"); client (SweepGC (MkGCPlan ["n"] [] ∅))]
    empty_store [client (AcquireLease "l"); Ret tt] empty_store).
  { (* the deletion of the sweep fails *)
    eapply pool_l; [|apply pool_refl].
    apply (pool_step_intro store_ok guar [client (AcquireLease "l"); client (SweepGC (MkGCPlan ["n"] [] ∅))] 1
      (client (SweepGC (MkGCPlan ["n"] [] ∅))) (Ret tt)); [reflexivity|].
    refine (step_delete_fail _ _ empty_store ErrConflict). }
  split; [exact Hps|]. split; [exact Hrun|].
  exact (proj1 (tree_clients_safe _ _ _ _ tree_store_empty Hps Hrun)).
Defined.

(** ** Refs *)

(** C8: Compare-and-swap of a ref is atomic, and the fenced form also checks
    the lease at that instant. A [CompareAndSwapRef] that succeeds, under any
    interference, made one commit, at which the node existed and the version
    of the ref was the expected one, and which set the ref to the node under
    the next version; the fenced form committed while its token was the
    current token of the lease. One that fails changed nothing. *)
Theorem ref_swap_is_atomic (lease : string) (t : Z) (name nodeID : string) (expect : Z) (st : store) :
  store_ok st ->
  (forall r h st', runs_in store_ok [] (CompareAndSwapRef name nodeID expect) st h (Ret r) st' ->
     committed (swapped name nodeID expect) r h) /\
  (forall out r h st', runs_in store_ok [] (CompareAndSwapRefFenced lease t name nodeID expect) st h (Ret (out, r)) st' ->
     committed (fenced lease t (swapped name nodeID expect)) (_ ← r; Ok out) h).
Proof.
  intros Hok. split.
  - intros r h st' Hr. exact (safe_result _ _ _ _ _ _ _ _ (safe_CompareAndSwapRef name nodeID expect) Hok Hr).
  - intros out r h st' Hr.
    exact (safe_result _ _ _ _ _ _ _ _ (safe_CompareAndSwapRefFenced lease t name nodeID expect) Hok Hr).
Qed.

Definition leaf0 : Node := MkNode "n" true ["00"] [].
Definition id0 : string := Eval vm_compute in NodeID leaf0.

Lemma leaf0_valid : node_valid leaf0.
Proof. vm_compute. reflexivity. Qed.

(** a tree with one node and one lease *)
Definition base_prog : prog (result Lease) := PutNode leaf0 ≫= fun _ => AcquireLease "l".
Definition base_kv : kvmap := after base_prog.

Lemma base_ok : store_ok (MkStore base_kv ∅).
Proof.
  destruct (safe_after store_ok guar base_prog (fun _ _ => True)) as [b Hb].
  - eapply safe_seq; [exact (safe_PutNode leaf0 leaf0_valid)|]. intros r. exact (safe_AcquireLease "l").
  - exact tree_store_empty.
  - exact Hb.
Qed.

Lemma ref_swap_is_atomic_witness :
  exists h st', runs_in store_ok [] (CompareAndSwapRef "main" id0 0) (MkStore base_kv ∅) h
      (Ret (Ok (MkRef "main" id0 1))) st' /\
    committed (swapped "main" id0 0) (Ok (MkRef "main" id0 1)) h.
Proof.
  destruct (answer_runs_in store_ok (CompareAndSwapRef "main" id0 0) base_kv test_env) as (h & st' & Hr).
  assert (E : answer (CompareAndSwapRef "main" id0 0) base_kv test_env = Ok (MkRef "main" id0 1))
    by (vm_compute; reflexivity).
  rewrite E in Hr. exists h, st'. split; [exact Hr|].
  exact (proj1 (ref_swap_is_atomic "l" 1 "main" id0 0 _ base_ok) _ _ _ Hr).
Defined.

(** how one change of the metadata moves a ref *)
Lemma evolves_ref m m' name :
  tree_ok m -> evolves m m' ->
  ref_at m' name = ref_at m name \/ ref_at m' name = None \/ version m' name = u64 (version m name + 1).
Proof.
  intros Hok [->|Hm]; [by left|].
  destruct Hm as [n Hs|h mf _ Hs|nm id _ Hs|nm _ Hs|nm Hs|nm _ Hs|Hs].
  - left. by destruct (sets_node_frame _ _ _ _ Hok Hs) as (_ & Hr & _).
  - left. by destruct (sets_manifest_frame _ _ _ _ Hok Hs) as (_ & Hr & _).
  - destruct Hs as (_ & Hc & Ho & _). destruct (decide (name = nm)) as [->|Hne].
    + right. right. unfold version at 1, ref_at. by rewrite Hc.
    + left. by apply Ho.
  - destruct Hs as (_ & Hc & Ho & _). destruct (decide (name = nm)) as [->|Hne].
    + right. left. exact Hc.
    + left. by apply Ho.
  - left. by destruct (sets_lease_frame _ _ _ _ Hok Hs) as (_ & Hr & _).
  - left. by destruct (sets_lease_frame _ _ _ _ Hok Hs) as (_ & Hr & _).
  - left. by destruct (swept_frame _ _ Hok Hs) as (_ & Hr & _).
Qed.

(** one step of the store that does not delete the ref [name], whose version
    has not reached its last value *)
Definition keeps_ref (name : string) (a b : store) : Prop :=
  guar a b /\ store_ok b /\ version (st_kv a) name < 2 ^ 64 - 1 /\
  (is_Some (ref_at (st_kv a) name) -> is_Some (ref_at (st_kv b) name)).

Lemma version_step name a b : store_ok a -> keeps_ref name a b ->
  ref_at (st_kv b) name = ref_at (st_kv a) name \/ version (st_kv b) name = version (st_kv a) name + 1.
Proof.
  intros Ha (Hg & Hb & Hlt & Hk). destruct (evolves_ref _ _ name Ha Hg) as [E|[E|E]]; [by left| |].
  - left. destruct (ref_at (st_kv a) name) as [r|]; [|done]. rewrite E in Hk.
    destruct Hk as [? ?]; [by exists r|done].
  - right. rewrite E. apply u64_id. pose proof (stored_version (st_kv a) name). unfold in_u64 in *. lia.
Qed.

Lemma version_eq m m' name : ref_at m' name = ref_at m name -> version m' name = version m name.
Proof. unfold version. by intros ->. Qed.


(** the first version of a ref *)
Definition main_ref : Ref := MkRef "main" id0 1.
Definition main_kv : kvmap := <[refPrefix +:+ "main" := default EmptyString (Marshal main_ref)]> base_kv.

Lemma main_step : keeps_ref "main" (MkStore base_kv ∅) (MkStore main_kv ∅).
Proof.
  assert (Hs : sets (HK := ref_space) tt "main" (Some main_ref) base_kv main_kv).
  { apply (sets_insert (HK := ref_space) tt base_kv "main" main_ref); [apply base_ok|by vm_compute..]. }
  assert (Hn : is_Some (node_at base_kv id0)) by (vm_compute; by eexists).
  split_and!.
  - right. apply (move_ref base_kv main_kv "main" id0 Hn). exact Hs.
  - exact (proj1 (sets_ref_frame base_kv main_kv "main" _ base_ok Hs)).
  - by vm_compute.
  - intros _. by exists main_ref.
Qed.


(** ** Leases *)

(** how one change of the metadata moves a lease *)
Lemma evolves_lease m m' name :
  tree_ok m -> evolves m m' ->
  lease_at m' name = lease_at m name \/ lease_at m' name = None \/ token m' name = u64 (token m name + 1).
Proof.
  intros Hok [->|Hm]; [by left|].
  destruct Hm as [n Hs|h mf _ Hs|nm id _ Hs|nm _ Hs|nm Hs|nm _ Hs|Hs].
  - left. by destruct (sets_node_frame _ _ _ _ Hok Hs) as (_ & _ & Hr).
  - left. by destruct (sets_manifest_frame _ _ _ _ Hok Hs) as (_ & _ & Hr).
  - left. by destruct (sets_ref_frame _ _ _ _ Hok Hs) as (_ & Hr & _).
  - left. by destruct (sets_ref_frame _ _ _ _ Hok Hs) as (_ & Hr & _).
  - destruct Hs as (_ & Hc & Ho & _). destruct (decide (name = nm)) as [->|Hne].
    + right. right. unfold token at 1, lease_at. by rewrite Hc.
    + left. by apply Ho.
  - destruct Hs as (_ & Hc & Ho & _). destruct (decide (name = nm)) as [->|Hne].
    + right. left. exact Hc.
    + left. by apply Ho.
  - left. by destruct (swept_frame _ _ Hok Hs) as (_ & _ & Hr).
Qed.

(** one step of the store that does not release the lease [name], whose token
    has not reached its last value *)
Definition keeps_lease (name : string) (a b : store) : Prop :=
  guar a b /\ store_ok b /\ token (st_kv a) name < 2 ^ 64 - 1 /\
  (is_Some (lease_at (st_kv a) name) -> is_Some (lease_at (st_kv b) name)).

Lemma token_step name a b : store_ok a -> keeps_lease name a b ->
  token (st_kv a) name <= token (st_kv b) name.
Proof.
  intros Ha (Hg & Hb & Hlt & Hk). destruct (evolves_lease _ _ name Ha Hg) as [E|[E|E]].
  - unfold token. by rewrite E.
  - assert (Hn : lease_at (st_kv a) name = None).
    { destruct (lease_at (st_kv a) name) as [l|]; [|done]. rewrite E in Hk. destruct Hk as [? ?]; [by exists l|done]. }
    unfold token. by rewrite E, Hn.
  - rewrite E, u64_id; [lia|]. pose proof (stored_token (st_kv a) name). unfold in_u64 in *. lia.
Qed.

Lemma tokens_grow name st st' : store_ok st -> rtc (keeps_lease name) st st' ->
  store_ok st' /\ token (st_kv st) name <= token (st_kv st') name.
Proof.
  intros Hok Hr. induction Hr as [st|st s1 st' H1 _ IH]; [done|].
  destruct (IH (proj1 (proj2 H1))) as [? ?]. pose proof (token_step name st s1 Hok H1). split; [done|lia].
Qed.

(** C9: A stale lease holder is fenced off. Acquiring a lease hands out the
    next token; from then on, until the lease is released (or its 64-bit
    token overflows), every fenced transaction of a holder of an earlier
    token fails at its fence check, at any later time. *)
Theorem stale_holder_is_fenced (name : string) (t : Z) (st st' : store) :
  store_ok st -> t < token (st_kv st) name -> rtc (keeps_lease name) st st' ->
  forall V (v : V) (f : fn V unit),
    attempt (checkFenceTx name t;; f) v (st_kv st') (fun _ r _ => is_ok r = false) /\
    attempt (acquire_fn name) zero_lease (st_kv st') (fun out r _ =>
      is_ok r = true -> ls_Token out = u64 (token (st_kv st') name + 1)).
Proof.
  intros Hok Ht Hr V v f. destruct (tokens_grow name st st' Hok Hr) as [Hok' Hle]. split.
  - apply attempt_fence; [done|done|]. intros _ E. lia.
  - eapply attempt_mono; [by apply attempt_acquire|]. intros out [[]|e] m' H; [|done].
    intros _. destruct H as (_ & _ & Hx & _). exact Hx.
Qed.

Lemma stale_holder_is_fenced_witness :
  let st := MkStore base_kv ∅ in
  token (st_kv st) "l" = 1 /\
  attempt (checkFenceTx "l" 0;; mret tt) tt (st_kv st) (fun _ r _ => is_ok r = false).
Proof.
  cbv zeta. set (st := MkStore base_kv ∅).
  assert (Ht : token (st_kv st) "l" = 1) by (vm_compute; reflexivity). split; [exact Ht|].
  assert (Hr : rtc (keeps_lease "l") st st).
  { (* a step that leaves the lease alone *)
    eapply rtc_l; [|apply rtc_refl]. split; [by left|]. split; [exact base_ok|]. rewrite Ht. split; [done|auto]. }
  exact (proj1 (stale_holder_is_fenced "l" 0 st st base_ok ltac:(rewrite Ht; done) Hr unit tt (mret tt))).
Defined.

(** A released lease starts over: the tokens that were handed out before are
    handed out again, and the fence lets their old holders pass. *)
Theorem released_tokens_return :
  let stale := l ← AcquireLease "l"; _ ← ReleaseLease (MkLease "l" 1); l' ← AcquireLease "l";
               r ← CheckFence "l" 1; mret (l, l', r) in
  answer stale ∅ test_env = (Ok (MkLease "l" 1), Ok (MkLease "l" 1), Ok tt).
Proof. vm_compute. reflexivity. Qed.

(** The fence and the change it protects are one transaction. Under any
    interference, [CompareAndSwapRefFenced], [DeleteRefFenced] and
    [SweepGCFenced] change the metadata only at moments when their token is
    the current token of the lease; [DeleteRefFenced] deletes the ref exactly
    at the expected version, and a [SweepGCFenced] that succeeds removed the
    planned nodes and manifests, and nothing else, in one commit. *)
Theorem fenced_operations_guarded (lease : string) (t : Z) (name nodeID : string) (expect : Z) (plan : GCPlan)
    (st st' : store) (h : list access) :
  store_ok st ->
  (forall r, runs_in store_ok [] (CompareAndSwapRefFenced lease t name nodeID expect) st h (Ret r) st' ->
     guarded lease t h) /\
  (forall r, runs_in store_ok [] (DeleteRefFenced lease t name expect) st h (Ret r) st' ->
     guarded lease t h /\ committed (fenced lease t (fun m _ => dropped name expect m)) r h) /\
  (forall r, runs_in store_ok [] (SweepGCFenced lease t plan) st h (Ret r) st' ->
     guarded lease t h /\
     (r = Ok tt -> exists h0 m m' b h1, h = h0 ++ (MkStore m b, MkStore m' b) :: h1 /\
        token m lease = t /\ sweep_done plan m m')).
Proof.
  assert (Hg : forall A (P : kvmap -> A -> kvmap -> Prop) r h, committed (fenced lease t P) r h -> guarded lease t h).
  { intros A P [a|e] h'; [|apply guarded_quiet]. intros (h0 & m & m' & b & -> & Hq & _ & Hl & Ht & _).
    apply guarded_app; [by apply guarded_quiet|]. apply Forall_singleton. by right. }
  intros Hok. split_and!.
  - intros r Hr. eapply Hg, (safe_result _ _ _ _ _ _ _ _ (safe_CompareAndSwapRefFenced _ _ _ _ _) Hok Hr).
  - intros r Hr. pose proof (safe_result _ _ _ _ _ _ _ _ (safe_DeleteRefFenced _ _ _ _) Hok Hr) as Hc.
    split; [by eapply Hg|exact Hc].
  - intros r Hr. pose proof (safe_result _ _ _ _ _ _ _ _ (safe_SweepGCFenced _ _ _) Hok Hr) as Hs.
    split; [by eapply sweeps_fenced_guarded|]. intros ->.
    destruct Hs as [[_ Hs]|(h0 & m & m' & b & h1 & -> & _ & _ & _ & Ht & Hd)]; [done|].
    by exists h0, m, m', b, h1.
Qed.

Lemma fenced_operations_guarded_witness :
  exists h st', runs_in store_ok [] (SweepGCFenced "l" 1 (MkGCPlan [id0] [] ∅)) (MkStore base_kv ∅) h
      (Ret (Ok tt)) st' /\ guarded "l" 1 h.
Proof.
  destruct (answer_runs_in store_ok (SweepGCFenced "l" 1 (MkGCPlan [id0] [] ∅)) base_kv test_env) as (h & st' & Hr).
  assert (E : answer (SweepGCFenced "l" 1 (MkGCPlan [id0] [] ∅)) base_kv test_env = Ok tt)
    by (vm_compute; reflexivity).
  rewrite E in Hr. exists h, st'. split; [exact Hr|].
  exact (proj1 (proj2 (proj2 (fenced_operations_guarded "l" 1 "main" id0 0 _ _ _ _ base_ok)) _ Hr)).
Defined.

(** ** Nodes *)


Lemma well_formed_check n :
  forallb (fun c => negb (c =? 0)%N) (codes (nd_Name n)) &&
  forallb (fun s => forallb (fun c => (3 <? c)%N) (codes s)) (nd_Blobs n ++ nd_Children n) = true -> well_formed n.
Proof.
  rewrite andb_true_iff, !List.forallb_forall. intros [Hn Hs]. unfold well_formed, tagless.
  rewrite <- Forall_app, !Forall_forall. split.
  - intros c Hc%list_elem_of_In. specialize (Hn c Hc). by apply negb_true_iff, N.eqb_neq in Hn.
  - intros s Hin%list_elem_of_In. apply Forall_forall. intros c Hc%list_elem_of_In.
    specialize (Hs s Hin). rewrite List.forallb_forall in Hs. by apply N.ltb_lt, Hs.
Qed.


(** Without the restriction on the IDs the encoding is ambiguous: a blob ID
    with a tag byte in it reads as two IDs. *)
Theorem canonical_is_ambiguous :
  let n := MkNode "n" true ["a" +:+ byte_string 3 +:+ "b"] [] in
  let n' := MkNode "n" true ["a"] ["b"] in
  canonical n = canonical n' /\ ~ same_node n n'.
Proof.
  cbv zeta. split; [vm_compute; reflexivity|]. intros (_ & _ & _ & H). cbn in H.
  by apply Permutation_nil_cons in H.
Qed.



(** A node whose strings are not valid UTF-8 is stored, but cannot be read
    back: JSON replaces the invalid bytes. *)
Theorem binary_nodes_are_lost :
  let n := MkNode (byte_string 255) true [] [] in
  is_ok (answer (PutNode n) ∅ test_env) = true /\
  answer (PutNode n ≫= fun x => match x with Ok id => GetNode id | Err er => mret (Err er) end) ∅ test_env
    = Err (Plain "tree: node id mismatch: got %s, want %s").
Proof. cbv zeta. split; vm_compute; reflexivity. Qed.

(** ** Blobs *)

(** C29: Storing a blob under interference. A [PutBlob] of the content [d]
    that succeeds matched the hash that was asked for, if any, and changed
    the metadata in at most one commit, after which there is a manifest for
    the hash of [d]: the one it returned when there already was one, else one
    with that hash. One that fails, as every one with another hash does,
    changed no metadata. *)
Theorem put_blob_publishes (expected : string) (rd : reader) (opts : PutOptions) (st st' : store)
    (r : result Manifest) (h : list access) :
  store_ok st -> in_i64 (po_Size opts) ->
  runs_in store_ok [] (PutBlob expected rd opts) st h (Ret r) st' ->
  put_outcome expected opts (rd_data rd) r h /\
  (expected <> EmptyString -> expected <> sha256_hex (rd_data rd) -> is_ok r = false).
Proof.
  intros Hok Hs Hr. pose proof (safe_result _ _ _ _ _ _ _ _ (safe_PutBlob expected rd opts Hs) Hok Hr) as H.
  split; [exact H|]. intros H1 H2. destruct r as [mf|e]; [|done]. by destruct H as [[?|?] _].
Qed.

Definition hello : reader := bytes_reader "hello".
Definition hello_opts : PutOptions := MkPutOptions "k" 5.

Lemma put_blob_publishes_witness :
  exists h st', runs_in store_ok [] (PutBlob "00" hello hello_opts) empty_store h (Ret (Err ErrHashMismatch)) st' /\
    put_outcome "00" hello_opts (rd_data hello) (Err ErrHashMismatch) h.
Proof.
  destruct (answer_runs_in store_ok (PutBlob "00" hello hello_opts) ∅ test_env) as (h & st' & Hr).
  assert (E : answer (PutBlob "00" hello hello_opts) ∅ test_env = Err ErrHashMismatch) by (vm_compute; reflexivity).
  rewrite E in Hr. exists h, st'. split; [exact Hr|].
  assert (Hs : in_i64 (po_Size hello_opts)) by (vm_compute; split; [discriminate|reflexivity]).
  exact (proj1 (put_blob_publishes "00" hello hello_opts empty_store _ _ _ tree_store_empty Hs Hr)).
Defined.

(** C30: Blobs round-trip, in whole and in part. On an open engine whose
    manifests describe their bodies, [PutBlob] of [d] (with its hash or none
    given) under an unused staging key succeeds and keeps that invariant, and
    [GetBlob] then returns the bytes of the requested range of a body with
    the hash of [d], which is [d] itself unless an equal hash was stored
    before; a range that is out of order is an error. *)
Theorem blob_round_trip (expected d key : string) (lo hi : Z) (m : kvmap) (bm : gmap string memoryBlob) (e : env) :
  tree_ok m -> bodies_ok m bm -> ctx_alive e -> in_i64 (Z.of_nat (String.length d)) ->
  expected = EmptyString \/ expected = sha256_hex d ->
  (forall h mf, manifest_at m h = Some mf -> body_key m h <> staging_key e) ->
  exists mf m' bm' e', run (PutBlob expected (bytes_reader d) (MkPutOptions key (Z.of_nat (String.length d))))
      (open_kv m) (open_blobs bm) e = (Ok mf, open_kv m', open_blobs bm', e') /\
    bodies_ok m' bm' /\
    exists d' r, sha256_hex d' = sha256_hex d /\ (manifest_at m (sha256_hex d) = None -> d' = d) /\
      fst (fst (fst (run (GetBlob (sha256_hex d) lo hi) (open_kv m') (open_blobs bm') e'))) = r /\
      let hi' := clamp (Z.of_nat (String.length d')) hi in
      if (lo <? 0) || (hi' <? lo) then r = Err (Plain "tree: invalid range [%d, %d)")
      else exists rd, r = Ok rd /\ rd_err rd = None /\
        rd_data rd = str_take (Z.to_nat (hi' - lo)) (str_drop (Z.to_nat lo) d').
Proof.
  intros Hok Hb He Hd Hx Hfree.
  destruct (run_PutBlob expected d key m bm e Hok He Hd) as (r & m' & bm' & e' & He' & Hrun & Hout).
  rewrite decide_True in Hout by done. destruct Hout as (mf & -> & Hst).
  destruct (bodies_put _ _ _ _ _ _ _ _ Hok Hb (staging_ascii e) ltac:(done) Hfree Hst) as (Hb' & mf' & Hmf' & Hnew).
  exists mf, m', bm', e'. split; [exact Hrun|]. split; [exact Hb'|].
  destruct (Hb' _ _ Hmf') as (b & Hl & Hsha & Hsz). exists (mb_data b).
  destruct (run_GetBlob m' bm' _ mf' lo hi e' Hb' Hmf' He') as (r & Hr & Hget). exists r.
  split; [exact Hsha|]. split.
  { intros Hn. destruct (Hnew Hn) as [Hl' _]. rewrite Hl in Hl'. by injection Hl' as ->. }
  split; [exact Hr|]. cbv zeta. rewrite Hsz. destruct ((lo <? 0) || _); [exact Hget|].
  destruct Hget as (b' & rd & Hl' & -> & ? & Hdata). rewrite Hl in Hl'. injection Hl' as <-. by exists rd.
Qed.

Lemma bodies_ok_empty bm : bodies_ok ∅ bm.
Proof. intros h mf H. unfold manifest_at, cell in H. by rewrite lookup_empty in H. Qed.

Lemma blob_round_trip_witness :
  exists mf m' bm' e', run (PutBlob "" hello hello_opts) (open_kv ∅) (open_blobs ∅) test_env
      = (Ok mf, open_kv m', open_blobs bm', e') /\ bodies_ok m' bm'.
Proof.
  destruct (blob_round_trip "" "hello" "k" 1 3 ∅ ∅ test_env tree_ok_empty (bodies_ok_empty ∅) test_alive
    ltac:(by vm_compute) (or_introl eq_refl)) as (mf & m' & bm' & e' & Hrun & Hb & _).
  { intros h mf H. unfold manifest_at, cell in H. by rewrite lookup_empty in H. }
  exists mf, m', bm', e'. split; [exact Hrun|exact Hb].
Defined.

(** A blob is verified when it is read. Whatever the store holds and
    whoever changes it, a stream that [GetBlob] of the whole blob returns and
    that ends without an error delivered bytes with the requested hash. *)
Theorem get_blob_verified (hash : string) (end_ : Z) (st st' : store) (rd : reader) (h : list access) :
  end_ < 0 -> runs_in (fun _ => True) [] (GetBlob hash 0 end_) st h (Ret (Ok rd)) st' ->
  rd_err rd = None -> sha256_hex (rd_data rd) = hash.
Proof.
  intros He Hr. refine (safe_result (fun _ => True) (fun _ _ => True) (GetBlob hash 0 end_) st st' (Ok rd) h
    (fun r _ => forall rd, r = Ok rd -> rd_err rd = None -> sha256_hex (rd_data rd) = hash) _ I Hr rd eq_refl).
  apply safe_bind. intros s x _ _.
  destruct (decoded ErrNotFound "tree: bad manifest: %w" x) as [m|er]; [|by intros rd' [=]].
  unfold mret, prog_ret. cbn [safe]. cbv zeta. destruct (Z.ltb_spec end_ 0); [|lia]. cbn [orb].
  change (0 <? 0) with false. cbn [orb]. destruct (mf_Size m <? 0); [by intros rd' [=]|].
  intros s1 [rc|er] _; [|by intros rd' [=]]. intros rd' [= <-].
  rewrite !Z.eqb_refl. unfold verifyReader. cbn [rd_err andb].
  destruct (rd_err rc); [done|]. destruct (negb (_ =? _)); [done|]. by case_bool_decide.
Qed.

Definition hello_sha : string := Eval vm_compute in sha256_hex "hello".
Definition hello_manifest : Manifest := MkManifest hello_sha hello_sha 5 "b".
Definition hello_kv : kvmap := <[manifestPrefix +:+ hello_sha := default EmptyString (Marshal hello_manifest)]> ∅.
Definition hello_blobs : gmap string memoryBlob := {["b" := newMemoryBlob "hello"]}.

Lemma get_blob_verified_witness :
  exists rd h st', runs_in (fun _ => True) [] (GetBlob hello_sha 0 (-1)) (view (open_kv hello_kv) (open_blobs hello_blobs))
      h (Ret (Ok rd)) st' /\ sha256_hex (rd_data rd) = hello_sha.
Proof.
  destruct (run (GetBlob hello_sha 0 (-1)) (open_kv hello_kv) (open_blobs hello_blobs) test_env) as [[[r k'] b'] e'] eqn:E.
  assert (Hr : exists rd, r = Ok rd /\ rd_err rd = None).
  { assert (E1 : fst (fst (fst (run (GetBlob hello_sha 0 (-1)) (open_kv hello_kv) (open_blobs hello_blobs) test_env)))
      = Ok (MkReader ["hello"] None)) by (vm_compute; reflexivity).
    rewrite E in E1. cbn [fst] in E1. subst r. eexists. split; reflexivity. }
  destruct Hr as (rd & -> & He). apply run_steps in E.
  destruct (steps_runs_in (fun _ => True) [] _ _ _ _ E) as [h Hh]. exists rd, h, (view k' b').
  split; [exact Hh|]. exact (get_blob_verified hello_sha (-1) _ _ rd h eq_refl Hh He).
Defined.

(** ** Garbage collection *)

(** C11: Planning finds exactly the garbage. On an open, well-formed store,
    with fuel above the number of its entries, [PlanGC] terminates; it
    reports an error when a reachable node is missing, and otherwise the
    sorted lists of exactly the stored nodes that no path from a ref reaches
    and the stored manifests that no reachable node mentions, with the body
    keys that the latter record. It changes nothing. *)
Theorem plan_is_exact (m : kvmap) (bm : gmap string memoryBlob) (e : env) (fuel : nat) :
  tree_ok m -> (size m < fuel)%nat -> ctx_alive e ->
  exists r e', run (PlanGC fuel) (open_kv m) (open_blobs bm) e = (Some r, open_kv m, open_blobs bm, e') /\
    match r with
    | Ok plan => closed_graph m /\ plan_exact m plan
    | Err _ => ~ closed_graph m
    end.
Proof.
  intros Hok Hf He. destruct (sees_PlanGC m fuel Hok Hf) as (r & Hs & Hr).
  destruct (Hs bm e He) as (e' & _ & Hrun). by exists r, e'.
Qed.

(** nothing below a prefix that no key of [m] has *)
Lemma no_keys {A} `{GoJSON A} (HK : KeySpace unit A) m id :
  bool_decide (map_Forall (fun k _ => has_prefix (ks_prefix tt) k = false) m) = true ->
  cell (HK := HK) tt m id = None.
Proof.
  intros Hm%bool_decide_eq_true. unfold cell. destruct (m !! ks_key tt id) as [raw|] eqn:E; [|done].
  pose proof (ks_key_prefix tt id) as Hp. specialize (Hm _ _ E). cbv beta in Hm. congruence.
Qed.

Lemma base_refs name : ref_at base_kv name = None.
Proof. apply (no_keys ref_space base_kv name). vm_compute. reflexivity. Qed.
Lemma base_manifests h : manifest_at base_kv h = None.
Proof. apply (no_keys manifest_space base_kv h). vm_compute. reflexivity. Qed.
Lemma base_no_refs id : ~ reachable base_kv id.
Proof.
  intros (r & (_ & name & rf & Href & _) & _). by rewrite base_refs in Href.
Qed.
Lemma base_closed : closed_graph base_kv.
Proof. intros id H. destruct (base_no_refs id H). Qed.

Lemma plan_is_exact_witness :
  exists plan e', run (PlanGC (S (size base_kv))) (open_kv base_kv) (open_blobs ∅) test_env
      = (Some (Ok plan), open_kv base_kv, open_blobs ∅, e') /\ plan_exact base_kv plan.
Proof.
  destruct (plan_is_exact base_kv ∅ test_env (S (size base_kv)) base_ok (Nat.lt_succ_diag_r _) test_alive)
    as ([plan|er] & e' & Hrun & Hr).
  - exists plan, e'. split; [exact Hrun|exact (proj2 Hr)].
  - destruct (Hr base_closed).
Defined.

(** the bodies of different manifests lie under different keys *)
Definition bodies_apart (m : kvmap) : Prop :=
  forall h h', is_Some (manifest_at m h) -> is_Some (manifest_at m h') -> h <> h' -> body_key m h <> body_key m h'.

Lemma garbage_manifest m plan h : tree_ok m -> plan_exact m plan ->
  h ∈ pl_Blobs plan <-> is_Some (manifest_at m h) /\ ~ live m h.
Proof.
  intros Hok (_ & Hb & _). rewrite Hb. split; intros [[v Hv] Hl]; (split; [|done]).
  - destruct (well_entry (HK := manifest_space) tt m h v (manifests_ok m Hok) Hv) as (a & _ & _ & _ & _ & Hc).
    by eexists.
  - apply manifest_lookup in Hv as (raw & Hl' & _). by exists raw.
Qed.

(** C10: Collecting garbage is safe and complete. [PlanGC] followed by
    [SweepGC], with nothing in between, on an open, well-formed store whose
    reachable nodes are present, keeps every ref, lease, reachable node and
    live blob (its manifest and its body) as they are, and removes every
    unreachable node and every dead blob, manifest and body. *)
Theorem collect_is_exact (m : kvmap) (bm : gmap string memoryBlob) (e : env) (fuel : nat) :
  tree_ok m -> closed_graph m -> bodies_apart m -> (size m < fuel)%nat -> ctx_alive e ->
  exists m' bm' e', run (collect fuel) (open_kv m) (open_blobs bm) e
      = (Some (Ok tt), open_kv m', open_blobs bm', e') /\
    tree_ok m' /\ (forall name, ref_at m' name = ref_at m name) /\ (forall l, lease_at m' l = lease_at m l) /\
    (forall id, reachable m id -> node_at m' id = node_at m id) /\
    (forall id, ~ reachable m id -> node_at m' id = None) /\
    (forall h, live m h -> manifest_at m' h = manifest_at m h /\
       (is_Some (manifest_at m h) -> bm' !! body_key m h = bm !! body_key m h)) /\
    (forall h, is_Some (manifest_at m h) -> ~ live m h ->
       manifest_at m' h = None /\ bm' !! body_key m h = None).
Proof.
  intros Hok Hcl Hap Hf He. destruct (run_collect fuel m bm e Hok Hcl Hf He) as (plan & e' & Hp & _ & Hrun).
  do 3 eexists. split; [exact Hrun|]. pose proof (garbage_manifest m plan) as Hg.
  set (m1 := without nodePrefix _ m). set (m' := without manifestPrefix _ m1).
  assert (Hsw : swept m m') by (eapply swept_trans; apply swept_without; auto).
  destruct (swept_frame m m' Hok Hsw) as (Hok' & Hr & Hl).
  assert (Hnode : forall id, node_at m' id = if bool_decide (id ∈ pl_Nodes plan) then None else node_at m id)
    by (intros id; apply node_without).
  assert (Hman : forall h, manifest_at m' h = if bool_decide (h ∈ pl_Blobs plan) then None else manifest_at m h).
  { intros h. unfold m'. rewrite manifest_without. case_bool_decide; [done|].
    unfold m1, manifest_at, cell. change (ks_key tt h) with (manifestPrefix +:+ h).
    by rewrite without_apart by by apply apart_dec. }
  split_and!; [exact Hok'|exact Hr|exact Hl|..].
  - intros id Hid. rewrite Hnode, bool_decide_false; [done|]. intros [_ Hn]%(proj1 Hp). done.
  - intros id Hid. rewrite Hnode. case_bool_decide as Hin; [done|]. destruct (node_at m id) as [n|] eqn:En; [|done].
    exfalso. apply Hin, (proj1 Hp). split; [|done]. unfold node_at, cell in En. apply bind_Some in En as (raw & ? & _).
    by exists raw.
  - intros h Hh. assert (Hnot : h ∉ pl_Blobs plan) by (intros [_ ?]%Hg; done).
    split; [by rewrite Hman, bool_decide_false|]. intros Hs. rewrite delete_keys_lookup, bool_decide_false; [done|].
    intros (h' & Hk & Hin)%list_elem_of_fmap. apply Hg in Hin as [Hs' Hd]; [|done..].
    apply (Hap h h' Hs Hs'); [|done]. by intros ->.
  - intros h Hs Hd. assert (Hin : h ∈ pl_Blobs plan) by by apply Hg.
    rewrite Hman, delete_keys_lookup, !bool_decide_true; [done| |done]. by apply list_elem_of_fmap_2.
Qed.

Lemma collect_is_exact_witness :
  exists m' bm' e', run (collect (S (size base_kv))) (open_kv base_kv) (open_blobs ∅) test_env
      = (Some (Ok tt), open_kv m', open_blobs bm', e') /\
    is_Some (node_at base_kv id0) /\ node_at m' id0 = None /\ lease_at m' "l" = lease_at base_kv "l".
Proof.
  assert (Hap : bodies_apart base_kv).
  { intros h h' [mf Hm]. exfalso. rewrite base_manifests in Hm. discriminate Hm. }
  destruct (collect_is_exact base_kv ∅ test_env (S (size base_kv)) base_ok base_closed Hap (Nat.lt_succ_diag_r _) test_alive)
    as (m' & bm' & e' & Hrun & _ & _ & Hl & _ & Hn & _).
  exists m', bm', e'. split; [exact Hrun|]. split; [vm_compute; by eexists|].
  split; [apply Hn, base_no_refs|apply Hl].
Defined.


(** ** A retried publication *)

(** When the transaction of [PutBlob] is retried after it had seen another
    manifest for the content that is gone by then, the body that was staged is
    published, but the manifest that is returned is the other one. *)
Definition stale_manifest : Manifest := MkManifest "old" hello_sha 5 "blobs/staging/old".
Definition stale_kv : kvmap := <[manifestPrefix +:+ hello_sha := default EmptyString (Marshal stale_manifest)]> ∅.
Definition hello_raw : string := Eval vm_compute in
  default EmptyString (Marshal (new_manifest hello_opts hello_sha 5 (blobPrefix +:+ "staging/" +:+ randomHex (take_pad 16 "")))).

Theorem put_blob_returns_stale :
  exists h b, runs_in store_ok [] (PutBlob "" hello hello_opts) empty_store h (Ret (Ok stale_manifest))
    (MkStore (<[manifestPrefix +:+ hello_sha := hello_raw]> ∅) b) /\
    Unmarshal hello_raw <> Some stale_manifest.
Proof.
  do 2 eexists. split; [|vm_compute; discriminate]. unfold PutBlob.
  eapply in_own; [apply (step_rand 16 _ empty_store (take_pad 16 "")); reflexivity|].
  eapply in_own; [eapply (step_blob_put _ _ hello); [apply object_name_self|reflexivity|intros _; reflexivity]|].
  assert (E : sha256_hex (rd_data hello) = hello_sha) by (vm_compute; reflexivity).
  cbv beta iota zeta. rewrite E. cbn [po_Size hello_opts]. rewrite bool_decide_true by done. cbn [negb andb].
  change (5 <? 0) with false. cbv iota. unfold publish.
  replace (Marshal _) with (Some hello_raw) by (vm_compute; reflexivity).
  set (mf := new_manifest _ _ _ _).
  assert (H1 : tx_resp ∅ (mf, false) (publish_fn hello_sha hello_raw) (stale_manifest, true)
    (Err Storage.ErrConflict) ∅).
  { apply (resp_stale _ _ _ stale_kv _ (Ok tt) _ stale_kv), tx_runs_on; vm_compute; reflexivity. }
  assert (H2 : tx_resp ∅ (stale_manifest, true) (publish_fn hello_sha hello_raw) (stale_manifest, false)
    (Ok tt) (<[manifestPrefix +:+ hello_sha := hello_raw]> ∅)).
  { apply resp_commit, tx_runs_on; vm_compute; reflexivity. }
  eapply in_own; [apply (step_ctx _ _ None)|].
  eapply in_own; [exact (step_tx _ _ _ _ _ _ _ _ _ H1)|].
  eapply in_own; [apply (step_ctx _ _ None)|].
  eapply in_own; [exact (step_tx _ _ _ _ _ _ _ _ _ H2)|]. apply in_refl.
Qed.
