(* ===== verification/LruData.v ===== *)
(** * lru: entries, options and keys (lru/lru.go)

    The metadata record of an entry with its JSON form, the configuration of
    a store, and the sharded keys. *)
From S2P Require Import Prelude GoBase Utf8 Json JsonLit GoTime.
From S2P Require Import Codec Hash Storage.
Local Open Scope Z_scope.

Definition ErrNotFound : error := Sentinel "lru: not found".
Definition ErrClosed : error := Sentinel "lru: closed".
Definition ErrInvalidOptions : error := Sentinel "lru: invalid options".
Definition ErrEvictorRunning : error := Sentinel "lru: evictor already running".

Record EntryMeta := MkEntryMeta { SizeBytes : Z; CreatedAt : time; LastAccessAt : time }.
Record Entry := MkEntry { Key : string; Meta : EntryMeta; Revision : Z }.
Record Stats := MkStats { Items : Z; st_SizeBytes : Z; st_CapacityBytes : Z; st_CapacityItems : Z }.

(** [record]: revision, size, creation and last access in Unix nanoseconds *)
Record record := MkRecord { R : Z; S : Z; C : Z; A : Z }.
Definition zero_record : record := MkRecord 0 0 0 0.
#[export] Instance record_eq_dec : EqDecision record.
Proof. solve_decision. Defined.

Definition encode_record (r : record) : option json :=
  Some (JObj [member "r" (enc_int (R r)); member "s" (enc_int (S r));
    member "c" (enc_int (C r)); member "a" (enc_int (A r))]).
Definition record_fields : list (string * setter record) :=
  [("r"%stdpp, field dec_u64 (fun x r => MkRecord x (S r) (C r) (A r)));
   ("s"%stdpp, field dec_i64 (fun x r => MkRecord (R r) x (C r) (A r)));
   ("c"%stdpp, field dec_i64 (fun x r => MkRecord (R r) (S r) x (A r)));
   ("a"%stdpp, field dec_i64 (fun x r => MkRecord (R r) (S r) (C r) x))].
Definition record_width (r : record) : Prop :=
  in_u64 (R r) /\ in_i64 (S r) /\ in_i64 (C r) /\ in_i64 (A r).

#[export, program] Instance record_json : GoJSON record := {
  encode := encode_record;
  decode := dec_struct record_fields zero_record;
  in_width := record_width;
  stored r := r;
}.
Next Obligation. intros r j [= <-]. solve_json_ok. Qed.
Next Obligation.
  intros r j (H1 & H2 & H3 & H4) [= <-]. unfold dec_struct. destruct r. cbn [R S C A] in *.
  repeat dec_step. done.
Qed.
Next Obligation.
  intros j r. apply dec_struct_inv; [by vm_compute|].
  unfold record_fields, record_width. repeat apply Forall_cons_2; try apply Forall_nil_2; cbn [snd];
    apply field_inv; try done; intros v x r' (? & ? & ? & ?) Hx; apply dec_num_range in Hx; by split_and!.
Qed.

(** [encode]: marshalling a record never fails *)
Definition encode_raw (r : record) : string := default EmptyString (Marshal r).

Lemma encode_raw_spec r : Marshal r = Some (encode_raw r).
Proof. reflexivity. Qed.

Definition toEntry (key : string) (r : record) : Entry :=
  MkEntry key (MkEntryMeta (S r) (Unix0 (C r)) (Unix0 (A r))) (R r).

(** ** Options *)

Record Options := MkOptions {
  Prefix : string;
  ShardCount : Z;
  CapacityBytes : Z;
  CapacityItems : Z;
  TouchOnGet : bool;
  EvictorWorkers : Z;
  EvictorInterval : duration;
}.

(** [Store]: its options, whether it is closed, and whether the evictor has
    been started *)
Record Store := MkStore { opts : Options; closed : bool; started : bool }.

(** [New] on a KV that is not nil *)
Definition New (o : Options) : result Store :=
  if (ShardCount o <? 0) || (256 <? ShardCount o)
  then Err (Wrap "%w: ShardCount must be in [0,256]" ErrInvalidOptions)
  else Ok (MkStore
    (MkOptions
      (if bool_decide (Prefix o = EmptyString) then "lru/"
       else if negb (ends_in_slash (Prefix o)) then Prefix o +:+ "/" else Prefix o)
      (if ShardCount o =? 0 then 16 else ShardCount o)
      (CapacityBytes o) (CapacityItems o) (TouchOnGet o)
      (if EvictorWorkers o <=? 0 then 1 else EvictorWorkers o)
      (if EvictorInterval o <=? 0 then minute else EvictorInterval o)) false false).

(** ** Keys *)

(** [fmt.Sprintf("%02x", n)] for [n < 256] *)
Definition hex2 (n : N) : string := of_codes [hex_digit (n / 16); hex_digit (n mod 16)].

Definition shard (s : Store) (key : string) : string :=
  hex2 (fnv32a key mod Z.to_N (ShardCount (opts s))).
Definition fullKey (s : Store) (key : string) : string :=
  Prefix (opts s) +:+ shard s key +:+ "/" +:+ key.

Lemma fullKey_prefix s key : has_prefix (Prefix (opts s)) (fullKey s key) = true.
Proof. apply has_prefix_app. Qed.

Lemma length_shard s key : String.length (shard s key) = 2%nat.
Proof. reflexivity. Qed.

(** prefixes of the same length *)
Lemma str_app_same_length (a b c d : string) :
  String.length a = String.length c -> a +:+ b = c +:+ d -> b = d.
Proof.
  revert c. induction a as [|x a IH]; intros [|y c] Hl E; try done.
  change (String x (a +:+ b) = String y (c +:+ d)) in E. injection E as _ E. injection Hl as Hl. by apply (IH c).
Qed.

Lemma fullKey_inj s k1 k2 : fullKey s k1 = fullKey s k2 -> k1 = k2.
Proof.
  unfold fullKey. intros H%str_app_inj_l. apply str_app_same_length in H; [|by rewrite !length_shard].
  by apply str_app_inj_l in H.
Qed.

(** the user key in a full key *)
Definition userKey (s : Store) (k : string) : string :=
  str_drop (String.length (Prefix (opts s)) + 3) k.

Lemma str_drop_add a b s : str_drop (a + b) s = str_drop b (str_drop a s).
Proof. revert s. induction a as [|a IH]; intros [|x s]; cbn; [done..| |done]. by destruct b. Qed.

Lemma userKey_fullKey s key : userKey s (fullKey s key) = key.
Proof.
  unfold userKey, fullKey. rewrite str_drop_add, str_drop_app.
  change 3%nat with (2 + 1)%nat. rewrite str_drop_add, <- (length_shard s key), str_drop_app. reflexivity.
Qed.
