(* ===== verification/Lru.v ===== *)
(** * lru: the operations (lru/lru.go)

    Entries with their access times, and the eviction of the least recently
    used ones. *)
From S2P Require Import Prelude GoBase Codec Storage LruData.
Local Open Scope Z_scope.

Definition transaction {V} (v : V) (f : fn V unit) : prog (V * result unit) :=
  retry_loop maxAttempts Storage.ErrConflict v f.

Definition checkOpen (s : Store) : result unit :=
  if closed s then Err ErrClosed else Ok tt.

Definition corrupt_record : error := Wrap "lru: corrupt record for %q: %w" json_error.

(** an access at [now] *)
Definition touched (now : Z) (r : record) : record := MkRecord (u64 (R r + 1)) (S r) (C r) now.

(** [decode(cur)] with its error returned as [bad] *)
Definition decodeOr {V} (bad : error) (raw : string) : fn V record :=
  match Unmarshal raw with Some r => mret r | None => raise bad end.

(** ** Get *)

(** the touch after a read; the captured variable is the record returned *)
Definition get_fn (fk : string) (now : Z) : fn record unit :=
  cur ← tGet fk;
  match cur with
  | Err e => if errors_is e Storage.ErrNotFound then raise ErrNotFound else raise e
  | Ok raw =>
      cr ← decodeOr json_error raw;
      let cr := touched now cr in
      assign cr;;
      tPut fk (encode_raw cr)
  end.

Definition Get (s : Store) (key : string) : prog (result Entry) :=
  match checkOpen s with
  | Err e => mret (Err e)
  | Ok _ =>
      KvGet (fullKey s key) (fun b =>
        match b with
        | Err e => mret (Err (if errors_is e Storage.ErrNotFound then ErrNotFound else e))
        | Ok raw =>
            match Unmarshal raw with
            | None => mret (Err corrupt_record)
            | Some r =>
                if TouchOnGet (opts s) then
                  Now (fun t =>
                    let now := UnixNano t in
                    '(r', _) ← transaction (touched now r) (get_fn (fullKey s key) now);
                    mret (Ok (toEntry key r')))
                else mret (Ok (toEntry key r))
            end
        end)
  end.

(** ** Set, Touch, Delete *)

(** the record before the store has been looked at *)
Definition fresh_record (meta : EntryMeta) (now : Z) : record :=
  let c := UnixNano (CreatedAt meta) in
  let a := UnixNano (LastAccessAt meta) in
  MkRecord 0 (SizeBytes meta) (if c =? 0 then now else c) (if a =? 0 then now else a).

(** the record of a key that has none *)
Definition new_record (meta : EntryMeta) (now : Z) : record :=
  let r := fresh_record meta now in MkRecord 1 (S r) (C r) (A r).

(** the record that replaces [cr] *)
Definition updated_record (meta : EntryMeta) (now : Z) (cr : record) : record :=
  let r := fresh_record meta now in
  MkRecord (u64 (R cr + 1)) (S r) (if IsZero (CreatedAt meta) then C cr else C r) (A r).

Definition set_fn (fk : string) (meta : EntryMeta) (now : Z) : fn unit unit :=
  cur ← tGet fk;
  r ← match cur with
      | Err e =>
          if errors_is e Storage.ErrNotFound
          then mret (new_record meta now)
          else raise e
      | Ok raw => cr ← decodeOr corrupt_record raw; mret (updated_record meta now cr)
      end;
  tPut fk (encode_raw r).

Definition touch_fn (fk : string) (now : Z) : fn unit unit :=
  cur ← tGet fk;
  match cur with
  | Err e => if errors_is e Storage.ErrNotFound then raise ErrNotFound else raise e
  | Ok raw => r ← decodeOr corrupt_record raw; tPut fk (encode_raw (touched now r))
  end.

Definition delete_fn (fk : string) : fn unit unit :=
  cur ← tGet fk;
  match cur with
  | Err e => if errors_is e Storage.ErrNotFound then raise ErrNotFound else raise e
  | Ok _ => tDelete fk
  end.

(** [return s.transaction(...)] *)
Definition commit (f : fn unit unit) : prog (result unit) := '(_, r) ← transaction tt f; mret r.

Definition Set_ (s : Store) (key : string) (meta : EntryMeta) : prog (result unit) :=
  match checkOpen s with
  | Err e => mret (Err e)
  | Ok _ => Now (fun t => commit (set_fn (fullKey s key) meta (UnixNano t)))
  end.

Definition Touch (s : Store) (key : string) : prog (result unit) :=
  match checkOpen s with
  | Err e => mret (Err e)
  | Ok _ => Now (fun t => commit (touch_fn (fullKey s key) (UnixNano t)))
  end.

Definition Delete (s : Store) (key : string) : prog (result unit) :=
  match checkOpen s with
  | Err e => mret (Err e)
  | Ok _ => commit (delete_fn (fullKey s key))
  end.

(** ** Scans *)

(** one scanned pair *)
Definition entry_of (s : Store) (kv : Storage.Entry) : result Entry :=
  let k := en_key kv in
  let n := String.length (Prefix (opts s)) in
  if (String.length k <? n + 3)%nat || negb (has_prefix "/" (str_drop (n + 2) k))
  then Err (Plain "lru: corrupt entry key %q")
  else match Unmarshal (en_value kv) with
       | None => Err (Wrap "lru: corrupt record at %q: %w" json_error)
       | Some r => Ok (toEntry (userKey s k) r)
       end.

Fixpoint entries_of (s : Store) (kvs : list Storage.Entry) : result (list Entry) :=
  match kvs with
  | [] => Ok []
  | kv :: kvs' => e ← entry_of s kv; es ← entries_of s kvs'; Ok (e :: es)
  end.

Definition scanAll (s : Store) : prog (result (list Entry)) :=
  KvScan (prefix_scan (Prefix (opts s))) (fun r => mret (kvs ← r; entries_of s kvs)).

Definition Len (s : Store) : prog (result Z) :=
  match checkOpen s with
  | Err e => mret (Err e)
  | Ok _ => r ← scanAll s; mret (es ← r; Ok (Z.of_nat (length es)))
  end.

(** [total += e.Meta.SizeBytes] over the entries, in [int64] *)
Definition total_size (es : list Entry) : Z :=
  fold_left (fun n e => i64 (n + SizeBytes (Meta e))) es 0.

Definition GetStats (s : Store) : prog (result Stats) :=
  match checkOpen s with
  | Err e => mret (Err e)
  | Ok _ => r ← scanAll s; mret (es ← r;
      Ok (MkStats (Z.of_nat (length es)) (total_size es) (CapacityBytes (opts s)) (CapacityItems (opts s))))
  end.

(** ** Eviction *)

(** the order of [sort.Slice]; the keys of a scan are distinct, so sorting
    has one outcome *)
Definition older (a b : Entry) : Prop :=
  LastAccessAt (Meta a) < LastAccessAt (Meta b) \/
  LastAccessAt (Meta a) = LastAccessAt (Meta b) /\ String.le (Key a) (Key b).
#[export] Instance older_dec : RelDecision older.
Proof. intros a b. unfold older. apply _. Defined.

Definition overBytes (s : Store) (total : Z) : bool :=
  (0 <? CapacityBytes (opts s)) && (CapacityBytes (opts s) <? total).
Definition overItems (s : Store) (count : Z) : bool :=
  (0 <? CapacityItems (opts s)) && (CapacityItems (opts s) <? count).

(** the second loop of [victims] *)
Fixpoint pick (s : Store) (total count : Z) (es : list Entry) : list Entry :=
  match es with
  | [] => []
  | e :: es' =>
      if negb (overBytes s total) && negb (overItems s count) then []
      else e :: pick s (i64 (total - SizeBytes (Meta e))) (count - 1) es'
  end.

Definition victims (s : Store) (entries : list Entry) : list Entry :=
  let sorted := merge_sort older entries in
  pick s (total_size sorted) (Z.of_nat (length sorted)) sorted.

(** what a worker does with one victim *)
Definition evict_fn (s : Store) (victim : Entry) : fn unit unit :=
  raw ← tGet (fullKey s (Key victim));
  match raw with
  | Err e => if errors_is e Storage.ErrNotFound then mret tt else raise e
  | Ok raw =>
      current ← decodeOr json_error raw;
      if negb (R current =? Revision victim)
         || negb (A current =? UnixNano (LastAccessAt (Meta victim)))
      then mret tt
      else tDelete (fullKey s (Key victim))
  end.

(** a worker: the errors it sends, in order *)
Fixpoint evict_worker (s : Store) (jobs : list Entry) : prog (list error) :=
  match jobs with
  | [] => mret []
  | victim :: jobs' =>
      r ← commit (evict_fn s victim);
      errs ← evict_worker s jobs';
      mret (match r with Ok _ => errs | Err e => e :: errs end)
  end.

(** [evictOnce] with one worker, to which [sent] victims are handed before
    the context is done. More workers are more [evict_worker]s side by side. *)
Definition evictOnce (s : Store) (sent : nat) : prog (result unit) :=
  r ← scanAll s;
  match r with
  | Err e => mret (Err e)
  | Ok entries =>
      errs ← evict_worker s (take sent (victims s entries));
      mret (match errs with [] => Ok tt | e :: _ => Err e end)
  end.

(** the goroutine of [StartEvictor]: what [evictOnce] handed out at each
    tick until its context was done *)
Fixpoint evictor (s : Store) (ticks : list nat) : prog unit :=
  match ticks with
  | [] => Ret tt
  | sent :: ticks' => prog_bind (evictOnce s sent) (fun _ => evictor s ticks')
  end.

(** [StartEvictor]: the new state and the error *)
Definition StartEvictor (s : Store) : Store * result unit :=
  if closed s then (s, Err ErrClosed)
  else if started s then (s, Err ErrEvictorRunning)
  else (MkStore (opts s) false true, Ok tt).

(** [Close]: the new state, the error, and whether an evictor was cancelled
    and waited for *)
Definition Close (s : Store) : Store * result unit * bool :=
  if closed s then (s, Err ErrClosed, false)
  else (MkStore (opts s) true (started s), Ok tt, started s).
