(* ===== verification/LruLogic.v ===== *)
(** * lru: entries under interference

    The records of a store as a key space, the changes its operations make to
    one record, and what whole operations do while others run. *)
From S2P Require Import Prelude GoBase Codec Hash Storage Logic.
From S2P Require Import Scan Cells LruData Lru.
Local Open Scope Z_scope.

#[export] Instance lru_space : KeySpace Store record := {
  ks_prefix s := Prefix (opts s);
  ks_key := fullKey;
  ks_wf _ _ := record_width;
  ks_key_prefix := fullKey_prefix;
  ks_key_inj := fullKey_inj;
}.

Definition record_at (s : Store) (m : kvmap) (key : string) : option record := cell s m key.
Definition lru_ok (s : Store) (m : kvmap) : Prop := well s m.

(** what the operations do to one record *)
Inductive change : option record -> option record -> Prop :=
| change_new r : R r = 1 -> change None (Some r)
| change_update r r' : R r' = u64 (R r + 1) -> change (Some r) (Some r')
| change_delete r : change (Some r) None.

(** a commit changes one record at most, and nothing outside the store *)
Definition evolves (s : Store) (m m' : kvmap) : Prop :=
  m' = m \/ exists key, sets s key (record_at s m' key) m m' /\ change (record_at s m key) (record_at s m' key).

Definition store_ok (s : Store) (st : store) : Prop := lru_ok s (st_kv st).
Definition guar (s : Store) (st st' : store) : Prop := evolves s (st_kv st) (st_kv st').

Lemma sets_change s key c m m' :
  sets s key c m m' -> change (record_at s m key) c -> lru_ok s m' /\ evolves s m m' /\ record_at s m' key = c.
Proof.
  intros Hs Hc. assert (Hcell : record_at s m' key = c) by apply Hs.
  split; [apply Hs|]. split; [|done]. right. exists key. by rewrite Hcell.
Qed.

(** the width of the records the operations write *)
Lemma touched_width now r : in_i64 now -> record_width r -> record_width (touched now r).
Proof. intros Hn (? & ? & ? & ?). split_and!; cbn; auto with s3db. Qed.

(** a size as the caller's [int64] *)
Definition meta_ok (meta : EntryMeta) : Prop := in_i64 (SizeBytes meta).

Lemma fresh_width meta now : in_i64 now -> meta_ok meta -> record_width (fresh_record meta now).
Proof.
  intros Hn Hm. unfold fresh_record. split_and!; cbn [R S C A]; [done|done|..];
    destruct (_ =? 0); auto; unfold UnixNano; auto with s3db.
Qed.
Lemma new_width meta now : in_i64 now -> meta_ok meta -> record_width (new_record meta now).
Proof. intros Hn Hm. destruct (fresh_width meta now Hn Hm) as (_ & ? & ? & ?). by split_and!. Qed.
Lemma updated_width meta now r : in_i64 now -> meta_ok meta -> record_width r ->
  record_width (updated_record meta now r).
Proof.
  intros Hn Hm (_ & _ & Hc & _). destruct (fresh_width meta now Hn Hm) as (_ & ? & ? & ?).
  unfold updated_record. split_and!; cbn [R S C A]; [auto with s3db|done| |done]. by destruct (IsZero _).
Qed.
Lemma UnixNano_range t : in_i64 (UnixNano t).
Proof. unfold UnixNano. auto with s3db. Qed.
#[export] Hint Resolve touched_width new_width updated_width UnixNano_range : s3db.

(** ** Callbacks *)

(** on success, one record was set; [P] relates it to the old one *)
Definition writes {V} (s : Store) (key : string) (m : kvmap) (P : V -> option record -> option record -> Prop)
    (v' : V) (r : result unit) (m' : kvmap) : Prop :=
  match r with
  | Err _ => True
  | Ok _ => exists c, sets s key c m m' /\ change (record_at s m key) c /\ P v' (record_at s m key) c
  end.

Lemma attempt_write {V} s key r (v : V) m (P : V -> option record -> option record -> Prop) :
  lru_ok s m -> record_width r -> change (record_at s m key) (Some r) -> P v (record_at s m key) (Some r) ->
  attempt (tPut (fullKey s key) (encode_raw r)) v m (writes s key m P).
Proof.
  intros Hok Hr Hc HP. apply (attempt_put (HK := lru_space) s key r); [done|apply encode_raw_spec|done|done|done|].
  intros m' Hs. by exists (Some r).
Qed.

Lemma attempt_remove {V} s key r (v : V) m (P : V -> option record -> option record -> Prop) :
  lru_ok s m -> record_at s m key = Some r -> P v (Some r) None ->
  attempt (tDelete (fullKey s key)) v m (writes s key m P).
Proof.
  intros Hok Hr HP. apply (attempt_del (HK := lru_space) s key); [done|done|]. intros m' Hs.
  exists None. rewrite Hr. split; [done|]. split; [apply change_delete|done].
Qed.

Lemma attempt_decode {V B} raw r bad (k : record -> fn V B) (v : V) m Q :
  Unmarshal raw = Some r -> attempt (k r) v m Q -> attempt (decodeOr bad raw ≫= k) v m Q.
Proof. intros Hu H. apply attempt_bind. unfold decodeOr. by rewrite Hu. Qed.

Lemma attempt_set s key meta now v m :
  lru_ok s m -> in_i64 now -> meta_ok meta ->
  attempt (set_fn (fullKey s key) meta now) v m (writes s key m (fun _ old new =>
    new = Some (match old with
                | None => new_record meta now
                | Some r => updated_record meta now r
                end))).
Proof.
  intros Hok Hn Hm. apply attempt_bind, (attempt_get (HK := lru_space) s key); [done|..].
  - intros Hc. change (record_at s m key = None) in Hc. apply attempt_bind. cbv beta iota.
    rewrite errors_is_refl. apply attempt_write; [done|auto with s3db|rewrite Hc; by apply change_new|by rewrite Hc].
  - intros raw r Hc Hw Hu. change (record_at s m key = Some r) in Hc. apply attempt_bind.
    apply (attempt_decode _ r); [done|].
    apply attempt_write; [done|auto with s3db|rewrite Hc; by apply change_update|by rewrite Hc].
  - intros e He. apply attempt_bind. cbv beta iota. unfold engine_error in He. by rewrite He.
Qed.

(** a callback that changes a record that must exist *)
Lemma attempt_existing {V} s key (v : V) m (k : string -> fn V unit) Q :
  lru_ok s m ->
  (forall e, Q v (Err e) m) ->
  (forall raw r, record_at s m key = Some r -> record_width r -> Unmarshal raw = Some r -> attempt (k raw) v m Q) ->
  attempt (cur ← tGet (fullKey s key);
    match cur with
    | Err e => if errors_is e Storage.ErrNotFound then raise ErrNotFound else raise e
    | Ok raw => k raw
    end) v m Q.
Proof.
  intros Hok He Hk. apply attempt_bind, (attempt_get (HK := lru_space) s key); [done|..].
  - intros _. apply He.
  - exact Hk.
  - intros e _. cbv beta iota. destruct (errors_is _ _); apply He.
Qed.

Lemma attempt_touch s key now v m :
  lru_ok s m -> in_i64 now ->
  attempt (touch_fn (fullKey s key) now) v m (writes s key m (fun _ old new =>
    exists r, old = Some r /\ new = Some (touched now r))).
Proof.
  intros Hok Hn. apply attempt_existing; [done|done|]. intros raw r Hc Hw Hu. apply (attempt_decode _ r); [done|].
  apply attempt_write; [done|auto with s3db|rewrite Hc; by apply change_update|rewrite Hc; eauto].
Qed.

Lemma attempt_delete_entry s key v m :
  lru_ok s m ->
  attempt (delete_fn (fullKey s key)) v m (writes s key m (fun _ old new => is_Some old /\ new = None)).
Proof.
  intros Hok. apply attempt_existing; [done|done|]. intros raw r Hc Hw Hu.
  apply (attempt_remove s key r); [done|done|]. eauto.
Qed.

Lemma attempt_get_touch s key now v m :
  lru_ok s m -> in_i64 now ->
  attempt (get_fn (fullKey s key) now) v m (writes s key m (fun v' old new =>
    exists r, old = Some r /\ v' = touched now r /\ new = Some v')).
Proof.
  intros Hok Hn. apply attempt_existing; [done|done|]. intros raw r Hc Hw Hu. apply (attempt_decode _ r); [done|].
  cbv zeta. apply attempt_bind. change (attempt (tPut (fullKey s key) (encode_raw (touched now r))) (touched now r) m
    (writes s key m (fun v' old new => exists r, old = Some r /\ v' = touched now r /\ new = Some v'))).
  apply attempt_write; [done|auto with s3db|rewrite Hc; by apply change_update|rewrite Hc; eauto].
Qed.

(** the record of the victim is still what was scanned *)
Definition unchanged (victim : Entry) (r : record) : Prop :=
  R r = Revision victim /\ A r = UnixNano (LastAccessAt (Meta victim)).

Lemma attempt_evict s victim v m :
  lru_ok s m ->
  attempt (evict_fn s victim) v m (fun v' r m' =>
    match r with
    | Err _ => True
    | Ok _ => lru_ok s m' /\ evolves s m m' /\
        (m' = m \/ exists r, record_at s m (Key victim) = Some r /\ unchanged victim r /\
           sets s (Key victim) None m m')
    end).
Proof.
  intros Hok. apply attempt_bind, (attempt_get (HK := lru_space) s (Key victim)); [done|..].
  - intros _. cbv beta iota. rewrite errors_is_refl. split_and!; [done|by left|by left].
  - intros raw r Hc Hw Hu. change (record_at s m (Key victim) = Some r) in Hc. apply (attempt_decode _ r); [done|].
    destruct (Z.eqb_spec (R r) (Revision victim)) as [E1|]; cbn [negb orb]; [|by split_and!; [|left|left]].
    destruct (Z.eqb_spec (A r) (UnixNano (LastAccessAt (Meta victim)))) as [E2|]; cbn [negb]; [|by split_and!; [|left|left]].
    apply (attempt_del (HK := lru_space) s (Key victim)); [done|done|]. intros m' Hs.
    destruct (sets_change _ _ _ _ _ Hs) as (? & ? & _); [rewrite Hc; apply change_delete|].
    split_and!; [done|done|]. right. by exists r.
  - intros e He. cbv beta iota. unfold engine_error in He. by rewrite He.
Qed.
