(* ===== verification/LruSafe.v ===== *)
(** * lru: whole operations under interference

    Every operation of a store, run while others change it, keeps the records
    well-formed, changes them one at a time, and returns a result that
    describes one of its accesses; an eviction only removes what it found to
    be a victim and finds unchanged. *)
From S2P Require Import Prelude GoBase Codec Hash Storage Logic.
From S2P Require Import Scan Cells LruData Lru LruLogic.
Local Open Scope Z_scope.

(** ** The operations on one entry, and their specification *)

Inductive op :=
| OpGet (key : string)
| OpSet (key : string) (meta : EntryMeta)
| OpTouch (key : string)
| OpDelete (key : string).

Definition op_key (o : op) : string :=
  match o with OpGet k | OpSet k _ | OpTouch k | OpDelete k => k end.

Definition op_args (o : op) : Prop :=
  match o with OpSet _ meta => meta_ok meta | _ => True end.

Definition exec (s : Store) (o : op) : prog (result (option Entry)) :=
  let quietly (p : prog (result unit)) := r ← p; mret (_ ← r; Ok None) in
  match o with
  | OpGet k => r ← Get s k; mret (e ← r; Ok (Some e))
  | OpSet k meta => quietly (Set_ s k meta)
  | OpTouch k => quietly (Touch s k)
  | OpDelete k => quietly (Delete s k)
  end.

(** a time as it is stored: one whose [UnixNano] is 0 counts as not given *)
Definition stamp (now : Z) (t : time) : Z := if UnixNano t =? 0 then now else UnixNano t.

(** what the operation answers, and the record it leaves, when the time is
    [now] *)
Definition spec (s : Store) (o : op) (now : Z) (old : option record) : result (option Entry) * option record :=
  if closed s then (Err ErrClosed, old) else
  match o, old with
  | OpSet _ meta, None =>
      (Ok None, Some (MkRecord 1 (SizeBytes meta) (stamp now (CreatedAt meta)) (stamp now (LastAccessAt meta))))
  | OpSet _ meta, Some r =>
      (Ok None, Some (MkRecord (u64 (R r + 1)) (SizeBytes meta)
        (if IsZero (CreatedAt meta) then C r else stamp now (CreatedAt meta)) (stamp now (LastAccessAt meta))))
  | _, None => (Err ErrNotFound, None)
  | OpGet k, Some r =>
      let r' := if TouchOnGet (opts s) then MkRecord (u64 (R r + 1)) (S r) (C r) now else r in
      (Ok (Some (toEntry k r')), Some r')
  | OpTouch _, Some r => (Ok None, Some (MkRecord (u64 (R r + 1)) (S r) (C r) now))
  | OpDelete _, Some _ => (Ok None, None)
  end.

(** one access of the history is the operation, and nothing else happened *)
Definition took_effect (s : Store) (o : op) (out : option Entry) (h : list access) : Prop :=
  exists h0 st st' now, h = h0 ++ [(st, st')] /\ quiet h0 /\
    spec s o now (record_at s (st_kv st) (op_key o)) = (Ok out, record_at s (st_kv st') (op_key o)) /\
    sets s (op_key o) (record_at s (st_kv st') (op_key o)) (st_kv st) (st_kv st').

Definition returns (s : Store) (o : op) (r : result (option Entry)) (h : list access) : Prop :=
  match r with
  | Err _ => quiet h
  | Ok out => took_effect s o out h
  end.

(** ** Transactions *)

Lemma safe_lru_transaction {V} s key h0 (v : V) f (Pv : V -> Prop) (P : V -> option record -> option record -> Prop) Q :
  Pv v ->
  (forall v m, Pv v -> lru_ok s m -> attempt f v m (fun v' r m' => Pv v' /\ writes s key m P v' r m')) ->
  (forall v m, Pv v -> attempt f v m (fun v' _ _ => Pv v')) ->
  (forall v' m m' b h, quiet h -> sets s key (record_at s m' key) m m' -> P v' (record_at s m key) (record_at s m' key) ->
     Q (v', Ok tt) (h0 ++ h ++ [(Logic.MkStore m b, Logic.MkStore m' b)])) ->
  (forall v e h, Pv v -> quiet h -> Q (v, Err e) (h0 ++ h)) ->
  safe (store_ok s) (guar s) h0 (transaction v f) Q.
Proof.
  intros Hv Hf Hst Hok Herr. apply (safe_retry _ _ _ _ _ _ _ Pv); [done| |done|done].
  intros v0 m b Hv0 Hm. eapply attempt_mono; [by apply Hf|].
  intros v' [[]|e] m'; [|by intros []]. intros (Hv' & c & Hs & Hc & HP).
  destruct (sets_change _ _ _ _ _ Hs Hc) as (Hw & Hev & E). split; [done|].
  split; [split; [exact Hw|by right]|].
  intros h Hh. apply Hok; rewrite ?E; done.
Qed.

(** an operation that is a single transaction *)
Lemma safe_commit s o f h0 (P : option record -> option record -> Prop) :
  closed s = false -> quiet h0 ->
  (forall m, lru_ok s m -> attempt f tt m (writes s (op_key o) m (fun _ => P))) ->
  (forall old new, P old new -> exists now, spec s o now old = (Ok None, new)) ->
  safe (store_ok s) (guar s) h0 (r ← commit f; mret (_ ← r; Ok None)) (returns s o).
Proof.
  intros Hc Hh0 Hf HP. unfold commit. apply safe_bind, safe_bind.
  apply (safe_lru_transaction s (op_key o) h0 tt f (fun _ => True) (fun _ => P)); [done| |by intros; apply attempt_true| |].
  - intros [] m _ Hm. eapply attempt_mono; [by apply Hf|]. by split.
  - intros [] m m' b h Hh Hs Hp. destruct (HP _ _ Hp) as [now Hsp]. cbn.
    exists (h0 ++ h), (Logic.MkStore m b), (Logic.MkStore m' b), now. split; [by rewrite app_assoc|].
    split; [by apply Forall_app_2|]. by split.
  - intros [] e h _ Hh. cbn. by apply Forall_app_2.
Qed.

Lemma spec_open s o now old : closed s = false ->
  spec s o now old = match o, old with
  | OpSet _ meta, None => (Ok None, Some (new_record meta now))
  | OpSet _ meta, Some r => (Ok None, Some (updated_record meta now r))
  | _, None => (Err ErrNotFound, None)
  | OpGet k, Some r =>
      let r' := if TouchOnGet (opts s) then touched now r else r in
      (Ok (Some (toEntry k r')), Some r')
  | OpTouch _, Some r => (Ok None, Some (touched now r))
  | OpDelete _, Some _ => (Ok None, None)
  end.
Proof. intros Hc. unfold spec. by rewrite Hc. Qed.

Lemma safe_Set s key meta : meta_ok meta ->
  safe (store_ok s) (guar s) [] (exec s (OpSet key meta)) (returns s (OpSet key meta)).
Proof.
  intros Hm. cbn [exec]. unfold Set_, checkOpen. destruct (closed s) eqn:Hc; [by constructor|].
  intros st t _. apply (safe_commit s (OpSet key meta) _ [(st, st)]
    (fun old new => new = Some (match old with None => new_record meta (UnixNano t) | Some r => updated_record meta (UnixNano t) r end)));
    [done|by repeat constructor| |].
  - intros m Hok. apply attempt_set; auto with s3db.
  - intros old new ->. exists (UnixNano t). rewrite spec_open by done. by destruct old.
Qed.

Lemma safe_Touch s key :
  safe (store_ok s) (guar s) [] (exec s (OpTouch key)) (returns s (OpTouch key)).
Proof.
  cbn [exec]. unfold Touch, checkOpen. destruct (closed s) eqn:Hc; [by constructor|].
  intros st t _. apply (safe_commit s (OpTouch key) _ [(st, st)]
    (fun old new => exists r, old = Some r /\ new = Some (touched (UnixNano t) r)));
    [done|by repeat constructor| |].
  - intros m Hok. apply attempt_touch; auto with s3db.
  - intros old new (r & -> & ->). exists (UnixNano t). by rewrite spec_open by done.
Qed.

Lemma safe_Delete s key :
  safe (store_ok s) (guar s) [] (exec s (OpDelete key)) (returns s (OpDelete key)).
Proof.
  cbn [exec]. unfold Delete, checkOpen. destruct (closed s) eqn:Hc; [by constructor|].
  apply (safe_commit s (OpDelete key) _ [] (fun old new => is_Some old /\ new = None)); [done|constructor| |].
  - intros m Hok. by apply attempt_delete_entry.
  - intros old new ([r ->] & ->). exists 0. by rewrite spec_open by done.
Qed.

(** reading a record *)
Lemma record_read s m key resp :
  lru_ok s m -> get_resp m (fullKey s key) resp ->
  match resp with
  | Ok raw => exists r, record_at s m key = Some r /\ Unmarshal raw = Some r /\ record_width r
  | Err e => errors_is e Storage.ErrNotFound = true -> record_at s m key = None
  end.
Proof.
  intros Hok [|e He]; [|by rewrite He]. unfold kv_lookup.
  destruct (m !! fullKey s key) as [raw|] eqn:E.
  - destruct (well_entry (HK := lru_space) s m key raw Hok E) as (r & _ & Hw & _ & Hu & Hc). by exists r.
  - intros _. unfold record_at, cell. cbn [ks_key lru_space]. by rewrite E.
Qed.

(** what [Get] with [TouchOnGet] returns when its touch did not commit: the
    record as it would have been *)
Definition guesses (s : Store) (o : op) (r : result (option Entry)) (h : list access) : Prop :=
  exists key r0 now, o = OpGet key /\ closed s = false /\ TouchOnGet (opts s) = true /\ quiet h /\
    r = Ok (Some (toEntry key (touched now r0))).

Lemma attempt_get_any fk now v m (Pv : record -> Prop) :
  Pv v -> (forall r, Pv (touched now r)) -> attempt (get_fn fk now) v m (fun v' _ _ => Pv v').
Proof.
  intros Hv Ht. apply attempt_bind.
  assert (Hk : forall cur, attempt (match cur with
    | Err e => if errors_is e Storage.ErrNotFound then raise ErrNotFound else raise e
    | Ok raw => cr ← decodeOr json_error raw; let cr := touched now cr in assign cr;; tPut fk (encode_raw cr)
    end) v m (fun v' _ _ => Pv v')).
  { intros [raw|e]; [|by destruct (errors_is _ _)]. apply attempt_bind. unfold decodeOr.
    destruct (Unmarshal raw) as [r|]; [|done]. cbv zeta. apply attempt_bind. unfold attempt. cbn.
    split; [apply Ht|intros _; apply Ht]. }
  apply attempt_tGet; [exact (Hk _)|intros e _; exact (Hk (Err e))].
Qed.

Lemma safe_Get s key :
  safe (store_ok s) (guar s) [] (exec s (OpGet key)) (fun r h =>
    returns s (OpGet key) r h \/ guesses s (OpGet key) r h).
Proof.
  cbn [exec]. unfold Get, checkOpen. destruct (closed s) eqn:Hc; [by left; constructor|].
  intros st resp Hok Hr. pose proof (record_read _ _ _ _ Hok Hr) as Hrec.
  destruct resp as [raw|e]; [|by left; repeat constructor]. destruct Hrec as (r & Hat & -> & Hw).
  destruct (TouchOnGet (opts s)) eqn:Htouch.
  - intros st1 t _. set (now := UnixNano t).
    match goal with |- safe _ _ ?h _ _ => assert (Hq : quiet h) by (repeat constructor); generalize dependent h end.
    intros h1 Hq. apply safe_bind, safe_bind.
    apply (safe_lru_transaction s key h1 _ _ (fun v => exists r0, v = touched now r0)
      (fun v' old new => exists r, old = Some r /\ v' = touched now r /\ new = Some v')); [eauto| | | |].
    + intros v m Hv Hm. apply attempt_and; [apply attempt_get_any; eauto|].
      apply attempt_get_touch; [done|]. unfold now. auto with s3db.
    + intros v m Hv. apply attempt_get_any; eauto.
    + intros v' m m' b h Hh Hs (r0 & Hold & -> & Hnew). left. cbn.
      exists (h1 ++ h), (Logic.MkStore m b), (Logic.MkStore m' b), now. split; [by rewrite app_assoc|].
      split; [by apply Forall_app_2|]. cbn [st_kv op_key]. split; [|done].
      rewrite spec_open by done. by rewrite Hold, Hnew, Htouch.
    + intros v e h [r0 ->] Hh. right. exists key, r0, now. split_and!; [done..| |done]. by apply Forall_app_2.
  - left. cbn. exists [], st, st, 0. split; [done|]. split; [constructor|]. cbn [op_key]. split.
    + rewrite spec_open by done. by rewrite Hat, Htouch.
    + split_and!; [exact Hok|done..].
Qed.

Lemma safe_lru_exec s o : op_args o ->
  safe (store_ok s) (guar s) [] (exec s o) (fun r h => returns s o r h \/ guesses s o r h).
Proof.
  destruct o as [key|key meta|key|key]; intros Ha; [apply safe_Get|..];
    (eapply safe_mono; [|by left]); [by apply safe_Set|apply safe_Touch|apply safe_Delete].
Qed.

(** ** Scans *)

(** the entries a scan of the whole store reports *)
Definition listed (s : Store) (m : kvmap) : list Entry :=
  (fun e => toEntry (userKey s (en_key e)) (default zero_record (Unmarshal (en_value e)))) <$> entries s m.

Lemma length_fullKey s key :
  String.length (fullKey s key) = (String.length (Prefix (opts s)) + 3 + String.length key)%nat.
Proof. unfold fullKey. rewrite !str_length_app, length_shard. cbn [String.length]. lia. Qed.

Lemma entry_of_fullKey s key e r :
  en_key e = fullKey s key -> Unmarshal (en_value e) = Some r -> entry_of s e = Ok (toEntry key r).
Proof.
  intros Hk Hu. unfold entry_of. rewrite Hk, length_fullKey.
  destruct (Nat.ltb_spec (String.length (Prefix (opts s)) + 3 + String.length key)
    (String.length (Prefix (opts s)) + 3)); [lia|].
  assert (Hd : str_drop (String.length (Prefix (opts s)) + 2) (fullKey s key) = "/" +:+ key).
  { unfold fullKey. rewrite str_drop_add, str_drop_app, <- (length_shard s key) at 1. apply str_drop_app. }
  rewrite Hd, has_prefix_app. cbn [negb orb]. by rewrite Hu, userKey_fullKey.
Qed.

Lemma listed_entries s m :
  lru_ok s m -> entries_of s (entries s m) = Ok (listed s m).
Proof.
  intros Hok. unfold listed. assert (Hin : entries s m ⊆ entries s m) by done. revert Hin.
  generalize (entries s m) at 1 3 4. intros es. induction es as [|e es IH]; intros Hin; [done|].
  cbn [entries_of fmap list_fmap].
  destruct (entry_cell (HK := lru_space) s m e Hok) as (key & r & Hk & Hu & _); [apply Hin; set_solver|].
  rewrite (entry_of_fullKey s key e r Hk Hu). cbn. rewrite IH by set_solver. cbn.
  rewrite Hk, Hu. cbn [ks_key lru_space]. by rewrite userKey_fullKey.
Qed.

Lemma lru_listed_elem s m e :
  lru_ok s m -> e ∈ listed s m <-> exists key r, record_at s m key = Some r /\ e = toEntry key r.
Proof.
  intros Hok. unfold listed. rewrite list_elem_of_fmap. split.
  - intros (kv & -> & Hkv). destruct (entry_cell (HK := lru_space) s m kv Hok Hkv) as (key & r & Hk & Hu & Hc & _).
    exists key, r. split; [exact Hc|]. rewrite Hk, Hu. cbn [ks_key lru_space]. by rewrite userKey_fullKey.
  - intros (key & r & Hr & ->). destruct (cell_entry (HK := lru_space) s m key r Hr) as (kv & Hkv & Hk & Hu).
    exists kv. split; [|done]. rewrite Hk, Hu. cbn [ks_key lru_space]. by rewrite userKey_fullKey.
Qed.

Lemma listed_keys s m : lru_ok s m -> NoDup (Key <$> listed s m).
Proof.
  intros Hok. unfold listed. rewrite <- list_fmap_compose. unfold compose. cbn [toEntry Key].
  rewrite (list_fmap_compose en_key (userKey s)). apply NoDup_fmap_2_strong; [|apply (entries_NoDup (HK := lru_space))].
  intros k1 k2 (e1 & -> & H1)%list_elem_of_fmap (e2 & -> & H2)%list_elem_of_fmap.
  destruct (entry_cell (HK := lru_space) s m e1 Hok H1) as (id1 & _ & -> & _).
  destruct (entry_cell (HK := lru_space) s m e2 Hok H2) as (id2 & _ & -> & _).
  cbn [ks_key lru_space]. rewrite !userKey_fullKey. by intros ->.
Qed.

Lemma listed_NoDup s m : lru_ok s m -> NoDup (listed s m).
Proof. intros Hok. by eapply NoDup_fmap_1, listed_keys. Qed.

(** ** Eviction *)

(** the access removes the record of a victim that is still as it had been
    scanned *)
Definition removes (s : Store) (v : Entry) (a : access) : Prop :=
  exists r, record_at s (st_kv (fst a)) (Key v) = Some r /\ unchanged v r /\
    sets s (Key v) None (st_kv (fst a)) (st_kv (snd a)).

(** Every access removes one of the victims, in their order and each at most
    once, or leaves the store as it was. *)
Definition evicts (s : Store) (vs : list Entry) (h : list access) : Prop :=
  exists ls, omap id ls `sublist_of` vs /\
    Forall2 (fun l a => match l with Some v => removes s v a | None => noop a end) ls h.

Lemma evicts_quiet s vs h : quiet h -> evicts s vs h.
Proof.
  intros Hq. exists (replicate (length h) None). split.
  - replace (omap id (replicate (length h) (@None Entry))) with (@nil Entry) by (clear; by induction h).
    apply sublist_nil_l.
  - induction Hq; constructor; auto.
Qed.
Lemma evicts_app s vs1 vs2 h1 h2 : evicts s vs1 h1 -> evicts s vs2 h2 -> evicts s (vs1 ++ vs2) (h1 ++ h2).
Proof.
  intros (ls1 & Hs1 & Hf1) (ls2 & Hs2 & Hf2). exists (ls1 ++ ls2). rewrite omap_app.
  split; [by apply sublist_app|by apply Forall2_app].
Qed.
Lemma evicts_one s v a : removes s v a -> evicts s [v] [a].
Proof. intros Ha. exists [Some v]. split; [reflexivity|by constructor; [exact Ha|constructor]]. Qed.
Lemma evicts_elem s vs h a : evicts s vs h -> a ∈ h -> noop a \/ exists v, v ∈ vs /\ removes s v a.
Proof.
  intros (ls & Hs & Hf) [i Hi]%list_elem_of_lookup.
  destruct (Forall2_lookup_r _ _ _ _ _ Hf Hi) as ([v|] & Hl & Ha); [right|by left]. exists v. split; [|done].
  eapply elem_of_submseteq; [|by apply sublist_submseteq]. apply list_elem_of_omap. exists (Some v).
  split; [by eapply list_elem_of_lookup_2|done].
Qed.

Lemma safe_evict_worker s vs h :
  safe (store_ok s) (guar s) h (evict_worker s vs) (fun _ h' => exists h1, h' = h ++ h1 /\ evicts s vs h1).
Proof.
  revert h. induction vs as [|v vs IH]; intros h; cbn [evict_worker].
  { exists []. split; [by rewrite app_nil_r|apply evicts_quiet; constructor]. }
  assert (Hnext : forall r h1, evicts s [v] h1 -> safe (store_ok s) (guar s) (h ++ h1)
    (errs ← evict_worker s vs; mret (match r : result unit with Ok _ => errs | Err e => e :: errs end))
    (fun _ h' => exists h1, h' = h ++ h1 /\ evicts s (v :: vs) h1)).
  { intros r h1 H1. apply safe_bind. eapply safe_mono; [apply IH|]. intros errs h' (h2 & E & H2).
    cbn [safe mret prog_ret]. exists (h1 ++ h2). split; [by rewrite app_assoc|]. by apply (evicts_app s [v]). }
  unfold commit. apply safe_bind, safe_bind. apply (safe_retry _ _ _ _ _ _ _ (fun _ => True)); [done| | |].
  - intros [] m b _ Hm. eapply attempt_mono; [apply (attempt_evict s v tt m Hm)|].
    intros [] [[]|e] m'; [|done]. intros (Hok & Hev & Hd). split; [done|]. split; [split; [done|by right]|].
    intros h1 Hh1. apply Hnext. destruct Hd as [->|(r & Hr & Hu & Hs)].
    + apply evicts_quiet, Forall_app_2; [done|by repeat constructor].
    + apply (evicts_app s [] [v]); [by apply evicts_quiet|]. apply evicts_one. by exists r.
  - intros [] m _. by apply attempt_true.
  - intros [] e h1 _ Hh1. by apply Hnext, evicts_quiet.
Qed.

(** what an eviction did: a scan, then removals of victims of that scan *)
Definition evicted_from (s : Store) (sent : nat) (h : list access) : Prop :=
  exists st h1, h = (st, st) :: h1 /\ store_ok s st /\
    evicts s (take sent (victims s (listed s (st_kv st)))) h1.

Lemma safe_evictOnce s sent :
  safe (store_ok s) (guar s) [] (evictOnce s sent) (fun _ h => evicted_from s sent h).
Proof.
  unfold evictOnce, scanAll. intros st Hok. rewrite app_nil_l. split.
  - change (scanEntries (st_kv st) (prefix_scan (Prefix (opts s)))) with (entries (HK := lru_space) s (st_kv st)).
    cbn -[evict_worker]. rewrite listed_entries by done. apply safe_bind. eapply safe_mono; [apply safe_evict_worker|].
    intros errs h' (h1 & E & H1).
    cbn [safe mret prog_ret]. by exists st, h1.
  - intros e. cbn. exists st, []. split; [done|]. split; [done|apply evicts_quiet; constructor].
Qed.

Lemma safe_evictor s ticks h : safe (store_ok s) (guar s) h (evictor s ticks) (fun _ _ => True).
Proof.
  revert h. induction ticks as [|n ticks IH]; intros h; cbn [evictor]; [done|].
  apply (safe_bind _ _ h (evictOnce s n) (fun _ => evictor s ticks)).
  eapply safe_mono; [eapply (safe_later _ _ h []); [by rewrite app_nil_r|apply safe_evictOnce]|]. intros a h' _. apply IH.
Qed.

(** a program that scans once *)
Lemma safe_scanAll {A} s (k : result (list Entry) -> prog A) Q :
  (forall r h, quiet h -> safe (store_ok s) (guar s) h (k r) Q) ->
  safe (store_ok s) (guar s) [] (r ← scanAll s; k r) Q.
Proof.
  intros Hk. unfold scanAll. intros st Hok. rewrite app_nil_l. split; [|intros e]; apply Hk; by repeat constructor.
Qed.

Lemma safe_Len s : safe (store_ok s) (guar s) [] (Len s) (fun _ h => quiet h).
Proof. unfold Len. destruct (checkOpen s); [|constructor]. by apply safe_scanAll. Qed.
Lemma safe_GetStats s : safe (store_ok s) (guar s) [] (GetStats s) (fun _ h => quiet h).
Proof. unfold GetStats. destruct (checkOpen s); [|constructor]. by apply safe_scanAll. Qed.
