(* ===== verification/LruVictims.v ===== *)
(** * lru: the choice of victims (lru/lru.go victims)

    Which entries an eviction removes, as a function of the entries it has
    scanned. *)
From S2P Require Import Prelude GoBase Codec Storage LruData Lru.
Local Open Scope Z_scope.

(** ** The order of eviction *)

#[export] Instance older_trans : Transitive older.
Proof.
  intros a b c [H1|[H1 L1]] [H2|[H2 L2]]; unfold older; [left; lia|left; lia|left; lia|].
  right. split; [lia|]. by trans (Key b).
Qed.
#[export] Instance older_total : Total older.
Proof.
  intros a b. unfold older. destruct (Z.lt_trichotomy (LastAccessAt (Meta a)) (LastAccessAt (Meta b))) as [?|[E|?]];
    [by left; left| |by right; left].
  destruct (total String.le (Key a) (Key b)); [left|right]; by right.
Qed.

Lemma older_antisymm a b : older a b -> older b a -> Key a = Key b.
Proof. intros [?|[? L1]] [?|[? L2]]; [lia..|]. by apply (anti_symm String.le). Qed.

(** a sorted list with distinct keys is determined by its elements *)
Lemma older_sorted_unique l1 l2 :
  l1 ≡ₚ l2 -> NoDup (Key <$> l1) -> StronglySorted older l1 -> StronglySorted older l2 -> l1 = l2.
Proof.
  revert l2. induction l1 as [|a l1 IH]; intros l2 Hp Hn H1 H2.
  { by apply Permutation_nil_l in Hp as ->. }
  destruct l2 as [|b l2]; [by apply Permutation_nil_r in Hp|].
  apply StronglySorted_inv in H1 as [H1 Ha]. apply StronglySorted_inv in H2 as [H2 Hb].
  rewrite Forall_forall in Ha, Hb. cbn in Hn. apply NoDup_cons in Hn as [Hna Hn].
  assert (a = b) as <-.
  { assert (Hin : a ∈ b :: l2) by (rewrite <- Hp; left).
    assert (Hin2 : b ∈ a :: l1) by (rewrite Hp; left).
    apply elem_of_cons in Hin as [->|Hin]; [done|]. apply elem_of_cons in Hin2 as [->|Hin2]; [done|].
    assert (Key a = Key b) as E by (apply older_antisymm; auto).
    destruct Hna. rewrite E. by apply list_elem_of_fmap_2. }
  f_equal. apply IH; [by apply Permutation_cons_inv in Hp|done..].
Qed.

(** ** Sizes *)

Lemma i64_plus a b : i64 (i64 a + b) = i64 (a + b).
Proof.
  unfold i64. replace ((a + 2 ^ 63) `mod` 2 ^ 64 - 2 ^ 63 + b + 2 ^ 63) with ((a + 2 ^ 63) `mod` 2 ^ 64 + b) by lia.
  rewrite Zplus_mod_idemp_l. do 2 f_equal. lia.
Qed.

(** the sum of the sizes, as a mathematical integer *)
Definition sum_sizes (es : list Entry) : Z := foldr (fun e n => SizeBytes (Meta e) + n) 0 es.

Lemma total_size_sum es : total_size es = i64 (sum_sizes es).
Proof.
  unfold total_size. assert (H : forall a, fold_left (fun n e => i64 (n + SizeBytes (Meta e))) es (i64 a) = i64 (a + sum_sizes es)).
  { induction es as [|e es IH]; intros a; cbn; [by rewrite Z.add_0_r|]. rewrite i64_plus, IH. f_equal.
    unfold sum_sizes. lia. }
  exact (H 0).
Qed.

#[export] Instance sum_sizes_Permutation : Proper ((≡ₚ) ==> (=)) sum_sizes.
Proof. intros l1 l2 Hp. unfold sum_sizes. induction Hp; cbn; lia. Qed.
#[export] Instance total_size_Permutation : Proper ((≡ₚ) ==> (=)) total_size.
Proof. intros l1 l2 Hp. by rewrite !total_size_sum, Hp. Qed.

Lemma total_size_rest e es : i64 (total_size (e :: es) - SizeBytes (Meta e)) = total_size es.
Proof. rewrite !total_size_sum. unfold Z.sub. rewrite i64_plus. f_equal. cbn. unfold sum_sizes. lia. Qed.

(** ** Picking *)

(** the entries are within both caps; a cap that is not positive is no cap *)
Definition fits (s : Store) (es : list Entry) : bool :=
  ((CapacityBytes (opts s) <=? 0) || (i64 (sum_sizes es) <=? CapacityBytes (opts s))) &&
  ((CapacityItems (opts s) <=? 0) || (Z.of_nat (length es) <=? CapacityItems (opts s))).

Lemma fits_over s es :
  negb (overBytes s (total_size es)) && negb (overItems s (Z.of_nat (length es))) = fits s es.
Proof.
  unfold fits, overBytes, overItems. rewrite total_size_sum, !negb_andb.
  rewrite <- !Z.leb_antisym. done.
Qed.

#[export] Instance fits_Permutation s : Proper ((≡ₚ) ==> (=)) (fits s).
Proof. intros l1 l2 Hp. unfold fits. by rewrite Hp. Qed.

Lemma pick_spec s es :
  exists kept, es = pick s (total_size es) (Z.of_nat (length es)) es ++ kept /\ fits s kept = true /\
    forall pre v post, pick s (total_size es) (Z.of_nat (length es)) es = pre ++ v :: post ->
      fits s (v :: post ++ kept) = false.
Proof.
  induction es as [|e es IH].
  - exists []. split; [done|]. split; [|by intros []].
    unfold fits. change (i64 (sum_sizes [])) with 0. change (Z.of_nat (@length Entry [])) with 0.
    destruct (Z.leb_spec (CapacityBytes (opts s)) 0), (Z.leb_spec 0 (CapacityBytes (opts s))),
      (Z.leb_spec (CapacityItems (opts s)) 0), (Z.leb_spec 0 (CapacityItems (opts s))); lia || done.
  - cbn [pick]. rewrite fits_over. destruct (fits s (e :: es)) eqn:Hf.
    { exists (e :: es). split; [done|]. split; [done|]. by intros []. }
    rewrite total_size_rest. replace (Z.of_nat (length (e :: es)) - 1) with (Z.of_nat (length es)) by (cbn [length]; lia).
    destruct IH as (kept & Heq & Hk & Hpre). exists kept. split; [cbn; by f_equal|]. split; [done|].
    intros [|p pre] v post E; injection E as -> E; [|by eapply Hpre].
    rewrite E in Heq. by rewrite <- Heq.
Qed.

Lemma victims_split s es :
  exists kept, es ≡ₚ victims s es ++ kept /\ StronglySorted older (victims s es ++ kept) /\ fits s kept = true /\
    forall pre v post, victims s es = pre ++ v :: post -> fits s (v :: post ++ kept) = false.
Proof.
  unfold victims. set (sorted := merge_sort older es).
  assert (Hp : sorted ≡ₚ es) by apply merge_sort_Permutation.
  assert (Hs : StronglySorted older sorted) by (apply StronglySorted_merge_sort; apply _).
  destruct (pick_spec s sorted) as (kept & Heq & Hf & Hm). exists kept. rewrite <- Heq. by split_and!.
Qed.

Lemma victims_perm s es es' : es ≡ₚ es' -> NoDup (Key <$> es) -> victims s es = victims s es'.
Proof.
  intros Hp Hn. unfold victims. cbv zeta.
  replace (merge_sort older es') with (merge_sort older es); [done|].
  apply older_sorted_unique; [by rewrite !merge_sort_Permutation| |apply StronglySorted_merge_sort; apply _..].
  by rewrite merge_sort_Permutation.
Qed.
