(* ===== verification/LruSeq.v ===== *)
(** * lru: the operations alone on the in-memory engine

    With an open engine and a live context an operation answers exactly what
    [LruSafe.spec] says, a scan reports every entry, and an eviction leaves
    the entries that were not victims. *)
From S2P Require Import Prelude GoBase Codec Storage Logic Scan Cells.
From S2P Require Import MemoryKV MemoryBlob Sequential.
From S2P Require Import LruData Lru LruLogic LruSafe LruVictims.
Local Open Scope Z_scope.

(** ** One entry *)

Lemma record_stored s m key r :
  lru_ok s m -> record_at s m key = Some r ->
  exists raw, m !! fullKey s key = Some raw /\ Unmarshal raw = Some r /\ record_width r.
Proof.
  intros Hok Hr. pose proof (cell_wf (HK := lru_space) s m key r Hok Hr) as Hw.
  apply bind_Some in Hr as (raw & Hl & Hu). by exists raw.
Qed.

Lemma read_some s m key r :
  lru_ok s m -> record_at s m key = Some r ->
  exists raw, kv_lookup m (fullKey s key) = Ok raw /\ Unmarshal raw = Some r.
Proof.
  intros Hok Hr. destruct (record_stored s m key r Hok Hr) as (raw & Hl & Hu & _). exists raw.
  unfold kv_lookup. by rewrite Hl.
Qed.
Lemma read_none s m key :
  lru_ok s m -> record_at s m key = None -> kv_lookup m (fullKey s key) = Err Storage.ErrNotFound.
Proof.
  intros Hok Hr. unfold kv_lookup. by rewrite (cell_none (HK := lru_space) s m key Hok Hr : m !! fullKey s key = None).
Qed.

Lemma set_record s m key r :
  lru_ok s m -> record_width r -> sets s key (Some r) m (<[fullKey s key := encode_raw r]> m).
Proof. intros Hok Hw. exact (sets_insert (HK := lru_space) s m key r (encode_raw r) Hok (encode_raw_spec r) Hw Hw). Qed.
Lemma remove_record s m key : lru_ok s m -> sets s key None m (delete (fullKey s key) m).
Proof. exact (sets_delete (HK := lru_space) s m key). Qed.
Lemma same_record s m key : lru_ok s m -> sets s key (record_at s m key) m m.
Proof. intros Hok. split; [exact Hok|by split_and!]. Qed.

(** a callback that ends with [r] and the contents [m1] *)
Definition gives {V} (f : fn V unit) (v : V) (m : kvmap) (v1 : V) (r : result unit) (m1 : kvmap) : Prop :=
  forall e, ctx_alive e -> yields f v m e (fun v' r' m' e' => v' = v1 /\ r' = r /\ ctx_alive e' /\
    match r with Ok _ => m' = m1 | Err er => errors_is er Storage.ErrConflict = false /\ m1 = m end).

Lemma run_transaction `{BlobStore B} {V} (f : fn V unit) v m (b : B) e v1 r m1 :
  ctx_alive e -> gives f v m v1 r m1 ->
  exists e', ctx_alive e' /\ run (transaction v f) (open_kv m) b e = ((v1, r), open_kv m1, b, e').
Proof.
  intros He Hf. unfold transaction. change (retry_loop maxAttempts) with (@retry_loop V 16).
  pose proof (run_retry 15 Storage.ErrConflict v f m b e
    (fun a k' b' e' => a = (v1, r) /\ k' = open_kv m1 /\ b' = b /\ ctx_alive e') He) as Hrun.
  destruct (run (retry_loop 16 _ v f) (open_kv m) b e) as [[[a k'] b'] e'].
  destruct Hrun as (-> & -> & -> & He'); [|by exists e'].
  eapply yields_mono; [by apply Hf|]. intros v' r' m' e1 (-> & -> & He1 & Hr).
  destruct r as [[]|er]; [by subst|]. by destruct Hr as [? ->].
Qed.

Lemma run_commit `{BlobStore B} f m (b : B) e r m1 :
  ctx_alive e -> gives f tt m tt r m1 ->
  exists e', ctx_alive e' /\ run (commit f) (open_kv m) b e = (r, open_kv m1, b, e').
Proof.
  intros He Hf. unfold commit. rewrite run_bind.
  destruct (run_transaction f tt m b e tt r m1 He Hf) as (e' & He' & ->). by exists e'.
Qed.

(** start a callback that reads what [Hl] says, and decodes it by [Hu] *)
Ltac reading Hl := intros e He; apply yields_bind; unfold yields at 1, tGet;
  cbn [run_tx tx_get map_tx]; rewrite Hl; try rewrite errors_is_refl.
Ltac decoding Hu := apply yields_bind; unfold yields at 1, decodeOr; rewrite Hu; cbn [run_tx mret fn_ret].

Section callbacks.
Context (s : Store) (m : kvmap) (key : string) (Hok : lru_ok s m).

Lemma set_gives meta now :
  gives (set_fn (fullKey s key) meta now) tt m tt (Ok tt)
    (<[fullKey s key := encode_raw (match record_at s m key with
       | None => new_record meta now | Some r => updated_record meta now r end)]> m).
Proof.
  destruct (record_at s m key) as [r|] eqn:Hr.
  - destruct (read_some s m key r Hok Hr) as (raw & Hl & Hu). reading Hl. apply yields_bind. decoding Hu. by split_and!.
  - pose proof (read_none s m key Hok Hr) as Hl. reading Hl. apply yields_bind. by split_and!.
Qed.

Section present.
Context (r : record) (Hr : record_at s m key = Some r).

Lemma touch_gives now :
  gives (touch_fn (fullKey s key) now) tt m tt (Ok tt) (<[fullKey s key := encode_raw (touched now r)]> m).
Proof. destruct (read_some s m key r Hok Hr) as (raw & Hl & Hu). reading Hl. decoding Hu. by split_and!. Qed.

Lemma delete_gives : gives (delete_fn (fullKey s key)) tt m tt (Ok tt) (delete (fullKey s key) m).
Proof. destruct (read_some s m key r Hok Hr) as (raw & Hl & Hu). reading Hl. by split_and!. Qed.

Lemma get_gives now v :
  gives (get_fn (fullKey s key) now) v m (touched now r) (Ok tt)
    (<[fullKey s key := encode_raw (touched now r)]> m).
Proof.
  destruct (read_some s m key r Hok Hr) as (raw & Hl & Hu). reading Hl. decoding Hu. apply yields_bind. by split_and!.
Qed.

Lemma evict_gives v :
  Key v = key -> unchanged v r -> gives (evict_fn s v) tt m tt (Ok tt) (delete (fullKey s key) m).
Proof.
  intros Hk [H1 H2]. destruct (read_some s m key r Hok Hr) as (raw & Hl & Hu). unfold evict_fn. rewrite Hk.
  reading Hl. decoding Hu. rewrite H1, H2, !Z.eqb_refl. by split_and!.
Qed.
End present.

Section missing.
Context (Hr : record_at s m key = None).

Lemma touch_fails now : gives (touch_fn (fullKey s key) now) tt m tt (Err ErrNotFound) m.
Proof. pose proof (read_none s m key Hok Hr) as Hl. reading Hl. by split_and!. Qed.
Lemma delete_fails : gives (delete_fn (fullKey s key)) tt m tt (Err ErrNotFound) m.
Proof. pose proof (read_none s m key Hok Hr) as Hl. reading Hl. by split_and!. Qed.
End missing.
End callbacks.

(** the answer and the contents that [spec] prescribes *)
Definition as_specified (s : Store) (o : op) (now : Z) (m : kvmap) (r : result (option Entry)) (m' : kvmap) : Prop :=
  let sp := spec s o now (record_at s m (op_key o)) in r = fst sp /\ sets s (op_key o) (snd sp) m m'.

Section operations.
Context `{BlobStore B} (s : Store) (m : kvmap) (b : B) (e : env) (Hok : lru_ok s m) (He : ctx_alive e).
Let now := UnixNano (clock e (ticks e)).

Definition answers (o : op) : Prop :=
  exists r m' e', run (exec s o) (open_kv m) b e = (r, open_kv m', b, e') /\ as_specified s o now m r m'.

Lemma answers_closed o : closed s = true -> answers o.
Proof.
  intros Hc. exists (Err ErrClosed), m, e. split.
  - destruct o; unfold exec, Get, Set_, Touch, Delete, checkOpen; by rewrite Hc.
  - unfold as_specified, spec. rewrite Hc. cbn. split; [done|]. by apply same_record.
Qed.

Lemma answers_ret o r e' :
  run (exec s o) (open_kv m) b e = (r, open_kv m, b, e') ->
  spec s o now (record_at s m (op_key o)) = (r, record_at s m (op_key o)) -> answers o.
Proof. intros Hr Hs. exists r, m, e'. split; [exact Hr|]. unfold as_specified. rewrite Hs. by split; [|apply same_record]. Qed.

Lemma width_at key r : record_at s m key = Some r -> record_width r.
Proof. exact (cell_wf (HK := lru_space) s m key r Hok). Qed.

Lemma now_range : in_i64 now.
Proof. apply UnixNano_range. Qed.

(** [exec] of a commit after [r ← commit f] *)
Lemma answers_commit o f res m1 e0 :
  ctx_alive e0 -> run (exec s o) (open_kv m) b e = run (r ← commit f; mret (_ ← r; Ok None)) (open_kv m) b e0 ->
  gives f tt m tt res m1 -> as_specified s o now m (_ ← res; Ok None) m1 -> answers o.
Proof.
  intros He0 Hx Hg Hs. destruct (run_commit f m b e0 res m1 He0 Hg) as (e' & _ & Hr).
  unfold answers. rewrite Hx, run_bind, Hr. by exists (_ ← res; Ok None), m1, e'.
Qed.

Lemma answers_set key meta : closed s = false -> meta_ok meta -> answers (OpSet key meta).
Proof.
  intros Hc Hm. eapply (answers_commit (OpSet key meta) _ _ _ (tick e)); [exact He| |apply (set_gives s m key Hok meta now)|].
  - unfold exec, Set_, checkOpen. rewrite Hc. reflexivity.
  - unfold as_specified. cbn [op_key]. rewrite spec_open by done.
    destruct (record_at s m key) as [r|] eqn:Hr; (split; [done|]); apply set_record; [done| |done|];
      [apply updated_width; [|done|by eapply width_at]|apply new_width; [|done]]; apply now_range.
Qed.

Lemma answers_touch key : closed s = false -> answers (OpTouch key).
Proof.
  intros Hc. destruct (record_at s m key) as [r|] eqn:Hr.
  - eapply (answers_commit (OpTouch key) _ _ _ (tick e)); [exact He| |apply (touch_gives s m key Hok r Hr now)|].
    + unfold exec, Touch, checkOpen. rewrite Hc. reflexivity.
    + unfold as_specified. cbn [op_key]. rewrite spec_open, Hr by done. split; [done|].
      apply set_record; [done|]. apply touched_width; [apply now_range|by eapply width_at].
  - eapply (answers_commit (OpTouch key) _ _ _ (tick e)); [exact He| |apply (touch_fails s m key Hok Hr now)|].
    + unfold exec, Touch, checkOpen. rewrite Hc. reflexivity.
    + unfold as_specified. cbn [op_key]. rewrite spec_open, Hr by done. split; [done|].
      cbn [snd]. rewrite <- Hr. by apply same_record.
Qed.

Lemma answers_delete key : closed s = false -> answers (OpDelete key).
Proof.
  intros Hc. destruct (record_at s m key) as [r|] eqn:Hr.
  - eapply (answers_commit (OpDelete key) _ _ _ e); [exact He| |apply (delete_gives s m key Hok r Hr)|].
    + unfold exec, Delete, checkOpen. by rewrite Hc.
    + unfold as_specified. cbn [op_key]. rewrite spec_open, Hr by done. split; [done|]. by apply remove_record.
  - eapply (answers_commit (OpDelete key) _ _ _ e); [exact He| |apply (delete_fails s m key Hok Hr)|].
    + unfold exec, Delete, checkOpen. by rewrite Hc.
    + unfold as_specified. cbn [op_key]. rewrite spec_open, Hr by done. split; [done|].
      cbn [snd]. rewrite <- Hr. by apply same_record.
Qed.

Lemma answers_get key : closed s = false -> answers (OpGet key).
Proof.
  intros Hc. unfold answers, exec, Get, checkOpen. rewrite Hc, run_bind, run_get by done.
  unfold as_specified. cbn [op_key]. destruct (record_at s m key) as [r|] eqn:Hr.
  - destruct (read_some s m key r Hok Hr) as (raw & -> & ->). rewrite spec_open by done.
    destruct (TouchOnGet (opts s)) eqn:Ht.
    + rewrite run_now. change (clock (polled e) (ticks (polled e))) with (clock e (ticks e)). fold now. rewrite run_bind.
      destruct (run_transaction _ _ m b (tick (polled e)) _ _ _ He (get_gives s m key Hok r Hr now (touched now r)))
        as (e' & _ & ->).
      do 3 eexists. split; [reflexivity|]. split; [done|]. apply set_record; [done|].
      apply touched_width; [apply now_range|by eapply width_at].
    + do 3 eexists. split; [reflexivity|]. split; [done|]. cbn [snd]. rewrite <- Hr. by apply same_record.
  - rewrite (read_none s m key Hok Hr), errors_is_refl, spec_open by done.
    do 3 eexists. split; [reflexivity|]. split; [done|]. cbn [snd]. rewrite <- Hr. by apply same_record.
Qed.

Lemma answers_op o : op_args o -> answers o.
Proof.
  intros Ha. destruct (closed s) eqn:Hc; [by apply answers_closed|].
  destruct o as [key|key meta|key|key];
    [by apply answers_get|by apply answers_set|by apply answers_touch|by apply answers_delete].
Qed.
End operations.

(** ** The whole store *)

Section whole.
Context (s : Store).

Lemma sees_scanAll m : lru_ok s m -> sees m (scanAll s) (Ok (listed s m)).
Proof.
  intros Hok. unfold scanAll. apply sees_scan.
  change (scanEntries m (prefix_scan (Prefix (opts s)))) with (entries (HK := lru_space) s m). cbn.
  rewrite listed_entries by done. apply sees_ret.
Qed.

Lemma sees_Len m : lru_ok s m -> closed s = false -> sees m (Len s) (Ok (Z.of_nat (length (listed s m)))).
Proof.
  intros Hok Hc. unfold Len, checkOpen. rewrite Hc. eapply sees_bind; [by apply sees_scanAll|]. apply sees_ret.
Qed.

Lemma sees_GetStats m : lru_ok s m -> closed s = false ->
  sees m (GetStats s) (Ok (MkStats (Z.of_nat (length (listed s m))) (total_size (listed s m))
    (CapacityBytes (opts s)) (CapacityItems (opts s)))).
Proof.
  intros Hok Hc. unfold GetStats, checkOpen. rewrite Hc. eapply sees_bind; [by apply sees_scanAll|]. apply sees_ret.
Qed.

(** [m'] is [m] without the records of [keys] *)
Definition without_keys (keys : list string) (m m' : kvmap) : Prop :=
  lru_ok s m' /\
  (forall key, record_at s m' key = if decide (key ∈ keys) then None else record_at s m key) /\
  (forall k, has_prefix (Prefix (opts s)) k = false -> m' !! k = m !! k).

Lemma run_evict_worker vs m bm e :
  lru_ok s m -> ctx_alive e -> NoDup (Key <$> vs) ->
  (forall v, v ∈ vs -> exists r, record_at s m (Key v) = Some r /\ unchanged v r) ->
  exists m' e', ctx_alive e' /\ without_keys (Key <$> vs) m m' /\
    run (evict_worker s vs) (open_kv m) (open_blobs bm) e = ([], open_kv m', open_blobs bm, e').
Proof.
  revert m e. induction vs as [|v vs IH]; intros m e Hok He Hn Hv; cbn [evict_worker].
  { exists m, e. split; [done|]. split; [|done]. split; [done|]. by split. }
  destruct (Hv v) as (r & Hr & Hu); [by left|]. cbn in Hn. apply NoDup_cons in Hn as [Hnv Hn].
  destruct (run_commit _ m (open_blobs bm) e (Ok tt) _ He (evict_gives s m (Key v) Hok r Hr v eq_refl Hu)) as (e1 & He1 & Hr1).
  destruct (remove_record s m (Key v) Hok) as (Hok1 & Hgone & Hsame & Hout).
  destruct (IH (delete (fullKey s (Key v)) m) e1) as (m' & e' & He' & (Hok' & Hrec & Hout') & Hrun); [done..| |].
  { intros w Hw. destruct (Hv w) as (rw & Hrw & Huw); [by right|]. exists rw. split; [|done].
    rewrite <- Hrw. apply Hsame. intros E. apply Hnv. rewrite <- E. by apply list_elem_of_fmap_2. }
  exists m', e'. split; [done|]. split; [split; [done|]; split|].
  - intros key. rewrite Hrec. cbn [fmap list_fmap].
    destruct (decide (key ∈ Key <$> vs)) as [Hk|Hk]; [rewrite decide_True by set_solver; done|].
    destruct (decide (key = Key v)) as [->|Hne]; [rewrite decide_True by set_solver; exact Hgone|].
    rewrite decide_False by set_solver. by apply Hsame.
  - intros k Hk. rewrite Hout' by done. by apply Hout.
  - rewrite run_bind, Hr1, run_bind, Hrun. reflexivity.
Qed.

Lemma listed_unchanged m e : lru_ok s m -> e ∈ listed s m -> exists r, record_at s m (Key e) = Some r /\ unchanged e r.
Proof.
  intros Hok (key & r & Hr & ->)%lru_listed_elem; [|done]. exists r. split; [done|]. split; [done|].
  pose proof (cell_wf (HK := lru_space) s m key r Hok Hr) as (_ & _ & _ & Ha). cbn. by rewrite UnixNano_Unix0.
Qed.

(** the entries left when some of them are removed *)
Lemma listed_without m m' vs kept :
  lru_ok s m -> listed s m ≡ₚ vs ++ kept -> without_keys (Key <$> vs) m m' -> listed s m' ≡ₚ kept.
Proof.
  intros Hok Hp (Hok' & Hrec & _). pose proof (listed_keys s m Hok) as Hn.
  rewrite Hp, fmap_app, NoDup_app in Hn. destruct Hn as (_ & Hd & Hn).
  apply NoDup_Permutation; [by apply listed_NoDup|by eapply NoDup_fmap_1|].
  intros x. rewrite lru_listed_elem by done.
  assert (Hx : x ∈ listed s m <-> x ∈ vs \/ x ∈ kept) by (by rewrite Hp, elem_of_app).
  split.
  - intros (key & r & Hr & ->). rewrite Hrec in Hr. case_decide as Hk; [done|].
    destruct (proj1 Hx) as [Hin|]; [apply lru_listed_elem; eauto| |done]. destruct Hk.
    change key with (Key (toEntry key r)). by apply list_elem_of_fmap_2.
  - intros Hin. destruct (proj1 (lru_listed_elem s m x Hok)) as (key & r & Hr & ->); [tauto|]. exists key, r. split; [|done].
    rewrite Hrec, decide_False; [done|]. intros Hk. apply (Hd key Hk).
    change key with (Key (toEntry key r)). by apply list_elem_of_fmap_2.
Qed.

Lemma run_evictOnce sent m bm e :
  lru_ok s m -> ctx_alive e -> (length (victims s (listed s m)) <= sent)%nat ->
  exists m' e', run (evictOnce s sent) (open_kv m) (open_blobs bm) e = (Ok tt, open_kv m', open_blobs bm, e') /\
    without_keys (Key <$> victims s (listed s m)) m m'.
Proof.
  intros Hok He Hs. destruct (victims_split s (listed s m)) as (kept & Hp & _).
  destruct (sees_scanAll m Hok bm e He) as (e1 & He1 & Hr1).
  pose proof (listed_keys s m Hok) as Hn. rewrite Hp, fmap_app, NoDup_app in Hn. destruct Hn as (Hn & _).
  destruct (run_evict_worker (victims s (listed s m)) m bm e1 Hok He1 Hn) as (m' & e' & _ & Hw & Hr2).
  { intros v Hv. apply listed_unchanged; [done|]. rewrite Hp. set_solver. }
  exists m', e'. split; [|done]. unfold evictOnce. rewrite run_bind, Hr1. cbv beta iota.
  rewrite (take_ge _ _ Hs), run_bind, Hr2. reflexivity.
Qed.
End whole.
