(* ===== verification/LruProps.v ===== *)
(** * lru: the properties of the store

    The theorems about [Lru], with witnesses on concrete runs. *)
From S2P Require Import Prelude GoBase Codec Hash Storage Logic Scan.
From S2P Require Import Cells.
From S2P Require Import MemoryKV MemoryBlob Sequential Testing.
From S2P Require Import LruData Lru LruLogic LruSafe LruVictims LruSeq.
Local Open Scope Z_scope.

(** stores with the default prefix, four shards and room for two entries *)
Definition test_lru (touch : bool) : Store := MkStore (MkOptions "lru/" 4 0 2 touch 1 minute) false false.
Definition size_meta (n : Z) : EntryMeta := MkEntryMeta n unix_epoch unix_epoch.

Lemma lru_empty s : store_ok s empty_store.
Proof. apply (well_empty (HK := lru_space)). Qed.

(** ** All clients *)

(** A client of the store: an operation on an entry, a scan, one eviction, one
    of its workers on any list of victims, or the evictor. *)
Inductive lru_client (s : Store) : prog unit -> Prop :=
| lc_op o : op_args o -> lru_client s (client (exec s o))
| lc_len : lru_client s (client (Len s))
| lc_stats : lru_client s (client (GetStats s))
| lc_evict sent : lru_client s (client (evictOnce s sent))
| lc_worker vs : lru_client s (client (evict_worker s vs))
| lc_evictor ticks : lru_client s (client (evictor s ticks)).

Lemma lru_client_safe s p : lru_client s p -> safe (store_ok s) (guar s) [] p (fun _ _ => True).
Proof.
  intros [o Ha| | |sent|vs|ticks]; eapply safe_client;
    [by apply safe_lru_exec|apply safe_Len|apply safe_GetStats|apply safe_evictOnce|apply safe_evict_worker|apply safe_evictor].
Qed.

(** Any number of clients, eviction workers and evictors, interleaved at the
    granularity of storage accesses with conflicts, retries and failures, keep
    every entry of the store a well-formed record under its own key, and every
    change they make is to one record and is a creation with revision 1, an
    update or touch that advances the revision by one, or a removal; keys of
    other collections are untouched. *)
Theorem lru_clients_safe (s : Store) (ps ps' : list (prog unit)) (st st' : store) :
  store_ok s st -> Forall (lru_client s) ps -> pool_steps (store_ok s) (guar s) ps st ps' st' ->
  store_ok s st' /\ rtc (fun a b => guar s a b /\ store_ok s b) st st'.
Proof.
  intros Hok Hps Hr. apply (safe_pool _ _ _ _ _ _ Hok) in Hr; [exact Hr|].
  eapply Forall_impl; [exact Hps|]. intros p Hp. exists []. by apply lru_client_safe.
Qed.

(** a store with one entry *)
Definition one_entry (touch : bool) : kvmap := after (client (exec (test_lru touch) (OpSet "a" (size_meta 5)))).

Lemma one_entry_ok touch : lru_ok (test_lru touch) (one_entry touch).
Proof.
  destruct (safe_after (store_ok (test_lru touch)) (guar (test_lru touch)) (client (exec (test_lru touch) (OpSet "a" (size_meta 5))))
    (fun _ _ => True)) as [b Hb]; [|apply lru_empty|exact Hb].
  by apply lru_client_safe, lc_op.
Qed.

Lemma lru_clients_safe_witness :
  let s := test_lru false in
  let ps := [client (Len s); client (exec s (OpSet "a" (size_meta 5)))] in
  exists st', Forall (lru_client s) ps /\
    pool_steps (store_ok s) (guar s) ps empty_store [Ret tt; client (exec s (OpSet "a" (size_meta 5)))] st' /\
    store_ok s st'.
Proof.
  cbv zeta. set (s := test_lru false). set (p2 := client (exec s _)).
  assert (Hps : Forall (lru_client s) [client (Len s); p2]).
  { apply Forall_cons_2; [exact (lc_len s)|]. apply Forall_cons_2; [|apply Forall_nil_2]. by apply (lc_op s). }
  exists empty_store. split; [exact Hps|].
  assert (Hrun : pool_steps (store_ok s) (guar s) [client (Len s); p2] empty_store [Ret tt; p2] empty_store).
  { eapply pool_l; [|apply pool_refl].
    apply (pool_step_intro _ _ [client (Len s); p2] 0 (client (Len s)) (Ret tt)); [reflexivity|].
    exact (step_scan (prefix_scan (Prefix (opts s))) _ empty_store). }
  split; [exact Hrun|]. exact (proj1 (lru_clients_safe s _ _ _ _ (lru_empty _) Hps Hrun)).
Defined.

(** ** The operations *)

(** Under any interference, [Set], [Touch], [Delete] and [Get] without
    [TouchOnGet] take effect in at most one access to the store: on success
    that access is the operation as specified on the record it found, with no
    other record touched, and on failure nothing was changed. A [Get] with
    [TouchOnGet] either does the same, or its touch did not commit and it
    changed nothing. *)
Theorem lru_operations_linearize (s : Store) (o : op) (st st' : store) (r : result (option Entry)) (h : list access) :
  op_args o -> store_ok s st -> runs_in (store_ok s) [] (exec s o) st h (Ret r) st' ->
  match r with
  | Err _ => Forall (fun a => fst a = snd a) h
  | Ok out =>
      (exists h0 s0 s1 now, h = h0 ++ [(s0, s1)] /\ Forall (fun a => fst a = snd a) h0 /\
        spec s o now (record_at s (st_kv s0) (op_key o)) = (Ok out, record_at s (st_kv s1) (op_key o)) /\
        forall key, key <> op_key o -> record_at s (st_kv s1) key = record_at s (st_kv s0) key) \/
      (TouchOnGet (opts s) = true /\ o = OpGet (op_key o) /\ Forall (fun a => fst a = snd a) h)
  end.
Proof.
  intros Ha Hok Hr. destruct (safe_result _ _ _ _ _ _ _ _ (safe_lru_exec s o Ha) Hok Hr) as [Hs|Hs].
  - destruct r as [out|e]; [|exact Hs]. left. destruct Hs as (h0 & s0 & s1 & now & Hh & Hq & Hsp & Hset).
    exists h0, s0, s1, now. split; [done|]. split; [exact Hq|]. split; [done|]. apply Hset.
  - destruct Hs as (key & r0 & now & -> & _ & Ht & Hq & ->). by right.
Qed.

Lemma lru_operations_linearize_witness :
  let s := test_lru false in
  exists h st', op_args (OpTouch "b") /\ runs_in (store_ok s) [] (exec s (OpTouch "b")) empty_store h (Ret (Err ErrNotFound)) st' /\
    Forall (fun a => fst a = snd a) h.
Proof.
  cbv zeta. set (s := test_lru false).
  destruct (answer_runs_in (store_ok s) (exec s (OpTouch "b")) ∅ test_env) as (h & st' & Hr).
  assert (E : answer (exec s (OpTouch "b")) ∅ test_env = Err ErrNotFound) by (vm_compute; reflexivity).
  rewrite E in Hr. exists h, st'. split; [exact I|]. split; [exact Hr|].
  exact (lru_operations_linearize s (OpTouch "b") empty_store st' _ h I (lru_empty s) Hr).
Defined.



(** ** Revisions *)

Definition revision (s : Store) (m : kvmap) (key : string) : Z := from_option R 0 (record_at s m key).

(** one step of the store that does not remove the entry, whose revision has
    not reached its last value *)
Definition keeps_entry (s : Store) (key : string) (a b : store) : Prop :=
  guar s a b /\ store_ok s b /\ revision s (st_kv a) key < 2 ^ 64 - 1 /\
  (is_Some (record_at s (st_kv a) key) -> is_Some (record_at s (st_kv b) key)).

Lemma u64_next n : 0 <= n < 2 ^ 64 - 1 -> u64 (n + 1) = n + 1.
Proof. intros H. apply u64_id. unfold in_u64. lia. Qed.

Lemma revision_step s key a b : store_ok s a -> keeps_entry s key a b ->
  store_ok s b /\ (record_at s (st_kv b) key = record_at s (st_kv a) key /\ revision s (st_kv b) key = revision s (st_kv a) key \/
    revision s (st_kv a) key < revision s (st_kv b) key).
Proof.
  intros Ha (Hg & Hb & Hlt & Hk). split; [done|].
  assert (Hsame : record_at s (st_kv b) key = record_at s (st_kv a) key ->
    record_at s (st_kv b) key = record_at s (st_kv a) key /\ revision s (st_kv b) key = revision s (st_kv a) key)
    by (intros E; split; [done|]; unfold revision; by rewrite E).
  destruct Hg as [E|(key' & Hs & Hc)]; [left; apply Hsame; by rewrite E|].
  destruct (decide (key = key')) as [<-|Hne]; [|left; apply Hsame; by apply Hs].
  assert (Hw : match record_at s (st_kv a) key with Some r => in_u64 (R r) | None => True end).
  { destruct (record_at s (st_kv a) key) as [r|] eqn:Hr; [|done].
    exact (proj1 (cell_wf (HK := lru_space) s (st_kv a) key r Ha Hr)). }
  unfold revision in *. unfold in_u64 in Hw.
  destruct (record_at s (st_kv a) key) as [r|] eqn:Hr;
    inversion Hc as [r1 H1|r1 r2 H1|r1]; subst; cbn [from_option] in *.
  - right. rewrite H1, u64_next by lia. lia.
  - exfalso. destruct Hk as [x Hx]; [by exists r|]. rewrite Hx in *. done.
  - right. lia.
Qed.

(** The revision of an entry identifies its record. As long as the entry is
    not removed and its 64-bit revision does not overflow, the revision never
    decreases, and two observations of the same revision are observations of
    the same record. *)
Theorem revision_identifies (s : Store) (key : string) (st st' : store) :
  store_ok s st -> rtc (keeps_entry s key) st st' ->
  revision s (st_kv st) key <= revision s (st_kv st') key /\
  (revision s (st_kv st') key = revision s (st_kv st) key -> record_at s (st_kv st') key = record_at s (st_kv st) key).
Proof.
  apply (counter_identifies _ (store_ok s) (fun a => revision s (st_kv a) key) (fun a => record_at s (st_kv a) key)).
  intros a b. apply revision_step.
Qed.

Definition touched_entry : kvmap :=
  <[fullKey (test_lru false) "a" := encode_raw (touched 7 (MkRecord 1 5 0 0))]> (one_entry false).

Lemma touched_entry_width : record_width (touched 7 (MkRecord 1 5 0 0)).
Proof. by vm_compute. Qed.

Definition before_touch : store := Logic.MkStore (one_entry false) ∅.
Definition after_touch : store := Logic.MkStore touched_entry ∅.

Lemma touched_step : keeps_entry (test_lru false) "a" before_touch after_touch.
Proof.
  assert (Hr : record_at (test_lru false) (st_kv before_touch) "a" = Some (MkRecord 1 5 0 0)) by (vm_compute; reflexivity).
  assert (Hs : sets (test_lru false) "a" (Some (touched 7 (MkRecord 1 5 0 0))) (st_kv before_touch) (st_kv after_touch)).
  { exact (set_record (test_lru false) (one_entry false) "a" _ (one_entry_ok false) touched_entry_width). }
  assert (Hc : change (record_at (test_lru false) (st_kv before_touch) "a") (Some (touched 7 (MkRecord 1 5 0 0))))
    by (rewrite Hr; exact (change_update (MkRecord 1 5 0 0) (touched 7 (MkRecord 1 5 0 0)) eq_refl)).
  destruct (sets_change _ _ _ _ _ Hs Hc) as (Hok & Hev & E). split; [exact Hev|]. split; [exact Hok|].
  split; [unfold revision; rewrite Hr; exact (eq_refl : (1 ?= 2 ^ 64 - 1) = Lt)|].
  intros _. rewrite E. eexists. reflexivity.
Qed.

Lemma revision_identifies_witness :
  revision (test_lru false) (st_kv before_touch) "a" <= revision (test_lru false) (st_kv after_touch) "a" /\
  revision (test_lru false) (st_kv after_touch) "a" = 2.
Proof.
  split; [|vm_compute; reflexivity].
  exact (proj1 (revision_identifies (test_lru false) "a" before_touch after_touch (one_entry_ok false)
    (rtc_l _ _ _ _ touched_step (rtc_refl _ _)))).
Defined.

(** ** Victims *)

(** C20: The victims of an eviction are exactly the entries that must go: in the
    order of last access, then key, they are the shortest prefix of all
    entries whose removal satisfies both caps (sizes added in 64-bit
    arithmetic), and they do not depend on the order in which the entries were
    listed. *)
Theorem victims_minimal (s : Store) (es : list Entry) :
  (exists kept, victims s es ++ kept ≡ₚ es /\ StronglySorted older (victims s es ++ kept) /\ fits s kept = true /\
    forall pre v post, victims s es = pre ++ v :: post -> fits s (v :: post ++ kept) = false) /\
  forall es', es ≡ₚ es' -> NoDup (Key <$> es) -> victims s es' = victims s es.
Proof.
  split.
  - destruct (victims_split s es) as (kept & Hp & Hs & Hf & Hm). by exists kept.
  - intros es' Hp Hn. symmetry. by apply victims_perm.
Qed.

(** C13: Eviction under interference. Every change an eviction makes is the
    removal of a victim of its own scan whose record has at that moment still
    the revision and the access time it was scanned with: an entry touched or
    set since then is spared. *)
Theorem eviction_spares_recent (s : Store) (sent : nat) (st st' : store) (r : result unit) (h : list access) :
  store_ok s st -> runs_in (store_ok s) [] (evictOnce s sent) st h (Ret r) st' ->
  exists s0 h1, h = (s0, s0) :: h1 /\
    forall a, a ∈ h1 -> fst a <> snd a ->
      exists key old cur, toEntry key old ∈ victims s (listed s (st_kv s0)) /\
        record_at s (st_kv s0) key = Some old /\ record_at s (st_kv (fst a)) key = Some cur /\
        R cur = R old /\ A cur = A old /\
        record_at s (st_kv (snd a)) key = None /\
        forall key', key' <> key -> record_at s (st_kv (snd a)) key' = record_at s (st_kv (fst a)) key'.
Proof.
  intros Hok Hr. destruct (safe_result _ _ _ _ _ _ _ _ (safe_evictOnce s sent) Hok Hr) as (s0 & h1 & -> & Hok0 & He).
  exists s0, h1. split; [done|]. intros a Ha Hne.
  destruct (evicts_elem _ _ _ _ He Ha) as [|(v & Hv & cur & Hcur & [H1 H2] & Hs)]; [done|].
  assert (Hvic : v ∈ victims s (listed s (st_kv s0))).
  { rewrite <- (take_drop sent (victims s _)). set_solver. }
  destruct (victims_split s (listed s (st_kv s0))) as (kept & Hp & _).
  assert (Hin : v ∈ listed s (st_kv s0)) by (rewrite Hp; set_solver).
  destruct (listed_unchanged s (st_kv s0) v Hok0 Hin) as (old & Hold & Hu1 & Hu2).
  apply lru_listed_elem in Hin as (key & old' & Hold' & ->); [|done]. cbn [Key toEntry] in *.
  exists key, old, cur. assert (old' = old) as -> by congruence.
  split_and!; [done..|congruence|congruence|apply Hs|apply Hs].
Qed.

(** three entries for two places *)
Definition crowded : kvmap :=
  let s := test_lru false in
  let entry k a r := <[fullKey s k := encode_raw (MkRecord r 5 0 a)]> in
  entry "a" 30 1 (entry "b" 10 2 (entry "c" 20 1 ∅)).

Lemma crowded_ok : lru_ok (test_lru false) crowded.
Proof.
  unfold crowded. cbv zeta. repeat (apply set_record; [|by vm_compute]). apply (well_empty (HK := lru_space)).
Qed.

Lemma eviction_spares_recent_witness :
  let s := test_lru false in
  exists h st', runs_in (store_ok s) [] (evictOnce s 1) (Logic.MkStore crowded ∅) h (Ret (Ok tt)) st' /\
    Key <$> victims s (listed s crowded) = ["b"%stdpp] /\
    exists s0 h1, h = (s0, s0) :: h1.
Proof.
  cbv zeta. set (s := test_lru false).
  destruct (answer_runs_in (store_ok s) (evictOnce s 1) crowded test_env) as (h & st' & Hr).
  assert (E : answer (evictOnce s 1) crowded test_env = Ok tt) by (vm_compute; reflexivity).
  rewrite E in Hr. exists h, st'. split; [exact Hr|]. split; [vm_compute; reflexivity|].
  destruct (eviction_spares_recent s 1 (Logic.MkStore crowded ∅) st' _ h crowded_ok Hr) as (s0 & h1 & -> & _).
  by exists s0, h1.
Defined.

(** C19: An eviction that nothing interferes with restores the caps: it
    succeeds, the entries left are within both caps, none of them was used
    before an entry that was removed, and none of them was changed. *)
Theorem eviction_restores_caps (s : Store) (sent : nat) (m : kvmap) (bm : gmap string memoryBlob) (e : env) :
  lru_ok s m -> ctx_alive e -> (length (victims s (listed s m)) <= sent)%nat ->
  exists m' e', run (evictOnce s sent) (open_kv m) (open_blobs bm) e = (Ok tt, open_kv m', open_blobs bm, e') /\
    lru_ok s m' /\ fits s (listed s m') = true /\
    victims s (listed s m) ++ listed s m' ≡ₚ listed s m /\
    (forall key r, record_at s m' key = Some r -> record_at s m key = Some r) /\
    (forall v k, v ∈ victims s (listed s m) -> k ∈ listed s m' -> older v k).
Proof.
  intros Hok He Hsent. destruct (run_evictOnce s sent m bm e Hok He Hsent) as (m' & e' & Hr & Hw).
  destruct (victims_split s (listed s m)) as (kept & Hp & Hs & Hf & _).
  pose proof (listed_without s m m' _ kept Hok Hp Hw) as Hl. destruct Hw as (Hok' & Hrec & _).
  exists m', e'. split; [done|]. split; [done|]. split; [by rewrite Hl|]. split; [by rewrite Hl, <- Hp|]. split.
  - intros key r. rewrite Hrec. by case_decide.
  - intros v k Hv Hk. rewrite Hl in Hk. by apply (StronglySorted_app_1_elem_of older _ _ _ _ Hs).
Qed.

Lemma eviction_restores_caps_witness :
  let s := test_lru false in
  exists m' e', run (evictOnce s 1) (open_kv crowded) (open_blobs ∅) test_env = (Ok tt, open_kv m', open_blobs ∅, e') /\
    fits s (listed s crowded) = false /\ fits s (listed s m') = true.
Proof.
  cbv zeta. destruct (eviction_restores_caps (test_lru false) 1 crowded ∅ test_env crowded_ok (fun _ => eq_refl))
    as (m' & e' & Hr & _ & Hf & _).
  { assert (E : length (victims (test_lru false) (listed (test_lru false) crowded)) = 1%nat) by (vm_compute; reflexivity).
    rewrite E. constructor. }
  exists m', e'. split; [exact Hr|]. split; [vm_compute; reflexivity|exact Hf].
Defined.

(** ** Scans, life cycle *)

(** [Len] and [GetStats] on a store of well-formed entries report every
    entry once: the number of entries, and the sum of their sizes as an
    [int64]. *)
Theorem stats_count_entries (s : Store) (m : kvmap) (bm : gmap string memoryBlob) (e : env) :
  lru_ok s m -> closed s = false -> ctx_alive e ->
  exists es e1 e2, NoDup es /\ (forall x, x ∈ es <-> exists key r, record_at s m key = Some r /\ x = toEntry key r) /\
    run (Len s) (open_kv m) (open_blobs bm) e = (Ok (Z.of_nat (length es)), open_kv m, open_blobs bm, e1) /\
    run (GetStats s) (open_kv m) (open_blobs bm) e =
      (Ok (LruData.MkStats (Z.of_nat (length es)) (i64 (sum_sizes es)) (CapacityBytes (opts s)) (CapacityItems (opts s))),
       open_kv m, open_blobs bm, e2).
Proof.
  intros Hok Hc He. destruct (sees_Len s m Hok Hc bm e He) as (e1 & _ & H1).
  destruct (sees_GetStats s m Hok Hc bm e He) as (e2 & _ & H2). rewrite total_size_sum in H2.
  exists (listed s m), e1, e2. split; [by apply listed_NoDup|]. split; [intros x; by apply lru_listed_elem|]. by split.
Qed.

Lemma stats_count_entries_witness :
  let s := test_lru false in
  exists (es : list Entry) e1, run (Len s) (open_kv crowded) (open_blobs ∅) test_env
    = (Ok (Z.of_nat (length es)), open_kv crowded, open_blobs ∅, e1) /\ length es = 3%nat.
Proof.
  cbv zeta. destruct (stats_count_entries (test_lru false) crowded ∅ test_env crowded_ok eq_refl (fun _ => eq_refl))
    as (es & e1 & e2 & _ & _ & Hl & _).
  assert (E : fst (fst (fst (run (Len (test_lru false)) (open_kv crowded) (open_blobs ∅) test_env))) = Ok 3)
    by (vm_compute; reflexivity).
  exists es, e1. split; [exact Hl|]. rewrite Hl in E. injection E as E. lia.
Defined.

(** the calls of a store's owner *)
Inductive owner_call (s : Store) : Store -> result unit -> Prop :=
| call_start : owner_call s (fst (StartEvictor s)) (snd (StartEvictor s))
| call_close : owner_call s (fst (fst (Close s))) (snd (fst (Close s))).

(** The life cycle of a store: the evictor is started at most once and never
    after [Close], [Close] succeeds once and stops an evictor exactly if one
    was started, the options never change, and a closed store answers
    [ErrClosed] to every call without touching the engine. *)
Theorem lru_life_cycle (s : Store) :
  (snd (StartEvictor s) = (if closed s then Err ErrClosed else if started s then Err ErrEvictorRunning else Ok tt)) /\
  (snd (StartEvictor s) = Ok tt -> started (fst (StartEvictor s)) = true) /\
  (snd (fst (Close s)) = (if closed s then Err ErrClosed else Ok tt)) /\
  (snd (Close s) = negb (closed s) && started s) /\ closed (fst (fst (Close s))) = true /\
  (forall s' r, owner_call s s' r -> opts s' = opts s /\ (closed s = true -> closed s' = true /\ r = Err ErrClosed) /\
     (started s = true -> started s' = true)) /\
  (closed s = true -> (forall o, exec s o = mret (Err ErrClosed)) /\ Len s = mret (Err ErrClosed) /\
     GetStats s = mret (Err ErrClosed)).
Proof.
  destruct s as [o [] []]; cbn; (split; [done|]); (split; [done|]); (split; [done|]); (split; [done|]); (split; [done|]);
    (split; [intros s' r []; by split_and!|]); intros Hc; try discriminate Hc;
    (split; [by intros []|done]).
Qed.

(** ** Deviations *)

(** [Set] does not default a zero time. Where the documentation says that
    zero timestamps default to now, a new entry set with zero times is stored
    with -6795364578871345152 nanoseconds (in 1754) as its creation and access
    time, whatever the clock says: it becomes the first victim of the next
    eviction. *)
Theorem set_stores_zero_times (s : Store) (key : string) (size : Z) (m : kvmap) (bm : gmap string memoryBlob) (e : env) :
  in_i64 size -> closed s = false -> lru_ok s m -> ctx_alive e -> record_at s m key = None ->
  exists m' e', run (Set_ s key (MkEntryMeta size zero_time zero_time)) (open_kv m) (open_blobs bm) e
      = (Ok tt, open_kv m', open_blobs bm, e') /\
    record_at s m' key = Some (MkRecord 1 size (-6795364578871345152) (-6795364578871345152)).
Proof.
  intros Hs Hc Hok He Hn.
  destruct (answers_op s m (open_blobs bm) e Hok He (OpSet key (MkEntryMeta size zero_time zero_time)) Hs)
    as (r & m' & e' & Hr & -> & Hset).
  rewrite spec_open in Hset, Hr by done. cbn [op_key] in *. rewrite Hn in Hset, Hr. cbn [fst snd] in *.
  unfold exec in Hr. rewrite run_bind in Hr.
  destruct (run (Set_ s key _) (open_kv m) (open_blobs bm) e) as [[[[[]|er] k'] b'] e1]; [|done].
  injection Hr as -> -> ->. exists m', e'. split; [done|]. exact (proj1 (proj2 Hset)).
Qed.

Lemma set_stores_zero_times_witness :
  let s := test_lru false in
  exists m' e', run (Set_ s "z" (MkEntryMeta 5 zero_time zero_time)) (open_kv ∅) (open_blobs ∅) (later minute)
      = (Ok tt, open_kv m', open_blobs ∅, e') /\
    record_at s m' "z" = Some (MkRecord 1 5 (-6795364578871345152) (-6795364578871345152)).
Proof.
  cbv zeta. apply (set_stores_zero_times (test_lru false) "z" 5 ∅ ∅ (later minute)); [by vm_compute|done| |done|].
  - apply (well_empty (HK := lru_space)).
  - unfold record_at, cell. by rewrite lookup_empty.
Defined.

(** With [TouchOnGet], [Get] may report a revision that was never stored.
    Whatever the entry, there is an execution in which the touch fails, the
    store stays as it is, and [Get] succeeds with the next revision and a new
    access time. *)
Theorem get_reports_failed_touch (s : Store) (key : string) (r : record) (st : store) (t : time) :
  closed s = false -> TouchOnGet (opts s) = true -> store_ok s st -> record_at s (st_kv st) key = Some r ->
  exists h e, runs_in (store_ok s) [] (Get s key) st h (Ret (Ok e)) st /\
    quiet h /\ Revision e = u64 (R r + 1) /\ e = toEntry key (touched (UnixNano t) r).
Proof.
  intros Hc Ht Hok Hr. destruct (read_some s (st_kv st) key r Hok Hr) as (raw & Hl & Hu).
  exists ([] ++ [(st, st)] ++ [(st, st)] ++ [(st, st)]), (toEntry key (touched (UnixNano t) r)).
  split; [|split; [by repeat constructor|done]].
  unfold Get, checkOpen. rewrite Hc. eapply in_own; [apply step_get, get_resp_ok|]. cbv beta. rewrite Hl. cbv beta iota.
  rewrite Hu, Ht. eapply in_own; [apply (step_now _ _ t)|]. cbv beta zeta.
  eapply in_own; [apply (step_ctx _ st (Some (ctx_error Canceled)))|]. apply in_refl.
Qed.

Lemma get_reports_failed_touch_witness :
  exists h e, runs_in (store_ok (test_lru true)) [] (Get (test_lru true) "a") (Logic.MkStore (one_entry true) ∅) h
      (Ret (Ok e)) (Logic.MkStore (one_entry true) ∅) /\ Revision e = 2.
Proof.
  destruct (get_reports_failed_touch (test_lru true) "a" (MkRecord 1 5 0 0) (Logic.MkStore (one_entry true) ∅)
    unix_epoch eq_refl eq_refl (one_entry_ok true)) as (h & e & Hr & _ & Hrev & _).
  - vm_compute. reflexivity.
  - exists h, e. split; [exact Hr|exact Hrev].
Defined.

(** Two stores, one below the other's prefix: an entry of the inner one makes
    every scan of the outer one fail, and with it its evictions. *)
Theorem nested_prefixes_break_scans :
  let inner := LruData.MkStore (MkOptions "lru/a/" 16 0 0 false 1 minute) false false in
  let m := after (client (exec inner (OpSet "k" (size_meta 5)))) in
  answer (Len (test_lru false)) m test_env = Err (Plain "lru: corrupt entry key %q") /\
  answer (evictOnce (test_lru false) 1) m test_env = Err (Plain "lru: corrupt entry key %q").
Proof. vm_compute. by split. Qed.

(** ** Options *)

Lemma ends_in_slash_app p : p <> EmptyString -> ends_in_slash (p +:+ "/") = true.
Proof.
  induction p as [|a p IH]; [done|]. intros _. destruct p as [|b p]; [reflexivity|].
  by apply IH.
Qed.

(** C34: [New] accepts exactly the shard counts of a two-digit shard name. The
    options of the store it returns are complete: a prefix that ends in a
    slash, at least one shard and at most 256, at least one worker, a
    positive interval; opening a store with them again changes nothing; and
    under them every key is read back from the full key it is stored under. *)
Theorem options_are_normalised (o : Options) :
  match New o with
  | Err e => errors_is e ErrInvalidOptions = true /\ ~ (0 <= ShardCount o <= 256)
  | Ok s =>
      let o' := opts s in
      0 <= ShardCount o <= 256 /\ ends_in_slash (Prefix o') = true /\ 1 <= ShardCount o' <= 256 /\
      1 <= EvictorWorkers o' /\ 0 < EvictorInterval o' /\ New o' = Ok s /\
      forall key, (fnv32a key mod Z.to_N (ShardCount o') < 256)%N /\ userKey s (fullKey s key) = key
  end.
Proof.
  unfold New at 1. destruct ((ShardCount o <? 0) || (256 <? ShardCount o)) eqn:Hc; [split; [reflexivity|lia]|].
  cbv zeta. cbn [opts Prefix ShardCount EvictorWorkers EvictorInterval].
  set (p := if bool_decide _ then _ else _). set (n := if ShardCount o =? 0 then _ else _).
  set (w := if EvictorWorkers o <=? 0 then _ else _). set (i := if EvictorInterval o <=? 0 then _ else _).
  assert (Hp : ends_in_slash p = true).
  { subst p. case_bool_decide; [reflexivity|]. destruct (ends_in_slash (Prefix o)) eqn:E; [done|].
    by apply ends_in_slash_app. }
  assert (Hn : 1 <= n <= 256) by (subst n; destruct (ShardCount o =? 0) eqn:E; lia).
  assert (Hw : 1 <= w) by (subst w; destruct (EvictorWorkers o <=? 0) eqn:E; lia).
  assert (Hi : 0 < i) by (subst i; destruct (EvictorInterval o <=? 0) eqn:E; [reflexivity|lia]).
  split_and!; [lia|lia|done|lia|lia|done|done| |].
  - unfold New. cbn [Prefix ShardCount CapacityBytes CapacityItems TouchOnGet EvictorWorkers EvictorInterval].
    replace ((n <? 0) || (256 <? n)) with false by lia. replace (n =? 0) with false by lia.
    replace (w <=? 0) with false by lia. replace (i <=? 0) with false by lia. rewrite Hp.
    by rewrite bool_decide_false by (by intros E; rewrite E in Hp).
  - intros key. split; [|apply userKey_fullKey].
    eapply N.lt_le_trans; [apply N.mod_lt|]; lia.
Qed.
