(* ===== verification/History.v ===== *)
(** * Concurrent histories

    Callers of a collection run its operations side by side; the storage
    contract interleaves their accesses. A history records what the callers
    see, the calls and their answers, together with the accesses in between.
    [linearized] replaces the accesses of a history by the abstract actions
    they stand for: every call acts between its invocation and its return,
    exactly as its answer says, and the actions in their order are a run of
    the abstract system. The main lemma, [conc_linearized], derives it for a
    whole history from what is proved of one operation under interference. *)
From S2P Require Import Prelude GoBase Storage Logic.

(** ** Events

    A history of accesses has [A := access], one of abstract actions the type
    of these. *)
Inductive event {call answer A : Type} :=
| Invoke (i : nat) (c : call)
| Access (i : nat) (a : A)
| Return (i : nat) (x : answer)
| Outside (a : access).
Arguments event : clear implicits.

Section events.
Context {call answer A : Type}.
Implicit Types (e : event call answer A) (τ : list (event call answer A)).

Definition about (i : nat) e : Prop :=
  match e with Invoke j _ | Access j _ | Return j _ => j = i | Outside _ => False end.
#[export] Instance about_dec i e : Decision (about i e).
Proof. destruct e; cbn; apply _. Defined.

(** the events of one caller *)
Definition of_call (i : nat) τ : list (event call answer A) := filter (about i) τ.

(** what the callers see: invocations and returns *)
Definition visible τ : list (event call answer unit) :=
  omap (fun e => match e with Invoke i c => Some (Invoke i c) | Return i x => Some (Return i x) | _ => None end) τ.

(** what one caller did *)
Definition acts (i : nat) τ : list A :=
  omap (fun e => match e with Access j a => if decide (j = i) then Some a else None | _ => None end) τ.

Lemma of_call_snoc i τ e :
  of_call i (τ ++ [e]) = of_call i τ ++ (if decide (about i e) then [e] else []).
Proof. unfold of_call. by rewrite filter_app, filter_cons, filter_nil. Qed.

Lemma of_call_cons i e τ : about i e -> of_call i (e :: τ) = e :: of_call i τ.
Proof. intros H. unfold of_call. by rewrite filter_cons_True. Qed.
Lemma of_call_skip i e τ : ~ about i e -> of_call i (e :: τ) = of_call i τ.
Proof. intros H. unfold of_call. by rewrite filter_cons_False. Qed.

Lemma of_call_elem i e τ : e ∈ of_call i τ -> e ∈ τ.
Proof. by intros [_ ?]%list_elem_of_filter. Qed.

Lemma acts_of_call i τ : acts i (of_call i τ) = acts i τ.
Proof.
  unfold acts, of_call. induction τ as [|e τ IH]; [done|]. rewrite filter_cons.
  destruct e; cbn; case_decide; cbn; rewrite ?IH; try done; by rewrite decide_True.
Qed.

Lemma acts_one i c x (l : list A) :
  acts i (Invoke i c :: (Access i <$> l) ++ [Return i x]) = l.
Proof.
  unfold acts. cbn. induction l as [|a l IH]; [done|]. cbn. rewrite decide_True by done. by rewrite <- IH at 2.
Qed.
End events.

(** ** Runs of many callers *)

Section history.
Context {call answer : Type} (exec : call -> prog answer).
(** what others do to the engine meanwhile *)
Context (outside : store -> store -> Prop).


(** a caller whose operation is running, or has returned *)
Inductive caller := Running (p : prog answer) | Returned.

(** [conc s0 τ ts s]: from [s0], the callers went through [τ] and are at
    [ts], the store at [s] *)
Inductive conc (s0 : store) : list (event call answer access) -> list caller -> store -> Prop :=
| conc_start : conc s0 [] [] s0
| conc_invoke τ ts s c :
    conc s0 τ ts s -> conc s0 (τ ++ [Invoke (length ts) c]) (ts ++ [Running (exec c)]) s
| conc_access τ ts s i p p' s' :
    conc s0 τ ts s -> ts !! i = Some (Running p) -> step p s p' s' ->
    conc s0 (τ ++ [Access i (s, s')]) (<[i := Running p']> ts) s'
| conc_return τ ts s i x :
    conc s0 τ ts s -> ts !! i = Some (Running (Ret x)) ->
    conc s0 (τ ++ [Return i x]) (<[i := Returned]> ts) s
| conc_outside τ ts s s' :
    conc s0 τ ts s -> outside s s' -> conc s0 (τ ++ [Outside (s, s')]) ts s'.

(** the accesses of [τ] lead from [s] to [s'] *)
Inductive chain : store -> list (event call answer access) -> store -> Prop :=
| chain_nil s : chain s [] s
| chain_invoke s i c τ s' : chain s τ s' -> chain s (Invoke i c :: τ) s'
| chain_return s i x τ s' : chain s τ s' -> chain s (Return i x :: τ) s'
| chain_access s s1 i τ s' : chain s1 τ s' -> chain s (Access i (s, s1) :: τ) s'
| chain_outside s s1 τ s' : outside s s1 -> chain s1 τ s' -> chain s (Outside (s, s1) :: τ) s'.

Lemma chain_app s τ1 s1 τ2 s2 : chain s τ1 s1 -> chain s1 τ2 s2 -> chain s (τ1 ++ τ2) s2.
Proof. intros H1 H2. induction H1; cbn; eauto using chain. Qed.

Lemma conc_chain s0 τ ts s : conc s0 τ ts s -> chain s0 τ s.
Proof. induction 1; [constructor|eapply chain_app; eauto using chain..]. Qed.

(** one caller runs for a while *)
Lemma conc_steps s0 τ ts s i p p' s' :
  conc s0 τ ts s -> ts !! i = Some (Running p) -> steps p s p' s' ->
  exists h, conc s0 (τ ++ (Access i <$> h)) (<[i := Running p']> ts) s'.
Proof.
  intros Hc Hp Hs. revert τ ts Hc Hp. induction Hs as [p s|p s p1 s1 p2 s2 H1 _ IH]; intros τ ts Hc Hp.
  - exists []. by rewrite app_nil_r, list_insert_id.
  - edestruct IH as [h Hh]; [by eapply conc_access|by eapply list_lookup_insert_eq, lookup_lt_Some|].
    exists ((s, s1) :: h). rewrite list_insert_insert_eq, <- app_assoc in Hh. exact Hh.
Qed.

(** one caller runs to its end, alone on an engine *)
Lemma conc_complete `{KVContract K, BlobContract B} s0 τ ts i p x (k : K) (b : B) e k' b' e' :
  conc s0 τ ts (view k b) -> ts !! i = Some (Running p) -> run p k b e = (x, k', b', e') ->
  exists h, conc s0 ((τ ++ (Access i <$> h)) ++ [Return i x]) (<[i := Returned]> ts) (view k' b').
Proof.
  intros Hc Hp Hr%run_steps. destruct (conc_steps _ _ _ _ _ _ _ _ Hc Hp Hr) as [h Hh].
  exists h. rewrite <- (list_insert_insert_eq ts i Returned (Running (Ret x))).
  apply conc_return; [exact Hh|]. by eapply list_lookup_insert_eq, lookup_lt_Some.
Qed.

(** ** One caller *)

(** what an operation promises of its accesses under interference *)
Context (I : store -> Prop) (G : store -> store -> Prop).
Context (legal : call -> Prop) (post : call -> answer -> list access -> Prop).
Context (Hsafe : forall c, legal c -> safe I G [] (exec c) (post c)).
Context (Houtside : forall s s', outside s s' -> I s -> I s').

(** the events of a caller so far *)
Definition status (evs : list (event call answer access)) (i : nat) (t : option caller) : Prop :=
  match t with
  | None => evs = []
  | Some (Running p) => exists c h,
      evs = Invoke i c :: (Access i <$> h) /\ (legal c -> safe I G h p (post c))
  | Some Returned => exists c h x,
      evs = Invoke i c :: (Access i <$> h) ++ [Return i x] /\ (legal c -> post c x h)
  end.

Definition all_legal (τ : list (event call answer access)) : Prop := forall i c, Invoke i c ∈ τ -> legal c.

Lemma all_legal_app τ1 τ2 : all_legal τ1 -> all_legal τ2 -> all_legal (τ1 ++ τ2).
Proof. intros H1 H2 i c [?|?]%elem_of_app; eauto. Qed.
Lemma all_legal_invoke i c : legal c -> all_legal [Invoke i c].
Proof. by intros H j d [= -> ->]%list_elem_of_singleton. Qed.
Lemma all_legal_accesses i h : all_legal (Access i <$> h).
Proof. by intros j d (a & ? & _)%list_elem_of_fmap. Qed.
Lemma all_legal_return i x : all_legal [Return i x].
Proof. by intros j d ?%list_elem_of_singleton. Qed.
Lemma all_legal_nil : all_legal [].
Proof. by intros j d ?%not_elem_of_nil. Qed.

(** a legal history keeps the invariant, and every caller its promise *)
Lemma conc_status s0 τ ts s :
  I s0 -> conc s0 τ ts s -> all_legal τ ->
  I s /\ forall i, status (of_call i τ) i (ts !! i).
Proof.
  intros Hi Hc. induction Hc as [|τ ts s c _ IH|τ ts s i p p' s' _ IH Hp Hst|τ ts s i x _ IH Hp|τ ts s s' _ IH Ho];
    intros Hl; [done|..]; (destruct IH as [HI Hs]; [intros j cj Hj; eapply (Hl j); set_solver|]);
    rewrite ?(list_lookup_insert_is_Some) in *.
  - split; [done|]. intros j. rewrite of_call_snoc. cbn [about]. specialize (Hs j).
    destruct (decide (length ts = j)) as [<-|Hne].
    + rewrite lookup_ge_None_2 in Hs by done. rewrite list_lookup_middle by done. rewrite Hs.
      exists c, []. split; [done|]. intros ?. by apply Hsafe.
    + rewrite app_nil_r. destruct (decide (j < length ts)%nat).
      * by rewrite lookup_app_l.
      * rewrite lookup_ge_None_2 in Hs by lia.
        by rewrite lookup_ge_None_2 by (rewrite length_app; cbn; lia).
  - pose proof (Hs i) as Hsi. rewrite Hp in Hsi. destruct Hsi as (c & h & Hev & Hsf).
    assert (Hlc : legal c).
    { apply (Hl i). apply elem_of_app. left.
      eapply (of_call_elem i). rewrite Hev. set_solver. }
    destruct (safe_step _ _ _ _ _ _ _ _ HI (Hsf Hlc) Hst) as [[HI' _] Hsf'].
    split; [done|]. intros j. rewrite of_call_snoc. cbn [about].
    destruct (decide (i = j)) as [<-|Hne].
    + rewrite list_lookup_insert_eq by (by eapply lookup_lt_Some). exists c, (h ++ [(s, s')]).
      split; [|done]. by rewrite Hev, fmap_app.
    + by rewrite list_lookup_insert_ne, app_nil_r.
  - split; [done|]. intros j. rewrite of_call_snoc. cbn [about]. pose proof (Hs i) as Hsi. rewrite Hp in Hsi.
    destruct Hsi as (c & h & Hev & Hsf). destruct (decide (i = j)) as [<-|Hne].
    + rewrite list_lookup_insert_eq by (by eapply lookup_lt_Some). exists c, h, x.
      split; [by rewrite Hev|exact Hsf].
    + by rewrite list_lookup_insert_ne, app_nil_r.
  - split; [by eapply Houtside|]. intros j. rewrite of_call_snoc. cbn [about]. by rewrite app_nil_r.
Qed.
End history.

#[export] Hint Resolve all_legal_app all_legal_invoke all_legal_accesses all_legal_return all_legal_nil : s3db.

(** ** Linearization *)

(** finitely many choices are a function *)
Lemma finite_choice {A} (P : nat -> A -> Prop) (d : A) n :
  (forall i, (i < n)%nat -> exists a, P i a) -> exists f, forall i, (i < n)%nat -> P i (f i).
Proof.
  induction n as [|n IH]; intros H; [exists (fun _ => d); lia|].
  destruct IH as [f Hf]; [auto|]. destruct (H n) as [a Ha]; [lia|].
  exists (fun i => if decide (i = n) then a else f i). intros i Hi. case_decide; [by subst|]. apply Hf. lia.
Qed.

(** ** Abstract systems

    The states of an abstract collection have an equivalence, that of functions
    that agree everywhere; [acts_on] are its transitions, [abs] is the state a
    store represents, and [summary] says which actions a call stands for, given
    its answer. *)

(** the abstract states of the collections: functions from keys to records *)
#[export] Instance agree {K A} : Equiv (K -> option A) := fun σ σ' => forall key, σ key = σ' key.
#[export] Instance agree_equivalence {K A} : Equivalence (≡@{K -> option A}).
Proof. split; [by intros σ k|by intros σ σ' H k|intros σ1 σ2 σ3 H H' k; by rewrite H]. Qed.

Lemma agree_proper {K A} (P : (K -> option A) -> (K -> option A) -> Prop) :
  (forall σ σ0 σ' σ0', (forall key, σ key = σ0 key) -> (forall key, σ' key = σ0' key) -> P σ σ' -> P σ0 σ0') ->
  Proper ((≡) ==> (≡) ==> impl) P.
Proof. intros HP σ σ0 Heq σ' σ0' Heq' Hs. exact (HP _ _ _ _ Heq Heq' Hs). Qed.

Section system.
Context {call answer act state : Type} `{Equiv state, !Equivalence (≡@{state})}.
Implicit Types (σ : state) (τ : list (event call answer access)) (μ : list (event call answer act)).
Context (acts_on : act -> state -> state -> Prop).
Context (summary : call -> answer -> list act -> Prop).

Inductive spec_run : state -> list act -> state -> Prop :=
| spec_run_nil σ σ' : σ ≡ σ' -> spec_run σ [] σ'
| spec_run_cons a σ σ1 l σ' : acts_on a σ σ1 -> spec_run σ1 l σ' -> spec_run σ (a :: l) σ'.

(** the actions of a history, in their order *)
Definition actions μ : list act := omap (fun e => match e with Access _ l => Some l | _ => None end) μ.

(** [μ] explains the history [τ], in which the collection went from [σ] to
    [σ'], as a run of the abstract system: the callers see the same
    invocations and returns, in the same order; between the two, a call acts
    exactly as its answer says; nobody else acts; and the actions, in their
    order, are a run. *)
Record linearization τ μ σ σ' : Prop := {
  linz_visible : visible μ = visible τ;
  linz_calls i c x : Invoke i c ∈ τ -> Return i x ∈ τ ->
    exists l, of_call i μ = Invoke i c :: (Access i <$> l) ++ [Return i x] /\ summary c x l;
  linz_acts i l : Access i l ∈ μ -> exists c x, Invoke i c ∈ τ /\ Return i x ∈ τ;
  linz_run : spec_run σ (actions μ) σ';
}.

Context {acts_proper : forall a, Proper ((≡) ==> (≡) ==> impl) (acts_on a)}.
Context (abs : store -> state) (outside : store -> store -> Prop).
Context (outside_abs : forall s s', outside s s' -> abs s ≡ abs s').

Lemma spec_run_from σ σ0 l σ' : σ0 ≡ σ -> spec_run σ l σ' -> spec_run σ0 l σ'.
Proof.
  intros Heq Hr. destruct Hr as [σ σ' Hs|a σ σ1 l σ' Ha Hr].
  - constructor. by trans σ.
  - econstructor; [|exact Hr]. by eapply acts_proper.
Qed.

(** ** The actions of one call *)

Definition does (a : act) (s s' : store) : Prop := acts_on a (abs s) (abs s').
Definition silent (s s' : store) : Prop := abs s ≡ abs s'.

(** every access is an action, or does not change what is represented *)
Definition labelled (l : option act) (a : access) : Prop :=
  match l with Some l => does l (fst a) (snd a) | None => silent (fst a) (snd a) end.
Definition explains (ls : list (option act)) (h : list access) : Prop := Forall2 labelled ls h.

Definition acting (c : call) (x : answer) (h : list access) : Prop :=
  exists ls, explains ls h /\ summary c x (omap id ls).

(** a history of accesses that explains itself by the actions [l] *)
Definition did (l : list act) (h : list access) : Prop := exists ls, explains ls h /\ omap id ls = l.

Lemma acting_did c x l h : did l h -> summary c x l -> acting c x h.
Proof. intros (ls & He & <-) Hs. by exists ls. Qed.
Lemma did_app l1 l2 h1 h2 : did l1 h1 -> did l2 h2 -> did (l1 ++ l2) (h1 ++ h2).
Proof.
  intros (ls1 & He1 & <-) (ls2 & He2 & <-). exists (ls1 ++ ls2). rewrite omap_app.
  split; [by apply Forall2_app|done].
Qed.
Lemma did_one a s s' : does a s s' -> did [a] [(s, s')].
Proof. intros Ha. exists [Some a]. split; [|done]. by constructor. Qed.
Lemma did_nothing h : Forall (fun a => silent (fst a) (snd a)) h -> did [] h.
Proof.
  intros Hf. exists (replicate (length h) None). split.
  - unfold explains. induction Hf; constructor; auto.
  - clear. induction h as [|a h IH]; [done|exact IH].
Qed.
Lemma did_quiet h : quiet h -> did [] h.
Proof. intros Hq. apply did_nothing. eapply Forall_impl; [exact Hq|]. intros [s s'] [= ->]. unfold silent. done. Qed.

(** calls that act once, at their last access, or not at all *)
Lemma acting_last c x h s s' a :
  did [] h -> does a s s' -> summary c x [a] -> acting c x (h ++ [(s, s')]).
Proof. intros Hq Hd. apply acting_did, (did_app [] [a]); [done|by apply did_one]. Qed.
Lemma acting_none c x h : did [] h -> summary c x [] -> acting c x h.
Proof. apply acting_did. Qed.

(** ** Replacing the accesses of a history by their labels *)

Fixpoint annotate (labels : nat -> list (option act)) τ : list (event call answer act) :=
  match τ with
  | [] => []
  | Invoke i c :: τ => Invoke i c :: annotate labels τ
  | Return i x :: τ => Return i x :: annotate labels τ
  | Outside a :: τ => Outside a :: annotate labels τ
  | Access i _ :: τ =>
      match labels i with
      | [] => annotate labels τ
      | l :: ls =>
          let labels' := fun j => if decide (j = i) then ls else labels j in
          match l with Some l => Access i l :: annotate labels' τ | None => annotate labels' τ end
      end
  end.

Lemma visible_annotate labels τ : visible (annotate labels τ) = visible τ.
Proof.
  revert labels. induction τ as [|[i c|i a|i x|a] τ IH]; intros labels; cbn; [done|f_equal; apply IH| |f_equal; apply IH|apply IH].
  destruct (labels i) as [|[l|] ls]; apply IH.
Qed.

Lemma annotate_elem i l labels τ : Access i l ∈ annotate labels τ -> exists a, Access i a ∈ τ.
Proof.
  revert labels. induction τ as [|[j c|j a|j x|a] τ IH]; intros labels; cbn [annotate]; [set_solver|..].
  - intros [?|(a & Ha)%IH]%elem_of_cons; [done|]. exists a. by right.
  - destruct (labels j) as [|[l'|] ls]; [| |]; intros Hin.
    + destruct (IH _ Hin) as [b Hb]. exists b. by right.
    + apply elem_of_cons in Hin as [[= -> _]|[b Hb]%IH]; [exists a; by left|exists b; by right].
    + destruct (IH _ Hin) as [b Hb]. exists b. by right.
  - intros [?|(b & Hb)%IH]%elem_of_cons; [done|]. exists b. by right.
  - intros [?|(b & Hb)%IH]%elem_of_cons; [done|]. exists b. by right.
Qed.

Lemma of_call_annotate i labels labels' τ :
  labels i = labels' i -> of_call i (annotate labels τ) = annotate labels' (of_call i τ).
Proof.
  revert labels labels'. induction τ as [|e τ IH]; intros labels labels' Hl; [done|].
  destruct (decide (about i e)) as [Ha|Ha].
  - rewrite (of_call_cons i e) by done. destruct e as [j c|j a|j x|a]; cbn in Ha; subst; cbn [annotate]; [| | |done].
    + rewrite of_call_cons by reflexivity. f_equal. by apply IH.
    + rewrite Hl. destruct (labels' i) as [|[l|] ls] eqn:Hl'; [|rewrite of_call_cons by reflexivity; f_equal|];
        apply IH; [congruence|by rewrite !decide_True..].
    + rewrite of_call_cons by reflexivity. f_equal. by apply IH.
  - rewrite (of_call_skip i e) by done. destruct e as [j c|j a|j x|a]; cbn in Ha; cbn [annotate].
    + rewrite of_call_skip by exact Ha. by apply IH.
    + destruct (labels j) as [|[l|] ls]; [|rewrite of_call_skip by exact Ha|]; apply IH; rewrite ?decide_False by congruence; done.
    + rewrite of_call_skip by exact Ha. by apply IH.
    + rewrite of_call_skip by exact Ha. by apply IH.
Qed.

Lemma annotate_one labels i c x h :
  length (labels i) = length h ->
  annotate labels (Invoke i c :: (Access i <$> h) ++ [Return i x]) =
  Invoke i c :: (Access i <$> omap id (labels i)) ++ [Return i x].
Proof.
  cbn. intros Hl. f_equal. revert labels Hl. induction h as [|a h IH]; intros labels; cbn.
  - by destruct (labels i).
  - destruct (labels i) as [|l ls] eqn:E; [done|]. intros [= Hl].
    set (labels' := fun j => _). specialize (IH labels').
    assert (Hi : labels' i = ls) by (unfold labels'; by rewrite decide_True).
    rewrite Hi in IH. destruct l; cbn; by rewrite IH.
Qed.

Lemma run_annotate labels τ s s' :
  chain outside s τ s' -> (forall i, explains (labels i) (acts i τ)) ->
  spec_run (abs s) (actions (annotate labels τ)) (abs s').
Proof.
  intros Hc. revert labels. induction Hc as [s|s i c τ s' _ IH|s i x τ s' _ IH|s s1 i τ s' _ IH|s s1 τ s' Ho _ IH];
    intros labels Hl; cbn [annotate]; try (by apply IH); [by constructor| |].
  - pose proof (Hl i) as Hi. unfold acts in Hi. cbn in Hi. rewrite decide_True in Hi by done.
    inversion Hi as [|l ? ls ? Hla Hls E]; subst.
    assert (Hnext : forall j, explains (if decide (j = i) then ls else labels j) (acts j τ)).
    { intros j. destruct (decide (j = i)) as [->|Hne]; [exact Hls|]. specialize (Hl j).
      unfold acts in Hl. cbn in Hl. by rewrite decide_False in Hl. }
    destruct l as [l|]; cbn [labelled fst snd] in Hla.
    + econstructor; [exact Hla|]. by apply IH.
    + eapply spec_run_from; [exact Hla|]. by apply IH.
  - eapply spec_run_from; [by apply outside_abs|]. by apply (IH labels).
Qed.

(** ** From one operation to a whole history *)

Context (exec : call -> prog answer).
Context (I : store -> Prop) (G : store -> store -> Prop) (legal : call -> Prop).
Context (Hsafe : forall c, legal c -> safe I G [] (exec c) (acting c)).
Context (Houtside : forall s s', outside s s' -> I s -> I s').

Definition call_done τ (i : nat) (ls : list (option act)) : Prop :=
  exists c h x, of_call i τ = Invoke i c :: (Access i <$> h) ++ [Return i x] /\
    explains ls h /\ summary c x (omap id ls).

Lemma call_done_unique τ i ls c x :
  call_done τ i ls -> Invoke i c ∈ τ -> Return i x ∈ τ ->
  exists h, of_call i τ = Invoke i c :: (Access i <$> h) ++ [Return i x] /\
    length ls = length h /\ summary c x (omap id ls).
Proof.
  intros (c' & h & x' & Hev & He & Hs) Hc Hx.
  assert (Hin : forall e, e ∈ τ -> about i e -> e ∈ Invoke i c' :: (Access i <$> h) ++ [Return i x']).
  { intros e ? ?. rewrite <- Hev. by apply list_elem_of_filter. }
  apply Hin in Hc, Hx; [|reflexivity..]. set_unfold.
  assert (c = c') as -> by naive_solver. assert (x = x') as -> by naive_solver.
  exists h. split_and!; [done|by eapply Forall2_length|done].
Qed.

(** A history in which every call has returned can be linearized, when every
    operation keeps to its actions under interference. *)
Lemma conc_linearized s0 τ ts s :
  I s0 -> conc exec outside s0 τ ts s -> all_legal legal τ -> Forall (eq Returned) ts ->
  I s /\ exists μ, linearization τ μ (abs s0) (abs s).
Proof.
  intros Hi Hc Hl Hret.
  destruct (conc_status exec outside I G legal acting Hsafe Houtside s0 τ ts s Hi Hc Hl) as [HI Hst].
  split; [done|].
  destruct (finite_choice (call_done τ) [] (length ts)) as [f Hf].
  { intros i [t Ht]%lookup_lt_is_Some. rewrite Forall_lookup in Hret. pose proof (Hret _ _ Ht) as <-.
    specialize (Hst i). rewrite Ht in Hst. destruct Hst as (c & h & x & Hev & Hpost).
    destruct Hpost as (ls & He & Hs); [|by exists ls, c, h, x].
    apply (Hl i). eapply (of_call_elem i). rewrite Hev. set_solver. }
  set (labels := fun i => if decide (i < length ts)%nat then f i else []).
  assert (Hnone : forall i, ~ (i < length ts)%nat -> of_call i τ = []).
  { intros i Hlt. specialize (Hst i). by rewrite lookup_ge_None_2 in Hst by lia. }
  exists (annotate labels τ). constructor.
  - apply visible_annotate.
  - intros i c x Hic Hix. assert (Hlt : (i < length ts)%nat).
    { destruct (decide (i < length ts)%nat) as [|Hlt]; [done|]. apply Hnone in Hlt.
      assert (Hin : Invoke i c ∈ of_call i τ) by (by apply list_elem_of_filter). rewrite Hlt in Hin. set_solver. }
    destruct (call_done_unique _ _ _ _ _ (Hf i Hlt) Hic Hix) as (h & Hev & Hlen & Hs).
    exists (omap id (f i)). split; [|done].
    assert (Hfi : labels i = f i) by (unfold labels; by rewrite decide_True).
    rewrite (of_call_annotate i labels labels), Hev, annotate_one, Hfi by (by rewrite ?Hfi). done.
  - intros i l [a Ha]%annotate_elem. assert (Hin : Access i a ∈ of_call i τ) by (by apply list_elem_of_filter).
    destruct (decide (i < length ts)%nat) as [Hlt|Hlt]; [|rewrite Hnone in Hin by done; set_solver].
    destruct (Hf i Hlt) as (c & h & x & Hev & _). exists c, x.
    split; eapply (of_call_elem i); rewrite Hev; set_solver.
  - apply run_annotate; [by eapply conc_chain|]. intros i. unfold labels. rewrite <- acts_of_call.
    case_decide as Hlt; [|rewrite Hnone by done; constructor].
    destruct (Hf i Hlt) as (c & h & x & Hev & He & _). by rewrite Hev, acts_one.
Qed.
End system.
