(* ===== verification/CasHistory.v ===== *)
(** * cas: histories of a store

    Operations, listings and garbage collections of many callers, linearized:
    an abstract store is a function from keys to records, [acts_on] its
    transitions, and every complete history is a run of it in which each call
    acts between its invocation and its return. *)
From S2P Require Import Prelude GoBase Codec Storage Logic Scan Cells.
From S2P Require Import MemoryKV MemoryBlob Sequential Testing History.
From S2P Require Import CasData Cas CasLogic CasList.
Local Open Scope Z_scope.

(** ** The abstract store *)

Definition state : Type := string -> option Record.

Inductive act :=
| Step (o : op) (r : Record)
| Listed (opts : ListOptions) (page : Page)
| Collect (cutoff : time) (key : string).

Definition same_but_key (key : string) (σ σ' : state) : Prop :=
  forall key', key' <> key -> σ' key' = σ key'.

(** a page of the selected records, in the order of their keys *)
Definition page_of (opts : ListOptions) (σ : state) (page : Page) : Prop :=
  exists keys l, NoDup keys /\
    (forall key, key ∈ keys <-> exists r, σ key = Some r /\ selects opts key r) /\
    l ≡ₚ omap σ keys /\ StronglySorted key_le l /\ page = make_page opts l.

Definition acts_on (s : Store) (a : act) (σ σ' : state) : Prop :=
  match a with
  | Step o r =>
      (exists now, spec s o now (σ (op_key o)) = (Ok r, σ' (op_key o))) /\ same_but_key (op_key o) σ σ'
  | Listed opts page => page_of opts σ page /\ (forall key, σ' key = σ key)
  | Collect cutoff key =>
      (exists old, σ key = Some old /\ expired cutoff old = true) /\ σ' key = None /\ same_but_key key σ σ'
  end.

(** ** Calls *)

Inductive call := COp (o : op) | CList (opts : ListOptions) | CGC.
Inductive answer := AOp (r : result Record) | AList (r : result Page) | AGC (n : Z) (e : option error).

Definition exec_call (s : Store) (c : call) : prog answer :=
  match c with
  | COp o => r ← exec s o; mret (AOp r)
  | CList opts => r ← List s opts; mret (AList r)
  | CGC => r ← GC s; mret (AGC (fst r) (snd r))
  end.

(** what a call that got its answer has done *)
Definition summary (c : call) (x : answer) (l : list act) : Prop :=
  match c, x with
  | COp o, AOp (Ok r) => l = [Step o r]
  | COp _, AOp (Err _) => l = []
  | CList opts, AList (Ok page) => l = [Listed opts page]
  | CList _, AList (Err _) => l = []
  | CGC, AGC n _ => exists cutoff keys, l = Collect cutoff <$> keys /\ n = Z.of_nat (length keys)
  | _, _ => False
  end.

Definition abs (s : Store) (st : store) : state := find s (st_kv st).
Definition does (s : Store) : act -> store -> store -> Prop := History.does (acts_on s) (abs s).

(** the other collections of the engine *)
Definition elsewhere (s : Store) (st st' : store) : Prop :=
  forall k, has_prefix (storagePrefix s) k = true -> st_kv st' !! k = st_kv st !! k.

Lemma cas_elsewhere_ok s st st' : elsewhere s st st' -> store_ok s st -> store_ok s st'.
Proof. intros He Hok. by apply (well_frame (HK := cas_space) s (st_kv st)). Qed.
Lemma cas_elsewhere_abs s st st' : elsewhere s st st' -> abs s st ≡ abs s st'.
Proof. intros He key. unfold abs, find, cell. cbn [ks_key cas_space]. by rewrite (He _ (encodeKey_prefix s key)). Qed.

(** ** Operations as actions *)

Lemma listed_page s opts st : store_ok s st -> page_of opts (abs s st) (make_page opts (listed s opts (st_kv st))).
Proof.
  intros Hok. set (m := st_kv st). set (es := scanEntries m (prefix_scan (storagePrefix s))).
  set (sel := fun e => key ← decodeKey s (en_key e); r ← Unmarshal (en_value e);
    if decide (selects opts key r) then Some key else None).
  assert (Hes : forall e, e ∈ es -> exists key r, en_key e = encodeKey s key /\ find s m key = Some r /\
    pick s opts e = (if decide (selects opts key r) then Some r else None) /\
    sel e = (if decide (selects opts key r) then Some key else None)).
  { intros e He. destruct (entry_record s m e Hok He) as (key & r & Hk & Hd & Hu & Hf & _).
    exists key, r. unfold pick, sel. rewrite Hd, Hu. by split_and!. }
  exists (omap sel es), (listed s opts m). split_and!.
  - assert (Hnd : NoDup (en_key <$> es)) by apply scanEntries_NoDup.
    clearbody es. induction es as [|e es IH]; [constructor|].
    cbn in Hnd. apply NoDup_cons in Hnd as [Hne Hnd]. cbn.
    destruct (Hes e) as (key & r & Hk & Hf & _ & ->); [set_solver|].
    case_decide; [|apply IH; set_solver]. apply NoDup_cons. split; [|apply IH; set_solver].
    intros (e' & He' & Hs')%list_elem_of_omap. apply Hne.
    destruct (Hes e') as (key' & r' & Hk' & _ & _ & Hs''); [set_solver|].
    rewrite Hs'' in Hs'. case_decide; [|done]. simplify_eq. rewrite Hk, <- Hk'. by apply list_elem_of_fmap_2.
  - intros key. rewrite list_elem_of_omap. split.
    + intros (e & He & Hs). destruct (Hes e He) as (key' & r & _ & Hf & _ & Hs').
      rewrite Hs' in Hs. case_decide; [|done]. simplify_eq. eauto.
    + intros (r & Hf & Hsel). destruct (record_entry _ _ _ _ Hf) as (e & He & Hk & Hu). exists e. split; [done|].
      destruct (Hes e He) as (key' & r' & Hk' & Hf' & _ & ->). rewrite Hk in Hk'.
      apply encodeKey_inj in Hk' as <-. unfold abs in Hf. fold m in Hf. rewrite Hf in Hf'. simplify_eq.
      by rewrite decide_True.
  - unfold listed. fold es. rewrite merge_sort_Permutation. apply reflexive_eq.
    clearbody es. induction es as [|e es IH]; [done|]. cbn.
    destruct (Hes e) as (key & r & _ & Hf & -> & ->); [set_solver|].
    rewrite IH by set_solver. case_decide; [|done]. cbn. unfold abs. fold m. by rewrite Hf.
  - apply StronglySorted_merge_sort; apply _.
  - done.
Qed.

Lemma collected_acts s cutoff h :
  Forall (fun a => noop a \/ collects s cutoff a) h ->
  exists ls keys, explains (acts_on s) (abs s) ls h /\ omap id ls = Collect cutoff <$> keys /\ length keys = writes h.
Proof.
  induction 1 as [|[st st'] h Ha _ (ls & keys & He & Hk & Hl)].
  { exists [], []. by repeat constructor. }
  destruct (decide (st = st')) as [<-|Hne].
  - exists (None :: ls), keys. split_and!; [by constructor|done|].
    unfold writes. rewrite filter_cons_False; [done|]. cbn. tauto.
  - destruct Ha as [Ha|(key & old & Hf & Hx & Hs)]; [done|]. cbn in Hf, Hs.
    exists (Some (Collect cutoff key) :: ls), (key :: keys). split_and!.
    + constructor; [|done]. unfold does, History.does, abs. cbn. rewrite Hs. cbn [st_kv]. split; [by exists old|]. split.
      * apply find_absent. by rewrite lookup_delete_eq.
      * intros key' Hne'. unfold find, cell. cbn [ks_key cas_space].
        rewrite lookup_delete_ne; [done|]. by intros ?%encodeKey_inj.
    + cbn. by rewrite Hk.
    + unfold writes in *. rewrite filter_cons_True by done. cbn. by rewrite Hl.
Qed.

Lemma cas_safe_call s c : safe (store_ok s) (guar s) [] (exec_call s c) (acting (acts_on s) summary (abs s) c).
Proof.
  destruct c as [o|opts|]; cbn [exec_call]; apply safe_bind.
  - eapply safe_mono; [apply safe_exec|]. intros [r|e] h Ha; cbn [safe].
    + destruct Ha as (h0 & st & st' & now & -> & Hq & Hs & Ho).
      eapply acting_last; [by apply did_quiet| |done]. split; [by exists now|exact Ho].
    + apply acting_none; [by apply did_quiet|done].
  - eapply safe_mono; [apply safe_List|]. intros [page|e] h Ha; cbn [safe].
    + destruct Ha as (st & -> & Hok & ->).
      eapply (acting_last _ _ _ _ _ [] st st); [by apply did_nothing| |done]. split; [by apply listed_page|done].
    + apply acting_none; [by apply did_quiet|done].
  - eapply safe_mono; [apply safe_GC|]. intros [n e] h (now & -> & Hf). cbn [safe].
    destruct (collected_acts _ _ _ Hf) as (ls & keys & He & Hk & Hl).
    exists ls. split; [done|]. rewrite Hk. exists (Add now (- retention s)), keys. split; [done|]. by rewrite Hl.
Qed.

(** ** Whole histories *)

Lemma page_of_agree opts σ σ0 page :
  (forall key, σ key = σ0 key) -> page_of opts σ page -> page_of opts σ0 page.
Proof.
  intros Heq (keys & l & Hnd & Hk & Hp & Hl). exists keys, l. split_and!; [done| | |apply Hl..].
  - intros k. rewrite Hk. by setoid_rewrite Heq.
  - rewrite Hp. apply reflexive_eq. clear -Heq. induction keys as [|k keys IH]; [done|]. cbn. by rewrite Heq, IH.
Qed.

#[local] Instance acts_on_proper s a : Proper ((≡) ==> (≡) ==> impl) (acts_on s a).
Proof.
  apply agree_proper. intros σ σ0 σ' σ0' Heq Heq'. destruct a as [o r|opts page|cutoff key]; cbn; unfold same_but_key.
  - setoid_rewrite <- Heq. by setoid_rewrite <- Heq'.
  - intros [Hp Hs]. split; [by apply (page_of_agree _ σ)|]. intros k. by rewrite <- Heq', <- Heq.
  - setoid_rewrite <- Heq. by setoid_rewrite <- Heq'.
Qed.

(** C1: Linearizability of whole histories. Any number of callers create, read,
    swap, update, delete, list and collect garbage, interleaved at the
    granularity of storage accesses with conflicts, retries and failures, while
    other collections use the engine. Once all calls have returned, there is
    one sequence of actions that is a run of the abstract store from the first
    contents to the last, in which every successful operation or listing
    happens once, between its invocation and its return, with exactly the
    answer it gave; a failed one does not happen; and a collection removes as
    many expired tombstones as it reports. *)
Theorem cas_histories_linearizable (s : Store) (st st' : store) (τ : list (event call answer access))
    (ts : list (@caller answer)) :
  store_ok s st -> conc (exec_call s) (elsewhere s) st τ ts st' -> Forall (eq Returned) ts ->
  exists μ : list (event call answer act),
    linearization (acts_on s) summary τ μ (abs s st) (abs s st').
Proof.
  intros Hok Hc Hret.
  destruct (conc_linearized (acts_on s) summary (abs s) (elsewhere s) (cas_elsewhere_abs s) (exec_call s) (store_ok s) (guar s) (fun _ => True)
    (fun c _ => cas_safe_call s c) (cas_elsewhere_ok s) st τ ts st' Hok Hc (fun _ _ _ => I) Hret) as (_ & μ & Hμ).
  by exists μ.
Qed.

(** two callers create the same key; the second one to come wins *)
Definition race_store : Store := New "jobs" [].
Definition race (i : nat) : call := COp (OpCreate "a" (if decide (i = 0%nat) then "first" else "second")).
Definition race_run (i : nat) (k : MemoryKV) : answer * MemoryKV * MemoryBlobStore * env :=
  run (exec_call race_store (race i)) k NewMemoryBlobStore test_env.

Lemma cas_histories_linearizable_witness :
  exists st' τ ts (μ : list (event call answer act)),
    conc (exec_call race_store) (elsewhere race_store) empty_store τ ts st' /\ Forall (eq Returned) ts /\
    Return 0%nat (AOp (Err ErrExists)) ∈ τ /\
    linearization (acts_on race_store) summary τ μ (abs race_store empty_store) (abs race_store st').
Proof.
  destruct (race_run 1 NewMemoryKV) as [[[x1 k1] b1] e1] eqn:E1.
  destruct (run (exec_call race_store (race 0)) k1 b1 test_env) as [[[x0 k0] b0] e0] eqn:E0.
  assert (Hx : x0 = AOp (Err ErrExists)).
  { assert (Hk : k1 = snd (fst (fst (race_run 1 NewMemoryKV)))) by (by rewrite E1).
    assert (Hb : b1 = snd (fst (race_run 1 NewMemoryKV))) by (by rewrite E1).
    assert (H0 : fst (fst (fst (run (exec_call race_store (race 0)) k1 b1 test_env))) = AOp (Err ErrExists))
      by (rewrite Hk, Hb; vm_compute; reflexivity).
    by rewrite E0 in H0. }
  pose proof (conc_invoke (exec_call race_store) (elsewhere race_store) empty_store _ _ _ (race 1)
    (conc_invoke _ _ _ _ _ _ (race 0) (conc_start _ _ _))) as Hc.
  replace empty_store with (view NewMemoryKV NewMemoryBlobStore) in Hc at 2 by reflexivity.
  destruct (conc_complete _ _ _ _ _ 1 _ _ NewMemoryKV NewMemoryBlobStore _ _ _ _ Hc eq_refl E1) as [h1 Hc1].
  destruct (conc_complete _ _ _ _ _ 0 _ _ _ _ _ _ _ _ Hc1 eq_refl E0) as [h0 Hend].
  destruct (cas_histories_linearizable race_store empty_store _ _ _ (well_empty (HK := cas_space) race_store) Hend
    ltac:(repeat constructor)) as (μ & Hμ).
  do 3 eexists. exists μ. split; [exact Hend|]. split; [by repeat constructor|]. rewrite Hx.
  split; [apply elem_of_app; right; by apply list_elem_of_singleton|].
  rewrite <- Hx. exact Hμ.
Defined.
