(* ===== verification/LruHistory.v ===== *)
(** * lru: histories of a store

    Sets, gets, touches, deletions, statistics and evictions of many callers,
    linearized: an abstract store is a function from keys to records. *)
From S2P Require Import Prelude GoBase Codec Hash Storage Logic Scan.
From S2P Require Import Cells.
From S2P Require Import MemoryKV MemoryBlob Sequential Testing History.
From S2P Require Import LruData Lru LruLogic LruSafe LruProps.
Local Open Scope Z_scope.

(** ** The abstract store *)

Definition state : Type := string -> option record.

Inductive act :=
| Step (o : op) (out : option Entry)
| Scanned (es : list Entry)
| Evict (victim : Entry).

Definition same_but_key (key : string) (σ σ' : state) : Prop :=
  forall key', key' <> key -> σ' key' = σ key'.

(** all entries, each once *)
Definition all_entries (σ : state) (es : list Entry) : Prop :=
  NoDup (Key <$> es) /\ forall e, e ∈ es <-> exists key r, σ key = Some r /\ e = toEntry key r.

Definition acts_on (s : Store) (a : act) (σ σ' : state) : Prop :=
  match a with
  | Step o out =>
      (exists now, spec s o now (σ (op_key o)) = (Ok out, σ' (op_key o))) /\ same_but_key (op_key o) σ σ'
  | Scanned es => all_entries σ es /\ (forall key, σ' key = σ key)
  | Evict v =>
      (exists r, σ (Key v) = Some r /\ unchanged v r) /\ σ' (Key v) = None /\ same_but_key (Key v) σ σ'
  end.

(** ** Calls *)

Inductive call := COp (o : op) | CStats | CEvict (sent : nat).
Inductive answer := AOp (r : result (option Entry)) | AStats (r : result Stats) | AEvict (r : result unit).

Definition exec_call (s : Store) (c : call) : prog answer :=
  match c with
  | COp o => r ← exec s o; mret (AOp r)
  | CStats => r ← GetStats s; mret (AStats r)
  | CEvict sent => r ← evictOnce s sent; mret (AEvict r)
  end.

Definition legal (c : call) : Prop := match c with COp o => op_args o | _ => True end.

(** what a call that got its answer has done; a [Get] whose touch did not
    commit answers without having acted *)
Definition summary (s : Store) (c : call) (x : answer) (l : list act) : Prop :=
  match c, x with
  | COp o, AOp (Ok out) => l = [Step o out] \/
      l = [] /\ TouchOnGet (opts s) = true /\
        exists key r now, o = OpGet key /\ out = Some (toEntry key (touched now r))
  | COp _, AOp (Err _) => l = []
  | CStats, AStats (Ok st) => exists es, l = [Scanned es] /\
      st = LruData.MkStats (Z.of_nat (length es)) (total_size es) (CapacityBytes (opts s)) (CapacityItems (opts s))
  | CStats, AStats (Err _) => l = []
  | CEvict sent, AEvict _ => exists es vs, l = Scanned es :: (Evict <$> vs) /\
      vs `sublist_of` take sent (victims s es)
  | _, _ => False
  end.

Definition abs (s : Store) (st : store) : state := record_at s (st_kv st).
Definition does (s : Store) : act -> store -> store -> Prop := History.does (acts_on s) (abs s).

(** the other collections of the engine *)
Definition elsewhere (s : Store) (st st' : store) : Prop :=
  forall k, has_prefix (Prefix (opts s)) k = true -> st_kv st' !! k = st_kv st !! k.

Lemma lru_elsewhere_ok s st st' : elsewhere s st st' -> store_ok s st -> store_ok s st'.
Proof. intros He Hok. by apply (well_frame (HK := lru_space) s (st_kv st)). Qed.
Lemma lru_elsewhere_abs s st st' : elsewhere s st st' -> abs s st ≡ abs s st'.
Proof.
  intros He key. unfold abs, record_at, cell. cbn [ks_key lru_space]. by rewrite (He _ (fullKey_prefix s key)).
Qed.

#[local] Instance acts_on_proper s a : Proper ((≡) ==> (≡) ==> impl) (acts_on s a).
Proof.
  apply agree_proper. intros σ σ0 σ' σ0' Heq Heq'. destruct a as [o out|es|v]; cbn; unfold same_but_key, all_entries.
  - setoid_rewrite <- Heq. by setoid_rewrite <- Heq'.
  - intros [[Hn He] Hs]. split; [split; [done|]; by setoid_rewrite <- Heq|]. intros k. by rewrite <- Heq', <- Heq.
  - setoid_rewrite <- Heq. by setoid_rewrite <- Heq'.
Qed.

(** ** Operations as actions *)

Lemma does_scan s st : store_ok s st -> does s (Scanned (listed s (st_kv st))) st st.
Proof.
  intros Hok. split; [|done]. split; [by apply listed_keys|]. intros e. by apply lru_listed_elem.
Qed.

Lemma does_evict s v a : removes s v a -> does s (Evict v) (fst a) (snd a).
Proof. intros (r & Hr & Hu & _ & Hn & Ho & _). split; [by exists r|]. split; [exact Hn|exact Ho]. Qed.

Lemma took_effect_acts s o out h :
  took_effect s o out h -> acting (acts_on s) (summary s) (abs s) (COp o) (AOp (Ok out)) h.
Proof.
  intros (h0 & st & st' & now & -> & Hq & Hs & (_ & _ & Ho & _)).
  eapply acting_last; [by apply did_quiet| |by left]. split; [by exists now|exact Ho].
Qed.

(** a scan of the whole store *)
Lemma safe_scan {A} s (k : result (list Entry) -> prog A) Q :
  (forall st, store_ok s st -> safe (store_ok s) (guar s) [(st, st)] (k (Ok (listed s (st_kv st)))) Q) ->
  (forall st e, safe (store_ok s) (guar s) [(st, st)] (k (Err e)) Q) ->
  safe (store_ok s) (guar s) [] (r ← scanAll s; k r) Q.
Proof.
  intros Hk He. unfold scanAll. intros st Hok. rewrite app_nil_l. split; [|intros e; apply He].
  change (scanEntries (st_kv st) (prefix_scan (Prefix (opts s)))) with (entries (HK := lru_space) s (st_kv st)).
  cbn. rewrite listed_entries by done. by apply Hk.
Qed.

Lemma lru_safe_call s c : legal c ->
  safe (store_ok s) (guar s) [] (exec_call s c) (acting (acts_on s) (summary s) (abs s) c).
Proof.
  intros Hl. destruct c as [o| |sent]; cbn [exec_call]; apply safe_bind.
  - eapply safe_mono; [by apply safe_lru_exec|]. intros r h [Ha|Ha]; cbn [safe mret prog_ret].
    + destruct r as [out|e]; [by apply took_effect_acts|by apply acting_none; [apply did_quiet|]].
    + destruct Ha as (key & r0 & now & -> & _ & Ht & Hq & ->). apply acting_none; [by apply did_quiet|].
      right. split; [done|]. split; [done|]. by exists key, r0, now.
  - unfold GetStats. destruct (checkOpen s); [|apply acting_none; [by apply did_quiet; constructor|done]].
    apply safe_scan; cbn [safe mret prog_ret].
    + intros st Hok. eapply (acting_last _ _ _ _ _ [] st st); [by apply did_nothing|by apply does_scan|].
      by exists (listed s (st_kv st)).
    + intros st e. apply acting_none; [by apply did_quiet; repeat constructor|done].
  - eapply safe_mono; [apply safe_evictOnce|]. intros r h (st & h1 & -> & Hok & ls & Hsub & Hf). cbn [safe mret prog_ret].
    set (es := listed s (st_kv st)) in *.
    exists (Some (Scanned es) :: (option_map Evict <$> ls)). split.
    + constructor; [by apply does_scan|]. clear -Hf. unfold explains.
      induction Hf as [|[v|] a ls h Ha _ IH]; cbn; constructor; try done; [by apply does_evict|].
      cbn in Ha |- *. unfold silent. by rewrite Ha.
    + exists es, (omap id ls). split; [|done]. cbn. f_equal.
      clear. induction ls as [|[v|] ls IH]; cbn; [done|by f_equal|exact IH].
Qed.

(** ** Whole histories *)


(** an entry is set while an eviction of the crowded store is under way *)
Definition busy : Store := test_lru false.
Definition busy_set : call := COp (OpSet "d" (size_meta 5)).

