(* ===== verification/QueueHistory.v ===== *)
(** * queue: histories of a queue

    Producers, workers, operators and maintenance, linearized: an abstract
    queue is a function from job IDs to records, and every complete history is
    a run of it in which each call takes its steps of the job state machine
    between its invocation and its return. *)
From S2P Require Import Prelude GoBase Codec Storage Logic Cells.
From S2P Require Import MemoryKV MemoryBlob Sequential Testing History.
From S2P Require Import QueueData Queue QueueLogic QueueSafe QueueProps.
Local Open Scope Z_scope.

(** ** The abstract queue *)

Definition state : Type := string -> option jobMeta.

Inductive act :=
| Move (id : string) (l : label) (new : option jobMeta)
| Take (now : time) (d : duration) (j : jobMeta)
| Look (id : string) (seen : option jobMeta)
| ListedDead (ids : list string)
| Reap (now : time) (completed : list jobMeta).

Definition same_but (id : string) (σ σ' : state) : Prop := forall id', id' <> id -> σ' id' = σ id'.

(** the first of the available jobs *)
Definition first_of (σ : state) (now : time) (j : jobMeta) : Prop :=
  ready now j /\ forall id j', σ id = Some j' -> ready now j' -> ~ job_lt j' j.

Definition acts_on (a : act) (σ σ' : state) : Prop :=
  match a with
  | Move id l new => moves l (σ id) new /\ σ' id = new /\ same_but id σ σ'
  | Take now d j =>
      (exists old tok, σ (ID j) = Some old /\ first_of σ now old /\ String.length tok = 32%nat /\
         j = claim_job old now d tok) /\
      σ' (ID j) = Some j /\ same_but (ID j) σ σ'
  | Look id seen => σ id = seen /\ forall id', σ' id' = σ id'
  | ListedDead ids =>
      StronglySorted str_lt ids /\ (forall id, id ∈ ids <-> exists j, σ id = Some j /\ State j = stateDead) /\
      forall id', σ' id' = σ id'
  | Reap now cs =>
      Forall (fun c => exists id, σ id = Some c /\ State c = stateCompleted) cs /\
      forall id, σ' id = reaped now <$> σ id
  end.

#[local] Instance acts_on_proper a : Proper ((≡) ==> (≡) ==> impl) (acts_on a).
Proof.
  apply agree_proper. intros σ σ0 σ' σ0' Heq Heq'.
  destruct a as [id l new|now d j|id seen|ids|now cs]; cbn; unfold same_but, first_of;
    setoid_rewrite <- Heq; by setoid_rewrite <- Heq'.
Qed.

(** ** Calls *)

Inductive call :=
| CEnqueue (r : reader) (size : Z) (opts : EnqueueOptions)
| CClaim (d : duration)
| CRenew (j : jobMeta) (d : duration)
| CRetry (j : jobMeta) (delay : duration)
| CDead (j : jobMeta)
| CComplete (j : jobMeta)
| CListDead
| CRequeue (id : string)
| CReap.

Inductive answer :=
| AEnqueue (r : result (string * bool))
| AClaim (r : result jobMeta)
| ARenew (r : result unit) (j : jobMeta)
| ARetry (dead : bool) (r : result unit)
| ADone (r : result unit)
| AListDead (r : result (list string)).

Definition exec_call (q : Queue) (c : call) : prog answer :=
  match c with
  | CEnqueue r size opts => x ← EnqueueReader q r size opts; mret (AEnqueue x)
  | CClaim d => x ← Claim q d; mret (AClaim x)
  | CRenew j d => x ← Renew q j d; mret (ARenew (fst x) (snd x))
  | CRetry j delay => x ← Retry q j delay; mret (ARetry (fst x) (snd x))
  | CDead j => x ← Dead q j; mret (ADone x)
  | CComplete j => x ← Complete q j; mret (ADone x)
  | CListDead => x ← ListDead q; mret (AListDead x)
  | CRequeue id => x ← RequeueDead q id; mret (ADone x)
  | CReap => x ← reapExpired q; mret (ADone x)
  end.

Definition legal (q : Queue) (c : call) : Prop :=
  match c with
  | CEnqueue r _ opts => enqueue_args q opts r
  | CComplete j => handle q j
  | _ => True
  end.

(** the two halves of [Complete]: the holder marks the job, or finds it
    completed or gone; then it removes it, or finds it gone *)
Definition marked (j : jobMeta) (l : list act) : Prop :=
  (exists now new, State new = stateCompleted /\ l = [Move (ID j) (LComplete (LeaseToken j) now) (Some new)]) \/
  (exists old, State old = stateCompleted /\ LeaseToken old = LeaseToken j /\ l = [Look (ID j) (Some old)]) \/
  l = [Look (ID j) None].
Definition removal (j : jobMeta) : act := Move (ID j) (LCleanup (LeaseToken j)) None.
Definition removed (j : jobMeta) (l : list act) : Prop := l = [removal j] \/ l = [Look (ID j) None].

(** what a call that got its answer has done *)
Definition summary (q : Queue) (c : call) (x : answer) (l : list act) : Prop :=
  match c, x with
  | CEnqueue r size opts, AEnqueue (Ok (id, true)) =>
      id_for q opts id /\ rd_err r = None /\ (0 <= size -> Z.of_nat (String.length (rd_data r)) = size) /\
      exists pkey now, l = [Move id LEnqueue (Some (new_job q opts id pkey (rd_data r) now))]
  | CEnqueue _ _ opts, AEnqueue (Ok (id, false)) => id_for q opts id /\ l = []
  | CEnqueue _ _ _, AEnqueue (Err _) => l = []
  | CClaim d, AClaim (Ok j) => exists now, l = [Take now (lease_for q d) j]
  | CClaim _, AClaim (Err _) => l = []
  | CRenew j d, ARenew (Ok _) j' => exists now until new, j' = set_LeaseUntil until j /\
      LeaseUntil new = until /\ l = [Move (ID j) (LRenew (LeaseToken j) now) (Some new)]
  | CRenew _ _, ARenew (Err _) _ => l = []
  | CRetry j _, ARetry dead (Ok _) => exists now new,
      State new = (if dead then stateDead else statePending) /\
      l = [Move (ID j) (LRelease (LeaseToken j) now) (Some new)]
  | CRetry _ _, ARetry _ (Err _) => l = []
  | CDead j, ADone (Ok _) => exists now new,
      State new = stateDead /\ l = [Move (ID j) (LRelease (LeaseToken j) now) (Some new)]
  | CDead _, ADone (Err _) => l = []
  | CComplete j, ADone (Ok _) => exists l1 l2, marked j l1 /\ removed j l2 /\ l = l1 ++ l2
  | CComplete j, ADone (Err _) => l = [] \/ marked j l
  | CListDead, AListDead (Ok ids) => l = [ListedDead ids]
  | CListDead, AListDead (Err _) => l = []
  | CRequeue id, ADone (Ok _) => exists new, l = [Move id LRequeue (Some new)]
  | CRequeue _, ADone (Err _) => l = []
  | CReap, ADone (Ok _) => exists now cs js, l = Reap now cs :: (removal <$> js) /\ js `sublist_of` cs
  | CReap, ADone (Err _) => l = []
  | _, _ => False
  end.

Definition abs (q : Queue) (st : store) : state := job q (st_kv st).

(** the other collections of the engine *)
Definition elsewhere (q : Queue) (st st' : store) : Prop :=
  forall k, has_prefix (qprefix q) k = true -> st_kv st' !! k = st_kv st !! k.

Lemma queue_elsewhere_ok q st st' : elsewhere q st st' -> store_ok q st -> store_ok q st'.
Proof. intros He Hok. by apply (well_frame (HK := job_space) q (st_kv st)). Qed.
Lemma queue_elsewhere_abs q st st' : elsewhere q st st' -> abs q st ≡ abs q st'.
Proof. intros He id. unfold abs, job, cell. cbn [ks_key job_space]. by rewrite (He _ (metaKey_prefix q id)). Qed.

(** ** Operations as actions *)

Section operations.
Context (q : Queue).
Notation did := (History.did acts_on (abs q)).
Notation does := (History.does acts_on (abs q)).

Lemma queue_kv_quiet h : kv_quiet h -> did [] h.
Proof.
  intros Hh. apply did_nothing. eapply Forall_impl; [exact Hh|]. intros [s s'] Heq id. cbn in *.
  unfold abs. by rewrite Heq.
Qed.

(** a call whose one action was its last access, and one that did nothing *)
Lemma done_last c x h st st' a :
  kv_quiet h -> does a st st' -> summary q c x [a] -> acting acts_on (summary q) (abs q) c x (h ++ [(st, st')]).
Proof. intros Hh. apply acting_last. by apply queue_kv_quiet. Qed.
Lemma done_none c x h : kv_quiet h -> summary q c x [] -> acting acts_on (summary q) (abs q) c x h.
Proof. intros Hh. apply acting_none. by apply queue_kv_quiet. Qed.

Lemma does_move id l old new st st' :
  moves l (Some old) (Some new) -> steps_to q id old new (st_kv st) (st_kv st') -> does (Move id l (Some new)) st st'.
Proof. intros Hl (Ho & Hn & Hs). split; [unfold abs; by rewrite Ho|]. by split. Qed.

Lemma does_turn id l st st' c :
  turns q id l (st_kv st) (st_kv st') -> job q (st_kv st') id = c -> does (Move id l c) st st'.
Proof. intros [Hl Ho] <-. by split. Qed.

Lemma does_removal j st st' :
  turns q (ID j) (LCleanup (LeaseToken j)) (st_kv st) (st_kv st') -> does (removal j) st st'.
Proof. intros Ht. apply does_turn; [done|]. destruct Ht as [Hl _]. by inversion Hl. Qed.

Lemma does_look id st st' : st_kv st' = st_kv st -> does (Look id (job q (st_kv st) id)) st st'.
Proof. intros E. split; [done|]. intros id'. unfold abs. by rewrite E. Qed.

Lemma does_mark j st st' :
  marks q j (st_kv st) (st_kv st') -> exists l, did l [(st, st')] /\ marked j l.
Proof.
  unfold marks. destruct (job q (st_kv st) (ID j)) as [old|] eqn:E.
  - intros [(Hs & Ht & Hm)|(now & new & _ & Hs & Hl & Hst)].
    + exists [Look (ID j) (Some old)]. split; [|right; left; eauto].
      apply did_one. rewrite <- E. by apply does_look.
    + eexists. split; [|left; eauto]. apply did_one. by eapply does_move.
  - intros Hm. exists [Look (ID j) None]. split; [|by right; right]. apply did_one. rewrite <- E. by apply does_look.
Qed.

Lemma does_clean j st st' :
  cleans q j (st_kv st) (st_kv st') -> exists l, did l [(st, st')] /\ removed j l.
Proof.
  intros [Hj [Hm|Ht]].
  - exists [Look (ID j) None]. split; [|by right]. apply did_one. rewrite <- Hj, Hm. by apply does_look.
  - exists [removal j]. split; [|by left]. apply did_one. by apply does_removal.
Qed.

Lemma did_sweeps cs h : sweeps q cs h -> exists js, did (removal <$> js) h /\ js `sublist_of` cs.
Proof.
  induction 1 as [|j cs h h' Hh _ (js & Hd & Hs)|j cs h st st' h' Hh Ht _ (js & Hd & Hs)].
  - exists []. split; [by apply did_nothing|done].
  - exists js. split; [by apply (did_app _ _ [] _ _ _ (queue_kv_quiet _ Hh))|by apply sublist_cons].
  - exists (j :: js). split; [|by apply sublist_skip].
    apply (did_app _ _ [removal j]); [|done]. apply (did_app _ _ []); [by apply queue_kv_quiet|].
    apply did_one. by apply does_removal.
Qed.

(** the holder's operations *)
Lemma acted_acts j L P r h c x :
  acted q j L P r h ->
  (forall e, r = Err e -> summary q c x []) ->
  (forall now old new, r = Ok tt -> P now old new ->
     summary q c x [Move (ID j) (L (LeaseToken j) now) (Some new)]) ->
  acting acts_on (summary q) (abs q) c x h.
Proof.
  intros Ha He Ho. destruct r as [[]|e].
  - destruct Ha as (h0 & st & st' & now & old & new & -> & Hq & _ & Hl & Hst & HP).
    apply (done_last _ _ _ _ _ (Move (ID j) (L (LeaseToken j) now) (Some new))); [auto with s3db| |by eauto].
    by eapply does_move.
  - apply done_none; [by apply quiet_kv_quiet|by eauto].
Qed.
End operations.

Lemma safe_call_claim q d :
  safe (store_ok q) (guar q) [] (exec_call q (CClaim d)) (acting acts_on (summary q) (abs q) (CClaim d)).
Proof.
  cbn [exec_call]; apply safe_bind.
  eapply safe_mono; [apply safe_Claim|]. intros [j|e] h Ha; cbn [safe mret prog_ret].
  + destruct Ha as (h0 & st & st' & -> & Hq & now & old & tok & [Hr Hf] & Hlen & Hj & _ & Ho & Hn & Hs).
    injection Hj as ->. eapply done_last; [by apply quiet_kv_quiet| |by exists now].
    split; [|by split]. exists old, tok. by split_and!.
  + apply done_none; [by apply quiet_kv_quiet|done].
Qed.

Lemma safe_call_complete q j :
  handle q j -> safe (store_ok q) (guar q) [] (exec_call q (CComplete j)) (acting acts_on (summary q) (abs q) (CComplete j)).
Proof.
  intros Hl. cbn [exec_call]; apply safe_bind.
  eapply safe_mono; [by apply safe_Complete|]. intros [[]|e] h Ha; cbn [safe mret prog_ret].
  + destruct Ha as (h1 & s1 & s1' & h2 & s2 & s2' & -> & Hq1 & Hq2 & Hm & Hc).
    apply does_mark in Hm as (l1 & Hd1 & Hm). apply does_clean in Hc as (l2 & Hd2 & Hc).
    apply (acting_did _ _ _ _ _ (l1 ++ l2)); [|by exists l1, l2].
    apply (did_app _ _ [] _ _ _ (did_quiet _ _ _ Hq1)), did_app; [done|].
    by apply (did_app _ _ [] _ _ _ (queue_kv_quiet _ _ Hq2)).
  + destruct Ha as [Hq|(h1 & s1 & s1' & h2 & -> & Hq1 & Hq2 & Hm)].
    { apply done_none; [by apply quiet_kv_quiet|by left]. }
    apply does_mark in Hm as (l1 & Hd1 & Hm).
    apply (acting_did _ _ _ _ _ (l1 ++ [])); [|rewrite app_nil_r; by right].
    apply (did_app _ _ [] _ _ _ (did_quiet _ _ _ Hq1)), did_app; [done|by apply queue_kv_quiet].
Qed.

Lemma safe_call_reap q  :
  safe (store_ok q) (guar q) [] (exec_call q (CReap)) (acting acts_on (summary q) (abs q) (CReap)).
Proof.
  cbn [exec_call]; apply safe_bind.
  eapply safe_mono; [apply safe_reapExpired|]. intros [[]|e] h Ha; cbn [safe mret prog_ret].
  + destruct Ha as (h1 & st & st' & h2 & now & cs & -> & Hq & Hr & Hc & Hsw).
    apply did_sweeps in Hsw as (js & Hd & Hs).
    apply (acting_did _ _ _ _ _ (Reap now cs :: (removal <$> js))); [|by exists now, cs, js].
    apply (did_app _ _ [] _ _ _ (did_quiet _ _ _ Hq)), (did_app _ _ [_]); [by apply did_one|done].
  + apply done_none; [by apply quiet_kv_quiet|done].
Qed.

Lemma queue_safe_call q c : legal q c ->
  safe (store_ok q) (guar q) [] (exec_call q c) (acting acts_on (summary q) (abs q) c).
Proof.
  intros Hl. destruct c as [r size opts|d|j d|j delay|j|j| |id|].
  9: apply safe_call_reap.
  6: by apply safe_call_complete.
  2: apply safe_call_claim.
  all: cbn [exec_call]; apply safe_bind.
  - eapply safe_mono; [by apply safe_EnqueueReader|]. intros [[id []]|e] h Ha; cbn [safe mret prog_ret].
    + destruct Ha as (Hid & h0 & st & st' & pkey & now & -> & Hq & Hr & Hs & _ & Hj & Ht).
      eapply done_last; [done|by eapply does_turn|]. split_and!; [done..|]. by exists pkey, now.
    + destruct Ha as [Hid Hq]. by apply done_none.
    + by apply done_none.
  - eapply safe_mono; [apply safe_Renew|]. intros [r j'] h Ha; cbn [safe mret prog_ret fst snd] in *.
    eapply acted_acts; [exact Ha|by intros e ->|]. intros now old new -> (u & -> & ->). exists now, u, (set_UpdatedAt now (set_LeaseUntil u old)).
    split; [reflexivity|by split].
  - eapply safe_mono; [apply safe_Retry|]. intros [dead r] h Ha; cbn [safe mret prog_ret fst snd] in *.
    eapply acted_acts; [exact Ha|by intros e ->|]. intros now old new -> (_ & Hs). by exists now, new.
  - eapply safe_mono; [apply safe_Dead|]. intros r h Ha; cbn [safe mret prog_ret].
    eapply acted_acts; [exact Ha|by intros e ->|]. intros now old new -> Hs. by exists now, new.
  - eapply safe_mono; [apply safe_ListDead|]. intros [ids|e] h Ha; cbn [safe mret prog_ret].
    + destruct Ha as (st & -> & Hs & Hids). eapply (done_last _ _ _ [] st st); [constructor| |done].
      by split_and!.
    + apply done_none; [by apply quiet_kv_quiet|done].
  - eapply safe_mono; [apply safe_RequeueDead|]. intros [[]|e] h Ha; cbn [safe mret prog_ret].
    + destruct Ha as (h0 & st & st' & old & new & -> & Hq & Hm & Hst & _).
      eapply done_last; [by apply quiet_kv_quiet|by eapply does_move|by exists new].
    + apply done_none; [by apply quiet_kv_quiet|done].
Qed.

(** ** Whole histories *)


