(* ===== verification/TreeHistory.v ===== *)
(** * tree: histories of a tree

    Writers, readers, lease holders and garbage collectors, linearized: an
    abstract tree is a function from places (refs, leases, nodes, manifests) to
    items, and every complete history is a run of it in which each call acts
    between its invocation and its return. *)
From S2P Require Import Prelude GoBase Utf8 Codec Hash Storage Logic.
From S2P Require Import Cells.
From S2P Require Import MemoryKV MemoryBlob Sequential Testing History.
From S2P Require Import TreeData Tree TreeLogic TreeSafe TreeSeq TreeProps.
Local Open Scope Z_scope.

(** ** The abstract tree *)

Definition state : Type := place -> option item.

Definition version_of (σ : state) (name : string) : Z :=
  match σ (PRef name) with Some (IRef r) => rf_Version r | _ => 0 end.
Definition token_of (σ : state) (name : string) : Z :=
  match σ (PLease name) with Some (ILease l) => ls_Token l | _ => 0 end.

(** [Fenced] is an action while the token is the current one of the lease *)
Inductive act :=
| Swap (name nodeID : string) (expect : Z)
| Drop (name : string) (expect : Z)
| Acquire (name : string) (token : Z)
| Release (name : string) (token : Z)
| Put (p : place) (x : item)
| Publish (hash : string) (mf : Manifest)
| Look (p : place) (seen : option item)
| Remove (p : place)
| RemoveAll (ps : list place)
| Fenced (lease : string) (token : Z) (a : act).

Definition same_but (p : place) (σ σ' : state) : Prop := forall p', p' <> p -> σ' p' = σ p'.

Fixpoint acts_on (a : act) (σ σ' : state) : Prop :=
  match a with
  | Swap name nodeID expect =>
      is_Some (σ (PNode nodeID)) /\ version_of σ name = expect /\
      σ' (PRef name) = Some (IRef (MkRef (sanitize name) nodeID (u64 (expect + 1)))) /\ same_but (PRef name) σ σ'
  | Drop name expect =>
      is_Some (σ (PRef name)) /\ version_of σ name = expect /\ σ' (PRef name) = None /\ same_but (PRef name) σ σ'
  | Acquire name t =>
      t = u64 (token_of σ name + 1) /\
      σ' (PLease name) = Some (ILease (MkLease (sanitize name) t)) /\ same_but (PLease name) σ σ'
  | Release name t =>
      is_Some (σ (PLease name)) /\ token_of σ name = t /\ σ' (PLease name) = None /\ same_but (PLease name) σ σ'
  | Put p x => σ' p = Some x /\ same_but p σ σ'
  | Publish hash mf =>
      σ (PManifest hash) = None /\ σ' (PManifest hash) = Some (IManifest mf) /\ same_but (PManifest hash) σ σ'
  | Look p seen => σ p = seen /\ forall p', σ' p' = σ p'
  | Remove p => σ' p = None /\ same_but p σ σ'
  | RemoveAll ps => forall p, σ' p = if decide (p ∈ ps) then None else σ p
  | Fenced lease t a => is_Some (σ (PLease lease)) /\ token_of σ lease = t /\ acts_on a σ σ'
  end.

#[local] Instance acts_on_proper a : Proper ((≡) ==> (≡) ==> impl) (acts_on a).
Proof.
  apply agree_proper. intros σ σ0 σ' σ0' Heq Heq'.
  induction a as [| | | | | | | | |lease t a IH]; cbn; unfold same_but, version_of, token_of.
  10: { intros (Hl & Ht & Ha). split; [by rewrite <- Heq|]. split; [by rewrite <- Heq|]. by apply IH. }
  9: { intros Hs p. by rewrite <- Heq', <- Heq. }
  all: repeat setoid_rewrite <- Heq; by try setoid_rewrite <- Heq'.
Qed.

(** ** Calls *)

Inductive call :=
| CPutBlob (hash : string) (r : reader) (opts : PutOptions)
| CStatBlob (hash : string)
| CGetBlob (hash : string) (start end_ : Z)
| CPutNode (n : Node)
| CGetNode (id : string)
| CGetRef (name : string)
| CSwap (name nodeID : string) (expect : Z)
| CSwapFenced (lease : string) (token : Z) (name nodeID : string) (expect : Z)
| CDelete (name : string) (expect : Z)
| CDeleteFenced (lease : string) (token : Z) (name : string) (expect : Z)
| CAcquire (name : string)
| CCheckFence (name : string) (token : Z)
| CRelease (lease : Lease)
| CPlan (fuel : nat)
| CSweep (plan : GCPlan)
| CSweepFenced (lease : string) (token : Z) (plan : GCPlan).

Inductive answer :=
| APutBlob (r : result Manifest)
| AStatBlob (r : result Manifest)
| AGetBlob (r : result reader)
| APutNode (r : result string)
| AGetNode (r : result Node)
| ARef (r : result Ref)
| ASwapFenced (out : Ref) (r : result unit)
| ALease (r : result Lease)
| ADone (r : result unit)
| APlan (r : option (result GCPlan)).

Definition exec_call (c : call) : prog answer :=
  match c with
  | CPutBlob hash r opts => x ← PutBlob hash r opts; mret (APutBlob x)
  | CStatBlob hash => x ← StatBlob hash; mret (AStatBlob x)
  | CGetBlob hash a b => x ← GetBlob hash a b; mret (AGetBlob x)
  | CPutNode n => x ← PutNode n; mret (APutNode x)
  | CGetNode id => x ← GetNode id; mret (AGetNode x)
  | CGetRef name => x ← GetRef name; mret (ARef x)
  | CSwap name nodeID expect => x ← CompareAndSwapRef name nodeID expect; mret (ARef x)
  | CSwapFenced lease t name nodeID expect =>
      x ← CompareAndSwapRefFenced lease t name nodeID expect; mret (ASwapFenced (fst x) (snd x))
  | CDelete name expect => x ← DeleteRef name expect; mret (ADone x)
  | CDeleteFenced lease t name expect => x ← DeleteRefFenced lease t name expect; mret (ADone x)
  | CAcquire name => x ← AcquireLease name; mret (ALease x)
  | CCheckFence name t => x ← CheckFence name t; mret (ADone x)
  | CRelease lease => x ← ReleaseLease lease; mret (ADone x)
  | CPlan fuel => x ← PlanGC fuel; mret (APlan x)
  | CSweep plan => x ← SweepGC plan; mret (ADone x)
  | CSweepFenced lease t plan => x ← SweepGCFenced lease t plan; mret (ADone x)
  end.

Definition legal (c : call) : Prop :=
  match c with
  | CPutBlob _ _ opts => in_i64 (po_Size opts)
  | CPutNode n => node_valid n
  | _ => True
  end.

(** a read that found [x], or that found nothing; other errors are those of
    the engine *)
Definition saw {A} (p : place) (inj : A -> item) (r : result A) (l : list act) : Prop :=
  match r with
  | Ok x => l = [Look p (Some (inj x))]
  | Err e => e = ErrNotFound /\ l = [Look p None] \/ engine_error e /\ l = []
  end.

(** what a call that got its answer has done; the manifest that [PutBlob]
    publishes need not be the one it returns, when its transaction was
    retried *)
Definition summary (c : call) (x : answer) (l : list act) : Prop :=
  match c, x with
  | CPutBlob expected r opts, APutBlob (Ok mf) =>
      let hash := sha256_hex (rd_data r) in
      (expected = EmptyString \/ expected = hash) /\
      (l = [Look (PManifest hash) (Some (IManifest mf))] \/
       exists size key, l = [Publish hash (stored (new_manifest opts hash size key))])
  | CPutBlob _ _ _, APutBlob (Err _) => l = []
  | CStatBlob hash, AStatBlob r => saw (PManifest hash) IManifest r l
  | CGetBlob _ _ _, AGetBlob _ => l = []
  | CPutNode n, APutNode (Ok id) => id = NodeID n /\ l = [Put (PNode id) (INode (sorted_node n))]
  | CPutNode _, APutNode (Err _) => l = []
  | CGetNode id, AGetNode r => saw (PNode id) INode r l
  | CGetRef name, ARef r => saw (PRef name) IRef r l
  | CSwap name nodeID expect, ARef (Ok r) =>
      rf_NodeID r = nodeID /\ rf_Version r = u64 (expect + 1) /\ l = [Swap name nodeID expect]
  | CSwap _ _ _, ARef (Err _) => l = []
  | CSwapFenced lease t name nodeID expect, ASwapFenced r (Ok _) =>
      rf_NodeID r = nodeID /\ rf_Version r = u64 (expect + 1) /\ l = [Fenced lease t (Swap name nodeID expect)]
  | CSwapFenced _ _ _ _ _, ASwapFenced _ (Err _) => l = []
  | CDelete name expect, ADone (Ok _) => l = [Drop name expect]
  | CDelete _ _, ADone (Err _) => l = []
  | CDeleteFenced lease t name expect, ADone (Ok _) => l = [Fenced lease t (Drop name expect)]
  | CDeleteFenced _ _ _ _, ADone (Err _) => l = []
  | CAcquire name, ALease (Ok ls) => l = [Acquire name (ls_Token ls)]
  | CAcquire _, ALease (Err _) => l = []
  | CCheckFence name t, ADone (Ok _) => exists ls, ls_Token ls = t /\ l = [Look (PLease name) (Some (ILease ls))]
  | CCheckFence name t, ADone (Err e) =>
      e = ErrNotFound /\ l = [Look (PLease name) None] \/
      e = ErrFenced /\ (exists ls, ls_Token ls <> t /\ l = [Look (PLease name) (Some (ILease ls))]) \/
      engine_error e /\ l = []
  | CRelease lease, ADone (Ok _) => l = [Release (ls_Name lease) (ls_Token lease)]
  | CRelease _, ADone (Err _) => l = []
  | CPlan _, APlan _ => l = []
  | CSweep plan, ADone r => exists ps, l = Remove <$> ps /\ ps `prefix_of` plan_places plan /\
      (r = Ok tt -> ps = plan_places plan)
  | CSweepFenced lease t plan, ADone (Ok _) => l = [Fenced lease t (RemoveAll (plan_places plan))]
  | CSweepFenced lease t plan, ADone (Err _) => l = [] \/ l = [Fenced lease t (RemoveAll (plan_places plan))]
  | _, _ => False
  end.

Definition abs (st : store) : state := content (st_kv st).

(** the other collections of the engine *)
Definition elsewhere (st st' : store) : Prop :=
  forall k, is_ref k \/ is_lease k \/ is_node k \/ is_manifest k -> st_kv st' !! k = st_kv st !! k.

Lemma tree_elsewhere_ok st st' : elsewhere st st' -> store_ok st -> store_ok st'.
Proof.
  intros He [? ? ? ?]. unfold elsewhere, is_ref, is_lease, is_node, is_manifest in He.
  constructor; eapply (well_frame tt (st_kv st)); eauto; intros k Hk; apply He; cbn [ks_prefix ref_space lease_space node_space manifest_space] in Hk; tauto.
Qed.
Lemma tree_elsewhere_abs st st' : elsewhere st st' -> abs st ≡ abs st'.
Proof.
  intros He p. unfold elsewhere, is_ref, is_lease, is_node, is_manifest in He.
  destruct p as [n|n|n|n]; cbn [abs content]; f_equal; symmetry; unfold abs, content;
    unfold ref_at, lease_at, node_at, manifest_at, cell; cbn [ks_key ref_space lease_space node_space manifest_space];
    (rewrite He; [done|]); rewrite !has_prefix_app; tauto.
Qed.

(** ** Operations as actions *)

Lemma version_content m name : version_of (content m) name = version m name.
Proof. unfold version_of, version. cbn [content]. by destruct (ref_at m name). Qed.
Lemma token_content m name : token_of (content m) name = token m name.
Proof. unfold token_of, token. cbn [content]. by destruct (lease_at m name). Qed.
Lemma content_some m p :
  match p with
  | PRef n => is_Some (ref_at m n) | PLease n => is_Some (lease_at m n)
  | PNode n => is_Some (node_at m n) | PManifest n => is_Some (manifest_at m n)
  end -> is_Some (content m p).
Proof. destruct p; cbn [content]; by rewrite fmap_is_Some. Qed.

Notation did := (History.did acts_on abs).
Notation acted := (acting acts_on summary abs).

Lemma tree_kv_quiet h : kv_quiet h -> did [] h.
Proof.
  intros Hh. apply did_nothing. eapply Forall_impl; [exact Hh|]. intros [s s'] Heq p. cbn in *.
  unfold abs. by rewrite Heq.
Qed.
Lemma tree_none c x h : kv_quiet h -> summary c x [] -> acted c x h.
Proof. intros Hh. apply acting_none. by apply tree_kv_quiet. Qed.

(** one action between accesses that leave the metadata alone *)
Lemma tree_once c x h0 st st' h1 a :
  kv_quiet h0 -> kv_quiet h1 -> acts_on a (abs st) (abs st') -> summary c x [a] -> acted c x (h0 ++ (st, st') :: h1).
Proof.
  intros H0 H1 Ha. apply acting_did. apply (did_app _ _ [] _ _ _ (tree_kv_quiet _ H0)).
  apply (did_app _ _ [a] [] [(st, st')]); [by apply did_one|by apply tree_kv_quiet].
Qed.

(** an operation that is one transaction *)
Lemma committed_acts {A} (P : kvmap -> A -> kvmap -> Prop) (act_of : A -> act) r h c x :
  committed P r h ->
  (forall a m m', r = Ok a -> P m a m' -> acts_on (act_of a) (content m) (content m') /\ summary c x [act_of a]) ->
  (forall e, r = Err e -> summary c x []) -> acted c x h.
Proof.
  intros Hc Ho He. destruct r as [a|e].
  - destruct Hc as (h0 & m & m' & b & -> & Hq & _ & HP). destruct (Ho a m m' eq_refl HP) as [Ha Hs].
    eapply tree_once; [by apply quiet_kv_quiet|constructor|exact Ha|exact Hs].
  - apply tree_none; [by apply quiet_kv_quiet|by eapply He].
Qed.

Lemma swapped_acts name nodeID expect m out m' :
  swapped name nodeID expect m out m' -> acts_on (Swap name nodeID expect) (content m) (content m').
Proof.
  intros (Hn & Hv & _ & _ & Hr & Ho). cbn [acts_on]. rewrite version_content. split_and!; [by apply content_some|done| |exact Ho].
  cbn [content]. by rewrite Hr.
Qed.
Lemma dropped_acts name expect m m' :
  dropped name expect m m' -> acts_on (Drop name expect) (content m) (content m').
Proof.
  intros (Hn & Hv & Hr & Ho). cbn [acts_on]. rewrite version_content. split_and!; [by apply content_some|done| |exact Ho].
  cbn [content]. by rewrite Hr.
Qed.
Lemma acquired_acts name m out m' :
  acquired name m out m' -> acts_on (Acquire name (ls_Token out)) (content m) (content m').
Proof.
  intros (Ht & Hl & Ho). cbn [acts_on]. rewrite token_content. split_and!; [done| |exact Ho].
  cbn [content]. by rewrite Hl, Ht.
Qed.
Lemma released_acts lease m m' :
  released lease m m' -> acts_on (Release (ls_Name lease) (ls_Token lease)) (content m) (content m').
Proof.
  intros (Hl & Ht & Hn & Ho). cbn [acts_on]. rewrite token_content. split_and!; [by apply content_some|done| |exact Ho].
  cbn [content]. by rewrite Hn.
Qed.
Lemma fenced_acts lease t a m m' :
  is_Some (lease_at m lease) -> token m lease = t -> acts_on a (content m) (content m') ->
  acts_on (Fenced lease t a) (content m) (content m').
Proof. intros Hl Ht Ha. cbn [acts_on]. rewrite token_content. split_and!; [by apply content_some|done|done]. Qed.

Lemma swept_acts plan m m' : sweep_done plan m m' -> acts_on (RemoveAll (plan_places plan)) (content m) (content m').
Proof.
  intros -> p. unfold plan_places.
  assert (Hin : forall q, q ∈ (PNode <$> pl_Nodes plan) ++ (PManifest <$> pl_Blobs plan) <->
    match q with PNode n => n ∈ pl_Nodes plan | PManifest n => n ∈ pl_Blobs plan | _ => False end).
  { intros q. rewrite elem_of_app, !list_elem_of_fmap. destruct q; naive_solver. }
  destruct p as [n|n|n|n]; cbn [content].
  - rewrite decide_False by (rewrite Hin; tauto). unfold ref_at, cell. cbn [ks_key ref_space].
    by rewrite !without_apart by by apply apart_dec.
  - rewrite decide_False by (rewrite Hin; tauto). unfold lease_at, cell. cbn [ks_key lease_space].
    by rewrite !without_apart by by apply apart_dec.
  - rewrite node_without. case_bool_decide; [rewrite decide_True|rewrite decide_False]; by rewrite ?Hin.
  - rewrite manifest_without. case_bool_decide; [rewrite decide_True|rewrite decide_False]; rewrite ?Hin; try done.
    unfold manifest_at, cell. cbn [ks_key manifest_space]. by rewrite without_apart by by apply apart_dec.
Qed.

Lemma removes_acts ps h : removes ps h -> did (Remove <$> ps) h.
Proof.
  induction 1 as [h Hh|p ps h st st' h' Hh Hc Ho _ IH]; [by apply tree_kv_quiet|].
  apply (did_app _ _ [] _ _ _ (tree_kv_quiet _ Hh)), (did_app _ _ [Remove p] _ [_]); [|exact IH].
  apply did_one. by split.
Qed.

(** reading one record *)
Lemma decoded_seen {A} `{GoJSON A} (HK : KeySpace unit A) bad id m r :
  well (HK := HK) tt m -> get_resp m (ks_key tt id) r ->
  match decoded ErrNotFound bad r with
  | Ok a => cell (HK := HK) tt m id = Some a /\ ks_wf tt id a
  | Err e => e = ErrNotFound /\ cell (HK := HK) tt m id = None \/ engine_error e
  end.
Proof.
  intros Hw [|e He].
  - unfold kv_lookup, cell. destruct (m !! ks_key tt id) as [raw|] eqn:E; cbn [decoded mbind option_bind].
    + destruct (Hw _ _ E (ks_key_prefix tt id)) as (id' & a & Hk & Hm & Ha & Hwf).
      apply ks_key_inj in Hk as <-. by rewrite (Unmarshal_Marshal a raw Ha Hm).
    + rewrite errors_is_refl. by left.
  - cbn [decoded]. unfold engine_error in He. rewrite He. by right.
Qed.

(** a program that is one read *)
Lemma safe_look {A} `{GoJSON A} {B} (HK : KeySpace unit A) bad id (f : result A -> B) Q :
  (forall st r, well (HK := HK) tt (st_kv st) -> store_ok st ->
     match r with
     | Ok a => cell (HK := HK) tt (st_kv st) id = Some a /\ ks_wf tt id a
     | Err e => e = ErrNotFound /\ cell (HK := HK) tt (st_kv st) id = None \/ engine_error e
     end -> Q (f r) [(st, st)]) ->
  (forall m, tree_ok m -> well (HK := HK) tt m) ->
  safe store_ok guar [] (KvGet (ks_key tt id) (fun r => mret (f (decoded ErrNotFound bad r)))) Q.
Proof.
  intros HQ Hw s r Hs Hr. cbn [safe mret prog_ret]. apply HQ; [by apply Hw|done|].
  eapply decoded_seen; [by apply Hw|exact Hr].
Qed.

Lemma look_acts {A} (p : place) (inj : A -> item) st (r : result A) (o : option A) c x :
  content (st_kv st) p = inj <$> o ->
  match r with Ok a => o = Some a | Err e => e = ErrNotFound /\ o = None \/ engine_error e end ->
  (forall l, saw p inj r l -> summary c x l) -> acted c x [(st, st)].
Proof.
  intros Hc Hr Hs. assert (Hone : acts_on (Look p (inj <$> o)) (abs st) (abs st)) by by split.
  assert (Hlook : saw p inj r [Look p (inj <$> o)] -> acted c x [(st, st)]).
  { intros Hsaw. apply (tree_once _ _ [] _ _ [] (Look p (inj <$> o))); [constructor|constructor|exact Hone|by apply Hs]. }
  destruct r as [a|e]; cbn [saw] in *.
  - subst o. by apply Hlook.
  - destruct Hr as [[-> ->]|He]; [apply Hlook; by left|]. apply tree_none; [by apply kv_quiet_one|]. apply Hs. by right.
Qed.

Lemma safe_call_put_blob hash r opts :
  in_i64 (po_Size opts) -> safe store_ok guar [] (exec_call (CPutBlob hash r opts)) (acted (CPutBlob hash r opts)).
Proof.
  intros Hl. cbn [exec_call]; apply safe_bind.
  eapply safe_mono; [by apply safe_PutBlob|]. intros [mf|e] h Ho; cbn [safe mret prog_ret]; [|by apply tree_none].
  destruct Ho as (He & h0 & st & st' & h1 & -> & H0 & H1 & _ & Hm).
  destruct (manifest_at (st_kv st) (sha256_hex (rd_data r))) as [prior|] eqn:E.
  + destruct Hm as [-> Hk]. apply (tree_once _ _ _ _ _ _ (Look (PManifest (sha256_hex (rd_data r))) (Some (IManifest prior)))); [done|done| |].
    * split; [unfold abs; cbn [content]; by rewrite E|]. intros p. unfold abs. by rewrite Hk.
    * split; [exact He|by left].
  + destruct Hm as (Ho & size & key & Hm).
    apply (tree_once _ _ _ _ _ _ (Publish (sha256_hex (rd_data r)) (stored (new_manifest opts (sha256_hex (rd_data r)) size key)))); [done|done| |].
    * split; [unfold abs; cbn [content]; by rewrite E|]. split; [unfold abs; cbn [content]; by rewrite Hm|exact Ho].
    * split; [exact He|right; by exists size, key].
Qed.

Lemma safe_call_put_node n :
  node_valid n -> safe store_ok guar [] (exec_call (CPutNode n)) (acted (CPutNode n)).
Proof.
  intros Hl. cbn [exec_call]; apply safe_bind.
  eapply safe_mono; [by apply safe_PutNode|]. intros [id|e] h Ho; cbn [safe mret prog_ret].
  + destruct Ho as (-> & m & m' & b & -> & Hn & Ho).
    apply (tree_once _ _ [] _ _ [] (Put (PNode (NodeID n)) (INode (sorted_node n)))); [constructor|constructor| |done].
    split; [unfold abs; cbn [content st_kv]; by rewrite Hn|exact Ho].
  + apply tree_none; [by apply quiet_kv_quiet|done].
Qed.

Lemma safe_call_get_node id :
  safe store_ok guar [] (exec_call (CGetNode id)) (acted (CGetNode id)).
Proof.
  cbn [exec_call]; apply safe_bind.
  apply (safe_look node_space _ id (fun r => n ← r; if bool_decide (NodeID n = id) then Ok n else Err (Plain _)));
    [|by intros m []].
  intros st r _ Hok Hr. cbn [safe mret prog_ret].
  assert (Hf : (n ← r; if bool_decide (NodeID n = id) then Ok n
                else Err (Plain "tree: node id mismatch: got %s, want %s")) = r).
  { destruct r as [n|e]; [|done]. destruct Hr as [_ [Hn _]]. cbn. by rewrite bool_decide_true. }
  rewrite Hf. apply (look_acts (PNode id) INode _ r (node_at (st_kv st) id)); [done| |done].
  destruct r; [apply Hr|exact Hr].
Qed.

Lemma safe_call_check_fence name t :
  safe store_ok guar [] (exec_call (CCheckFence name t)) (acted (CCheckFence name t)).
Proof.
  cbn [exec_call]; apply safe_bind.
  apply (safe_look lease_space _ name (fun r => l ← r; if negb (ls_Token l =? t) then Err ErrFenced else Ok tt));
    [|by intros m []].
  intros st r _ Hok Hr. cbn [safe mret prog_ret].
  apply (look_acts (PLease name) ILease _ r (lease_at (st_kv st) name)); [done|destruct r; [apply Hr|exact Hr]|].
  intros l Hsaw. destruct r as [ls|e]; cbn in Hsaw |- *.
  + destruct (Z.eqb_spec (ls_Token ls) t) as [Ht|Ht]; cbn [negb]; [by exists ls|]. right. left. split; [done|]. by exists ls.
  + destruct Hsaw as [?|?]; auto.
Qed.

Lemma safe_call_sweep_fenced lease t plan :
  safe store_ok guar [] (exec_call (CSweepFenced lease t plan)) (acted (CSweepFenced lease t plan)).
Proof.
  cbn [exec_call]; apply safe_bind.
  eapply safe_mono; [apply safe_SweepGCFenced|]. intros r h Hs. cbn [safe mret prog_ret].
  destruct Hs as [[Hq Hr]|(h0 & m & m' & b & h1 & -> & H0 & H1 & Hlease & Ht & Hd)].
  + apply tree_none; [done|]. destruct r as [[]|e]; [done|by left].
  + apply (tree_once _ _ _ _ _ _ (Fenced lease t (RemoveAll (plan_places plan)))); [done|done| |].
    * apply fenced_acts; [done|done|by apply swept_acts].
    * destruct r as [[]|e]; [done|by right].
Qed.

Lemma tree_safe_call c : legal c -> safe store_ok guar [] (exec_call c) (acted c).
Proof.
  intros Hl. destruct c as [hash r opts|hash|hash a b|n|id|name|name nodeID x|lease t name nodeID x|name x
    |lease t name x|name|name t|lease|fuel|plan|lease t plan].
  16: apply safe_call_sweep_fenced.
  12: apply safe_call_check_fence.
  5: apply safe_call_get_node.
  4: by apply safe_call_put_node.
  1: by apply safe_call_put_blob.
  all: cbn [exec_call]; apply safe_bind.
  - apply (safe_look manifest_space _ hash (fun r => r)); [|by intros m []].
    intros st r _ Hok Hr. cbn [safe mret prog_ret].
    apply (look_acts (PManifest hash) IManifest _ r (manifest_at (st_kv st) hash)); [done| |done].
    destruct r; [apply Hr|exact Hr].
  - eapply safe_mono; [apply readonly_GetBlob; constructor|]. intros r h Hq. cbn [safe mret prog_ret].
    apply tree_none; [by apply quiet_kv_quiet|done].
  - apply (safe_look ref_space _ name (fun r => r)); [|by intros m []].
    intros st r _ Hok Hr. cbn [safe mret prog_ret].
    apply (look_acts (PRef name) IRef _ r (ref_at (st_kv st) name)); [done| |done].
    destruct r; [apply Hr|exact Hr].
  - eapply safe_mono; [apply safe_CompareAndSwapRef|]. intros r h Hc. cbn [safe mret prog_ret].
    apply (committed_acts _ (fun _ => Swap name nodeID x) _ _ _ _ Hc); [|by intros e ->].
    intros out m m' -> Hs. split; [by eapply swapped_acts|]. destruct Hs as (_ & _ & Hn & Hv & _). by split_and!.
  - eapply safe_mono; [apply safe_CompareAndSwapRefFenced|]. intros [out r] h Hc. cbn [safe mret prog_ret fst snd] in *.
    apply (committed_acts _ (fun _ => Fenced lease t (Swap name nodeID x)) _ _ _ _ Hc); [|by destruct r].
    intros out' m m' Hr (Hlease & Ht & Hs). destruct r as [[]|e]; [|done]. injection Hr as ->.
    split; [apply fenced_acts; [done|done|by eapply swapped_acts]|]. destruct Hs as (_ & _ & Hn & Hv & _). by split_and!.
  - eapply safe_mono; [apply safe_DeleteRef|]. intros r h Hc. cbn [safe mret prog_ret].
    apply (committed_acts _ (fun _ => Drop name x) _ _ _ _ Hc); [|by intros e ->].
    intros out m m' -> Hs. split; [by apply dropped_acts|done].
  - eapply safe_mono; [apply safe_DeleteRefFenced|]. intros r h Hc. cbn [safe mret prog_ret].
    apply (committed_acts _ (fun _ => Fenced lease t (Drop name x)) _ _ _ _ Hc); [|by intros e ->].
    intros out m m' -> (Hlease & Ht & Hs). split; [|done]. apply fenced_acts; [done|done|by apply dropped_acts].
  - eapply safe_mono; [apply safe_AcquireLease|]. intros r h Hc. cbn [safe mret prog_ret].
    apply (committed_acts _ (fun out => Acquire name (ls_Token out)) _ _ _ _ Hc); [|by intros e ->].
    intros out m m' -> Hs. split; [by eapply acquired_acts|done].
  - eapply safe_mono; [apply safe_ReleaseLease|]. intros r h Hc. cbn [safe mret prog_ret].
    apply (committed_acts _ (fun _ => Release (ls_Name lease) (ls_Token lease)) _ _ _ _ Hc); [|by intros e ->].
    intros out m m' -> Hs. split; [by apply released_acts|done].
  - eapply safe_mono; [apply readonly_PlanGC; constructor|]. intros r h Hq. cbn [safe mret prog_ret].
    apply tree_none; [by apply quiet_kv_quiet|done].
  - eapply safe_mono; [apply safe_SweepGC|]. intros r h (ps & Hr & Hp & Hall). cbn [safe mret prog_ret].
    apply (acting_did _ _ _ _ _ (Remove <$> ps)); [by apply removes_acts|]. by exists ps.
Qed.

(** ** Whole histories *)

(** C3: Linearizability of whole histories. Any number of callers store and read
    blobs, nodes and refs, swap and delete refs, acquire, check and release
    leases, plan and sweep, interleaved at the granularity of storage accesses
    with conflicts, retries and failures, while other collections use the
    engine. Once all calls have returned, there is one sequence of actions
    that is a run of the abstract tree, in which every call acts between its
    invocation and its return exactly as it answered: refs move by versions,
    leases by tokens, a fenced call acts while its token is current, a fenced
    sweep removes its whole plan at once and an unfenced one place by place,
    and no other call removes anything. *)
Theorem tree_histories_linearizable (st st' : store) (τ : list (event call answer access)) (ts : list (@caller answer)) :
  store_ok st -> conc exec_call elsewhere st τ ts st' -> all_legal legal τ -> Forall (eq Returned) ts ->
  exists μ : list (event call answer act),
    linearization acts_on summary τ μ (content (st_kv st)) (content (st_kv st')).
Proof.
  intros Hok Hc Hl Hret.
  destruct (conc_linearized acts_on summary abs elsewhere tree_elsewhere_abs exec_call store_ok guar legal
    tree_safe_call tree_elsewhere_ok st τ ts st' Hok Hc Hl Hret) as (_ & μ & Hμ).
  by exists μ.
Qed.

(** two writers move the same ref from the same version; one of them does *)
Lemma tree_histories_linearizable_witness :
  exists st' τ ts (μ : list (event call answer act)),
    conc exec_call elsewhere (MkStore base_kv ∅) τ ts st' /\ Forall (eq Returned) ts /\
    Return 0%nat (ARef (Err ErrRefConflict)) ∈ τ /\
    linearization acts_on summary τ μ (content base_kv) (content (st_kv st')).
Proof.
  set (swap := exec_call (CSwap "main" id0 0)).
  destruct (run swap (open_kv base_kv) NewMemoryBlobStore test_env) as [[[x1 k1] b1] e1] eqn:E1.
  destruct (run swap k1 b1 test_env) as [[[x0 k0] b0] e0] eqn:E0.
  assert (Hx : x0 = ARef (Err ErrRefConflict)).
  { set (r1 := run swap (open_kv base_kv) NewMemoryBlobStore test_env) in *.
    assert (H0 : fst (fst (fst (run swap (snd (fst (fst r1))) (snd (fst r1)) test_env))) = ARef (Err ErrRefConflict))
      by (vm_compute; reflexivity).
    rewrite E1 in H0. cbn [fst snd] in H0. by rewrite E0 in H0. }
  pose proof (conc_invoke exec_call elsewhere (MkStore base_kv ∅) _ _ _ (CSwap "main" id0 0)
    (conc_invoke _ _ _ _ _ _ (CSwap "main" id0 0) (conc_start _ _ _))) as Hc.
  replace (MkStore base_kv ∅) with (view (open_kv base_kv) NewMemoryBlobStore) in Hc at 2 by reflexivity.
  destruct (conc_complete _ _ _ _ _ 1 _ _ (open_kv base_kv) NewMemoryBlobStore _ _ _ _ Hc eq_refl E1) as [h1 Hc1].
  destruct (conc_complete _ _ _ _ _ 0 _ _ _ _ _ _ _ _ Hc1 eq_refl E0) as [h0 Hend].
  destruct (tree_histories_linearizable (MkStore base_kv ∅) _ _ _ base_ok Hend) as (μ & Hμ);
    [|by repeat constructor|].
  { repeat apply all_legal_app; auto with s3db; by apply all_legal_invoke. }
  do 3 eexists. exists μ. split; [exact Hend|]. split; [by repeat constructor|]. rewrite Hx.
  split; [apply elem_of_app; right; by apply list_elem_of_singleton|].
  rewrite <- Hx. exact Hμ.
Defined.
