(* ===== verification/Coexist.v ===== *)
(** * Collections that share an engine

    The stores, queues, trees and caches of a program may live on one
    key/value engine. [Collection] states what each of them promises to the
    others: its invariant depends only on the keys under its own prefixes, its
    changes touch only those keys, and its clients keep to both. The four
    components implement it. Collections whose prefixes are not comparable can
    then run side by side: each keeps its invariant, and no step of one is
    seen by another. *)
From S2P Require Import Prelude GoBase Base64 Codec Storage Logic Cells.
From S2P Require Import MemoryKV MemoryBlob Sequential Testing.
From S2P Require Import CasData Cas CasLogic CasList CasProps.
From S2P Require Import QueueData Queue QueueLogic QueueSafe QueueProps.
From S2P Require Import TreeData Tree TreeLogic TreeSafe TreeProps.
From S2P Require Import LruData Lru LruLogic LruSafe LruProps.

Local Open Scope Z_scope.

(** ** Keys of a collection *)

(** the key lies under one of the prefixes *)
Definition owned (ps : list string) (k : string) : bool := existsb (fun p => has_prefix p k) ps.

(** no prefix of [ps] is a prefix of one of [qs], nor the other way round *)
Definition separate (p q : string) : bool := negb (has_prefix p q) && negb (has_prefix q p).
Definition separate_all (ps qs : list string) : bool := forallb (fun p => forallb (separate p) qs) ps.

Lemma separate_sym p q : separate p q = separate q p.
Proof. apply andb_comm. Qed.

Lemma separate_spec p q k : separate p q = true -> has_prefix p k = true -> has_prefix q k = false.
Proof.
  unfold separate. rewrite andb_true_iff, !negb_true_iff. intros [H1 H2] Hp.
  destruct (has_prefix q k) eqn:Hq; [|done].
  apply has_prefix_spec in Hp as [r ->], Hq as [r' E].
  destruct (str_app_split _ _ _ _ E) as [[x ->]|[x ->]];
    [by rewrite has_prefix_app in H1|by rewrite has_prefix_app in H2].
Qed.

Lemma owned_spec ps k : owned ps k = true <-> exists p, p ∈ ps /\ has_prefix p k = true.
Proof. unfold owned. rewrite existsb_exists. by setoid_rewrite <- list_elem_of_In. Qed.

Lemma separate_owned ps qs k : separate_all ps qs = true -> owned ps k = true -> owned qs k = false.
Proof.
  unfold separate_all. rewrite forallb_forall. intros Hs (p & Hp & Hk)%owned_spec.
  apply not_true_iff_false. intros (q & Hq & Hk')%owned_spec.
  apply list_elem_of_In in Hp, Hq. specialize (Hs _ Hp). rewrite forallb_forall in Hs.
  pose proof (separate_spec _ _ _ (Hs _ Hq) Hk). congruence.
Qed.

(** ** The interface *)

(** outside the keys under [ps], nothing changes *)
Definition confined (ps : list string) (s s' : store) : Prop :=
  forall k, owned ps k = false -> st_kv s' !! k = st_kv s !! k.
(** the keys under [ps] do not change *)
Definition untouched (ps : list string) (s s' : store) : Prop :=
  forall k, owned ps k = true -> st_kv s' !! k = st_kv s !! k.

Class Collection (C : Type) := {
  prefixes : C -> list string;
  inv : C -> store -> Prop;
  moves : C -> store -> store -> Prop;
  user : C -> prog unit -> Prop;
  inv_untouched c s s' : untouched (prefixes c) s s' -> inv c s -> inv c s';
  moves_confined c s s' : moves c s s' -> confined (prefixes c) s s';
  user_safe c p : user c p -> safe (inv c) (moves c) [] p (fun _ _ => True);
}.

(** a component with a single key space *)
Lemma space_untouched {C A} `{HJ : GoJSON A} (HK : KeySpace C A) c s s' :
  untouched [ks_prefix c] s s' -> well c (st_kv s) -> well c (st_kv s').
Proof.
  intros Hs Hw. apply (well_frame c (st_kv s)); [|done]. intros k Hk. apply Hs. cbn. by rewrite Hk.
Qed.

Lemma confined_one p s s' :
  (forall k, has_prefix p k = false -> st_kv s' !! k = st_kv s !! k) -> confined [p] s s'.
Proof. intros H k [Hk _]%orb_false_iff. by apply H. Qed.

#[export, program] Instance cas_collection : Collection CasData.Store := {
  prefixes s := [storagePrefix s];
  inv := CasLogic.store_ok;
  moves := CasLogic.guar;
  user := cas_client;
}.
Next Obligation. intros s. apply (space_untouched cas_space). Qed.
Next Obligation. intros c s s' [_ [Hout _]]. by apply confined_one. Qed.
Next Obligation. exact cas_client_safe. Qed.

#[export, program] Instance queue_collection : Collection Queue := {
  prefixes q := [qprefix q];
  inv := QueueLogic.store_ok;
  moves := QueueLogic.guar;
  user := queue_client;
}.
Next Obligation. intros q. apply (space_untouched job_space). Qed.
Next Obligation. intros q s s' [[Hout _] _]. by apply confined_one. Qed.
Next Obligation. exact queue_client_safe. Qed.

#[export, program] Instance lru_collection : Collection LruData.Store := {
  prefixes s := [Prefix (opts s)];
  inv := LruLogic.store_ok;
  moves := LruLogic.guar;
  user := lru_client;
}.
Next Obligation. intros s. apply (space_untouched lru_space). Qed.
Next Obligation.
  intros c s s' [Heq|(key & (_ & _ & _ & Hout) & _)]; [intros k _; by rewrite Heq|by apply confined_one].
Qed.
Next Obligation. exact lru_client_safe. Qed.

(** the metadata of the tree: nodes, manifests, refs and leases *)
Definition tree_prefixes : list string := [nodePrefix; manifestPrefix; refPrefix; leasePrefix].

Lemma same_but_confined p s s' :
  p ∈ tree_prefixes -> same_but p (st_kv s) (st_kv s') -> confined tree_prefixes s s'.
Proof.
  intros Hp Hs k Hk. apply Hs. apply not_true_iff_false. intros Hk'.
  apply not_true_iff_false in Hk. apply Hk, owned_spec. eauto.
Qed.

Lemma swept_confined s s' : swept (st_kv s) (st_kv s') -> confined tree_prefixes s s'.
Proof.
  intros Hs k Hk. destruct (Hs k) as [?|[_ Hp]]; [done|]. apply not_true_iff_false in Hk.
  destruct Hk. apply owned_spec. destruct Hp as [Hp|Hp]; eexists; (split; [|exact Hp]); set_solver.
Qed.

Lemma tree_confined s s' : TreeSafe.guar s s' -> confined tree_prefixes s s'.
Proof.
  intros [E|[n H|h mf _ H|name id _ H|name _ H|name H|name _ H|H]]; [intros k _; by rewrite E|..];
    [apply (same_but_confined nodePrefix)|apply (same_but_confined manifestPrefix)
    |apply (same_but_confined refPrefix)|apply (same_but_confined refPrefix)
    |apply (same_but_confined leasePrefix)|apply (same_but_confined leasePrefix)
    |by apply swept_confined]; first [set_solver|by destruct H as (_ & _ & _ & Hout)].
Qed.

#[export, program] Instance tree_collection : Collection unit := {
  prefixes _ := tree_prefixes;
  inv _ := TreeSafe.store_ok;
  moves _ := TreeSafe.guar;
  user _ := tree_client;
}.
Next Obligation.
  intros [] s s' Hs [? ? ? ?].
  assert (Hsub : forall p, p ∈ tree_prefixes -> untouched [p] s s').
  { intros p Hp k (q & ->%list_elem_of_singleton & Hk)%owned_spec. apply Hs, owned_spec. eauto. }
  constructor; [apply (space_untouched ref_space tt s)|apply (space_untouched lease_space tt s)
    |apply (space_untouched node_space tt s)|apply (space_untouched manifest_space tt s)]; try done;
    apply Hsub; set_solver.
Qed.
Next Obligation. intros []. exact tree_confined. Qed.
Next Obligation. intros []. exact tree_client_safe. Qed.

(** ** Collections on one engine *)

(** a collection of any component *)
Record collection := MkCollection { kind : Type; kind_is :: Collection kind; it : kind }.
Arguments MkCollection {kind _} it.

Definition keys_of (c : collection) : list string := prefixes (it c).

(** the collections keep out of each other's keys *)
Definition separated (c d : collection) : Prop := separate_all (keys_of c) (keys_of d) = true.
Definition apart_all (cs : list collection) : Prop := ForallOrdPairs separated cs.

Lemma separated_sym c d : separated c d -> separated d c.
Proof.
  unfold separated, separate_all. rewrite !forallb_forall. intros H q Hq. apply forallb_forall.
  intros p Hp. rewrite separate_sym. specialize (H _ Hp). rewrite forallb_forall in H. by apply H.
Qed.

Lemma apart_lookup cs i j c d :
  apart_all cs -> cs !! i = Some c -> cs !! j = Some d -> i <> j -> separated c d.
Proof.
  intros Ha. revert i j. induction Ha as [|a cs Hf _ IH]; [by intros i j|].
  rewrite Forall_lookup in Hf. intros [|i] [|j] Hc Hd Hij; simplify_eq/=; [|apply separated_sym|]; eauto.
Qed.

Section engine.
Context (cs : list collection).

Definition all_ok (s : store) : Prop := forall c, c ∈ cs -> inv (it c) s.

(** a step of the engine: a move of one of the collections, which the others
    do not see *)
Definition one_moves (s s' : store) : Prop :=
  exists i c, cs !! i = Some c /\ moves (it c) s s' /\
    forall j d, cs !! j = Some d -> i <> j -> untouched (keys_of d) s s'.

Definition engine_user (p : prog unit) : Prop := exists c, c ∈ cs /\ user (it c) p.

Context (Hapart : apart_all cs).

Lemma one_moves_intro i c s s' :
  cs !! i = Some c -> moves (it c) s s' -> one_moves s s'.
Proof.
  intros Hc Hm. exists i, c. split_and!; [done..|]. intros j d Hd Hij k Hk.
  apply (moves_confined _ _ _ Hm). eapply separate_owned; [|exact Hk]. by eapply (apart_lookup cs j i).
Qed.

Lemma allowed_engine i c s s' :
  cs !! i = Some c -> all_ok s -> allowed (inv (it c)) (moves (it c)) s s' -> allowed all_ok one_moves s s'.
Proof.
  intros Hc Hok [Hi [->|Hm]]; [split; auto|].
  pose proof (one_moves_intro _ _ _ _ Hc Hm) as Hone. split; [|by right].
  destruct Hone as (i' & c' & Hc' & _ & Hu). intros d Hd. pose proof Hd as [j Hj]%list_elem_of_lookup.
  destruct (decide (i = j)) as [->|Hij]; [by simplify_eq|].
  apply (inv_untouched _ s); [|by apply Hok]. intros k Hk. apply (moves_confined _ _ _ Hm).
  eapply separate_owned; [|exact Hk]. by eapply (apart_lookup cs j i).
Qed.

Lemma engine_user_safe p : engine_user p -> safe all_ok one_moves [] p (fun _ _ => True).
Proof.
  intros (c & Hc & Hp). pose proof Hc as [i Hi]%list_elem_of_lookup.
  eapply safe_frame; [| |by apply user_safe].
  - intros s Hok. by apply Hok.
  - intros s s' Hok Ha. by eapply allowed_engine.
Qed.

End engine.

(** ** A layout without collisions *)

Section layout.
Context (stores : list CasData.Store) (queues : list Queue) (caches : list LruData.Store).

(** cas stores, queues, caches and the one tree there can be *)
Definition layout : list collection :=
  (MkCollection <$> stores) ++ (MkCollection <$> queues) ++ (MkCollection <$> caches) ++ [MkCollection tt].

(** the prefixes of [c] start with one of [hs] *)
Definition headed (hs : list string) (c : collection) : Prop :=
  forall p, p ∈ keys_of c -> exists h, h ∈ hs /\ has_prefix h p = true.

Lemma separate_intro p q :
  (forall k, has_prefix p k = true -> has_prefix q k = true -> False) -> separate p q = true.
Proof.
  intros H. unfold separate. rewrite andb_true_iff, !negb_true_iff.
  split; apply not_true_iff_false; intros Hp; [apply (H q)|apply (H p)]; try done;
    apply has_prefix_spec; exists EmptyString; by rewrite str_app_nil_r.
Qed.

Lemma separate_heads h1 h2 p q :
  separate h1 h2 = true -> has_prefix h1 p = true -> has_prefix h2 q = true -> separate p q = true.
Proof.
  intros Hs [a ->]%has_prefix_spec [b ->]%has_prefix_spec. apply separate_intro.
  intros k [x ->]%has_prefix_spec Hk. apply has_prefix_spec in Hk as [y E].
  assert (Hf : has_prefix h2 ((h1 +:+ a) +:+ x) = false).
  { apply (separate_spec h1); [done|]. rewrite <- str_app_assoc. apply has_prefix_app. }
  rewrite E, <- str_app_assoc, has_prefix_app in Hf. done.
Qed.

Lemma headed_separated hs1 hs2 c d :
  separate_all hs1 hs2 = true -> headed hs1 c -> headed hs2 d -> separated c d.
Proof.
  unfold separated, separate_all. rewrite !forallb_forall. intros Hs Hc Hd p Hp.
  apply forallb_forall. intros q Hq. apply list_elem_of_In in Hp, Hq.
  destruct (Hc p Hp) as (h1 & Hh1 & ?), (Hd q Hq) as (h2 & Hh2 & ?).
  apply list_elem_of_In in Hh1, Hh2. specialize (Hs _ Hh1). rewrite forallb_forall in Hs.
  eapply separate_heads; eauto.
Qed.

Lemma cas_headed (s : CasData.Store) : headed ["cas/"] (MkCollection s).
Proof.
  intros p ->%list_elem_of_singleton. exists "cas/". split; [set_solver|]. apply has_prefix_app.
Qed.
Lemma queue_headed (q : Queue) : headed ["queue/"] (MkCollection q).
Proof.
  intros p ->%list_elem_of_singleton. exists "queue/". split; [set_solver|]. apply has_prefix_app.
Qed.
Lemma lru_headed (s : LruData.Store) :
  has_prefix "lru/" (Prefix (opts s)) = true -> headed ["lru/"] (MkCollection s).
Proof. intros H p ->%list_elem_of_singleton. exists "lru/". split; [set_solver|done]. Qed.
Lemma tree_headed : headed tree_prefixes (MkCollection tt).
Proof.
  intros p Hp. exists p. split; [done|]. apply has_prefix_spec. exists EmptyString. by rewrite str_app_nil_r.
Qed.

Lemma one_prefix_separated c d p q :
  keys_of c = [p] -> keys_of d = [q] -> separate p q = true -> separated c d.
Proof. unfold separated. intros -> -> Hs. cbn. by rewrite Hs. Qed.

Lemma cas_separated (s1 s2 : CasData.Store) :
  prefix s1 <> prefix s2 -> separated (MkCollection s1) (MkCollection s2).
Proof.
  intros Hne. eapply one_prefix_separated; [done..|]. apply separate_intro. intros k H1 H2.
  by destruct Hne, (storagePrefix_disjoint s1 s2 k H1 H2).
Qed.

Lemma queue_separated (q1 q2 : Queue) :
  name q1 <> name q2 -> separated (MkCollection q1) (MkCollection q2).
Proof.
  intros Hne. eapply one_prefix_separated; [done..|]. apply separate_intro.
  intros k [x ->]%has_prefix_spec [y E]%has_prefix_spec. unfold qprefix, namespace in E.
  rewrite <- !str_app_assoc in E. apply str_app_inj_l in E.
  change ("/job/" +:+ ?s) with ("/" +:+ ("job/" +:+ s)) in E. by apply segment_inj in E as [? _].
Qed.

Lemma same_kind_apart {A} `{Collection A} {B} (f : A -> B) (l : list A) :
  NoDup (f <$> l) -> (forall a b, f a <> f b -> separated (MkCollection a) (MkCollection b)) ->
  apart_all (MkCollection <$> l).
Proof.
  intros Hd Hf. induction l as [|a l IH]; [constructor|].
  apply NoDup_cons in Hd as [Ha Hd]. constructor; [|by apply IH]. apply Forall_forall.
  intros d Hin. apply list_elem_of_fmap in Hin as (b & -> & Hb). apply Hf.
  intros E. apply Ha. rewrite E. by apply list_elem_of_fmap_2.
Qed.

Lemma apart_app cs ds :
  apart_all cs -> apart_all ds -> (forall c d, c ∈ cs -> d ∈ ds -> separated c d) -> apart_all (cs ++ ds).
Proof.
  intros Hc Hd H. induction Hc as [|c cs Hf _ IH]; [done|]. cbn. constructor; [|set_solver].
  apply Forall_app_2; [done|]. apply Forall_forall. intros d Hin. set_solver.
Qed.

Lemma heads_apart hs1 hs2 cs ds :
  separate_all hs1 hs2 = true -> Forall (headed hs1) cs -> Forall (headed hs2) ds ->
  forall c d, c ∈ cs -> d ∈ ds -> separated c d.
Proof. rewrite !Forall_forall. intros Hs Hc Hd c d ?%Hc ?%Hd. by eapply headed_separated. Qed.

(** Stores with distinct prefixes, queues with distinct names, caches below
    ["lru/"] with incomparable prefixes, and the tree do not collide. *)
Lemma layout_apart :
  NoDup (prefix <$> stores) -> NoDup (name <$> queues) ->
  apart_all (MkCollection <$> caches) -> Forall (fun c => has_prefix "lru/" (Prefix (opts c)) = true) caches ->
  apart_all layout.
Proof.
  intros Hs Hq Hc Hl.
  assert (Htree : Forall (headed tree_prefixes) [MkCollection tt]) by (repeat constructor; apply tree_headed).
  assert (Hcaches : Forall (headed ["lru/"]) (MkCollection <$> caches)).
  { apply Forall_fmap. eapply Forall_impl; [exact Hl|]. intros c. apply lru_headed. }
  assert (Hqueues : Forall (headed ["queue/"]) (MkCollection <$> queues)).
  { apply Forall_fmap, Forall_true, queue_headed. }
  assert (Hstores : Forall (headed ["cas/"]) (MkCollection <$> stores)).
  { apply Forall_fmap, Forall_true, cas_headed. }
  assert (Hw : forall (hs hs' : list string) c, headed hs c -> hs ⊆ hs' -> headed hs' c).
  { intros hs hs' c Hh Hsub p (h & ? & ?)%Hh. eauto. }
  set (rest1 := "lru/" :: tree_prefixes). set (rest2 := "queue/" :: rest1).
  assert (H1 : Forall (headed rest1) ((MkCollection <$> caches) ++ [MkCollection tt])).
  { apply Forall_app_2; (eapply Forall_impl; [eassumption|]); intros c Hh; eapply Hw; try exact Hh; set_solver. }
  assert (H2 : Forall (headed rest2) ((MkCollection <$> queues) ++ (MkCollection <$> caches) ++ [MkCollection tt])).
  { apply Forall_app_2; (eapply Forall_impl; [eassumption|]); intros c Hh; eapply Hw; try exact Hh; set_solver. }
  apply apart_app; [by apply (same_kind_apart prefix), cas_separated| |by apply (heads_apart ["cas/"] rest2)].
  apply apart_app; [by apply (same_kind_apart name), queue_separated| |by apply (heads_apart ["queue/"] rest1)].
  apply apart_app; [done|by repeat constructor|by apply (heads_apart ["lru/"] tree_prefixes)].
Qed.
End layout.

(** ** All clients *)

(** C22: Stores, queues, trees and caches may share one engine. As long as their
    prefixes are not comparable, any number of clients of any of them,
    interleaved at the granularity of storage accesses with conflicts, retries
    and failures, keep every collection well-formed; and every step of the
    engine is a legal step of one collection that leaves all keys of the
    others as they are. *)
Theorem collections_coexist (cs : list collection) (ps ps' : list (prog unit)) (st st' : store) :
  apart_all cs -> all_ok cs st -> Forall (engine_user cs) ps ->
  pool_steps (all_ok cs) (one_moves cs) ps st ps' st' ->
  all_ok cs st' /\ rtc (fun a b => one_moves cs a b /\ all_ok cs b) st st'.
Proof.
  intros Ha Hok Hps Hr. apply (safe_pool _ _ _ _ _ _ Hok) in Hr; [exact Hr|].
  eapply Forall_impl; [exact Hps|]. intros p Hp. exists []. by apply engine_user_safe.
Qed.

(** one program of the pool runs to its end *)
Lemma pool_steps_one I G ps i (p p' : prog unit) s s' :
  steps p s p' s' -> ps !! i = Some p -> pool_steps I G ps s (<[i := p']> ps) s'.
Proof.
  intros Hs. revert ps. induction Hs as [p s|p s p1 s1 p2 s2 H1 _ IH]; intros ps Hp.
  - rewrite list_insert_id by done. constructor.
  - eapply pool_l; [by eapply pool_step_intro|]. specialize (IH (<[i := p1]> ps)).
    rewrite list_insert_insert_eq in IH. apply IH. rewrite list_lookup_insert_eq; [done|].
    by eapply lookup_lt_Some.
Qed.

Definition jobs_store : CasData.Store := CasData.New "jobs" [].
Definition demo : list collection := layout [jobs_store] [test_queue] [test_lru false].
Definition demo_create : prog unit := client (CasLogic.exec jobs_store (CasLogic.OpCreate "a" "1")).

Lemma demo_apart : apart_all demo.
Proof.
  apply layout_apart; [apply NoDup_singleton|apply NoDup_singleton|by repeat constructor|].
  apply Forall_singleton. reflexivity.
Qed.

Lemma demo_empty : all_ok demo empty_store.
Proof.
  unfold demo, layout. intros c Hc. rewrite !elem_of_app, !list_elem_of_fmap, list_elem_of_singleton in Hc.
  destruct Hc as [(s & -> & _)|[(q & -> & _)|[(s & -> & _)| ->]]].
  - apply (well_empty (HK := cas_space)).
  - apply (well_empty (HK := job_space)).
  - apply (well_empty (HK := lru_space)).
  - exact tree_ok_empty.
Qed.

(** a record is created in the store while the queue, the cache and the tree
    have clients too *)
Lemma collections_coexist_witness :
  let ps := [client (Claim test_queue 0); demo_create; client (AcquireLease "l"); client (Len (test_lru false))] in
  exists b, Forall (engine_user demo) ps /\ after demo_create <> ∅ /\
    all_ok demo (Logic.MkStore (after demo_create) b).
Proof.
  cbv zeta. set (ps := [client (Claim test_queue 0); demo_create; client (AcquireLease "l"); client (Len (test_lru false))]).
  assert (Hps : Forall (engine_user demo) ps).
  { repeat apply Forall_cons_2; [| | | |apply Forall_nil_2].
    - exists (MkCollection test_queue). split; [unfold demo, layout; set_solver|exact (qc_claim test_queue 0)].
    - exists (MkCollection jobs_store).
      split; [unfold demo, layout; set_solver|exact (client_op jobs_store (CasLogic.OpCreate "a" "1"))].
    - exists (MkCollection tt). split; [unfold demo, layout; set_solver|exact (tc_acquire "l")].
    - exists (MkCollection (test_lru false)).
      split; [unfold demo, layout; set_solver|exact (lc_len (test_lru false))]. }
  destruct (run demo_create NewMemoryKV NewMemoryBlobStore test_env) as [[[a k'] b'] e'] eqn:E.
  assert (Ek : after demo_create = data k') by (unfold after; by rewrite E).
  exists (bodies b'). split; [exact Hps|]. split; [intros He; vm_compute in He; discriminate|].
  rewrite Ek.
  exact (proj1 (collections_coexist demo ps (<[1%nat := Ret a]> ps) _ _ demo_apart demo_empty Hps
    (pool_steps_one _ _ ps 1 demo_create (Ret a) _ _ (run_steps demo_create _ _ _ _ _ _ _ E) eq_refl))).
Defined.
