(* ===== verification/SharedHistory.v ===== *)
(** * Histories of a whole engine

    Collections that share an engine are linearizable together: [Linearizable]
    is what a collection contributes, its calls and its abstract system, and a
    history of calls to any of them is a run of the product of their systems,
    in which an action of one collection leaves the others as they are. *)
From S2P Require Import Prelude GoBase Storage Logic Cells.
From S2P Require Import MemoryKV MemoryBlob Sequential Testing History Coexist.
From S2P Require Import Slate SlateProps S3 S3Props Production.
From S2P Require CasData CasLogic CasHistory QueueData QueueLogic QueueProps QueueHistory.
From S2P Require TreeData TreeHistory LruData LruHistory.
Local Open Scope Z_scope.

(** ** The interface *)

Class Linearizable (C : Type) `{Collection C} := {
  lz_call : Type;
  lz_answer : Type;
  lz_act : Type;
  lz_state : Type;
  lz_equiv :: Equiv lz_state;
  lz_equivalence :: Equivalence (≡@{lz_state});
  lz_exec : C -> lz_call -> prog lz_answer;
  lz_legal : C -> lz_call -> Prop;
  lz_acts_on : C -> lz_act -> lz_state -> lz_state -> Prop;
  lz_summary : C -> lz_call -> lz_answer -> list lz_act -> Prop;
  lz_abs : C -> store -> lz_state;
  lz_proper c a :: Proper ((≡) ==> (≡) ==> impl) (lz_acts_on c a);
  lz_untouched c s s' : untouched (prefixes c) s s' -> lz_abs c s ≡ lz_abs c s';
  lz_safe c x : lz_legal c x ->
    safe (inv c) (moves c) [] (lz_exec c x) (acting (lz_acts_on c) (lz_summary c) (lz_abs c) x);
}.
#[global] Arguments lz_call C {_ _}.
#[global] Arguments lz_answer C {_ _}.
#[global] Arguments lz_act C {_ _}.
#[global] Arguments lz_state C {_ _}.

Lemma untouched_one p s s' k : untouched [p] s s' -> has_prefix p k = true -> st_kv s' !! k = st_kv s !! k.
Proof. intros Hu Hk. apply Hu. cbn. by rewrite Hk. Qed.

#[export, program] Instance cas_linearizable : Linearizable CasData.Store := {
  lz_call := CasHistory.call; lz_answer := CasHistory.answer; lz_act := CasHistory.act; lz_state := CasHistory.state;
  lz_equiv := agree; lz_equivalence := agree_equivalence;
  lz_exec := CasHistory.exec_call;
  lz_legal _ _ := True;
  lz_acts_on := CasHistory.acts_on;
  lz_summary _ := CasHistory.summary;
  lz_abs := CasHistory.abs;
}.
Next Obligation. intros. apply CasHistory.acts_on_proper. Qed.
Next Obligation. intros c s s' Hu. apply CasHistory.cas_elsewhere_abs. intros k. by apply untouched_one. Qed.
Next Obligation. intros c x _. apply CasHistory.cas_safe_call. Qed.

#[export, program] Instance queue_linearizable : Linearizable QueueData.Queue := {
  lz_call := QueueHistory.call; lz_answer := QueueHistory.answer; lz_act := QueueHistory.act; lz_state := QueueHistory.state;
  lz_equiv := agree; lz_equivalence := agree_equivalence;
  lz_exec := QueueHistory.exec_call;
  lz_legal := QueueHistory.legal;
  lz_acts_on _ := QueueHistory.acts_on;
  lz_summary := QueueHistory.summary;
  lz_abs := QueueHistory.abs;
}.
Next Obligation. intros. apply QueueHistory.acts_on_proper. Qed.
Next Obligation. intros c s s' Hu. apply QueueHistory.queue_elsewhere_abs. intros k. by apply untouched_one. Qed.
Next Obligation. exact QueueHistory.queue_safe_call. Qed.

#[export, program] Instance lru_linearizable : Linearizable LruData.Store := {
  lz_call := LruHistory.call; lz_answer := LruHistory.answer; lz_act := LruHistory.act; lz_state := LruHistory.state;
  lz_equiv := agree; lz_equivalence := agree_equivalence;
  lz_exec := LruHistory.exec_call;
  lz_legal _ := LruHistory.legal;
  lz_acts_on := LruHistory.acts_on;
  lz_summary := LruHistory.summary;
  lz_abs := LruHistory.abs;
}.
Next Obligation. intros. apply LruHistory.acts_on_proper. Qed.
Next Obligation. intros c s s' Hu. apply LruHistory.lru_elsewhere_abs. intros k. by apply untouched_one. Qed.
Next Obligation. exact LruHistory.lru_safe_call. Qed.

#[export, program] Instance tree_linearizable : Linearizable unit := {
  lz_call := TreeHistory.call; lz_answer := TreeHistory.answer; lz_act := TreeHistory.act; lz_state := TreeHistory.state;
  lz_equiv := agree; lz_equivalence := agree_equivalence;
  lz_exec _ := TreeHistory.exec_call;
  lz_legal _ := TreeHistory.legal;
  lz_acts_on _ := TreeHistory.acts_on;
  lz_summary _ := TreeHistory.summary;
  lz_abs _ := TreeHistory.abs;
}.
Next Obligation. intros. apply TreeHistory.acts_on_proper. Qed.
Next Obligation.
  intros [] s s' Hu. apply TreeHistory.tree_elsewhere_abs. intros k Hk. apply Hu, owned_spec.
  unfold TreeLogic.is_ref, TreeLogic.is_lease, TreeLogic.is_node, TreeLogic.is_manifest in Hk.
  destruct_or! Hk; eexists; (split; [|exact Hk]); set_solver.
Qed.
Next Obligation. intros []. exact TreeHistory.tree_safe_call. Qed.

(** ** The product *)

(** a collection with its calls and its abstract system *)
Record member := MkMember { mb_kind : Type; mb_collection :: Collection mb_kind; mb_linearizable :: Linearizable mb_kind; mb : mb_kind }.
Arguments MkMember {mb_kind _ _} mb.
Definition as_collection (m : member) : collection := MkCollection (mb m).

Section product.
Context {ix : Type} `{EqDecision ix} (ms : ix -> member).
Context (Hapart : forall i j, i <> j -> separated (as_collection (ms i)) (as_collection (ms j))).

(** calls, answers and actions say which collection they belong to *)
Definition scall : Type := { i : ix & lz_call (mb_kind (ms i)) }.
Definition sanswer : Type := { i : ix & lz_answer (mb_kind (ms i)) }.
Definition sact : Type := { i : ix & lz_act (mb_kind (ms i)) }.
Definition SCall i (c : lz_call (mb_kind (ms i))) : scall := existT i c.
Definition SAnswer i (x : lz_answer (mb_kind (ms i))) : sanswer := existT i x.
Definition SAct i (a : lz_act (mb_kind (ms i))) : sact := existT i a.

(** a state of every collection *)
Definition sstate : Type := forall i, lz_state (mb_kind (ms i)).
#[export] Instance same_states : Equiv sstate := fun σ σ' => forall i, σ i ≡ σ' i.
#[export] Instance same_states_equivalence : Equivalence (≡@{sstate}).
Proof.
  split; [by intros σ i|intros σ σ' H i; symmetry; by apply H|].
  intros σ1 σ2 σ3 H H' i. by trans (σ2 i).
Qed.

Definition sexec (c : scall) : prog sanswer :=
  let (i, c) := c in x ← lz_exec (mb (ms i)) c; mret (SAnswer i x).
Definition slegal (c : scall) : Prop := let (i, c) := c in lz_legal (mb (ms i)) c.

(** an action of a collection, which the others do not see *)
Definition sacts_on (a : sact) (σ σ' : sstate) : Prop :=
  let (i, a) := a in lz_acts_on (mb (ms i)) a (σ i) (σ' i) /\ forall j, j <> i -> σ j ≡ σ' j.

Inductive ssummary : scall -> sanswer -> list sact -> Prop :=
| ssummary_of i c x l : lz_summary (mb (ms i)) c x l -> ssummary (SCall i c) (SAnswer i x) (SAct i <$> l).

Definition sabs (st : store) : sstate := fun i => lz_abs (mb (ms i)) st.

(** every collection is well-formed; one of them moves *)
Definition sinv (st : store) : Prop := forall i, inv (mb (ms i)) st.
Definition smoves (st st' : store) : Prop := exists i, moves (mb (ms i)) st st'.

(** whatever else uses the engine *)
Definition aside (st st' : store) : Prop := forall i, untouched (prefixes (mb (ms i))) st st'.

#[export] Instance sacts_on_proper a : Proper ((≡) ==> (≡) ==> impl) (sacts_on a).
Proof.
  intros σ σ0 Heq σ' σ0' Heq'. destruct a as [i a]. intros [Ha Ho]. split.
  - eapply lz_proper; [by apply Heq|by apply Heq'|exact Ha].
  - intros j Hne. rewrite <- (Heq j), <- (Heq' j). by apply Ho.
Qed.

Lemma aside_abs st st' : aside st st' -> sabs st ≡ sabs st'.
Proof. intros Ha i. by apply lz_untouched, Ha. Qed.
Lemma aside_ok st st' : aside st st' -> sinv st -> sinv st'.
Proof. intros Ha Hok i. by apply (inv_untouched _ st). Qed.

(** a move of one collection is not seen by the others *)
Lemma others_untouched i j st st' :
  j <> i -> allowed (inv (mb (ms i))) (moves (mb (ms i))) st st' -> untouched (prefixes (mb (ms j))) st st'.
Proof.
  intros Hne [_ [->|Hmv]]; [done|]. intros k Hk. apply (moves_confined _ _ _ Hmv).
  by apply (separate_owned (prefixes (mb (ms j)))); [apply Hapart|].
Qed.

Lemma allowed_member i st st' :
  sinv st -> allowed (inv (mb (ms i))) (moves (mb (ms i))) st st' -> allowed sinv smoves st st'.
Proof.
  intros Hok Ha. split.
  - intros j. destruct (decide (j = i)) as [->|Hne]; [apply Ha|].
    apply (inv_untouched _ st); [by eapply others_untouched|done].
  - destruct Ha as [_ [->|Hmv]]; [by left|]. right. by exists i.
Qed.

(** what a call does to its collection, it does to the product *)
Lemma product_acts i c x h :
  Forall (fun a => inv (mb (ms i)) (fst a) /\ allowed (inv (mb (ms i))) (moves (mb (ms i))) (fst a) (snd a)) h ->
  acting (lz_acts_on (mb (ms i))) (lz_summary (mb (ms i))) (lz_abs (mb (ms i))) c x h ->
  acting sacts_on ssummary sabs (SCall i c) (SAnswer i x) h.
Proof.
  intros Hh (ls & He & Hs). exists (option_map (SAct i) <$> ls). split.
  - clear Hs. revert Hh. induction He as [|l [st st'] ls h Hl _ IH]; intros Hh; [constructor|].
    apply Forall_cons in Hh as [[_ Ha] Hh]. constructor; [|by apply IH].
    assert (Ho : forall j, j <> i -> sabs st j ≡ sabs st' j)
      by (intros j Hne; apply lz_untouched; by eapply others_untouched).
    destruct l as [l|]; cbn in Hl |- *; [by split|].
    intros j. destruct (decide (j = i)) as [->|Hne]; [exact Hl|by apply Ho].
  - assert (E : omap id (option_map (SAct i) <$> ls) = SAct i <$> omap id ls).
    { clear. induction ls as [|[l|] ls IH]; cbn; [done|by f_equal|exact IH]. }
    rewrite E. by constructor.
Qed.

Lemma shared_safe_call c : slegal c -> safe sinv smoves [] (sexec c) (acting sacts_on ssummary sabs c).
Proof.
  destruct c as [i c]. intros Hl. unfold sexec. apply safe_bind.
  apply (safe_frame (inv (mb (ms i))) _ (moves (mb (ms i))) _); [| |eapply safe_mono; [eapply safe_recorded; [constructor|by apply lz_safe]|]].
  - intros s Hok. by apply Hok.
  - intros s s' Hok Ha. by apply (allowed_member i).
  - intros x h [Ha Hh]. cbn [safe mret prog_ret]. by apply product_acts.
Qed.
End product.

(** a call alone on an engine *)
Lemma run_sexec `{KV K, BlobStore B} {ix : Type} (ms : ix -> member) i c (k : K) (b : B) e x k' b' e' :
  run (lz_exec (mb (ms i)) c) k b e = (x, k', b', e') ->
  run (sexec ms (SCall ms i c)) k b e = (SAnswer ms i x, k', b', e').
Proof. intros Hr. unfold sexec, SCall. rewrite run_bind. by rewrite Hr. Qed.

(** ** Whole histories of an engine *)


(** a store, a queue, a cache and the tree on SlateDB and S3 *)
Inductive place := AStore | AQueue | ACache | ATree.
#[export] Instance place_eq_dec : EqDecision place.
Proof. solve_decision. Defined.
Definition members (i : place) : member :=
  match i with
  | AStore => MkMember jobs_store
  | AQueue => MkMember QueueProps.test_queue
  | ACache => MkMember (LruProps.test_lru false)
  | ATree => MkMember tt
  end.
Definition place_index (i : place) : nat :=
  match i with AStore => 0 | AQueue => 1 | ACache => 2 | ATree => 3 end.

Lemma members_demo i : demo !! place_index i = Some (as_collection (members i)).
Proof. by destruct i. Qed.
Lemma members_apart i j : i <> j -> separated (as_collection (members i)) (as_collection (members j)).
Proof.
  intros Hne. apply (apart_lookup demo (place_index i) (place_index j)); [exact demo_apart|apply members_demo..|].
  by destruct i, j.
Qed.
Lemma members_empty i : inv (mb (members i)) empty_store.
Proof.
  apply (demo_empty (as_collection (members i))). eapply list_elem_of_lookup_2, members_demo.
Qed.

Definition create_call : CasHistory.call := CasHistory.COp (CasLogic.OpCreate "a" "1").

