(* ===== verification/Demos.v ===== *)
(** * The demonstrations (src/examples)

    The four command-line programs as programs over the storage interfaces,
    with the lines they print. [log.Fatal] ends a program with its error. The
    theorems run each of them on the in-memory engine it opens. *)
From S2P Require Import Prelude GoBase JsonLit Hash Codec Storage Logic.
From S2P Require Import MemoryKV MemoryBlob Sequential Testing.
From S2P Require CasData Cas QueueData Queue TreeData Tree LruData Lru LruLogic.
Local Open Scope Z_scope.

(** ** Programs that print and may exit *)

Definition demo (A : Type) : Type := prog (list string * result A).

#[export] Instance demo_ret : MRet demo := fun A a => Ret ([], Ok a).
#[export] Instance demo_bind : MBind demo := fun A B f p =>
  prog_bind p (fun '(out, r) =>
    match r with
    | Err e => Ret (out, Err e)
    | Ok a => prog_bind (f a) (fun '(out', r') => Ret (out ++ out', r'))
    end).

(** [fmt.Println] *)
Definition println (line : string) : demo unit := Ret ([line], Ok tt).
(** [log.Fatal] *)
Definition fatal {A} (e : error) : demo A := Ret ([], Err e).
(** a call whose error ends the program *)
Definition must {A} (p : prog (result A)) : demo A := prog_bind p (fun r => Ret ([], r)).
(** a call whose error the program looks at *)
Definition attempted {A} (p : prog A) : demo A := prog_bind p (fun a => Ret ([], Ok a)).

(** [%d] *)
Definition dec (n : Z) : string := of_codes (print_int n).

(** ** examples/casdemo *)

Definition failed_with {A} (r : result A) (target : error) : bool :=
  match r with Err e => errors_is e target | Ok _ => false end.

Definition casdemo_store : CasData.Store :=
  CasData.New "demo/" [CasData.WithTombstoneRetention (5 * minute)].

Definition casdemo : demo unit :=
  let store := casdemo_store in
  rec ← must (Cas.Create store "config" "v1");
  println ("created config at revision " +:+ dec (CasData.Revision rec));;
  rec ← must (Cas.CompareAndSwap store "config" (CasData.Revision rec) "v2");
  println ("swapped config to revision " +:+ dec (CasData.Revision rec));;
  stale ← attempted (Cas.CompareAndSwap store "config" (u64 (CasData.Revision rec - 1)) "v2-stale");
  if negb (failed_with stale CasData.ErrRevisionMismatch) then fatal (Plain "expected conflict, got %v") else
  println "detected stale revision conflict as expected";;
  rec ← must (Cas.Get store "config");
  println ("current value: " +:+ CasData.Value rec +:+ " at revision " +:+ dec (CasData.Revision rec));;
  rec ← must (Cas.Delete store "config" (CasData.Revision rec));
  println ("deleted config at revision " +:+ dec (CasData.Revision rec));;
  gone ← attempted (Cas.Get store "config");
  if negb (failed_with gone CasData.ErrNotFound) then fatal (Plain "expected not found, got %v") else
  println "get after delete returns ErrNotFound as expected";;
  n ← must (r ← Cas.GC store; mret (match snd r with Some e => Err e | None => Ok (fst r) end));
  println ("gc deleted " +:+ dec n +:+ " tombstone(s)").

(** ** examples/queuedemo *)

Definition queuedemo_queue : QueueData.Queue :=
  QueueData.New "demo" [QueueData.WithLeaseDuration (30 * second)].
Definition queuedemo_task : string := of_codes [123; 34; 116; 97; 115; 107; 34; 58; 34; 100; 101; 109; 111; 34; 125]%N.

(** [io.ReadAll] *)
Definition read_all (r : reader) : result string :=
  match rd_err r with Some e => Err e | None => Ok (rd_data r) end.

Definition queuedemo : demo unit :=
  let q := queuedemo_queue in
  '(id, created) ← must (Queue.Enqueue q queuedemo_task (QueueData.MkEnqueueOptions "demo-1" "" 0 0));
  println ("job=" +:+ id +:+ " created=" +:+ (if created : bool then "true" else "false"));;
  job ← must (Queue.Claim q 0);
  body ← must (Queue.OpenPayload job);
  payload ← must (mret (read_all body));
  println ("claimed=" +:+ QueueData.ID job +:+ " attempts=" +:+ dec (QueueData.Attempts job) +:+ " payload=" +:+ payload);;
  must (Queue.Complete q job).

(** ** examples/treedemo *)

Definition treedemo : demo unit :=
  let payload := "release artifact" in
  manifest ← must (Tree.PutBlob (sha256_hex payload) (bytes_reader payload)
    (Tree.MkPutOptions "artifact" (Z.of_nat (String.length payload))));
  nodeID ← must (Tree.PutNode (TreeData.MkNode "release" true [TreeData.mf_Hash manifest] []));
  head ← must (Tree.CompareAndSwapRef "main" nodeID 0);
  lease ← must (Tree.AcquireLease "publisher");
  must (Tree.CheckFence (TreeData.ls_Name lease) (TreeData.ls_Token lease));;
  println ("head=" +:+ TreeData.rf_NodeID head +:+ " version=" +:+ dec (TreeData.rf_Version head)
    +:+ " blob=" +:+ TreeData.mf_Hash manifest).

(** ** examples/lrudemo *)

Definition lrudemo_options : LruData.Options :=
  LruData.MkOptions "" 4 0 1 false 0 (400 * 1000000).

(** [fmt.Sprintf("key-%02d", i)] for one digit *)
Definition lrudemo_key (i : Z) : string := "key-0" +:+ dec i.

Fixpoint lrudemo_sets (store : LruData.Store) (now : time) (js : list Z) : demo unit :=
  match js with
  | [] => mret tt
  | j :: js =>
      must (Lru.Set_ store (lrudemo_key j) (LruData.MkEntryMeta (100 + j * 10) now now));;
      lrudemo_sets store now js
  end.

Fixpoint lrudemo_found (store : LruData.Store) (js : list Z) : demo Z :=
  match js with
  | [] => mret 0
  | j :: js =>
      r ← attempted (Lru.Get store (lrudemo_key j));
      n ← lrudemo_found store js;
      mret (if is_ok r then n + 1 else n)
  end.

(** [ticks] is what the evictor does while [main] sleeps *)
Definition lrudemo (ticks : list nat) : demo unit :=
  store ← must (mret (LruData.New lrudemo_options));
  let '(store, started) := Lru.StartEvictor store in
  must (mret started);;
  now ← attempted (Now (fun t => Ret t));
  lrudemo_sets store now [0; 1; 2; 3; 4; 5];;
  println "set 6 keys";;
  ent ← must (Lru.Get store "key-00");
  println ("got key-00: size=" +:+ dec (LruData.SizeBytes (LruData.Meta ent)) +:+ " rev=" +:+ dec (LruData.Revision ent));;
  must (Lru.Touch store "key-00");;
  println "touched key-00";;
  before ← must (Lru.GetStats store);
  println ("before eviction: approxItems=" +:+ dec (LruData.Items before));;
  attempted (Lru.evictor store ticks);;
  found ← lrudemo_found store [0; 1; 2; 3; 4; 5];
  stats ← must (Lru.GetStats store);
  println ("after eviction: found=" +:+ dec found +:+ " items=" +:+ dec (LruData.Items stats)).

(** ** What they print *)

(** a clock that advances by a millisecond at every reading *)
Definition ticking_env : env :=
  MkEnv (fun n => Add unix_epoch (Z.of_nat n * 1000000)) 0 (entropy test_env) 0 (fun _ => None) 0.

Definition printed {A} (p : demo A) : list string * result A :=
  fst (fst (fst (run p NewMemoryKV NewMemoryBlobStore ticking_env))).

(** The cas demonstration runs to its end; its garbage collection removes
    nothing, since the tombstone is younger than its retention. *)
Theorem casdemo_prints :
  printed casdemo =
    (["created config at revision 1"; "swapped config to revision 2";
      "detected stale revision conflict as expected"; "current value: v2 at revision 2";
      "deleted config at revision 3"; "get after delete returns ErrNotFound as expected";
      "gc deleted 0 tombstone(s)"]%stdpp, Ok tt).
Proof. vm_compute. reflexivity. Qed.

(** The queue demonstration gets its payload back, and completes the job. *)
Theorem queuedemo_prints :
  printed queuedemo =
    (["job=demo-1 created=true"; "claimed=demo-1 attempts=1 payload=" +:+ queuedemo_task]%stdpp, Ok tt).
Proof. vm_compute. reflexivity. Qed.

(** The tree demonstration publishes a node as version 1 of [main]. *)
Theorem treedemo_prints :
  let hash := sha256_hex "release artifact" in
  printed treedemo =
    (["head=" +:+ TreeData.NodeID (TreeData.MkNode "release" true [hash] []) +:+ " version=1 blob=" +:+ hash]%stdpp, Ok tt).
Proof. vm_compute. reflexivity. Qed.

(** The lru demonstration: after the evictor has run, one entry is left. It is
    the touched one, although the demonstration says that it goes too. *)
Theorem lrudemo_prints :
  printed (lrudemo [6; 6]%nat) =
    (["set 6 keys"; "got key-00: size=100 rev=1"; "touched key-00"; "before eviction: approxItems=6";
      "after eviction: found=1 items=1"]%stdpp, Ok tt) /\
  let '(_, k, _, _) := run (lrudemo [6; 6]%nat) NewMemoryKV NewMemoryBlobStore ticking_env in
  match LruData.New lrudemo_options with
  | Ok store => is_Some (LruLogic.record_at store (data k) "key-00")
  | Err _ => False
  end.
Proof. split; [vm_compute; reflexivity|]. vm_compute. eauto. Qed.
